(* ===== verification/_CoqProject ===== *)
-Q . S2P
Prelude.v
Golang.v
Retry.v
Semaphore.v
GoHeap.v
QueueTypes.v
MemoryBackend.v
DeadLetter.v
Queue.v
QueueSystem.v
QueueSafety.v
QueueClose.v
QueueProgress.v
QueueRaces.v
PoolConfig.v
Scaler.v
JobContext.v
Claims.v
Pool.v
PoolTable.v
PoolSafety.v
PoolInvariant.v
PoolTheorems.v
PoolProgress.v
PoolDelivery.v
PoolOptions.v
PoolRaces.v
Task.v
TaskRuns.v
TaskTermination.v
TaskRetry.v
TaskGroup.v
TaskGroupInvariant.v
TaskGroupSafety.v
TaskGroupBatch.v
TaskGroupBatchSafety.v
Yielder.v
YielderSafety.v
QueueStream.v
QueueStreamSafety.v
Lobby.v
LobbySafety.v
LobbyProgress.v
