(* ===== verification/Prelude.v ===== *)
(** * go-asynctasklib: verification development (root file)

    The library (Go, [src/pkg/]) has seven packages. [semaphore] is a counting
    semaphore on a buffered channel. [retry] computes the delay before an attempt.
    [task] runs a function once or with retries and tracks its state; [taskgroup]
    runs many tasks, at most a fixed number at a time, on a semaphore. [yielder]
    streams values through a bounded channel; [taskqueue] has the lobby (a bounded
    staging channel read and filled through yielders) and the queue (leases, retries
    and dead letters over a storage backend). [workerpool] runs jobs on a fixed or
    auto-scaled set of workers that advertise themselves on a claims channel.

    ** Files

    - [Prelude]: notations, tactics, machine integers, lemmas on step relations.
    - [Golang]: errors, contexts and channels of the language and its standard
      library, as far as the packages observe them.
    - [Retry] (retry/): options, capping, jitter, the linear and the exponential
      strategy; durations wrap at 64 bits, [math.Pow(2, n)] times the base delay is
      computed in binary64.
    - [Semaphore] (semaphore/): every method as the outcomes it can have in a state.
    - [GoHeap] (container/heap, standard library): push and pop over the class
      [HeapInterface], correct for any instance of [HeapLaws].
    - [QueueTypes] (taskqueue/ backend.go, deadletter.go, events.go, errors.go):
      tasks, leases, events; the classes [Backend] and [DeadLetter] with their laws,
      the abstract store and the specification of each backend call.
    - [MemoryBackend], [DeadLetter] (memory_backend.go, deadletter.go): the in-memory
      stores, instances of these classes and laws.
    - [Queue] (queue.go): each method as a program over atomic actions; [act]
      executes an action on the shared state, [run] a program alone.
    - [QueueSystem]: the threads of the queue interleaved: clients, the reaper, [Close],
      cancellations; a rely-guarantee argument, generic in what a thread may rely on.
    - [QueueSafety], [QueueClose]: two instances of it, what becomes of the tasks and
      what a returned [Close] guarantees. [QueueProgress]: a [Close] can return.
    - [QueueRaces]: instances at concrete states, two races and a second [Close].
    - [PoolConfig], [Scaler], [JobContext], [Claims] (workerpool/): configuration and
      defaults; the scaling policy; the context of a job; the claims' shared state.
    - [Pool] (pool.go, worker.go, claims.go, scaler.go): one step function per
      goroutine (run loop, dispatcher, scaler, close, Submit) over one record.
    - [PoolTable], [PoolSafety], [PoolInvariant], [PoolTheorems]: what ties workers to
      their loops; conservation of jobs; the invariant; what the pool guarantees.
    - [PoolProgress]: workers in use keep a context, so nothing but a run loop can panic;
      a started [close] can finish, by a measure on its goroutine, dispatcher and scaler.
    - [PoolDelivery]: the dispatcher and one responsive run loop serve the whole backlog.
    - [PoolOptions] (pool.go, worker.go): the options of [New], [newWorker], the wiring of
      [startScaler]; what [New] returns for any options.
    - [PoolRaces]: instances and three runs that end badly.
    - [Task] (task/): the task, hooks, builder; [Go], [GoRetry], [Await], [run] and
      [delegateFn] as steps of any number of callers, runs and functions over one task.
    - [TaskRuns], [TaskTermination], [TaskRetry]: why a run returns what it does; calls
      end; the attempts of one [GoRetry].
    - [TaskGroup], [TaskGroupInvariant], [TaskGroupSafety] (taskgroup/): [Submit], [Stop],
      [Wait] over the tasks and a semaphore; the limit on unfinished tasks, and the one
      step that can panic.
    - [TaskGroupBatch], [TaskGroupBatchSafety]: [SubmitBatch] and [SubmitWithErrGroup] as
      callers of [Submit]; they only make steps of the group.
    - [Yielder], [YielderSafety] (yielder/): the generator goroutine, [Stop], the consumer;
      what a yielder guarantees to any of them.
    - [QueueStream], [QueueStreamSafety]: [Stream] of queue.go, its feeder and its yielder
      among the threads of [QueueSafety].
    - [Lobby], [LobbySafety] (taskqueue/lobby.go): submissions under the read lock, the
      close, the yielders over the channel.
    - [LobbyProgress]: a call of [CloseContext] can return.

    ** How state and operations correspond

    A Go struct is a record with the fields the code reads; a critical section, an
    atomic access or a channel operation is one step; in the pool the reads and writes of
    a method that others can come between are steps of their own ([join], [leave], the
    scaler's reads and [pickVictim]), but a receive from a closed channel and the access
    that follows it are one. Where goroutines interleave,
    a method is a program of such actions ([Queue]) or a phase per position in the
    source ([Pool], [Task], [TaskGroup], [Yielder], [Lobby], [QueueStream]).
    Time, UUIDs, map iteration order and the case a select takes are arguments or
    choices, so a theorem holds for all of them. Error values are [Golang.error], a
    panic is [Panic]. A WaitGroup is its counter, which the goroutines it counts determine,
    and its waiters, woken by the counter at zero: one that then finds the counter above
    zero panics, as [sync] does. History that no code reads (accepted tasks or jobs, issued
    tokens, events) is kept in extra fields.

    ** What the theorems show

    - Stores: any sequence of calls on the in-memory backend refines the abstract
      store; tasks come out in the order of the mode.
    - Queue: under every interleaving without [Redrive] no accepted task is lost, and
      deliveries stay within the ceiling; each method's result on every branch; a [Close]
      that returned has waited for the reaper unless its context cut the wait short.
    - Pool: under every interleaving each accepted job is in exactly one place and
      reported at most once; sizes stay within bounds; a graceful shutdown hands off
      the backlog; only a run loop can panic, and only after a leave timed out; a [close]
      that has started can finish whatever the handlers do; one worker that still answers
      can serve the whole backlog, in order, past the stale claims of others.
    - Policies: retry delays, scaling decisions, choice of victim, defaults.
    - Task: sequential failed attempts, bounded executions, justified results.
    - Task group: at most the given number of tasks unfinished, every slot owed; batches
      and error groups refine the group.
    - Yielder: nothing lost or reordered on the way to the consumer; what [WithValues] puts
      in comes out; a done context ends the goroutine.
    - Stream: the queue's guarantees survive it, and a claim is in one place.
    - Lobby: no send on the closed channel; each task to one taker, in order; a close can
      return even if the lobby is full and its submitters hold the lock.
    - Races and defects found while modelling are theorems as well: runs evaluated
      from an initial state that end in a state the documentation excludes.

    ** Bounds and fuel

    [GoHeap]'s loops take the length of the heap as fuel, which its lemmas prove to be
    enough. [Dequeue] takes a number of polls; its theorem says how many are enough
    for the timeout. A stream's feeder runs its [Dequeue] with as much fuel as its step
    is given; out of fuel is a poll still going on. The reaper runs the number of rounds
    it is started with, any number, and is stuck after them; [can_stop] says that they
    are not used up. The step relations have no bound.

    ** Not modelled

    Nil arguments the code uses without a test (a nil context where it does not return
    [ErrNilCtx], a nil backend, option or observer of the queue), a crash of the caller's
    making; observers other than as a trace of events (hooks of one step run in the order of
    the source); golang.org/x other than as a parameter (the rate limiter lets a call go
    on or fails it; an error group is the result of its [Wait]); the observers and the
    handler of [noop.go], which do nothing; a hook of a task that blocks, and what others
    could see between the store of a state and its hook; a pool handler that leaves its
    goroutine with [runtime.Goexit] (its run loop ends and the job is never reported); calls
    of [Go] by the client on a task a group returned; [Error] of the pool, which reads a field
    nothing writes; the in-place writes of [New] to the caller's [Config] (a second pool
    made from it reads the normalized values, and normalizing them again changes
    nothing); data races proper (a field read without a lock, such as a yielder's
    [Err]), since every step is atomic. *)
From stdpp Require Export base tactics decidable numbers list gmap sets strings relations.
From Stdlib Require Export ZArith Lia ZifyNat.

(** ** Notation scope of the development *)
Declare Scope go_scope.
Delimit Scope go_scope with go.

(** ** Go control flow: a call returns a value or panics *)
Inductive outcome (A : Type) : Type :=
| Ret (a : A)
| Panic.
Arguments Ret {A} a.
Arguments Panic {A}.

Definition obind {A B} (m : outcome A) (k : A → outcome B) : outcome B :=
  match m with
  | Ret a => k a
  | Panic => Panic
  end.

Notation "x <-- m ;;; k" := (obind m (λ x, k))
  (at level 100, m at next level, right associativity) : go_scope.

Lemma obind_Ret {A B} (m : outcome A) (k : A → outcome B) b :
  obind m k = Ret b → ∃ a, m = Ret a ∧ k a = Ret b.
Proof. destruct m; cbn; [eauto|done]. Qed.

(** ** Machine integers: Go's [int], [int64] and [time.Duration] are 64-bit
    two's complement on the supported platforms, [uint32] is modular. *)
Definition min_int64 : Z := - 2 ^ 63.
Definition max_int64 : Z := 2 ^ 63 - 1.
Definition wrap64 (z : Z) : Z := (z + 2 ^ 63) `mod` 2 ^ 64 - 2 ^ 63.
Definition wrap32u (z : Z) : Z := z `mod` 2 ^ 32.
Definition int64 (z : Z) : Prop := (min_int64 ≤ z ≤ max_int64)%Z.

Lemma wrap64_id z : int64 z → wrap64 z = z.
Proof.
  unfold int64, wrap64, min_int64, max_int64. intros H.
  rewrite Z.mod_small; lia.
Qed.

Lemma wrap64_int64 z : int64 (wrap64 z).
Proof.
  unfold int64, wrap64, min_int64, max_int64.
  pose proof (Z.mod_pos_bound (z + 2 ^ 63) (2 ^ 64)). lia.
Qed.

Lemma wrap32u_id z : (0 ≤ z < 2 ^ 32)%Z → wrap32u z = z.
Proof. intros H. unfold wrap32u. by rewrite Z.mod_small. Qed.

Create HintDb golib.
Create Rewrite HintDb golib.
#[export] Hint Resolve wrap64_int64 : golib.
#[export] Hint Rewrite wrap64_id wrap32u_id using (unfold int64, min_int64, max_int64 in *; lia) : golib.

(** ** Durations, in nanoseconds *)
Definition Millisecond : Z := 1000000.
Definition Second : Z := 1000 * Millisecond.

(** ** Tactics *)

(** Case analysis on the scrutinee of the first match of the goal or of a hypothesis. *)
Ltac case_goal :=
  match goal with
  | |- context [match ?x with _ => _ end] => destruct x eqn:?
  end.

Ltac case_hyp :=
  match goal with
  | _ : context [match ?x with _ => _ end] |- _ => destruct x eqn:?
  end.

(** Boolean comparisons turned into propositions. *)
Ltac boolify :=
  repeat match goal with
  | H : (_ && _) = true |- _ => apply andb_true_iff in H as [? ?]
  | H : (_ || _) = false |- _ => apply orb_false_iff in H as [? ?]
  | H : (_ <? _)%Z = true |- _ => apply Z.ltb_lt in H
  | H : (_ <? _)%Z = false |- _ => apply Z.ltb_ge in H
  | H : (_ <=? _)%Z = true |- _ => apply Z.leb_le in H
  | H : (_ <=? _)%Z = false |- _ => apply Z.leb_gt in H
  | H : (_ =? _)%Z = true |- _ => apply Z.eqb_eq in H
  | H : (_ =? _)%Z = false |- _ => apply Z.eqb_neq in H
  | H : (_ <? _)%nat = true |- _ => apply Nat.ltb_lt in H
  | H : (_ <? _)%nat = false |- _ => apply Nat.ltb_ge in H
  | H : (_ <=? _)%nat = true |- _ => apply Nat.leb_le in H
  | H : (_ <=? _)%nat = false |- _ => apply Nat.leb_gt in H
  | H : (_ =? _)%nat = true |- _ => apply Nat.eqb_eq in H
  | H : (_ =? _)%nat = false |- _ => apply Nat.eqb_neq in H
  | H : negb _ = true |- _ => apply negb_true_iff in H
  | H : negb _ = false |- _ => apply negb_false_iff in H
  end.

(** ** Lists *)

(** Updating the element at [i] by a function of the element there. *)
Lemma list_alter_const {A} (f : A → A) (l : list A) i x :
  l !! i = Some x → alter f i l = alter (λ _, f x) i l.
Proof. revert i. induction l; intros [|i] Hi; cbn in *; simplify_eq; f_equal; auto. Qed.

(** An update that does not change the element there. *)
Lemma list_alter_same {A} (f : A → A) (l : list A) i :
  (∀ x, l !! i = Some x → f x = x) → alter f i l = l.
Proof.
  revert i. induction l as [|x l IH]; intros [|i] H; [done..| |]; cbn; f_equal.
  - by apply H.
  - by apply IH.
Qed.

Lemma forallb_lookup {A} (f : A → bool) l i x : forallb f l = true → l !! i = Some x → f x = true.
Proof. intros H Hi. rewrite forallb_forall in H. apply H, list_elem_of_In. by eapply list_elem_of_lookup_2. Qed.

Lemma forallb_alter {A} (f : A → bool) (g : A → A) l i :
  (∀ x, f (g x) = f x) → forallb f (alter g i l) = forallb f l.
Proof. intros Hg. revert i. induction l as [|x l IH]; intros [|i]; cbn; [done..| |]; by rewrite ?Hg, ?IH. Qed.

Lemma forallb_false_lookup {A} (f : A → bool) (l : list A) :
  forallb f l = false → ∃ i x, l !! i = Some x ∧ f x = false.
Proof.
  induction l as [|x l IH]; cbn; [done|]. intros [Hx|Hl]%andb_false_iff.
  - by exists 0%nat, x.
  - destruct (IH Hl) as (i & y & Hi & Hy). by exists (S i), y.
Qed.

(** What a list maps to, after replacing one element by one that maps to more. *)
Lemma bind_insert_Permutation {A B} (f : A → list B) (l : list A) i x y d :
  l !! i = Some x → f y ≡ₚ f x ++ d → <[i := y]> l ≫= f ≡ₚ (l ≫= f) ++ d.
Proof.
  intros Hi Hf. revert i Hi. induction l as [|z l IH]; intros [|i] Hi; simpl in *; simplify_eq.
  - rewrite Hf, <- !app_assoc. apply Permutation_app_head, Permutation_app_comm.
  - by rewrite (IH _ Hi), app_assoc.
Qed.

(** A sum over a list, after updating one element. *)
Lemma sum_list_with_alter {A} (w : A → nat) (f : A → A) (l : list A) i x :
  l !! i = Some x →
  (sum_list_with w (alter f i l) + w x = sum_list_with w l + w (f x))%nat.
Proof.
  revert i. induction l as [|y l IH]; intros [|i] Hi; cbn in *; simplify_eq; [lia|].
  specialize (IH _ Hi). lia.
Qed.

Lemma sum_list_with_alter_same {A} (w : A → nat) (f : A → A) (l : list A) i :
  (∀ x, w (f x) = w x) → sum_list_with w (alter f i l) = sum_list_with w l.
Proof.
  intros H. revert i. induction l as [|y l IH]; intros [|i]; simpl; [done..|by rewrite H|by rewrite <- (IH i)].
Qed.

Lemma sum_list_with_insert {A} (w : A → nat) (l : list A) i x y :
  l !! i = Some x →
  (sum_list_with w (<[i := y]> l) + w x = sum_list_with w l + w y)%nat.
Proof.
  revert i. induction l as [|z l IH]; intros [|i] Hi; simpl in *; simplify_eq; [lia|].
  specialize (IH _ Hi). lia.
Qed.

Lemma sum_list_with_elem {A} (w : A → nat) (l : list A) i x :
  l !! i = Some x → (w x ≤ sum_list_with w l)%nat.
Proof.
  revert i. induction l as [|z l IH]; intros [|i] Hi; cbn in *; simplify_eq; [lia|].
  specialize (IH _ Hi). lia.
Qed.

Lemma sum_list_with_two {A} (w : A → nat) (l : list A) i j x y :
  l !! i = Some x → l !! j = Some y → i ≠ j → (w x + w y ≤ sum_list_with w l)%nat.
Proof.
  revert i j. induction l as [|z l IH]; intros [|i] [|j] Hi Hj Hne; cbn in *; simplify_eq; try done.
  - pose proof (sum_list_with_elem w _ _ _ Hj). lia.
  - pose proof (sum_list_with_elem w _ _ _ Hi). lia.
  - specialize (IH i j Hi Hj ltac:(lia)). lia.
Qed.

Lemma sum_list_with_le {A} (v w : A → nat) (l : list A) :
  (∀ x, v x ≤ w x)%nat → (sum_list_with v l ≤ sum_list_with w l)%nat.
Proof. intros H. induction l as [|x l IH]; cbn; [lia|]. specialize (H x). lia. Qed.

(** The same with a smaller weight afterwards. *)
Lemma sum_list_with_alter_le {A} (v w : A → nat) (f : A → A) (l : list A) i x :
  (∀ y, v y ≤ w y)%nat → l !! i = Some x →
  (sum_list_with v (alter f i l) + w x ≤ sum_list_with w l + v (f x))%nat.
Proof.
  intros Hle. revert i. induction l as [|y l IH]; intros [|i] Hi; cbn in *; simplify_eq.
  - pose proof (sum_list_with_le v w l Hle). lia.
  - specialize (IH _ Hi). specialize (Hle y). lia.
Qed.

Lemma sum_list_with_bound {A} (w : A → nat) (l : list A) n :
  (∀ x, x ∈ l → w x ≤ n)%nat → (sum_list_with w l ≤ length l * n)%nat.
Proof.
  induction l as [|x l IH]; cbn; intros H; [lia|].
  specialize (IH (λ y Hy, H y (list_elem_of_further _ _ _ Hy))).
  specialize (H x (list_elem_of_here _ _)). lia.
Qed.

(** ** Invariants of step relations *)
Section Invariants.
Context {State : Type} (step : relation State).

(** A predicate preserved by every step holds in every reachable state. *)
Lemma rtc_preserves (P : State → Prop) :
  (∀ s s', P s → step s s' → P s') →
  ∀ s s', rtc step s s' → P s → P s'.
Proof. intros Hstep s s' Hrtc. induction Hrtc; eauto. Qed.

(** A two-state relation that is reflexive, transitive and contains each step
    relates the ends of every execution. *)
Lemma rtc_related (R : relation State) `{!PreOrder R} :
  (∀ s s', step s s' → R s s') →
  ∀ s s', rtc step s s' → R s s'.
Proof.
  intros Hstep s s' Hrtc. induction Hrtc as [|x y z Hxy _ IH]; [reflexivity|].
  etrans; [by apply Hstep|done].
Qed.

(** A measure that some step decreases until a goal is met leads to the goal. *)
Lemma rtc_down (I goal : State → Prop) (m : State → nat) :
  (∀ s, I s → goal s ∨ ∃ s', step s s' ∧ I s' ∧ (m s' < m s)%nat) →
  ∀ s, I s → ∃ s', rtc step s s' ∧ I s' ∧ goal s'.
Proof.
  intros Hdown s. induction s as [s IH] using (well_founded_induction (well_founded_ltof _ m)).
  intros Hs. destruct (Hdown s Hs) as [|(s1 & Hstep & Hs1 & Hlt)]; [by exists s|].
  destruct (IH s1 Hlt Hs1) as (s' & Hrtc & ?). exists s'. split; [by eapply rtc_l|done].
Qed.
End Invariants.
