(* ===== verification/Golang.v ===== *)
(** * The parts of Go and its standard library the packages rest on

    Error values with [errors.Join], [errors.Is] and [%w] wrapping; contexts as
    they are observed at an instant; buffered channels. These are the language
    and its standard library, not code of the repository. *)
From S2P Require Import Prelude.

(** ** Errors *)

(** A sentinel ([errors.New] in a package variable, compared by identity) is
    named by its package path; [Text] is [fmt.Errorf] without [%w]; [Joined] is
    [errors.Join] of the non-nil errors; [Wrapped] is [fmt.Errorf] with [%w]. *)
Inductive error : Type :=
| Sentinel (name : string)
| Text (msg : string)
| Joined (errs : list error)
| Wrapped (msg : string) (errs : list error).

(** [errors.Join(a, b)]: nil arguments are dropped, nil when nothing is left. *)
Definition join2 (a b : option error) : option error :=
  match a, b with
  | None, None => None
  | Some x, None | None, Some x => Some (Joined [x])
  | Some x, Some y => Some (Joined [x; y])
  end.

(** The walk of [errors.Is] over the tree of an error, for a sentinel target. *)
Fixpoint is_sentinel (name : string) (e : error) : bool :=
  match e with
  | Sentinel n => String.eqb n name
  | Text _ => false
  | Joined es | Wrapped _ es => existsb (is_sentinel name) es
  end.

(** [errors.Is(err, target)], the target nil or a sentinel. *)
Definition Is (err target : option error) : bool :=
  match err, target with
  | None, None => true
  | Some e, Some (Sentinel n) => is_sentinel n e
  | _, _ => false
  end.

Definition Canceled : error := Sentinel "context.Canceled".
Definition DeadlineExceeded : error := Sentinel "context.DeadlineExceeded".

Lemma Is_join2_l a n b : Is a (Some (Sentinel n)) = true → Is (join2 a b) (Some (Sentinel n)) = true.
Proof.
  destruct a as [a|]; [|done]. cbn. intros H. destruct b; cbn; rewrite H; done.
Qed.

Lemma Is_join2_r a n b : Is b (Some (Sentinel n)) = true → Is (join2 a b) (Some (Sentinel n)) = true.
Proof.
  destruct b as [b|]; [|done]. cbn. intros H.
  destruct a; cbn; rewrite H; [by rewrite orb_true_r|done].
Qed.

Lemma Is_sentinel_refl n : Is (Some (Sentinel n)) (Some (Sentinel n)) = true.
Proof. cbn. apply String.eqb_refl. Qed.

#[export] Hint Resolve Is_join2_l Is_join2_r Is_sentinel_refl : golib.

(** ** Contexts

    What an operation reads of a live-or-done context at an instant: [Err()] is
    nil exactly when [Done()] is still open. *)
Definition ctx : Type := option error.
Definition live : ctx := None.
Definition ctx_done (c : ctx) : bool := match c with Some _ => true | None => false end.

(** ** [sync.Once]

    Its function has not run, runs, has run; a second call of [Do] waits for the first
    to end. *)
Inductive once_state := OnceFree | OnceRunning | OnceDone.

(** ** Channels *)
Record chan (A : Type) := Chan { chan_cap : nat; chan_buf : list A; chan_closed : bool }.
Arguments Chan {A} _ _ _.
Arguments chan_cap {A} _.
Arguments chan_buf {A} _.
Arguments chan_closed {A} _.

Inductive send_result (A : Type) : Type :=
| Sent (c : chan A)
| SendBlocks
| SendPanics.
Arguments Sent {A} c.
Arguments SendBlocks {A}.
Arguments SendPanics {A}.

Inductive recv_result (A : Type) : Type :=
| Received (v : A) (c : chan A)
| RecvClosed
| RecvBlocks.
Arguments Received {A} v c.
Arguments RecvClosed {A}.
Arguments RecvBlocks {A}.

Section Channels.
Context {A : Type}.
Implicit Type c : chan A.

(** [make(chan A, n)] panics on a negative size. *)
Definition make_chan (n : Z) : outcome (chan A) :=
  if (n <? 0)%Z then Panic else Ret (Chan (Z.to_nat n) [] false).

(** A send into a buffer; on an unbuffered channel it blocks (a rendezvous
    is a step of the two goroutines, modelled where it is used). *)
Definition chan_send c (v : A) : send_result A :=
  if chan_closed c then SendPanics
  else if length (chan_buf c) <? chan_cap c
  then Sent (Chan (chan_cap c) (chan_buf c ++ [v]) false)
  else SendBlocks.

Definition chan_recv c : recv_result A :=
  match chan_buf c with
  | v :: rest => Received v (Chan (chan_cap c) rest (chan_closed c))
  | [] => if chan_closed c then RecvClosed else RecvBlocks
  end.

(** Closing a closed channel panics. *)
Definition close_chan c : outcome (chan A) :=
  if chan_closed c then Panic else Ret (Chan (chan_cap c) (chan_buf c) true).

Definition chan_len c : Z := Z.of_nat (length (chan_buf c)).

Definition chan_wf c : Prop := length (chan_buf c) ≤ chan_cap c.

Lemma make_chan_wf n c : make_chan n = Ret c → chan_wf c ∧ chan_buf c = [] ∧ Z.of_nat (chan_cap c) = n.
Proof.
  unfold make_chan, chan_wf. case_match; [done|]. boolify. intros [= <-]. cbn.
  split; [lia|]. split; [done|lia].
Qed.

Lemma chan_send_wf c v c' : chan_wf c → chan_send c v = Sent c' → chan_wf c'.
Proof.
  unfold chan_send, chan_wf. intros Hwf. repeat case_match; try done. boolify.
  intros [= <-]. cbn. rewrite length_app. cbn. lia.
Qed.

Lemma chan_recv_wf c v c' : chan_wf c → chan_recv c = Received v c' → chan_wf c'.
Proof.
  unfold chan_recv, chan_wf. intros Hwf. destruct (chan_buf c); [by case_match|].
  intros [= <- <-]. cbn in *. lia.
Qed.

Lemma chan_recv_frame c c' v :
  chan_recv c = Received v c' → chan_cap c' = chan_cap c ∧ chan_closed c' = chan_closed c.
Proof. unfold chan_recv. destruct (chan_buf c); [by destruct (chan_closed c)|]. by intros [= <- <-]. Qed.

End Channels.

#[export] Hint Resolve chan_send_wf chan_recv_wf : golib.
