(* ===== verification/Retry.v ===== *)
(** * Retry strategies ([src/pkg/retry])

    [config], its functional options, the linear and the exponential delay.
    [time.Duration] is an [int64] in nanoseconds, written with its wrap-around;
    [crypto/rand.Int] is an argument, with its documented range as a hypothesis. *)
From S2P Require Import Prelude.
Local Open Scope Z_scope.

Definition defaultBaseDelay : Z := 100 * Millisecond.
Definition defaultMaxDelay : Z := 30 * Second.

Record config := Config { baseDelay : Z; maxDelay : Z; jitter : bool }.

(** An option mutates the config it is given; a slice of options may hold nil. *)
Definition OptionFunc : Type := config → config.

Definition defaultConfig : config := Config defaultBaseDelay defaultMaxDelay false.

Definition WithBaseDelay (d : Z) : OptionFunc :=
  λ c, Config d (maxDelay c) (jitter c).
Definition WithMaxDelay (d : Z) : OptionFunc :=
  λ c, Config (baseDelay c) d (jitter c).
Definition WithJitter (j : bool) : OptionFunc :=
  λ c, Config (baseDelay c) (maxDelay c) j.

Definition applyConfig (opts : list (option OptionFunc)) : config :=
  fold_left (λ cfg opt, match opt with Some f => f cfg | None => cfg end)
    opts defaultConfig.

Definition capDelay (delay maxDur : Z) : Z :=
  if maxDur <? delay then maxDur else delay.

(** ** float64

    The only float64 values [ExponentialBackoff.Delay] computes are integers
    (rounded [int64]s and their products with powers of two) and +Inf. *)
Inductive float64 :=
| FInt (z : Z)
| FInf.

(** Round a natural number to 53 significant bits, ties to even. *)
Definition round53 (m : Z) : Z :=
  let e := Z.log2 m - 52 in
  if e <=? 0 then m else
  let q := m / 2 ^ e in
  let r := m `mod` 2 ^ e in
  let half := 2 ^ (e - 1) in
  (if (half <? r) || ((half =? r) && Z.odd q) then q + 1 else q) * 2 ^ e.

Definition float64_of_int (z : Z) : float64 :=
  FInt (Z.sgn z * round53 (Z.abs z)).

(** [math.Pow(2, float64(n))] for a natural [n]: exact, +Inf from 1024 on. *)
Definition pow2 (n : Z) : float64 :=
  if n <? 1024 then FInt (2 ^ n) else FInf.

(** Product of a positive float with a power of two: exact, or overflow. *)
Definition fmul_pow2 (x p : float64) : float64 :=
  match x, p with
  | FInt a, FInt b => if a * b <? 2 ^ 1024 then FInt (a * b) else FInf
  | _, _ => FInf
  end.

Definition fltb (x y : float64) : bool :=
  match x, y with
  | FInt a, FInt b => a <? b
  | FInt _, FInf => true
  | FInf, _ => false
  end.

(** [time.Duration(x)]; only applied below a finite bound. *)
Definition duration_of_float (x : float64) : Z :=
  match x with FInt a => a | FInf => min_int64 end.

(** A strategy value: the interface's one method. *)
Definition Strategy : Type := Z → outcome Z.

Record Linear := MkLinear { linear_cfg : config }.
Record ExponentialBackoff := MkExponentialBackoff { exponential_cfg : config }.

Definition NewLinear (opts : list (option OptionFunc)) : Linear :=
  MkLinear (applyConfig opts).
Definition NewExponentialBackoff (opts : list (option OptionFunc)) : ExponentialBackoff :=
  MkExponentialBackoff (applyConfig opts).

Section Delay.
(** [rand.Int(rand.Reader, n)] draws below [n]; it panics when [n <= 0]. *)
Context (randInt : Z → Z).

Definition applyJitter (delay : Z) : outcome Z :=
  if delay <=? 0 then Ret 0
  else
    let n := wrap64 (delay + 1) in
    if n <=? 0 then Panic else Ret (randInt n).

Definition Linear_Delay (l : Linear) : Strategy := λ attempt,
  let cfg := linear_cfg l in
  let d := capDelay (wrap64 (baseDelay cfg * wrap64 (attempt + 1))) (maxDelay cfg) in
  if jitter cfg then applyJitter d else Ret d.

Definition Exponential_Delay (e : ExponentialBackoff) : Strategy := λ attempt,
  let cfg := exponential_cfg e in
  if (baseDelay cfg <=? 0) || (attempt <? 0) then Ret 0
  else
    let multiplier := pow2 attempt in
    let delay := fmul_pow2 (float64_of_int (baseDelay cfg)) multiplier in
    let d := if fltb delay (float64_of_int (maxDelay cfg))
             then duration_of_float delay else maxDelay cfg in
    if jitter cfg then applyJitter d else Ret d.
End Delay.

(** ** Rounding to float64 *)

(** The integers that are exactly representable with 53 significant bits. *)
Definition representable (x : Z) : Prop :=
  ∃ m k, 0 ≤ m ≤ 2 ^ 53 ∧ 0 ≤ k ∧ x = m * 2 ^ k.

Lemma round53_small m : 0 ≤ m < 2 ^ 53 → round53 m = m.
Proof.
  intros H. unfold round53.
  destruct (Z.leb_spec (Z.log2 m - 52) 0) as [|He]; [done|].
  destruct (decide (m = 0)) as [->|]; [done|].
  assert (Z.log2 m < 53) by (apply Z.log2_lt_pow2; lia). lia.
Qed.

(** The significand of a number of more than 53 bits has exactly 53 bits. *)
Lemma quotient_bits m e :
  0 < m → e = Z.log2 m - 52 → 0 < e →
  2 ^ 52 ≤ m / 2 ^ e < 2 ^ 53 ∧ m = m / 2 ^ e * 2 ^ e + m `mod` 2 ^ e ∧
  0 ≤ m `mod` 2 ^ e < 2 ^ e.
Proof.
  intros Hm He Hpos.
  pose proof (Z.log2_spec m Hm) as [Hlo Hhi].
  assert (0 < 2 ^ e) by (apply Z.pow_pos_nonneg; lia).
  replace (Z.log2 m) with (52 + e) in Hlo by lia.
  replace (Z.succ (Z.log2 m)) with (53 + e) in Hhi by lia.
  rewrite Z.pow_add_r in Hlo, Hhi by lia.
  pose proof (Z.mod_pos_bound m (2 ^ e)).
  pose proof (Z.div_mod m (2 ^ e)).
  repeat split; try lia.
  - apply Z.div_le_lower_bound; lia.
  - apply Z.div_lt_upper_bound; lia.
Qed.

Lemma round53_cases m :
  0 ≤ m →
  round53 m = m ∨
  ∃ q e, 0 < e ∧ 2 ^ 52 ≤ q < 2 ^ 53 ∧ q * 2 ^ e ≤ m < (q + 1) * 2 ^ e ∧
         (round53 m = q * 2 ^ e ∨ round53 m = (q + 1) * 2 ^ e ∧ q * 2 ^ e < m).
Proof.
  intros Hm. unfold round53.
  destruct (Z.leb_spec (Z.log2 m - 52) 0) as [|He]; [by left|right].
  assert (0 < m) by (destruct (decide (m = 0)) as [->|]; [cbn in He|]; lia).
  destruct (quotient_bits m _ H eq_refl He) as (Hq & Hdiv & Hr).
  exists (m / 2 ^ (Z.log2 m - 52)), (Z.log2 m - 52).
  assert (0 < 2 ^ (Z.log2 m - 52 - 1)) by (apply Z.pow_pos_nonneg; lia).
  repeat split; try lia.
  case_goal; [right|by left]. split; [done|].
  apply orb_true_iff in Heqb as [|]; boolify; lia.
Qed.

Lemma round53_nonneg m : 0 ≤ m → 0 ≤ round53 m.
Proof.
  intros Hm. destruct (round53_cases m Hm) as [->|(q & e & ? & ? & ? & H)]; [done|].
  assert (0 < 2 ^ e) by (apply Z.pow_pos_nonneg; lia). nia.
Qed.

Lemma round53_pos m : 0 < m → 0 < round53 m.
Proof.
  intros Hm. destruct (round53_cases m ltac:(lia)) as [->|(q & e & ? & ? & ? & H)]; [done|].
  assert (0 < 2 ^ e) by (apply Z.pow_pos_nonneg; lia). nia.
Qed.

Lemma round53_representable m : 0 ≤ m → representable (round53 m).
Proof.
  intros Hm. unfold round53.
  destruct (Z.leb_spec (Z.log2 m - 52) 0) as [|He].
  - exists m, 0. split; [|lia]. split; [done|].
    destruct (decide (m = 0)) as [->|]; [done|].
    pose proof (Z.log2_spec m ltac:(lia)) as [_ Hhi].
    assert (2 ^ Z.succ (Z.log2 m) ≤ 2 ^ 53) by (apply Z.pow_le_mono_r; lia). lia.
  - assert (0 < m) by (destruct (decide (m = 0)) as [->|]; [cbn in He|]; lia).
    destruct (quotient_bits m _ H eq_refl He) as (Hq & _ & _).
    eexists _, _. split; [|split; [|reflexivity]]; [|lia]. case_match; lia.
Qed.

Lemma representable_small m : 0 ≤ m < 2 ^ 53 → representable m.
Proof. intros Hm. exists m, 0. lia. Qed.

Lemma representable_pow2 x a : 0 ≤ a → representable x → representable (x * 2 ^ a).
Proof.
  intros Ha (m & k & Hm & Hk & ->). exists m, (k + a).
  rewrite Z.pow_add_r by lia. split; [done|]. split; lia.
Qed.

(** Rounding never passes a representable upper bound. *)
Lemma round53_le_representable x m :
  representable x → 0 ≤ m ≤ x → round53 m ≤ x.
Proof.
  intros (n & k & Hn & Hk & ->) Hm.
  destruct (round53_cases m ltac:(lia)) as [->|(q & e & He & Hq & Hb & [->|[-> Hlt]])];
    [lia|lia|].
  assert (0 < 2 ^ e) by (apply Z.pow_pos_nonneg; lia).
  assert (0 < 2 ^ k) by (apply Z.pow_pos_nonneg; lia).
  destruct (Z.le_gt_cases e k) as [Hek|Hek].
  - replace k with ((k - e) + e) in * by lia.
    rewrite Z.pow_add_r in * by lia.
    assert (q < n * 2 ^ (k - e)) by nia. nia.
  - exfalso. replace e with (k + (e - k)) in * by lia.
    rewrite Z.pow_add_r in * by lia.
    assert (2 ^ 1 ≤ 2 ^ (e - k)) by (apply Z.pow_le_mono_r; lia).
    change (2 ^ 53) with (2 * 2 ^ 52) in *.
    assert (n * 2 ^ k > q * 2 ^ (e - k) * 2 ^ k) by nia.
    assert (n > q * 2 ^ (e - k)) by nia. nia.
Qed.

(** What is representable is not rounded. *)
Lemma round53_representable_id x : representable x → round53 x = x.
Proof.
  intros Hx. pose proof Hx as (n & k & Hn & Hk & Heq).
  assert (0 < 2 ^ k) by (apply Z.pow_pos_nonneg; lia).
  assert (0 ≤ x) as Hpos by (subst x; nia).
  pose proof (round53_le_representable x x Hx ltac:(lia)) as Hle.
  destruct (round53_cases x Hpos) as [?|(q & e & He & Hq & Hb & [Hr|[Hr _]])]; [done| |lia].
  assert (0 < 2 ^ e) by (apply Z.pow_pos_nonneg; lia).
  destruct (Z.le_gt_cases e k) as [Hek|Hek].
  - assert (2 ^ k = 2 ^ (k - e) * 2 ^ e) as Hpow by (rewrite <- Z.pow_add_r by lia; f_equal; lia).
    rewrite Hpow in Heq. assert (n * 2 ^ (k - e) < q + 1) by nia. nia.
  - assert (2 ^ e = 2 ^ (e - k) * 2 ^ k) as Hpow by (rewrite <- Z.pow_add_r by lia; f_equal; lia).
    assert (2 ^ 1 ≤ 2 ^ (e - k)) by (apply Z.pow_le_mono_r; lia).
    change (2 ^ 53) with (2 * 2 ^ 52) in *. nia.
Qed.

(** Rounding is off by at most one part in 2^53. *)
Lemma round53_error m : 0 ≤ m → Z.abs (round53 m - m) * 2 ^ 53 ≤ m.
Proof.
  intros Hm. unfold round53.
  destruct (Z.leb_spec (Z.log2 m - 52) 0) as [|He]; [lia|].
  assert (0 < m) by (destruct (decide (m = 0)) as [->|]; [cbn in He|]; lia).
  destruct (quotient_bits m _ H eq_refl He) as (Hq & Hdiv & Hr).
  set (e := Z.log2 m - 52) in *. set (q := m / 2 ^ e) in *. set (r := m `mod` 2 ^ e) in *.
  assert (2 ^ e = 2 * 2 ^ (e - 1)) as Hpow by (rewrite <- Z.pow_succ_r by lia; f_equal; lia).
  change (2 ^ 53) with (2 * 2 ^ 52) in *.
  case_match eqn:Hc; [apply orb_true_iff in Hc as [|]|apply orb_false_iff in Hc as []]; boolify; nia.
Qed.

(** The largest duration is not one of them. *)
Lemma max_int64_rounded : ¬ representable max_int64.
Proof.
  intros (n & k & Hn & Hk & Heq). unfold max_int64 in Heq.
  destruct (decide (k = 0)) as [->|]; [lia|].
  assert (2 ^ k = 2 * 2 ^ (k - 1)) as Hpow by (rewrite <- Z.pow_succ_r by lia; f_equal; lia).
  rewrite Hpow in Heq. lia.
Qed.

(** Agreement with binary64 rounding on ties, carries and large values. *)
Example round53_ties :
  map round53 [2^53 + 1; 2^53 + 3; 2^54 - 1; 2^63 - 1; 2^54 + 6] =
  [2^53; 2^53 + 4; 2^54; 2^63; 2^54 + 8].
Proof. vm_compute. reflexivity. Qed.

(** ** Options *)

(** The last effective option for a field wins; nil options are skipped. *)
Lemma applyConfig_app opts opts' :
  applyConfig (opts ++ opts') =
  fold_left (λ cfg opt, match opt with Some f => f cfg | None => cfg end)
    opts' (applyConfig opts).
Proof. unfold applyConfig. by rewrite fold_left_app. Qed.

Lemma applyConfig_nil_option opts : applyConfig (opts ++ [None]) = applyConfig opts.
Proof. by rewrite applyConfig_app. Qed.

(** ** Jitter, linear and exponential delays *)
Section DelayProps.
Context (randInt : Z → Z).
Hypothesis randInt_range : ∀ n, 0 < n → 0 ≤ randInt n < n.

Lemma applyJitter_ok delay :
  0 ≤ delay < max_int64 → ∃ d, applyJitter randInt delay = Ret d ∧ 0 ≤ d ≤ delay.
Proof.
  intros H. unfold applyJitter, max_int64 in *.
  destruct (Z.leb_spec delay 0); [exists 0; split; [done|lia]|].
  rewrite wrap64_id by (unfold int64, min_int64, max_int64; lia).
  destruct (Z.leb_spec (delay + 1) 0); [lia|].
  pose proof (randInt_range (delay + 1)). eexists; split; [done|lia].
Qed.

(** A delay that is not negative and below [MaxInt64] survives the final jitter step. *)
Lemma jitter_step cfg d :
  0 ≤ d < max_int64 →
  ∃ r, (if jitter cfg then applyJitter randInt d else Ret d) = Ret r ∧
       0 ≤ r ≤ d ∧ (jitter cfg = false → r = d).
Proof.
  intros Hd. destruct (jitter cfg).
  - destruct (applyJitter_ok d) as (r & Hr & ?); [lia|]. by exists r.
  - exists d. split; [done|]. split; [lia|done].
Qed.
End DelayProps.

(** The delay the exponential strategy computes before jitter. *)
Definition exponential_base (cfg : config) (attempt : Z) : Z :=
  let delay := fmul_pow2 (float64_of_int (baseDelay cfg)) (pow2 attempt) in
  if fltb delay (float64_of_int (maxDelay cfg)) then duration_of_float delay
  else maxDelay cfg.

Lemma Exponential_Delay_base randInt cfg attempt :
  0 < baseDelay cfg → 0 ≤ attempt →
  Exponential_Delay randInt (MkExponentialBackoff cfg) attempt =
  let d := exponential_base cfg attempt in
  if jitter cfg then applyJitter randInt d else Ret d.
Proof.
  intros Hb Ha. unfold Exponential_Delay, exponential_base. cbn [exponential_cfg].
  destruct (Z.leb_spec (baseDelay cfg) 0); [lia|].
  by destruct (Z.ltb_spec attempt 0); [lia|].
Qed.

Lemma float64_of_nonneg z : 0 ≤ z → float64_of_int z = FInt (round53 z).
Proof.
  intros Hz. unfold float64_of_int. rewrite Z.abs_eq by lia.
  destruct (decide (z = 0)) as [->|]; [done|].
  rewrite Z.sgn_pos by lia. by rewrite Z.mul_1_l.
Qed.

(** The product is the exact one, or at least 2^1023 (overflow included). *)
Lemma backoff_product b a :
  0 < b → 0 ≤ a →
  fmul_pow2 (float64_of_int b) (pow2 a) = FInt (round53 b * 2 ^ a) ∨
  fmul_pow2 (float64_of_int b) (pow2 a) = FInf ∧ 2 ^ 1024 ≤ round53 b * 2 ^ a.
Proof.
  intros Hb Ha. rewrite float64_of_nonneg by lia. unfold pow2, fmul_pow2.
  pose proof (round53_pos b Hb).
  destruct (Z.ltb_spec a 1024).
  - destruct (Z.ltb_spec (round53 b * 2 ^ a) (2 ^ 1024)); [by left|by right].
  - right. split; [done|].
    assert (2 ^ 1024 ≤ 2 ^ a) by (apply Z.pow_le_mono_r; lia). nia.
Qed.

Lemma round53_int64 m : 0 ≤ m ≤ max_int64 → round53 m ≤ 2 ^ 63.
Proof.
  intros Hm. unfold max_int64 in Hm. apply round53_le_representable; [|lia].
  exists 1, 63. lia.
Qed.

(** The delay is the exact product below the rounded cap, the cap above. *)
Lemma exponential_base_cases cfg a :
  0 < baseDelay cfg → 0 ≤ a → 0 ≤ maxDelay cfg ≤ max_int64 →
  let p := round53 (baseDelay cfg) * 2 ^ a in
  p < round53 (maxDelay cfg) ∧ exponential_base cfg a = p ∨
  round53 (maxDelay cfg) ≤ p ∧ exponential_base cfg a = maxDelay cfg.
Proof.
  intros Hb Ha Hmax p. unfold exponential_base.
  rewrite (float64_of_nonneg (maxDelay cfg)) by lia.
  pose proof (round53_int64 _ Hmax).
  destruct (backoff_product _ _ Hb Ha) as [->|[-> Hbig]]; cbn.
  - destruct (Z.ltb_spec (round53 (baseDelay cfg) * 2 ^ a) (round53 (maxDelay cfg)));
      [left|right]; done.
  - right. split; [|done].
    assert (2 ^ 63 ≤ 2 ^ 1024) by (apply Z.pow_le_mono_r; lia). lia.
Qed.

Lemma exponential_base_range cfg a :
  0 < baseDelay cfg → 0 ≤ a → 0 ≤ maxDelay cfg ≤ max_int64 →
  0 ≤ exponential_base cfg a ≤ maxDelay cfg.
Proof.
  intros Hb Ha Hmax. pose proof (round53_pos _ Hb).
  assert (0 < 2 ^ a) by (apply Z.pow_pos_nonneg; lia).
  destruct (exponential_base_cases cfg a Hb Ha Hmax) as [[Hlt ->]|[_ ->]]; [|lia].
  split; [nia|].
  destruct (Z.le_gt_cases (round53 (baseDelay cfg) * 2 ^ a) (maxDelay cfg)); [done|].
  enough (round53 (maxDelay cfg) ≤ round53 (baseDelay cfg) * 2 ^ a) by lia.
  apply round53_le_representable; [|lia].
  apply representable_pow2; [lia|]. apply round53_representable. lia.
Qed.

Lemma exponential_base_mono cfg a a' :
  0 < baseDelay cfg → 0 ≤ a ≤ a' → 0 ≤ maxDelay cfg ≤ max_int64 →
  exponential_base cfg a ≤ exponential_base cfg a'.
Proof.
  intros Hb Ha Hmax. pose proof (round53_pos _ Hb).
  assert (2 ^ a ≤ 2 ^ a') by (apply Z.pow_le_mono_r; lia).
  pose proof (exponential_base_range cfg a Hb ltac:(lia) Hmax).
  destruct (exponential_base_cases cfg a' Hb ltac:(lia) Hmax) as [[? Heq]|[_ ->]]; [|lia].
  destruct (exponential_base_cases cfg a Hb ltac:(lia) Hmax) as [[_ ->]|[? _]]; nia.
Qed.

Lemma exponential_base_exact cfg a :
  0 < baseDelay cfg → 0 ≤ a → 0 ≤ maxDelay cfg ≤ max_int64 →
  representable (baseDelay cfg) → representable (maxDelay cfg) →
  exponential_base cfg a = Z.min (baseDelay cfg * 2 ^ a) (maxDelay cfg).
Proof.
  intros Hb Ha Hmax Hrb Hrm. destruct (exponential_base_cases cfg a Hb Ha Hmax) as [[Hlt ->]|[Hge ->]];
    rewrite !round53_representable_id in * by done; lia.
Qed.

(** Whatever the base and the cap, the delay is off by less than one part in 2^51. *)
Lemma exponential_base_error cfg a :
  0 < baseDelay cfg → 0 ≤ a → 0 ≤ maxDelay cfg ≤ max_int64 →
  let exact := Z.min (baseDelay cfg * 2 ^ a) (maxDelay cfg) in
  Z.abs (exponential_base cfg a - exact) * 2 ^ 51 ≤ exact.
Proof.
  intros Hb Ha Hmax exact. assert (0 < 2 ^ a) by (apply Z.pow_pos_nonneg; lia).
  pose proof (round53_error (baseDelay cfg) ltac:(lia)) as Heb.
  pose proof (round53_error (maxDelay cfg) ltac:(lia)) as Hem.
  assert (Z.abs (round53 (baseDelay cfg) * 2 ^ a - baseDelay cfg * 2 ^ a) * 2 ^ 53 ≤ baseDelay cfg * 2 ^ a) as Hep
    by (rewrite <- Z.mul_sub_distr_r, Z.abs_mul, (Z.abs_eq (2 ^ a)) by lia; nia).
  pose proof (exponential_base_range cfg a Hb Ha Hmax) as Hr.
  destruct (exponential_base_cases cfg a Hb Ha Hmax) as [[Hlt Heq]|[Hge Heq]]; rewrite Heq in *;
    subst exact; lia.
Qed.

(** The guard; a negative cap; and when the delay is the largest duration. *)
Lemma Exponential_Delay_nonpositive randInt cfg a :
  baseDelay cfg ≤ 0 ∨ a < 0 → Exponential_Delay randInt (MkExponentialBackoff cfg) a = Ret 0.
Proof.
  intros H. unfold Exponential_Delay. cbn [exponential_cfg].
  by destruct (Z.leb_spec (baseDelay cfg) 0), (Z.ltb_spec a 0); cbn; try lia.
Qed.

Lemma exponential_base_negative cfg a :
  0 < baseDelay cfg → 0 ≤ a → maxDelay cfg < 0 → exponential_base cfg a = maxDelay cfg.
Proof.
  intros Hb Ha Hneg. unfold exponential_base.
  assert (float64_of_int (maxDelay cfg) = FInt (- round53 (- maxDelay cfg))) as ->.
  { unfold float64_of_int. rewrite Z.abs_neq, Z.sgn_neg by lia. done. }
  pose proof (round53_pos (- maxDelay cfg) ltac:(lia)). pose proof (round53_pos _ Hb).
  pose proof (Z.pow_pos_nonneg 2 a ltac:(lia) Ha).
  destruct (backoff_product _ _ Hb Ha) as [->|[-> _]]; cbn; [|done].
  destruct (Z.ltb_spec (round53 (baseDelay cfg) * 2 ^ a) (- round53 (- maxDelay cfg))); [nia|done].
Qed.

Lemma exponential_base_max cfg a :
  0 < baseDelay cfg → 0 ≤ a → 0 ≤ maxDelay cfg ≤ max_int64 → exponential_base cfg a = max_int64 →
  maxDelay cfg = max_int64 ∧ 2 ^ 63 ≤ round53 (baseDelay cfg) * 2 ^ a.
Proof.
  intros Hb Ha Hmax Heq. pose proof (exponential_base_range cfg a Hb Ha Hmax).
  assert (maxDelay cfg = max_int64) as Hm by lia. split; [done|].
  destruct (exponential_base_cases cfg a Hb Ha Hmax) as [[_ Hp]|[Hp _]].
  - exfalso. apply max_int64_rounded. rewrite <- Heq, Hp.
    apply representable_pow2; [done|]. apply round53_representable. lia.
  - rewrite Hm in Hp. exact Hp.
Qed.

(** ** The strategies *)

(** C37: every outcome of the exponential delay, for a cap that is a [time.Duration]. A
    base that is not positive or a negative attempt gives 0. Otherwise a negative cap is
    returned as it is, or as 0 with jitter; and with a cap that is not negative the delay
    is between 0 and the cap, whatever the draw, but for one case that panics: jitter on
    a delay of [MaxInt64], which is the cap [MaxInt64] reached. *)
Theorem exponential_delay_bounded randInt cfg a :
  (∀ n, 0 < n → 0 ≤ randInt n < n) → maxDelay cfg ≤ max_int64 →
  let r := Exponential_Delay randInt (MkExponentialBackoff cfg) a in
  (baseDelay cfg ≤ 0 ∨ a < 0 → r = Ret 0) ∧
  (0 < baseDelay cfg → 0 ≤ a →
   (maxDelay cfg < 0 → r = Ret (if jitter cfg then 0 else maxDelay cfg)) ∧
   (0 ≤ maxDelay cfg →
    if jitter cfg && (maxDelay cfg =? max_int64) && (2 ^ 63 <=? round53 (baseDelay cfg) * 2 ^ a)
    then r = Panic
    else ∃ d, r = Ret d ∧ 0 ≤ d ≤ maxDelay cfg)).
Proof.
  intros Hrand Hmax r. split; [apply Exponential_Delay_nonpositive|]. intros Hb Ha.
  subst r. rewrite Exponential_Delay_base by done. cbn zeta. split.
  - intros Hneg. rewrite exponential_base_negative by done. unfold applyJitter.
    rewrite (proj2 (Z.leb_le _ _)) by lia. by destruct (jitter cfg).
  - intros Hpos. pose proof (exponential_base_range cfg a Hb Ha ltac:(lia)) as Hrange.
    destruct (decide (exponential_base cfg a = max_int64)) as [Hd|Hd].
    + destruct (exponential_base_max cfg a Hb Ha ltac:(lia) Hd) as [-> Hp]. rewrite Hd, Z.eqb_refl, (proj2 (Z.leb_le _ _) Hp).
      destruct (jitter cfg); [done|]. cbn. eexists. split; [done|]. unfold max_int64. lia.
    + destruct (jitter_step randInt Hrand cfg (exponential_base cfg a)) as (d & Hd' & Hle & _); [lia|].
      destruct (jitter cfg && _ && _) eqn:Hc; [exfalso|exists d; split; [done|lia]].
      apply andb_true_iff in Hc as [[_ Hm]%andb_true_iff Hp]. boolify. apply Hd.
      destruct (exponential_base_cases cfg a Hb Ha ltac:(lia)) as [[Hlt _]|[_ ->]]; [|done].
      pose proof (round53_int64 (maxDelay cfg) ltac:(lia)). lia.
Qed.

(** A draw that is always in range. *)
Definition rand_half (n : Z) : Z := n / 2.

Lemma rand_half_range n : 0 < n → 0 ≤ rand_half n < n.
Proof.
  intros. unfold rand_half. pose proof (Z.div_lt n 2). pose proof (Z.div_pos n 2). lia.
Qed.

(** The default configuration, attempt 3; and a cap of -1s. *)
Lemma exponential_delay_bounded_witness :
  (∃ d, Exponential_Delay rand_half (MkExponentialBackoff defaultConfig) 3 = Ret d ∧
        0 ≤ d ≤ maxDelay defaultConfig) ∧
  Exponential_Delay rand_half (MkExponentialBackoff (Config Second (- Second) false)) 0 = Ret (- Second).
Proof.
  split.
  - destruct (exponential_delay_bounded rand_half defaultConfig 3 rand_half_range) as (_ & H);
      [vm_compute; discriminate|].
    apply H; [reflexivity|discriminate|discriminate].
  - destruct (exponential_delay_bounded rand_half (Config Second (- Second) false) 0 rand_half_range) as (_ & H);
      [vm_compute; discriminate|].
    apply H; [reflexivity|discriminate|reflexivity].
Defined.

(** The reference: double the base once per attempt and stop at the cap. *)
Fixpoint doubling (r max : Z) (n : nat) : Z :=
  if r <? max then match n with O => r | S n => doubling (2 * r) max n end else max.

Lemma doubling_power r max n : 0 < r → doubling r max n = Z.min (r * 2 ^ Z.of_nat n) max.
Proof.
  revert r. induction n as [|n IH]; intros r Hr; cbn [doubling].
  - rewrite Z.mul_1_r. destruct (Z.ltb_spec r max); lia.
  - rewrite Nat2Z.inj_succ, Z.pow_succ_r by lia.
    replace (r * (2 * 2 ^ Z.of_nat n)) with (2 * r * 2 ^ Z.of_nat n) by ring.
    rewrite IH by lia. destruct (Z.ltb_spec r max); [done|].
    pose proof (Z.pow_pos_nonneg 2 (Z.of_nat n)). nia.
Qed.

(** C28: without jitter the float64 computation of the exponential delay, overflow to
    infinity included, against doubling the base once per attempt up to the cap: it is
    the same for durations that float64 represents (all below 2^53 ns, and any of 53
    significant bits), and within one part in 2^51 of it for any others; beyond 2^53 ns
    it can differ, a base of 2^53 + 1 giving 2^53 at attempt 0. *)
Theorem exponential_equals_doubling randInt cfg n :
  jitter cfg = false → 0 < baseDelay cfg → 0 ≤ maxDelay cfg ≤ max_int64 →
  let exact := doubling (baseDelay cfg) (maxDelay cfg) n in
  ∃ d, Exponential_Delay randInt (MkExponentialBackoff cfg) (Z.of_nat n) = Ret d ∧
       (representable (baseDelay cfg) → representable (maxDelay cfg) → d = exact) ∧
       (baseDelay cfg < 2 ^ 53 → maxDelay cfg < 2 ^ 53 → d = exact) ∧
       Z.abs (d - exact) * 2 ^ 51 ≤ exact.
Proof.
  intros Hj Hb Hmax exact. subst exact. rewrite Exponential_Delay_base, Hj, doubling_power by lia.
  eexists. split; [done|]. split_and!.
  - intros Hrb Hrm. apply exponential_base_exact; (lia || done).
  - intros ??. apply exponential_base_exact; try lia; apply representable_small; lia.
  - apply exponential_base_error; lia.
Qed.

Example exponential_rounds_base :
  Exponential_Delay rand_half (MkExponentialBackoff (Config (2 ^ 53 + 1) (2 ^ 60) false)) 0 = Ret (2 ^ 53).
Proof. vm_compute. reflexivity. Qed.

Lemma exponential_equals_doubling_witness :
  Exponential_Delay rand_half (MkExponentialBackoff defaultConfig) (Z.of_nat 5) = Ret (3200 * Millisecond).
Proof.
  destruct (exponential_equals_doubling rand_half defaultConfig 5) as (d & Hd & _ & H & _);
    [reflexivity|reflexivity|vm_compute; intuition discriminate|].
  rewrite Hd, H by reflexivity. reflexivity.
Defined.

(** Without jitter the exponential delay never decreases from one attempt
    to a later one, including across the rounding and overflow of float64. *)
Theorem exponential_delay_monotone randInt cfg a a' :
  jitter cfg = false → 0 ≤ a ≤ a' → 0 ≤ maxDelay cfg ≤ max_int64 →
  ∃ d d', Exponential_Delay randInt (MkExponentialBackoff cfg) a = Ret d ∧
          Exponential_Delay randInt (MkExponentialBackoff cfg) a' = Ret d' ∧ d ≤ d'.
Proof.
  intros Hj Ha Hmax.
  destruct (Z.leb_spec (baseDelay cfg) 0) as [Hb|Hb].
  - exists 0, 0. unfold Exponential_Delay. cbn.
    by destruct (Z.leb_spec (baseDelay cfg) 0); [|lia].
  - rewrite !Exponential_Delay_base by lia. rewrite Hj.
    do 2 eexists. split; [done|]. split; [done|]. by apply exponential_base_mono.
Qed.

Lemma exponential_delay_monotone_witness :
  ∃ d d', Exponential_Delay rand_half (MkExponentialBackoff defaultConfig) 2 = Ret d ∧
          Exponential_Delay rand_half (MkExponentialBackoff defaultConfig) 1100 = Ret d' ∧
          d ≤ d'.
Proof.
  apply (exponential_delay_monotone rand_half defaultConfig 2 1100);
    vm_compute; intuition discriminate.
Defined.

(** As long as [base * (attempt + 1)] does not overflow, the linear delay is
    that product capped at [maxDelay]; with jitter it is drawn below it. *)
Theorem linear_delay_capped randInt cfg a :
  (∀ n, 0 < n → 0 ≤ randInt n < n) →
  0 ≤ baseDelay cfg → 0 ≤ a < max_int64 → 0 ≤ maxDelay cfg < max_int64 →
  baseDelay cfg * (a + 1) ≤ max_int64 →
  let bound := Z.min (baseDelay cfg * (a + 1)) (maxDelay cfg) in
  ∃ r, Linear_Delay randInt (MkLinear cfg) a = Ret r ∧ 0 ≤ r ≤ bound ∧
       (jitter cfg = false → r = bound).
Proof.
  intros Hrand Hb Ha Hmax Hov bound. unfold Linear_Delay, capDelay. cbn [linear_cfg].
  rewrite (wrap64_id (a + 1)) by (unfold int64, min_int64 in *; lia).
  rewrite wrap64_id by (unfold int64, min_int64 in *; lia).
  replace (if maxDelay cfg <? baseDelay cfg * (a + 1) then _ else _) with bound
    by (unfold bound; case_match; boolify; lia).
  apply jitter_step; [done|]. lia.
Qed.

Lemma linear_delay_capped_witness :
  let bound := Z.min (baseDelay defaultConfig * (4 + 1)) (maxDelay defaultConfig) in
  ∃ r, Linear_Delay rand_half (MkLinear defaultConfig) 4 = Ret r ∧ 0 ≤ r ≤ bound ∧
       (jitter defaultConfig = false → r = bound).
Proof.
  apply (linear_delay_capped rand_half defaultConfig 4);
    [apply rand_half_range| | | |]; vm_compute; intuition discriminate.
Defined.

(** Past the overflow the product wraps to a negative delay, which no cap
    catches: the second attempt from a base of 2^62 ns. *)
Example linear_delay_wraps :
  Linear_Delay rand_half (NewLinear [Some (WithBaseDelay (2 ^ 62)); None]) 1 = Ret (- 2 ^ 63).
Proof. vm_compute. reflexivity. Qed.

(** Among the delays from 0 to the largest duration, jitter panics exactly at
    the largest one (its successor wraps to a negative bound for [rand.Int]); so
    an exponential strategy with jitter whose cap is the largest duration
    ("no cap") panics from the attempt where the backoff reaches the cap on. *)
Theorem jitter_panics_at_max randInt :
  (∀ delay, 0 ≤ delay ≤ max_int64 →
     applyJitter randInt delay = Panic ↔ delay = max_int64) ∧
  (∀ base a, 0 < base ≤ max_int64 → 63 ≤ a →
     Exponential_Delay randInt (NewExponentialBackoff
       [Some (WithBaseDelay base); Some (WithMaxDelay max_int64); Some (WithJitter true)]) a
     = Panic).
Proof.
  assert (Hmax : applyJitter randInt max_int64 = Panic) by reflexivity.
  split.
  - intros d Hd. split; [|by intros ->]. unfold applyJitter.
    destruct (decide (d = max_int64)) as [->|]; [done|].
    unfold max_int64 in *. destruct (Z.leb_spec d 0); [done|].
    rewrite wrap64_id by (unfold int64, min_int64, max_int64; lia).
    by destruct (Z.leb_spec (d + 1) 0); [lia|].
  - intros base a Hb Ha.
    change (NewExponentialBackoff _)
      with (MkExponentialBackoff (Config base max_int64 true)).
    rewrite Exponential_Delay_base by (cbn; lia). cbn zeta. cbn [jitter].
    destruct (exponential_base_cases (Config base max_int64 true) a) as [[Hlt _]|[_ ->]];
      cbn [baseDelay maxDelay] in *; [lia|lia|unfold max_int64; lia| |done].
    pose proof (round53_pos base ltac:(lia)).
    pose proof (round53_int64 max_int64 ltac:(unfold max_int64; lia)).
    assert (2 ^ 63 ≤ 2 ^ a) by (apply Z.pow_le_mono_r; lia).
    unfold max_int64 in *. nia.
Qed.
