(* ===== verification/Semaphore.v ===== *)
(** * Counting semaphore ([src/pkg/semaphore/semaphore.go])

    The semaphore is a buffered channel of units (of size zero, so that [make] panics
    on a negative limit only). Each operation is the set of its possible results at an
    instant, one for each ready case of its select (Go picks one of them); the empty
    list means the call blocks. With limit 0 the channel is unbuffered: there an acquire
    and a [Release] that are under way at the same time meet ([meets]). *)
From S2P Require Import Prelude Golang.
Local Open Scope Z_scope.
Local Open Scope go_scope.

Record Semaphore := MkSemaphore { sem : chan unit }.

Definition NewSemaphore (limit : Z) : outcome Semaphore :=
  c <-- make_chan limit ;;; Ret (MkSemaphore c).

(** The case [s.sem <- struct{}{}] of a select, with the value it yields. *)
Definition send_case {R} (s : Semaphore) (r : R) : list (R * Semaphore) :=
  match chan_send (sem s) tt with
  | Sent c => [(r, MkSemaphore c)]
  | _ => []
  end.

Definition Acquire (s : Semaphore) : list (unit * Semaphore) := send_case s tt.

Definition TryAcquire (s : Semaphore) : bool * Semaphore :=
  match send_case s true with
  | r :: _ => r
  | [] => (false, s)
  end.

Definition AcquireWithContext (c : ctx) (s : Semaphore) : list (option error * Semaphore) :=
  send_case s None ++ (if ctx_done c then [(c, s)] else []).

(** [fired]: the timer of [time.After(timeout)] has fired. *)
Definition TryAcquireWithTimeout (fired : bool) (s : Semaphore) : list (bool * Semaphore) :=
  send_case s true ++ (if fired then [(false, s)] else []).

Definition Release (s : Semaphore) : list (unit * Semaphore) :=
  match chan_recv (sem s) with
  | Received _ c => [(tt, MkSemaphore c)]
  | _ => []
  end.

(** A sender and a receiver of an unbuffered channel meet: both return. *)
Definition meets (s : Semaphore) : bool :=
  (chan_cap (sem s) =? 0)%nat && negb (chan_closed (sem s)).

Definition Limit (s : Semaphore) : Z := Z.of_nat (chan_cap (sem s)).
Definition Available (s : Semaphore) : Z := Z.of_nat (chan_cap (sem s)) - chan_len (sem s).
Definition Acquired (s : Semaphore) : Z := chan_len (sem s).

(** ** The counter a semaphore implements *)

(** A semaphore holding [n] of [limit] slots. *)
Definition counts (s : Semaphore) (n limit : Z) : Prop :=
  0 ≤ n ≤ limit ∧ chan_closed (sem s) = false ∧
  Limit s = limit ∧ Acquired s = n.

Lemma counts_available s n limit : counts s n limit → Available s = limit - n.
Proof. intros (_ & _ & <- & <-). done. Qed.

Lemma send_case_free {R} s n limit (r : R) :
  counts s n limit → n < limit →
  ∃ s', send_case s r = [(r, s')] ∧ counts s' (n + 1) limit.
Proof.
  unfold counts, Limit, Acquired, chan_len. intros (Hn & Hcl & Hlim & Hacq) Hlt.
  unfold send_case, chan_send. rewrite Hcl.
  destruct (Nat.ltb_spec (length (chan_buf (sem s))) (chan_cap (sem s))); [|lia].
  eexists. split; [done|]. cbn. rewrite length_app. cbn. split; [lia|]. split; [done|lia].
Qed.

Lemma send_case_full {R} s n limit (r : R) :
  counts s n limit → n = limit → send_case s r = [].
Proof.
  unfold counts, Limit, Acquired, chan_len. intros (Hn & Hcl & Hlim & Hacq) Heq.
  unfold send_case, chan_send. rewrite Hcl.
  destruct (Nat.ltb_spec (length (chan_buf (sem s))) (chan_cap (sem s))); [lia|done].
Qed.

Lemma Release_counts s n limit :
  counts s n limit →
  n = 0 ∧ Release s = [] ∨
  0 < n ∧ ∃ s', Release s = [(tt, s')] ∧ counts s' (n - 1) limit.
Proof.
  unfold counts, Limit, Acquired, chan_len. intros (Hn & Hcl & Hlim & Hacq).
  unfold Release, chan_recv. destruct (chan_buf (sem s)) as [|u rest]; cbn in Hacq.
  - left. rewrite Hcl. split; [lia|done].
  - right. split; [lia|]. eexists. split; [done|]. cbn. split; [lia|]. split; [done|lia].
Qed.

#[export] Hint Resolve counts_available : golib.

(** ** Behaviour of each operation *)

(** C30: on a semaphore holding [n] of [limit] slots each operation is the
    corresponding operation of a bounded counter: below the limit every acquire
    variant can take a slot (and [AcquireWithContext] fails only on a done
    context, [TryAcquireWithTimeout] only on a fired timer); at the limit
    [Acquire] blocks, [TryAcquire] returns false and the others return their
    failure or block; [Release] gives a slot back and blocks on zero. *)
Theorem semaphore_refines_counter s n limit :
  counts s n limit →
  (n < limit → ∃ s',
     counts s' (n + 1) limit ∧
     Acquire s = [(tt, s')] ∧ TryAcquire s = (true, s') ∧
     (∀ c, AcquireWithContext c s = (None, s') :: if ctx_done c then [(c, s)] else []) ∧
     (∀ fired, TryAcquireWithTimeout fired s = (true, s') :: if fired then [(false, s)] else [])) ∧
  (n = limit →
     Acquire s = [] ∧ TryAcquire s = (false, s) ∧
     (∀ c, AcquireWithContext c s = if ctx_done c then [(c, s)] else []) ∧
     (∀ fired, TryAcquireWithTimeout fired s = if fired then [(false, s)] else [])) ∧
  (n = 0 → Release s = []) ∧
  (0 < n → ∃ s', Release s = [(tt, s')] ∧ counts s' (n - 1) limit) ∧
  Available s = limit - n.
Proof.
  intros Hc.
  unfold Acquire, TryAcquire, AcquireWithContext, TryAcquireWithTimeout.
  split_and!; [| | | |eauto with golib].
  - intros Hlt. unfold send_case.
    destruct (send_case_free s n limit tt Hc Hlt) as (s' & Hs & Hc').
    unfold send_case in Hs. case_match; try done. simplify_eq. eauto 10.
  - intros Heq. rewrite !(send_case_full s n limit) by done. done.
  - intros. destruct (Release_counts _ _ _ Hc) as [[_ ?]|[? _]]; [done|lia].
  - intros. destruct (Release_counts _ _ _ Hc) as [[? _]|[_ ?]]; [lia|done].
Qed.

Lemma NewSemaphore_counts limit s : NewSemaphore limit = Ret s → counts s 0 limit.
Proof.
  unfold NewSemaphore. destruct (make_chan limit) as [c|] eqn:Hc; [|done]. intros [= <-].
  unfold make_chan in Hc. case_match; [done|]. boolify. simplify_eq.
  unfold counts, Limit, Acquired, chan_len.
  cbn [sem chan_cap chan_buf chan_closed length]. split_and!; try done; lia.
Qed.

(** Two slots, one taken. *)
Definition semaphore_1_of_2 : Semaphore := MkSemaphore (Chan 2 [tt] false).

Lemma semaphore_refines_counter_witness :
  counts semaphore_1_of_2 1 2 ∧ Available semaphore_1_of_2 = 2 - 1.
Proof.
  assert (H : counts semaphore_1_of_2 1 2) by (vm_compute; intuition discriminate).
  split; [exact H|]. apply (semaphore_refines_counter semaphore_1_of_2 1 2 H).
Defined.

(** ** Goroutines sharing a semaphore

    A goroutine releases only slots it holds; [holders] lists the goroutine of
    each slot taken, one entry for each slot. *)
Record system := System { shared : Semaphore; holders : list nat }.

Inductive sys_step : system → system → Prop :=
| step_acquire g s s' h :
    (tt, s') ∈ Acquire s → sys_step (System s h) (System s' (g :: h))
| step_try g (b : bool) s s' h :
    TryAcquire s = (b, s') → sys_step (System s h) (System s' (if b then g :: h else h))
| step_ctx g c (r : option error) s s' h :
    (r, s') ∈ AcquireWithContext c s →
    sys_step (System s h) (System s' (match r with None => g :: h | Some _ => h end))
| step_timeout g fired (b : bool) s s' h :
    (b, s') ∈ TryAcquireWithTimeout fired s →
    sys_step (System s h) (System s' (if b then g :: h else h))
| step_release g s s' h1 h2 :
    (tt, s') ∈ Release s → sys_step (System s (h1 ++ g :: h2)) (System s' (h1 ++ h2))
| step_meet g g' s h1 h2 :
    meets s = true → sys_step (System s (h1 ++ g' :: h2)) (System s (g :: h1 ++ h2)).

(** The slots counted by the semaphore are those the goroutines hold. *)
Definition sys_inv (limit : Z) (x : system) : Prop :=
  counts (shared x) (Z.of_nat (length (holders x))) limit.

Lemma send_case_inv {R} (r r' : R) (s s' : Semaphore) n limit :
  counts s n limit → (r', s') ∈ send_case s r → r' = r ∧ counts s' (n + 1) limit.
Proof.
  intros Hc Hin. destruct (decide (n < limit)) as [Hlt|Hge].
  - destruct (send_case_free s n limit r Hc Hlt) as (s'' & Hs & ?). rewrite Hs in Hin.
    apply list_elem_of_singleton in Hin. by simplify_eq.
  - pose proof Hc as (? & _). rewrite (send_case_full s n limit r Hc) in Hin by lia.
    by apply elem_of_nil in Hin.
Qed.

Lemma sys_inv_grow limit s (h : list nat) g :
  counts s (Z.of_nat (length h) + 1) limit → sys_inv limit (System s (g :: h)).
Proof. unfold sys_inv. cbn [shared holders length]. by rewrite Nat2Z.inj_succ. Qed.

#[local] Hint Resolve sys_inv_grow : golib.

Lemma sys_step_inv limit x x' : sys_inv limit x → sys_step x x' → sys_inv limit x'.
Proof.
  intros Hinv Hstep. unfold sys_inv in Hinv. destruct Hstep; cbn [shared holders] in *.
  - eapply send_case_inv in H as [_ ?]; [|exact Hinv]. auto with golib.
  - unfold TryAcquire in *. destruct (send_case s true) as [|[b' s''] ?] eqn:Hs; simplify_eq; [done|].
    destruct (send_case_inv true b s s' _ limit Hinv) as [-> ?]; [rewrite Hs; left|].
    auto with golib.
  - unfold AcquireWithContext in *. apply elem_of_app in H as [H|H].
    + eapply send_case_inv in H as [-> ?]; [|exact Hinv]. auto with golib.
    + destruct c; cbn in H; [apply list_elem_of_singleton in H|by apply elem_of_nil in H].
      by simplify_eq.
  - unfold TryAcquireWithTimeout in *. apply elem_of_app in H as [H|H].
    + eapply send_case_inv in H as [-> ?]; [|exact Hinv]. auto with golib.
    + destruct fired; [apply list_elem_of_singleton in H|by apply elem_of_nil in H].
      by simplify_eq.
  - destruct (Release_counts _ _ _ Hinv) as [[_ Hr]|(_ & s'' & Hr & Hc)];
      rewrite Hr in H; [by apply elem_of_nil in H|].
    apply list_elem_of_singleton in H. simplify_eq. unfold sys_inv. cbn.
    rewrite !length_app in *. cbn in *.
    by replace (Z.of_nat (length h1 + length h2)) with (Z.of_nat (length h1 + S (length h2)) - 1) by lia.
  - unfold sys_inv. cbn. rewrite !length_app in *. cbn in *.
    by replace (Z.of_nat (S (length h1 + length h2))) with (Z.of_nat (length h1 + S (length h2))) by lia.
Qed.

(** C12: starting from [NewSemaphore(limit)], whatever the interleaving of the
    goroutines' operations, the slots held never exceed the limit, and
    [Acquired] and [Available] report exactly the held and the free slots. *)
Theorem semaphore_never_exceeds_limit limit s0 x :
  NewSemaphore limit = Ret s0 →
  rtc sys_step (System s0 []) x →
  Z.of_nat (length (holders x)) ≤ limit ∧
  Acquired (shared x) = Z.of_nat (length (holders x)) ∧
  Available (shared x) = limit - Z.of_nat (length (holders x)).
Proof.
  intros Hnew Hrtc. apply NewSemaphore_counts in Hnew.
  assert (Hinv : sys_inv limit x).
  { eapply (rtc_preserves _ (sys_inv limit)); [eauto using sys_step_inv|done|done]. }
  split; [by destruct Hinv as [[_ ?] _]|]. split; [apply Hinv|by apply counts_available].
Qed.

Lemma semaphore_never_exceeds_limit_witness :
  Acquired (MkSemaphore (Chan 1 [tt] false)) = 1.
Proof.
  apply (semaphore_never_exceeds_limit 1 (MkSemaphore (Chan 1 [] false))
    (System (MkSemaphore (Chan 1 [tt] false)) [7%nat])); [reflexivity|].
  apply rtc_once. apply step_acquire. vm_compute. left.
Defined.
