(* ===== verification/GoHeap.v ===== *)
(** * Go's [container/heap] over an arbitrary implementation of its interface

    [up], [down], [Push] and [Pop] as the standard library defines them, over a
    typeclass for [heap.Interface]. An index out of range is a panic. The laws of
    an implementation ([HeapLaws]) relate it to a list of keys; under them [Push]
    and [Pop] never panic, keep the heap order and the multiset of keys, and
    [Pop] returns a least key. *)
From S2P Require Import Prelude.
Local Open Scope go_scope.

(** ** Swapping two cells of a list *)
Definition swap {K} (l : list K) (i j : nat) : list K :=
  match l !! i, l !! j with
  | Some x, Some y => <[j := x]> (<[i := y]> l)
  | _, _ => l
  end.

Section Swap.
Context {K : Type}.
Implicit Type l : list K.

Lemma length_swap l i j : length (swap l i j) = length l.
Proof. unfold swap. by repeat case_match; rewrite ?length_insert. Qed.

Lemma lookup_swap l i j k :
  i < length l → j < length l →
  swap l i j !! k = if decide (k = j) then l !! i else if decide (k = i) then l !! j else l !! k.
Proof.
  intros [x Hx]%lookup_lt_is_Some_2 [y Hy]%lookup_lt_is_Some_2.
  unfold swap. rewrite Hx, Hy.
  assert (i < length l ∧ j < length l) as [??] by (split; eauto using lookup_lt_Some).
  destruct (decide (k = j)) as [->|].
  { by rewrite list_lookup_insert_eq by (by rewrite length_insert). }
  rewrite list_lookup_insert_ne by done.
  destruct (decide (k = i)) as [->|].
  - by rewrite list_lookup_insert_eq.
  - by rewrite list_lookup_insert_ne.
Qed.

Lemma swap_Permutation l i j : swap l i j ≡ₚ l.
Proof.
  unfold swap. destruct (l !! i) as [x|] eqn:Hx; [|done].
  destruct (l !! j) as [y|] eqn:Hy; [|done].
  destruct (decide (i = j)) as [->|Hne].
  { simplify_eq. by rewrite list_insert_insert_eq, list_insert_id. }
  assert (i < length l ∧ j < length l) as [??] by (split; eauto using lookup_lt_Some).
  symmetry. apply Permutation_inj. split.
  { by rewrite !length_insert. }
  exists (λ k, if decide (k = i) then j else if decide (k = j) then i else k).
  split; [intros a b; repeat case_decide; congruence|].
  intros k. destruct (decide (k = i)) as [->|].
  - rewrite list_lookup_insert_eq; [done|by rewrite length_insert].
  - destruct (decide (k = j)) as [->|].
    + by rewrite list_lookup_insert_ne, list_lookup_insert_eq.
    + by rewrite !list_lookup_insert_ne.
Qed.
End Swap.

(** ** The interface and the package's functions *)
Class HeapInterface (H X : Type) := {
  h_Len : H → nat;
  h_Less : H → nat → nat → outcome bool;
  h_Swap : H → nat → nat → outcome H;
  h_Push : H → X → H;
  h_Pop : H → outcome (X * H);
}.

Section Functions.
Context {H X : Type} `{!HeapInterface H X}.

(** The parent's index; [(0 - 1) / 2] truncates to 0. *)
Definition parent (j : nat) : nat := (j - 1) / 2.

(** [fuel] bounds the number of iterations; running out of it is a panic, so
    the results below also show that it is never exhausted. *)
Fixpoint up (fuel : nat) (h : H) (j : nat) : outcome H :=
  match fuel with
  | O => Panic
  | S fuel =>
      let i := parent j in
      if i =? j then Ret h
      else
        less <-- h_Less h j i ;;;
        if less : bool then h' <-- h_Swap h i j ;;; up fuel h' i
        else Ret h
  end.

Fixpoint down (fuel : nat) (h : H) (i n : nat) : outcome H :=
  match fuel with
  | O => Panic
  | S fuel =>
      let j1 := 2 * i + 1 in
      if n <=? j1 then Ret h
      else
        let j2 := j1 + 1 in
        right_less <-- (if j2 <? n then h_Less h j2 j1 else Ret false) ;;;
        let j := if right_less : bool then j2 else j1 in
        less <-- h_Less h j i ;;;
        if less : bool then h' <-- h_Swap h i j ;;; down fuel h' j n
        else Ret h
  end.

Definition Push (h : H) (x : X) : outcome H :=
  let h := h_Push h x in
  up (h_Len h) h (h_Len h - 1).

Definition Pop (h : H) : outcome (X * H) :=
  let n := h_Len h - 1 in
  h <-- h_Swap h 0 n ;;;
  h <-- down (S n) h 0 n ;;;
  h_Pop h.
End Functions.

(** ** Strict weak orders given by a boolean [less] *)
Class StrictWeakOrder {K : Type} (ltb : K → K → bool) : Prop := {
  swo_asym : ∀ x y, ltb x y = true → ltb y x = false;
  swo_trans : ∀ x y z, ltb y x = false → ltb z y = false → ltb z x = false;
}.

(** What an implementation promises: [rep h l] says [h] holds the keys [l]. *)
Class HeapLaws {H X K : Type} `{!HeapInterface H X} (ltb : K → K → bool)
    (key : X → K) (rep : H → list K → Prop) : Prop := {
  law_Len : ∀ h l, rep h l → h_Len h = length l;
  law_Less : ∀ h l i j x y, rep h l → l !! i = Some x → l !! j = Some y →
    h_Less h i j = Ret (ltb x y);
  law_Swap : ∀ h l i j, rep h l → i < length l → j < length l →
    ∃ h', h_Swap h i j = Ret h' ∧ rep h' (swap l i j);
  law_Push : ∀ h l x, rep h l → rep (h_Push h x) (l ++ [key x]);
  law_Pop : ∀ h l k, rep h (l ++ [k]) →
    ∃ x h', h_Pop h = Ret (x, h') ∧ key x = k ∧ rep h' l;
}.

Section Order.
Context {K : Type} (ltb : K → K → bool) `{!StrictWeakOrder ltb}.

(** Cells [i] and [j] are in order (vacuous out of range). *)
Definition le_at (l : list K) (i j : nat) : Prop :=
  ∀ x y, l !! i = Some x → l !! j = Some y → ltb y x = false.

(** The first [n] cells are in heap order. *)
Definition heap (l : list K) (n : nat) : Prop :=
  ∀ k, 0 < k < n → le_at l (parent k) k.

(** Heap order except between [j] and its parent. *)
Definition heap_up (l : list K) (n j : nat) : Prop :=
  (∀ k, 0 < k < n → k ≠ j → le_at l (parent k) k) ∧
  (∀ c, 0 < c < n → parent c = j → 0 < j → le_at l (parent j) c).

(** Heap order except between [i] and its children. *)
Definition heap_down (l : list K) (n i : nat) : Prop :=
  (∀ k, 0 < k < n → parent k ≠ i → le_at l (parent k) k) ∧
  (∀ c, 0 < c < n → parent c = i → 0 < i → le_at l (parent i) c).

Lemma parent_lt j : 0 < j → parent j < j.
Proof. unfold parent. lia. Qed.

Lemma parent_child c j : 0 < c → parent c = j → c = 2 * j + 1 ∨ c = 2 * j + 2.
Proof. unfold parent. lia. Qed.

Lemma le_at_trans l i j k :
  j < length l → le_at l i j → le_at l j k → le_at l i k.
Proof.
  intros [y Hy]%lookup_lt_is_Some_2 Hij Hjk x z Hx Hz.
  eapply swo_trans; eauto.
Qed.

Lemma le_at_refl l i : le_at l i i.
Proof.
  intros x y Hx Hy. simplify_eq.
  destruct (ltb x x) eqn:E; [|done]. apply swo_asym in E as E'. congruence.
Qed.

(** The root of a heap is a least element. *)
Lemma heap_root_least l n k : heap l n → n ≤ length l → k < n → le_at l 0 k.
Proof.
  intros Hheap Hn. induction (lt_wf k) as [k _ IH]. intros Hk.
  destruct (decide (k = 0)) as [->|].
  - apply le_at_refl.
  - pose proof (parent_lt k ltac:(lia)).
    apply (le_at_trans _ _ (parent k)); [lia|apply IH; lia|apply Hheap; lia].
Qed.

Lemma le_at_lookup l l' i j i' j' :
  l' !! i' = l !! i → l' !! j' = l !! j → le_at l i j → le_at l' i' j'.
Proof. unfold le_at. intros -> ->. done. Qed.

(** A cell of a swapped list, by the cases of its index. *)
Ltac cell := rewrite lookup_swap by lia; repeat case_decide; first [done | lia | congruence].

(** Swapping [j] with a larger parent moves the possible violation up. *)
Lemma heap_up_swap l n j x y :
  heap_up l n j → n ≤ length l → 0 < j < n →
  l !! j = Some y → l !! parent j = Some x → ltb y x = true →
  heap_up (swap l (parent j) j) n (parent j).
Proof.
  intros [Hup Hch] Hn Hj Hy Hx Hlt.
  pose proof (parent_lt j ltac:(lia)) as Hpj.
  split.
  - intros k Hk Hki. pose proof (parent_lt k ltac:(lia)).
    destruct (decide (k = j)) as [->|Hkj].
    { intros a b. rewrite !lookup_swap by lia. repeat case_decide; try lia.
      intros. simplify_eq. by apply swo_asym. }
    destruct (decide (parent k = parent j)) as [Hpk|Hpk].
    + apply (le_at_lookup l _ j k); [cell|cell|].
      intros a b Ha Hb. simplify_eq. eapply swo_trans; [by apply swo_asym|].
      eapply (Hup k); [done|done|by rewrite Hpk|done].
    + destruct (decide (parent k = j)) as [Hpkj|Hpkj].
      * apply (le_at_lookup l _ (parent j) k); [cell|cell|apply Hch; [lia|done|lia]].
      * apply (le_at_lookup l _ (parent k) k); [cell|cell|by apply Hup].
  - intros c Hc Hpc Hi0. pose proof (parent_lt (parent j) Hi0).
    assert (Hpp : le_at l (parent (parent j)) (parent j)) by (apply Hup; lia).
    pose proof (parent_lt c ltac:(lia)).
    destruct (decide (c = j)) as [->|Hcj].
    + apply (le_at_lookup l _ (parent (parent j)) (parent j)); [cell|cell|done].
    + apply (le_at_lookup l _ (parent (parent j)) c); [cell|cell|].
      apply (le_at_trans _ _ (parent j)); [lia|done|]. rewrite <- Hpc. apply Hup; lia.
Qed.

(** Swapping [i] with its least, smaller child moves the violation down. *)
Lemma heap_down_swap l n i j x y :
  heap_down l n i → n ≤ length l → 0 < j < n → parent j = i →
  l !! i = Some x → l !! j = Some y → ltb y x = true →
  (∀ c, 0 < c < n → parent c = i → le_at l j c) →
  heap_down (swap l i j) n j.
Proof.
  intros [Hdn Hch] Hn Hj Hpj Hx Hy Hlt Hleast.
  pose proof (parent_lt j ltac:(lia)) as Hij. rewrite Hpj in Hij.
  split.
  - intros k Hk Hkj. pose proof (parent_lt k ltac:(lia)).
    destruct (decide (k = j)) as [->|Hkj'].
    { intros a b. rewrite Hpj, !lookup_swap by lia. repeat case_decide; try lia.
      intros. simplify_eq. by apply swo_asym. }
    destruct (decide (parent k = i)) as [Hpk|Hpk].
    + apply (le_at_lookup l _ j k); [cell|cell|by apply Hleast].
    + destruct (decide (k = i)) as [->|Hki].
      * apply (le_at_lookup l _ (parent i) j); [cell|cell|apply Hch; lia].
      * apply (le_at_lookup l _ (parent k) k); [cell|cell|by apply Hdn].
  - intros c Hc Hpc _. pose proof (parent_lt c ltac:(lia)).
    apply (le_at_lookup l _ j c); [rewrite Hpj; cell|cell|]. rewrite <- Hpc. apply Hdn; lia.
Qed.

(** No violation is left when [j] is at the root or not below its parent. *)
Lemma heap_up_done l n j : heap_up l n j → le_at l (parent j) j → heap l n.
Proof.
  intros [Hup _] Hle k Hk. destruct (decide (k = j)) as [->|]; [done|by apply Hup].
Qed.

Lemma heap_down_done l n i :
  heap_down l n i → (∀ c, 0 < c < n → parent c = i → le_at l i c) → heap l n.
Proof.
  intros [Hdn _] Hle k Hk. destruct (decide (parent k = i)) as [<-|]; [by apply Hle|by apply Hdn].
Qed.
End Order.

(** ** Correctness of the package's functions *)
Section Correct.
Context {H X K : Type} `{!HeapInterface H X} (ltb : K → K → bool) (key : X → K)
  (rep : H → list K → Prop) `{!StrictWeakOrder ltb} `{!HeapLaws ltb key rep}.

Lemma law_lookup h l i : rep h l → i < length l → ∃ x, l !! i = Some x.
Proof. intros _ Hi. by apply lookup_lt_is_Some_2. Qed.

Lemma up_spec fuel : ∀ h l j,
  rep h l → heap_up ltb l (length l) j → j < length l → j < fuel →
  ∃ h' l', up fuel h j = Ret h' ∧ rep h' l' ∧ l' ≡ₚ l ∧ heap ltb l' (length l').
Proof.
  induction fuel as [|fuel IH]; intros h l j Hrep Hup Hj Hfuel; [lia|].
  cbn -[parent].
  destruct (Nat.eqb_spec (parent j) j) as [Hroot|Hne].
  { exists h, l. split_and!; try done. eapply heap_up_done; [done|].
    rewrite Hroot. by apply le_at_refl. }
  assert (parent j < j) as Hlt by (apply parent_lt; unfold parent in *; lia).
  destruct (law_lookup h l j Hrep Hj) as [y Hy].
  destruct (law_lookup h l (parent j) Hrep ltac:(lia)) as [x Hx].
  rewrite (law_Less h l _ _ y x) by done. cbn [obind]. destruct (ltb y x) eqn:Hyx.
  - destruct (law_Swap h l (parent j) j) as (h' & -> & Hrep'); [done|lia|lia|]. cbn [obind].
    destruct (IH h' _ (parent j) Hrep') as (h'' & l'' & ? & ? & Hperm & ?);
      [|rewrite length_swap; lia|lia|].
    { rewrite length_swap. eapply heap_up_swap; eauto. lia. }
    exists h'', l''. split_and!; try done. by rewrite Hperm, swap_Permutation.
  - exists h, l. split_and!; try done. eapply heap_up_done; [done|].
    intros a b Ha Hb. by simplify_eq.
Qed.

(** The child [down] compares with: the least of the two within [n]. *)
Lemma least_child h l i n :
  rep h l → n ≤ length l → 2 * i + 1 < n →
  ∃ b j y, (if 2 * i + 1 + 1 <? n then h_Less h (2 * i + 1 + 1) (2 * i + 1)
            else Ret false) = Ret b ∧
    j = (if b then 2 * i + 1 + 1 else 2 * i + 1) ∧ parent j = i ∧ 0 < j < n ∧
    l !! j = Some y ∧ (∀ c, 0 < c < n → parent c = i → le_at ltb l j c).
Proof.
  intros Hrep Hn Hi. destruct (law_lookup h l (2 * i + 1) Hrep ltac:(lia)) as [y1 Hy1].
  destruct (Nat.ltb_spec (2 * i + 1 + 1) n) as [Hj2|Hj2].
  - destruct (law_lookup h l (2 * i + 1 + 1) Hrep ltac:(lia)) as [y2 Hy2].
    rewrite (law_Less h l _ _ y2 y1) by done.
    assert (∀ c, 0 < c → parent c = i → c = 2 * i + 1 ∨ c = 2 * i + 1 + 1) as Hch.
    { intros c ? ?%parent_child; lia. }
    destruct (ltb y2 y1) eqn:Hlt;
      [exists true, (2 * i + 1 + 1), y2|exists false, (2 * i + 1), y1];
      (split_and!; [done|done|unfold parent; lia|lia|lia|done|]);
      (intros c [Hc _] [-> | ->]%Hch; [| |done]; try apply le_at_refl; try done).
    + intros a b Ha Hb. simplify_eq. by apply swo_asym.
    + intros a b Ha Hb. by simplify_eq.
  - exists false, (2 * i + 1), y1. split_and!; [done|done|unfold parent; lia|lia|lia|done|].
    intros c Hc [-> | ->]%parent_child; [by apply le_at_refl|lia|lia].
Qed.

(** [down] restores the order of the first [n] cells and leaves the others. *)
Lemma down_spec fuel : ∀ h l i n,
  rep h l → heap_down ltb l n i → n ≤ length l → i < length l → n - i < fuel →
  ∃ h' l', down fuel h i n = Ret h' ∧ rep h' l' ∧ l' ≡ₚ l ∧ heap ltb l' n ∧
           (∀ k, n ≤ k → l' !! k = l !! k ∨ k = i).
Proof.
  induction fuel as [|fuel IH]; intros h l i n Hrep Hdn Hn Hi Hfuel; [lia|].
  cbn -[parent Nat.mul Nat.add Nat.ltb Nat.leb].
  destruct (Nat.leb_spec n (2 * i + 1)) as [Hleaf|Hinner].
  { exists h, l. split_and!; try done; [|by left]. eapply heap_down_done; [done|].
    intros c Hc Hpc%parent_child; lia. }
  destruct (least_child h l i n Hrep Hn Hinner)
    as (b & j & y & -> & Hj & Hpj & Hjn & Hy & Hleast).
  cbn [obind]. rewrite <- Hj.
  pose proof (parent_lt j ltac:(lia)) as Hij.
  destruct (law_lookup h l i Hrep Hi) as [x Hx].
  rewrite (law_Less h l _ _ y x) by done. cbn [obind]. destruct (ltb y x) eqn:Hyx.
  - destruct (law_Swap h l i j) as (h' & -> & Hrep'); [done|lia|lia|]. cbn [obind].
    destruct (IH h' _ j n Hrep') as (h'' & l'' & ? & ? & Hperm & ? & Hrest);
      [eapply heap_down_swap; eauto|rewrite length_swap; lia|rewrite length_swap; lia|lia|].
    exists h'', l''. split_and!; try done; [by rewrite Hperm, swap_Permutation|].
    intros k Hk. destruct (Hrest k Hk) as [->| ->]; [|lia].
    rewrite lookup_swap by lia. repeat case_decide; [lia|by right|by left].
  - exists h, l. split_and!; try done; [|by left].
    eapply heap_down_done; [done|]. intros c Hc Hpc.
    apply (le_at_trans _ _ _ j); [lia| |by apply Hleast].
    intros a d Ha Hd. by simplify_eq.
Qed.

(** [Push] adds the key and keeps the heap order. *)
Lemma Push_spec h l x :
  rep h l → heap ltb l (length l) →
  ∃ h' l', Push h x = Ret h' ∧ rep h' l' ∧ l' ≡ₚ key x :: l ∧ heap ltb l' (length l').
Proof.
  intros Hrep Hheap. pose proof (law_Push h l x Hrep) as Hrep'.
  unfold Push. rewrite (law_Len _ _ Hrep').
  assert (Hlen : length (l ++ [key x]) = S (length l)) by (rewrite length_app; cbn; lia).
  destruct (up_spec (length (l ++ [key x])) _ _ (length (l ++ [key x]) - 1) Hrep')
    as (h' & l' & ? & ? & Hperm & ?); [|lia|lia|].
  - split; [|intros c Hc Hpc; pose proof (parent_lt c); lia].
    intros k Hk Hkl. pose proof (parent_lt k ltac:(lia)).
    apply (le_at_lookup _ l _ (parent k) k); [| |apply Hheap; lia];
      apply lookup_app_l; lia.
  - exists h', l'. split_and!; try done. by rewrite Hperm, Permutation_app_comm.
Qed.

(** [Pop] removes a least key and keeps the heap order. *)
Lemma Pop_spec h l :
  rep h l → heap ltb l (length l) → l ≠ [] →
  ∃ x h' l', Pop h = Ret (x, h') ∧ rep h' l' ∧ key x :: l' ≡ₚ l ∧
    heap ltb l' (length l') ∧ (∀ k, k ∈ l → ltb k (key x) = false).
Proof.
  intros Hrep Hheap Hne.
  assert (0 < length l) as Hpos by (destruct l; [done|cbn; lia]).
  unfold Pop. rewrite (law_Len _ _ Hrep). set (n := length l - 1).
  destruct (law_Swap h l 0 n) as (h1 & -> & Hrep1); [done|lia|lia|]. cbn [obind].
  pose proof (length_swap l 0 n) as Hlen1.
  destruct (down_spec (S n) h1 _ 0 n Hrep1) as (h2 & l2 & -> & Hrep2 & Hperm & Hheap2 & Hrest);
    [|lia|lia|lia|].
  { split; [|lia]. intros k Hk Hpk. pose proof (parent_lt k ltac:(lia)).
    apply (le_at_lookup _ l _ (parent k) k); [| |apply Hheap; lia];
      rewrite lookup_swap by lia; repeat case_decide; (done || lia). }
  cbn [obind].
  assert (Hlen2 : length l2 = length l) by (by rewrite Hperm).
  destruct (law_lookup h l 0 Hrep Hpos) as [r Hr].
  assert (Hlast : l2 !! n = Some r).
  { destruct (Hrest n ltac:(lia)) as [->|Hn0].
    - rewrite lookup_swap by lia. by rewrite decide_True.
    - rewrite Hn0. rewrite swap_Permutation in Hperm.
      destruct l as [|a [|]], l2 as [|b [|]]; cbn in *; try lia.
      apply Permutation_singleton_inj in Hperm. congruence. }
  destruct l2 as [|k l2 _] using rev_ind; [done|].
  rewrite length_app in Hlen2. cbn in Hlen2.
  rewrite lookup_app_r, list_lookup_singleton_Some in Hlast by lia.
  destruct Hlast as [_ <-].
  destruct (law_Pop h2 l2 k Hrep2) as (x & h' & -> & <- & Hrep').
  exists x, h', l2. split_and!; try done.
  - by rewrite Permutation_cons_append, Hperm, swap_Permutation.
  - intros c Hc. replace n with (length l2) in Hheap2 by lia.
    apply (le_at_lookup ltb (l2 ++ [key x]) _ (parent c) c); [| |by apply Hheap2];
      symmetry; apply lookup_app_l; pose proof (parent_lt c); lia.
  - intros k [i Hi]%list_elem_of_lookup.
    eapply (heap_root_least ltb l (length l) i Hheap); eauto using lookup_lt_Some.
Qed.
End Correct.
