(* ===== verification/QueueTypes.v ===== *)
(** * Task queue: shared data and the two storage interfaces
    ([src/pkg/taskqueue]: lobby.go, mode.go, errors.go, events.go, backend.go, deadletter.go)

    Tasks, modes, leases and events as data; [Backend] and [DeadLetter] as
    typeclasses with the laws the queue relies on, stated against the abstract
    stores they implement. *)
From S2P Require Import Prelude Golang.
Local Open Scope Z_scope.

(** ** Tasks *)

(** A task is an interface value: its identity ([task_ref], the object whose
    [Do] a consumer runs; the queue never calls it) and its metadata. *)
Record Task := MkTask {
  task_ref : Z;
  ID : Z;
  Seq : Z;
  Priority : Z;
}.

#[export] Instance Task_eq_dec : EqDecision Task.
Proof. solve_decision. Defined.

Definition PriorityLow : Z := 0.
Definition PriorityNormal : Z := 1.
Definition PriorityHigh : Z := 2.
Definition PrioritySuper : Z := 3.

(** A mode is an int; only [ModePriority] is tested, any other value is FIFO. *)
Definition Mode : Type := Z.
Definition ModePriority : Mode := 0.
Definition ModeFIFO : Mode := 1.

(** ** Errors *)
Definition ErrLobbyFull : error := Sentinel "taskqueue.ErrLobbyFull".
Definition ErrLobbyEmpty : error := Sentinel "taskqueue.ErrLobbyEmpty".
Definition ErrLobbyClosed : error := Sentinel "taskqueue.ErrLobbyClosed".
Definition ErrTaskNil : error := Sentinel "taskqueue.ErrTaskNil".
Definition ErrQueueEmpty : error := Sentinel "taskqueue.ErrQueueEmpty".
Definition ErrQueueClosed : error := Sentinel "taskqueue.ErrQueueClosed".
Definition ErrLeaseNotFound : error := Sentinel "taskqueue.ErrLeaseNotFound".
Definition ErrClaimSettled : error := Sentinel "taskqueue.ErrClaimSettled".
Definition ErrInvalidQueue : error := Sentinel "taskqueue.ErrInvalidQueue".
Definition ErrLeaseExpired : error := Sentinel "taskqueue.ErrLeaseExpired".

(** ** Leases and events *)

(** The four getters of the [Lease] interface. *)
Record Lease := MkLease {
  Token : string;
  lease_Task : Task;
  Attempt : Z;
  Deadline : Z;
}.

Inductive QueueEvent :=
| OnEnqueue (t : Task)
| OnClaim (l : Lease)
| OnAck (t : Task)
| OnNack (t : Task) (reason : option error)
| OnRetry (t : Task) (attempt : Z)
| OnDeadLetter (t : Task) (reason : option error)
| OnLeaseExpired (l : Lease).

(** A dead-lettered task. *)
Record DeadTask := MkDeadTask {
  dead_Task : Task;
  Reason : option error;
  Attempts : Z;
  DeadAt : Z;
}.

(** ** Nondeterminism of a call

    The UUID drawn for a token and the order in which [range] visits a map. *)
Record chance := Chance {
  uuid : string;
  range : ∀ {A : Type}, list A → list A;
  range_perm : ∀ A (l : list A), range l ≡ₚ l;
}.

Definition chance_of (s : string) : chance := Chance s (λ A l, l) (λ A l, reflexivity l).

(** ** The abstract store of a backend

    Waiting items with their delivery count, and the outstanding leases by
    token: task, delivery count, deadline. Two stores are equivalent when they
    differ in the order of the waiting items only. *)
Record store := Store {
  waiting : list (Task * Z);
  leased : gmap string (Task * Z * Z);
}.

#[export] Instance store_equiv : Equiv store := λ s s',
  waiting s ≡ₚ waiting s' ∧ leased s = leased s'.

#[export] Instance store_equivalence : Equivalence (≡@{store}).
Proof.
  split.
  - by intros s.
  - intros s s' [H H']. by split; symmetry.
  - intros s1 s2 s3 [H1 H1'] [H2 H2']. split; etrans; eauto.
Qed.

#[export] Instance Store_proper : Proper ((≡ₚ) ==> (=) ==> (≡)) Store.
Proof. intros w w' Hw l l' Hl. by split. Qed.

#[export] Instance leased_proper : Proper ((≡) ==> (=)) leased.
Proof. by intros s s' [_ ?]. Qed.

#[export] Instance waiting_proper : Proper ((≡) ==> (≡ₚ)) waiting.
Proof. by intros s s' [? _]. Qed.

Definition lease_of (token : string) (e : Task * Z * Z) : Lease :=
  MkLease token e.1.1 e.1.2 e.2.

(** The operations on the abstract store. *)
Definition store_enqueue (t : Task) (s : store) : store :=
  Store ((t, 0) :: waiting s) (leased s).

Definition store_settle (token : string) (s : store) : store :=
  Store (waiting s) (delete token (leased s)).

Definition store_requeue (token : string) (e : Task * Z * Z) (s : store) : store :=
  Store ((e.1.1, e.1.2) :: waiting s) (delete token (leased s)).

Definition store_claim (rest : list (Task * Z)) (token : string) (e : Task * Z * Z) (s : store) : store :=
  Store rest (<[token := e]> (leased s)).

#[export] Instance store_enqueue_proper t : Proper ((≡) ==> (≡)) (store_enqueue t).
Proof. intros s s' [H H']. unfold store_enqueue. by rewrite H, H'. Qed.

#[export] Instance store_settle_proper tok : Proper ((≡) ==> (≡)) (store_settle tok).
Proof. intros s s' [H H']. unfold store_settle. by rewrite H, H'. Qed.

#[export] Instance store_requeue_proper tok e : Proper ((≡) ==> (≡)) (store_requeue tok e).
Proof. intros s s' [H H']. unfold store_requeue. by rewrite H, H'. Qed.

(** ** The Backend interface *)
Class Backend (B : Type) := {
  be_Enqueue : ctx → option Task → B → outcome (option error * B);
  be_Claim : ctx → Z → Z → chance → B → outcome ((Lease + error) * B);
  be_Ack : ctx → string → B → outcome (option error * B);
  be_Nack : ctx → string → bool → B → outcome (option error * B);
  be_ReapExpired : ctx → Z → chance → B → outcome ((list Lease + error) * B);
  be_Len : ctx → B → outcome ((Z + error) * B);
}.

(** What a backend ordering tasks by [before] promises. A done context makes a
    call fail with the context's error and changes nothing. *)
Class BackendLaws {B : Type} `{!Backend B} (before : Task → Task → bool)
    (rep : B → store → Prop) : Prop := {
  rep_equiv : ∀ b s s', rep b s → s ≡ s' → rep b s';
  law_Enqueue : ∀ b s c t, rep b s →
    match c, t with
    | Some e, _ => be_Enqueue c t b = Ret (Some e, b)
    | None, None => be_Enqueue c t b = Ret (Some ErrTaskNil, b)
    | None, Some t => ∃ b', be_Enqueue c (Some t) b = Ret (None, b') ∧ rep b' (store_enqueue t s)
    end;
  law_Claim : ∀ b s c visibility now ch, rep b s →
    match c, waiting s with
    | Some e, _ => be_Claim c visibility now ch b = Ret (inr e, b)
    | None, [] => be_Claim c visibility now ch b = Ret (inr ErrQueueEmpty, b)
    | None, _ => ∃ t a rest b',
        waiting s ≡ₚ (t, a) :: rest ∧
        (∀ t' a', (t', a') ∈ waiting s → before t' t = false) ∧
        be_Claim c visibility now ch b =
          Ret (inl (MkLease (uuid ch) t (a + 1) (now + visibility)), b') ∧
        rep b' (store_claim rest (uuid ch) (t, a + 1, now + visibility) s)
    end;
  law_Ack : ∀ b s c tok, rep b s →
    match c, leased s !! tok with
    | Some e, _ => be_Ack c tok b = Ret (Some e, b)
    | None, None => be_Ack c tok b = Ret (Some ErrLeaseNotFound, b)
    | None, Some _ => ∃ b', be_Ack c tok b = Ret (None, b') ∧ rep b' (store_settle tok s)
    end;
  law_Nack : ∀ b s c tok (requeue : bool), rep b s →
    match c, leased s !! tok with
    | Some e, _ => be_Nack c tok requeue b = Ret (Some e, b)
    | None, None => be_Nack c tok requeue b = Ret (Some ErrLeaseNotFound, b)
    | None, Some e => ∃ b', be_Nack c tok requeue b = Ret (None, b') ∧
        rep b' (if requeue then store_requeue tok e s else store_settle tok s)
    end;
  law_ReapExpired : ∀ b s c now ch, rep b s →
    match c with
    | Some e => be_ReapExpired c now ch b = Ret (inr e, b)
    | None => ∃ ls, be_ReapExpired c now ch b = Ret (inl ls, b) ∧ NoDup (Token <$> ls) ∧
        (∀ l, l ∈ ls ↔ ∃ e, leased s !! Token l = Some e ∧ l = lease_of (Token l) e ∧ e.2 ≤ now)
    end;
  law_BLen : ∀ b s c, rep b s →
    be_Len c b = Ret (match c with Some e => inr e | None => inl (Z.of_nat (length (waiting s))) end, b);
}.

(** ** The DeadLetter interface, over a table keyed by task ID *)
Class DeadLetter (D : Type) := {
  dl_Add : ctx → option Task → option error → Z → D → option error * D;
  dl_List : ctx → Z → chance → D → (list DeadTask + error) * D;
  dl_Remove : ctx → Z → D → option error * D;
  dl_Len : ctx → D → (Z + error) * D;
}.

Class DeadLetterLaws {D : Type} `{!DeadLetter D} (rep : D → gmap Z DeadTask → Prop) : Prop := {
  dl_rep_fun : ∀ d m m', rep d m → rep d m' → m = m';
  law_Add : ∀ d m c t reason now, rep d m →
    match c, t with
    | Some e, _ => dl_Add c t reason now d = (Some e, d)
    | None, None => dl_Add c t reason now d = (Some ErrTaskNil, d)
    | None, Some t => ∃ d' x, dl_Add c (Some t) reason now d = (None, d') ∧
        rep d' (<[ID t := x]> m) ∧ dead_Task x = t ∧ Reason x = reason ∧ DeadAt x = now
    end;
  law_List : ∀ d m c limit ch, rep d m →
    match c with
    | Some e => dl_List c limit ch d = (inr e, d)
    | None => ∃ ds, dl_List c limit ch d = (inl ds, d) ∧
        (∀ x, x ∈ ds → ∃ id, m !! id = Some x) ∧
        (limit ≤ 0 → ∀ id x, m !! id = Some x → x ∈ ds) ∧
        (0 < limit → Z.of_nat (length ds) = Z.min limit (Z.of_nat (size m)))
    end;
  law_Remove : ∀ d m c id, rep d m →
    match c with
    | Some e => dl_Remove c id d = (Some e, d)
    | None => ∃ d', dl_Remove c id d = (None, d') ∧ rep d' (delete id m)
    end;
  law_DLen : ∀ d m c, rep d m →
    dl_Len c d = (match c with Some e => inr e | None => inl (Z.of_nat (size m)) end, d);
}.

(** ** Sequences of calls and their specification *)
Inductive bcall :=
| CallEnqueue (c : ctx) (t : option Task)
| CallClaim (c : ctx) (visibility now : Z) (ch : chance)
| CallAck (c : ctx) (token : string)
| CallNack (c : ctx) (token : string) (requeue : bool)
| CallReap (c : ctx) (now : Z) (ch : chance)
| CallLen (c : ctx).

Inductive bresult :=
| ResErr (e : option error)
| ResClaim (l : Lease + error)
| ResReap (ls : list Lease + error)
| ResLen (n : Z + error).

Definition call_ctx (call : bcall) : ctx :=
  match call with
  | CallEnqueue c _ | CallClaim c _ _ _ | CallAck c _ | CallNack c _ _
  | CallReap c _ _ | CallLen c => c
  end.

Section Calls.
Context {B : Type} `{!Backend B}.
Local Open Scope go_scope.

Definition exec (call : bcall) (b : B) : outcome (bresult * B) :=
  match call with
  | CallEnqueue c t => r <-- be_Enqueue c t b ;;; Ret (ResErr r.1, r.2)
  | CallClaim c v now ch => r <-- be_Claim c v now ch b ;;; Ret (ResClaim r.1, r.2)
  | CallAck c tok => r <-- be_Ack c tok b ;;; Ret (ResErr r.1, r.2)
  | CallNack c tok rq => r <-- be_Nack c tok rq b ;;; Ret (ResErr r.1, r.2)
  | CallReap c now ch => r <-- be_ReapExpired c now ch b ;;; Ret (ResReap r.1, r.2)
  | CallLen c => r <-- be_Len c b ;;; Ret (ResLen r.1, r.2)
  end.

Fixpoint exec_all (calls : list bcall) (b : B) : outcome (list bresult * B) :=
  match calls with
  | [] => Ret ([], b)
  | call :: rest =>
      r <-- exec call b ;;; rs <-- exec_all rest r.2 ;;; Ret (r.1 :: rs.1, rs.2)
  end.
End Calls.

(** The result of a call refused because its context is done. *)
Definition refused (call : bcall) (e : error) : bresult :=
  match call with
  | CallEnqueue _ _ | CallAck _ _ | CallNack _ _ _ => ResErr (Some e)
  | CallClaim _ _ _ _ => ResClaim (inr e)
  | CallReap _ _ _ => ResReap (inr e)
  | CallLen _ => ResLen (inr e)
  end.

(** One call on the abstract store: the contract of [Backend]. *)
Inductive spec_call (before : Task → Task → bool) : bcall → store → bresult → store → Prop :=
| spec_done call e s :
    call_ctx call = Some e → spec_call before call s (refused call e) s
| spec_enqueue_nil s :
    spec_call before (CallEnqueue None None) s (ResErr (Some ErrTaskNil)) s
| spec_enqueue t s :
    spec_call before (CallEnqueue None (Some t)) s (ResErr None) (store_enqueue t s)
| spec_claim_empty v now ch s :
    waiting s = [] →
    spec_call before (CallClaim None v now ch) s (ResClaim (inr ErrQueueEmpty)) s
| spec_claim v now ch t a rest s :
    waiting s ≡ₚ (t, a) :: rest →
    (∀ t' a', (t', a') ∈ waiting s → before t' t = false) →
    spec_call before (CallClaim None v now ch) s
      (ResClaim (inl (MkLease (uuid ch) t (a + 1) (now + v))))
      (store_claim rest (uuid ch) (t, a + 1, now + v) s)
| spec_unknown_ack tok s :
    leased s !! tok = None →
    spec_call before (CallAck None tok) s (ResErr (Some ErrLeaseNotFound)) s
| spec_ack tok e s :
    leased s !! tok = Some e →
    spec_call before (CallAck None tok) s (ResErr None) (store_settle tok s)
| spec_unknown_nack tok rq s :
    leased s !! tok = None →
    spec_call before (CallNack None tok rq) s (ResErr (Some ErrLeaseNotFound)) s
| spec_nack tok (rq : bool) e s :
    leased s !! tok = Some e →
    spec_call before (CallNack None tok rq) s (ResErr None)
      (if rq then store_requeue tok e s else store_settle tok s)
| spec_reap now ch ls s :
    NoDup (Token <$> ls) →
    (∀ l, l ∈ ls ↔ ∃ e, leased s !! Token l = Some e ∧ l = lease_of (Token l) e ∧ e.2 ≤ now) →
    spec_call before (CallReap None now ch) s (ResReap (inl ls)) s
| spec_len s :
    spec_call before (CallLen None) s (ResLen (inl (Z.of_nat (length (waiting s))))) s.

Inductive spec_calls (before : Task → Task → bool) :
    list bcall → store → list bresult → store → Prop :=
| spec_calls_nil s : spec_calls before [] s [] s
| spec_calls_cons call calls r rs s s' s'' :
    spec_call before call s r s' → spec_calls before calls s' rs s'' →
    spec_calls before (call :: calls) s (r :: rs) s''.

(** ** Forward simulation of the contract by any lawful backend *)
Section Simulation.
Context {B : Type} `{!Backend B} (before : Task → Task → bool) (rep : B → store → Prop).
Context `{!BackendLaws before rep}.

Lemma spec_refused call e r s :
  call_ctx call = Some e → refused call e = r → spec_call before call s r s.
Proof. intros ? <-. by apply spec_done. Qed.

Lemma backend_simulates call b s :
  rep b s →
  ∃ r b' s', exec call b = Ret (r, b') ∧ spec_call before call s r s' ∧ rep b' s'.
Proof.
  intros Hrep. destruct call as [c t|c v now ch|c tok|c tok rq|c now ch|c]; cbn.
  - pose proof (law_Enqueue b s c t Hrep) as H.
    destruct c as [e|]; [|destruct t as [t|]; [destruct H as (b' & -> & ?)|]];
      try rewrite H; cbn; eauto 10 using spec_call, spec_refused.
  - pose proof (law_Claim b s c v now ch Hrep) as H. destruct c as [e|].
    { rewrite H. eauto 10 using spec_refused. }
    destruct (waiting s) as [|w ws] eqn:Hw; [rewrite H; eauto 10 using spec_call|].
    destruct H as (t & a & rest & b' & Hperm & Hbefore & -> & ?).
    rewrite <- Hw in *. cbn. eauto 10 using spec_call.
  - pose proof (law_Ack b s c tok Hrep) as H. destruct c as [e|].
    { rewrite H. eauto 10 using spec_refused. }
    destruct (leased s !! tok) eqn:Hl; [destruct H as (b' & -> & ?)|rewrite H];
      cbn; eauto 10 using spec_call.
  - pose proof (law_Nack b s c tok rq Hrep) as H. destruct c as [e|].
    { rewrite H. eauto 10 using spec_refused. }
    destruct (leased s !! tok) eqn:Hl; [destruct H as (b' & -> & ?)|rewrite H];
      cbn; eauto 10 using spec_call.
  - pose proof (law_ReapExpired b s c now ch Hrep) as H. destruct c as [e|].
    { rewrite H. eauto 10 using spec_refused. }
    destruct H as (ls & -> & ? & ?). cbn. eauto 10 using spec_call.
  - rewrite (law_BLen b s c Hrep). destruct c as [e|]; cbn;
      eauto 10 using spec_call, spec_refused.
Qed.

Lemma backend_simulates_all calls : ∀ b s,
  rep b s →
  ∃ rs b' s', exec_all calls b = Ret (rs, b') ∧ spec_calls before calls s rs s' ∧ rep b' s'.
Proof.
  induction calls as [|call calls IH]; intros b s Hrep; cbn; [eauto 10 using spec_calls|].
  destruct (backend_simulates call b s Hrep) as (r & b1 & s1 & -> & ? & Hrep1).
  destruct (IH b1 s1 Hrep1) as (rs & b2 & s2 & Hexec & ? & ?).
  cbn. rewrite Hexec. cbn. eauto 10 using spec_calls.
Qed.
End Simulation.
