(* ===== verification/MemoryBackend.v ===== *)
(** * The in-memory backend ([src/pkg/taskqueue/memory_backend.go])

    [taskHeap] as an implementation of [heap.Interface], and [MemoryBackend] as
    an implementation of [Backend]: a heap of waiting items and a table of
    leases. Each operation runs under the backend's mutex, so it is one atomic
    function of the state; [time.Now] and the UUID are arguments. An item is in
    the heap or in one lease at a time, so items are values. *)
From Stdlib Require Import Sorted.
From S2P Require Import Prelude Golang GoHeap QueueTypes.
Local Open Scope Z_scope.
Local Open Scope go_scope.

(** ** queueItem and taskHeap *)
Record queueItem := MkItem { task : Task; attempt : Z; index : Z }.

Record taskHeap := MkHeap { items : list queueItem; mode : Mode }.

Definition with_index (k : Z) (it : queueItem) : queueItem := MkItem (task it) (attempt it) k.

Definition Len (h : taskHeap) : nat := length (items h).

(** The order of two tasks under a mode. *)
Definition task_less (m : Mode) (lhs rhs : Task) : bool :=
  if (m =? ModePriority) && negb (Priority lhs =? Priority rhs)
  then Priority rhs <? Priority lhs
  else Seq lhs <? Seq rhs.

Definition Less (h : taskHeap) (i j : nat) : outcome bool :=
  match items h !! i, items h !! j with
  | Some lhs, Some rhs => Ret (task_less (mode h) (task lhs) (task rhs))
  | _, _ => Panic
  end.

Definition Swap (h : taskHeap) (i j : nat) : outcome taskHeap :=
  match items h !! i, items h !! j with
  | Some lhs, Some rhs =>
      let l := <[j := lhs]> (<[i := rhs]> (items h)) in
      let l := alter (with_index (Z.of_nat i)) i l in
      let l := alter (with_index (Z.of_nat j)) j l in
      Ret (MkHeap l (mode h))
  | _, _ => Panic
  end.

Definition taskHeap_Push (h : taskHeap) (item : queueItem) : taskHeap :=
  MkHeap (items h ++ [with_index (Z.of_nat (length (items h))) item]) (mode h).

Definition taskHeap_Pop (h : taskHeap) : outcome (queueItem * taskHeap) :=
  match last (items h) with
  | Some item => Ret (with_index (-1) item, MkHeap (removelast (items h)) (mode h))
  | None => Panic
  end.

#[export] Instance taskHeap_interface : HeapInterface taskHeap queueItem := {
  h_Len := Len;
  h_Less := Less;
  h_Swap := Swap;
  h_Push := taskHeap_Push;
  h_Pop := taskHeap_Pop;
}.

(** ** Leases and the backend *)
Record leaseEntry := MkEntry { item : queueItem; deadline : Z }.

Record MemoryBackend := MkBackend {
  ready : taskHeap;
  leases : gmap string leaseEntry;
}.

Definition NewMemoryBackend (m : Mode) : MemoryBackend := MkBackend (MkHeap [] m) ∅.

Definition memoryLease (token : string) (e : leaseEntry) : Lease :=
  MkLease token (task (item e)) (attempt (item e)) (deadline e).

Definition Enqueue (c : ctx) (t : option Task) (b : MemoryBackend) :
    outcome (option error * MemoryBackend) :=
  match c with
  | Some e => Ret (Some e, b)
  | None =>
      match t with
      | None => Ret (Some ErrTaskNil, b)
      | Some t => h <-- Push (ready b) (MkItem t 0 0) ;;; Ret (None, MkBackend h (leases b))
      end
  end.

Definition Claim (c : ctx) (visibility now : Z) (ch : chance) (b : MemoryBackend) :
    outcome ((Lease + error) * MemoryBackend) :=
  match c with
  | Some e => Ret (inr e, b)
  | None =>
      if (Len (ready b) =? 0)%nat then Ret (inr ErrQueueEmpty, b)
      else
        r <-- Pop (ready b) ;;;
        let item := MkItem (task r.1) (attempt r.1 + 1) (index r.1) in
        let token := uuid ch in
        let e := MkEntry item (now + visibility) in
        Ret (inl (memoryLease token e), MkBackend r.2 (<[token := e]> (leases b)))
  end.

Definition Ack (c : ctx) (token : string) (b : MemoryBackend) :
    outcome (option error * MemoryBackend) :=
  match c with
  | Some e => Ret (Some e, b)
  | None =>
      match leases b !! token with
      | None => Ret (Some ErrLeaseNotFound, b)
      | Some _ => Ret (None, MkBackend (ready b) (delete token (leases b)))
      end
  end.

Definition Nack (c : ctx) (token : string) (requeue : bool) (b : MemoryBackend) :
    outcome (option error * MemoryBackend) :=
  match c with
  | Some e => Ret (Some e, b)
  | None =>
      match leases b !! token with
      | None => Ret (Some ErrLeaseNotFound, b)
      | Some entry =>
          let leases' := delete token (leases b) in
          if requeue
          then h <-- Push (ready b) (item entry) ;;; Ret (None, MkBackend h leases')
          else Ret (None, MkBackend (ready b) leases')
      end
  end.

(** The loop of [ReapExpired] over the entries in the order visited. *)
Fixpoint reap_loop (now : Z) (entries : list (string * leaseEntry)) (expired : list Lease) : list Lease :=
  match entries with
  | [] => expired
  | (token, entry) :: rest =>
      reap_loop now rest
        (if negb (now <? deadline entry) then expired ++ [memoryLease token entry] else expired)
  end.

Definition ReapExpired (c : ctx) (now : Z) (ch : chance) (b : MemoryBackend) :
    outcome ((list Lease + error) * MemoryBackend) :=
  match c with
  | Some e => Ret (inr e, b)
  | None => Ret (inl (reap_loop now (range ch (map_to_list (leases b))) []), b)
  end.

Definition backend_Len (c : ctx) (b : MemoryBackend) : outcome ((Z + error) * MemoryBackend) :=
  Ret (match c with Some e => inr e | None => inl (Z.of_nat (Len (ready b))) end, b).

#[export] Instance MemoryBackend_backend : Backend MemoryBackend := {
  be_Enqueue := Enqueue;
  be_Claim := Claim;
  be_Ack := Ack;
  be_Nack := Nack;
  be_ReapExpired := ReapExpired;
  be_Len := backend_Len;
}.

(** ** taskHeap satisfies the laws of heap.Interface *)

Definition item_key (it : queueItem) : Task * Z := (task it, attempt it).

Definition key_less (m : Mode) (a b : Task * Z) : bool := task_less m a.1 b.1.

(** The heap holds the keys [l] under mode [m], and every item knows its index. *)
Definition heap_rep (m : Mode) (h : taskHeap) (l : list (Task * Z)) : Prop :=
  mode h = m ∧ item_key <$> items h = l ∧
  ∀ i it, items h !! i = Some it → index it = Z.of_nat i.

#[export] Instance key_less_order m : StrictWeakOrder (key_less m).
Proof.
  split; unfold key_less, task_less; intros *;
    destruct (m =? ModePriority); cbn; repeat case_match; intros; boolify; lia.
Qed.

Lemma with_index_key k it : item_key (with_index k it) = item_key it.
Proof. done. Qed.

Lemma item_key_alter k i (l : list queueItem) : item_key <$> alter (with_index k) i l =@{list _} item_key <$> l.
Proof.
  apply list_eq. intros n. rewrite !list_lookup_fmap. 
  destruct (decide (n = i)) as [->|].
  - rewrite list_lookup_alter_eq. by destruct (l !! i).
  - by rewrite list_lookup_alter_ne by done.
Qed.

Lemma with_index_lookup k i (l : list queueItem) (n : nat) it :
  alter (with_index k) i l !! n = Some it →
  (n = i ∧ index it = k) ∨ (n ≠ i ∧ l !! n = Some it).
Proof.
  destruct (decide (n = i)) as [->|Hne].
  - rewrite list_lookup_alter_eq. destruct (l !! i); [|done]. cbn. intros [= <-]. by left.
  - rewrite list_lookup_alter_ne by done. by right.
Qed.

Lemma Swap_rep m h l i j :
  heap_rep m h l → (i < length l)%nat → (j < length l)%nat →
  ∃ h', Swap h i j = Ret h' ∧ heap_rep m h' (swap l i j).
Proof.
  intros (Hm & Hl & Hidx) Hi Hj. subst l. rewrite length_fmap in Hi, Hj.
  destruct (lookup_lt_is_Some_2 _ _ Hi) as [a Ha].
  destruct (lookup_lt_is_Some_2 _ _ Hj) as [b Hb].
  unfold Swap. rewrite Ha, Hb. eexists. split; [done|]. split_and!; [done| |].
  - cbn. rewrite !item_key_alter, !list_fmap_insert.
    unfold swap. by rewrite !list_lookup_fmap, Ha, Hb.
  - cbn. intros n it [[-> ?]|[Hnj Hn]]%with_index_lookup; [done|].
    apply with_index_lookup in Hn as [[-> ?]|[Hni Hn]]; [done|].
    rewrite !list_lookup_insert_ne in Hn by done. by apply Hidx.
Qed.

Lemma Push_rep m h l x :
  heap_rep m h l → heap_rep m (taskHeap_Push h x) (l ++ [item_key x]).
Proof.
  intros (Hm & Hl & Hidx). split_and!; [done| |].
  - cbn. by rewrite fmap_app, Hl.
  - cbn. intros i it [Hi|[Hlen Hi]]%lookup_app_Some; [by apply Hidx|].
    apply list_lookup_singleton_Some in Hi as [Hi <-]. cbn. f_equal. lia.
Qed.

Lemma Pop_rep m h l k :
  heap_rep m h (l ++ [k]) →
  ∃ x h', taskHeap_Pop h = Ret (x, h') ∧ item_key x = k ∧ heap_rep m h' l.
Proof.
  intros (Hm & Hl & Hidx). destruct h as [its m']. cbn in *.
  apply fmap_app_inv in Hl as (its' & last' & -> & Hk & ->).
  destruct last' as [|x [|]]; try done. cbn in Hk. injection Hk as ->.
  unfold taskHeap_Pop. cbn. rewrite last_snoc, removelast_last.
  eexists _, _. split_and!; [done|done|split_and!; [done|done|]]. cbn.
  intros i it Hi. apply Hidx. by apply lookup_app_l_Some.
Qed.

#[export] Instance taskHeap_laws m :
  HeapLaws (key_less m) item_key (heap_rep m).
Proof.
  split.
  - intros h l (_ & <- & _). unfold h_Len; cbn. by rewrite length_fmap.
  - intros h l i j x y (<- & <- & _) Hx Hy.
    apply list_lookup_fmap_Some in Hx as (a & -> & Ha).
    apply list_lookup_fmap_Some in Hy as (b & -> & Hb).
    unfold h_Less; cbn. unfold Less. by rewrite Ha, Hb.
  - apply Swap_rep.
  - apply Push_rep.
  - apply Pop_rep.
Qed.

(** ** The backend implements the abstract store *)

Definition entry_key (e : leaseEntry) : Task * Z * Z :=
  (task (item e), attempt (item e), deadline e).

(** The representation: a well-formed heap whose keys are the waiting items, and
    the lease table read through [entry_key]. *)
Definition backend_rep (m : Mode) (b : MemoryBackend) (s : store) : Prop :=
  ∃ l, heap_rep m (ready b) l ∧ heap (key_less m) l (length l) ∧
       l ≡ₚ waiting s ∧ entry_key <$> leases b = leased s.

Lemma NewMemoryBackend_rep m : backend_rep m (NewMemoryBackend m) (Store [] ∅).
Proof.
  exists []. split_and!; [done|intros k Hk; cbn in Hk; lia|done|].
  apply fmap_empty.
Qed.

Lemma lookup_leased m b s token :
  backend_rep m b s → leased s !! token = entry_key <$> leases b !! token.
Proof. intros (l & _ & _ & _ & <-). by rewrite lookup_fmap. Qed.

Lemma Len_rep m b s : backend_rep m b s → Len (ready b) = length (waiting s).
Proof.
  intros (l & (_ & Hl & _) & _ & Hperm & _). unfold Len.
  by rewrite <- Hperm, <- Hl, length_fmap.
Qed.

(** Pushing an item onto the heap adds its key to the waiting items. *)
Lemma push_backend m b s x leases' :
  backend_rep m b s →
  ∃ h, Push (ready b) x = Ret h ∧
       backend_rep m (MkBackend h leases') (Store (item_key x :: waiting s) (entry_key <$> leases')).
Proof.
  intros (l & Hrep & Hheap & Hperm & _).
  destruct (Push_spec (key_less m) item_key (heap_rep m) _ _ x Hrep Hheap)
    as (h & l' & -> & Hrep' & Hperm' & Hheap').
  exists h. split; [done|]. exists l'. split_and!; [done|done| |done].
  by rewrite Hperm', Hperm.
Qed.

Lemma reap_loop_app now entries acc :
  reap_loop now entries acc =
  acc ++ ((λ te, memoryLease te.1 te.2) <$> filter (λ te, deadline te.2 ≤ now) entries).
Proof.
  revert acc. induction entries as [|[token e] rest IH]; intros acc; cbn.
  - by rewrite app_nil_r.
  - rewrite IH. destruct (Z.ltb_spec now (deadline e)); cbn.
    + by rewrite decide_False by lia.
    + rewrite decide_True by lia. by rewrite <- app_assoc.
Qed.

(** The leases returned are those at or past their deadline, each once. *)
Lemma ReapExpired_rep m b s now ch :
  backend_rep m b s →
  let ls := reap_loop now (range ch (map_to_list (leases b))) [] in
  NoDup (Token <$> ls) ∧
  ∀ l, l ∈ ls ↔ ∃ e, leased s !! Token l = Some e ∧ l = lease_of (Token l) e ∧ e.2 ≤ now.
Proof.
  intros Hrep. cbn zeta. rewrite reap_loop_app. cbn [app].
  pose proof (range_perm ch _ (map_to_list (leases b))) as Hperm.
  split.
  - rewrite <- list_fmap_compose.
    change (Token ∘ _) with (@fst string leaseEntry).
    assert (Hnd : NoDup (range ch (map_to_list (leases b))).*1).
    { rewrite Hperm. apply NoDup_fst_map_to_list. }
    revert Hnd. generalize (range ch (map_to_list (leases b))). intros l.
    induction l as [|te l IH]; intros Hnd; [by rewrite filter_nil|].
    cbn in Hnd. apply NoDup_cons in Hnd as [Hnin Hnd].
    rewrite filter_cons. case_decide; [|by apply IH].
    cbn. apply NoDup_cons. split; [|by apply IH].
    intros (x & Hx & [_ Hin]%list_elem_of_filter)%list_elem_of_fmap.
    apply Hnin. cbn in Hx. rewrite Hx. by apply list_elem_of_fmap_2.
  - intros l. rewrite list_elem_of_fmap. split.
    + intros ([token e] & -> & [Hle Hin]%list_elem_of_filter).
      rewrite Hperm in Hin. apply elem_of_map_to_list in Hin.
      exists (entry_key e). split_and!; [|done|done].
      rewrite (lookup_leased m b s) by done. cbn. by rewrite Hin.
    + intros (k & Hk & -> & Hle). cbn in *.
      rewrite (lookup_leased m b s) in Hk by done.
      apply fmap_Some in Hk as (e & He & ->).
      exists (Token l, e). split; [done|]. apply list_elem_of_filter. split; [done|].
      rewrite Hperm. by apply elem_of_map_to_list.
Qed.

#[export] Instance MemoryBackend_laws m : BackendLaws (task_less m) (backend_rep m).
Proof.
  split; cbn [be_Enqueue be_Claim be_Ack be_Nack be_ReapExpired be_Len MemoryBackend_backend].
  - intros b s s' (l & Hrep & Hheap & Hperm & Hl) [Hw Hl'].
    exists l. split_and!; [done|done|by rewrite Hperm|by rewrite Hl].
  - intros b s c t Hrep. unfold Enqueue. destruct c as [e|]; [done|].
    destruct t as [t|]; [|done].
    destruct (push_backend m b s (MkItem t 0 0) (leases b) Hrep) as (h & -> & Hrep').
    destruct Hrep as (_ & _ & _ & _ & Hl). rewrite Hl in Hrep'. by eexists.
  - intros b s c v now ch Hrep. unfold Claim. destruct c as [e|]; [done|].
    rewrite (Len_rep m b s Hrep).
    destruct (waiting s) as [|w ws] eqn:Hw; [done|]. cbn [length Nat.eqb].
    destruct Hrep as (l & Hrep & Hheap & Hperm & Hl). rewrite Hw in Hperm.
    destruct (Pop_spec (key_less m) item_key (heap_rep m) _ l Hrep Hheap)
      as (x & h & rest & -> & Hrep' & Hperm' & Hheap' & Hleast).
    { intros ->. by apply Permutation_nil_cons in Hperm. }
    exists (task x), (attempt x), rest. eexists. cbn [obind fst snd].
    split_and!; [by rewrite <- Hperm, <- Hperm'| |done|].
    + intros t' a' Hin. rewrite <- Hperm in Hin. by apply Hleast in Hin.
    + exists rest. split_and!; [done|done|done|]. cbn. by rewrite fmap_insert, Hl.
  - intros b s c tok Hrep. unfold Ack. destruct c as [e|]; [done|].
    rewrite (lookup_leased m b s tok Hrep). destruct (leases b !! tok) as [en|]; [cbn -[Push]|done].
    eexists. split; [done|]. destruct Hrep as (l & ? & ? & ? & Hl).
    exists l. split_and!; [done|done|done|]. cbn. by rewrite fmap_delete, Hl.
  - intros b s c tok rq Hrep. unfold Nack. destruct c as [e|]; [done|].
    rewrite (lookup_leased m b s tok Hrep). destruct (leases b !! tok) as [en|]; [cbn -[Push]|done].
    assert (Hdel : entry_key <$> delete tok (leases b) = delete tok (leased s)).
    { destruct Hrep as (? & _ & _ & _ & <-). by rewrite fmap_delete. }
    destruct rq.
    + destruct (push_backend m b s (item en) (delete tok (leases b)) Hrep) as (h & -> & Hrep').
      eexists. split; [done|]. by rewrite Hdel in Hrep'.
    + eexists. split; [done|]. destruct Hrep as (l & ? & ? & ? & ?). by exists l.
  - intros b s c now ch Hrep. unfold ReapExpired. destruct c as [e|]; [done|].
    eexists. split; [done|]. exact (ReapExpired_rep m b s now ch Hrep).
  - intros b s c Hrep. unfold backend_Len. rewrite (Len_rep m b s Hrep). by destruct c.
Qed.

(** C2: every sequence of calls on a new in-memory backend runs without a panic
    and is a run of the [Backend] contract on the abstract store: a done context
    refuses the call and changes nothing; [Enqueue] adds a ready task; [Claim]
    removes a task that no ready task precedes in the mode's order, counts the
    delivery and leases it until [now + visibility]; [Ack] and [Nack] settle
    exactly the lease of their token, [Nack] with [requeue] keeping the count;
    [ReapExpired] lists exactly the leases at or past their deadline. *)
Theorem memory_backend_refines m calls :
  ∃ results b' s',
    exec_all calls (NewMemoryBackend m) = Ret (results, b') ∧
    spec_calls (task_less m) calls (Store [] ∅) results s' ∧ backend_rep m b' s'.
Proof.
  apply (backend_simulates_all (task_less m) (backend_rep m)). apply NewMemoryBackend_rep.
Qed.

(** ** Draining a backend *)

(** Enqueue tasks one after the other, then claim as many times as [chs] has
    draws, without settling. *)
Fixpoint enqueue_all (ts : list Task) (b : MemoryBackend) : outcome MemoryBackend :=
  match ts with
  | [] => Ret b
  | t :: ts => r <-- Enqueue live (Some t) b ;;; enqueue_all ts r.2
  end.

Fixpoint claim_all (chs : list chance) (b : MemoryBackend) : outcome (list (Lease + error)) :=
  match chs with
  | [] => Ret []
  | ch :: chs =>
      r <-- Claim live 0 0 ch b ;;; rs <-- claim_all chs r.2 ;;; Ret (r.1 :: rs)
  end.

Lemma StronglySorted_weaken {A} (R R' : A → A → Prop) l :
  (∀ x y, R x y → R' x y) → StronglySorted R l → StronglySorted R' l.
Proof.
  intros HR. induction 1 as [|x l _ IH Hx]; constructor; [done|].
  eapply Forall_impl; [exact Hx|]. by apply HR.
Qed.

Lemma enqueue_all_rep m ts : ∀ b s,
  backend_rep m b s →
  ∃ b', enqueue_all ts b = Ret b' ∧
        backend_rep m b' (Store (reverse ((λ t, (t, 0)) <$> ts) ++ waiting s) (leased s)).
Proof.
  induction ts as [|t ts IH]; intros b s Hrep; cbn [enqueue_all].
  { exists b. by destruct s. }
  destruct (law_Enqueue b s None (Some t) Hrep) as (b1 & Heq & Hrep1).
  change (Enqueue live (Some t) b = Ret (None, b1)) in Heq. rewrite Heq. cbn [obind snd].
  destruct (IH b1 _ Hrep1) as (b' & -> & Hrep'). exists b'. split; [done|].
  rewrite fmap_cons, reverse_cons, <- app_assoc. done.
Qed.

(** Claims come out least first in the mode's order. *)
Lemma claim_all_sorted m (chs : list chance) : ∀ b s,
  backend_rep m b s → (length chs = length (waiting s))%nat →
  ∃ ls, claim_all chs b = Ret (inl <$> ls) ∧
        (λ l, (lease_Task l, Attempt l - 1)) <$> ls ≡ₚ waiting s ∧
        StronglySorted (λ l l', task_less m (lease_Task l') (lease_Task l) = false) ls.
Proof.
  induction chs as [|ch chs IH]; intros b s Hrep Hlen; cbn [claim_all].
  { exists []. destruct (waiting s); [|done]. repeat constructor. }
  pose proof (law_Claim b s None 0 0 ch Hrep) as H.
  destruct (waiting s) as [|w ws] eqn:Hw; [done|]. rewrite <- Hw in *.
  destruct H as (t & a & rest & b' & Hperm & Hleast & Heq & Hrep').
  change (Claim live 0 0 ch b = Ret (inl (MkLease (uuid ch) t (a + 1) (0 + 0)), b')) in Heq.
  rewrite Heq. cbn [obind fst snd].
  destruct (IH b' _ Hrep') as (ls & -> & Hls & Hsorted).
  { apply Permutation_length in Hperm. cbn in *. lia. }
  eexists (_ :: ls). split; [done|]. split.
  - cbn. cbn in Hls. by rewrite Hperm, Hls, Z.add_simpl_r.
  - constructor; [done|]. apply Forall_forall. intros l Hl.
    apply (list_elem_of_fmap_2 (λ l, (lease_Task l, Attempt l - 1))) in Hl. cbn in Hl, Hls.
    rewrite Hls in Hl. eapply Hleast. rewrite Hperm. by right.
Qed.

(** C5: draining a new backend: after enqueueing tasks in any order, claiming as
    many times returns each of them once, on its first attempt, in the mode's
    order: by priority descending then sequence ascending under
    [ModePriority], by sequence alone otherwise. *)
Theorem memory_backend_drains_in_order m ts chs :
  length chs = length ts →
  ∃ b ls,
    enqueue_all ts (NewMemoryBackend m) = Ret b ∧ claim_all chs b = Ret (inl <$> ls) ∧
    lease_Task <$> ls ≡ₚ ts ∧ Forall (λ l, Attempt l = 1) ls ∧
    StronglySorted (λ l l',
      if m =? ModePriority
      then Priority (lease_Task l') < Priority (lease_Task l) ∨
           Priority (lease_Task l') = Priority (lease_Task l) ∧
           Seq (lease_Task l) ≤ Seq (lease_Task l')
      else Seq (lease_Task l) ≤ Seq (lease_Task l')) ls.
Proof.
  intros Hlen.
  destruct (enqueue_all_rep m ts _ _ (NewMemoryBackend_rep m)) as (b & Hb & Hrep).
  rewrite app_nil_r in Hrep. cbn [leased] in Hrep.
  destruct (claim_all_sorted m chs b _ Hrep) as (ls & Hls & Hperm & Hsorted).
  { cbn. by rewrite length_reverse, length_fmap. }
  cbn in Hperm. rewrite (reverse_Permutation ((λ t, (t, 0)) <$> ts)) in Hperm.
  exists b, ls. split_and!; [done|done| | |].
  - apply (fmap_Permutation fst) in Hperm. by rewrite <- !list_fmap_compose, list_fmap_id in Hperm.
  - apply Forall_forall. intros l Hl.
    apply (list_elem_of_fmap_2 (λ l, (lease_Task l, Attempt l - 1))) in Hl.
    rewrite Hperm in Hl. apply list_elem_of_fmap in Hl as (t & Ht & _). injection Ht. lia.
  - eapply StronglySorted_weaken; [|exact Hsorted]. intros l l'. unfold task_less.
    destruct (m =? ModePriority); cbn; repeat case_match; intros; boolify; lia.
Qed.

(** Three tasks; the urgent one, enqueued last, is claimed first. *)
Lemma memory_backend_drains_in_order_witness :
  let t i seq p := MkTask i i seq p in
  let ts := [t 1 1 PriorityLow; t 2 2 PriorityNormal; t 3 3 PrioritySuper] in
  let chs := [chance_of "a"; chance_of "b"; chance_of "c"] in
  ∃ b ls, enqueue_all ts (NewMemoryBackend ModePriority) = Ret b ∧
          claim_all chs b = Ret (inl <$> ls) ∧ lease_Task <$> ls ≡ₚ ts ∧
          Forall (λ l, Attempt l = 1) ls.
Proof.
  intros t ts chs.
  destruct (memory_backend_drains_in_order ModePriority ts chs eq_refl)
    as (b & ls & H1 & H2 & H3 & H4 & _).
  exists b, ls. split_and!; assumption.
Defined.
