(* ===== verification/DeadLetter.v ===== *)
(** * The in-memory dead-letter store ([src/pkg/taskqueue/deadletter.go])

    [MemoryDeadLetter], keyed by task ID, as an implementation of [DeadLetter].
    Each operation runs under the store's mutex; [time.Now] is an argument. *)
From S2P Require Import Prelude Golang QueueTypes.
Local Open Scope Z_scope.

Record MemoryDeadLetter := MkDeadLetter { tasks : gmap Z DeadTask }.

Definition NewMemoryDeadLetter : MemoryDeadLetter := MkDeadLetter ∅.

(** The composite literal sets [Task], [Reason] and [DeadAt] only. *)
Definition Add (c : ctx) (t : option Task) (reason : option error) (now : Z)
    (d : MemoryDeadLetter) : option error * MemoryDeadLetter :=
  match c with
  | Some e => (Some e, d)
  | None =>
      match t with
      | None => (Some ErrTaskNil, d)
      | Some t => (None, MkDeadLetter (<[ID t := MkDeadTask t reason 0 now]> (tasks d)))
      end
  end.

(** The loop of [List] over the values in the order visited. *)
Fixpoint list_loop (limit : Z) (visited : list DeadTask) (listed : list DeadTask) : list DeadTask :=
  match visited with
  | [] => listed
  | dead :: rest =>
      if (0 <? limit) && (limit <=? Z.of_nat (length listed)) then listed
      else list_loop limit rest (listed ++ [dead])
  end.

Definition List (c : ctx) (limit : Z) (ch : chance) (d : MemoryDeadLetter) :
    (list DeadTask + error) * MemoryDeadLetter :=
  match c with
  | Some e => (inr e, d)
  | None => (inl (list_loop limit (range ch (map_to_list (tasks d))).*2 []), d)
  end.

Definition Remove (c : ctx) (id : Z) (d : MemoryDeadLetter) : option error * MemoryDeadLetter :=
  match c with
  | Some e => (Some e, d)
  | None => (None, MkDeadLetter (delete id (tasks d)))
  end.

Definition deadletter_Len (c : ctx) (d : MemoryDeadLetter) : (Z + error) * MemoryDeadLetter :=
  (match c with Some e => inr e | None => inl (Z.of_nat (size (tasks d))) end, d).

#[export] Instance MemoryDeadLetter_deadletter : DeadLetter MemoryDeadLetter := {
  dl_Add := Add;
  dl_List := List;
  dl_Remove := Remove;
  dl_Len := deadletter_Len;
}.

(** ** The laws *)

(** With a positive limit the loop stops at it; otherwise it takes everything. *)
Lemma list_loop_take limit visited listed :
  list_loop limit visited listed =
  listed ++ (if 0 <? limit then take (Z.to_nat limit - length listed) visited else visited).
Proof.
  revert listed. induction visited as [|x rest IH]; intros listed; cbn [list_loop].
  { rewrite take_nil. case_match; by rewrite app_nil_r. }
  destruct (Z.ltb_spec 0 limit); cbn [andb].
  - destruct (Z.leb_spec limit (Z.of_nat (length listed))).
    + replace (Z.to_nat limit - length listed)%nat with 0%nat by lia. by rewrite app_nil_r.
    + rewrite IH, length_app. cbn [length].
      replace (Z.to_nat limit - length listed)%nat
        with (S (Z.to_nat limit - (length listed + 1))) by lia.
      cbn [take]. by rewrite <- app_assoc.
  - rewrite IH. by rewrite <- app_assoc.
Qed.

Lemma elem_of_visited (ch : chance) (m : gmap Z DeadTask) x :
  x ∈ (range ch (map_to_list m)).*2 ↔ ∃ id, m !! id = Some x.
Proof.
  rewrite (range_perm ch). rewrite list_elem_of_fmap. split.
  - intros ([id y] & -> & Hin). exists id. by apply elem_of_map_to_list.
  - intros [id Hid]. exists (id, x). split; [done|]. by apply elem_of_map_to_list.
Qed.

#[export] Instance MemoryDeadLetter_laws :
  DeadLetterLaws (λ (d : MemoryDeadLetter) m, tasks d = m).
Proof.
  split; cbn [dl_Add dl_List dl_Remove dl_Len MemoryDeadLetter_deadletter].
  - by intros d m m' <- <-.
  - intros d m c t reason now <-. unfold Add. destruct c; [done|]. destruct t; [|done].
    by eexists _, _.
  - intros d m c limit ch <-. unfold List. destruct c; [done|].
    eexists. split; [done|]. rewrite list_loop_take. cbn [app length].
    rewrite Nat.sub_0_r. destruct (Z.ltb_spec 0 limit); split_and!.
    + intros x Hx. apply (elem_of_visited ch). apply elem_of_take in Hx as (i & Hx & _). by eapply list_elem_of_lookup_2.
    + lia.
    + intros _. rewrite length_take, length_fmap, (range_perm ch).
      rewrite length_map_to_list. lia.
    + intros x Hx. by apply (elem_of_visited ch).
    + intros _ id x Hx. apply (elem_of_visited ch). by exists id.
    + lia.
  - intros d m c id <-. unfold Remove. destruct c; [done|]. by eexists.
  - intros d m c <-. done.
Qed.
