(* ===== verification/Queue.v ===== *)
(** * The queue ([src/pkg/taskqueue/queue.go])

    The queue's methods are programs over atomic actions: each access to shared
    state that Go performs atomically (a backend or dead-letter call under its
    mutex, an atomic load, store or compare-and-swap, an event, reading the clock
    or a context) is one action. [act] runs one action; [run] runs a program
    alone, and the interleavings of several programs are in [QueueSafety]. The
    queue is generic in its [Backend] and [DeadLetter], as in the source. *)
From S2P Require Import Prelude Golang QueueTypes.
Local Open Scope Z_scope.
Local Open Scope go_scope.

Definition defaultMaxAttempts : Z := 3.
Definition defaultVisibilityTimeout : Z := 30 * Second.
Definition defaultReapInterval : Z := 5 * Second.
Definition defaultDequeuePoll : Z := 5 * Millisecond.

(** A claim handle: its identity (the object holding [settled]) and its lease. *)
Record Claim := MkClaim { claim_id : nat; lease : Lease }.

(** ** Actions and programs *)

(** Contexts are named by a number; an action reads the state a context has when
    it runs. *)
Inductive action : Type → Type :=
| CtxErr (c : nat) : action (option error)
| LoadClosed : action bool
| StoreClosed : action unit
| OnceClose : action bool
| OnceReturn (err : option error) : action unit
| CancelRun : action unit
| TimeNow : action Z
| Event (e : QueueEvent) : action unit
| BackendEnqueue (c : nat) (t : option Task) : action (option error)
| BackendClaim (c : nat) (visibility : Z) : action (Lease + error)
| BackendAck (c : nat) (token : string) : action (option error)
| BackendNack (c : nat) (token : string) (requeue : bool) : action (option error)
| BackendReap (c : nat) (now : Z) : action (list Lease + error)
| DeadAdd (c : nat) (t : Task) (reason : option error) : action (option error)
| DeadList (c : nat) (limit : Z) : action (list DeadTask + error)
| DeadRemove (c : nat) (id : Z) : action (option error)
| DeadLen (c : nat) : action (Z + error)
| NewClaim (l : Lease) : action Claim
| CasSettled (cl : Claim) : action bool
| SelectTimer (c : nat) (d : Z) : action (option error)
| SelectReaperDone (c : nat) : action (option error)
| CloseReaperDone : action unit
| OutOfTicks : action unit.

(** The context of the reaper, canceled by [Close]. *)
Definition runCtx : nat := 0.

Inductive prog (A : Type) : Type :=
| Return (a : A)
| Do {R : Type} (a : action R) (k : R → prog A).
Arguments Return {A} a.
Arguments Do {A R} a k.

Fixpoint bind {A A'} (p : prog A) (f : A → prog A') : prog A' :=
  match p with
  | Return a => f a
  | Do a k => Do a (λ r, bind (k r) f)
  end.

Notation "'do!' x := a 'in' k" := (Do a (λ x, k))
  (at level 10, x name, a at level 100, k at level 200) : go_scope.
Notation "'call!' x := p 'in' k" := (bind p (λ x, k))
  (at level 10, x name, p at level 100, k at level 200) : go_scope.

(** ** The configured queue *)
Record Queue := MkQueue {
  maxAttempts : Z;
  mode : Mode;
  visibility : Z;
  reapInterval : Z;
}.

(** Options of [New]: a backend or dead-letter option replaces the store. *)
Record options (B D : Type) := MkOptions {
  opt_backend : option B;
  opt_deadLetter : option D;
  opt_queue : Queue;
}.
Arguments MkOptions {B D} _ _ _.
Arguments opt_backend {B D} _.
Arguments opt_deadLetter {B D} _.
Arguments opt_queue {B D} _.

Section Options.
Context {B D : Type}.
Definition Option : Type := options B D → options B D.

Definition WithBackend (b : B) : Option := λ o,
  MkOptions (Some b) (opt_deadLetter o) (opt_queue o).
Definition WithDeadLetter (d : D) : Option := λ o,
  MkOptions (opt_backend o) (Some d) (opt_queue o).
Definition WithMode (m : Mode) : Option := λ o,
  let q := opt_queue o in MkOptions (opt_backend o) (opt_deadLetter o)
    (MkQueue (maxAttempts q) m (visibility q) (reapInterval q)).
Definition WithMaxAttempts (attempts : Z) : Option := λ o,
  let q := opt_queue o in MkOptions (opt_backend o) (opt_deadLetter o)
    (MkQueue attempts (mode q) (visibility q) (reapInterval q)).
Definition WithVisibilityTimeout (timeout : Z) : Option := λ o,
  let q := opt_queue o in MkOptions (opt_backend o) (opt_deadLetter o)
    (MkQueue (maxAttempts q) (mode q) timeout (reapInterval q)).
Definition WithReapInterval (interval : Z) : Option := λ o,
  let q := opt_queue o in MkOptions (opt_backend o) (opt_deadLetter o)
    (MkQueue (maxAttempts q) (mode q) (visibility q) interval).

Definition default_options : options B D :=
  MkOptions None None
    (MkQueue defaultMaxAttempts ModePriority defaultVisibilityTimeout defaultReapInterval).

Definition positive_or (dflt v : Z) : Z := if v <=? 0 then dflt else v.

(** The queue [New] builds, its backend and its dead-letter store, up to the
    start of the reaper; [None] for a nil context. *)
Definition New (c : option ctx) (newBackend : Mode → B) (newDeadLetter : D)
    (opts : list Option) : error + (Queue * B * D) :=
  match c with
  | None => inl (Joined [ErrInvalidQueue; Text "nil context"])
  | Some (Some e) => inl e
  | Some None =>
      let o := fold_left (λ o opt, opt o) opts default_options in
      let q := opt_queue o in
      let b := match opt_backend o with Some b => b | None => newBackend (mode q) end in
      let d := match opt_deadLetter o with Some d => d | None => newDeadLetter end in
      inr (MkQueue (positive_or defaultMaxAttempts (maxAttempts q)) (mode q)
             (positive_or defaultVisibilityTimeout (visibility q))
             (positive_or defaultReapInterval (reapInterval q)), b, d)
  end.
End Options.

(** ** The methods *)
Section Methods.
Context (q : Queue).

Definition route (c : nat) (l : Lease) (reason : option error) : prog (option error) :=
  if maxAttempts q <=? Attempt l then
    do! _ := Event (OnDeadLetter (lease_Task l) reason) in
    do! err := DeadAdd c (lease_Task l) reason in
    match err with
    | Some e => Return (Some e)
    | None => do! err := BackendNack c (Token l) false in Return err
    end
  else
    do! _ := Event (OnRetry (lease_Task l) (Attempt l)) in
    do! err := BackendNack c (Token l) true in Return err.

(** The range loop of [sweep]; the error of [route] is discarded. *)
Fixpoint sweep_loop (c : nat) (expired : list Lease) : prog (option error) :=
  match expired with
  | [] => Return None
  | l :: rest =>
      do! _ := Event (OnLeaseExpired l) in
      call! _ := route c l (Some ErrLeaseExpired) in
      sweep_loop c rest
  end.

Definition sweep (c : nat) : prog (option error) :=
  do! now := TimeNow in
  do! r := BackendReap c now in
  match r with
  | inr _ => Return None
  | inl expired => sweep_loop c expired
  end.

(** [ticks] rounds of the reaper's loop, each ended by a tick or the context; it only
    returns when its context is done, and [OutOfTicks] never runs. *)
Fixpoint reaper (ticks : nat) (c : nat) : prog (option error) :=
  match ticks with
  | O => do! _ := OutOfTicks in Return None
  | S ticks =>
      do! err := SelectTimer c (reapInterval q) in
      match err with
      | Some _ => Return None
      | None => call! _ := sweep c in reaper ticks c
      end
  end.

(** The goroutine [New] starts, under the context [runCtx]. *)
Definition reaper_goroutine (ticks : nat) : prog (option error) :=
  call! _ := reaper ticks runCtx in do! _ := CloseReaperDone in Return None.

Definition Close (c : nat) : prog (option error) :=
  do! first := OnceClose in
  if first : bool then
    do! _ := StoreClosed in
    do! _ := CancelRun in
    do! err := SelectReaperDone c in
    do! _ := OnceReturn err in Return err
  else Return None.

Definition Enqueue (c : nat) (t : option Task) : prog (option error) :=
  do! err := CtxErr c in
  match err with
  | Some e => Return (Some e)
  | None =>
      do! closed := LoadClosed in
      if closed : bool then Return (Some ErrQueueClosed) else
      match t with
      | None => Return (Some ErrTaskNil)
      | Some t =>
          do! err := BackendEnqueue c (Some t) in
          match err with
          | Some e => Return (Some e)
          | None => do! _ := Event (OnEnqueue t) in Return None
          end
      end
  end.

Definition Claim_Ack (c : nat) (cl : Claim) : prog (option error) :=
  do! swapped := CasSettled cl in
  if swapped : bool then
    do! _ := Event (OnAck (lease_Task (lease cl))) in
    do! err := BackendAck c (Token (lease cl)) in Return err
  else Return (Some ErrClaimSettled).

Definition Claim_Nack (c : nat) (cl : Claim) (reason : option error) : prog (option error) :=
  do! swapped := CasSettled cl in
  if swapped : bool then
    do! _ := Event (OnNack (lease_Task (lease cl)) reason) in
    route c (lease cl) reason
  else Return (Some ErrClaimSettled).

(** The polling loop, bounded by [fuel] rounds; [inr None] is out of fuel. *)
Fixpoint dequeue_loop (fuel : nat) (c : nat) (deadline : Z) : prog (Claim + option error) :=
  match fuel with
  | O => Return (inr None)
  | S fuel =>
      do! err := CtxErr c in
      match err with
      | Some e => Return (inr (Some e))
      | None =>
          do! r := BackendClaim c (visibility q) in
          match r with
          | inl l => do! _ := Event (OnClaim l) in do! cl := NewClaim l in Return (inl cl)
          | inr e =>
              if Is (Some e) (Some ErrQueueEmpty) then
                do! now := TimeNow in
                let remaining := deadline - now in
                if remaining <=? 0 then Return (inr (Some ErrQueueEmpty)) else
                do! err := SelectTimer c (Z.min defaultDequeuePoll remaining) in
                match err with
                | Some e => Return (inr (Some e))
                | None => dequeue_loop fuel c deadline
                end
              else Return (inr (Some e))
          end
      end
  end.

Definition Dequeue (fuel : nat) (c : nat) (timeout : Z) : prog (Claim + option error) :=
  do! closed := LoadClosed in
  if closed : bool then Return (inr (Some ErrQueueClosed)) else
  do! now := TimeNow in
  dequeue_loop fuel c (now + timeout).

Definition find_dead (id : Z) (dead : list DeadTask) : option Task :=
  match List.find (λ x, ID (dead_Task x) =? id) dead with
  | Some x => Some (dead_Task x)
  | None => None
  end.

Definition Redrive (c : nat) (id : Z) : prog (option error) :=
  do! err := CtxErr c in
  match err with
  | Some e => Return (Some e)
  | None =>
      do! closed := LoadClosed in
      if closed : bool then Return (Some ErrQueueClosed) else
      do! r := DeadList c 0 in
      match r with
      | inr e => Return (Some e)
      | inl dead =>
          match find_dead id dead with
          | None => Return (Some ErrLeaseNotFound)
          | Some target =>
              do! err := BackendEnqueue c (Some target) in
              match err with
              | Some e => Return (Some e)
              | None =>
                  do! _ := Event (OnEnqueue target) in
                  do! err := DeadRemove c id in Return err
              end
          end
      end
  end.

Definition DeadLetterLen (c : nat) : prog (Z + error) :=
  do! r := DeadLen c in Return r.
End Methods.

(** ** The shared state and the execution of an action *)

(** What the scheduler and the environment choose for one action: the UUID and
    the visiting order, the time, and the ready case a select takes. *)
Record oracle := Oracle { draw : chance; now : Z; pick : bool }.

(** The last four fields record history and are read by no action: the task and
    delivery count behind each token issued, the tokens acknowledged, the tasks the
    backend accepted, and what the call of [Close] that ran returned. *)
Record world (B D : Type) := World {
  backend : B;
  deadLetter : D;
  closed : bool;
  closeOnce : once_state;
  reaperDone : bool;
  claims : list (Lease * bool);
  ctxs : gmap nat error;
  events : list QueueEvent;
  issued : gmap string (Task * Z);
  acked : gset string;
  stored : list Task;
  closeErr : option error;
}.
Arguments World {B D} _ _ _ _ _ _ _ _ _ _ _ _.
Arguments backend {B D} _.
Arguments deadLetter {B D} _.
Arguments closed {B D} _.
Arguments closeOnce {B D} _.
Arguments claims {B D} _.
Arguments ctxs {B D} _.
Arguments events {B D} _.
Arguments issued {B D} _.
Arguments acked {B D} _.
Arguments stored {B D} _.
Arguments reaperDone {B D} _.
Arguments closeErr {B D} _.

Section Execution.
Context {B D : Type} `{!Backend B, !DeadLetter D}.
Implicit Type w : world B D.

Definition ctx_of w (c : nat) : ctx := ctxs w !! c.

Definition set_backend (b : B) w : world B D :=
  World b (deadLetter w) (closed w) (closeOnce w) (reaperDone w) (claims w) (ctxs w)
    (events w) (issued w) (acked w) (stored w) (closeErr w).
Definition set_deadLetter (d : D) w : world B D :=
  World (backend w) d (closed w) (closeOnce w) (reaperDone w) (claims w) (ctxs w)
    (events w) (issued w) (acked w) (stored w) (closeErr w).
Definition set_closed (x : bool) w : world B D :=
  World (backend w) (deadLetter w) x (closeOnce w) (reaperDone w) (claims w) (ctxs w)
    (events w) (issued w) (acked w) (stored w) (closeErr w).
Definition set_closeOnce (x : once_state) w : world B D :=
  World (backend w) (deadLetter w) (closed w) x (reaperDone w) (claims w) (ctxs w)
    (events w) (issued w) (acked w) (stored w) (closeErr w).
Definition set_reaperDone (x : bool) w : world B D :=
  World (backend w) (deadLetter w) (closed w) (closeOnce w) x (claims w) (ctxs w)
    (events w) (issued w) (acked w) (stored w) (closeErr w).
Definition set_claims (cs : list (Lease * bool)) w : world B D :=
  World (backend w) (deadLetter w) (closed w) (closeOnce w) (reaperDone w) cs (ctxs w)
    (events w) (issued w) (acked w) (stored w) (closeErr w).
Definition cancel_ctx (c : nat) (e : error) w : world B D :=
  World (backend w) (deadLetter w) (closed w) (closeOnce w) (reaperDone w) (claims w)
    (match ctxs w !! c with Some _ => ctxs w | None => <[c := e]> (ctxs w) end) (events
    w) (issued w) (acked w) (stored w) (closeErr w).
Definition emit (e : QueueEvent) w : world B D :=
  World (backend w) (deadLetter w) (closed w) (closeOnce w) (reaperDone w) (claims w)
    (ctxs w) (events w ++ [e]) (issued w) (acked w) (stored w) (closeErr w).
Definition record_issued (l : Lease) w : world B D :=
  World (backend w) (deadLetter w) (closed w) (closeOnce w) (reaperDone w) (claims w)
    (ctxs w) (events w) (<[Token l := (lease_Task l, Attempt l)]> (issued w)) (acked w)
    (stored w) (closeErr w).
Definition record_acked (token : string) w : world B D :=
  World (backend w) (deadLetter w) (closed w) (closeOnce w) (reaperDone w) (claims w)
    (ctxs w) (events w) (issued w) ({[token]} ∪ acked w) (stored w) (closeErr w).
Definition record_stored (t : Task) w : world B D :=
  World (backend w) (deadLetter w) (closed w) (closeOnce w) (reaperDone w) (claims w)
    (ctxs w) (events w) (issued w) (acked w) (t :: stored w) (closeErr w).
Definition record_closeErr (e : option error) w : world B D :=
  World (backend w) (deadLetter w) (closed w) (closeOnce w) (reaperDone w) (claims w)
    (ctxs w) (events w) (issued w) (acked w) (stored w) e.

Definition settled_of w (cl : Claim) : bool :=
  match claims w !! claim_id cl with Some (_, b) => b | None => true end.

Definition act (o : oracle) {R} (a : action R) w : outcome (R * world B D) :=
  match a in action R return outcome (R * world B D) with
  | CtxErr c => Ret (ctx_of w c, w)
  | LoadClosed => Ret (closed w, w)
  | StoreClosed => Ret (tt, set_closed true w)
  | OnceClose =>
      match closeOnce w with
      | OnceFree => Ret (true, set_closeOnce OnceRunning w)
      | _ => Ret (false, w)
      end
  | OnceReturn err => Ret (tt, record_closeErr err (set_closeOnce OnceDone w))
  | CancelRun => Ret (tt, cancel_ctx runCtx Canceled w)
  | TimeNow => Ret (now o, w)
  | Event e => Ret (tt, emit e w)
  | BackendEnqueue c t =>
      r <-- be_Enqueue (ctx_of w c) t (backend w) ;;;
      let w := set_backend r.2 w in
      Ret (r.1, match r.1, t with None, Some t => record_stored t w | _, _ => w end)
  | BackendClaim c v =>
      r <-- be_Claim (ctx_of w c) v (now o) (draw o) (backend w) ;;;
      let w := set_backend r.2 w in
      Ret (r.1, match r.1 with inl l => record_issued l w | inr _ => w end)
  | BackendAck c token =>
      r <-- be_Ack (ctx_of w c) token (backend w) ;;;
      let w := set_backend r.2 w in
      Ret (r.1, match r.1 with None => record_acked token w | Some _ => w end)
  | BackendNack c token requeue =>
      r <-- be_Nack (ctx_of w c) token requeue (backend w) ;;;
      Ret (r.1, set_backend r.2 w)
  | BackendReap c time =>
      r <-- be_ReapExpired (ctx_of w c) time (draw o) (backend w) ;;;
      Ret (r.1, set_backend r.2 w)
  | DeadAdd c t reason =>
      let r := dl_Add (ctx_of w c) (Some t) reason (now o) (deadLetter w) in
      Ret (r.1, set_deadLetter r.2 w)
  | DeadList c limit =>
      let r := dl_List (ctx_of w c) limit (draw o) (deadLetter w) in
      Ret (r.1, set_deadLetter r.2 w)
  | DeadRemove c id =>
      let r := dl_Remove (ctx_of w c) id (deadLetter w) in
      Ret (r.1, set_deadLetter r.2 w)
  | DeadLen c =>
      let r := dl_Len (ctx_of w c) (deadLetter w) in
      Ret (r.1, set_deadLetter r.2 w)
  | NewClaim l =>
      Ret (MkClaim (length (claims w)) l, set_claims (claims w ++ [(l, false)]) w)
  | CasSettled cl =>
      if settled_of w cl then Ret (false, w)
      else Ret (true, set_claims (alter (λ x, (x.1, true)) (claim_id cl) (claims w)) w)
  | SelectTimer c _ => Ret (if pick o then None else ctx_of w c, w)
  | SelectReaperDone c => Ret (if reaperDone w && pick o then None else ctx_of w c, w)
  | CloseReaperDone => if reaperDone w then Panic else Ret (tt, set_reaperDone true w)
  | OutOfTicks => Ret (tt, w)
  end.

(** Whether an action can run: the others block. *)
Definition enabled {R} (a : action R) w : bool :=
  match a with
  | OnceClose => match closeOnce w with OnceRunning => false | _ => true end
  | SelectReaperDone c => reaperDone w || ctx_done (ctx_of w c)
  | OutOfTicks => false
  | _ => true
  end.

(** A program run alone, action [i] under the oracle [os i]; a program that blocks has
    no result, which is a [Panic] here too. *)
Fixpoint run {A} (p : prog A) (os : nat → oracle) w : outcome (A * world B D) :=
  match p with
  | Return a => Ret (a, w)
  | Do a k =>
      if enabled a w then r <-- act (os 0%nat) a w ;;; run (k r.1) (λ i, os (S i)) r.2
      else Panic
  end.
End Execution.

(** ** Methods run alone *)
Section Sequential.
Context {B D : Type} `{!Backend B, !DeadLetter D}.
Context (before : Task → Task → bool) (brep : B → store → Prop) (drep : D → gmap Z DeadTask → Prop).
Context `{!BackendLaws before brep, !DeadLetterLaws drep}.
Implicit Type w : world B D.

(** The stores of a world. *)
Definition world_rep w (s : store) (m : gmap Z DeadTask) : Prop :=
  brep (backend w) s ∧ drep (deadLetter w) m.

Lemma settled_of_mark w cl :
  settled_of w cl = false →
  settled_of (set_claims (alter (λ x, (x.1, true)) (claim_id cl) (claims w)) w) cl = true.
Proof.
  unfold settled_of. cbn. rewrite list_lookup_alter_eq.
  by destruct (claims w !! claim_id cl) as [[? ?]|].
Qed.

(** [route] below and at the attempt ceiling, under a live context. *)
Lemma run_route q c l reason os w s m dl :
  world_rep w s m → ctx_of w c = None →
  leased s !! Token l = Some (lease_Task l, Attempt l, dl) →
  ∃ w', run (route q c l reason) os w = Ret (None, w') ∧ claims w' = claims w ∧
    if Attempt l <? maxAttempts q
    then world_rep w' (store_requeue (Token l) (lease_Task l, Attempt l, dl) s) m ∧
         events w' = events w ++ [OnRetry (lease_Task l) (Attempt l)]
    else (∃ x, dead_Task x = lease_Task l ∧ Reason x = reason ∧
           world_rep w' (store_settle (Token l) s) (<[ID (lease_Task l) := x]> m)) ∧
         events w' = events w ++ [OnDeadLetter (lease_Task l) reason].
Proof.
  intros [Hb Hd] Hc Hl. unfold route, ctx_of in *.
  destruct (Z.leb_spec (maxAttempts q) (Attempt l)), (Z.ltb_spec (Attempt l) (maxAttempts q));
    try lia; cbn; unfold ctx_of; cbn; rewrite Hc.
  - destruct (law_Add (deadLetter w) m None (Some (lease_Task l)) reason (now (os 1%nat)) Hd)
      as (d' & x & -> & Hd' & ? & ? & _). cbn. unfold ctx_of. cbn. rewrite Hc.
    pose proof (law_Nack (backend w) s None (Token l) false Hb) as Hn. rewrite Hl in Hn.
    destruct Hn as (b' & -> & Hb'). cbn. eexists. split_and!; [done|done| |done].
    exists x. by split_and!.
  - pose proof (law_Nack (backend w) s None (Token l) true Hb) as Hn. rewrite Hl in Hn.
    destruct Hn as (b' & -> & Hb'). cbn. eexists. by split_and!.
Qed.

(** C6: the settling policy. Nacking an unsettled claim whose lease is still
    outstanding settles the claim and, below the attempt ceiling, puts the task
    back among the waiting ones with its delivery count; at the ceiling, it
    stores the task with the failure's reason in the dead-letter store and
    drops it from the backend. In both cases the lease is gone and the events
    are [OnNack] followed by [OnRetry] or [OnDeadLetter]. *)
Theorem nack_applies_policy q c cl reason os w s m dl :
  let l := lease cl in
  world_rep w s m → ctx_of w c = None → settled_of w cl = false →
  leased s !! Token l = Some (lease_Task l, Attempt l, dl) →
  ∃ w', run (Claim_Nack q c cl reason) os w = Ret (None, w') ∧ settled_of w' cl = true ∧
    if Attempt l <? maxAttempts q
    then world_rep w' (store_requeue (Token l) (lease_Task l, Attempt l, dl) s) m ∧
         events w' = events w ++ [OnNack (lease_Task l) reason; OnRetry (lease_Task l) (Attempt l)]
    else (∃ x, dead_Task x = lease_Task l ∧ Reason x = reason ∧
           world_rep w' (store_settle (Token l) s) (<[ID (lease_Task l) := x]> m)) ∧
         events w' =
           events w ++ [OnNack (lease_Task l) reason; OnDeadLetter (lease_Task l) reason].
Proof.
  intros l Hrep Hc Hset Hl. unfold Claim_Nack. cbn. rewrite Hset. cbn.
  set (w1 := emit _ _).
  destruct (run_route q c (lease cl) reason (λ i, os (S (S i))) w1 s m dl)
    as (w' & Hrun & Hclaims & Hpost); [done|done|done|].
  exists w'. split; [exact Hrun|]. split.
  - unfold settled_of. rewrite Hclaims. by apply (settled_of_mark w).
  - subst l. destruct (Attempt (lease cl) <? maxAttempts q); destruct Hpost as [? Hev];
      (split; [done|]); by rewrite Hev; cbn; rewrite <- app_assoc.
Qed.

(** Settling is exactly once. A claim that is settled stays inert: [Ack] and
    [Nack] return [ErrClaimSettled] and change nothing; and whatever the outcome
    of an [Ack] or [Nack], the claim is settled afterwards. *)
Theorem settled_claim_is_inert q c cl reason os w :
  (settled_of w cl = true →
     run (Claim_Ack c cl) os w = Ret (Some ErrClaimSettled, w) ∧
     run (Claim_Nack q c cl reason) os w = Ret (Some ErrClaimSettled, w)) ∧
  (settled_of w cl = false →
     (∀ e w', run (Claim_Ack c cl) os w = Ret (e, w') → settled_of w' cl = true) ∧
     (∀ e w', run (Claim_Nack q c cl reason) os w = Ret (e, w') → settled_of w' cl = true)).
Proof.
  unfold Claim_Ack, Claim_Nack. cbn. split; intros Hset; rewrite Hset; [done|].
  pose proof (settled_of_mark w cl Hset) as Hmark. cbn. split; intros e w'.
  - destruct (be_Ack _ _ _) as [[r b]|]; [|done]. cbn. destruct r; intros [= _ <-]; exact Hmark.
  - unfold route. case_match; cbn.
    + destruct (dl_Add _ _ _ _ _) as [[e1|] d]; cbn; [by intros [= _ <-]|].
      destruct (be_Nack _ _ _ _) as [[r b]|]; [|done]. cbn. by intros [= _ <-].
    + destruct (be_Nack _ _ _ _) as [[r b]|]; [|done]. cbn. by intros [= _ <-].
Qed.

(** Nacking under a done context (what [Stream] does when its context is
    canceled while it holds a claim) settles the claim but neither requeues nor
    dead-letters: it returns the context's error and both stores are unchanged,
    the lease still outstanding, so the task waits for its lease to expire. *)
Theorem nack_under_done_ctx_keeps_lease q c cl reason os w s m e :
  world_rep w s m → ctx_of w c = Some e → settled_of w cl = false →
  ∃ w', run (Claim_Nack q c cl reason) os w = Ret (Some e, w') ∧
        settled_of w' cl = true ∧ world_rep w' s m.
Proof.
  intros [Hb Hd] Hc Hset. unfold Claim_Nack, ctx_of in *. cbn. rewrite Hset. cbn.
  unfold route. case_match; cbn; unfold ctx_of; cbn; rewrite Hc.
  - rewrite (law_Add (deadLetter w) m (Some e) _ _ _ Hd). cbn.
    eexists. split; [done|]. split; [by apply (settled_of_mark w)|done].
  - rewrite (law_Nack (backend w) s (Some e) _ _ Hb). cbn.
    eexists. split; [done|]. split; [by apply (settled_of_mark w)|done].
Qed.

(** One poll on an empty backend, under a live context, before the deadline. *)
Lemma run_empty_poll q fuel c deadline os w s m :
  world_rep w s m → ctx_of w c = None → waiting s = [] →
  run (dequeue_loop q (S fuel) c deadline) os w =
  if deadline - now (os 2%nat) <=? 0
  then Ret (inr (Some ErrQueueEmpty), set_backend (backend w) w)
  else run (dequeue_loop q fuel c deadline) (λ i, os (4 + i)%nat) (set_backend (backend w) w).
Proof.
  intros [Hb Hd] Hc Hw. cbn. unfold ctx_of in *. rewrite Hc.
  cbn. unfold ctx_of. rewrite Hc.
  pose proof (law_Claim (backend w) s None (visibility q) (now (os 1%nat)) (draw (os 1%nat)) Hb) as H.
  rewrite Hw in H. rewrite H. cbn. case_match; [done|].
  cbn. unfold ctx_of. cbn. rewrite Hc. by destruct (pick (os 3%nat)).
Qed.

Lemma set_backend_same w : set_backend (backend w) w = w.
Proof. by destruct w. Qed.

(** A claim when a task is waiting. *)
Lemma run_claim q fuel c deadline os w s m :
  world_rep w s m → ctx_of w c = None → waiting s ≠ [] →
  ∃ t a rest w',
    let l := MkLease (uuid (draw (os 1%nat))) t (a + 1) (now (os 1%nat) + visibility q) in
    run (dequeue_loop q (S fuel) c deadline) os w = Ret (inl (MkClaim (length (claims w)) l), w') ∧
    waiting s ≡ₚ (t, a) :: rest ∧
    (∀ t' a', (t', a') ∈ waiting s → before t' t = false) ∧
    world_rep w' (store_claim rest (Token l) (t, a + 1, Deadline l) s) m ∧
    settled_of w' (MkClaim (length (claims w)) l) = false ∧ events w' = events w ++ [OnClaim l].
Proof.
  intros [Hb Hd] Hc Hw. cbn. unfold ctx_of in *. rewrite Hc.
  cbn. unfold ctx_of. rewrite Hc.
  pose proof (law_Claim (backend w) s None (visibility q) (now (os 1%nat)) (draw (os 1%nat)) Hb) as H.
  destruct (waiting s) as [|x xs] eqn:Hx; [done|]. rewrite <- Hx in *.
  destruct H as (t & a & rest & b' & Hperm & Hleast & -> & Hrep). cbn.
  exists t, a, rest. eexists. split_and!; [done|done|done|done| |done].
  unfold settled_of. cbn. by rewrite lookup_app_r, Nat.sub_diag by lia.
Qed.

(** Polls of [Dequeue] on an empty backend, poll [i] of which reads the clock at
    [now (os (4 * i + 2))]: they go on as long as the deadline is not reached. *)
Lemma run_empty_polls q c deadline w s m :
  world_rep w s m → ctx_of w c = None → waiting s = [] → ∀ fuel os n,
  (∀ i, (i < n)%nat → now (os (4 * i + 2)%nat) < deadline) →
  ((fuel ≤ n)%nat → run (dequeue_loop q fuel c deadline) os w = Ret (inr None, w)) ∧
  ((n < fuel)%nat → deadline ≤ now (os (4 * n + 2)%nat) →
   run (dequeue_loop q fuel c deadline) os w = Ret (inr (Some ErrQueueEmpty), w)).
Proof.
  intros Hrep Hc Hw fuel. induction fuel as [|fuel IH]; intros os n Hlt; [split; [done|lia]|].
  rewrite (run_empty_poll q fuel c deadline os w s m Hrep Hc Hw), set_backend_same.
  destruct n as [|n].
  - split; [lia|]. intros _ Hn. cbn in Hn. by rewrite (proj2 (Z.leb_le _ _)) by lia.
  - pose proof (Hlt 0%nat ltac:(lia)) as H0. cbn in H0.
    rewrite (proj2 (Z.leb_gt _ _)) by lia.
    destruct (IH (λ i, os (4 + i)%nat) n) as [IH1 IH2].
    { intros i Hi. specialize (Hlt (S i) ltac:(lia)). by replace (4 + (4 * i + 2))%nat with (4 * S i + 2)%nat by lia. }
    split; [intros ?; apply IH1; lia|]. intros ? Hn. apply IH2; [lia|].
    by replace (4 + (4 * n + 2))%nat with (4 * S n + 2)%nat by lia.
Qed.

(** C10: [Dequeue] on an open queue under a live context: with a task waiting it
    returns, whatever the timeout, a fresh unsettled claim on a task that no
    waiting task precedes, with one more delivery counted and a lease until
    [now + visibility]. With none waiting it returns [ErrQueueEmpty] at the first poll
    that finds the clock at or past [start + timeout], leaving the queue as it was, and
    at no earlier one: as many polls as were before that time leave it polling. *)
Theorem dequeue_claims_or_times_out q c timeout os w s m :
  world_rep w s m → ctx_of w c = None → closed w = false →
  let deadline := now (os 1%nat) + timeout in
  let clock (i : nat) := now (os (4 * i + 4)%nat) in
  (waiting s ≠ [] → ∀ fuel, ∃ t a rest w',
     let l := MkLease (uuid (draw (os 3%nat))) t (a + 1) (now (os 3%nat) + visibility q) in
     let cl := MkClaim (length (claims w)) l in
     run (Dequeue q (S fuel) c timeout) os w = Ret (inl cl, w') ∧
     waiting s ≡ₚ (t, a) :: rest ∧
     (∀ t' a', (t', a') ∈ waiting s → before t' t = false) ∧
     world_rep w' (store_claim rest (Token l) (t, a + 1, Deadline l) s) m ∧
     settled_of w' cl = false ∧ events w' = events w ++ [OnClaim l]) ∧
  (waiting s = [] → ∀ n, (∀ i, (i < n)%nat → clock i < deadline) →
     (∀ fuel, (fuel ≤ n)%nat → run (Dequeue q fuel c timeout) os w = Ret (inr None, w)) ∧
     (deadline ≤ clock n → ∀ fuel, (n < fuel)%nat →
        run (Dequeue q fuel c timeout) os w = Ret (inr (Some ErrQueueEmpty), w))).
Proof.
  intros Hrep Hc Hcl deadline clock. unfold Dequeue. cbn [run act]. rewrite Hcl. cbn [obind fst snd run act].
  split.
  - intros Hw fuel. exact (run_claim q fuel c _ (λ i, os (S (S i))) w s m Hrep Hc Hw).
  - intros Hw n Hlt.
    assert (∀ i, clock i = now (os (S (S (4 * i + 2))))) as Hclock by (intros i; unfold clock; do 2 f_equal; lia).
    rewrite Hclock. split; [intros fuel|intros Hn fuel];
      destruct (run_empty_polls q c deadline w s m Hrep Hc Hw fuel (λ i, os (S (S i))) n) as [H1 H2]; auto;
      intros i Hi; rewrite <- Hclock; auto.
Qed.

Lemma cancel_ctx_done c e w : ctx_done (ctx_of (cancel_ctx c e w) c) = true.
Proof.
  unfold ctx_of, cancel_ctx. cbn. destruct (ctxs w !! c) eqn:E; [by rewrite E|].
  by rewrite lookup_insert_eq.
Qed.

(** [Close] and afterwards. The first [Close] waits for the reaper or for its
    context; it closes the queue and cancels the reaper's context; a later one returns
    nil and changes nothing; on a closed queue [Enqueue], [Dequeue] and [Redrive] under
    a live context return [ErrQueueClosed] and change nothing. *)
Theorem close_rejects_producers_and_consumers q c os w :
  (closeOnce w = OnceFree → c ≠ runCtx → reaperDone w = true ∨ ctx_done (ctx_of w c) = true →
     ∃ e w', run (Close c) os w = Ret (e, w') ∧
     (reaperDone w = false → e = ctx_of w c) ∧ (ctx_of w c = None → e = None) ∧
     closed w' = true ∧ closeOnce w' = OnceDone ∧ ctx_done (ctx_of w' runCtx) = true ∧
     backend w' = backend w ∧ deadLetter w' = deadLetter w) ∧
  (closeOnce w = OnceDone → run (Close c) os w = Ret (None, w)) ∧
  (closed w = true → ctx_of w c = None →
     (∀ t, run (Enqueue c t) os w = Ret (Some ErrQueueClosed, w)) ∧
     (∀ fuel timeout, run (Dequeue q fuel c timeout) os w = Ret (inr (Some ErrQueueClosed), w)) ∧
     (∀ id, run (Redrive c id) os w = Ret (Some ErrQueueClosed, w))).
Proof.
  split_and!.
  - intros Ho Hne Hwait. unfold Close. cbn [run enabled act]. rewrite Ho. cbn [obind fst snd run enabled act].
    assert (∀ b e x, ctx_of (cancel_ctx runCtx e (set_closed b (set_closeOnce x w))) c = ctx_of w c) as Hc.
    { intros b e x. unfold ctx_of, cancel_ctx. cbn. destruct (ctxs w !! runCtx); [done|].
      by rewrite lookup_insert_ne. }
    rewrite !Hc. replace (reaperDone (cancel_ctx _ _ _)) with (reaperDone w) by done.
    replace (reaperDone w || ctx_done (ctx_of w c)) with true
      by (symmetry; apply orb_true_iff; destruct Hwait; auto).
    eexists _, _. split_and!; [done| | |done|done| |done|done].
    + by intros ->.
    + intros ->. by case_match.
    + apply (cancel_ctx_done runCtx Canceled (set_closed true (set_closeOnce OnceRunning w))).
  - intros Ho. unfold Close. cbn. rewrite Ho. cbn. by destruct w.
  - intros Hcl Hc. unfold Enqueue, Dequeue, Redrive. cbn. rewrite Hc. cbn. rewrite Hcl. done.
Qed.

(** The task [find_dead] returns is one of that ID. *)
Lemma find_dead_Some id dead t :
  find_dead id dead = Some t → ID t = id ∧ ∃ x, x ∈ dead ∧ dead_Task x = t.
Proof.
  unfold find_dead. destruct (List.find _ dead) as [x|] eqn:Hf; [|done]. intros [= <-].
  apply List.find_some in Hf as [Hin Hid]. boolify. split; [done|].
  exists x. split; [by apply list_elem_of_In|done].
Qed.

Lemma find_dead_None id dead x :
  find_dead id dead = None → x ∈ dead → ID (dead_Task x) ≠ id.
Proof.
  unfold find_dead. destruct (List.find _ dead) eqn:Hf; [done|]. intros _ Hin Hid.
  apply list_elem_of_In in Hin. apply (List.find_none _ _ Hf) in Hin. by boolify.
Qed.

(** [Redrive] run alone on an open queue under a live context, the
    dead-letter store being keyed by task ID: the task stored under [id] goes
    back to the waiting tasks with its delivery count reset and leaves the
    dead-letter store; when there is none it returns [ErrLeaseNotFound] and
    changes neither store. *)
Theorem redrive_moves_back c id os w s m :
  world_rep w s m → ctx_of w c = None → closed w = false →
  (∀ k x, m !! k = Some x → ID (dead_Task x) = k) →
  match m !! id with
  | Some x => ∃ w', run (Redrive c id) os w = Ret (None, w') ∧
      world_rep w' (store_enqueue (dead_Task x) s) (delete id m) ∧
      events w' = events w ++ [OnEnqueue (dead_Task x)]
  | None => ∃ w', run (Redrive c id) os w = Ret (Some ErrLeaseNotFound, w') ∧ world_rep w' s m
  end.
Proof.
  intros [Hb Hd] Hc Hcl Hkey. unfold Redrive, ctx_of in *. cbn. unfold ctx_of. rewrite Hc.
  cbn. rewrite Hcl. cbn. unfold ctx_of. rewrite Hc.
  destruct (law_List (deadLetter w) m None 0 (draw (os 2%nat)) Hd)
    as (ds & -> & Hsound & Hcomplete & _). cbn.
  destruct (find_dead id ds) as [t|] eqn:Hf.
  - apply find_dead_Some in Hf as [Hid (x & Hx & <-)].
    destruct (Hsound x Hx) as [k Hk]. pose proof (Hkey k x Hk) as Hkx.
    rewrite Hid in Hkx. subst k. rewrite Hk.
    cbn. unfold ctx_of. cbn. rewrite Hc.
    destruct (law_Enqueue (backend w) s None (Some (dead_Task x)) Hb) as (b' & -> & Hb'). cbn.
    unfold ctx_of. cbn. rewrite Hc.
    destruct (law_Remove (deadLetter w) m None id Hd) as (d' & -> & Hd'). cbn.
    eexists. by split_and!.
  - destruct (m !! id) as [x|] eqn:Hm.
    + exfalso. eapply find_dead_None; [done|by eapply Hcomplete|by eapply Hkey].
    + cbn. eexists. by split_and!.
Qed.
End Sequential.

(** A nil or done context is refused; otherwise, whatever the options, the
    queue [New] builds has a positive attempt ceiling, visibility timeout and
    reap interval, each equal to the last value the options gave it when that is
    positive and to its default otherwise. *)
Theorem new_queue_is_positive {B D} (nb : Mode → B) (nd : D) (opts : list Option) :
  New None nb nd opts = inl (Joined [ErrInvalidQueue; Text "nil context"]) ∧
  (∀ e, New (Some (Some e)) nb nd opts = inl e) ∧
  ∃ q b d, New (Some None) nb nd opts = inr (q, b, d) ∧
    let given := opt_queue (fold_left (λ o opt, opt o) opts default_options) in
    0 < maxAttempts q ∧ 0 < visibility q ∧ 0 < reapInterval q ∧
    (0 < maxAttempts given → maxAttempts q = maxAttempts given) ∧
    (maxAttempts given ≤ 0 → maxAttempts q = 3) ∧
    (0 < visibility given → visibility q = visibility given) ∧
    (0 < reapInterval given → reapInterval q = reapInterval given).
Proof.
  split_and!; [done|done|]. do 3 eexists. split; [done|]. cbn.
  unfold positive_or, defaultMaxAttempts, defaultVisibilityTimeout, defaultReapInterval, Second,
    Millisecond.
  split_and!; repeat case_match; boolify; lia.
Qed.
