(* ===== verification/QueueSystem.v ===== *)
(** * The queue's methods interleaved ([src/pkg/taskqueue/queue.go])

    A system is the shared state and a pool of threads: the reaper's goroutine, started
    by [New], and the methods clients call. At any time a client may start a method (on
    any claim handle that exists), the environment may cancel a context, and any thread
    may run its next action if it does not block. The rely-guarantee argument about
    such systems is the one every theorem on interleavings uses. *)
From S2P Require Import Prelude Golang QueueTypes Queue.
Local Open Scope Z_scope.
Local Open Scope go_scope.

Abbreviation threads := (list (prog (option error))).

Section System.
Context {B D : Type} `{!Backend B, !DeadLetter D} (q : Queue).
(** Tasks clients may submit, and whether they may call [Redrive]. *)
Context (offered : Task → Prop) (redrive : bool).

Abbreviation world := (Queue.world B D).

(** What [New] leaves: the stores, no call yet, and the reaper's goroutine. *)
Definition initial (b : B) (d : D) : world := World b d false OnceFree false [] ∅ [] ∅ ∅ [] None.

(** The end of a method whose result is not an error. *)
Definition discard {A} (p : prog A) : prog (option error) :=
  call! _ := p in Return None.

(** The method calls a client may make in a state. *)
Inductive api (w : world) : prog (option error) → Prop :=
| api_enqueue c t : (∀ x, t = Some x → offered x) → api w (Enqueue c t)
| api_dequeue fuel c timeout : api w (discard (Dequeue q fuel c timeout))
| api_ack c i l b : claims w !! i = Some (l, b) → api w (Claim_Ack c (MkClaim i l))
| api_nack c i l b reason :
    claims w !! i = Some (l, b) → api w (Claim_Nack q c (MkClaim i l) reason)
| api_close c : api w (Close c)
| api_len c : api w (discard (DeadLetterLen c))
| api_redrive c id : redrive = true → api w (Redrive c id).

Inductive step : world * threads → world * threads → Prop :=
| step_call w ps p : api w p → step (w, ps) (w, ps ++ [p])
| step_cancel w ps c e : step (w, ps) (cancel_ctx c e w, ps)
| step_act w ps i R (a : action R) k o r w' :
    ps !! i = Some (Do a k) →
    uuid (draw o) ∉ dom (issued w) → enabled a w = true →
    act o a w = Ret (r, w') →
    step (w, ps) (w', <[i := k r]> ps).

Definition start (ticks : nat) (b : B) (d : D) : world * threads :=
  (initial b d, [reaper_goroutine q ticks]).

(** ** A schedule, run *)
Inductive request :=
| ReqEnqueue (c : nat) (t : option Task)
| ReqDequeue (fuel c : nat) (timeout : Z)
| ReqAck (c i : nat)
| ReqNack (c i : nat) (reason : option error)
| ReqClose (c : nat)
| ReqRedrive (c : nat) (id : Z).

Definition may (r : request) : Prop :=
  match r with
  | ReqEnqueue _ (Some t) => offered t
  | ReqRedrive _ _ => redrive = true
  | _ => True
  end.

Definition claim_of (w : world) (i : nat) : option Claim :=
  match claims w !! i with Some (l, _) => Some (MkClaim i l) | None => None end.

Definition request_prog (w : world) (r : request) : option (prog (option error)) :=
  match r with
  | ReqEnqueue c t => Some (Enqueue c t)
  | ReqDequeue fuel c timeout => Some (discard (Dequeue q fuel c timeout))
  | ReqAck c i => Claim_Ack c <$> claim_of w i
  | ReqNack c i reason => (λ cl, Claim_Nack q c cl reason) <$> claim_of w i
  | ReqClose c => Some (Close c)
  | ReqRedrive c id => Some (Redrive c id)
  end.

Inductive move :=
| Call (r : request)
| Cancel (c : nat) (e : error)
| Act (i : nat) (o : oracle).

Definition move_may (mv : move) : Prop :=
  match mv with Call r => may r | _ => True end.

Definition advance (mv : move) (x : world * threads) : option (world * threads) :=
  let '(w, ps) := x in
  match mv with
  | Call r => (λ p, (w, ps ++ [p])) <$> request_prog w r
  | Cancel c e => Some (cancel_ctx c e w, ps)
  | Act i o =>
      match ps !! i with
      | Some (Do a k) =>
          if decide (uuid (draw o) ∈ dom (issued w)) then None else
          if negb (enabled a w) then None else
          match act o a w with
          | Ret (r, w') => Some (w', <[i := k r]> ps)
          | Panic => None
          end
      | _ => None
      end
  end.

Fixpoint schedule (mvs : list move) (x : world * threads) : option (world * threads) :=
  match mvs with
  | [] => Some x
  | mv :: mvs => match advance mv x with Some x' => schedule mvs x' | None => None end
  end.

Lemma request_api w r p : may r → request_prog w r = Some p → api w p.
Proof.
  destruct r as [c t|fuel c timeout|c i|c i reason|c|c id]; cbn; unfold claim_of;
    intros Hr; try (intros [= <-]; constructor; try done).
  - intros t' ->. done.
  - destruct (claims w !! i) as [[l b]|] eqn:Hi; [|done]. intros [= <-]. by econstructor.
  - destruct (claims w !! i) as [[l b]|] eqn:Hi; [|done]. intros [= <-]. by econstructor.
Qed.

Lemma advance_step mv x x' : move_may mv → advance mv x = Some x' → step x x'.
Proof.
  destruct x as [w ps], mv as [r|c e|i o]; cbn; intros Hmay.
  - destruct (request_prog w r) as [p|] eqn:Hp; [|done]. intros [= <-].
    constructor. by eapply request_api.
  - intros [= <-]. constructor.
  - destruct (ps !! i) as [[|R a k]|] eqn:Hi; try done. case_decide; [done|].
    destruct (enabled a w) eqn:Hen; [|done]. cbn. destruct (act o a w) as [[r w']|] eqn:Ha; [|done]. intros [= <-]. by econstructor.
Qed.

Lemma schedule_reachable mvs : ∀ x x',
  Forall move_may mvs → schedule mvs x = Some x' → rtc step x x'.
Proof.
  induction mvs as [|mv mvs IH]; cbn; intros x x' Hok; [intros [= <-]; done|].
  apply Forall_cons in Hok as [Hmay Hok].
  destruct (advance mv x) as [x1|] eqn:Ha; [|done].
  intros Hs. eapply rtc_l; [by eapply advance_step|by apply IH].
Qed.

(** A schedule that ends in a state passing a test reaches such a state. *)
Lemma schedule_reaches (P : world * threads → bool) mvs x :
  Forall move_may mvs →
  match schedule mvs x with Some x' => P x' | None => false end = true →
  ∃ w ps, rtc step x (w, ps) ∧ P (w, ps) = true.
Proof.
  intros Hmay. destruct (schedule mvs x) as [[w ps]|] eqn:Hs; [|done].
  exists w, ps. split; [by eapply schedule_reachable|done].
Qed.
End System.

(** ** The reaper's goroutine among the clients' calls

    Thread 0 is the reaper's; it closes [reaperDone] last, and no client's method does,
    nor sweeps. *)
Section Reaper.
Context {B D : Type} `{!Backend B, !DeadLetter D} (q : Queue).
Context (offered : Task → Prop) (redrive : bool).
Implicit Type w : Queue.world B D.

(** Every action a program may perform. *)
Fixpoint performs {A} (P : ∀ R, action R → Prop) (p : prog A) : Prop :=
  match p with Return _ => True | Do a k => P _ a ∧ ∀ r, performs P (k r) end.

(** The actions of the methods clients call. *)
Definition closing {R} (a : action R) : bool :=
  match a with CloseReaperDone => true | _ => false end.
Definition client R (a : action R) : Prop :=
  match a with
  | CloseReaperDone | OutOfTicks | BackendReap _ _ | Event (OnLeaseExpired _) => False
  | _ => True
  end.

(** The actions only [Close] performs, and those of the other methods. *)
Definition close_action {R} (a : action R) : bool :=
  match a with
  | OnceClose | StoreClosed | CancelRun | SelectReaperDone _ | OnceReturn _ => true
  | _ => false
  end.
Definition method R (a : action R) : Prop := client R a ∧ close_action a = false.

(** What is left of the reaper's goroutine while [reaperDone] is open. *)
Fixpoint closes_last {A} (p : prog A) : Prop :=
  match p with
  | Return _ => False
  | Do a k => if closing a then ∀ r, ∃ x, k r = Return x else ∀ r, closes_last (k r)
  end.

Definition reaper_first (x : Queue.world B D * threads) : Prop :=
  ∃ p ps, x.2 = p :: ps ∧ Forall (performs client) ps ∧
    if reaperDone x.1 then ∃ r, p = Return r else closes_last p.

Lemma performs_bind {A A'} P (p : prog A) (f : A → prog A') :
  performs P p → (∀ a, performs P (f a)) → performs P (bind p f).
Proof. intros Hp Hf. induction p as [a|R a k IH]; cbn in *; [done|]. destruct Hp. by auto. Qed.

Lemma performs_sub {A} (P P' : ∀ R, action R → Prop) (p : prog A) :
  (∀ R a, P R a → P' R a) → performs P p → performs P' p.
Proof. intros HP. induction p as [a|R a k IH]; cbn; [done|]. intros [? ?]. auto. Qed.

(** Runs through a method, action by action. *)
Ltac by_actions := repeat (cbn; first [done | split; [done|]; intros ? | case_match; try done]).

Lemma route_methods c l reason : performs method (route q c l reason).
Proof. unfold route. by_actions. Qed.

Lemma dequeue_loop_methods fuel c deadline : performs method (dequeue_loop q fuel c deadline).
Proof. induction fuel as [|fuel IH]; by_actions. Qed.

Lemma dequeue_methods fuel c timeout : performs method (Dequeue q fuel c timeout).
Proof. unfold Dequeue. by_actions; apply dequeue_loop_methods. Qed.

Lemma nack_methods c cl reason : performs method (Claim_Nack q c cl reason).
Proof. unfold Claim_Nack. by_actions; apply route_methods. Qed.

Lemma api_methods w p : api q offered redrive w p → performs method p ∨ ∃ c, p = Close c.
Proof.
  intros []; unfold discard, Enqueue, Dequeue, Claim_Ack, Claim_Nack, DeadLetterLen, Redrive;
    [left..|right; by eexists|left|left]; by_actions; try apply route_methods.
  apply performs_bind; [apply dequeue_loop_methods|done].
Qed.

Lemma api_clients w p : api q offered redrive w p → performs client p.
Proof.
  intros [Hp|[c ->]]%api_methods; [|unfold Close; by_actions].
  eapply performs_sub; [|exact Hp]. by intros R a [? _].
Qed.

Lemma closes_last_bind {A A'} (p : prog A) (f : A → prog A') :
  performs (λ R a, closing a = false) p → (∀ a, closes_last (f a)) → closes_last (bind p f).
Proof.
  intros Hp Hf. induction p as [a|R a k IH]; cbn in *; [done|]. destruct Hp as [-> Hk]. auto.
Qed.

Lemma client_not_closing R (a : action R) : client R a → closing a = false.
Proof. by destruct a. Qed.

(** The actions of a sweep. *)
Definition sweeping R (a : action R) : Prop :=
  match a with
  | TimeNow | Event _ | BackendReap _ _ | DeadAdd _ _ _ | BackendNack _ _ _ => True
  | _ => False
  end.

Lemma sweep_sweeping c : performs sweeping (sweep q c).
Proof.
  unfold sweep. cbn. split; [done|]. intros time. split; [done|]. intros [ls|e]; [|done].
  induction ls as [|l ls IH]; cbn; [done|]. split; [done|]. intros _.
  apply performs_bind; [unfold route; by_actions|done].
Qed.

Lemma reaper_not_closing ticks c : performs (λ R a, closing a = false) (reaper q ticks c).
Proof.
  induction ticks as [|ticks IH]; [by_actions|]. cbn [reaper performs].
  split; [done|]. intros [e|]; [done|]. apply performs_bind; [|done].
  eapply performs_sub; [|apply sweep_sweeping]. by intros R [].
Qed.

Lemma reaper_goroutine_closes_last ticks : closes_last (reaper_goroutine q ticks).
Proof. apply closes_last_bind; [apply reaper_not_closing|]. cbn. eauto. Qed.

Lemma act_reaperDone o {R} (a : action R) w r w' :
  act o a w = Ret (r, w') → reaperDone w' = reaperDone w || closing a.
Proof.
  destruct a; cbn; rewrite ?orb_false_r; try (by intros [= _ <-]);
    try (repeat (case_match; try done); by intros [= _ <-]).
  all: match goal with |- obind ?x _ = _ → _ => destruct x as [[? ?]|]; [|done] end; cbn;
    intros [= _ <-]; repeat case_match; done.
Qed.

Lemma reaper_first_step x x' :
  reaper_first x → step q offered redrive x x' → reaper_first x'.
Proof.
  intros (p0 & ps0 & Hx & Hps & Hleft) Hstep.
  destruct Hstep as [w ps p Hp|w ps c e|w ps i R a k o r w' Hi Hfresh Hen Hact]; cbn in *; subst ps.
  - eexists p0, _. split_and!; [done| |done]. apply Forall_app. split; [done|].
    apply Forall_singleton. by eapply api_clients.
  - by eexists p0, ps0.
  - apply act_reaperDone in Hact. destruct i as [|i]; cbn in *.
    + injection Hi as ->. eexists _, ps0. split_and!; [done|done|]. cbn. rewrite Hact.
      destruct (reaperDone w); cbn in *; [by destruct Hleft|]. destruct (closing a); auto.
    + rewrite Forall_lookup in Hps. destruct (Hps i _ Hi) as [Ha Hk].
      eexists p0, _. split_and!; [done| |].
      * apply Forall_insert; [by apply Forall_lookup|apply Hk].
      * cbn. by rewrite Hact, (client_not_closing _ _ Ha), orb_false_r.
Qed.

Lemma reachable_reaper_first ticks (b : B) (d : D) x :
  rtc (step q offered redrive) (start q ticks b d) x → reaper_first x.
Proof.
  intros Hrtc. eapply rtc_preserves; [|exact Hrtc|]; [intros ? ? ? ?; by eapply reaper_first_step|].
  eexists _, []. split_and!; [done|done|]. apply reaper_goroutine_closes_last.
Qed.

(** [CloseReaperDone] is only ever next while [reaperDone] is open. *)
Lemma reaper_closes_once w ps i R (a : action R) k :
  reaper_first (w, ps) → ps !! i = Some (Do a k) → closing a = true → reaperDone w = false.
Proof.
  intros (p0 & ps0 & Hx & Hps & Hleft) Hi Ha. cbn in *. subst ps. destruct i as [|i]; cbn in Hi.
  - injection Hi as ->. destruct (reaperDone w); [by destruct Hleft|done].
  - rewrite Forall_lookup in Hps. destruct (Hps i _ Hi) as [Hc _].
    by rewrite (client_not_closing _ _ Hc) in Ha.
Qed.
End Reaper.

(** ** Rely-guarantee

    Threads that keep an invariant: each guarantees a condition on every action it runs,
    and relies on the others' respecting a relation that is a preorder. *)
Section RelyGuarantee.
Context {B D : Type} `{!Backend B, !DeadLetter D}.

Abbreviation world := (Queue.world B D).
Implicit Type w : world.

Context (inv : world → Prop) (rely : world → world → Prop) `{!PreOrder rely}.
Context (guar : ∀ R, action R → world → Prop) (learns : ∀ R, action R → R → world → Prop).
Arguments guar {R} _ _.
Arguments learns {R} _ _ _.

(** What an action whose guarantee holds does, when it runs. *)
Definition keeps {R} o (a : action R) w : Prop :=
  ∀ r w', act o a w = Ret (r, w') → inv w' ∧ rely w w' ∧ learns a r w'.

(** [safe p Q w]: run from [w] among threads that respect [rely], [p] meets the
    guarantee of each of its actions and ends with [Q]. *)
Fixpoint safe {A} (p : prog A) (Q : A → world → Prop) w : Prop :=
  match p with
  | Return a => ∀ w1, rely w w1 → inv w1 → Q a w1
  | Do a k => ∀ w1, rely w w1 → inv w1 →
      guar a w1 ∧
      ∀ o r w2, uuid (draw o) ∉ dom (issued w1) → enabled a w1 = true →
        act o a w1 = Ret (r, w2) → safe (k r) Q w2
  end.

Lemma safe_rely {A} (p : prog A) Q w w' : rely w w' → safe p Q w → safe p Q w'.
Proof.
  destruct p as [a|R a k]; cbn; intros Hr Hs w1 Hw1 Hinv; apply Hs; try done; by etrans.
Qed.

Lemma safe_later {A} (p : prog A) Q w :
  (∀ w1, rely w w1 → inv w1 → safe p Q w1) → safe p Q w.
Proof.
  destruct p as [a|R a k]; cbn; intros Hs w1 Hw1 Hinv;
    (eapply Hs; [exact Hw1|done|reflexivity|done]).
Qed.

Lemma safe_mono {A} (p : prog A) (Q Q' : A → world → Prop) w :
  (∀ a w', Q a w' → Q' a w') → safe p Q w → safe p Q' w.
Proof.
  intros HQ. revert w. induction p as [a|R a k IH]; cbn; intros w Hs w1 Hw1; [eauto|].
  intros Hinv. destruct (Hs w1 Hw1 Hinv) as [? Hk]. split; [done|]. eauto.
Qed.

Lemma safe_bind {A A'} (p : prog A) (f : A → prog A') Q w :
  safe p (λ a w', safe (f a) Q w') w → safe (bind p f) Q w.
Proof.
  revert w. induction p as [a|R a k IH]; cbn; intros w Hs.
  - by apply safe_later.
  - intros w1 Hw1 Hinv. destruct (Hs w1 Hw1 Hinv) as [? Hk]. split; [done|]. eauto.
Qed.

Hypothesis act_keeps : ∀ o R (a : action R) w,
  inv w → guar a w → uuid (draw o) ∉ dom (issued w) → enabled a w = true → keeps o a w.

Lemma rg_Do {A R} (a : action R) (k : R → prog A) Q w :
  (∀ w1, rely w w1 → inv w1 → guar a w1) →
  (∀ r w1 w2, rely w w1 → rely w1 w2 → inv w2 → learns a r w2 → safe (k r) Q w2) →
  safe (Do a k) Q w.
Proof.
  intros Hg Hk w1 Hw1 Hinv. split; [by apply Hg|]. intros o r w2 Hfresh Hen Hact.
  destruct (act_keeps o R a w1 Hinv (Hg w1 Hw1 Hinv) Hfresh Hen r w2 Hact) as (? & ? & ?). by eapply Hk.
Qed.

Lemma safe_Return {A} (a : A) (Q : A → world → Prop) w :
  (∀ w1, rely w w1 → inv w1 → Q a w1) → safe (Return a) Q w.
Proof. done. Qed.

(** What holds before a program and is stable holds after it. *)
Lemma safe_frame {A} (p : prog A) (Q : A → world → Prop) (P : world → Prop) w :
  (∀ w1 w2, rely w1 w2 → P w1 → P w2) → P w → safe p Q w →
  safe p (λ a w', Q a w' ∧ inv w' ∧ P w') w.
Proof.
  intros Hstable. revert w. induction p as [a|R a k IH]; cbn; intros w HP Hs w1 Hw1 Hinv.
  - split_and!; [by apply Hs|done|by eapply Hstable].
  - destruct (Hs w1 Hw1 Hinv) as [Hg Hk]. split; [done|]. intros o r w2 Hfresh Hen Hact.
    apply IH; [|by eapply Hk].
    destruct (act_keeps o R a w1 Hinv Hg Hfresh Hen r w2 Hact) as (_ & Hrely & _).
    eapply Hstable; [exact Hrely|]. by eapply Hstable.
Qed.

(** Sequencing: the second program starts from a state that satisfies the
    invariant and what was stable before the first. *)
Lemma rg_seq {A A'} (p : prog A) (f : A → prog A') (P : world → Prop) Q w :
  (∀ w1 w2, rely w1 w2 → P w1 → P w2) → P w →
  safe p (λ _ _, True) w → (∀ a w', inv w' → P w' → safe (f a) Q w') →
  safe (bind p f) Q w.
Proof.
  intros Hstable HP Hp Hf. apply safe_bind.
  eapply safe_mono; [|by apply (safe_frame p (λ _ _, True) P)]. cbn. intros a w' (_ & ? & ?). by apply Hf.
Qed.

Definition any {A} : A → world → Prop := λ _ _, True.

(** *** The whole system *)
Context (q : Queue) (offered : Task → Prop) (redrive : bool).
Hypothesis api_safe : ∀ w p, inv w → api q offered redrive w p → safe p any w.
Hypothesis cancel_keeps : ∀ c e w, inv w → inv (cancel_ctx c e w) ∧ rely w (cancel_ctx c e w).

Definition sys_inv (x : world * threads) : Prop :=
  inv x.1 ∧ Forall (λ p : prog (option error), safe p any x.1) x.2.

Lemma safe_threads_rely ps w w' :
  rely w w' → Forall (λ p : prog (option error), safe p any w) ps → Forall (λ p : prog (option error), safe p any w') ps.
Proof.
  intros Hr Hps. eapply Forall_impl; [exact Hps|]. intros p. by apply safe_rely.
Qed.

(** The next action of a safe thread, when it runs, keeps the invariant. *)
Lemma thread_act w ps i R (a : action R) k o r w' :
  sys_inv (w, ps) → ps !! i = Some (Do a k) → uuid (draw o) ∉ dom (issued w) → enabled a w = true →
  act o a w = Ret (r, w') → sys_inv (w', <[i := k r]> ps) ∧ rely w w'.
Proof.
  intros [Hinv Hps] Hi Hfresh Hen Hact. cbn in *. rewrite Forall_lookup in Hps.
  pose proof (Hps i _ Hi w (reflexivity w) Hinv) as [Hg Hk].
  destruct (act_keeps o R a w Hinv Hg Hfresh Hen r w' Hact) as (Hinv' & Hr & _).
  split; [|done]. split; [done|]. cbn.
  apply Forall_insert; [|by eapply Hk]. eapply safe_threads_rely; [exact Hr|].
  by rewrite Forall_lookup.
Qed.

Lemma rg_step x x' : sys_inv x → step q offered redrive x x' → sys_inv x' ∧ rely x.1 x'.1.
Proof.
  intros [Hinv Hps] Hstep. destruct Hstep as [w ps p Hp|w ps c e|w ps i R a k o r w' Hi Hfresh Hen Hact];
    cbn in *.
  - split; [|done]. split; [done|]. apply Forall_app. split; [done|]. apply Forall_singleton. by apply api_safe.
  - destruct (cancel_keeps c e w) as [? Hr]; [done|].
    split; [|done]. split; [done|]. by eapply safe_threads_rely.
  - by eapply (thread_act w ps i R a k o).
Qed.

Lemma step_sys_inv x x' : sys_inv x → step q offered redrive x x' → sys_inv x'.
Proof. intros Hx Hs. by apply (rg_step x x'). Qed.

Lemma rg_reachable x x' :
  sys_inv x → rtc (step q offered redrive) x x' → sys_inv x'.
Proof. intros Hx Hrtc. eapply rtc_preserves; [|done|done]. intros ? ? ? ?. by eapply step_sys_inv. Qed.

(** A thread that is safe for a postcondition keeps being so; when it has returned, the
    postcondition holds. *)
Lemma step_thread_safe w ps w' ps' i (p : prog (option error)) Q :
  sys_inv (w, ps) → step q offered redrive (w, ps) (w', ps') →
  ps !! i = Some p → safe p Q w → ∃ p', ps' !! i = Some p' ∧ safe p' Q w'.
Proof.
  intros Hx Hstep Hi Hp. pose proof (rg_step _ _ Hx Hstep) as [_ Hr]. cbn in Hr.
  destruct Hx as [Hinv Hps]. cbn in *.
  inversion Hstep as [? ? p1 ?|?|? ? j R a k o r ? Hj Hfresh Hen Hact]; subst.
  - exists p. split; [by apply lookup_app_l_Some|by eapply safe_rely].
  - exists p. split; [done|by eapply safe_rely].
  - destruct (decide (i = j)) as [->|Hne].
    + rewrite Hi in Hj. injection Hj as ->. exists (k r).
            rewrite list_lookup_insert_eq by by eapply lookup_lt_Some. split; [done|].
      destruct (Hp w (reflexivity w) Hinv) as [_ Hk]. by eapply Hk.
    + exists p. rewrite list_lookup_insert_ne by done. split; [done|by eapply safe_rely].
Qed.

Lemma thread_returns x x' i (p : prog (option error)) Q r :
  sys_inv x → rtc (step q offered redrive) x x' → x.2 !! i = Some p → safe p Q x.1 →
  x'.2 !! i = Some (Return r) → inv x'.1 ∧ Q r x'.1.
Proof.
  intros Hx Hrtc. revert p Hx. induction Hrtc as [[w ps]|[w ps] [w1 ps1] x' Hstep _ IH];
    cbn; intros p Hx Hi Hp Hr.
  - rewrite Hi in Hr. injection Hr as ->. destruct Hx as [Hinv _]. split; [done|]. by apply Hp.
  - destruct (step_thread_safe w ps w1 ps1 i p Q) as (p' & Hi' & Hp'); [done..|].
    apply (IH p'); [by eapply step_sys_inv|done..].
Qed.
End RelyGuarantee.
