(* ===== verification/QueueSafety.v ===== *)
(** * What the interleaved queue guarantees ([src/pkg/taskqueue/queue.go])

    An instance of the rely-guarantee argument of [QueueSystem] about the stores: what
    every interleaving of the queue's methods, on lawful stores, preserves. *)
From S2P Require Import Prelude Golang QueueTypes Queue QueueSystem.
Local Open Scope Z_scope.
Local Open Scope go_scope.


(** ** Rely-guarantee *)
Section Safety.
Context {B D : Type} `{!Backend B, !DeadLetter D} (q : Queue).
Context (before : Task → Task → bool) (brep : B → store → Prop) (drep : D → gmap Z DeadTask → Prop).
Context `{!BackendLaws before brep, !DeadLetterLaws drep}.
Context (offered : Task → Prop) (redrive : bool).
(** The interface documents [ID] as the unique identifier of a task. *)
Hypothesis ID_unique : ∀ t t', offered t → offered t' → ID t = ID t' → t = t'.
Hypothesis attempts_positive : 0 < maxAttempts q.

Abbreviation world := (Queue.world B D).
Implicit Types (w : world) (l : Lease) (t : Task).

(** The lease was issued by the backend for its token. *)
Definition knows w l : Prop := issued w !! Token l = Some (lease_Task l, Attempt l).

(** The task is in a dead-letter table, or in the store of [w]. *)
Definition dead_entry (m : gmap Z DeadTask) t : Prop :=
  ∃ x, m !! ID t = Some x ∧ dead_Task x = t.
Definition in_dead w t : Prop := ∀ m, drep (deadLetter w) m → dead_entry m t.

(** A stored task is waiting, leased, dead-lettered or acknowledged. *)
Definition kept w (s : store) (m : gmap Z DeadTask) t : Prop :=
  (∃ a, (t, a) ∈ waiting s) ∨
  (∃ token e, leased s !! token = Some e ∧ e.1.1 = t) ∨
  dead_entry m t ∨
  (∃ token a, token ∈ acked w ∧ issued w !! token = Some (t, a)).

Record inv_at w (s : store) (m : gmap Z DeadTask) : Prop := {
  inv_backend : brep (backend w) s;
  inv_deadLetter : drep (deadLetter w) m;
  inv_leased : ∀ token e, leased s !! token = Some e → issued w !! token = Some e.1;
  inv_waiting : ∀ t a, (t, a) ∈ waiting s → offered t ∧ 0 ≤ a < maxAttempts q;
  inv_issued : ∀ token t a, issued w !! token = Some (t, a) →
    offered t ∧ 1 ≤ a ≤ maxAttempts q;
  inv_dead : ∀ id x, m !! id = Some x → ID (dead_Task x) = id ∧ offered (dead_Task x);
  inv_claims : ∀ i l b, claims w !! i = Some (l, b) → knows w l;
  inv_kept : redrive = false → ∀ t, t ∈ stored w → kept w s m t;
}.

Definition inv w : Prop := ∃ s m, inv_at w s m.

(** What a thread may rely on: issued tokens keep their meaning, and without
    [Redrive] the dead-letter store only grows. *)
Definition rely w w' : Prop :=
  issued w ⊆ issued w' ∧
  (redrive = false → ∀ t, offered t → in_dead w t → in_dead w' t).

#[export] Instance rely_preorder : PreOrder rely.
Proof.
  split; [by intros w|]. intros w1 w2 w3 [? H12] [? H23].
  split; [by etrans|auto].
Qed.

(** What a thread guarantees before an action. *)
Definition guar {R} (a : action R) w : Prop :=
  match a with
  | BackendEnqueue _ (Some t) => offered t
  | BackendNack _ token true => ∃ t n, issued w !! token = Some (t, n) ∧ n < maxAttempts q
  | BackendNack _ token false =>
      redrive = false → ∃ t n, issued w !! token = Some (t, n) ∧ in_dead w t
  | DeadAdd _ t _ => offered t
  | DeadRemove _ _ => redrive = true
  | NewClaim l => knows w l
  | _ => True
  end.

Lemma knows_rely w w' l : rely w w' → knows w l → knows w' l.
Proof. intros [Hi _] Hk. unfold knows in *. by eapply lookup_weaken. Qed.

Lemma knows_offered w l : inv w → knows w l → offered (lease_Task l).
Proof. intros (s & m & H) Hk. by apply (inv_issued _ _ _ H) in Hk as [? _]. Qed.

Lemma in_dead_rep w m t : drep (deadLetter w) m → dead_entry m t → in_dead w t.
Proof. intros Hm Hd m' Hm'. by rewrite (dl_rep_fun (deadLetter w) m' m). Qed.

(** *** Actions preserve the invariant and respect the rely condition *)

(** Actions that change neither store, claims nor history. *)
Definition same w w' : Prop :=
  backend w' = backend w ∧ deadLetter w' = deadLetter w ∧ claims w' = claims w ∧
  issued w' = issued w ∧ acked w' = acked w ∧ stored w' = stored w.

Lemma same_inv w w' s m : same w w' → inv_at w s m → inv_at w' s m.
Proof.
  destruct w, w'. unfold same. cbn. intros (-> & -> & -> & -> & -> & ->) H.
  destruct H. by split.
Qed.

Lemma same_rely w w' : same w w' → rely w w'.
Proof.
  intros (_ & Hd & _ & Hi & _). split; [by rewrite Hi|].
  intros _ t _. unfold in_dead. by rewrite Hd.
Qed.

Lemma same_ok w w' : same w w' → inv w → inv w' ∧ rely w w'.
Proof.
  intros Hs (s & m & H). split; [exists s, m; by eapply same_inv|by apply same_rely].
Qed.

(** A change of the backend alone, the history of tokens growing. *)
Lemma backend_rely w w' :
  deadLetter w' = deadLetter w → issued w ⊆ issued w' → rely w w'.
Proof. intros Hd Hi. split; [done|]. intros _ t _. unfold in_dead. by rewrite Hd. Qed.

Lemma enqueue_ok w s m t b' :
  inv_at w s m → offered t → brep b' (store_enqueue t s) →
  inv_at (record_stored t (set_backend b' w)) (store_enqueue t s) m.
Proof.
  intros [] Ht Hb. split; cbn; try done.
  - intros t' a [[= -> ->]|]%elem_of_cons; [split; [done|lia]|eauto].
  - intros Hr t' [->|Hin]%elem_of_cons; [left; exists 0; left|].
    destruct (inv_kept0 Hr t' Hin) as [[a ?]|?]; [left; exists a; by right|by right].
Qed.

Lemma claim_ok w s m t a rest token dl b' :
  inv_at w s m → waiting s ≡ₚ (t, a) :: rest → token ∉ dom (issued w) →
  brep b' (store_claim rest token (t, a + 1, dl) s) →
  inv_at (record_issued (MkLease token t (a + 1) dl) (set_backend b' w))
    (store_claim rest token (t, a + 1, dl) s) m.
Proof.
  intros [] Hperm Hfresh Hb. apply not_elem_of_dom in Hfresh.
  assert (offered t ∧ 0 ≤ a < maxAttempts q) as [Ht Ha] by (apply inv_waiting0; rewrite Hperm; left).
  split; cbn; try done.
  - intros tok e [[<- <-]|[Hne He]]%lookup_insert_Some; [by rewrite lookup_insert_eq|].
    rewrite lookup_insert_ne by done. by apply inv_leased0.
  - intros t' a' Hin. apply inv_waiting0. rewrite Hperm. by right.
  - intros tok t' a' [[<- [= <- <-]]|[Hne He]]%lookup_insert_Some; [split; [done|lia]|eauto].
  - intros i l b Hi. unfold knows. cbn. rewrite lookup_insert_ne; [by eapply inv_claims0|].
    intros ->. apply inv_claims0 in Hi. unfold knows in Hi. congruence.
  - intros Hr t' Hin. destruct (inv_kept0 Hr t' Hin) as [[a' Ha']|[(tok & e & He & Ht')|[?|(tok & a' & ? & ?)]]].
    + rewrite Hperm in Ha'. apply elem_of_cons in Ha' as [[= -> ->]|Ha']; [|left; by exists a'].
      right; left. exists token. eexists. cbn. by rewrite lookup_insert_eq.
    + right; left. exists tok, e. cbn. rewrite lookup_insert_ne; [done|].
      intros <-. apply inv_leased0 in He. congruence.
    + by right; right; left.
    + right; right; right. exists tok, a'. cbn. rewrite lookup_insert_ne; [done|congruence].
Qed.

Lemma ack_ok w s m token e b' :
  inv_at w s m → leased s !! token = Some e → brep b' (store_settle token s) →
  inv_at (record_acked token (set_backend b' w)) (store_settle token s) m.
Proof.
  intros [] He Hb. split; cbn; try done.
  - intros tok e' [_ ?]%lookup_delete_Some. by apply inv_leased0.
  - intros Hr t Hin. destruct (inv_kept0 Hr t Hin) as [?|[(tok & e' & He' & Ht)|[?|(tok & a & ? & ?)]]].
    + by left.
    + destruct (decide (tok = token)) as [->|Hne].
      * right; right; right. exists token, e.1.2. cbn. split; [by apply elem_of_union_l, elem_of_singleton|].
        assert (e' = e) as -> by congruence. rewrite (inv_leased0 _ _ He), <- Ht.
        by destruct e as [[? ?] ?].
      * right; left. exists tok, e'. cbn. by rewrite lookup_delete_ne.
    + by right; right; left.
    + right; right; right. exists tok, a. cbn. split; [by apply elem_of_union_r|done].
Qed.

Lemma requeue_ok w s m token e b' :
  inv_at w s m → leased s !! token = Some e →
  (∃ t n, issued w !! token = Some (t, n) ∧ n < maxAttempts q) →
  brep b' (store_requeue token e s) →
  inv_at (set_backend b' w) (store_requeue token e s) m.
Proof.
  intros [] He (t & n & Hissued & Hn) Hb.
  assert (e.1 = (t, n)) as Hte by (apply inv_leased0 in He; congruence).
  pose proof (inv_issued0 _ _ _ Hissued) as [Ht Hrange].
  split; cbn; try done.
  - intros tok e' [_ ?]%lookup_delete_Some. by apply inv_leased0.
  - rewrite Hte. intros t' a' [[= -> ->]|]%elem_of_cons; [split; [done|cbn; lia]|eauto].
  - intros Hr t' Hin. destruct (inv_kept0 Hr t' Hin) as [[a ?]|[(tok & e' & He' & Ht')|?]].
    + left. exists a. by right.
    + destruct (decide (tok = token)) as [->|Hne].
      * left. exists e.1.2. assert (e' = e) as -> by congruence. rewrite <- Ht'. left.
      * right; left. exists tok, e'. cbn. by rewrite lookup_delete_ne.
    + by right; right.
Qed.

Lemma drop_ok w s m token e b' :
  inv_at w s m → leased s !! token = Some e →
  (redrive = false → ∃ t n, issued w !! token = Some (t, n) ∧ in_dead w t) →
  brep b' (store_settle token s) →
  inv_at (set_backend b' w) (store_settle token s) m.
Proof.
  intros [] He Hdead Hb. split; cbn; try done.
  - intros tok e' [_ ?]%lookup_delete_Some. by apply inv_leased0.
  - intros Hr t Hin. destruct (inv_kept0 Hr t Hin) as [?|[(tok & e' & He' & Ht)|?]].
    + by left.
    + destruct (decide (tok = token)) as [->|Hne].
      * right; right; left. destruct (Hdead Hr) as (t' & n & Hissued & Hd).
        assert (e'.1 = (t', n)) as Hte by (apply inv_leased0 in He'; congruence).
        rewrite Hte in Ht. cbn in Ht. subst t'. by apply Hd.
      * right; left. exists tok, e'. cbn. by rewrite lookup_delete_ne.
    + by right; right.
Qed.

Lemma dead_add_ok w s m t x d' :
  inv_at w s m → offered t → dead_Task x = t → drep d' (<[ID t := x]> m) →
  inv_at (set_deadLetter d' w) s (<[ID t := x]> m) ∧
  rely w (set_deadLetter d' w) ∧ in_dead (set_deadLetter d' w) t.
Proof.
  intros Hinv Ht Hx Hd.
  assert (Hmono : ∀ t', offered t' → dead_entry m t' → dead_entry (<[ID t := x]> m) t').
  { intros t' Ht' (y & Hy & Hyt). destruct (decide (ID t = ID t')) as [Heq|Hne].
    - exists x. rewrite Heq, lookup_insert_eq. split; [done|]. rewrite Hx. by apply ID_unique.
    - exists y. by rewrite lookup_insert_ne. }
  destruct Hinv. split_and!.
  - split; cbn; try done.
    + intros id y [[<- <-]|[? ?]]%lookup_insert_Some; [by rewrite Hx|eauto].
    + intros Hr t' Hin. destruct (inv_kept0 Hr t' Hin) as [?|[?|[Hde|?]]].
      * by left.
      * by right; left.
      * right; right; left. apply Hmono; [|done].
        destruct Hde as (y & Hy & <-). by apply inv_dead0 in Hy as [_ ?].
      * by right; right; right.
  - split; [done|]. intros _ t' Ht' Hde. apply (in_dead_rep _ (<[ID t := x]> m)); [done|].
    apply Hmono; [done|]. by apply Hde.
  - apply (in_dead_rep _ (<[ID t := x]> m)); [done|].
    exists x. by rewrite lookup_insert_eq.
Qed.

(** What a thread learns from the result of an action. *)
Definition learns {R} (a : action R) (r : R) w' : Prop :=
  match a in action R return R → Prop with
  | BackendClaim _ _ => λ r, match r with inl l => knows w' l | inr _ => True end
  | BackendReap _ _ => λ r, match r with inl ls => Forall (knows w') ls | inr _ => True end
  | DeadAdd _ t _ => λ r, match r with None => in_dead w' t | Some _ => True end
  | DeadList _ _ => λ r,
      match r with inl ds => Forall (λ x, offered (dead_Task x)) ds | inr _ => True end
  | _ => λ _, True
  end r.

(** An action runs without a panic, keeps the invariant and the rely condition. *)
Definition act_ok o {R} (a : action R) w : Prop :=
  ∃ r w', act o a w = Ret (r, w') ∧ inv w' ∧ rely w w' ∧ learns a r w'.

Lemma nop_ok w s m : inv_at w s m →
  inv (set_backend (backend w) w) ∧ rely w (set_backend (backend w) w).
Proof. intros H. rewrite set_backend_same. split; [by exists s, m|reflexivity]. Qed.

(** Close [act_ok] when the backend call in [H] returned an error. *)
Ltac refused Hc H :=
  unfold act_ok; cbn; rewrite Hc, H; cbn; do 2 eexists; split; [done|];
  edestruct nop_ok as [? ?]; [eassumption|]; split_and!; [eassumption|eassumption|exact I].

Lemma enqueue_act o c (t : option Task) w s m :
  inv_at w s m → guar (BackendEnqueue c t) w → act_ok o (BackendEnqueue c t) w.
Proof.
  intros Hinv Hg. pose proof (law_Enqueue (backend w) s (ctx_of w c) t (inv_backend _ _ _ Hinv)) as H.
  destruct (ctx_of w c) as [e|] eqn:Hc; [|destruct t as [t|]; [destruct H as (b' & H & Hb')|]];
    [refused Hc H| |refused Hc H].
  unfold act_ok. cbn. rewrite Hc, H. cbn. do 2 eexists. split; [done|].
  split_and!; [eexists _, m; by apply enqueue_ok|by apply backend_rely|done].
Qed.

Lemma claim_act o c v w s m :
  inv_at w s m → uuid (draw o) ∉ dom (issued w) → act_ok o (BackendClaim c v) w.
Proof.
  intros Hinv Hfresh.
  pose proof (law_Claim (backend w) s (ctx_of w c) v (now o) (draw o) (inv_backend _ _ _ Hinv)) as H.
  destruct (ctx_of w c) as [e|] eqn:Hc; [refused Hc H|].
  destruct (waiting s) as [|x xs] eqn:Hx; [refused Hc H|].
  rewrite <- Hx in *. destruct H as (t & n & rest & b' & Hperm & _ & H & Hb').
  unfold act_ok. cbn. rewrite Hc, H. cbn. do 2 eexists. split; [done|].
  split_and!; [eexists _, m; by apply claim_ok| |].
  - apply backend_rely; [done|]. cbn. by apply insert_subseteq, not_elem_of_dom.
  - unfold knows. cbn. by rewrite lookup_insert_eq.
Qed.

Lemma ack_act o c token w s m : inv_at w s m → act_ok o (BackendAck c token) w.
Proof.
  intros Hinv. pose proof (law_Ack (backend w) s (ctx_of w c) token (inv_backend _ _ _ Hinv)) as H.
  destruct (ctx_of w c) as [e|] eqn:Hc; [|destruct (leased s !! token) as [e|] eqn:He;
    [destruct H as (b' & H & Hb')|]]; [refused Hc H| |refused Hc H].
  unfold act_ok. cbn. rewrite Hc, H. cbn. do 2 eexists. split; [done|].
  split_and!; [eexists _, m; by eapply ack_ok|by apply backend_rely|done].
Qed.

Lemma nack_act o c token requeue w s m :
  inv_at w s m → guar (BackendNack c token requeue) w →
  act_ok o (BackendNack c token requeue) w.
Proof.
  intros Hinv Hg.
  pose proof (law_Nack (backend w) s (ctx_of w c) token requeue (inv_backend _ _ _ Hinv)) as H.
  destruct (ctx_of w c) as [e|] eqn:Hc; [|destruct (leased s !! token) as [e|] eqn:He;
    [destruct H as (b' & H & Hb')|]]; [refused Hc H| |refused Hc H].
  unfold act_ok. cbn. rewrite Hc, H. cbn. do 2 eexists. split; [done|].
  split_and!; [|by apply backend_rely|done].
  destruct requeue; eexists _, m; [by eapply requeue_ok|by eapply drop_ok].
Qed.

Lemma reap_act o c time w s m : inv_at w s m → act_ok o (BackendReap c time) w.
Proof.
  intros Hinv.
  pose proof (law_ReapExpired (backend w) s (ctx_of w c) time (draw o) (inv_backend _ _ _ Hinv)) as H.
  destruct (ctx_of w c) as [e|] eqn:Hc; [refused Hc H|].
  destruct H as (ls & H & _ & Hls).
  unfold act_ok. cbn. rewrite Hc, H. cbn. do 2 eexists. split; [done|].
  destruct (nop_ok w s m Hinv) as [? ?]. split_and!; [done|done|].
  apply Forall_forall. intros l Hl. apply Hls in Hl as ([[t n] dl] & He & -> & _).
  unfold knows. cbn. by rewrite (inv_leased _ _ _ Hinv _ _ He).
Qed.

Lemma dead_nop_ok w s m : inv_at w s m →
  inv (set_deadLetter (deadLetter w) w) ∧ rely w (set_deadLetter (deadLetter w) w).
Proof.
  intros H. assert (set_deadLetter (deadLetter w) w = w) as -> by (by destruct w).
  split; [by exists s, m|reflexivity].
Qed.

Lemma dead_add_act o c t reason w s m :
  inv_at w s m → offered t → act_ok o (DeadAdd c t reason) w.
Proof.
  intros Hinv Ht.
  pose proof (law_Add (deadLetter w) m (ctx_of w c) (Some t) reason (now o)
    (inv_deadLetter _ _ _ Hinv)) as H.
  unfold act_ok. cbn. destruct (ctx_of w c) as [e|] eqn:Hc.
  - rewrite H. cbn. do 2 eexists. split; [done|].
    destruct (dead_nop_ok w s m Hinv). split_and!; done.
  - destruct H as (d' & x & -> & Hd' & Hx & _). cbn. do 2 eexists. split; [done|].
    destruct (dead_add_ok w s m t x d') as (? & ? & ?); [done..|].
    split_and!; [by eexists _, _|done|done].
Qed.

Lemma dead_list_act o c limit w s m : inv_at w s m → act_ok o (DeadList c limit) w.
Proof.
  intros Hinv.
  pose proof (law_List (deadLetter w) m (ctx_of w c) limit (draw o) (inv_deadLetter _ _ _ Hinv)) as H.
  destruct (dead_nop_ok w s m Hinv) as [? ?].
  unfold act_ok. cbn. destruct (ctx_of w c) as [e|] eqn:Hc.
  - rewrite H. cbn. do 2 eexists. by split_and!.
  - destruct H as (ds & -> & Hsound & _). cbn. do 2 eexists. split_and!; [done|done|done|].
    apply Forall_forall. intros x Hx. destruct (Hsound x Hx) as [id Hid].
    by apply (inv_dead _ _ _ Hinv) in Hid as [_ ?].
Qed.

Lemma dead_remove_act o c id w s m :
  inv_at w s m → redrive = true → act_ok o (DeadRemove c id) w.
Proof.
  intros Hinv Hr.
  pose proof (law_Remove (deadLetter w) m (ctx_of w c) id (inv_deadLetter _ _ _ Hinv)) as H.
  unfold act_ok. cbn. destruct (ctx_of w c) as [e|] eqn:Hc.
  - rewrite H. cbn. do 2 eexists. destruct (dead_nop_ok w s m Hinv). by split_and!.
  - destruct H as (d' & -> & Hd'). cbn. do 2 eexists. split; [done|]. split_and!; [|split; [done|congruence]|done].
    eexists _, _. destruct Hinv. split; cbn; try done; [|congruence].
    intros k x [_ ?]%lookup_delete_Some. eauto.
Qed.

Lemma dead_len_act o c w s m : inv_at w s m → act_ok o (DeadLen c) w.
Proof.
  intros Hinv. unfold act_ok. cbn.
  rewrite (law_DLen (deadLetter w) m (ctx_of w c) (inv_deadLetter _ _ _ Hinv)). cbn.
  do 2 eexists. destruct (dead_nop_ok w s m Hinv). by split_and!.
Qed.

(** A new claims table whose leases were all issued. *)
Lemma claims_ok w s m cs :
  inv_at w s m → (∀ i l b, cs !! i = Some (l, b) → knows w l) →
  inv (set_claims cs w) ∧ rely w (set_claims cs w).
Proof.
  intros [] Hcs. split; [|by apply backend_rely].
  exists s, m. by split.
Qed.

(** All but a second close of a channel. *)
Definition quiet {R} (a : action R) w : Prop := closing a = true → reaperDone w = false.

Lemma act_Ret_quiet o {R} (a : action R) w r w' : act o a w = Ret (r, w') → quiet a w.
Proof. destruct a; try done. unfold quiet. cbn. by destruct (reaperDone w). Qed.

(** Every action whose guarantee holds is safe, but for a second close of a channel. *)
Lemma act_safe o {R} (a : action R) w :
  inv w → guar a w → uuid (draw o) ∉ dom (issued w) → quiet a w → act_ok o a w.
Proof.
  intros (s & m & Hinv) Hg Hfresh Hq.
  destruct a; eauto using enqueue_act, claim_act, ack_act, nack_act, reap_act, dead_add_act,
    dead_list_act, dead_remove_act, dead_len_act;
    try (unfold act_ok; cbn; do 2 eexists; split; [done|];
         edestruct (same_ok w); [| |split_and!; try done]; [done|by exists s, m]; fail).
  - unfold act_ok. cbn. destruct (closeOnce w);
      (do 2 eexists; split; [done|]); split_and!; try done; try (by exists s, m).
    exists s, m. by apply (same_inv w).
  - edestruct (claims_ok w s m) as [? ?]; [done| |unfold act_ok; cbn; eauto 10].
    intros i l' b [Hi|[_ Hi]]%lookup_app_Some; [by eapply (inv_claims _ _ _ Hinv)|].
    apply list_lookup_singleton_Some in Hi as [_ [= <- <-]]. done.
  - unfold act_ok. cbn. case_match.
    + do 2 eexists. split_and!; [done|by exists s, m|reflexivity|done].
    + edestruct (claims_ok w s m) as [? ?]; [done| |eauto 10].
      intros i l' b Hi. rewrite list_lookup_alter in Hi. case_decide.
      * apply fmap_Some in Hi as ([l1 b1] & Hi & [= -> ->]). by eapply (inv_claims _ _ _ Hinv).
      * by eapply (inv_claims _ _ _ Hinv).
  - unfold act_ok. cbn. rewrite Hq by done. do 2 eexists. split; [done|].
    edestruct (same_ok w (set_reaperDone true w)); [done|by exists s, m|by split_and!].
Qed.

(** *** The methods are safe *)

Abbreviation safe := (QueueSystem.safe inv rely (@guar)).
Abbreviation sys_inv := (QueueSystem.sys_inv inv rely (@guar)).

Lemma act_keeps o R (a : action R) w :
  inv w → guar a w → uuid (draw o) ∉ dom (issued w) → enabled a w = true →
  keeps inv rely (@learns) o a w.
Proof.
  intros Hinv Hg Hfresh _ r w' Hact.
  destruct (act_safe o a w Hinv Hg Hfresh (act_Ret_quiet _ _ _ _ _ Hact)) as (r1 & w1 & Hact' & ?).
  rewrite Hact' in Hact. by injection Hact as -> ->.
Qed.

Lemma safe_Do {A R} (a : action R) (k : R → prog A) Q w :
  (∀ w1, rely w w1 → inv w1 → guar a w1) →
  (∀ r w1 w2, rely w w1 → rely w1 w2 → inv w2 → learns a r w2 → safe (k r) Q w2) →
  safe (Do a k) Q w.
Proof. apply (QueueSystem.rg_Do inv rely (@guar) (@learns) act_keeps). Qed.

Lemma safe_seq {A A'} (p : prog A) (f : A → prog A') (P : world → Prop) Q w :
  (∀ w1 w2, rely w1 w2 → P w1 → P w2) → P w →
  safe p (λ _ _, True) w → (∀ a w', inv w' → P w' → safe (f a) Q w') →
  safe (bind p f) Q w.
Proof. apply (QueueSystem.rg_seq inv rely (@guar) (@learns) act_keeps). Qed.

(** A step whose guarantee is trivial and that teaches nothing; an end. *)
Ltac step := apply safe_Do; [done|intros ? ? ? ? ? ? _].
Ltac finish := apply safe_Return; done.
Ltac chain := repeat (etrans; [eassumption|]); (eassumption || reflexivity).

Lemma route_safe c l reason w : inv w → knows w l → safe (route q c l reason) any w.
Proof.
  intros Hinv Hk. pose proof (knows_offered w l Hinv Hk) as Ht.
  unfold route. destruct (Z.leb_spec (maxAttempts q) (Attempt l)) as [Hmax|Hmax].
  - apply safe_Do; [done|]. intros _ w1 w2 H1 H2 _ _.
    apply safe_Do; [done|]. intros err w3 w4 H3 H4 _ Hlearn.
    assert (knows w4 l) as Hk4 by (apply (knows_rely w); [chain|done]).
    destruct err; [finish|].
    apply safe_Do; [|intros; finish]. intros w5 H5 _ Hr. exists (lease_Task l), (Attempt l).
    split; [by apply (knows_rely w4)|]. by apply H5.
  - apply safe_Do; [done|]. intros _ w1 w2 H1 H2 _ _.
    apply safe_Do; [|intros; finish]. intros w3 H3 _.
    exists (lease_Task l), (Attempt l). split; [|done]. apply (knows_rely w); [chain|done].
Qed.

Lemma knows_all_rely ls w w' : rely w w' → Forall (knows w) ls → Forall (knows w') ls.
Proof. intros Hr Hls. eapply Forall_impl; [exact Hls|]. intros l. by apply knows_rely. Qed.

Lemma sweep_loop_safe c ls : ∀ w, inv w → Forall (knows w) ls → safe (sweep_loop q c ls) any w.
Proof.
  induction ls as [|l ls IH]; intros w Hinv Hls; cbn [sweep_loop]; [finish|].
  apply safe_Do; [done|]. intros _ w1 w2 H1 H2 Hinv2 _.
  apply (knows_all_rely _ w w2) in Hls; [|chain].
  apply Forall_cons in Hls as [Hl Hls].
  apply (safe_seq _ _ (λ w', Forall (knows w') ls)); [apply knows_all_rely|done| |auto].
  by apply route_safe.
Qed.

Lemma sweep_safe c w : safe (sweep q c) any w.
Proof.
  unfold sweep. step. apply safe_Do; [done|]. intros [ls|e] w3 w4 _ _ Hinv Hls; [|finish].
  by apply sweep_loop_safe.
Qed.

Lemma reaper_safe ticks c : ∀ w, safe (reaper q ticks c) any w.
Proof.
  induction ticks as [|ticks IH]; intros w; cbn [reaper]; [step; finish|].
  step. case_match; [finish|].
  apply (safe_seq _ _ (λ _, True)); [done|done|apply sweep_safe|intros; apply IH].
Qed.

Lemma reaper_goroutine_safe ticks w : safe (reaper_goroutine q ticks) any w.
Proof.
  apply (safe_seq _ _ (λ _, True)); [done|done|apply reaper_safe|]. intros. step. finish.
Qed.

Lemma enqueue_safe c (t : option Task) w : (∀ x, t = Some x → offered x) → safe (Enqueue c t) any w.
Proof.
  intros Ht. unfold Enqueue. step. case_match; [finish|].
  step. case_match; [finish|]. destruct t as [t|]; [|finish].
  apply safe_Do; [intros; by apply Ht|]. intros [e|] ? ? _ _ _ _; [finish|].
  step. finish.
Qed.

(** What [Dequeue] hands out is a claim on a lease that was issued. *)
Definition claimed (r : Claim + option error) w : Prop :=
  match r with inl cl => knows w (lease cl) | inr _ => True end.

Lemma dequeue_loop_safe fuel c deadline : ∀ w, safe (dequeue_loop q fuel c deadline) claimed w.
Proof.
  induction fuel as [|fuel IH]; intros w; cbn [dequeue_loop]; [finish|].
  step. case_match; [finish|].
  apply safe_Do; [done|]. intros [l|e] w3 w4 _ _ _ Hl; cbn in Hl.
  - apply safe_Do; [done|]. intros _ w5 w6 H5 H6 _ _ w7 H7 Hinv7.
    assert (knows w7 l) as Hk by (apply (knows_rely w4); [chain|done]).
    split; [done|]. intros o cl w8 _ _ [= <- <-] w9 H9 _. by apply (knows_rely _ w9 l H9).
  - case_match; [|finish]. step. case_match; [finish|]. step. case_match; [finish|apply IH].
Qed.

Lemma dequeue_safe fuel c timeout w : safe (Dequeue q fuel c timeout) claimed w.
Proof. unfold Dequeue. step. case_match; [finish|]. step. apply dequeue_loop_safe. Qed.

Lemma settle_safe c cl reason w :
  knows w (lease cl) → safe (Claim_Ack c cl) any w ∧ safe (Claim_Nack q c cl reason) any w.
Proof.
  intros Hk. split; [unfold Claim_Ack|unfold Claim_Nack]; step; (case_match; [|finish]).
  - step. step. finish.
  - apply safe_Do; [done|]. intros _ w3 w4 ? ? ? _. apply route_safe; [done|].
    apply (knows_rely w); [chain|done].
Qed.

Lemma redrive_safe c id w : redrive = true → safe (Redrive c id) any w.
Proof.
  intros Hr. unfold Redrive. step. case_match; [finish|]. step. case_match; [finish|].
  apply safe_Do; [done|]. intros [ds|e] wa wb _ _ _ Hds; [|finish]. cbn in Hds.
  destruct (find_dead id ds) as [t|] eqn:Hf; [|finish].
  apply find_dead_Some in Hf as [_ (x & Hx & <-)]. rewrite Forall_forall in Hds.
  apply safe_Do; [intros; by apply Hds|]. intros [e|] wc wd _ _ _ _; [finish|].
  step. apply safe_Do; [done|]. intros; finish.
Qed.

Lemma discard_safe {A} (p : prog A) w : safe p any w → safe (discard p) any w.
Proof. intros Hp. apply (safe_bind inv rely (@guar)). eapply safe_mono; [|exact Hp]. intros; finish. Qed.

Lemma api_safe w (p : prog (option error)) : inv w → api q offered redrive w p → safe p any w.
Proof.
  intros Hinv Hp. destruct Hp.
  - by apply enqueue_safe.
  - apply discard_safe. eapply safe_mono; [|apply dequeue_safe]. done.
  - destruct Hinv as (s & m & Hinv). by apply (settle_safe c (MkClaim i l) None w), (inv_claims _ _ _ Hinv i l b).
  - destruct Hinv as (s & m & Hinv). by apply (settle_safe c (MkClaim i l) reason w), (inv_claims _ _ _ Hinv i l b).
  - unfold Close. step. case_match; [|finish]. step. step. step. step. finish.
  - apply discard_safe. unfold DeadLetterLen. step. finish.
  - by apply redrive_safe.
Qed.
Lemma cancel_keeps c e w : inv w → inv (cancel_ctx c e w) ∧ rely w (cancel_ctx c e w).
Proof. by apply same_ok. Qed.

Lemma step_sys_rely x x' :
  sys_inv x → step q offered redrive x x' → sys_inv x' ∧ rely x.1 x'.1.
Proof.
  apply (QueueSystem.rg_step inv rely (@guar) (@learns) act_keeps q offered redrive api_safe cancel_keeps).
Qed.

Lemma reachable_sys_inv x x' :
  sys_inv x → rtc (step q offered redrive) x x' → sys_inv x'.
Proof.
  apply (QueueSystem.rg_reachable inv rely (@guar) (@learns) act_keeps q offered redrive api_safe cancel_keeps).
Qed.

End Safety.

Section Reachable.
Context {B D : Type} `{!Backend B, !DeadLetter D} (q : Queue).
Context (before : Task → Task → bool) (brep : B → store → Prop) (drep : D → gmap Z DeadTask → Prop).
Context `{!BackendLaws before brep, !DeadLetterLaws drep}.

Lemma start_sys_inv offered redrive ticks (b : B) (d : D) :
  (∀ t t', offered t → offered t' → ID t = ID t' → t = t') → 0 < maxAttempts q →
  brep b (Store [] ∅) → drep d ∅ →
  sys_inv (QueueSafety.inv q brep drep offered redrive) (QueueSafety.rely drep offered redrive)
    (@QueueSafety.guar _ _ q drep offered redrive) (start q ticks b d).
Proof.
  intros HID Hmax Hb Hd. split.
  - exists (Store [] ∅), ∅. split; cbn; try done.
    + intros t a H. by apply elem_of_nil in H.
    + intros _ t H. by apply elem_of_nil in H.
  - apply Forall_singleton. by apply (reaper_goroutine_safe q before brep drep).
Qed.

(** C3: no task is lost. Whatever the interleaving of producers, consumers
    settling their claims, the reaper, cancellations and [Close], as long as
    nobody calls [Redrive], every task the backend ever accepted is waiting, or
    under an outstanding lease, or in the dead-letter store, or was acknowledged
    under a token issued for it. The store's contract is the only assumption on
    the backend, and that of the ID ([ID] identifies a task) the only one on the
    tasks. *)
Theorem queue_keeps_every_task (offered : Task → Prop) ticks (b : B) (d : D) w ps :
  (∀ t t', offered t → offered t' → ID t = ID t' → t = t') → 0 < maxAttempts q →
  brep b (Store [] ∅) → drep d ∅ →
  rtc (step q offered false) (start q ticks b d) (w, ps) →
  ∃ s m, brep (backend w) s ∧ drep (deadLetter w) m ∧
    ∀ t, t ∈ stored w → kept w s m t.
Proof.
  intros HID Hmax Hb Hd Hreach.
  destruct (reachable_sys_inv q before brep drep offered false HID Hmax _ _
    (start_sys_inv offered false ticks b d HID Hmax Hb Hd) Hreach) as [(s & m & H) _].
  exists s, m. split_and!; [by apply (inv_backend _ _ _ _ _ _ _ _ H)|by apply (inv_deadLetter _ _ _ _ _ _ _ _ H)|].
  by apply (inv_kept _ _ _ _ _ _ _ _ H).
Qed.

(** The next action of a thread does not panic. *)
Lemma reachable_no_panic (offered : Task → Prop) redrive ticks (b : B) (d : D) w ps i R (a : action R) k o :
  (∀ t t', offered t → offered t' → ID t = ID t' → t = t') → 0 < maxAttempts q →
  brep b (Store [] ∅) → drep d ∅ →
  rtc (step q offered redrive) (start q ticks b d) (w, ps) →
  ps !! i = Some (Do a k) → uuid (draw o) ∉ dom (issued w) → ∃ r w', act o a w = Ret (r, w').
Proof.
  intros HID Hmax Hb Hd Hreach Hk Hfresh.
  destruct (reachable_sys_inv q before brep drep offered redrive HID Hmax _ _
    (start_sys_inv offered redrive ticks b d HID Hmax Hb Hd) Hreach) as [Hinv Hps].
  rewrite Forall_lookup in Hps. destruct (Hps i _ Hk w (reflexivity w) Hinv) as [Hg _].
  destruct (act_safe q before brep drep offered redrive HID Hmax o a w Hinv Hg Hfresh)
    as (r & w' & Hact & _); [|by exists r, w'].
  intros Ha. eapply reaper_closes_once; [by eapply reachable_reaper_first|done|done].
Qed.

(** C4: deliveries are bounded. In every state reachable under any interleaving,
    [Redrive] included, a lease ever issued and every claim handed out are for an
    offered task with between 1 and [maxAttempts] deliveries, a waiting task has
    been delivered fewer than [maxAttempts] times, an outstanding lease is one
    that was issued, and the next action of every running method executes
    without a panic whatever the scheduler draws. *)
Theorem deliveries_are_bounded (offered : Task → Prop) redrive ticks (b : B) (d : D) w ps :
  (∀ t t', offered t → offered t' → ID t = ID t' → t = t') → 0 < maxAttempts q →
  brep b (Store [] ∅) → drep d ∅ →
  rtc (step q offered redrive) (start q ticks b d) (w, ps) →
  (∀ token t a, issued w !! token = Some (t, a) → offered t ∧ 1 ≤ a ≤ maxAttempts q) ∧
  (∀ i l settled, claims w !! i = Some (l, settled) →
     offered (lease_Task l) ∧ 1 ≤ Attempt l ≤ maxAttempts q) ∧
  (∃ s, brep (backend w) s ∧
     (∀ t a, (t, a) ∈ waiting s → 0 ≤ a < maxAttempts q) ∧
     (∀ token e, leased s !! token = Some e → issued w !! token = Some e.1)) ∧
  (∀ i R (a : action R) k o, ps !! i = Some (Do a k) →
     uuid (draw o) ∉ dom (issued w) → ∃ r w', act o a w = Ret (r, w')).
Proof.
  intros HID Hmax Hb Hd Hreach.
  destruct (reachable_sys_inv q before brep drep offered redrive HID Hmax _ _
    (start_sys_inv offered redrive ticks b d HID Hmax Hb Hd) Hreach) as [Hinv Hps].
  pose proof Hinv as (s & m & [? ? Hl Hw Hi ? Hc ?]). split_and!; [exact Hi| | |].
  - intros i l z Hz. apply Hc in Hz. by apply Hi in Hz.
  - exists s. split_and!; [done|intros t a Hin; by destruct (Hw t a Hin)|exact Hl].
  - intros i R a k o Hk Hfresh. by eapply reachable_no_panic.
Qed.
End Reachable.
