(* ===== verification/QueueClose.v ===== *)
(** * What [Close] waits for ([src/pkg/taskqueue/queue.go])

    A second instance of the rely-guarantee argument of [QueueSystem], about the control
    state: the flag [closed], the [sync.Once], the reaper's context and [reaperDone]. It
    assumes nothing of the stores. *)
From S2P Require Import Prelude Golang QueueTypes Queue QueueSystem.
Local Open Scope Z_scope.
Local Open Scope go_scope.

Section Control.
Context {B D : Type} `{!Backend B, !DeadLetter D} (q : Queue).
Context (offered : Task → Prop) (redrive : bool).
Implicit Type w : Queue.world B D.

(** The reaper's context is done. *)
Definition run_done w : Prop := ctx_done (ctx_of w runCtx) = true.

(** What the call of [Close] that ran found when it stopped waiting. *)
Definition waited (err : option error) w : Prop :=
  match err with None => reaperDone w = true | Some e => ∃ c, ctx_of w c = Some e end.

Record inv w : Prop := {
  inv_reaper : reaperDone w = true → run_done w;
  inv_once : closeOnce w = OnceDone → closed w = true ∧ run_done w ∧ waited (closeErr w) w;
}.

(** Done contexts, the flag, the channel and a finished [Once] stay as they are. *)
Record rely w w' : Prop := {
  rely_ctxs : ctxs w ⊆ ctxs w';
  rely_closed : closed w = true → closed w' = true;
  rely_reaper : reaperDone w = true → reaperDone w' = true;
  rely_once : closeOnce w = OnceDone → closeOnce w' = OnceDone;
}.

#[export] Instance rely_preorder : PreOrder rely.
Proof.
  split; [by split|]. intros w1 w2 w3 [] []. split; [by etrans|auto..].
Qed.

Definition guar {R} (a : action R) w : Prop :=
  match a with
  | CloseReaperDone | SelectReaperDone _ => run_done w
  | OnceReturn err => closed w = true ∧ run_done w ∧ waited err w
  | _ => True
  end.

Definition learns {R} (a : action R) (r : R) w' : Prop :=
  match a in action R return R → Prop with
  | StoreClosed => λ _, closed w' = true
  | OnceClose => λ first : bool, first = false → closeOnce w' = OnceDone
  | OnceReturn _ => λ _, closeOnce w' = OnceDone
  | CancelRun => λ _, run_done w'
  | SelectTimer c _ => λ err, ∀ e, err = Some e → ctx_of w' c = Some e
  | SelectReaperDone c => λ err,
      match err with None => reaperDone w' = true | Some e => ctx_of w' c = Some e end
  | _ => λ _, True
  end r.

Lemma ctx_rely w w' c e : rely w w' → ctx_of w c = Some e → ctx_of w' c = Some e.
Proof. intros [H _ _ _] Hc. unfold ctx_of in *. by eapply lookup_weaken. Qed.

Lemma run_done_rely w w' : rely w w' → run_done w → run_done w'.
Proof.
  unfold run_done. intros Hr. destruct (ctx_of w runCtx) as [e|] eqn:Hc; [|done].
  by rewrite (ctx_rely w w' _ e Hr Hc).
Qed.

Lemma waited_rely w w' err : rely w w' → waited err w → waited err w'.
Proof.
  intros Hr. destruct err as [e|]; cbn; [|by apply Hr].
  intros [c Hc]. exists c. by apply (ctx_rely w).
Qed.

(** Actions on the rest of the state. *)
Definition same w w' : Prop :=
  ctxs w' = ctxs w ∧ closed w' = closed w ∧ reaperDone w' = reaperDone w ∧
  closeOnce w' = closeOnce w ∧ closeErr w' = closeErr w.

Lemma control_same w w' : same w w' → inv w → inv w' ∧ rely w w'.
Proof.
  intros (Hc & Hcl & Hr & Ho & He) [H1 H2].
  assert (rely w w') as Hrely by (split; rewrite ?Hc, ?Hcl, ?Hr, ?Ho; done).
  split; [|done]. split; [rewrite Hr|rewrite Hcl, Ho, He].
  - intros H. by eapply run_done_rely, H1.
  - intros H. destruct (H2 H) as (? & ? & ?).
    split_and!; [done|by eapply run_done_rely|by eapply waited_rely].
Qed.

Lemma control_cancel c e w : inv w → inv (cancel_ctx c e w) ∧ rely w (cancel_ctx c e w).
Proof.
  intros [H1 H2]. assert (rely w (cancel_ctx c e w)) as Hr.
  { split; cbn; try done. destruct (ctxs w !! c) eqn:Hc; [done|by apply insert_subseteq]. }
  split; [|done]. split; cbn; intros H.
  - by apply (run_done_rely w), H1.
  - destruct (H2 H) as (? & ? & ?).
    split_and!; [done|by apply (run_done_rely w)|by apply (waited_rely w)].
Qed.

(** An action that leaves the control state alone. *)
Definition aside {R} (a : action R) : bool :=
  match a with
  | StoreClosed | OnceClose | OnceReturn _ | CancelRun | CloseReaperDone => false
  | _ => true
  end.

Lemma aside_same o {R} (a : action R) w r w' :
  aside a = true → act o a w = Ret (r, w') → same w w'.
Proof.
  destruct a; cbn; intros Ha; try done; try (by intros [= _ <-]);
    try (repeat (case_match; try done); by intros [= _ <-]).
  all: match goal with |- obind ?x _ = _ → _ => destruct x as [[? ?]|]; [|done] end; cbn;
    intros [= _ <-]; repeat case_match; done.
Qed.

Lemma control_keeps o R (a : action R) w :
  inv w → guar a w → uuid (draw o) ∉ dom (issued w) → enabled a w = true →
  keeps inv rely (@learns) o a w.
Proof.
  intros Hinv Hg _ Hen r w' Hact. destruct (aside a) eqn:Ha.
  - destruct (control_same w w') as [? ?]; [by eapply aside_same|done|]. split_and!; [done|done|].
    destruct a; try done; cbn in *; injection Hact as <- <-.
    + intros e He. by destruct (pick o).
    + destruct (reaperDone w) eqn:Hd; cbn in *; [destruct (pick o); [done|]|];
        by destruct (ctx_of w c).
  - destruct a; try done; cbn in *.
    + injection Hact as <- <-. destruct Hinv as [H1 H2].
      split_and!; [split; cbn; [done|]|by split|done].
      intros H. by destruct (H2 H) as (_ & ? & ?).
    + destruct Hinv as [H1 H2], (closeOnce w) eqn:Ho; try done; injection Hact as <- <-.
      * split_and!; [by split|by split; cbn; try done; rewrite Ho|done].
      * split_and!; [split; cbn; [done|rewrite Ho; auto]|by split; cbn|done].
    + injection Hact as <- <-. destruct Hinv as [H1 _], Hg as (? & ? & ?).
      split_and!; [by split|split; cbn; try done|done..].
    + injection Hact as <- <-. destruct (control_cancel runCtx Canceled w Hinv). split_and!; [done..|].
      apply cancel_ctx_done.
    + destruct (reaperDone w) eqn:Hd; [done|]. injection Hact as <- <-. destruct Hinv as [H1 H2].
      split_and!; [split; cbn; [done|]|by split|done].
      intros H. destruct (H2 H) as (? & ? & Hw). split_and!; [done..|]. by destruct (closeErr w).
Qed.

(** *** The methods *)
Abbreviation safe := (QueueSystem.safe inv rely (@guar)).

Definition plain {R} (a : action R) : bool :=
  match a with CloseReaperDone | SelectReaperDone _ | OnceReturn _ => false | _ => true end.

(** A method with no guarantee to meet. *)
Lemma plain_safe {A} (p : prog A) : ∀ w, performs (λ R a, plain a = true) p → safe p any w.
Proof.
  induction p as [a|R a k IH]; cbn [performs]; [done|]. intros w [Ha Hk] w1 _ _.
  split; [by destruct a|]. intros o r w2 _ _ _. by apply IH.
Qed.

Lemma control_Do {A R} (a : action R) (k : R → prog A) Q w :
  (∀ w1, rely w w1 → inv w1 → guar a w1) →
  (∀ r w1 w2, rely w w1 → rely w1 w2 → inv w2 → learns a r w2 → safe (k r) Q w2) →
  safe (Do a k) Q w.
Proof. apply (QueueSystem.rg_Do inv rely (@guar) (@learns) control_keeps). Qed.

(** What a caller of [Close] knows when it returns. *)
Definition close_post (c : nat) (err : option error) w : Prop :=
  closeOnce w = OnceDone ∧ ∀ e, err = Some e → ctx_of w c = Some e.

Ltac chain := repeat (etrans; [eassumption|]); (eassumption || reflexivity).

Lemma close_safe c w : safe (Close c) (close_post c) w.
Proof.
  apply control_Do; [done|]. intros [|] w1 w2 _ _ _ Ho.
  - apply control_Do; [done|]. intros [] w3 w4 _ _ _ Hcl.
    apply control_Do; [done|]. intros [] w5 w6 H5 H6 _ Hrun.
    apply control_Do; [intros w7 H7 _; by apply (run_done_rely w6)|]. intros err w7 w8 H7 H8 _ Herr.
    assert (rely w4 w8) as H48 by chain. assert (rely w6 w8) as H68 by chain.
    apply control_Do.
    + intros w9 H9 _. split_and!; [apply H9; by apply H48| |].
      * apply (run_done_rely w6); [chain|done].
      * apply (waited_rely w8); [done|]. destruct err; [by exists c|done].
    + intros [] w9 w10 H9 H10 _ Hdone w11 H11 _. split; [by apply H11|].
      intros e ->. apply (ctx_rely w8); [chain|done].
  - intros w3 H3 _. split; [apply H3; by apply Ho|done].
Qed.

Lemma reaper_done_ctx ticks : ∀ w, safe (reaper q ticks runCtx) (λ _, run_done) w.
Proof.
  induction ticks as [|ticks IH]; intros w; cbn [reaper].
  - intros w1 _ _. split; [done|]. done.
  - apply control_Do; [done|]. intros [e|] w1 w2 _ _ _ He.
    + intros w3 H3 _. apply (run_done_rely w2); [done|]. unfold run_done. by rewrite (He e).
    + apply (safe_bind inv rely (@guar)). eapply safe_mono; [|apply plain_safe].
      * intros; apply IH.
      * eapply performs_sub; [|apply sweep_sweeping]. by intros R [].
Qed.

Lemma control_reaper ticks w : safe (reaper_goroutine q ticks) any w.
Proof.
  apply (safe_bind inv rely (@guar)). eapply safe_mono; [|apply reaper_done_ctx].
  intros e w1 H1. apply control_Do; [|done]. intros w2 H2 _. by apply (run_done_rely w1).
Qed.

Lemma control_api w p : inv w → api q offered redrive w p → safe p any w.
Proof.
  intros _ [Hp|[c ->]]%api_methods.
  - apply plain_safe. eapply performs_sub; [|exact Hp]. intros R [] [? ?]; done.
  - eapply safe_mono; [|apply close_safe]. done.
Qed.

Lemma control_start ticks b d : sys_inv inv rely (@guar) (start q ticks b d).
Proof. split; [by split|]. apply Forall_singleton, control_reaper. Qed.

Lemma control_reachable ticks b d x :
  rtc (step q offered redrive) (start q ticks b d) x → sys_inv inv rely (@guar) x.
Proof.
  apply (QueueSystem.rg_reachable inv rely (@guar) (@learns) control_keeps q offered redrive
    control_api control_cancel), control_start.
Qed.

(** *** No lease expires once the reaper has returned *)
Lemma act_events o {R} (a : action R) w r w' :
  act o a w = Ret (r, w') → events w' = events w ++ match a with Event e => [e] | _ => [] end.
Proof.
  destruct a; cbn; rewrite ?app_nil_r; try (by intros [= _ <-]);
    try (repeat (case_match; try done); by intros [= _ <-]).
  all: match goal with |- obind ?x _ = _ → _ => destruct x as [[? ?]|]; [|done] end; cbn;
    intros [= _ <-]; repeat case_match; done.
Qed.

Definition quiet_since w w' : Prop :=
  ∃ es, events w' = events w ++ es ∧ ∀ l, OnLeaseExpired l ∉ es.

Lemma quiet_trans w1 w2 w3 : quiet_since w1 w2 → quiet_since w2 w3 → quiet_since w1 w3.
Proof.
  intros (es & He & Hes) (es' & He' & Hes'). exists (es ++ es').
  rewrite He', He, app_assoc. split; [done|]. intros l [?|?]%elem_of_app; naive_solver.
Qed.

Lemma quiet_refl w w' : events w' = events w → quiet_since w w'.
Proof.
  intros He. exists []. rewrite app_nil_r. split; [done|]. intros l H. by apply elem_of_nil in H.
Qed.

Lemma step_quiet x x' :
  reaper_first x → reaperDone x.1 = true → step q offered redrive x x' →
  reaperDone x'.1 = true ∧ quiet_since x.1 x'.1.
Proof.
  intros (p0 & ps0 & Hx & Hps & Hleft) Hd Hstep.
  destruct Hstep as [w ps p Hp|w ps c e|w ps i R a k o r w' Hi Hfresh Hen Hact]; cbn in *; subst ps.
  - split; [done|by apply quiet_refl].
  - split; [done|by apply quiet_refl].
  - split; [by rewrite (act_reaperDone _ _ _ _ _ Hact), Hd|]. rewrite Hd in Hleft.
    destruct Hleft as [r0 ->], i as [|i]; [done|]. cbn in Hi. rewrite Forall_lookup in Hps.
    destruct (Hps i _ Hi) as [Ha _]. eexists. split; [by eapply act_events|]. intros l.
    destruct a; try (by intros H%elem_of_nil). intros H%list_elem_of_singleton. by subst.
Qed.

Lemma steps_quiet x x' :
  reaper_first x → reaperDone x.1 = true → rtc (step q offered redrive) x x' →
  quiet_since x.1 x'.1.
Proof.
  intros Hx Hd Hrtc. revert Hx Hd. induction Hrtc as [x|x x1 x' Hstep _ IH]; intros Hx Hd.
  - by apply quiet_refl.
  - destruct (step_quiet x x1) as [Hd1 Hq]; [done..|].
    eapply quiet_trans; [exact Hq|]. apply IH; [by eapply reaper_first_step|done].
Qed.
End Control.

Section Closing.
Context {B D : Type} `{!Backend B, !DeadLetter D} (q : Queue).
Context (offered : Task → Prop) (redrive : bool).

Lemma close_returned ticks (b : B) (d : D) w ps c w' ps' err :
  rtc (step q offered redrive) (start q ticks b d) (w, ps) →
  rtc (step q offered redrive) (w, ps ++ [Close c]) (w', ps') →
  ps' !! length ps = Some (Return err) → inv w' ∧ close_post c err w'.
Proof.
  intros Hreach Hcall Hret.
  eapply (thread_returns inv rely (@guar B D) (@learns B D) control_keeps q offered redrive
    (control_api q offered redrive) control_cancel (w, ps ++ [Close c]) (w', ps') (length ps));
    [|done| |apply close_safe|done].
  - eapply control_reachable, rtc_r; [exact Hreach|]. constructor. constructor.
  - cbn. by rewrite lookup_app_r, Nat.sub_diag by lia.
Qed.

(** C29: what a call of [Close] waits for. In every interleaving, when a call of [Close]
    has returned, a call has run to its end, the queue is closed and the reaper's context
    is done; a non-nil result is the error of the caller's own context; and, unless the
    call that ran was cut short by its context, the reaper's goroutine has returned, and
    from then on, whatever the clients do, no lease expires. The stores are arbitrary. *)
Theorem close_waits_for_reaper ticks (b : B) (d : D) w ps c w' ps' err :
  rtc (step q offered redrive) (start q ticks b d) (w, ps) →
  rtc (step q offered redrive) (w, ps ++ [Close c]) (w', ps') →
  ps' !! length ps = Some (Return err) →
  closeOnce w' = OnceDone ∧ closed w' = true ∧ ctx_done (ctx_of w' runCtx) = true ∧
  (∀ e, err = Some e → ctx_of w' c = Some e) ∧
  (closeErr w' = None →
     (∃ r, ps' !! 0%nat = Some (Return r)) ∧
     ∀ w2 ps2, rtc (step q offered redrive) (w', ps') (w2, ps2) →
       ∃ es, events w2 = events w' ++ es ∧ ∀ l, OnLeaseExpired l ∉ es).
Proof.
  intros Hreach Hcall Hret.
  assert (rtc (step q offered redrive) (start q ticks b d) (w', ps')) as Hall.
  { etrans; [exact Hreach|]. eapply rtc_l; [|exact Hcall]. constructor. constructor. }
  destruct (close_returned ticks b d w ps c w' ps' err) as (Hinv & Ho & Herr); [done..|].
  destruct (inv_once _ Hinv Ho) as (? & ? & Hw). split_and!; [done..|]. intros He.
  rewrite He in Hw. cbn in Hw.
  pose proof (reachable_reaper_first _ _ _ _ _ _ _ Hall) as Hfirst.
  split; [|intros w2 ps2 Hrtc; by apply (steps_quiet q offered redrive (w', ps') (w2, ps2))].
  destruct Hfirst as (p0 & ps0 & Hx & _ & Hleft). cbn in *. rewrite Hw in Hleft.
  destruct Hleft as [r ->]. exists r. by rewrite Hx.
Qed.
End Closing.
