(* ===== verification/QueueProgress.v ===== *)
(** * [Close] can return ([src/pkg/taskqueue/queue.go])

    From any state in which a call of [Close] has started, the reaper and the calls of
    [Close] get that call to its end by themselves: no producer or consumer has to move,
    and no task has to be claimed or settled. *)
From S2P Require Import Prelude Golang QueueTypes Queue QueueSystem QueueSafety QueueClose.
Local Open Scope Z_scope.
Local Open Scope go_scope.

(** ** What is left of a call of [Close] *)

(** The action [CloseReaperDone] and those of the reaper's rounds. *)
Definition reaping R (a : action R) : Prop :=
  match a with
  | SelectTimer c _ => c = runCtx
  | CloseReaperDone | OutOfTicks => True
  | _ => sweeping R a
  end.

(** The actions inside the [Once], which its winner performs. *)
Definition after_once R (a : action R) : Prop :=
  match a with StoreClosed | CancelRun | SelectReaperDone _ | OnceReturn _ => True | _ => False end.

Definition is_once {R} (a : action R) : bool := match a with OnceClose => true | _ => false end.
Definition returning {R} (a : action R) : bool := match a with OnceReturn _ => true | _ => false end.

Definition wins {R} (a : action R) : R → bool :=
  match a with OnceClose => λ first, first | _ => λ _, false end.

Fixpoint ends_once {A} (p : prog A) : Prop :=
  match p with
  | Return _ => False
  | Do a k => if returning a then True else ∀ r, ends_once (k r)
  end.

Definition at_once {A} (p : prog A) : Prop :=
  match p with
  | Return _ => False
  | Do a k => is_once a = true ∧ ∀ r, performs after_once (k r) ∧ (wins a r = true → ends_once (k r))
  end.

(** The rest of a call of [Close], before or inside its [Once]. *)
Definition closer {A} (p : prog A) : Prop := at_once p ∨ performs after_once p.

Lemma Close_closer c : closer (Close c).
Proof.
  left. cbn. split; [done|]. intros [|]; cbn; [|done]. split; [|done].
  by repeat (split; [done|]; intros ?).
Qed.

Lemma closer_next {R A} (a : action R) (k : R → prog A) r : closer (Do a k) → closer (k r).
Proof. intros [[_ Hk]|[_ Hk]]; right; [apply Hk|done]. Qed.

(** The reaper stops at its next select, when its context is done: none of the rounds
    the model gives it has to be its last before that. *)
Definition stops {R} (a : action R) (r : R) : Prop :=
  match a in action R return R → Prop with SelectTimer _ _ => λ err, err ≠ None | _ => λ _, True end r.
Definition out_of_ticks {R} (a : action R) : bool :=
  match a with OutOfTicks => true | _ => false end.

Fixpoint can_stop {A} (p : prog A) : Prop :=
  match p with
  | Return _ => True
  | Do a k => out_of_ticks a = false ∧ ∀ r, stops a r → can_stop (k r)
  end.

Lemma reaper_can_stop q ticks : can_stop (reaper_goroutine q (S ticks)).
Proof. cbn. split; [done|]. intros [e|]; [|done]. intros _. cbn. by split. Qed.

Section Progress.
Context {B D : Type} `{!Backend B, !DeadLetter D} (q : Queue).
Context (before : Task → Task → bool) (brep : B → store → Prop) (drep : D → gmap Z DeadTask → Prop).
Context `{!BackendLaws before brep, !DeadLetterLaws drep}.
Context (offered : Task → Prop) (redrive : bool) (ticks : nat) (b : B) (d : D).
Hypothesis ID_unique : ∀ t t', offered t → offered t' → ID t = ID t' → t = t'.
Hypothesis attempts_positive : 0 < maxAttempts q.
Hypothesis empty_backend : brep b (Store [] ∅).
Hypothesis empty_deadLetter : drep d ∅.

Abbreviation world := (Queue.world B D).
Implicit Types (w : world) (ps : threads).

Abbreviation steps := (rtc (step q offered redrive)).
Definition reachable (x : world * threads) : Prop := steps (start q ticks b d) x.

(** A step of the reaper or of a call of [Close]. *)
Definition solo (x x' : world * threads) : Prop :=
  ∃ i R (a : action R) k o r,
    x.2 !! i = Some (Do a k) ∧ (i = 0%nat ∨ closer (Do a k)) ∧
    uuid (draw o) ∉ dom (issued x.1) ∧ enabled a x.1 = true ∧
    act o a x.1 = Ret (r, x'.1) ∧ x'.2 = <[i := k r]> x.2.

Lemma solo_step x x' : solo x x' → step q offered redrive x x'.
Proof.
  destruct x as [w ps], x' as [w' ps']. intros (i & R & a & k & o & r & Hi & _ & Hf & He & Ha & Hp).
  cbn in *. subst ps'. by eapply step_act.
Qed.

Lemma solo_reachable x x' : reachable x → rtc solo x x' → reachable x'.
Proof.
  intros Hx Hrtc. unfold reachable in *. etrans; [exact Hx|].
  eapply rtc_subrel; [|exact Hrtc]. by apply solo_step.
Qed.

Lemma reachable_control x : reachable x → sys_inv QueueClose.inv QueueClose.rely (@QueueClose.guar B D) x.
Proof. apply control_reachable. Qed.

Lemma solo_rely x x' : reachable x → rtc solo x x' → QueueClose.rely x.1 x'.1.
Proof.
  intros Hx Hrtc. revert Hx. induction Hrtc as [x|x x1 x' Hs _ IH]; intros Hx; [reflexivity|].
  etrans; [|apply IH; eapply solo_reachable; [done|by apply rtc_once]].
  apply (QueueSystem.rg_step QueueClose.inv QueueClose.rely (@QueueClose.guar B D) (@QueueClose.learns B D)
    control_keeps q offered redrive (control_api q offered redrive) control_cancel x x1);
    [by apply reachable_control|by apply solo_step].
Qed.
(** ** Who holds the [Once] *)
Definition once_inv (x : world * threads) : Prop :=
  ∃ p0 ps, x.2 = p0 :: ps ∧ performs reaping p0 ∧
    Forall (λ p, performs method p ∨ closer p) ps ∧
    (closeOnce x.1 = OnceRunning → ∃ j p, ps !! j = Some p ∧ performs after_once p ∧ ends_once p).

Lemma act_closeOnce o {R} (a : action R) w r w' :
  act o a w = Ret (r, w') →
  closeOnce w' =
    if wins a r then OnceRunning else if returning a then OnceDone else closeOnce w.
Proof.
  destruct a; cbn; try (by intros [= _ <-]);
    try (destruct (closeOnce w) eqn:E; intros [= <- <-]; cbn; congruence);
    try (repeat (case_match; try done); by intros [= _ <-]).
  all: match goal with |- obind ?x _ = _ → _ => destruct x as [[? ?]|]; [|done] end; cbn;
    intros [= <- <-]; repeat case_match; done.
Qed.

Lemma api_closer w p : api q offered redrive w p → performs method p ∨ closer p.
Proof. intros [?|[c ->]]%api_methods; [by left|right; apply Close_closer]. Qed.

(** The thread inside the [Once] is the one that won it, until it returns from it. *)
Lemma runner_next ps i {R} (a : action R) k r (w : world) :
  ps !! i = Some (Do a k) → performs method (Do a k) ∨ closer (Do a k) →
  (closeOnce w = OnceRunning → ∃ j p, ps !! j = Some p ∧ performs after_once p ∧ ends_once p) →
  (if wins a r then OnceRunning else if returning a then OnceDone else closeOnce w) = OnceRunning →
  ∃ j p, <[i := k r]> ps !! j = Some p ∧ performs after_once p ∧ ends_once p.
Proof.
  intros Hi Hp Hrun. pose proof (lookup_lt_Some _ _ _ Hi) as Hlt. destruct (wins a r) eqn:Hw; intros H.
  - destruct Hp as [[[_ Ha] _]|[[_ Hk]|[Ha _]]]; [by destruct a| |by destruct a].
    exists i, (k r). rewrite list_lookup_insert_eq by done. split; [done|]. destruct (Hk r). auto.
  - destruct (returning a) eqn:Ha; [done|]. destruct (Hrun H) as (j & p & Hj & Hperf & Hends).
    destruct (decide (j = i)) as [->|Hne].
    + assert (p = Do a k) as -> by congruence. cbn in Hperf, Hends. rewrite Ha in Hends.
      exists i, (k r). rewrite list_lookup_insert_eq by done. split; [done|]. split; [apply Hperf|apply Hends].
    + exists j, p. by rewrite list_lookup_insert_ne.
Qed.

Lemma once_inv_step x x' : step q offered redrive x x' → once_inv x → once_inv x'.
Proof.
  intros Hstep (p0 & ps0 & Hx & Hp0 & Hps & Hrun).
  destruct Hstep as [w ps p Hp|w ps c e|w ps i R a k o r w' Hi Hfresh Hen Hact]; cbn in *; subst ps.
  - exists p0, (ps0 ++ [p]). split_and!; [done|done| |].
    + apply Forall_app. split; [done|]. apply Forall_singleton. by eapply api_closer.
    + intros H. destruct (Hrun H) as (j & p' & Hj & ?). exists j, p'. split; [by apply lookup_app_l_Some|done].
  - by exists p0, ps0.
  - apply act_closeOnce in Hact. destruct i as [|i]; cbn in *.
    + injection Hi as ->. destruct Hp0 as [Ha Hk]. exists (k r), ps0. split_and!; [done|done|done|].
      cbn. rewrite Hact. clear -Ha Hrun. by destruct a.
    + rewrite Forall_lookup in Hps. pose proof (Hps i _ Hi) as Hp. exists p0, (<[i := k r]> ps0).
      split_and!; [done|done| |].
      * apply Forall_insert; [by apply Forall_lookup|].
        destruct Hp as [[_ Hk]|Hc]; [left; apply Hk|right; by eapply closer_next].
      * cbn. rewrite Hact. by eapply runner_next.
Qed.

Lemma reachable_once x : reachable x → once_inv x.
Proof.
  intros Hx. eapply (rtc_preserves _ once_inv); [intros; by eapply once_inv_step|exact Hx|].
  exists (reaper_goroutine q ticks), []. split_and!; [done| |done|done].
  apply performs_bind; [|done]. induction ticks as [|n IH]; cbn [reaper performs]; [done|].
  split; [done|]. intros [e|]; [done|]. apply performs_bind; [|done].
  eapply performs_sub; [|apply sweep_sweeping]. by intros R [].
Qed.

(** ** The threads move on *)

(** An action that is not blocked runs, whichever case its select takes. *)
Lemma advance_solo w ps i R (a : action R) k pk :
  reachable (w, ps) → ps !! i = Some (Do a k) → i = 0%nat ∨ closer (Do a k) → enabled a w = true →
  ∃ o r w', pick o = pk ∧ act o a w = Ret (r, w') ∧ solo (w, ps) (w', <[i := k r]> ps) ∧
    reachable (w', <[i := k r]> ps).
Proof.
  intros Hreach Hi Hc Hen.
  set (o := Oracle (Chance (fresh (dom (issued w))) (λ _ l, l) (λ _ l, reflexivity l)) 0 pk).
  assert (uuid (draw o) ∉ dom (issued w)) as Hf by apply is_fresh.
  destruct (reachable_no_panic q before brep drep offered redrive ticks b d w ps i R a k o)
    as (r & w' & Hact); [done..|].
  assert (solo (w, ps) (w', <[i := k r]> ps)) as Hs by (exists i, R, a, k, o, r; done).
  exists o, r, w'. split_and!; [done..|]. by eapply solo_reachable; [|apply rtc_once].
Qed.

Lemma reaping_enabled R (a : action R) w : reaping R a → out_of_ticks a = false → enabled a w = true.
Proof. by destruct a. Qed.

Lemma reaper_finishes p : ∀ w ps,
  reachable (w, ps) → run_done w → ps !! 0%nat = Some p → can_stop p →
  ∃ w' ps', rtc solo (w, ps) (w', ps') ∧ reaperDone w' = true ∧ (∀ i, i ≠ 0%nat → ps' !! i = ps !! i).
Proof.
  induction p as [r|R a k IH]; intros w ps Hreach Hrun H0 Hstop.
  - exists w, ps. split_and!; [done| |done].
    destruct (reachable_reaper_first _ _ _ _ _ _ _ Hreach) as (p0 & ps0 & Hx & _ & Hleft).
    cbn in *. subst ps. injection H0 as ->. by destruct (reaperDone w).
  - destruct Hstop as [Hout Hstop].
    destruct (reachable_once _ Hreach) as (p0 & ps0 & Hx & Hp0 & _). cbn in Hx. subst ps.
    injection H0 as ->. destruct Hp0 as [Ha _].
    destruct (advance_solo w (Do a k :: ps0) 0 R a k false) as (o & r & w' & Hpick & Hact & Hs & Hreach');
      [done|done|by left|by apply reaping_enabled|].
    destruct (IH r w' (k r :: ps0)) as (w2 & ps2 & Hrtc & Hd & Hps); [done| |done| |].
    + eapply run_done_rely; [|exact Hrun]. apply (solo_rely (w, Do a k :: ps0) (w', k r :: ps0)); [done|].
      by apply rtc_once.
    + apply Hstop. clear -Ha Hact Hrun Hpick. destruct a; try done. cbn in *. injection Hact as <- <-.
      subst. rewrite Hpick. unfold run_done in Hrun. by destruct (ctx_of w runCtx).
    + exists w2, ps2. split_and!; [by eapply rtc_l|done|]. intros i Hi. rewrite Hps by done. by destruct i.
Qed.

(** Once [reaperDone] is closed the reaper has returned. *)
Lemma reaper_returned w ps : reachable (w, ps) → reaperDone w = true → ∃ r, ps !! 0%nat = Some (Return r).
Proof.
  intros Hreach Hd. destruct (reachable_reaper_first _ _ _ _ _ _ _ Hreach) as (p0 & ps0 & Hx & _ & Hleft).
  cbn in *. subst ps. rewrite Hd in Hleft. destruct Hleft as [r ->]. by exists r.
Qed.

Definition reaper_stops ps : Prop := ∃ p0, ps !! 0%nat = Some p0 ∧ can_stop p0.

(** The state in which the next action of a call inside its [Once] runs. *)
Lemma after_once_enabled w ps j R (a : action R) k :
  reachable (w, ps) → j ≠ 0%nat → ps !! j = Some (Do a k) → after_once R a → reaper_stops ps →
  ∃ w' ps', rtc solo (w, ps) (w', ps') ∧ enabled a w' = true ∧ reaper_stops ps' ∧
    (∀ i, i ≠ 0%nat → ps' !! i = ps !! i).
Proof.
  intros Hreach Hj0 Hj Ha Hstop.
  assert ((∃ c, ∀ w', enabled a w' = reaperDone w' || ctx_done (ctx_of w' c)) ∧
    (QueueClose.guar a w → run_done w) ∨ enabled a w = true) as [[[c Hen] Hg]|Hen]
    by (destruct a; try done; eauto); [|by exists w, ps].
  assert (run_done w) as Hrun.
  { destruct (reachable_control _ Hreach) as [Hinv Hsafe]. rewrite Forall_lookup in Hsafe.
    apply Hg, (Hsafe j _ Hj w (reflexivity w) Hinv). }
  destruct Hstop as (p0 & H0 & Hstop).
  destruct (reaper_finishes p0 w ps Hreach Hrun H0 Hstop) as (w' & ps' & Hrtc & Hd & Hps).
  exists w', ps'. split_and!; [done|by rewrite Hen, Hd| |done].
  destruct (reaper_returned w' ps') as [r Hr]; [by eapply solo_reachable|done|]. by exists (Return r).
Qed.

Lemma runner_finishes p : ∀ w ps j,
  reachable (w, ps) → j ≠ 0%nat → ps !! j = Some p → performs after_once p → reaper_stops ps →
  ∃ w' ps' r, rtc solo (w, ps) (w', ps') ∧ ps' !! j = Some (Return r) ∧ reaper_stops ps' ∧
    (∀ i, i ≠ 0%nat → i ≠ j → ps' !! i = ps !! i) ∧ (ends_once p → closeOnce w' = OnceDone).
Proof.
  induction p as [r|R a k IH]; intros w ps j Hreach Hj0 Hj Hp Hstop; [by exists w, ps, r|].
  destruct Hp as [Ha Hk].
  destruct (after_once_enabled w ps j R a k) as (w1 & ps1 & H1 & Hen & Hstop1 & Hps1); [done..|].
  assert (reachable (w1, ps1)) as Hreach1 by by eapply solo_reachable. rewrite <- Hps1 in Hj by done.
  destruct (advance_solo w1 ps1 j R a k true) as (o & r & w2 & _ & Hact & H2 & Hreach2);
    [done|done|by right; right|done|].
  destruct (IH r w2 (<[j := k r]> ps1) j) as (w3 & ps3 & r3 & H3 & Hr & Hstop3 & Hps3 & Hends);
    [done|done| |done| |].
  - apply list_lookup_insert_eq. by eapply lookup_lt_Some.
  - destruct Hstop1 as (p0 & ? & ?). exists p0. by rewrite list_lookup_insert_ne.
  - exists w3, ps3, r3. split_and!; [etrans; [done|by eapply rtc_l]|done|done| |].
    + intros i Hi0 Hij. rewrite Hps3, list_lookup_insert_ne by done. by apply Hps1.
    + cbn. destruct (returning a) eqn:Hret; [intros _|by auto].
      apply (rely_once _ _ (solo_rely _ _ Hreach2 H3)). cbn. rewrite (act_closeOnce _ _ _ _ _ Hact), Hret.
      by destruct a.
Qed.
(** A call of [Close] that the [Once] does not block, to its end. *)
Lemma free_closer_finishes p w ps j :
  reachable (w, ps) → j ≠ 0%nat → ps !! j = Some p → closer p → closeOnce w ≠ OnceRunning → reaper_stops ps →
  ∃ w' ps' r, rtc solo (w, ps) (w', ps') ∧ ps' !! j = Some (Return r).
Proof.
  intros Hreach Hj0 Hj [Hp|Hp] Hfree Hstop.
  - destruct p as [|R a k]; [done|]. destruct Hp as [Ha Hk].
    destruct (advance_solo w ps j R a k true) as (o & r & w1 & _ & Hact & H1 & Hreach1);
      [done|done|by right; left| |].
    { destruct a; try done. cbn. by destruct (closeOnce w). }
    destruct (runner_finishes (k r) w1 (<[j := k r]> ps) j) as (w2 & ps2 & r2 & H2 & Hr & _);
      [done|done| |apply Hk| |].
    + apply list_lookup_insert_eq. by eapply lookup_lt_Some.
    + destruct Hstop as (p0 & ? & ?). exists p0. by rewrite list_lookup_insert_ne.
    + exists w2, ps2, r2. split; [by eapply rtc_l|done].
  - destruct (runner_finishes p w ps j) as (w2 & ps2 & r2 & H2 & Hr & _); [done..|]. by exists w2, ps2, r2.
Qed.

Lemma closer_finishes p w ps j :
  reachable (w, ps) → j ≠ 0%nat → ps !! j = Some p → closer p → reaper_stops ps →
  ∃ w' ps' r, rtc solo (w, ps) (w', ps') ∧ ps' !! j = Some (Return r).
Proof.
  intros Hreach Hj0 Hj Hp Hstop.
  assert (closeOnce w = OnceRunning ∨ closeOnce w ≠ OnceRunning) as [Hrun|]
    by (destruct (closeOnce w); auto); [|by eapply free_closer_finishes].
  destruct (reachable_once _ Hreach) as (p0 & ps0 & Hx & _ & _ & Hinv). cbn in *.
  destruct (Hinv Hrun) as (i & pi & Hi & Hperf & Hends).
  assert (ps !! S i = Some pi) as HSi by (by subst ps).
  destruct (runner_finishes pi w ps (S i)) as (w1 & ps1 & r1 & H1 & Hr1 & Hstop1 & Hps1 & Hdone);
    [done|done|done|done|done|].
  destruct (decide (j = S i)) as [->|Hne]; [by exists w1, ps1, r1|].
  destruct (free_closer_finishes p w1 ps1 j) as (w2 & ps2 & r2 & H2 & Hr2);
    [by eapply solo_reachable|done|by rewrite Hps1|done|by rewrite Hdone|done|].
  exists w2, ps2, r2. split; [by etrans|done].
Qed.

(** A call of [Close] stays one. *)
Lemma closer_stays j x x' :
  step q offered redrive x x' → (∃ p, x.2 !! j = Some p ∧ closer p) → ∃ p, x'.2 !! j = Some p ∧ closer p.
Proof.
  intros Hstep (p & Hj & Hp).
  destruct Hstep as [w ps p1 Hp1|w ps c e|w ps i R a k o r w' Hi Hfresh Hen Hact]; cbn in *.
  - exists p. split; [by apply lookup_app_l_Some|done].
  - by exists p.
  - destruct (decide (i = j)) as [->|Hne].
    + assert (p = Do a k) as -> by congruence. exists (k r).
      rewrite list_lookup_insert_eq by by eapply lookup_lt_Some. split; [done|by eapply closer_next].
    + exists p. by rewrite list_lookup_insert_ne.
Qed.
End Progress.

Section Closes.
Context {B D : Type} `{!Backend B, !DeadLetter D} (q : Queue).
Context (before : Task → Task → bool) (brep : B → store → Prop) (drep : D → gmap Z DeadTask → Prop).
Context `{!BackendLaws before brep, !DeadLetterLaws drep}.

(** C13: [Close] cannot be kept from returning. From every state that the system reaches,
    under any interleaving, after a call of [Close], some steps of the reaper and of the
    calls of [Close], and of no other thread, bring the call to its return: no producer or
    consumer has to act, and no lease has to be settled. [can_stop] says that the model's
    bound on the reaper's rounds is not used up. *)
Theorem close_can_return (offered : Task → Prop) redrive ticks (b : B) (d : D) w ps c w' ps' p0 :
  (∀ t t', offered t → offered t' → ID t = ID t' → t = t') → 0 < maxAttempts q →
  brep b (Store [] ∅) → drep d ∅ →
  rtc (step q offered redrive) (start q ticks b d) (w, ps) →
  rtc (step q offered redrive) (w, ps ++ [Close c]) (w', ps') →
  ps' !! 0%nat = Some p0 → can_stop p0 →
  ∃ w2 ps2 err, rtc solo (w', ps') (w2, ps2) ∧ ps2 !! length ps = Some (Return err) ∧ closed w2 = true.
Proof.
  intros HID Hmax Hb Hd Hreach Hcall H0 Hstop.
  assert (rtc (step q offered redrive) (start q ticks b d) (w', ps')) as Hall.
  { etrans; [exact Hreach|]. eapply rtc_l; [|exact Hcall]. constructor. constructor. }
  destruct (reachable_reaper_first _ _ _ _ _ _ _ Hreach) as (pr & ps0 & Hx & _). cbn in Hx.
  assert (∃ p, ps' !! length ps = Some p ∧ closer p) as (p & Hj & Hp).
  { refine (rtc_preserves (step q offered redrive) (λ x, ∃ p, x.2 !! length ps = Some p ∧ closer p)
      _ _ _ Hcall _); [intros; by eapply closer_stays|]. exists (Close c). split; [|apply Close_closer].
    cbn. by rewrite lookup_app_r, Nat.sub_diag by lia. }
  assert (reaper_stops ps') as Hs by by exists p0.
  destruct (closer_finishes q before brep drep offered redrive ticks b d HID Hmax Hb Hd p w' ps' (length ps))
    as (w2 & ps2 & err & Hrtc & Hret); [done|by rewrite Hx|done..|].
  exists w2, ps2, err. split_and!; [done|done|].
  destruct (close_returned q offered redrive ticks b d w ps c w2 ps2 err) as (Hinv & Ho & _);
    [done| |done|by apply (inv_once _ Hinv Ho)].
  etrans; [exact Hcall|]. eapply rtc_subrel; [|exact Hrtc]. by apply solo_step.
Qed.
End Closes.
