(* ===== verification/QueueRaces.v ===== *)
(** * Runs of the queue over the in-memory stores ([src/pkg/taskqueue])

    Concrete executions of the whole queue: what each theorem of [Queue] and
    [QueueSafety] says at one input, and two interleavings that show the limits of
    what the queue guarantees. *)
From S2P Require Import Prelude Golang QueueTypes MemoryBackend DeadLetter Queue QueueSystem QueueSafety QueueClose QueueProgress.
Local Open Scope Z_scope.

Abbreviation mem_world := (Queue.world MemoryBackend MemoryDeadLetter).

Definition dead_rep : MemoryDeadLetter → gmap Z DeadTask → Prop := λ d m, tasks d = m.

(** A queue whose tasks are dead-lettered on their [n]-th failure. *)
Definition queue_of (n : Z) : Queue := MkQueue n ModePriority (30 * Second) (5 * Second).

Definition mem_initial : mem_world :=
  initial (NewMemoryBackend ModePriority) NewMemoryDeadLetter.

(** The queue [New] starts, its reaper ticking [ticks] times at most. *)
Definition mem_start (n : Z) (ticks : nat) : mem_world * threads :=
  start (queue_of n) ticks (NewMemoryBackend ModePriority) NewMemoryDeadLetter.

Definition at_time (token : string) (t : Z) : oracle := Oracle (chance_of token) t true.

(** [n] actions of thread [i], token [tok] being drawn, at time [t]. *)
Definition acts (n i : nat) (tok : string) (t : Z) : list move :=
  replicate n (Act i (at_time tok t)).

Definition finished (p : prog (option error)) : bool :=
  match p with Return _ => true | Do _ _ => false end.

Definition the_task : Task := MkTask 7 1 1 PriorityNormal.

(** Only [the_task] is submitted. *)
Definition just_one : Task → Prop := λ t, t = the_task.

Lemma just_one_ID t t' : just_one t → just_one t' → ID t = ID t' → t = t'.
Proof. by intros -> ->. Qed.

(** [Redrive] enqueues the task it found and removes the dead-letter entry
    afterwards; in between, another consumer claims the task and fails it. *)
Definition redrive_schedule : list move :=
  [Call (ReqEnqueue 1 (Some the_task))] ++ acts 4 1 "" 0 ++
  [Call (ReqDequeue 1 1 0)] ++ acts 4 2 "a" 1 ++ acts 2 2 "" 1 ++
  [Call (ReqNack 1 0 None)] ++ acts 5 3 "" 2 ++
  [Call (ReqRedrive 1 1)] ++ acts 4 4 "" 3 ++
  [Call (ReqDequeue 1 1 0)] ++ acts 4 5 "b" 4 ++ acts 2 5 "" 4 ++
  [Call (ReqNack 1 1 None)] ++ acts 5 6 "" 5 ++
  acts 2 4 "" 6.

(** C32: [Redrive] racing with a consumer loses the task. From an empty queue
    dead-lettering on the first failure, an interleaving of one producer, two
    consumers and one [Redrive] ends with every call returned and the accepted task
    nowhere: not waiting, not leased, not in the dead-letter store, and never
    acknowledged (the guarantee [queue_keeps_every_task] gives without [Redrive]). *)
Theorem redrive_race_loses_task :
  ∃ (w : mem_world) ps,
    rtc (step (queue_of 1) just_one true) (mem_start 1 0) (w, ps) ∧
    the_task ∈ stored w ∧ forallb finished (tail ps) = true ∧
    items (ready (backend w)) = [] ∧ leases (backend w) = ∅ ∧
    tasks (deadLetter w) = ∅ ∧ acked w = ∅.
Proof.
  destruct (schedule_reaches (queue_of 1) just_one true
    (λ x : mem_world * _, bool_decide (the_task ∈ stored x.1 ∧ forallb finished (tail x.2) = true ∧
       length (items (ready (backend x.1))) = 0%nat ∧ size (leases (backend x.1)) = 0%nat ∧
       size (tasks (deadLetter x.1)) = 0%nat ∧ size (acked x.1) = 0%nat))
    redrive_schedule (mem_start 1 0)) as (w & ps & Hreach & Hend).
  - repeat constructor.
  - vm_compute. reflexivity.
  - apply bool_decide_eq_true in Hend as (? & ? & ?%nil_length_inv & ?%map_size_empty_inv &
      ?%map_size_empty_inv & ?%size_empty_inv).
    exists w, ps. split_and!; [done..|by apply leibniz_equiv].
Qed.

(** The reaper lists an expired lease, the consumer acknowledges it, and the
    reaper, already past its check, dead-letters the task. *)
Definition reaper_schedule : list move :=
  [Call (ReqEnqueue 1 (Some the_task))] ++ acts 4 1 "" 0 ++
  [Call (ReqDequeue 1 1 0)] ++ acts 4 2 "a" 0 ++ acts 2 2 "" 0 ++
  acts 3 0 "" (31 * Second) ++
  [Call (ReqAck 1 0)] ++ acts 3 3 "" (31 * Second) ++
  acts 4 0 "" (32 * Second).

(** C33: an acknowledged task can be dead-lettered. From an empty queue
    dead-lettering on the first failure, the reaper racing with the consumer that
    acknowledges its expired lease ends with every call returned, the task
    acknowledged under its only token and also in the dead-letter store. *)
Theorem reaper_race_dead_letters_acked_task :
  ∃ (w : mem_world) ps,
    rtc (step (queue_of 1) just_one false) (mem_start 1 1) (w, ps) ∧
    forallb finished (tail ps) = true ∧ issued w = {["a" := (the_task, 1)]} ∧ acked w = {["a"]} ∧
    dead_Task <$> tasks (deadLetter w) !! ID the_task = Some the_task.
Proof.
  destruct (schedule_reaches (queue_of 1) just_one false
    (λ x : mem_world * _, bool_decide (forallb finished (tail x.2) = true ∧
       issued x.1 = {["a" := (the_task, 1)]} ∧ acked x.1 = {["a"]} ∧
       dead_Task <$> tasks (deadLetter x.1) !! ID the_task = Some the_task))
    reaper_schedule (mem_start 1 1)) as (w & ps & Hreach & Hend).
  - repeat constructor.
  - vm_compute. reflexivity.
  - apply bool_decide_eq_true in Hend. by exists w, ps.
Qed.

(** ** The theorems of [Queue] at concrete states *)

Definition lease_a : Lease := MkLease "a" the_task 1 (30 * Second).

(** One lease, on the first delivery, and its unsettled claim. *)
Definition leased_backend : MemoryBackend :=
  MkBackend (MkHeap [] ModePriority) {["a" := MkEntry (MkItem the_task 1 (-1)) (30 * Second)]}.
Definition leased_store : store := Store [] {["a" := (the_task, 1, 30 * Second)]}.
Definition claimed (cs : gmap nat error) : mem_world :=
  World leased_backend NewMemoryDeadLetter false OnceFree false [(lease_a, false)] cs []
    {["a" := (the_task, 1)]} ∅ [the_task] None.

Lemma leased_backend_rep : backend_rep ModePriority leased_backend leased_store.
Proof.
  exists []. split_and!; [done|intros k Hk; cbn in Hk; lia|done|].
  unfold leased_backend. cbn. by rewrite map_fmap_singleton.
Qed.

Definition live_ctxs : gmap nat error := ∅.
Definition canceled_ctxs : gmap nat error := {[1%nat := Canceled]}.

Lemma claimed_rep cs :
  world_rep (backend_rep ModePriority) dead_rep (claimed cs) leased_store ∅.
Proof. split; [apply leased_backend_rep|done]. Qed.

(** One task waiting. *)
Definition waiting_world : mem_world :=
  World (MkBackend (MkHeap [MkItem the_task 0 0] ModePriority) ∅) NewMemoryDeadLetter
    false OnceFree false [] ∅ [] ∅ ∅ [the_task] None.

Lemma waiting_rep :
  world_rep (backend_rep ModePriority) dead_rep waiting_world (Store [(the_task, 0)] ∅) ∅.
Proof.
  split; [|done]. exists [(the_task, 0)]. split_and!.
  - split_and!; [done|done|]. intros [|i] it; cbn; [by intros [= <-]|done].
  - intros k Hk. cbn in Hk. lia.
  - done.
  - apply fmap_empty.
Qed.

Lemma empty_rep : world_rep (backend_rep ModePriority) dead_rep mem_initial (Store [] ∅) ∅.
Proof. split; [apply NewMemoryBackend_rep|done]. Qed.

Definition still : nat → oracle := λ _, at_time "b" 0.

(** The first failure of a task under a ceiling of 2 requeues it. *)
Lemma nack_applies_policy_witness :
  ∃ w', run (Claim_Nack (queue_of 2) 1 (MkClaim 0 lease_a) None) still (claimed live_ctxs) = Ret (None, w') ∧
    world_rep (backend_rep ModePriority) dead_rep w' (Store [(the_task, 1)] (delete "a" {["a" := (the_task, 1, 30 * Second)]})) ∅.
Proof.
  destruct (nack_applies_policy (task_less ModePriority) (backend_rep ModePriority) dead_rep
    (queue_of 2) 1 (MkClaim 0 lease_a) None still (claimed live_ctxs) leased_store ∅ (30 * Second)
    (claimed_rep live_ctxs) ltac:(reflexivity) ltac:(reflexivity) ltac:(reflexivity)) as (w' & Hrun & _ & Hrep & _).
  exists w'. split; [exact Hrun|exact Hrep].
Defined.

Lemma settled_claim_is_inert_witness :
  run (Claim_Ack 1 (MkClaim 0 lease_a)) still
    (set_claims [(lease_a, true)] (claimed live_ctxs)) =
  Ret (Some ErrClaimSettled, set_claims [(lease_a, true)] (claimed live_ctxs)).
Proof.
  apply (settled_claim_is_inert (queue_of 2) 1 (MkClaim 0 lease_a) None still
    (set_claims [(lease_a, true)] (claimed live_ctxs))). reflexivity.
Defined.

(** The consumer's context was canceled while it held the claim. *)
Lemma nack_under_done_ctx_keeps_lease_witness :
  ∃ w', run (Claim_Nack (queue_of 2) 1 (MkClaim 0 lease_a) None) still (claimed canceled_ctxs) =
          Ret (Some Canceled, w') ∧
        world_rep (backend_rep ModePriority) dead_rep w' leased_store ∅.
Proof.
  destruct (nack_under_done_ctx_keeps_lease (task_less ModePriority) (backend_rep ModePriority)
    dead_rep (queue_of 2) 1 (MkClaim 0 lease_a) None still (claimed canceled_ctxs)
    leased_store ∅ Canceled (claimed_rep _) ltac:(reflexivity) ltac:(reflexivity)) as (w' & Hrun & _ & Hrep).
  exists w'. split; [exact Hrun|exact Hrep].
Defined.

(** A clock that moves at every action. *)
Definition ticking (i : nat) : oracle :=
  Oracle (draw (still i)) (Z.of_nat i) (pick (still i)).

(** A waiting task is claimed; an empty queue is polled at 4, 8 and 12 until 1 + 10. *)
Lemma dequeue_claims_or_times_out_witness :
  (∃ l w', run (Dequeue (queue_of 2) 1 1 0) still waiting_world = Ret (inl (MkClaim 0 l), w') ∧
           Token l = "b" ∧ Attempt l = 1) ∧
  run (Dequeue (queue_of 2) 2 1 10) ticking mem_initial = Ret (inr None, mem_initial) ∧
  run (Dequeue (queue_of 2) 3 1 10) ticking mem_initial = Ret (inr (Some ErrQueueEmpty), mem_initial).
Proof.
  split.
  - destruct (dequeue_claims_or_times_out (task_less ModePriority) (backend_rep ModePriority)
      dead_rep (queue_of 2) 1 0 still waiting_world _ _ waiting_rep ltac:(reflexivity) ltac:(reflexivity)) as [H _].
    destruct (H ltac:(done) 0%nat) as (t & a & rest & w' & Hrun & Hperm & _).
    eexists _, w'. split; [exact Hrun|]. split; [reflexivity|]. cbn.
    apply Permutation_singleton_l in Hperm. injection Hperm as _ <- _. reflexivity.
  - destruct (dequeue_claims_or_times_out (task_less ModePriority) (backend_rep ModePriority)
      dead_rep (queue_of 2) 1 10 ticking mem_initial _ _ empty_rep ltac:(reflexivity) ltac:(reflexivity)) as [_ H].
    destruct (H ltac:(reflexivity) 2%nat) as [Hpolls Hend].
    { intros [|[|i]] Hi; [reflexivity|reflexivity|lia]. }
    split; [apply Hpolls|apply Hend]; [lia|vm_compute; discriminate|lia].
Defined.

(** The first [Close], the reaper having returned; a producer after it. *)
Lemma close_rejects_producers_and_consumers_witness :
  (∃ w', run (Close 1) still (set_reaperDone true mem_initial) = Ret (None, w') ∧
     closed w' = true ∧ closeOnce w' = OnceDone) ∧
  run (Enqueue 1 (Some the_task)) still (set_closed true mem_initial) =
  Ret (Some ErrQueueClosed, set_closed true mem_initial).
Proof.
  split.
  - destruct (close_rejects_producers_and_consumers (queue_of 2) 1 still
      (set_reaperDone true mem_initial)) as [H _].
    destruct (H eq_refl ltac:(done) (or_introl eq_refl)) as (e & w' & Hrun & _ & He & ? & ? & _).
    rewrite (He eq_refl) in Hrun. by exists w'.
  - apply (close_rejects_producers_and_consumers (queue_of 2) 1 still (set_closed true mem_initial));
      reflexivity.
Defined.

(** A dead-lettered task goes back to the backend. *)
Definition dead_world : mem_world :=
  set_deadLetter (MkDeadLetter {[1 := MkDeadTask the_task None 0 0]}) mem_initial.

Lemma redrive_moves_back_witness :
  ∃ w', run (Redrive 1 1) still dead_world = Ret (None, w') ∧
    world_rep (backend_rep ModePriority) dead_rep w' (Store [(the_task, 0)] ∅)
      (delete 1 {[1 := MkDeadTask the_task None 0 0]}).
Proof.
  assert (world_rep (backend_rep ModePriority) dead_rep dead_world (Store [] ∅)
    {[1 := MkDeadTask the_task None 0 0]}) as Hrep by (split; [apply NewMemoryBackend_rep|done]).
  assert (∀ k x, ({[1 := MkDeadTask the_task None 0 0]} : gmap Z DeadTask) !! k = Some x →
    ID (dead_Task x) = k) as Hkey.
  { intros k x [<- <-]%lookup_singleton_Some. reflexivity. }
  destruct (redrive_moves_back (task_less ModePriority) (backend_rep ModePriority) dead_rep
    1 1 still dead_world _ _ Hrep ltac:(reflexivity) ltac:(reflexivity) Hkey) as (w' & Hrun & Hw & _).
  exists w'. split; [exact Hrun|exact Hw].
Defined.

(** A task enqueued, claimed, and failed for good by a consumer. *)
Definition failing_schedule : list move :=
  [Call (ReqEnqueue 1 (Some the_task))] ++ acts 4 1 "" 0 ++
  [Call (ReqDequeue 1 1 0)] ++ acts 4 2 "a" 1 ++ acts 2 2 "" 1 ++
  [Call (ReqNack 1 0 None)] ++ acts 5 3 "" 2.

Lemma failing_run :
  ∃ (w : mem_world) ps, rtc (step (queue_of 1) just_one false) (mem_start 1 0) (w, ps) ∧
    the_task ∈ stored w ∧ issued w !! "a" = Some (the_task, 1).
Proof.
  destruct (schedule_reaches (queue_of 1) just_one false
    (λ x : mem_world * _, bool_decide (the_task ∈ stored x.1 ∧ issued x.1 !! "a" = Some (the_task, 1)))
    failing_schedule (mem_start 1 0)) as (w & ps & Hreach & Hend).
  - repeat constructor.
  - vm_compute. reflexivity.
  - apply bool_decide_eq_true in Hend. by exists w, ps.
Qed.

Lemma queue_keeps_every_task_witness :
  ∃ (w : mem_world) ps, rtc (step (queue_of 1) just_one false) (mem_start 1 0) (w, ps) ∧
    ∃ s m, backend_rep ModePriority (backend w) s ∧ kept w s m the_task.
Proof.
  destruct failing_run as (w & ps & Hreach & Hin & _). exists w, ps. split; [exact Hreach|].
  destruct (queue_keeps_every_task (queue_of 1) (task_less ModePriority) (backend_rep ModePriority)
    dead_rep just_one 0 (NewMemoryBackend ModePriority) NewMemoryDeadLetter w ps just_one_ID
    ltac:(reflexivity) (NewMemoryBackend_rep _) eq_refl Hreach) as (s & m & Hb & _ & Hkept).
  exists s, m. split; [exact Hb|apply Hkept, Hin].
Defined.

Lemma deliveries_are_bounded_witness :
  ∃ (w : mem_world) ps, rtc (step (queue_of 1) just_one false) (mem_start 1 0) (w, ps) ∧
    issued w !! "a" = Some (the_task, 1) ∧
    ∀ token t a, issued w !! token = Some (t, a) → just_one t ∧ 1 ≤ a ≤ 1.
Proof.
  destruct failing_run as (w & ps & Hreach & _ & Ha). exists w, ps.
  split; [exact Hreach|]. split; [exact Ha|].
  apply (deliveries_are_bounded (queue_of 1) (task_less ModePriority) (backend_rep ModePriority)
    dead_rep just_one false 0 (NewMemoryBackend ModePriority) NewMemoryDeadLetter w ps just_one_ID
    ltac:(reflexivity) (NewMemoryBackend_rep _) eq_refl Hreach).
Defined.

(** ** [Close] *)
Definition other_case : oracle := Oracle (chance_of "") 0 false.

(** [Close] under a live context, the reaper seeing that its context is done. *)
Definition close_moves : list move :=
  acts 3 1 "" 0 ++ [Act 0 other_case] ++ acts 1 0 "" 0 ++ acts 2 1 "" 0.

Lemma close_waits_for_reaper_witness :
  ∃ w ps, rtc (step (queue_of 1) just_one false) (mem_start 1 1) (w, ps) ∧
    ps !! 1%nat = Some (Return None) ∧ closed w = true ∧ ∃ r, ps !! 0%nat = Some (Return r).
Proof.
  pose (x := (mem_initial, (mem_start 1 1).2 ++ [Close 1])).
  destruct (schedule_reaches (queue_of 1) just_one false (λ y,
    match y.2 with [Return _; Return None] => bool_decide (closeErr y.1 = None) | _ => false end)
    close_moves x) as (w & ps & Hrun & Hend); [repeat constructor|vm_compute; reflexivity|].
  assert (ps !! 1%nat = Some (Return None) ∧ closeErr w = None) as [Hret He].
  { cbn in Hend. repeat (case_match; try done). by apply bool_decide_eq_true in Hend. }
  destruct (close_waits_for_reaper (queue_of 1) just_one false 1 (NewMemoryBackend ModePriority)
    NewMemoryDeadLetter _ _ 1 w ps None (rtc_refl _ _) Hrun Hret) as (_ & Hcl & _ & _ & Hdone).
  exists w, ps. split_and!; [|exact Hret|exact Hcl|apply (Hdone He)].
  eapply rtc_l; [|exact Hrun]. constructor. constructor.
Defined.

(** A call of [Close] that has just started, while the reaper waits for its tick. *)
Lemma close_can_return_witness :
  ∃ w2 ps2 err, rtc (solo (B := MemoryBackend) (D := MemoryDeadLetter)) (mem_initial, (mem_start 1 1).2 ++ [Close 1]) (w2, ps2) ∧
    ps2 !! 1%nat = Some (Return err) ∧ closed w2 = true.
Proof.
  exact (close_can_return (queue_of 1) (task_less ModePriority) (backend_rep ModePriority) dead_rep
    just_one false 1 (NewMemoryBackend ModePriority) NewMemoryDeadLetter mem_initial (mem_start 1 1).2 1
    mem_initial ((mem_start 1 1).2 ++ [Close 1]) (reaper_goroutine (queue_of 1) 1) just_one_ID
    ltac:(reflexivity) (NewMemoryBackend_rep _) eq_refl (rtc_refl _ _) (rtc_refl _ _) eq_refl
    (reaper_can_stop (queue_of 1) 0)).
Defined.

(** A second [Close] returns nil although the reaper still runs, when the context of the
    first one cut its wait short. *)
Theorem close_again_before_the_reaper_is_done :
  ∃ (w : mem_world) ps, rtc (step (queue_of 1) just_one false) (mem_start 1 1) (w, ps) ∧
    ps !! 1%nat = Some (Return (Some Canceled)) ∧ ps !! 2%nat = Some (Return None) ∧
    reaperDone w = false.
Proof.
  destruct (schedule_reaches (queue_of 1) just_one false (λ y : mem_world * _,
    match y.2 with
    | [_; Return (Some (Sentinel n)); Return None] =>
        String.eqb n "context.Canceled" && negb (reaperDone y.1)
    | _ => false
    end)
    ([Call (ReqClose 1); Cancel 1 Canceled] ++ acts 5 1 "" 0 ++ [Call (ReqClose 2)] ++ acts 1 2 "" 0)
    (mem_start 1 1)) as (w & ps & Hrun & Hend); [repeat constructor|vm_compute; reflexivity|].
  exists w, ps. split; [exact Hrun|]. cbn in Hend. repeat (case_match; try done).
  apply andb_true_iff in Hend as [->%String.eqb_eq Hd%negb_true_iff]. done.
Qed.
