(* ===== verification/PoolConfig.v ===== *)
(** * Configuration of the worker pool
    ([src/pkg/workerpool]: pool.go, claims.go)

    The configuration records and the normalization [New] applies to them. Sizes,
    counts and durations are 64-bit integers; the two float64 fields are compared
    with constants only, so a float is its exact value. *)
From Stdlib Require Import QArith.
From S2P Require Import Prelude Golang.
Local Open Scope Z_scope.

(** A float64 that is only compared: NaN compares false with everything. *)
Inductive float :=
| NaN
| NegInf
| PosInf
| Fin (q : Q).

Definition float_le (x : float) (q : Q) : bool :=
  match x with NaN | PosInf => false | NegInf => true | Fin p => Qle_bool p q end.

Definition float_gt (x : float) (q : Q) : bool :=
  match x with NaN | NegInf => false | PosInf => true | Fin p => negb (Qle_bool p q) end.

(** ** Errors *)
Definition ErrInvalidPool : error := Sentinel "workerpool.ErrInvalidPool".
Definition ErrNil : error := Sentinel "workerpool.ErrNil".
Definition ErrNilJob : error := Wrapped "nil job" [ErrNil].
Definition ErrNilCtx : error := Wrapped "nil context" [ErrNil].
Definition ErrPoolShutdown : error := Sentinel "workerpool.ErrPoolShutdown".
Definition ErrMaxPoolSize : error := Sentinel "workerpool.ErrMaxPoolSize".
Definition ErrDispatcherClosed : error := Sentinel "workerpool.ErrDispatcherClosed".
Definition ErrNoWorkers : error := Sentinel "workerpool.ErrNoWorkers".
Definition ErrSubmitTimeout : error := Sentinel "workerpool.ErrSubmitTimeout".
Definition ErrWorkerTimeout : error := Sentinel "workerpool.ErrWorkerTimeout".
Definition ErrWorkerPanic : error := Sentinel "workerpool.ErrWorkerPanic".
Definition ErrInvalidWorker : error := Sentinel "workerpool.ErrInvalidWorker".
Definition ErrWorkerAlreadyRunning : error := Sentinel "workerpool.ErrWorkerAlreadyRunning".

(** ** Modes and defaults *)
Definition Mode : Type := Z.
Definition ModeFixedSize : Mode := 0.
Definition ModeAutoScale : Mode := 1.

Definition defaultRate : float := Fin 750.
Definition defaultBacklog : Z := 1000.
Definition defaultScaleUpStep : Z := 1.
Definition defaultScalerInterval : Z := 100 * Millisecond.
Definition defaultIdleHeadroom : Z := 1.
Definition defaultScaleDownCooldown : Z := 5 * Second.
Definition defaultScaleDownIdlePeriod : Z := 2 * Second.
Definition defaultSubmitBackoff : Z := 50 * Millisecond.
Definition defaultSubmitTimeout : Z := Second.
Definition defaultSubmitAttemptsPerSec : Z := 5.
Definition defaultBackoffFactor : float := Fin (3 # 2).

(** ** The records *)
Record ClaimsConfig := MkClaimsConfig {
  Name : string;
  BackoffFactor : float;
  Size : Z;
  SubmitAttemptsPerSec : Z;
  SubmitBackoff : Z;
  SubmitTimeout : Z;
}.

Record AutoScaleConfig := MkAutoScale {
  MinSize : Z;
  MaxSize : Z;
  ScaleUpStep : Z;
  IdleHeadroom : Z;
  Interval : Z;
  ScaleUpCooldown : Z;
  ScaleDownCooldown : Z;
  ScaleDownIdlePeriod : Z;
}.

Record Config := MkConfig {
  Claims_cfg : ClaimsConfig;
  cfg_Mode : Mode;
  RateLimit : float;
  Backlog : Z;
  AutoScale : AutoScaleConfig;
}.

(** ** applyDefaults *)
Section Defaults.
(** [runtime.NumCPU()], at least 1. *)
Context (NumCPU : Z).

Definition ClaimsConfig_applyDefaults (cfg : ClaimsConfig) : ClaimsConfig :=
  MkClaimsConfig (Name cfg)
    (if float_le (BackoffFactor cfg) 0 || float_gt (BackoffFactor cfg) 1
     then defaultBackoffFactor else BackoffFactor cfg)
    (if Size cfg <=? 0 then NumCPU else Size cfg)
    (if SubmitAttemptsPerSec cfg <=? 0 then defaultSubmitAttemptsPerSec
     else SubmitAttemptsPerSec cfg)
    (if SubmitBackoff cfg =? 0 then defaultSubmitBackoff else SubmitBackoff cfg)
    (if SubmitTimeout cfg =? 0 then defaultSubmitTimeout else SubmitTimeout cfg).

Definition AutoScaleConfig_applyDefaults (cfg : AutoScaleConfig) : AutoScaleConfig :=
  MkAutoScale
    (if MinSize cfg <=? 0 then 1 else MinSize cfg)
    (if MaxSize cfg <=? 0 then NumCPU else MaxSize cfg)
    (if ScaleUpStep cfg <=? 0 then defaultScaleUpStep else ScaleUpStep cfg)
    (if IdleHeadroom cfg <=? 0 then defaultIdleHeadroom else IdleHeadroom cfg)
    (if Interval cfg <=? 0 then defaultScalerInterval else Interval cfg)
    (if ScaleUpCooldown cfg <? 0 then 0 else ScaleUpCooldown cfg)
    (if ScaleDownCooldown cfg <=? 0 then defaultScaleDownCooldown else ScaleDownCooldown cfg)
    (if ScaleDownIdlePeriod cfg <=? 0 then defaultScaleDownIdlePeriod
     else ScaleDownIdlePeriod cfg).

Definition Config_applyDefaults (cfg : Config) : Config :=
  MkConfig (ClaimsConfig_applyDefaults (Claims_cfg cfg)) (cfg_Mode cfg)
    (if float_le (RateLimit cfg) 0 then defaultRate else RateLimit cfg)
    (if Backlog cfg <=? 0 then defaultBacklog else Backlog cfg)
    (AutoScale cfg).

Definition validate (cfg : AutoScaleConfig) : option error :=
  if MaxSize cfg <? MinSize cfg then Some (Text "MinSize exceeds MaxSize") else None.

(** The configuration [New] works with: both normalizations, the validation of
    auto mode, the ceiling copied to [Size], and the mode test. *)
Definition effective_config (cfg : Config) : error + Config :=
  let cfg := Config_applyDefaults cfg in
  if cfg_Mode cfg =? ModeAutoScale then
    let a := AutoScaleConfig_applyDefaults (AutoScale cfg) in
    match validate a with
    | Some e => inl (Joined [ErrInvalidPool; e])
    | None =>
        let c := Claims_cfg cfg in
        inr (MkConfig
          (MkClaimsConfig (Name c) (BackoffFactor c) (MaxSize a) (SubmitAttemptsPerSec c)
             (SubmitBackoff c) (SubmitTimeout c))
          (cfg_Mode cfg) (RateLimit cfg) (Backlog cfg) a)
    end
  else if cfg_Mode cfg =? ModeFixedSize then inr cfg
  else inl (Joined [ErrInvalidPool; Text "invalid mode"]).

(** A configuration the pool can run with. *)
Record usable (cfg : Config) : Prop := {
  usable_Size : 0 < Size (Claims_cfg cfg);
  usable_Backlog : 0 < Backlog cfg;
  usable_SubmitTimeout : SubmitTimeout (Claims_cfg cfg) ≠ 0;
  usable_SubmitBackoff : SubmitBackoff (Claims_cfg cfg) ≠ 0;
  usable_auto : cfg_Mode cfg = ModeAutoScale →
    let a := AutoScale cfg in
    0 < MinSize a ≤ MaxSize a ∧ MaxSize a = Size (Claims_cfg cfg) ∧ 0 < ScaleUpStep a ∧
    0 < IdleHeadroom a ∧ 0 < Interval a ∧ 0 ≤ ScaleUpCooldown a ∧ 0 < ScaleDownCooldown a ∧
    0 < ScaleDownIdlePeriod a;
}.

Lemma default_positive d v : 0 < d → 0 < (if v <=? 0 then d else v).
Proof. intros Hd. case_match; boolify; lia. Qed.

Lemma default_nonzero d v : d ≠ 0 → (if v =? 0 then d else v) ≠ 0.
Proof. intros Hd. case_match; boolify; lia. Qed.

Lemma default_keeps d v : 0 < v → (if v <=? 0 then d else v) = v.
Proof. intros Hv. case_match; boolify; lia. Qed.

Lemma default_keeps_nonzero d v : v ≠ 0 → (if v =? 0 then d else v) = v.
Proof. intros Hv. case_match; boolify; lia. Qed.

Create HintDb pool_cfg.
#[local] Hint Resolve default_positive default_nonzero : pool_cfg.
#[local] Hint Extern 1 (0 < defaultBacklog) => reflexivity : pool_cfg.
#[local] Hint Extern 1 (0 < defaultScaleUpStep) => reflexivity : pool_cfg.
#[local] Hint Extern 1 (0 < defaultScalerInterval) => reflexivity : pool_cfg.
#[local] Hint Extern 1 (0 < defaultIdleHeadroom) => reflexivity : pool_cfg.
#[local] Hint Extern 1 (0 < defaultScaleDownCooldown) => reflexivity : pool_cfg.
#[local] Hint Extern 1 (0 < defaultScaleDownIdlePeriod) => reflexivity : pool_cfg.
#[local] Hint Extern 1 (0 < defaultSubmitAttemptsPerSec) => reflexivity : pool_cfg.
#[local] Hint Extern 1 (defaultSubmitBackoff ≠ 0) => discriminate : pool_cfg.
#[local] Hint Extern 1 (defaultSubmitTimeout ≠ 0) => discriminate : pool_cfg.
#[local] Hint Extern 1 (0 < 1) => reflexivity : pool_cfg.

Lemma AutoScaleConfig_applyDefaults_positive a :
  0 < NumCPU →
  let a' := AutoScaleConfig_applyDefaults a in
  0 < MinSize a' ∧ 0 < MaxSize a' ∧ 0 < ScaleUpStep a' ∧ 0 < IdleHeadroom a' ∧
  0 < Interval a' ∧ 0 ≤ ScaleUpCooldown a' ∧ 0 < ScaleDownCooldown a' ∧
  0 < ScaleDownIdlePeriod a'.
Proof.
  intros Hcpu. cbn. split_and!; auto with pool_cfg. case_match; boolify; lia.
Qed.

(** What [effective_config] returns in each mode. *)
Lemma effective_config_inv cfg cfg' :
  effective_config cfg = inr cfg' →
  let c := ClaimsConfig_applyDefaults (Claims_cfg cfg) in
  let a := AutoScaleConfig_applyDefaults (AutoScale cfg) in
  let rate := if float_le (RateLimit cfg) 0 then defaultRate else RateLimit cfg in
  let backlog := if Backlog cfg <=? 0 then defaultBacklog else Backlog cfg in
  (cfg_Mode cfg = ModeAutoScale ∧ MinSize a ≤ MaxSize a ∧
   cfg' = MkConfig (MkClaimsConfig (Name c) (BackoffFactor c) (MaxSize a)
            (SubmitAttemptsPerSec c) (SubmitBackoff c) (SubmitTimeout c))
            ModeAutoScale rate backlog a) ∨
  (cfg_Mode cfg = ModeFixedSize ∧ cfg' = MkConfig c ModeFixedSize rate backlog (AutoScale cfg)).
Proof.
  unfold effective_config, validate. intros H.
  change (cfg_Mode (Config_applyDefaults cfg)) with (cfg_Mode cfg) in H.
  destruct (cfg_Mode cfg =? ModeAutoScale) eqn:Hm.
  - left. boolify. destruct (_ <? _) eqn:Hv in H; [done|]. boolify.
    injection H as <-. cbn in *. by rewrite Hm.
  - right. destruct (cfg_Mode cfg =? ModeFixedSize) eqn:Hf; [|done]. boolify.
    injection H as <-. unfold Config_applyDefaults. by rewrite Hf.
Qed.

Lemma effective_config_usable cfg cfg' :
  0 < NumCPU → effective_config cfg = inr cfg' → usable cfg'.
Proof.
  intros Hcpu H.
  destruct (AutoScaleConfig_applyDefaults_positive (AutoScale cfg) Hcpu) as (? & ? & ?).
  apply effective_config_inv in H as [(_ & Hle & ->)|(_ & ->)].
  - split; [done|cbn; auto with pool_cfg..|intros _; repeat split; cbn in *; tauto].
  - split; [cbn; auto with pool_cfg..|done].
Qed.

(** Normalizing what was normalized changes nothing. *)
Lemma ClaimsConfig_applyDefaults_idem c :
  0 < Size c → 0 < SubmitAttemptsPerSec c → SubmitBackoff c ≠ 0 → SubmitTimeout c ≠ 0 →
  (float_le (BackoffFactor c) 0 || float_gt (BackoffFactor c) 1 = false ∨
   BackoffFactor c = defaultBackoffFactor) →
  ClaimsConfig_applyDefaults c = c.
Proof.
  intros ? ? ? ? Hb. unfold ClaimsConfig_applyDefaults.
  rewrite !default_keeps, !default_keeps_nonzero by done.
  destruct c. cbn in *. f_equal. destruct Hb as [->| ->]; [done|].
  by case_match.
Qed.

Lemma AutoScaleConfig_applyDefaults_idem a :
  0 < NumCPU →
  AutoScaleConfig_applyDefaults (AutoScaleConfig_applyDefaults a) = AutoScaleConfig_applyDefaults a.
Proof.
  intros Hcpu.
  destruct (AutoScaleConfig_applyDefaults_positive a Hcpu) as (? & ? & ? & ? & ? & Hup & ? & ?).
  revert Hup. set (a' := AutoScaleConfig_applyDefaults a) in *. clearbody a'. intros Hup.
  unfold AutoScaleConfig_applyDefaults. rewrite !default_keeps by done.
  destruct a'. cbn in *. f_equal. case_match; boolify; lia.
Qed.

Lemma effective_config_idem cfg cfg' :
  0 < NumCPU → effective_config cfg = inr cfg' → effective_config cfg' = inr cfg'.
Proof.
  intros Hcpu H. pose proof (effective_config_usable _ _ Hcpu H) as [Hs Hb Ht Hbk _].
  apply effective_config_inv in H as Hinv.
  assert (float_le (RateLimit cfg') 0 = false) as Hr.
  { destruct Hinv as [(_ & _ & ->)|(_ & ->)]; cbn;
      (destruct (float_le (RateLimit cfg) 0) eqn:E; [reflexivity|exact E]). }
  assert (ClaimsConfig_applyDefaults (Claims_cfg cfg') = Claims_cfg cfg') as Hc.
  { apply ClaimsConfig_applyDefaults_idem; try done;
      destruct Hinv as [(_ & _ & ->)|(_ & ->)]; cbn; auto with pool_cfg;
      (destruct (float_le (BackoffFactor (Claims_cfg cfg)) 0 ||
                 float_gt (BackoffFactor (Claims_cfg cfg)) 1) eqn:E; [by right|by left]). }
  unfold effective_config, Config_applyDefaults.
  rewrite Hc, Hr, default_keeps by done. cbn [cfg_Mode AutoScale Claims_cfg].
  destruct Hinv as [(_ & Hle & ->)|(_ & ->)]; cbn [cfg_Mode AutoScale Claims_cfg Backlog RateLimit]; [|done].
  cbn [Z.eqb ModeAutoScale]. rewrite AutoScaleConfig_applyDefaults_idem by done.
  unfold validate. by rewrite (proj2 (Z.ltb_ge _ _) Hle).
Qed.

(** What normalization keeps of a configuration, field by field: the name, every
    numeric field that is positive ([ScaleUpCooldown] when not negative, [SubmitTimeout]
    and [SubmitBackoff] whenever set, so also when negative), a rate that is not at most
    0 and a factor that is neither at most 0 nor above 1 (NaN is kept in both). In fixed
    mode [AutoScale] is kept as it is; in auto mode the ceiling replaces [Size]. *)
Record kept (cfg cfg' : Config) : Prop := {
  kept_Name : Name (Claims_cfg cfg') = Name (Claims_cfg cfg);
  kept_Mode : cfg_Mode cfg' = cfg_Mode cfg;
  kept_BackoffFactor :
    float_le (BackoffFactor (Claims_cfg cfg)) 0 = false → float_gt (BackoffFactor (Claims_cfg cfg)) 1 = false →
    BackoffFactor (Claims_cfg cfg') = BackoffFactor (Claims_cfg cfg);
  kept_Size : cfg_Mode cfg = ModeFixedSize → 0 < Size (Claims_cfg cfg) →
    Size (Claims_cfg cfg') = Size (Claims_cfg cfg);
  kept_SubmitAttemptsPerSec : 0 < SubmitAttemptsPerSec (Claims_cfg cfg) →
    SubmitAttemptsPerSec (Claims_cfg cfg') = SubmitAttemptsPerSec (Claims_cfg cfg);
  kept_SubmitBackoff : SubmitBackoff (Claims_cfg cfg) ≠ 0 →
    SubmitBackoff (Claims_cfg cfg') = SubmitBackoff (Claims_cfg cfg);
  kept_SubmitTimeout : SubmitTimeout (Claims_cfg cfg) ≠ 0 →
    SubmitTimeout (Claims_cfg cfg') = SubmitTimeout (Claims_cfg cfg);
  kept_RateLimit : float_le (RateLimit cfg) 0 = false → RateLimit cfg' = RateLimit cfg;
  kept_Backlog : 0 < Backlog cfg → Backlog cfg' = Backlog cfg;
  kept_fixed : cfg_Mode cfg = ModeFixedSize → AutoScale cfg' = AutoScale cfg;
  kept_auto : cfg_Mode cfg = ModeAutoScale →
    let a := AutoScale cfg in let a' := AutoScale cfg' in
    Size (Claims_cfg cfg') = MaxSize a' ∧
    (0 < MinSize a → MinSize a' = MinSize a) ∧ (0 < MaxSize a → MaxSize a' = MaxSize a) ∧
    (0 < ScaleUpStep a → ScaleUpStep a' = ScaleUpStep a) ∧
    (0 < IdleHeadroom a → IdleHeadroom a' = IdleHeadroom a) ∧
    (0 < Interval a → Interval a' = Interval a) ∧
    (0 ≤ ScaleUpCooldown a → ScaleUpCooldown a' = ScaleUpCooldown a) ∧
    (0 < ScaleDownCooldown a → ScaleDownCooldown a' = ScaleDownCooldown a) ∧
    (0 < ScaleDownIdlePeriod a → ScaleDownIdlePeriod a' = ScaleDownIdlePeriod a);
}.

Lemma default_keeps_nonneg v : 0 ≤ v → (if v <? 0 then 0 else v) = v.
Proof. intros Hv. case_match; boolify; lia. Qed.

Lemma effective_config_keeps cfg cfg' : effective_config cfg = inr cfg' → kept cfg cfg'.
Proof.
  intros H. apply effective_config_inv in H as [(Hm & _ & ->)|(Hm & ->)]; split; cbn; intros;
    split_and?; intros; rewrite ?default_keeps, ?default_keeps_nonzero, ?default_keeps_nonneg by done; try done;
    repeat match goal with H : ?b = false |- context [?b] => rewrite H end; try done;
    unfold ModeAutoScale, ModeFixedSize in *; lia.
Qed.

(** C39: [New]'s normalization. It succeeds exactly for the two modes, with in auto
    mode a floor that after defaulting is at most the ceiling; the result is usable
    (positive size and backlog, and in auto mode consistent positive bounds, steps,
    headroom, intervals and periods, with [Size] equal to the ceiling); normalizing
    it again changes nothing; and every field that was set is kept, as [kept] says of
    each: only what is zero or out of its range is replaced. *)
Theorem config_normalizes cfg :
  0 < NumCPU →
  let a := AutoScale cfg in
  (cfg_Mode cfg = ModeFixedSize → ∃ cfg', effective_config cfg = inr cfg') ∧
  (cfg_Mode cfg = ModeAutoScale →
     ((∃ cfg', effective_config cfg = inr cfg') ↔
      (if MinSize a <=? 0 then 1 else MinSize a) ≤ (if MaxSize a <=? 0 then NumCPU else MaxSize a))) ∧
  (cfg_Mode cfg ≠ ModeFixedSize → cfg_Mode cfg ≠ ModeAutoScale →
     effective_config cfg = inl (Joined [ErrInvalidPool; Text "invalid mode"])) ∧
  (∀ cfg', effective_config cfg = inr cfg' →
     usable cfg' ∧ effective_config cfg' = inr cfg' ∧ kept cfg cfg').
Proof.
  intros Hcpu a. split_and!.
  - intros Hm. unfold effective_config. cbn [cfg_Mode Config_applyDefaults]. rewrite Hm. by eexists.
  - intros Hm. subst a.
    change ((∃ cfg', effective_config cfg = inr cfg') ↔
      MinSize (AutoScaleConfig_applyDefaults (AutoScale cfg)) ≤
      MaxSize (AutoScaleConfig_applyDefaults (AutoScale cfg))).
    split.
    + intros [cfg' H]. apply effective_config_inv in H as [(_ & ? & _)|(Hf & _)]; [done|]; unfold ModeAutoScale, ModeFixedSize in *; lia.
    + intros Hle. unfold effective_config, validate. cbn [cfg_Mode Config_applyDefaults].
      rewrite Hm. cbn [Z.eqb ModeAutoScale AutoScale Config_applyDefaults].
      rewrite (proj2 (Z.ltb_ge _ _) Hle). by eexists.
  - intros Hf Ha. unfold effective_config. cbn [cfg_Mode Config_applyDefaults].
    by rewrite (proj2 (Z.eqb_neq _ _) Ha), (proj2 (Z.eqb_neq _ _) Hf).
  - intros cfg' H. split_and!;
      [by eapply effective_config_usable|by eapply effective_config_idem|by apply effective_config_keeps].
Qed.
End Defaults.

Definition sample_config : Config :=
  MkConfig (MkClaimsConfig "jobs" (Fin 0) 0 0 0 (-1)) ModeAutoScale NaN 0
    (MkAutoScale 2 0 0 0 0 (-1) 0 0).

(** On 8 CPUs, with a floor of 2 and the rest left to defaults. *)
Lemma config_normalizes_witness :
  ∃ cfg', effective_config 8 sample_config = inr cfg' ∧ usable cfg' ∧
    effective_config 8 cfg' = inr cfg' ∧ SubmitTimeout (Claims_cfg cfg') = -1 ∧
    MinSize (AutoScale cfg') = 2.
Proof.
  destruct (config_normalizes 8 sample_config ltac:(reflexivity)) as (_ & Ha & _ & H).
  destruct (proj2 (Ha ltac:(reflexivity))) as [cfg' Hcfg]; [vm_compute; discriminate|].
  exists cfg'. destruct (H cfg' Hcfg) as (Hu & Hi & Hk).
  split_and!; [exact Hcfg|exact Hu|exact Hi|exact (kept_SubmitTimeout _ _ Hk ltac:(discriminate))|].
  exact (proj1 (proj2 (kept_auto _ _ Hk ltac:(reflexivity))) ltac:(reflexivity)).
Defined.
