(* ===== verification/Scaler.v ===== *)
(** * The scaling policy ([src/pkg/workerpool/scaler.go])

    [decide] and [pickVictim], the pure core of the autoscaler. A candidate is its
    index and what its two methods return. Integers are 64-bit with wrap-around. *)
From S2P Require Import Prelude PoolConfig.
Local Open Scope Z_scope.

Record snapshot := MkSnapshot {
  joined : Z;
  idle : Z;
  backlog : Z;
  now : Z;
  lastUp : Z;
  lastDown : Z;
}.

Inductive decision := hold | up | down.

Definition shouldScaleUp (s : snapshot) (cfg : AutoScaleConfig) : bool :=
  let belowCeiling := joined s <? MaxSize cfg in
  let underPressure := (0 <? backlog s) && (idle s <=? IdleHeadroom cfg) in
  let cooldownElapsed := ScaleUpCooldown cfg <=? wrap64 (now s - lastUp s) in
  belowCeiling && underPressure && cooldownElapsed.

Definition shouldScaleDown (s : snapshot) (cfg : AutoScaleConfig) : bool :=
  let aboveFloor := MinSize cfg <? joined s in
  let overProvisioned := (backlog s =? 0) && (IdleHeadroom cfg <? idle s) in
  let cooldownElapsed := ScaleDownCooldown cfg <=? wrap64 (now s - lastDown s) in
  aboveFloor && overProvisioned && cooldownElapsed.

Definition scaleUpStep (s : snapshot) (cfg : AutoScaleConfig) : Z :=
  let step := ScaleUpStep cfg in
  let room := wrap64 (MaxSize cfg - joined s) in
  if room <? step then room else step.

Definition decide_ (s : snapshot) (cfg : AutoScaleConfig) : decision * Z :=
  if shouldScaleUp s cfg then (up, scaleUpStep s cfg)
  else if shouldScaleDown s cfg then (down, 0)
  else (hold, 0).

(** The interface [pickVictim] reads a worker through. *)
Record idleCandidate := MkCandidate { IsRunning : bool; LastActiveAt : Z }.

(** The loop, from index [i] with the best index so far; [candidates] is indexed
    by the best one to compare with. *)
Fixpoint pick_loop (now idlePeriod : Z) (candidates rest : list idleCandidate) (i best : Z) : Z :=
  match rest with
  | [] => best
  | candidate :: rest =>
      let continue := pick_loop now idlePeriod candidates rest (i + 1) in
      if IsRunning candidate then continue best
      else if wrap64 (now - LastActiveAt candidate) <? idlePeriod then continue best
      else if (best =? -1) ||
              match candidates !! Z.to_nat best with
              | Some b => LastActiveAt candidate <? LastActiveAt b
              | None => false
              end
           then continue i
           else continue best
  end.

Definition pickVictim (candidates : list idleCandidate) (now idlePeriod : Z) : Z * bool :=
  let best := pick_loop now idlePeriod candidates candidates 0 (-1) in
  (best, negb (best =? -1)).

(** ** Decisions respect the bounds *)

Lemma room_exact s cfg :
  0 ≤ joined s < MaxSize cfg → int64 (MaxSize cfg) →
  wrap64 (MaxSize cfg - joined s) = MaxSize cfg - joined s.
Proof. unfold int64, min_int64, max_int64. intros ? ?. apply wrap64_id. unfold int64, min_int64, max_int64. lia. Qed.

(** A decision to scale down is above the floor. *)
Lemma decide_down s cfg n : decide_ s cfg = (down, n) → MinSize cfg < joined s.
Proof.
  unfold decide_. destruct (shouldScaleUp s cfg); [done|].
  destruct (shouldScaleDown s cfg) eqn:H; [|done]. unfold shouldScaleDown in H. by boolify.
Qed.

(** C24: the policy. With a positive step, a decision to scale up is taken exactly
    under pressure (queued jobs, at most the headroom idle) below the ceiling once
    the cooldown is over, and adds at least one worker without passing [MaxSize];
    a decision to scale down is taken exactly when nothing is queued, more than the
    headroom idle, above the floor, and its cooldown is over, and never takes the
    pool below [MinSize]; the two conditions exclude each other, so [hold] is
    exactly the rest. *)
Theorem decide_respects_bounds s cfg :
  0 ≤ joined s → int64 (MaxSize cfg) → 0 < ScaleUpStep cfg →
  let '(action, workers) := decide_ s cfg in
  (action = up ↔
     joined s < MaxSize cfg ∧ 0 < backlog s ∧ idle s ≤ IdleHeadroom cfg ∧
     ScaleUpCooldown cfg ≤ wrap64 (now s - lastUp s)) ∧
  (action = down ↔
     MinSize cfg < joined s ∧ backlog s = 0 ∧ IdleHeadroom cfg < idle s ∧
     ScaleDownCooldown cfg ≤ wrap64 (now s - lastDown s)) ∧
  match action with
  | up => 1 ≤ workers ≤ ScaleUpStep cfg ∧ joined s + workers ≤ MaxSize cfg
  | down => workers = 0 ∧ MinSize cfg ≤ joined s - 1
  | hold => workers = 0
  end.
Proof.
  intros Hj Hmax Hstep. unfold decide_.
  destruct (shouldScaleUp s cfg) eqn:Hup.
  - unfold shouldScaleUp in Hup. boolify.
    split; [split; [intros _; by split_and!|done]|]. split; [split; [done|lia]|].
    unfold scaleUpStep. rewrite room_exact by (done || lia). case_match; boolify; lia.
  - assert (¬ (joined s < MaxSize cfg ∧ 0 < backlog s ∧ idle s ≤ IdleHeadroom cfg ∧
               ScaleUpCooldown cfg ≤ wrap64 (now s - lastUp s))) as Hnot.
    { intros (? & ? & ? & ?). unfold shouldScaleUp in Hup.
      rewrite !(proj2 (Z.ltb_lt _ _)), !(proj2 (Z.leb_le _ _)) in Hup by done. done. }
    destruct (shouldScaleDown s cfg) eqn:Hdown.
    + unfold shouldScaleDown in Hdown. boolify. split_and!; [by split| |done|lia].
      split; [intros _; by split_and!|done].
    + split_and!; [by split| |done]. split; [done|]. intros (? & ? & ? & ?).
      unfold shouldScaleDown in Hdown.
      rewrite !(proj2 (Z.ltb_lt _ _)), (proj2 (Z.leb_le _ _)), (proj2 (Z.eqb_eq _ _)) in Hdown
        by done. done.
Qed.

Definition two_of_four : snapshot := MkSnapshot 2 0 9 10 0 0.
Definition auto_four : AutoScaleConfig := MkAutoScale 1 4 8 1 100 0 50 20.

(** Two joined of four, a step of eight: clamped to two. *)
Lemma decide_respects_bounds_witness :
  decide_ two_of_four auto_four = (up, 2) ∧ joined two_of_four + 2 ≤ 4.
Proof.
  assert (decide_ two_of_four auto_four = (up, 2)) as E by reflexivity. split; [exact E|].
  pose proof (decide_respects_bounds two_of_four auto_four ltac:(cbn; lia)
    ltac:(vm_compute; split; discriminate) ltac:(reflexivity)) as H.
  rewrite E in H. apply H.
Defined.

(** ** The victim is the longest idle removable worker *)

Definition removable (now idlePeriod : Z) (c : idleCandidate) : Prop :=
  IsRunning c = false ∧ idlePeriod ≤ wrap64 (now - LastActiveAt c).

(** [b] is the best index among the first [n] candidates. *)
Definition best_of (t p : Z) (cs : list idleCandidate) (n : nat) (b : Z) : Prop :=
  (b = -1 ∧ ∀ i c, (i < n)%nat → cs !! i = Some c → ¬ removable t p c) ∨
  (∃ k c, b = Z.of_nat k ∧ (k < n)%nat ∧ cs !! k = Some c ∧ removable t p c ∧
     (∀ i c', (i < n)%nat → cs !! i = Some c' → removable t p c' →
        LastActiveAt c ≤ LastActiveAt c') ∧
     (∀ i c', (i < k)%nat → cs !! i = Some c' → removable t p c' →
        LastActiveAt c < LastActiveAt c')).

(** Looking at a candidate that is not removable, or not better, keeps the best. *)
Lemma best_of_skip t p cs n b c :
  cs !! n = Some c → best_of t p cs n b →
  (removable t p c → ∃ k c0, b = Z.of_nat k ∧ cs !! k = Some c0 ∧ LastActiveAt c0 ≤ LastActiveAt c) →
  best_of t p cs (S n) b.
Proof.
  intros Hc [[-> Hn]|(k & c0 & -> & Hk & Hck & Hr & Hmin & Hfirst)] Hskip.
  - left. split; [done|]. intros i c' Hi Hc'. destruct (decide (i = n)) as [->|].
    + assert (c' = c) as -> by congruence. intros (k & ? & ? & _)%Hskip. lia.
    + apply (Hn i); [lia|done].
  - right. exists k, c0. split_and!; try done; [lia|].
    intros i c' Hi Hc' Hr'. destruct (decide (i = n)) as [->|].
    + assert (c' = c) as -> by congruence. destruct (Hskip Hr') as (k' & c1 & Heq & ? & ?).
      assert (k' = k) as -> by lia. congruence.
    + apply (Hmin i); [lia|done|done].
Qed.

(** A removable candidate strictly older than the best becomes the best. *)
Lemma best_of_take t p cs n b c :
  cs !! n = Some c → best_of t p cs n b → removable t p c →
  (∀ k c0, b = Z.of_nat k → cs !! k = Some c0 → LastActiveAt c < LastActiveAt c0) →
  best_of t p cs (S n) (Z.of_nat n).
Proof.
  intros Hc Hbest Hr Hlt. right. exists n, c.
  assert (∀ i c', (i < n)%nat → cs !! i = Some c' → removable t p c' →
    LastActiveAt c < LastActiveAt c') as Hall.
  { intros i c' Hi Hc' Hr'.
    destruct Hbest as [[-> Hn]|(k & c0 & -> & Hk & Hck & _ & Hmin & _)]; [by destruct (Hn i c')|].
    specialize (Hlt k c0 eq_refl Hck). specialize (Hmin i c' Hi Hc' Hr'). lia. }
  split_and!; try done; [lia|]. intros i c' Hi Hc' Hr'. destruct (decide (i = n)) as [->|].
  - assert (c' = c) as -> by congruence. lia.
  - specialize (Hall i c' ltac:(lia) Hc' Hr'). lia.
Qed.

Lemma pick_loop_best t p cs rest : ∀ n b,
  drop n cs = rest → best_of t p cs n b →
  best_of t p cs (length cs) (pick_loop t p cs rest (Z.of_nat n) b).
Proof.
  induction rest as [|c rest IH]; intros n b Hdrop Hb; cbn.
  - assert (length cs ≤ n)%nat as Hlen.
    { apply (f_equal length) in Hdrop. rewrite length_drop in Hdrop. cbn in Hdrop. lia. }
    destruct Hb as [[-> Hn]|(k & c & -> & _ & Hck & Hr & Hmin & Hfirst)].
    + left. split; [done|]. intros i c Hi. apply Hn. lia.
    + right. exists k, c. split_and!; try done; [by eapply lookup_lt_Some|].
      intros i c' Hi. apply Hmin. lia.
  - assert (cs !! n = Some c) as Hc.
    { rewrite <- (Nat.add_0_r n), <- lookup_drop, Hdrop. done. }
    assert (drop (S n) cs = rest) as Hdrop'.
    { apply drop_S in Hc as Hd. rewrite Hd in Hdrop. congruence. }
    replace (Z.of_nat n + 1) with (Z.of_nat (S n)) by lia.
    destruct (IsRunning c) eqn:Hrun.
    { apply IH; [done|]. eapply best_of_skip; [done|done|]. intros [? _]. congruence. }
    case_match eqn:Hidle; boolify.
    { apply IH; [done|]. eapply best_of_skip; [done|done|]. intros [_ ?]. lia. }
    assert (removable t p c) as Hr by done.
    destruct Hb as [[-> Hn]|(k & c0 & -> & Hk & Hck & Hrest)] eqn:Hbest; cbn [orb].
    + rewrite Z.eqb_refl. apply IH; [done|].
      eapply best_of_take; [done|by left|done|]. intros; lia.
    + rewrite Nat2Z.id, Hck, (proj2 (Z.eqb_neq _ _)) by lia. cbn.
      case_match; boolify; (apply IH; [done|]).
      * eapply best_of_take; [done|by right; eauto 10|done|].
        intros k' c1 ?%Nat2Z.inj ?. subst k'. congruence.
      * eapply best_of_skip; [done|by right; eauto 10|]. intros _. exists k, c0. by split_and!.
Qed.

(** The best index after the whole loop. *)
Lemma pickVictim_best candidates t p :
  best_of t p candidates (length candidates) (pickVictim candidates t p).1.
Proof.
  apply (pick_loop_best t p candidates candidates 0 (-1)); [apply drop_0|].
  left. split; [done|]. intros; lia.
Qed.

Lemma pickVictim_range candidates t p b :
  pickVictim candidates t p = (b, true) → ∃ c, candidates !! Z.to_nat b = Some c.
Proof.
  intros H. pose proof (pickVictim_best candidates t p) as Hb. rewrite H in Hb. cbn in Hb.
  destruct Hb as [[-> _]|(k & c & -> & _ & Hc & _)]; cbn in *.
  - unfold pickVictim in H. injection H as H H'. by rewrite H in H'.
  - exists c. by rewrite Nat2Z.id.
Qed.

(** C25: scaling down spares busy workers and takes the longest idle one. A victim
    is a worker that is not running a job and has been idle for at least the idle
    period; no removable worker has been idle longer, and among equals it is the
    first; there is no victim exactly when no worker is removable. *)
Theorem pickVictim_longest_idle candidates t p :
  match pickVictim candidates t p with
  | (b, true) => ∃ k c, b = Z.of_nat k ∧ candidates !! k = Some c ∧ removable t p c ∧
      (∀ i c', candidates !! i = Some c' → removable t p c' → LastActiveAt c ≤ LastActiveAt c') ∧
      (∀ i c', (i < k)%nat → candidates !! i = Some c' → removable t p c' →
         LastActiveAt c < LastActiveAt c')
  | (b, false) => b = -1 ∧ ∀ i c, candidates !! i = Some c → ¬ removable t p c
  end.
Proof.
  unfold pickVictim.
  destruct (pickVictim_best candidates t p) as [[Hb Hn]|(k & c & Hb & _ & Hck & Hr & Hmin & Hfirst)];
    cbn [fst pickVictim] in Hb; rewrite Hb.
  - cbn. split; [done|]. intros i c Hc. apply (Hn i); [by eapply lookup_lt_Some|done].
  - rewrite (proj2 (Z.eqb_neq _ _)) by lia. cbn. exists k, c. split_and!; try done.
    intros i c' Hc'. apply (Hmin i); [by eapply lookup_lt_Some|done].
Qed.

(** The busy and the recently active worker are spared. *)
Example pickVictim_example :
  pickVictim [MkCandidate true 0; MkCandidate false 95; MkCandidate false 40; MkCandidate false 30] 100 20
  = (3, true).
Proof. reflexivity. Qed.
