(* ===== verification/JobContext.v ===== *)
(** * The context of a job ([src/pkg/workerpool/jobcontext.go])

    [jobContext] composes the pool's context with the caller's. The two
    [context.AfterFunc] callbacks are goroutines started when a parent is done;
    a step relation interleaves them with the cancellation of the parents. A
    parent's observable state is its [Err()] ([Golang.ctx]). *)
From S2P Require Import Prelude Golang.
Local Open Scope Z_scope.
Local Open Scope go_scope.

(** The state of one AfterFunc registration: waiting for its parent, stopped
    before it ran, running (the critical part not done yet), or finished. *)
Inductive callback := Registered | Stopped | Running | Finished.

Record jobContext := MkJobContext {
  poolCtx : ctx;
  submitCtx : ctx;
  once : bool;
  done_closed : bool;
  jc_err : option error;
  cb_pool : callback;
  cb_submit : callback;
}.

(** [newJobContext]: a nil parent panics. *)
Definition newJobContext (pool submit : option ctx) : outcome jobContext :=
  match pool, submit with
  | Some p, Some s => Ret (MkJobContext p s false false None Registered Registered)
  | _, _ => Panic
  end.

(** [Err]: [ctx.err] is read only behind the closed [done]. *)
Definition Err (j : jobContext) : option error := if done_closed j then jc_err j else None.

(** The function given to [once.Do]: store the parent's error, close [done]. *)
Definition fire (parent : ctx) (j : jobContext) : outcome jobContext :=
  if once j then Ret j
  else if done_closed j then Panic
  else Ret (MkJobContext (poolCtx j) (submitCtx j) true true parent (cb_pool j) (cb_submit j)).

(** [s()], the stop function of a registration. *)
Definition stop (cb : callback) : callback :=
  match cb with Registered => Stopped | cb => cb end.

Definition set_cbs (p s : callback) (j : jobContext) : jobContext :=
  MkJobContext (poolCtx j) (submitCtx j) (once j) (done_closed j) (jc_err j) p s.

(** A callback starts once its parent is done, fires, and stops its sibling. *)
Inductive jc_step : jobContext → outcome jobContext → Prop :=
| step_cancel_pool j e :
    poolCtx j = None →
    jc_step j (Ret (MkJobContext (Some e) (submitCtx j) (once j) (done_closed j) (jc_err j)
      (cb_pool j) (cb_submit j)))
| step_cancel_submit j e :
    submitCtx j = None →
    jc_step j (Ret (MkJobContext (poolCtx j) (Some e) (once j) (done_closed j) (jc_err j)
      (cb_pool j) (cb_submit j)))
| step_start_pool j :
    ctx_done (poolCtx j) = true → cb_pool j = Registered →
    jc_step j (Ret (set_cbs Running (cb_submit j) j))
| step_start_submit j :
    ctx_done (submitCtx j) = true → cb_submit j = Registered →
    jc_step j (Ret (set_cbs (cb_pool j) Running j))
| step_run_pool j :
    cb_pool j = Running →
    jc_step j (j' <-- fire (poolCtx j) j ;;; Ret (set_cbs Finished (stop (cb_submit j')) j'))
| step_run_submit j :
    cb_submit j = Running →
    jc_step j (j' <-- fire (submitCtx j) j ;;; Ret (set_cbs (stop (cb_pool j')) Finished j')).

(** The states reached without a panic. *)
Definition jc_next (j j' : jobContext) : Prop := jc_step j (Ret j').

Record jc_inv (j : jobContext) : Prop := {
  inv_once : once j = done_closed j;
  inv_open : done_closed j = false → cb_pool j ≠ Finished ∧ cb_pool j ≠ Stopped ∧
    cb_submit j ≠ Finished ∧ cb_submit j ≠ Stopped;
  inv_err : done_closed j = true →
    ∃ e, jc_err j = Some e ∧ (poolCtx j = Some e ∨ submitCtx j = Some e);
  inv_pool : cb_pool j = Running ∨ cb_pool j = Finished → ctx_done (poolCtx j) = true;
  inv_submit : cb_submit j = Running ∨ cb_submit j = Finished → ctx_done (submitCtx j) = true;
}.

Lemma new_inv p s j : newJobContext (Some p) (Some s) = Ret j → jc_inv j.
Proof. intros [= <-]. split; cbn; try done; by intros [|]. Qed.

(** A running callback keeps the invariant and cannot panic. *)
Lemma fire_inv parent j :
  jc_inv j → ctx_done parent = true → parent = poolCtx j ∨ parent = submitCtx j →
  ∃ j', fire parent j = Ret j' ∧ poolCtx j' = poolCtx j ∧ submitCtx j' = submitCtx j ∧
    cb_pool j' = cb_pool j ∧ cb_submit j' = cb_submit j ∧ once j' = true ∧ done_closed j' = true ∧
    (done_closed j = true → jc_err j' = jc_err j) ∧
    ∃ e, jc_err j' = Some e ∧ (poolCtx j = Some e ∨ submitCtx j = Some e).
Proof.
  intros [Honce _ Herr _ _] Hdone Hparent. unfold fire. rewrite Honce.
  destruct (done_closed j) eqn:Hd.
  - exists j. split_and!; auto.
  - eexists. split; [done|]. cbn. split_and!; try done.
    destruct parent as [e|]; [|done]. exists e. destruct Hparent as [<-|<-]; auto.
Qed.

Lemma jc_step_inv j o : jc_inv j → jc_step j o → ∃ j', o = Ret j' ∧ jc_inv j'.
Proof.
  intros Hinv Hstep. pose proof Hinv as [Honce Hopen Herr Hp Hs].
  destruct Hstep as [j e He|j e He|j Hc Hcb|j Hc Hcb|j Hcb|j Hcb].
  - eexists. split; [done|]. split; cbn; try done.
    intros Hd. destruct (Herr Hd) as (e' & ? & [?|?]); exists e'; auto; congruence.
  - eexists. split; [done|]. split; cbn; try done.
    intros Hd. destruct (Herr Hd) as (e' & ? & [?|?]); exists e'; auto; congruence.
  - eexists. split; [done|]. split; cbn; try done; intros; naive_solver.
  - eexists. split; [done|]. split; cbn; try done; intros; naive_solver.
  - destruct (fire_inv (poolCtx j) j Hinv) as (j' & -> & Hp' & Hs' & Hcp & Hcs & ? & ? & _ & ?);
      [by apply Hp; left|by left|].
    eexists. split; [done|]. split; cbn; rewrite ?Hp', ?Hs', ?Hcs; try congruence; try done.
    + by intros _; apply Hp; left.
    + intros H'. apply Hs. destruct (cb_submit j); cbn in H'; naive_solver.
  - destruct (fire_inv (submitCtx j) j Hinv) as (j' & -> & Hp' & Hs' & Hcp & Hcs & ? & ? & _ & ?);
      [by apply Hs; left|by right|].
    eexists. split; [done|]. split; cbn; rewrite ?Hp', ?Hs', ?Hcp; try congruence; try done.
    + intros H'. apply Hp. destruct (cb_pool j); cbn in H'; naive_solver.
    + by intros _; apply Hs; left.
Qed.

Lemma reachable_jc_inv j j' : jc_inv j → rtc jc_next j j' → jc_inv j'.
Proof.
  intros Hj Hrtc. eapply (rtc_preserves jc_next); [|exact Hrtc|exact Hj].
  intros s s' Hs Hstep. by destruct (jc_step_inv _ _ Hs Hstep) as (? & [= <-] & ?).
Qed.

(** A step never changes an error already reported. *)
Lemma jc_step_err j j' e : jc_inv j → jc_next j j' → Err j = Some e → Err j' = Some e.
Proof.
  unfold jc_next, Err. intros Hinv Hstep He. destruct (done_closed j) eqn:Hd; [|done].
  remember (Ret j') as o eqn:Heq. destruct Hstep as [j ? _|j ? _|j _ _|j _ _|j Hcb|j Hcb];
    try (injection Heq as <-; cbn; by rewrite Hd).
  - destruct (fire_inv (poolCtx j) j Hinv) as (j1 & Hf & _ & _ & _ & _ & _ & Hd1 & Hsame & _);
      [by apply (inv_pool _ Hinv); left|by left|].
    rewrite Hf in Heq. cbn in Heq. injection Heq as <-. cbn. rewrite Hd1, Hsame; done.
  - destruct (fire_inv (submitCtx j) j Hinv) as (j1 & Hf & _ & _ & _ & _ & _ & Hd1 & Hsame & _);
      [by apply (inv_submit _ Hinv); left|by right|].
    rewrite Hf in Heq. cbn in Heq. injection Heq as <-. cbn. rewrite Hd1, Hsame; done.
Qed.

(** While nothing is reported, a done parent leads to a report. *)
Lemma reports_pool j :
  jc_inv j → done_closed j = false → ctx_done (poolCtx j) = true →
  ∃ j1 j2 e, rtc jc_next j j1 ∧ jc_next j1 j2 ∧ Err j2 = Some e.
Proof.
  intros [Honce Hopen _ _ _] Hd Hc. rewrite Hd in Honce.
  set (j1 := set_cbs Running (cb_submit j) j).
  assert (rtc jc_next j j1) as Hj1.
  { destruct (cb_pool j) eqn:Hcb; try (by destruct (Hopen Hd) as (? & ? & _)).
    - apply rtc_once. by apply step_start_pool.
    - subst j1. unfold set_cbs. rewrite <- Hcb. by destruct j. }
  destruct (poolCtx j) as [e|] eqn:He; [|done].
  eexists j1, _, e. split; [done|]. split.
  - unfold jc_next. pose proof (step_run_pool j1 eq_refl) as H. unfold fire in H. cbn in H.
    rewrite Honce, Hd in H. exact H.
  - cbn. by rewrite He.
Qed.

Lemma reports_submit j :
  jc_inv j → done_closed j = false → ctx_done (submitCtx j) = true →
  ∃ j1 j2 e, rtc jc_next j j1 ∧ jc_next j1 j2 ∧ Err j2 = Some e.
Proof.
  intros [Honce Hopen _ _ _] Hd Hc. rewrite Hd in Honce.
  set (j1 := set_cbs (cb_pool j) Running j).
  assert (rtc jc_next j j1) as Hj1.
  { destruct (cb_submit j) eqn:Hcb; try (by destruct (Hopen Hd) as (_ & _ & ? & ?)).
    - apply rtc_once. by apply step_start_submit.
    - subst j1. unfold set_cbs. rewrite <- Hcb. by destruct j. }
  destruct (submitCtx j) as [e|] eqn:He; [|done].
  eexists j1, _, e. split; [done|]. split.
  - unfold jc_next. pose proof (step_run_submit j1 eq_refl) as H. unfold fire in H. cbn in H.
    rewrite Honce, Hd in H. exact H.
  - cbn. by rewrite He.
Qed.

(** C26: a job's context follows its parents. In every state reachable from the
    composition of two contexts: no callback can panic (in particular [done] is
    closed once); a reported error is the error of a parent that is done; once
    reported it never changes; and when a parent is done while nothing is reported
    yet, a callback step that reports an error is enabled, now or after starting. *)
Theorem job_context_follows_parents pool submit j0 j :
  newJobContext (Some pool) (Some submit) = Ret j0 → rtc jc_next j0 j →
  (∀ o, jc_step j o → o ≠ Panic) ∧
  (∀ e, Err j = Some e → poolCtx j = Some e ∨ submitCtx j = Some e) ∧
  (∀ e j', Err j = Some e → rtc jc_next j j' → Err j' = Some e) ∧
  (Err j = None → poolCtx j = None ∧ submitCtx j = None ∨
     ∃ j1 j2 e, rtc jc_next j j1 ∧ jc_next j1 j2 ∧ Err j2 = Some e).
Proof.
  intros Hnew Hreach. assert (jc_inv j) as Hinv by (eapply reachable_jc_inv; [by eapply new_inv|done]).
  split_and!.
  - intros o Hstep. by destruct (jc_step_inv _ _ Hinv Hstep) as (? & -> & _).
  - intros e. unfold Err. destruct (done_closed j) eqn:Hd; [|done]. intros He.
    destruct (inv_err _ Hinv Hd) as (e' & ? & ?). naive_solver.
  - intros e j' He Hrtc. cut (jc_inv j' ∧ Err j' = Some e); [by intros [_ ?]|].
    eapply (rtc_preserves jc_next (λ s, jc_inv s ∧ Err s = Some e)); [|exact Hrtc|done].
    intros s s' [Hs Hes] Hstep. split; [|by eapply jc_step_err].
    by destruct (jc_step_inv _ _ Hs Hstep) as (? & [= <-] & ?).
  - intros Herr. assert (done_closed j = false) as Hd.
    { unfold Err in Herr. destruct (done_closed j) eqn:Hd; [|done].
      destruct (inv_err _ Hinv Hd) as (? & ? & _). congruence. }
    destruct (ctx_done (poolCtx j)) eqn:Hp; [right; by apply reports_pool|].
    destruct (ctx_done (submitCtx j)) eqn:Hs; [right; by apply reports_submit|].
    left. by destruct (poolCtx j), (submitCtx j).
Qed.

(** The caller's deadline passes, then the pool is canceled: the first error stays. *)
Lemma job_context_follows_parents_witness :
  ∃ j, rtc jc_next (MkJobContext None None false false None Registered Registered) j ∧
    Err j = Some DeadlineExceeded ∧
    ∀ j', rtc jc_next j j' → Err j' = Some DeadlineExceeded.
Proof.
  set (j0 := MkJobContext None None false false None Registered Registered).
  set (j := MkJobContext None (Some DeadlineExceeded) true true (Some DeadlineExceeded) Stopped Finished).
  assert (rtc jc_next j0 j) as Hj.
  { eapply rtc_l; [by apply (step_cancel_submit _ DeadlineExceeded)|].
    eapply rtc_l; [by apply step_start_submit|].
    eapply rtc_l; [exact (step_run_submit (MkJobContext None (Some DeadlineExceeded) false false None
      Registered Running) eq_refl)|reflexivity]. }
  exists j. split; [exact Hj|]. split; [reflexivity|].
  destruct (job_context_follows_parents None None j0 j eq_refl Hj) as (_ & _ & Hstable & _).
  intros j'. apply Hstable. reflexivity.
Defined.

(** ** Deadline *)

(** [Deadline()] of a context: its instant when it has one. *)
Definition Deadline (pool submit : option Z) : option Z :=
  match pool, submit with
  | Some d1, Some d2 => if d1 <? d2 then Some d1 else Some d2
  | Some d1, None => Some d1
  | None, Some d2 => Some d2
  | None, None => None
  end.

(** ** Value *)

(** An interface value: nil, or a value with its dynamic type. Comparing two
    values of one dynamic type that is not comparable (a slice, a map, a function)
    panics. *)
Record dyn := MkDyn { dyn_type : Z; comparable : bool; dyn_value : Z }.
Definition any : Type := option dyn.

(** [x != y] on interface values. *)
Definition any_ne (x y : any) : outcome bool :=
  match x, y with
  | None, None => Ret false
  | Some a, Some b =>
      if dyn_type a =? dyn_type b
      then if comparable a then Ret (negb (dyn_value a =? dyn_value b)) else Panic
      else Ret true
  | _, _ => Ret true
  end.

Definition Value (pool submit : Z → any) (key : Z) : outcome any :=
  let poolVal := pool key in
  let submitVal := submit key in
  ne <-- any_ne poolVal submitVal ;;;
  if ne : bool then
    match poolVal, submitVal with
    | None, None => Ret None
    | None, _ => Ret submitVal
    | _, None => Ret poolVal
    | _, _ => Ret submitVal
    end
  else Ret submitVal.

(** Dynamic types are comparable or not, once and for all. *)
Definition well_typed (vs : list any) : Prop :=
  ∀ a b, Some a ∈ vs → Some b ∈ vs → dyn_type a = dyn_type b → comparable a = comparable b.

(** [Value] case by case. *)
Lemma Value_cases vp vs key :
  Value vp vs key =
  match vp key, vs key with
  | Some a, Some b =>
      if (dyn_type a =? dyn_type b) && negb (comparable a) then Panic else Ret (Some b)
  | Some a, None => Ret (Some a)
  | None, v => Ret v
  end.
Proof.
  unfold Value, any_ne. destruct (vp key) as [a|], (vs key) as [b|]; cbn; try done.
  destruct (_ =? _); cbn; [|done]. destruct (comparable a); cbn; [|done]. by destruct (negb _).
Qed.

(** C40: what a job's context says besides cancellation. Its deadline is the earlier
    of its parents' deadlines; a key's value is the caller's, and the pool's when
    the caller has none, except that looking up a key both parents hold with values
    of the same type that is not comparable panics, and only that panics. *)
Theorem job_context_deadline_and_value (dp ds : option Z) (vp vs : Z → any) key :
  well_typed [vp key; vs key] →
  (match Deadline dp ds with
   | Some d => (dp = Some d ∨ ds = Some d) ∧ (∀ x, dp = Some x ∨ ds = Some x → d ≤ x)
   | None => dp = None ∧ ds = None
   end) ∧
  (Value vp vs key = Panic ↔
     ∃ a b, vp key = Some a ∧ vs key = Some b ∧ dyn_type a = dyn_type b ∧ comparable a = false) ∧
  (∀ v, Value vp vs key = Ret v → v = match vs key with Some b => Some b | None => vp key end).
Proof.
  intros Htyped. split_and!.
  - unfold Deadline. destruct dp as [d1|], ds as [d2|]; cbn; try done;
      [destruct (Z.ltb_spec d1 d2)|..]; (split; [by auto|]); intros x [Hx|Hx]; simplify_eq; lia.
  - rewrite Value_cases. destruct (vp key) as [a|], (vs key) as [b|]; cbn.
    2-4: split; [done|by intros (? & ? & [=] & [=] & _)].
    destruct (Z.eqb_spec (dyn_type a) (dyn_type b)), (comparable a) eqn:Hc; cbn; split; try done;
      try (intros (? & ? & [= <-] & [= <-] & ? & ?); congruence).
    intros _. by exists a, b.
  - intros v. rewrite Value_cases. destruct (vp key) as [a|], (vs key) as [b|]; cbn;
      [case_match; [done|]|..]; by intros [= <-].
Qed.

(** A key whose value is a function on both sides. *)
Lemma job_context_deadline_and_value_witness :
  let f : Z → any := λ _, Some (MkDyn 3 false 1) in
  Deadline (Some 9) (Some 4) = Some 4 ∧ Value f f 0 = Panic.
Proof.
  intros f.
  assert (well_typed [f 0; f 0]) as Hw.
  { intros a b Ha Hb _. rewrite !elem_of_cons, elem_of_nil in Ha, Hb.
    destruct Ha as [[= ->]|[[= ->]|[]]]; destruct Hb as [[= ->]|[[= ->]|[]]]; reflexivity. }
  destruct (job_context_deadline_and_value (Some 9) (Some 4) f f 0 Hw) as (_ & Hpanic & _).
  split; [reflexivity|]. apply Hpanic. do 2 eexists. split_and!; reflexivity.
Defined.
