(* ===== verification/Claims.v ===== *)
(** * The claims dispatcher's shared state ([src/pkg/workerpool/claims.go])

    The subscribers and the channel on which workers advertise that they are idle.
    Each operation is atomic (a critical section or one channel operation); the
    submission loop that combines them is in [Pool]. A worker is its index (its ID
    minus one), an input channel the number of the join that made it. *)
From S2P Require Import Prelude Golang PoolConfig.
Local Open Scope Z_scope.

Record claim := MkClaim { claim_id : nat; claim_input : nat }.

Record claims := MkClaims {
  subscribers : gset nat;
  claimsCh : chan claim;
}.

(** [newClaims]: a nil config is refused, the channel holds [Size] claims. *)
Definition newClaims (NumCPU : Z) (cfg : option ClaimsConfig) : outcome (error + claims) :=
  match cfg with
  | None => Ret (inl (Wrapped "nil claims config" [ErrNil]))
  | Some cfg =>
      let cfg := ClaimsConfig_applyDefaults NumCPU cfg in
      match make_chan (Size cfg) with
      | Ret ch => Ret (inr (MkClaims ∅ ch))
      | Panic => Panic
      end
  end.

Definition Subscribe (cfg : ClaimsConfig) (w : option nat) (c : claims) : option error * claims :=
  match w with
  | None => (Some ErrInvalidWorker, c)
  | Some id =>
      if Size cfg <=? Z.of_nat (size (subscribers c)) then (Some ErrMaxPoolSize, c)
      else (None, MkClaims ({[id]} ∪ subscribers c) (claimsCh c))
  end.

Definition Unsubscribe (w : option nat) (c : claims) : option error * claims :=
  match w with
  | None => (None, c)
  | Some id =>
      if decide (id ∈ subscribers c)
      then (None, MkClaims (subscribers c ∖ {[id]}) (claimsCh c))
      else (None, c)
  end.

Definition PendingClaims (c : claims) : Z := chan_len (claimsCh c).

(** A worker's send case [jobs <- claim] and the dispatcher's receive case. *)
Definition advertise (k : claim) (c : claims) : option claims :=
  match chan_send (claimsCh c) k with
  | Sent ch => Some (MkClaims (subscribers c) ch)
  | SendBlocks | SendPanics => None
  end.

Definition next_claim (c : claims) : option (claim * claims) :=
  match chan_recv (claimsCh c) with
  | Received k ch => Some (k, MkClaims (subscribers c) ch)
  | RecvClosed | RecvBlocks => None
  end.

(** ** Bounds *)

(** At most [n] subscribers and [n] pending claims; the channel is never closed. *)
Record claims_bounded (n : Z) (c : claims) : Prop := {
  bounded_subscribers : Z.of_nat (size (subscribers c)) ≤ n;
  bounded_wf : chan_wf (claimsCh c);
  bounded_cap : Z.of_nat (chan_cap (claimsCh c)) = n;
  bounded_open : chan_closed (claimsCh c) = false;
}.

Lemma PendingClaims_bounded n c : claims_bounded n c → 0 ≤ PendingClaims c ≤ n.
Proof. intros [_ Hwf <- _]. unfold PendingClaims, chan_len, chan_wf in *. lia. Qed.

Lemma newClaims_bounded NumCPU cfg r :
  newClaims NumCPU (Some cfg) = Ret (inr r) →
  claims_bounded (Size (ClaimsConfig_applyDefaults NumCPU cfg)) r ∧ subscribers r = ∅.
Proof.
  unfold newClaims. destruct (make_chan _) as [ch|] eqn:Hch; [|done]. intros [= <-].
  assert (chan_closed ch = false) by (unfold make_chan in Hch; case_match; by simplify_eq).
  apply make_chan_wf in Hch as (? & _ & Hcap). split; [|done].
  split; [|done|exact Hcap|done]. cbn [subscribers]. rewrite size_empty, <- Hcap. lia.
Qed.

Lemma Subscribe_bounded cfg w c :
  claims_bounded (Size cfg) c → claims_bounded (Size cfg) (Subscribe cfg w c).2.
Proof.
  intros [Hs Hwf Hcap Hop]. unfold Subscribe. destruct w as [id|]; [|by split].
  case_match; boolify; [by split|]. split; cbn; [|done..].
  pose proof (size_union_alt {[id]} (subscribers c)) as Hu.
  rewrite size_singleton in Hu.
  assert (size (subscribers c ∖ {[id]}) ≤ size (subscribers c))%nat
    by (apply subseteq_size; set_solver). lia.
Qed.

Lemma Unsubscribe_bounded n w c : claims_bounded n c → claims_bounded n (Unsubscribe w c).2.
Proof.
  intros [Hs Hwf Hcap Hop]. unfold Unsubscribe. destruct w as [id|]; [|by split].
  case_decide; [|by split]. split; cbn; [|done..].
  assert (size (subscribers c ∖ {[id]}) ≤ size (subscribers c))%nat
    by (apply subseteq_size; set_solver). lia.
Qed.

Lemma advertise_bounded n k c c' : claims_bounded n c → advertise k c = Some c' → claims_bounded n c'.
Proof.
  intros [Hs Hwf Hcap Hop]. unfold advertise. destruct (chan_send _ _) as [ch| |] eqn:Hch; try done.
  intros [= <-]. split; cbn; [done|by eapply chan_send_wf|..];
    unfold chan_send in Hch; by repeat case_match; simplify_eq.
Qed.

Lemma next_claim_bounded n k c c' : claims_bounded n c → next_claim c = Some (k, c') → claims_bounded n c'.
Proof.
  intros [Hs Hwf Hcap Hop]. unfold next_claim. destruct (chan_recv _) as [v ch| |] eqn:Hch; try done.
  intros [= -> <-]. destruct (chan_recv_frame _ _ _ Hch) as [Ec Eo].
  split; cbn; [done|by eapply chan_recv_wf|by rewrite Ec|by rewrite Eo].
Qed.

(** The subscribers' contract. A new worker is admitted while there is room and
    is subscribed afterwards; at [Size] subscribers every [Subscribe] is refused
    with [ErrMaxPoolSize], the one of a worker already subscribed included;
    [Unsubscribe] removes exactly that worker and never fails; neither touches the
    pending claims, so the claim of a worker that left stays in the channel. *)
Theorem subscribers_contract cfg id c :
  let '(e, c1) := Subscribe cfg (Some id) c in
  let '(e', c2) := Unsubscribe (Some id) c in
  (Z.of_nat (size (subscribers c)) < Size cfg →
     e = None ∧ subscribers c1 = {[id]} ∪ subscribers c) ∧
  (Size cfg ≤ Z.of_nat (size (subscribers c)) → e = Some ErrMaxPoolSize ∧ c1 = c) ∧
  e' = None ∧ subscribers c2 = subscribers c ∖ {[id]} ∧
  claimsCh c1 = claimsCh c ∧ claimsCh c2 = claimsCh c.
Proof.
  unfold Subscribe, Unsubscribe.
  destruct (Z.leb_spec (Size cfg) (Z.of_nat (size (subscribers c)))), (decide (id ∈ subscribers c));
    cbn; split_and!; auto; try lia; set_solver.
Qed.
