(* ===== verification/Pool.v ===== *)
(** * The worker pool ([src/pkg/workerpool]: pool.go, worker.go, claims.go, scaler.go)

    One step function per goroutine: the run loop of a worker, the dispatcher with
    the submission loop of the claims, the autoscaler, the goroutine that closes the
    pool; and [Submit]. A goroutine's phase is its position in the source, a step
    runs to the next access to shared state. [None] is a step the choice does not
    enable (a blocked select case), [Panic] a crash of the process. The [accepted]
    jobs and the [events] record history. *)
From S2P Require Import Prelude Golang PoolConfig Claims Scaler.
Local Open Scope Z_scope.
Local Open Scope go_scope.

(** ** Data *)

(** A job in its [jobContext]: the payload and the caller's context; the other
    parent is the pool's context (see [JobContext]). *)
Record Job := MkJob { job : Z; submitCtx : nat }.

#[export] Instance Job_eq_dec : EqDecision Job.
Proof. solve_decision. Defined.

Inductive pool_event :=
| WorkerStarted (id : nat)
| WorkerStopped (id : nat)
| JobFailed (e : error) (j : Job)
| JobOk (j : Job)
| Subscribed (id : nat)
| SubscribeFailed (e : error) (id : nat)
| Unsubscribed (id : nat)
| LeaveTimeout (id : nat) (timeout : Z)
| DispatchError (e : error) (j : Job).

(** A worker. Its context, input and done channel are made by a join and named by
    its number; [ctxFn] stands for the pair of [ctxFn] and [cancel], nil before the
    first join and after a completed leave. *)
Record worker := MkWorker {
  running : bool;
  startedNotified : bool;
  lastActiveAt : Z;
  ctxFn : option nat;
  input : nat;
  done : nat;
}.

(** The phases of [runLoop]: before [defer close(w.done)]; at the head of the loop;
    parked in the first select; its claim sent; its start notified; parked in the
    second select; the job received; the handler running; the outcome reported;
    [running] reset; returning, before the deferred close; returned. *)
Inductive loop_phase :=
| Starting
| LoopHead
| Advertising (c i : nat)
| Claimed
| Notified
| Awaiting (c i : nat)
| GotJob (j : Job)
| Processing (j : Job)
| Reported
| Resting
| Exiting
| Returned.

Record loop := MkLoop { loop_worker : nat; loop_done : option nat; phase : loop_phase }.

(** The phases of the loop of [submit]: at its head; parked in its select; a claim
    received; parked in the send to a worker's input. *)
Inductive submit_phase :=
| SubmitHead
| SubmitWait
| SubmitCheck (k : claim)
| SubmitSend (i : nat).

Inductive dispatcher_phase :=
| Dispatch
| Submitting (j : Job) (deadline : Z) (ph : submit_phase)
| Drained.

(** The phases of [join]: before its checks of the context and of [running], before
    Subscribe, before [lastActiveAt] is set, before the section that makes the context
    and the channels, before [startedNotified] is reset and the run loop started. *)
Inductive join_phase :=
  JoinCtx | JoinRunning | JoinSubscribe | JoinStamp | JoinInstall | JoinStart.

(** The phases of [leave]: before Unsubscribe, before cancel, parked on [done]. *)
Inductive leave_phase := LeaveUnsubscribe | LeaveCancel | LeaveWait (d : nat).

(** The phases of [pickVictim] at a candidate: before [IsRunning], before the idle
    period is checked, before its [LastActiveAt] is read to compare, and the best's. *)
Inductive pick_phase := PickRunning | PickIdle | PickCompare | PickBest (a : Z).

(** The phases of [runScaler]: in its select; reading the load; adding workers ([step]
    left, [added] so far); one joining; joined and not yet recorded; before the list of
    candidates; picking a victim; the victim leaving; left and still recorded;
    returned. *)
Inductive scaler_phase :=
| NoScaler
| ScalerSelect (lastUp lastDown : Z)
| ScalerLoad (lastUp lastDown : Z)
| ScalerLoadIdle (joined lastUp lastDown : Z)
| ScalerLoadBacklog (joined idle lastUp lastDown : Z)
| ScalerUp (t : Z) (step added : nat) (lastUp lastDown : Z)
| ScalerJoin (id : nat) (ph : join_phase) (t : Z) (step added : nat) (lastUp lastDown : Z)
| ScalerAdd (id : nat) (t : Z) (step added : nat) (lastUp lastDown : Z)
| ScalerCandidates (t lastUp lastDown : Z)
| ScalerPick (ids : list nat) (i : nat) (best : Z) (ph : pick_phase) (t lastUp lastDown : Z)
| ScalerLeave (id : nat) (t : Z) (ph : leave_phase) (lastUp : Z)
| ScalerLeft (id : nat) (t lastUp : Z)
| ScalerDone.

(** The phases of the one [close] that runs. *)
Inductive close_phase :=
| NotClosed
| CloseShutdown (drain : bool)
| CloseCancel
| CloseDrained
| CloseScaler
| CloseSnapshot
| CloseLeave (ids : list nat) (ph : leave_phase)
| Closed.

(** A call of the pool's [Submit] and its position: before the checks, in the rate
    limiter, in its select, returned. *)
Inductive call_phase := CallCheck | CallLimiter | CallSelect | CallReturned (e : option error).

Record submit_call := MkCall { call_job : Z; call_ctx : option nat; call_at : call_phase }.

Record pool := MkPool {
  cfg : Config;
  reject : bool;
  shutdown : bool;
  poolCtx : ctx;
  callers : gmap nat error;
  backlog : list Job;
  workers : list worker;
  joinedIDs : gset nat;
  availableWorkers : claims;
  canceled : gset nat;
  doneClosed : gset nat;
  fresh : nat;
  loops : list loop;
  dispatching : dispatcher_phase;
  scaling : scaler_phase;
  closing : close_phase;
  submits : list submit_call;
  accepted : list Job;
  events : list pool_event;
}.

Definition set_reject (x : bool) (p : pool) : pool :=
  MkPool (cfg p) x (shutdown p) (poolCtx p) (callers p) (backlog p) (workers p)
    (joinedIDs p) (availableWorkers p) (canceled p) (doneClosed p) (fresh p) (loops p)
    (dispatching p) (scaling p) (closing p) (submits p) (accepted p) (events p).

Definition set_shutdown (x : bool) (p : pool) : pool :=
  MkPool (cfg p) (reject p) x (poolCtx p) (callers p) (backlog p) (workers p) (joinedIDs
    p) (availableWorkers p) (canceled p) (doneClosed p) (fresh p) (loops p) (dispatching
    p) (scaling p) (closing p) (submits p) (accepted p) (events p).

Definition set_poolCtx (x : ctx) (p : pool) : pool :=
  MkPool (cfg p) (reject p) (shutdown p) x (callers p) (backlog p) (workers p)
    (joinedIDs p) (availableWorkers p) (canceled p) (doneClosed p) (fresh p) (loops p)
    (dispatching p) (scaling p) (closing p) (submits p) (accepted p) (events p).

Definition set_callers (x : gmap nat error) (p : pool) : pool :=
  MkPool (cfg p) (reject p) (shutdown p) (poolCtx p) x (backlog p) (workers p)
    (joinedIDs p) (availableWorkers p) (canceled p) (doneClosed p) (fresh p) (loops p)
    (dispatching p) (scaling p) (closing p) (submits p) (accepted p) (events p).

Definition set_backlog (x : list Job) (p : pool) : pool :=
  MkPool (cfg p) (reject p) (shutdown p) (poolCtx p) (callers p) x (workers p)
    (joinedIDs p) (availableWorkers p) (canceled p) (doneClosed p) (fresh p) (loops p)
    (dispatching p) (scaling p) (closing p) (submits p) (accepted p) (events p).

Definition set_workers (x : list worker) (p : pool) : pool :=
  MkPool (cfg p) (reject p) (shutdown p) (poolCtx p) (callers p) (backlog p) x
    (joinedIDs p) (availableWorkers p) (canceled p) (doneClosed p) (fresh p) (loops p)
    (dispatching p) (scaling p) (closing p) (submits p) (accepted p) (events p).

Definition set_joinedIDs (x : gset nat) (p : pool) : pool :=
  MkPool (cfg p) (reject p) (shutdown p) (poolCtx p) (callers p) (backlog p) (workers p)
    x (availableWorkers p) (canceled p) (doneClosed p) (fresh p) (loops p) (dispatching
    p) (scaling p) (closing p) (submits p) (accepted p) (events p).

Definition set_availableWorkers (x : claims) (p : pool) : pool :=
  MkPool (cfg p) (reject p) (shutdown p) (poolCtx p) (callers p) (backlog p) (workers p)
    (joinedIDs p) x (canceled p) (doneClosed p) (fresh p) (loops p) (dispatching p)
    (scaling p) (closing p) (submits p) (accepted p) (events p).

Definition set_canceled (x : gset nat) (p : pool) : pool :=
  MkPool (cfg p) (reject p) (shutdown p) (poolCtx p) (callers p) (backlog p) (workers p)
    (joinedIDs p) (availableWorkers p) x (doneClosed p) (fresh p) (loops p) (dispatching
    p) (scaling p) (closing p) (submits p) (accepted p) (events p).

Definition set_doneClosed (x : gset nat) (p : pool) : pool :=
  MkPool (cfg p) (reject p) (shutdown p) (poolCtx p) (callers p) (backlog p) (workers p)
    (joinedIDs p) (availableWorkers p) (canceled p) x (fresh p) (loops p) (dispatching
    p) (scaling p) (closing p) (submits p) (accepted p) (events p).

Definition set_fresh (x : nat) (p : pool) : pool :=
  MkPool (cfg p) (reject p) (shutdown p) (poolCtx p) (callers p) (backlog p) (workers p)
    (joinedIDs p) (availableWorkers p) (canceled p) (doneClosed p) x (loops p)
    (dispatching p) (scaling p) (closing p) (submits p) (accepted p) (events p).

Definition set_loops (x : list loop) (p : pool) : pool :=
  MkPool (cfg p) (reject p) (shutdown p) (poolCtx p) (callers p) (backlog p) (workers p)
    (joinedIDs p) (availableWorkers p) (canceled p) (doneClosed p) (fresh p) x
    (dispatching p) (scaling p) (closing p) (submits p) (accepted p) (events p).

Definition set_dispatching (x : dispatcher_phase) (p : pool) : pool :=
  MkPool (cfg p) (reject p) (shutdown p) (poolCtx p) (callers p) (backlog p) (workers p)
    (joinedIDs p) (availableWorkers p) (canceled p) (doneClosed p) (fresh p) (loops p) x
    (scaling p) (closing p) (submits p) (accepted p) (events p).

Definition set_scaling (x : scaler_phase) (p : pool) : pool :=
  MkPool (cfg p) (reject p) (shutdown p) (poolCtx p) (callers p) (backlog p) (workers p)
    (joinedIDs p) (availableWorkers p) (canceled p) (doneClosed p) (fresh p) (loops p)
    (dispatching p) x (closing p) (submits p) (accepted p) (events p).

Definition set_closing (x : close_phase) (p : pool) : pool :=
  MkPool (cfg p) (reject p) (shutdown p) (poolCtx p) (callers p) (backlog p) (workers p)
    (joinedIDs p) (availableWorkers p) (canceled p) (doneClosed p) (fresh p) (loops p)
    (dispatching p) (scaling p) x (submits p) (accepted p) (events p).

Definition set_submits (x : list submit_call) (p : pool) : pool :=
  MkPool (cfg p) (reject p) (shutdown p) (poolCtx p) (callers p) (backlog p) (workers p)
    (joinedIDs p) (availableWorkers p) (canceled p) (doneClosed p) (fresh p) (loops p)
    (dispatching p) (scaling p) (closing p) x (accepted p) (events p).

Definition set_accepted (x : list Job) (p : pool) : pool :=
  MkPool (cfg p) (reject p) (shutdown p) (poolCtx p) (callers p) (backlog p) (workers p)
    (joinedIDs p) (availableWorkers p) (canceled p) (doneClosed p) (fresh p) (loops p)
    (dispatching p) (scaling p) (closing p) (submits p) x (events p).

Definition set_events (x : list pool_event) (p : pool) : pool :=
  MkPool (cfg p) (reject p) (shutdown p) (poolCtx p) (callers p) (backlog p) (workers p)
    (joinedIDs p) (availableWorkers p) (canceled p) (doneClosed p) (fresh p) (loops p)
    (dispatching p) (scaling p) (closing p) (submits p) (accepted p) x.

(** ** Small steps on workers and contexts *)

Definition emit (e : pool_event) (p : pool) : pool := set_events (events p ++ [e]) p.

Definition set_worker (id : nat) (w : worker) (p : pool) : pool :=
  set_workers (<[id := w]> (workers p)) p.

Definition set_phase (i : nat) (ph : loop_phase) (p : pool) : pool :=
  set_loops (alter (λ l, MkLoop (loop_worker l) (loop_done l) ph) i (loops p)) p.

Definition set_running (b : bool) (w : worker) : worker :=
  MkWorker b (startedNotified w) (lastActiveAt w) (ctxFn w) (input w) (done w).
Definition set_startedNotified (b : bool) (w : worker) : worker :=
  MkWorker (running w) b (lastActiveAt w) (ctxFn w) (input w) (done w).
Definition set_lastActiveAt (t : Z) (w : worker) : worker :=
  MkWorker (running w) (startedNotified w) t (ctxFn w) (input w) (done w).
Definition set_channels (n : nat) (w : worker) : worker :=
  MkWorker (running w) (startedNotified w) (lastActiveAt w) (Some n) n n.
Definition clear_ctxFn (w : worker) : worker :=
  MkWorker (running w) (startedNotified w) (lastActiveAt w) None (input w) (done w).

(** The context of join [c] is done: canceled by a leave, or the pool's is. *)
Definition worker_ctx_done (p : pool) (c : nat) : bool :=
  ctx_done (poolCtx p) || bool_decide (c ∈ canceled p).

(** [ctx.Err()] of a job's context, reported by the pool's side or the caller's. *)
Definition job_ctx_err (p : pool) (j : Job) (pool_side : bool) : ctx :=
  if pool_side then poolCtx p else callers p !! submitCtx j.

Definition cancel_pool (p : pool) : pool :=
  match poolCtx p with Some _ => p | None => set_poolCtx (Some Canceled) p end.

(** ** worker.go *)

(** One step of [join]: its next phase or its result. It is refused when the pool is
    done, when the worker is running a job, or when the claims are full; the pool's
    claims are never nil. [newWorkerContext] is the fresh number [n]. *)
Definition join_step (id : nat) (ph : join_phase) (t : Z) (p : pool) :
    (join_phase + option error) * pool :=
  match workers p !! id with
  | None => (inr (Some ErrInvalidWorker), p)
  | Some w =>
      match ph with
      | JoinCtx =>
          match poolCtx p with Some e => (inr (Some e), p) | None => (inl JoinRunning, p) end
      | JoinRunning =>
          if running w then (inr (Some ErrWorkerAlreadyRunning), p) else (inl JoinSubscribe, p)
      | JoinSubscribe =>
          match Subscribe (Claims_cfg (cfg p)) (Some id) (availableWorkers p) with
          | (Some e, c) => (inr (Some e), emit (SubscribeFailed e id) (set_availableWorkers c p))
          | (None, c) => (inl JoinStamp, emit (Subscribed id) (set_availableWorkers c p))
          end
      | JoinStamp => (inl JoinInstall, set_worker id (set_lastActiveAt t w) p)
      | JoinInstall =>
          let n := fresh p in
          (inl JoinStart, set_fresh (S n) (set_worker id (set_channels n w) p))
      | JoinStart =>
          (inr None, set_loops (loops p ++ [MkLoop id None Starting])
            (set_worker id (set_startedNotified false w) p))
      end
  end.

(** [n] steps of [join] in a row. *)
Fixpoint join_steps (n : nat) (id : nat) (ph : join_phase) (t : Z) (p : pool) :
    (join_phase + option error) * pool :=
  match n with
  | O => (inl ph, p)
  | S n =>
      match join_step id ph t p with
      | (inl ph, p) => join_steps n id ph t p
      | r => r
      end
  end.

(** [join] run alone: it has six steps at most. *)
Definition join (id : nat) (t : Z) (p : pool) : (join_phase + option error) * pool :=
  join_steps 6 id JoinCtx t p.

(** [processJob]: a panic of the handler becomes an error. A handler returns or panics;
    one that leaves its goroutine ([runtime.Goexit]) is outside the model. *)
Definition processJob (r : outcome (option error)) : option error :=
  match r with
  | Ret e => e
  | Panic => Some (Joined [ErrWorkerPanic; Text "panic"])
  end.

(** The choices of a run loop: the case its select takes, what the handler returns,
    the time. *)
Inductive loop_choice :=
| LoopGo
| LoopTimeout
| LoopCtxDone
| LoopClaim
| LoopHandler (r : outcome (option error))
| LoopNow (t : Z).

(** The deferred close of [done], which panics the second time. *)
Definition loop_return (i : nat) (l : loop) (p : pool) : outcome pool :=
  let p := set_phase i Returned p in
  match loop_done l with
  | Some d =>
      if decide (d ∈ doneClosed p) then Panic else Ret (set_doneClosed ({[d]} ∪ doneClosed p) p)
  | None => Ret p
  end.

Definition runLoop_step (i : nat) (ch : loop_choice) (p : pool) : option (outcome pool) :=
  match loops p !! i with
  | None => None
  | Some l =>
      let id := loop_worker l in
      match workers p !! id with
      | None => None
      | Some w =>
          match phase l, ch with
          | Starting, LoopGo =>
              Some (Ret (set_loops (alter (λ l, MkLoop id (Some (done w)) LoopHead) i (loops p)) p))
          | LoopHead, LoopGo =>
              match ctxFn w with
              | None => Some Panic
              | Some c => Some (Ret (set_phase i (Advertising c (input w)) p))
              end
          | Advertising c k, LoopTimeout => Some (Ret (set_phase i LoopHead p))
          | Advertising c k, LoopCtxDone =>
              if worker_ctx_done p c
              then Some (Ret (set_phase i Exiting (set_worker id (set_running false w) p)))
              else None
          | Advertising c k, LoopClaim =>
              match advertise (MkClaim id k) (availableWorkers p) with
              | Some cs => Some (Ret (set_phase i Claimed (set_availableWorkers cs p)))
              | None => None
              end
          | Claimed, LoopGo =>
              let p' := set_worker id (set_startedNotified true w) p in
              Some (Ret (set_phase i Notified
                (if startedNotified w then p' else emit (WorkerStarted id) p')))
          | Notified, LoopGo =>
              match ctxFn w with
              | None => Some Panic
              | Some c => Some (Ret (set_phase i (Awaiting c (input w)) p))
              end
          | Awaiting c k, LoopCtxDone =>
              if worker_ctx_done p c
              then Some (Ret (set_phase i Exiting (set_worker id (set_running false w) p)))
              else None
          | GotJob j, LoopGo =>
              Some (Ret (set_phase i (Processing j) (set_worker id (set_running true w) p)))
          | Processing j, LoopHandler r =>
              let e := match processJob r with Some e => JobFailed e j | None => JobOk j end in
              Some (Ret (set_phase i Reported (emit e p)))
          | Reported, LoopGo =>
              Some (Ret (set_phase i Resting (set_worker id (set_running false w) p)))
          | Resting, LoopNow t =>
              Some (Ret (set_phase i LoopHead (set_worker id (set_lastActiveAt t w) p)))
          | Exiting, LoopGo => Some (loop_return i l p)
          | _, _ => None
          end
      end
  end.

(** One step of [leave]: its next phase or its result. The pool's claims are never
    nil, and [Unsubscribe] of a worker never fails. *)
Definition leave_step (id : nat) (ph : leave_phase) (timeout : bool) (p : pool) :
    option (outcome ((leave_phase + option error) * pool)) :=
  match workers p !! id with
  | None => None
  | Some w =>
      match ph with
      | LeaveUnsubscribe =>
          let r := Unsubscribe (Some id) (availableWorkers p) in
          Some (Ret (inl LeaveCancel, emit (Unsubscribed id) (set_availableWorkers r.2 p)))
      | LeaveCancel =>
          match ctxFn w with
          | None => Some Panic
          | Some c => Some (Ret (inl (LeaveWait (done w)), set_canceled ({[c]} ∪ canceled p) p))
          end
      | LeaveWait d =>
          if timeout then
            Some (Ret (inr (Some ErrWorkerTimeout),
              emit (WorkerStopped id)
                (emit (LeaveTimeout id (SubmitTimeout (Claims_cfg (cfg p)))) p)))
          else if decide (d ∈ doneClosed p) then
            Some (Ret (inr None, emit (WorkerStopped id) (set_worker id (clear_ctxFn w) p)))
          else None
      end
  end.

(** ** claims.go: the submission loop *)

Inductive submit_choice :=
| SubmitNow (t : Z)
| SubmitJobDone (pool_side : bool)
| SubmitTimer
| SubmitRecv
| SubmitHandoff (i : nat).

(** Loop [i] is parked in the receive from the input of join [k]. *)
Definition receives (p : pool) (i k : nat) : bool :=
  match loops p !! i with
  | Some l => match phase l with Awaiting _ k' => (k' =? k)%nat | _ => false end
  | None => false
  end.

(** One step of [submit]: its next phase or its result. *)
Definition submit_step (j : Job) (deadline : Z) (ph : submit_phase) (ch : submit_choice) (p : pool) :
    option ((submit_phase + option error) * pool) :=
  match ph, ch with
  | SubmitHead, SubmitNow t =>
      if deadline - t <=? 0 then
        if decide (subscribers (availableWorkers p) = ∅)
        then Some (inr (Some ErrNoWorkers), p)
        else Some (inr (Some ErrSubmitTimeout), p)
      else Some (inl SubmitWait, p)
  | SubmitWait, SubmitJobDone pool_side =>
      match job_ctx_err p j pool_side with
      | Some e => Some (inr (Some e), p)
      | None => None
      end
  | SubmitWait, SubmitTimer => Some (inl SubmitHead, p)
  | SubmitWait, SubmitRecv =>
      match next_claim (availableWorkers p) with
      | Some (k, cs) => Some (inl (SubmitCheck k), set_availableWorkers cs p)
      | None => None
      end
  | SubmitCheck k, SubmitNow t =>
      if decide (claim_id k ∈ subscribers (availableWorkers p)) then
        let sendWait := SubmitBackoff (Claims_cfg (cfg p)) in
        let r := deadline - t in
        let sendWait := if r <? sendWait then r else sendWait in
        if sendWait <=? 0 then Some (inl SubmitHead, p)
        else Some (inl (SubmitSend (claim_input k)), p)
      else Some (inl SubmitHead, p)
  | SubmitSend k, SubmitHandoff i =>
      if receives p i k then Some (inr None, set_phase i (GotJob j) p) else None
  | SubmitSend k, SubmitTimer => Some (inl SubmitHead, p)
  | _, _ => None
  end.

(** ** pool.go: the dispatcher *)

Inductive dispatcher_choice :=
| DispatchCtxDone
| DispatchShutdown
| DispatchRecv (t : Z)
| DispatchSubmit (ch : submit_choice).

Definition dispatcher_step (ch : dispatcher_choice) (p : pool) : option pool :=
  match dispatching p, ch with
  | Dispatch, DispatchCtxDone =>
      if ctx_done (poolCtx p) then Some (set_dispatching Drained p) else None
  | Dispatch, DispatchShutdown =>
      if shutdown p then
        if (length (backlog p) =? 0)%nat then Some (set_dispatching Drained p) else Some p
      else None
  | Dispatch, DispatchRecv t =>
      match backlog p with
      | j :: rest =>
          Some (set_dispatching (Submitting j (t + SubmitTimeout (Claims_cfg (cfg p))) SubmitHead)
            (set_backlog rest p))
      | [] => None
      end
  | Submitting j deadline ph, DispatchSubmit ch =>
      match submit_step j deadline ph ch p with
      | None => None
      | Some (inl ph', p) => Some (set_dispatching (Submitting j deadline ph') p)
      | Some (inr (Some e), p) => Some (set_dispatching Dispatch (emit (DispatchError e j) p))
      | Some (inr None, p) => Some (set_dispatching Dispatch p)
      end
  | _, _ => None
  end.

(** ** pool.go: Submit *)

Inductive call_choice :=
| CallGo
| CallLimited (e : option error)
| CallCtxDone
| CallShutdown
| CallSend
| CallTimeout.

Definition set_call (i : nat) (ph : call_phase) (p : pool) : pool :=
  set_submits (alter (λ c, MkCall (call_job c) (call_ctx c) ph) i (submits p)) p.

Definition Submit_step (i : nat) (ch : call_choice) (p : pool) : option pool :=
  match submits p !! i with
  | None => None
  | Some c =>
      match call_at c, ch with
      | CallCheck, CallGo =>
          match call_ctx c with
          | None => Some (set_call i (CallReturned (Some ErrNilCtx)) p)
          | Some _ =>
              if reject p then Some (set_call i (CallReturned (Some ErrPoolShutdown)) p)
              else Some (set_call i CallLimiter p)
          end
      | CallLimiter, CallLimited (Some e) => Some (set_call i (CallReturned (Some e)) p)
      | CallLimiter, CallLimited None => Some (set_call i CallSelect p)
      | CallSelect, CallCtxDone =>
          match poolCtx p with
          | Some e => Some (set_call i (CallReturned (Some e)) p)
          | None => None
          end
      | CallSelect, CallShutdown =>
          if shutdown p then Some (set_call i (CallReturned (Some ErrPoolShutdown)) p) else None
      | CallSelect, CallSend =>
          match call_ctx c with
          | Some x =>
              if Z.of_nat (length (backlog p)) <? Backlog (cfg p) then
                let j := MkJob (call_job c) x in
                Some (set_call i (CallReturned None)
                  (set_backlog (backlog p ++ [j]) (set_accepted (j :: accepted p) p)))
              else None
          | None => None
          end
      | CallSelect, CallTimeout => Some (set_call i (CallReturned (Some ErrSubmitTimeout)) p)
      | _, _ => None
      end
  end.

(** ** scaler.go: the autoscaler *)

Definition JoinedCount (p : pool) : Z := Z.of_nat (size (joinedIDs p)).

(** The workers, in order, that are joined or not. *)
Definition joined_workers (p : pool) : list nat :=
  filter (λ id, id ∈ joinedIDs p) (seq 0 (length (workers p))).

Definition first_spare (p : pool) : option nat :=
  head (filter (λ id, id ∉ joinedIDs p) (seq 0 (length (workers p)))).

(** [joinOneIdle]: the spare worker to join, and its entry in the joined set once it
    has; the steps of the join are in between. *)
Definition joinOneIdle (p : pool) : error + nat :=
  match first_spare p with None => inl ErrMaxPoolSize | Some id => inr id end.

Definition joinOneIdle_add (id : nat) (p : pool) : pool :=
  set_joinedIDs ({[id]} ∪ joinedIDs p) p.

(** [leaveOne]: the end of it, after the steps of the leave. *)
Definition leaveOne_delete (id : nat) (p : pool) : pool :=
  set_joinedIDs (joinedIDs p ∖ {[id]}) p.

Definition candidate_of (p : pool) (id : nat) : idleCandidate :=
  match workers p !! id with
  | Some w => MkCandidate (running w) (lastActiveAt w)
  | None => MkCandidate true 0
  end.

(** One step of [pickVictim] over the workers [ids], at index [i]: each call of a
    candidate's method reads the worker as it is then. *)
Definition pick_step (read : nat → idleCandidate) (t period : Z) (ids : list nat)
    (i : nat) (best : Z) (ph : pick_phase) : nat * Z * pick_phase :=
  let candidate := match ids !! i with Some id => read id | None => MkCandidate true 0 end in
  let continue best := (S i, best, PickRunning) in
  match ph with
  | PickRunning => if IsRunning candidate then continue best else (i, best, PickIdle)
  | PickIdle =>
      if wrap64 (t - LastActiveAt candidate) <? period then continue best
      else if best =? -1 then continue (Z.of_nat i)
      else (i, best, PickCompare)
  | PickCompare => (i, best, PickBest (LastActiveAt candidate))
  | PickBest a =>
      match ids !! Z.to_nat best with
      | Some id => if a <? LastActiveAt (read id) then continue (Z.of_nat i) else continue best
      | None => continue best
      end
  end.

Inductive scaler_choice :=
| ScalerStop
| ScalerTick
| ScalerGo (t : Z)
| ScalerLeaveChoice (timeout : bool).

Definition scaler_step (ch : scaler_choice) (p : pool) : option (outcome pool) :=
  let a := AutoScale (cfg p) in
  let to (ph : scaler_phase) (p : pool) := Some (Ret (set_scaling ph p)) in
  match scaling p, ch with
  | ScalerSelect lastUp lastDown, ScalerStop =>
      if ctx_done (poolCtx p) || shutdown p then to ScalerDone p else None
  | ScalerSelect lastUp lastDown, ScalerTick => to (ScalerLoad lastUp lastDown) p
  | ScalerLoad lastUp lastDown, ScalerGo _ => to (ScalerLoadIdle (JoinedCount p) lastUp lastDown) p
  | ScalerLoadIdle joined lastUp lastDown, ScalerGo _ =>
      to (ScalerLoadBacklog joined (PendingClaims (availableWorkers p)) lastUp lastDown) p
  | ScalerLoadBacklog joined idle lastUp lastDown, ScalerGo t =>
      let snap := MkSnapshot joined idle (Z.of_nat (length (backlog p))) t lastUp lastDown in
      match decide_ snap a with
      | (up, step) => to (ScalerUp t (Z.to_nat step) 0 lastUp lastDown) p
      | (down, _) => to (ScalerCandidates t lastUp lastDown) p
      | (hold, _) => to (ScalerSelect lastUp lastDown) p
      end
  | ScalerUp t step added lastUp lastDown, ScalerGo _ =>
      let finish := ScalerSelect (if (0 <? added)%nat then t else lastUp) lastDown in
      match step with
      | O => to finish p
      | S step =>
          match joinOneIdle p with
          | inl _ => to finish p
          | inr id => to (ScalerJoin id JoinCtx t step added lastUp lastDown) p
          end
      end
  | ScalerJoin id ph t step added lastUp lastDown, ScalerGo now =>
      match join_step id ph now p with
      | (inl ph, p) => to (ScalerJoin id ph t step added lastUp lastDown) p
      | (inr None, p) => to (ScalerAdd id t step added lastUp lastDown) p
      | (inr (Some _), p) => to (ScalerUp t 0 added lastUp lastDown) p
      end
  | ScalerAdd id t step added lastUp lastDown, ScalerGo _ =>
      to (ScalerUp t step (S added) lastUp lastDown) (joinOneIdle_add id p)
  | ScalerCandidates t lastUp lastDown, ScalerGo _ =>
      to (ScalerPick (joined_workers p) 0 (-1) PickRunning t lastUp lastDown) p
  | ScalerPick ids i best ph t lastUp lastDown, ScalerGo _ =>
      if (i <? length ids)%nat then
        let '(i, best, ph) := pick_step (candidate_of p) t (ScaleDownIdlePeriod a) ids i best ph in
        to (ScalerPick ids i best ph t lastUp lastDown) p
      else if best =? -1 then to (ScalerSelect lastUp lastDown) p
      else
        match ids !! Z.to_nat best with
        | Some id => to (ScalerLeave id t LeaveUnsubscribe lastUp) p
        | None => Some Panic
        end
  | ScalerLeave id t ph lastUp, ScalerLeaveChoice timeout =>
      match leave_step id ph timeout p with
      | None => None
      | Some Panic => Some Panic
      | Some (Ret (inl ph', p)) => to (ScalerLeave id t ph' lastUp) p
      | Some (Ret (inr _, p)) => to (ScalerLeft id t lastUp) p
      end
  | ScalerLeft id t lastUp, ScalerGo _ => to (ScalerSelect lastUp t) (leaveOne_delete id p)
  | _, _ => None
  end.

(** ** pool.go: close *)

Definition close_step (timeout : bool) (p : pool) : option (outcome pool) :=
  match closing p with
  | NotClosed | Closed => None
  | CloseShutdown drain =>
      let p := set_shutdown true p in
      Some (Ret (set_closing (if drain then CloseDrained else CloseCancel) p))
  | CloseCancel => Some (Ret (set_closing CloseDrained (cancel_pool p)))
  | CloseDrained =>
      match dispatching p with
      | Drained =>
          Some (Ret (set_closing
            (if cfg_Mode (cfg p) =? ModeAutoScale then CloseScaler else CloseSnapshot) p))
      | _ => None
      end
  | CloseScaler =>
      match scaling p with ScalerDone => Some (Ret (set_closing CloseSnapshot p)) | _ => None end
  | CloseSnapshot =>
      Some (Ret (set_closing (CloseLeave (joined_workers p) LeaveUnsubscribe) (set_joinedIDs ∅ p)))
  | CloseLeave [] _ => Some (Ret (set_closing Closed (cancel_pool p)))
  | CloseLeave (id :: rest) ph =>
      match leave_step id ph timeout p with
      | None => None
      | Some Panic => Some Panic
      | Some (Ret (inl ph', p)) => Some (Ret (set_closing (CloseLeave (id :: rest) ph') p))
      | Some (Ret (inr _, p)) => Some (Ret (set_closing (CloseLeave rest LeaveUnsubscribe) p))
      end
  end.

(** [close(shouldDrain)]: the first caller rejects submissions and goes on; the
    others wait for it and change nothing. *)
Definition close (drain : bool) (p : pool) : option pool :=
  match closing p with
  | NotClosed => Some (set_closing (CloseShutdown drain) (set_reject true p))
  | _ => None
  end.

Definition Shutdown : pool → option pool := close false.
Definition GracefulShutdown : pool → option pool := close true.

(** ** pool.go: New *)

Definition createWorkers (n : Z) (t : Z) : list worker :=
  replicate (Z.to_nat n) (MkWorker false false t None 0 0).

Fixpoint joinInitial (ids : list nat) (t : Z) (p : pool) : option error * pool :=
  match ids with
  | [] => (None, p)
  | id :: ids =>
      match join id t p with
      | (inr None, p) => joinInitial ids t (set_joinedIDs ({[id]} ∪ joinedIDs p) p)
      | (inr (Some e), p) => (Some e, p)
      | (inl _, p) => (None, p)
      end
  end.

(** The pool before its first join. *)
Definition bare_pool (c : Config) (cs : claims) (t : Z) : pool :=
  MkPool c false false None ∅ [] (createWorkers (Size (Claims_cfg c)) t) ∅ cs ∅ ∅ 1 []
    Dispatch NoScaler NotClosed [] [] [].

(** [New], run without interruption at time [t]: the workers it starts meet the
    others only afterwards. [handler] is false for a nil handler. *)
Definition New (NumCPU : Z) (c : option ctx) (handler : bool) (config : option Config) (t : Z) :
    outcome (error + pool) :=
  match c with
  | None => Ret (inl (Joined [ErrInvalidPool; Text "nil context"]))
  | Some (Some e) => Ret (inl e)
  | Some None =>
      if negb handler then Ret (inl (Joined [ErrInvalidPool; Text "nil handler"]))
      else
        match config with
        | None => Ret (inl (Joined [ErrInvalidPool; Text "nil config"]))
        | Some config =>
            match effective_config NumCPU config with
            | inl e => Ret (inl e)
            | inr c =>
                r <-- newClaims NumCPU (Some (Claims_cfg c)) ;;;
                match r with
                | inl e => Ret (inl e)
                | inr cs =>
                    let p := bare_pool c cs t in
                    let auto := cfg_Mode c =? ModeAutoScale in
                    let initialJoin := if auto then MinSize (AutoScale c) else Size (Claims_cfg c) in
                    let n := Z.min initialJoin (Z.of_nat (length (workers p))) in
                    match joinInitial (seq 0 (Z.to_nat n)) t p with
                    | (Some e, _) => Ret (inl e)
                    | (None, p) => Ret (inr (if auto then set_scaling (ScalerSelect 0 0) p else p))
                    end
                end
            end
        end
  end.

(** ** The whole pool *)

(** What happens next: a client's call or cancellation, or a goroutine's step. *)
Inductive pool_move :=
| MoveSubmit (j : Z) (c : option nat)
| MoveClose (drain : bool)
| MoveCancelPool (e : error)
| MoveCancelCaller (c : nat) (e : error)
| MoveLoop (i : nat) (ch : loop_choice)
| MoveDispatch (ch : dispatcher_choice)
| MoveCall (i : nat) (ch : call_choice)
| MoveScaler (ch : scaler_choice)
| MoveClosing (timeout : bool).

Definition pool_advance (mv : pool_move) (p : pool) : option (outcome pool) :=
  match mv with
  | MoveSubmit j c => Some (Ret (set_submits (submits p ++ [MkCall j c CallCheck]) p))
  | MoveClose drain => Ret <$> close drain p
  | MoveCancelPool e =>
      Some (Ret (match poolCtx p with Some _ => p | None => set_poolCtx (Some e) p end))
  | MoveCancelCaller c e =>
      Some (Ret (match callers p !! c with
                 | Some _ => p
                 | None => set_callers (<[c := e]> (callers p)) p
                 end))
  | MoveLoop i ch => runLoop_step i ch p
  | MoveDispatch ch => Ret <$> dispatcher_step ch p
  | MoveCall i ch => Ret <$> Submit_step i ch p
  | MoveScaler ch => scaler_step ch p
  | MoveClosing timeout => close_step timeout p
  end.

Definition pool_next (p p' : pool) : Prop := ∃ mv, pool_advance mv p = Some (Ret p').

Fixpoint pool_run (mvs : list pool_move) (p : pool) : option (outcome pool) :=
  match mvs with
  | [] => Some (Ret p)
  | mv :: mvs =>
      match pool_advance mv p with
      | Some (Ret p) => pool_run mvs p
      | o => o
      end
  end.

Lemma pool_run_reachable mvs : ∀ p p', pool_run mvs p = Some (Ret p') → rtc pool_next p p'.
Proof.
  induction mvs as [|mv mvs IH]; cbn; intros p p'; [by intros [= <-]|].
  destruct (pool_advance mv p) as [[p1|]|] eqn:H; try done. intros Hrun.
  eapply rtc_l; [by exists mv|by apply IH].
Qed.
