(* ===== verification/PoolTable.v ===== *)
(** * The workers and their run loops

    What ties the run loops to the workers as long as every leave waits for its
    worker: a worker in use has a context, at most one live loop, and its own done
    channel. Each lemma is one way the pool's steps change the tables. *)
From S2P Require Import Prelude Golang PoolConfig Claims Scaler Pool.

(** [managed]: the workers joined, or about to be left by [close]; [starting]: a worker
    whose channels are made and whose loop is not started yet. *)
Record table_ok (ws : list worker) (ls : list loop) (dc : gset nat) (n : nat)
    (managed : gset nat) (starting : option nat) : Prop := {
  table_live : ∀ i l, ls !! i = Some l → phase l ≠ Returned →
    loop_worker l ∈ managed ∧
    ∃ w, ws !! loop_worker l = Some w ∧ ctxFn w ≠ None ∧ done w ∉ dc ∧
         (loop_done l = Some (done w) ∨ phase l = Starting);
  table_unique : ∀ i j l l', ls !! i = Some l → ls !! j = Some l' →
    phase l ≠ Returned → phase l' ≠ Returned → loop_worker l = loop_worker l' → i = j;
  table_managed : ∀ id, id ∈ managed → ∃ w, ws !! id = Some w ∧ ctxFn w ≠ None;
  table_done : ∀ id id' w w', ws !! id = Some w → ws !! id' = Some w' →
    ctxFn w ≠ None → ctxFn w' ≠ None → done w = done w' → id = id';
  table_fresh : ∀ id w, ws !! id = Some w → ctxFn w ≠ None → done w < n;
  table_closed : ∀ d, d ∈ dc → d < n;
  table_starting : ∀ id, starting = Some id →
    id ∉ managed ∧ ∃ w, ws !! id = Some w ∧ ctxFn w ≠ None ∧ done w ∉ dc;
}.

(** Worker [id] changed, its context and channels kept. *)
Lemma table_worker ws ls dc n m s id w w' :
  ws !! id = Some w → ctxFn w' = ctxFn w → done w' = done w →
  table_ok ws ls dc n m s → table_ok (<[id := w']> ws) ls dc n m s.
Proof.
  intros Hid Hc Hd [Hlive Huniq Hman Hdone Hfresh Hclosed Hstart].
  assert (∀ k v, <[id := w']> ws !! k = Some v →
    ∃ v0, ws !! k = Some v0 ∧ ctxFn v = ctxFn v0 ∧ done v = done v0) as Hback.
  { intros k v Hk. destruct (decide (k = id)) as [->|].
    - rewrite list_lookup_insert_eq in Hk by (by eapply lookup_lt_Some).
      injection Hk as <-. by exists w.
    - rewrite list_lookup_insert_ne in Hk by done. by exists v. }
  assert (∀ k v0, ws !! k = Some v0 →
    ∃ v, <[id := w']> ws !! k = Some v ∧ ctxFn v = ctxFn v0 ∧ done v = done v0) as Hforth.
  { intros k v0 Hk. destruct (decide (k = id)) as [->|].
    - exists w'. rewrite list_lookup_insert_eq by (by eapply lookup_lt_Some).
      assert (v0 = w) as -> by congruence. done.
    - exists v0. by rewrite list_lookup_insert_ne. }
  split; try done.
  - intros i l Hi Hph. destruct (Hlive i l Hi Hph) as (? & v0 & Hv0 & ? & ? & ?).
    split; [done|]. destruct (Hforth _ _ Hv0) as (v & ? & Hvc & Hvd). exists v.
    by rewrite Hvc, Hvd.
  - intros k Hk. destruct (Hman k Hk) as (v0 & Hv0 & ?).
    destruct (Hforth _ _ Hv0) as (v & ? & Hv & _). exists v. by rewrite Hv.
  - intros k k' v v' Hk Hk' ? ? ?.
    destruct (Hback _ _ Hk) as (v0 & ? & ? & ?), (Hback _ _ Hk') as (v1 & ? & ? & ?).
    apply (Hdone k k' v0 v1); congruence.
  - intros k v Hk ?. destruct (Hback _ _ Hk) as (v0 & ? & ? & Hv). rewrite Hv.
    apply (Hfresh k); congruence.
  - intros k Hk. destruct (Hstart k Hk) as (? & v0 & Hv0 & ? & ?). split; [done|].
    destruct (Hforth _ _ Hv0) as (v & ? & Hvc & Hvd). exists v. by rewrite Hvc, Hvd.
Qed.

(** A live loop goes on, having taken its worker's done channel or not yet. *)
Lemma table_loop ws ls dc n m s i l l' :
  ls !! i = Some l → phase l ≠ Returned → loop_worker l' = loop_worker l →
  (loop_done l' = loop_done l ∧ phase l ≠ Starting ∨
   ∃ w, ws !! loop_worker l = Some w ∧ loop_done l' = Some (done w)) →
  table_ok ws ls dc n m s → table_ok ws (alter (λ _, l') i ls) dc n m s.
Proof.
  intros Hi Hph Hw Hd [Hlive Huniq Hman Hdone Hfresh Hclosed Hstart].
  assert (∀ j k, alter (λ _, l') i ls !! j = Some k →
    j = i ∧ k = l' ∨ j ≠ i ∧ ls !! j = Some k) as Hback.
  { intros j k Hj. rewrite list_lookup_alter in Hj. case_decide; [|by right].
    subst j. left. rewrite Hi in Hj. by injection Hj. }
  split; try done.
  - intros j k Hj Hk. destruct (Hback j k Hj) as [[-> ->]|[Hne Hj']]; [|by apply (Hlive j)].
    destruct (Hlive i l Hi Hph) as (? & w & Hlw & ? & ? & Hor). rewrite Hw. split; [done|].
    exists w. split_and!; try done. left.
    destruct Hd as [[-> Hns]|(w' & Hw' & ->)]; [by destruct Hor|congruence].
  - intros j j' k k' Hj Hj' Hk Hk' Heq.
    destruct (Hback _ _ Hj) as [[-> ->]|[Hne H1]], (Hback _ _ Hj') as [[-> ->]|[Hne' H2]];
      try done; [|apply (Huniq j i k l)|by apply (Huniq j j' k k')]; try done; try congruence.
    symmetry. apply (Huniq j' i k' l); try done; congruence.
Qed.

(** A loop past its start returns and closes its done channel. *)
Lemma table_return ws ls dc n m s i l :
  ls !! i = Some l → phase l ≠ Returned → phase l ≠ Starting →
  table_ok ws ls dc n m s →
  table_ok ws (alter (λ l, MkLoop (loop_worker l) (loop_done l) Returned) i ls)
    (match loop_done l with Some d => {[d]} ∪ dc | None => dc end) n m s.
Proof.
  intros Hi Hph Hst [Hlive Huniq Hman Hdone Hfresh Hclosed Hstart].
  destruct (Hlive i l Hi Hph) as (Hm & w & Hw & Hc & Hdc & [Hld|?]); [|done]. rewrite Hld.
  assert (∀ j k, alter (λ l, MkLoop (loop_worker l) (loop_done l) Returned) i ls !! j = Some k →
    phase k ≠ Returned → j ≠ i ∧ ls !! j = Some k) as Hback.
  { intros j k Hj Hk. rewrite list_lookup_alter in Hj. case_decide; [|done].
    subst j. rewrite Hi in Hj. by injection Hj as <-. }
  split; try done.
  - intros j k Hj Hk. destruct (Hback j k Hj Hk) as [Hne Hj'].
    destruct (Hlive j k Hj' Hk) as (? & w' & Hw' & ? & ? & ?). split; [done|].
    exists w'. split_and!; try done. apply not_elem_of_union. split; [|done].
    intros Heq%elem_of_singleton. apply Hne, (Huniq j i k l); try done.
    apply (Hdone _ _ w' w); done.
  - intros j j' k k' Hj Hj' Hk Hk'.
    destruct (Hback _ _ Hj Hk) as [_ ?], (Hback _ _ Hj' Hk') as [_ ?]. by apply (Huniq j j' k k').
  - intros d [->%elem_of_singleton|?]%elem_of_union; [by eapply Hfresh|by apply Hclosed].
  - intros k Hk. destruct (Hstart k Hk) as (Hkm & v & Hv & ? & ?). split; [done|].
    exists v. split_and!; try done. apply not_elem_of_union. split; [|done].
    intros Heq%elem_of_singleton. apply Hkm.
    by rewrite (Hdone k (loop_worker l) v w).
Qed.

(** A worker not in use joins: a new number for its channels. *)
Lemma table_install ws ls dc n m id w :
  ws !! id = Some w → id ∉ m → table_ok ws ls dc n m None →
  table_ok (<[id := set_channels n w]> ws) ls dc (S n) m (Some id).
Proof.
  intros Hid Hm [Hlive Huniq Hman Hdone Hfresh Hclosed _].
  assert (<[id := set_channels n w]> ws !! id = Some (set_channels n w)) as Hnew
    by (by rewrite list_lookup_insert_eq by (by eapply lookup_lt_Some)).
  assert (∀ k, k ≠ id → <[id := set_channels n w]> ws !! k = ws !! k) as Hold
    by (intros k Hk; by rewrite list_lookup_insert_ne).
  split; try done.
  - intros j k Hj Hk. destruct (Hlive j k Hj Hk) as (Hmk & v & Hv & ? & ? & ?).
    split; [done|]. exists v. rewrite Hold; [done|]. intros Heq. apply Hm. by rewrite <- Heq.
  - intros k Hk. destruct (Hman k Hk) as (v & ? & ?). exists v. rewrite Hold; [done|]. by intros ->.
  - intros k k' v v' Hk Hk' Hv Hv' Heq.
    destruct (decide (k = id)) as [->|Hne], (decide (k' = id)) as [->|Hne']; try done.
    + rewrite Hnew in Hk. injection Hk as <-. rewrite Hold in Hk' by done.
      pose proof (Hfresh k' v' Hk' Hv'). cbn in Heq. lia.
    + rewrite Hnew in Hk'. injection Hk' as <-. rewrite Hold in Hk by done.
      pose proof (Hfresh k v Hk Hv). cbn in Heq. lia.
    + rewrite Hold in Hk, Hk' by done. by apply (Hdone k k' v v').
  - intros k v Hk Hv. destruct (decide (k = id)) as [->|Hne].
    + rewrite Hnew in Hk. injection Hk as <-. cbn. lia.
    + rewrite Hold in Hk by done. pose proof (Hfresh k v Hk Hv). lia.
  - intros d Hd. pose proof (Hclosed d Hd). lia.
  - intros k [= <-]. split; [done|]. exists (set_channels n w). split_and!; [done|done|].
    intros Hn%Hclosed. cbn in Hn. lia.
Qed.

(** Its loop starts. *)
Lemma table_start ws ls dc n m id :
  table_ok ws ls dc n m (Some id) →
  table_ok ws (ls ++ [MkLoop id None Starting]) dc n ({[id]} ∪ m) None.
Proof.
  intros [Hlive Huniq Hman Hdone Hfresh Hclosed Hstart].
  destruct (Hstart id eq_refl) as (Hm & w & Hw & Hc & Hd).
  assert (∀ j k, (ls ++ [MkLoop id None Starting]) !! j = Some k →
    ls !! j = Some k ∨ j = length ls ∧ k = MkLoop id None Starting) as Hback.
  { intros j k [Hj|[Hge Hj]]%lookup_app_Some; [by left|].
    apply list_lookup_singleton_Some in Hj as [Hj <-]. right. split; [lia|done]. }
  split; try done.
  - intros j k Hj Hk. destruct (Hback _ _ Hj) as [Hj'|[-> ->]].
    + destruct (Hlive j k Hj' Hk) as (Hmk & ?). split; [by apply elem_of_union_r|done].
    + cbn. split; [by apply elem_of_union_l, elem_of_singleton|]. exists w.
      split_and!; [done|done|done|by right].
  - intros j j' k k' Hj Hj' Hk Hk' Heq.
    destruct (Hback _ _ Hj) as [H1|[-> ->]], (Hback _ _ Hj') as [H2|[-> ->]]; try done.
    + by apply (Huniq j j' k k').
    + destruct (Hlive j k H1 Hk) as [Hmk _]. cbn in Heq. subst id. done.
    + destruct (Hlive j' k' H2 Hk') as [Hmk _]. cbn in Heq. subst id. done.
  - intros k [->%elem_of_singleton|Hk]%elem_of_union; [by exists w|by apply Hman].
Qed.

(** A worker whose loop has returned is left: no longer in use. *)
Lemma table_leave ws ls dc n m id w :
  ws !! id = Some w → done w ∈ dc → table_ok ws ls dc n m None →
  table_ok (<[id := clear_ctxFn w]> ws) ls dc n (m ∖ {[id]}) None.
Proof.
  intros Hid Hd [Hlive Huniq Hman Hdone Hfresh Hclosed _].
  assert (<[id := clear_ctxFn w]> ws !! id = Some (clear_ctxFn w)) as Hnew
    by (by rewrite list_lookup_insert_eq by (by eapply lookup_lt_Some)).
  assert (∀ k, k ≠ id → <[id := clear_ctxFn w]> ws !! k = ws !! k) as Hold
    by (intros k Hk; by rewrite list_lookup_insert_ne).
  assert (∀ k v, <[id := clear_ctxFn w]> ws !! k = Some v → ctxFn v ≠ None →
    k ≠ id ∧ ws !! k = Some v) as Hback.
  { intros k v Hk Hv. destruct (decide (k = id)) as [->|Hne]; [|by rewrite Hold in Hk].
    rewrite Hnew in Hk. by injection Hk as <-. }
  split; try done.
  - intros i l Hi Hph. destruct (Hlive i l Hi Hph) as (Hm & v & Hv & ? & Hdc & ?).
    assert (loop_worker l ≠ id) as Hne by (intros Heq; congruence).
    split; [set_solver|]. exists v. by rewrite Hold.
  - intros k [Hk Hne]%elem_of_difference. destruct (Hman k Hk) as (v & ? & ?).
    exists v. rewrite Hold; [done|]. set_solver.
  - intros k k' v v' Hk Hk' Hv Hv'.
    destruct (Hback _ _ Hk Hv) as [_ ?], (Hback _ _ Hk' Hv') as [_ ?]. by apply (Hdone k k' v v').
  - intros k v Hk Hv. destruct (Hback _ _ Hk Hv) as [_ ?]. by apply (Hfresh k).
Qed.

Lemma table_same ws ls dc n m m' s : table_ok ws ls dc n m s → m = m' → table_ok ws ls dc n m' s.
Proof. by intros ? <-. Qed.

(** No worker in use yet. *)
Lemma table_initial n t k : table_ok (createWorkers n t) [] ∅ k ∅ None.
Proof.
  split; try done; unfold createWorkers.
  - intros id id' w w' [-> _]%lookup_replicate. done.
  - intros id w [-> _]%lookup_replicate. done.
Qed.
