(* ===== verification/PoolSafety.v ===== *)
(** * Invariants of the worker pool

    Conservation of jobs, bounds on the pool's resources, the hand-off of a
    graceful shutdown, over every state reachable by the steps of [Pool]. *)
From S2P Require Import Prelude Golang PoolConfig Claims Scaler Pool.
Local Open Scope Z_scope.

(** ** Where the accepted jobs are *)

Definition loop_jobs (l : loop) : list Job :=
  match phase l with GotJob j | Processing j => [j] | _ => [] end.

Definition dispatcher_jobs (d : dispatcher_phase) : list Job :=
  match d with Submitting j _ _ => [j] | _ => [] end.

(** The outcome of a job: the handler returned, or the dispatch failed. *)
Definition event_jobs (e : pool_event) : list Job :=
  match e with JobFailed _ j | JobOk j | DispatchError _ j => [j] | _ => [] end.

Definition with_workers (p : pool) : list Job := loops p ≫= loop_jobs.
Definition completed (p : pool) : list Job := events p ≫= event_jobs.

Definition places (p : pool) : list Job :=
  backlog p ++ dispatcher_jobs (dispatching p) ++ with_workers p ++ completed p.

Abbreviation count := (count_occ Job_eq_dec).

Lemma count_alter_loop x (i : nat) l ls (f : loop → loop) :
  ls !! i = Some l →
  (count (alter f i ls ≫= loop_jobs) x + count (loop_jobs l) x =
   count (ls ≫= loop_jobs) x + count (loop_jobs (f l)) x)%nat.
Proof.
  revert i. induction ls as [|l0 ls IH]; intros [|i] Hi; try done; cbn in *.
  - injection Hi as ->. rewrite !count_occ_app. lia.
  - rewrite !count_occ_app. specialize (IH _ Hi). lia.
Qed.

Lemma count_set_phase x i l ph p :
  loops p !! i = Some l →
  (count (with_workers (set_phase i ph p)) x + count (loop_jobs l) x =
   count (with_workers p) x + count (loop_jobs (MkLoop (loop_worker l) (loop_done l) ph)) x)%nat.
Proof. intros Hi. by apply count_alter_loop. Qed.

Lemma count_emit x e p : count (completed (emit e p)) x = (count (completed p) x + count (event_jobs e) x)%nat.
Proof. unfold completed. cbn. by rewrite bind_app, count_occ_app, bind_singleton. Qed.

(** A step accounts for its jobs: what it accepts and moves balances. *)
Definition balanced (p p' : pool) : Prop :=
  ∀ x, (count (accepted p') x + count (places p) x = count (accepted p) x + count (places p') x)%nat.

#[export] Instance balanced_preorder : PreOrder balanced.
Proof.
  split; [by intros p x|]. intros p1 p2 p3 H12 H23 x. specialize (H12 x). specialize (H23 x). lia.
Qed.

Lemma count_places x p :
  count (places p) x = (count (backlog p) x + count (dispatcher_jobs (dispatching p)) x +
    count (with_workers p) x + count (completed p) x)%nat.
Proof. unfold places. rewrite !count_occ_app. lia. Qed.

(** Two pools that agree on what the balance reads. *)
Lemma balanced_same p p' :
  accepted p' = accepted p → backlog p' = backlog p →
  dispatcher_jobs (dispatching p') = dispatcher_jobs (dispatching p) →
  with_workers p' = with_workers p → completed p' = completed p →
  balanced p p'.
Proof. intros Ha Hb Hd Hw He x. by rewrite !count_places, Ha, Hb, Hd, Hw, He. Qed.

(** A job accepted at the end of the backlog. *)
Lemma balanced_accept j p p' :
  accepted p' = j :: accepted p → backlog p' = backlog p ++ [j] →
  dispatching p' = dispatching p → with_workers p' = with_workers p →
  completed p' = completed p → balanced p p'.
Proof.
  intros Ha Hb Hd Hw He x. rewrite !count_places, Ha, Hb, Hd, Hw, He, count_occ_app. cbn.
  destruct (Job_eq_dec j x); lia.
Qed.

Lemma balanced_emit e p : event_jobs e = [] → balanced p (emit e p).
Proof.
  intros He x. rewrite !count_places, count_emit, He.
  change (with_workers (emit e p)) with (with_workers p). cbn. lia.
Qed.

Lemma balanced_phase i l ph p :
  loops p !! i = Some l → loop_jobs l = [] →
  loop_jobs (MkLoop (loop_worker l) (loop_done l) ph) = [] → balanced p (set_phase i ph p).
Proof.
  intros Hi Hl Hph x. rewrite !count_places. pose proof (count_set_phase x i l ph p Hi) as H.
  rewrite Hl, Hph in H. change (completed (set_phase i ph p)) with (completed p). cbn in *. lia.
Qed.

Ltac same := apply balanced_same; reflexivity.

Lemma loop_return_balanced i l p p' :
  loops p !! i = Some l → loop_jobs l = [] → loop_return i l p = Ret p' → balanced p p'.
Proof.
  intros Hi Hl Hr. transitivity (set_phase i Returned p); [by apply (balanced_phase i l)|].
  revert Hr. unfold loop_return. repeat case_match; intros; simplify_eq; [same|reflexivity].
Qed.

(** A loop's step changes its phase, the jobs it holds and those reported. *)
Lemma balanced_move i l (f : loop → loop) p p' :
  loops p !! i = Some l → loops p' = alter f i (loops p) →
  accepted p' = accepted p → backlog p' = backlog p → dispatching p' = dispatching p →
  (∀ x, count (completed p') x + count (loop_jobs (f l)) x =
        count (completed p) x + count (loop_jobs l) x)%nat →
  balanced p p'.
Proof.
  intros Hi Hl Ha Hb Hd Hjobs x. rewrite !count_places, Ha, Hb, Hd.
  unfold with_workers. rewrite Hl. pose proof (count_alter_loop x i l (loops p) f Hi).
  specialize (Hjobs x). lia.
Qed.

(** Close a loop step's balance: the new phase of loop [i], holding [l]. *)
Ltac loop_moves Hi Hph :=
  intros [= <-]; eapply balanced_move;
    [exact Hi|reflexivity|reflexivity|reflexivity|reflexivity|];
  intros ?; unfold loop_jobs; cbn [phase]; rewrite ?Hph; reflexivity.

Lemma runLoop_balanced i ch p p' : runLoop_step i ch p = Some (Ret p') → balanced p p'.
Proof.
  unfold runLoop_step. destruct (loops p !! i) as [l|] eqn:Hi; [|done].
  destruct (workers p !! loop_worker l) as [w|] eqn:Hw; [|done].
  assert (match phase l with GotJob _ | Processing _ => True | _ => loop_jobs l = [] end)
    as Hnone by (unfold loop_jobs; by destruct (phase l)).
  destruct (phase l) as [| |c k| | |c k|j|j| | | |] eqn:Hph, ch as [| | | |r|t]; try done;
    try (loop_moves Hi Hph).
  - destruct (ctxFn w); [|done]. loop_moves Hi Hph.
  - case_match; [|done]. loop_moves Hi Hph.
  - destruct (advertise _ _); [|done]. loop_moves Hi Hph.
  - destruct (startedNotified w); [loop_moves Hi Hph|].
    intros [= <-]. eapply balanced_move; [exact Hi|reflexivity..|].
    intros x. cbn. rewrite Hnone. unfold completed. cbn.
    rewrite bind_app, count_occ_app. cbn. lia.
  - destruct (ctxFn w); [|done]. loop_moves Hi Hph.
  - case_match; [|done]. loop_moves Hi Hph.
  - intros [= <-]. eapply balanced_move; [exact Hi|reflexivity..|]. intros x.
    unfold loop_jobs at 1 2. cbn [phase]. rewrite Hph.
    change (completed (set_phase i Reported ?q)) with (completed q). rewrite count_emit.
    destruct (processJob r); cbn; lia.
  - intros [= Hr]. by eapply loop_return_balanced.
Qed.

(** The submission loop moves its job to a worker exactly when it returns nil. *)
Lemma submit_step_effect j deadline ph ch p r p' :
  submit_step j deadline ph ch p = Some (r, p') →
  accepted p' = accepted p ∧ backlog p' = backlog p ∧ dispatching p' = dispatching p ∧
  events p' = events p ∧
  ∀ x, count (with_workers p') x =
    (count (with_workers p) x + count (match r with inr None => [j] | _ => [] end) x)%nat.
Proof.
  unfold submit_step. destruct ph as [| |k|k], ch as [t|side| | |i]; try done.
  - repeat case_match; intros [= <- <-]; split_and!; try done; intros; cbn; lia.
  - case_match; [|done]. intros [= <- <-]. split_and!; try done; intros; cbn; lia.
  - intros [= <- <-]. split_and!; try done; intros; cbn; lia.
  - destruct (next_claim _) as [[k cs]|]; [|done]. intros [= <- <-].
    split_and!; try done; intros; cbn; lia.
  - repeat case_match; intros [= <- <-]; split_and!; try done; intros; cbn; lia.
  - intros [= <- <-]. split_and!; try done; intros; cbn; lia.
  - unfold receives. destruct (loops p !! i) as [l|] eqn:Hi; [|done].
    destruct (phase l) eqn:Hph; try done. case_match; [|done]. intros [= <- <-].
    split_and!; try done. intros x. pose proof (count_set_phase x i l (GotJob j) p Hi) as H'.
    unfold loop_jobs in H'. cbn [phase] in H'. rewrite Hph in H'. cbn in *. lia.
Qed.

Lemma dispatcher_balanced ch p p' : dispatcher_step ch p = Some p' → balanced p p'.
Proof.
  unfold dispatcher_step. destruct (dispatching p) as [|j deadline ph|] eqn:Hd, ch as [| |t|ch]; try done.
  - case_match; [|done]. intros [= <-]. apply balanced_same; try done. by rewrite Hd.
  - repeat case_match; try done; intros [= <-]; [|reflexivity].
    apply balanced_same; try done. by rewrite Hd.
  - destruct (backlog p) as [|j rest] eqn:Hb; [done|]. intros [= <-] x.
    rewrite !count_places, Hb, Hd. unfold with_workers, completed. cbn.
    destruct (Job_eq_dec j x); cbn; lia.
  - destruct (submit_step j deadline ph ch p) as [[r p1]|] eqn:Hs; [|done].
    apply submit_step_effect in Hs as (Ha & Hb & Hdp & He & Hw).
    assert (∀ x, count (completed p1) x = count (completed p) x) as Hc
      by (intros x; unfold completed; by rewrite He).
    destruct r as [ph'|[e|]]; intros [= <-] x; rewrite !count_places; cbn [accepted backlog dispatching set_dispatching
        emit set_events];
      rewrite Ha, Hb, Hd; cbn [dispatcher_jobs];
      specialize (Hw x); specialize (Hc x).
    + change (with_workers (set_dispatching ?d ?q)) with (with_workers q).
      change (completed (set_dispatching ?d ?q)) with (completed q). cbn in *. lia.
    + change (with_workers (set_dispatching ?d (emit ?e ?q))) with (with_workers q).
      change (completed (set_dispatching ?d ?q)) with (completed q). rewrite count_emit.
      cbn in *. lia.
    + change (with_workers (set_dispatching ?d ?q)) with (with_workers q).
      change (completed (set_dispatching ?d ?q)) with (completed q). cbn in *. lia.
Qed.

Lemma Submit_balanced i ch p p' : Submit_step i ch p = Some p' → balanced p p'.
Proof.
  unfold Submit_step. destruct (submits p !! i) as [c|]; [|done].
  destruct (call_at c) as [| | |res], ch as [|[le|]| | | |]; try done.
  - repeat case_match; intros [= <-]; same.
  - intros [= <-]. same.
  - intros [= <-]. same.
  - case_match; [|done]. intros [= <-]. same.
  - case_match; [|done]. intros [= <-]. same.
  - destruct (call_ctx c) as [cc|]; [|done]. case_match; [|done]. intros [= <-].
    by apply (balanced_accept (MkJob (call_job c) cc)).
  - intros [= <-]. same.
Qed.

(** What joins, leaves, the scaler and [close] leave alone. *)
Definition frame (p p' : pool) : Prop :=
  accepted p' = accepted p ∧ backlog p' = backlog p ∧ dispatching p' = dispatching p ∧
  (∀ x, count (with_workers p') x = count (with_workers p) x) ∧
  (∀ x, count (completed p') x = count (completed p) x).

Lemma frame_balanced p p' : frame p p' → balanced p p'.
Proof.
  intros (Ha & Hb & Hd & Hw & Hc) x. by rewrite !count_places, Ha, Hb, Hd, Hw, Hc.
Qed.

#[export] Instance frame_preorder : PreOrder frame.
Proof.
  split; [by intros p|]. intros p1 p2 p3 (Ha & Hb & Hd & Hw & Hc) (Ha' & Hb' & Hd' & Hw' & Hc').
  split_and!; congruence.
Qed.

Lemma frame_emit e p : event_jobs e = [] → frame p (emit e p).
Proof. intros He. split_and!; try done. intros x. rewrite count_emit, He. cbn. lia. Qed.

Ltac framed := split_and!; reflexivity.

Lemma join_step_frame id ph t p : frame p (join_step id ph t p).2.
Proof.
  unfold join_step. destruct (workers p !! id) as [w|]; [|reflexivity]. destruct ph; try framed.
  - by destruct (poolCtx p).
  - by destruct (running w).
  - destruct (Subscribe _ _ _) as [[e|] cs]; cbn [snd];
      (etrans; [|by apply frame_emit]; framed).
  - split_and!; try reflexivity. intros x. unfold with_workers. cbn [snd loops set_loops].
    rewrite bind_app, count_occ_app. cbn. lia.
Qed.

Lemma leave_step_frame id ph timeout p r p' :
  leave_step id ph timeout p = Some (Ret (r, p')) → frame p p'.
Proof.
  unfold leave_step. destruct (workers p !! id) as [w|]; [|done].
  destruct ph as [| |d].
  - intros [= <- <-]. etrans; [|by apply frame_emit]. framed.
  - destruct (ctxFn w); [|done]. intros [= <- <-]. framed.
  - destruct timeout; [intros [= <- <-]; etrans; by apply frame_emit|].
    case_decide; [|done]. intros [= <- <-]. etrans; [|by apply frame_emit]. framed.
Qed.

Lemma scaler_frame ch p p' : scaler_step ch p = Some (Ret p') → frame p p'.
Proof.
  unfold scaler_step. intros Hs.
  destruct (scaling p) as [| | | | | |id ph t n k u d| | |ids i best ph t u d|id t ph u| |], ch as [| |t'|tm];
    try done; try (injection Hs as <-; framed).
  - case_match; [|done]. injection Hs as <-. framed.
  - destruct (decide_ _ _) as [[] step]; injection Hs as <-; framed.
  - destruct step as [|step]; [|destruct (joinOneIdle p)]; injection Hs as <-; framed.
  - pose proof (join_step_frame id ph t' p) as Hf.
    destruct (join_step id ph t' p) as [[ph'|[e|]] p1]; injection Hs as <-; (etrans; [exact Hf|]; framed).
  - destruct (i <? length ids)%nat; [|destruct (best =? -1); [|case_match; [|done]]].
    + destruct (pick_step _ _ _ _ _ _ _) as [[i' best'] ph']. injection Hs as <-. framed.
    + injection Hs as <-. framed.
    + injection Hs as <-. framed.
  - destruct (leave_step id ph tm p) as [[[[ph'|e] p1]|]|] eqn:Hl; try done;
      apply leave_step_frame in Hl; injection Hs as <-; (etrans; [exact Hl|]; framed).
Qed.

Lemma cancel_pool_frame p : frame p (cancel_pool p).
Proof. unfold cancel_pool. destruct (poolCtx p); [reflexivity|framed]. Qed.

Lemma close_frame tm p p' : close_step tm p = Some (Ret p') → frame p p'.
Proof.
  unfold close_step. destruct (closing p) as [|dr| | | | |[|id rest] ph|] eqn:Hc; try done.
  - intros [= <-]. framed.
  - intros [= <-]. etrans; [apply cancel_pool_frame|]. framed.
  - destruct (dispatching p) eqn:Hd; try done. intros [= <-]. framed.
  - destruct (scaling p); try done. intros [= <-]. framed.
  - intros [= <-]. framed.
  - intros [= <-]. etrans; [apply cancel_pool_frame|]. framed.
  - destruct (leave_step id ph tm p) as [[[[ph'|e] p1]|]|] eqn:Hl; try done;
      apply leave_step_frame in Hl; intros [= <-]; (etrans; [exact Hl|]; framed).
Qed.

Lemma pool_next_balanced p p' : pool_next p p' → balanced p p'.
Proof.
  intros [mv Hmv]. destruct mv as [j c|dr|e|c e|i ch|ch|i ch|ch|tm]; cbn in Hmv.
  - injection Hmv as <-. same.
  - unfold close in Hmv. destruct (closing p); try done. injection Hmv as <-. same.
  - injection Hmv as <-. destruct (poolCtx p); [reflexivity|same].
  - injection Hmv as <-. destruct (callers p !! c); [reflexivity|same].
  - by eapply runLoop_balanced.
  - destruct (dispatcher_step ch p) eqn:Hs; [|done]. injection Hmv as <-. by eapply dispatcher_balanced.
  - destruct (Submit_step i ch p) eqn:Hs; [|done]. injection Hmv as <-. by eapply Submit_balanced.
  - apply frame_balanced. by eapply scaler_frame.
  - apply frame_balanced. by eapply close_frame.
Qed.
