(* ===== verification/PoolInvariant.v ===== *)
(** * The invariant of the worker pool

    What holds in every state the pool reaches: the claims, backlog and worker set
    within their bounds; the joined workers within the scaling bounds; the phases of
    the scaler and of [close] consistent with them; and, as long as no leave has
    timed out, the tables of [PoolTable]. *)
From S2P Require Import Prelude Golang PoolConfig Claims Scaler Pool PoolTable PoolSafety.
Local Open Scope Z_scope.

Definition is_timeout (e : pool_event) : Prop :=
  match e with LeaveTimeout _ _ => True | _ => False end.

(** No leave has timed out so far. *)
Definition no_timeout (p : pool) : Prop := Forall (λ e, ¬ is_timeout e) (events p).

Definition auto (p : pool) : Prop := cfg_Mode (cfg p) = ModeAutoScale.

(** The workers [close] has still to leave. *)
Definition leaving (p : pool) : list nat :=
  match closing p with CloseLeave ids _ => ids | _ => [] end.

(** The worker the scaler started and has still to record, the one it left and has
    still to remove, the one whose loop it is about to start. *)
Definition joining (p : pool) : gset nat :=
  match scaling p with ScalerAdd id _ _ _ _ _ => {[id]} | _ => ∅ end.
Definition departed (p : pool) : gset nat :=
  match scaling p with ScalerLeft id _ _ => {[id]} | _ => ∅ end.
Definition starting (p : pool) : option nat :=
  match scaling p with ScalerJoin id JoinStart _ _ _ _ _ => Some id | _ => None end.

Definition managed (p : pool) : gset nat :=
  (joinedIDs p ∖ departed p) ∪ joining p ∪ list_to_set (leaving p).

Definition tables_ok (p : pool) : Prop :=
  table_ok (workers p) (loops p) (doneClosed p) (fresh p) (managed p) (starting p).

(** A leave parked on the done channel waits for the one its worker has. *)
Definition wait_ok (p : pool) (id : nat) (ph : leave_phase) : Prop :=
  match ph with LeaveWait d => done <$> workers p !! id = Some d | _ => True end.

Definition scaler_idle (p : pool) : Prop :=
  match scaling p with NoScaler | ScalerDone => True | _ => False end.

(** [close] has taken over the joined workers. *)
Definition snapshotted (p : pool) : Prop :=
  match closing p with CloseLeave _ _ | Closed => True | _ => False end.

Definition scaler_ok (p : pool) : Prop :=
  match scaling p with
  | NoScaler => ¬ auto p
  | ScalerLoadIdle joined _ _ | ScalerLoadBacklog joined _ _ _ => auto p ∧ joined = JoinedCount p
  | ScalerJoin id _ _ _ _ _ _ | ScalerAdd id _ _ _ _ _ =>
      auto p ∧ (id < length (workers p))%nat ∧ id ∉ joinedIDs p
  | ScalerCandidates _ _ _ => auto p ∧ MinSize (AutoScale (cfg p)) < JoinedCount p
  | ScalerPick ids _ best _ _ _ _ =>
      auto p ∧ MinSize (AutoScale (cfg p)) < JoinedCount p ∧
      (∀ id, id ∈ ids → id ∈ joinedIDs p) ∧
      (best = -1 ∨ ∃ k, best = Z.of_nat k ∧ (k < length ids)%nat)
  | ScalerLeave id _ ph _ =>
      auto p ∧ id ∈ joinedIDs p ∧ MinSize (AutoScale (cfg p)) < JoinedCount p ∧ wait_ok p id ph
  | ScalerLeft id _ _ => auto p ∧ id ∈ joinedIDs p ∧ MinSize (AutoScale (cfg p)) < JoinedCount p
  | _ => auto p
  end.

Definition closing_ok (p : pool) : Prop :=
  match closing p with
  | CloseSnapshot => scaler_idle p
  | CloseLeave ids ph =>
      scaler_idle p ∧ joinedIDs p = ∅ ∧ NoDup ids ∧
      match ids with id :: _ => wait_ok p id ph | [] => True end
  | Closed => scaler_idle p ∧ joinedIDs p = ∅
  | _ => True
  end.

Definition count_ok (p : pool) : Prop :=
  if decide (cfg_Mode (cfg p) = ModeAutoScale)
  then MinSize (AutoScale (cfg p)) ≤ JoinedCount p
  else JoinedCount p = Size (Claims_cfg (cfg p)).

Record pool_ok (p : pool) : Prop := {
  ok_usable : usable (cfg p);
  ok_claims : claims_bounded (Size (Claims_cfg (cfg p))) (availableWorkers p);
  ok_backlog : Z.of_nat (length (backlog p)) ≤ Backlog (cfg p);
  ok_workers : Z.of_nat (length (workers p)) = Size (Claims_cfg (cfg p));
  ok_joined : ∀ id, id ∈ joinedIDs p → (id < length (workers p))%nat;
  ok_scaler : scaler_ok p;
  ok_closing : closing_ok p;
  ok_count : ¬ snapshotted p → count_ok p;
  ok_tables : no_timeout p → tables_ok p;
}.

(** ** Steps that leave the scaler, [close] and the joined set alone *)

Record same_control (p p' : pool) : Prop := {
  same_cfg : cfg p' = cfg p;
  same_joined : joinedIDs p' = joinedIDs p;
  same_scaling : scaling p' = scaling p;
  same_closing : closing p' = closing p;
  same_length : length (workers p') = length (workers p);
  same_done : ∀ id, done <$> workers p' !! id = done <$> workers p !! id;
}.

Lemma pool_ok_step p p' :
  pool_ok p → same_control p p' →
  claims_bounded (Size (Claims_cfg (cfg p))) (availableWorkers p') →
  Z.of_nat (length (backlog p')) ≤ Backlog (cfg p) →
  (no_timeout p' → no_timeout p) → (tables_ok p → tables_ok p') →
  pool_ok p'.
Proof.
  intros [Hu Hcl Hb Hw Hj Hs Hc Hn Ht] [Ec Ej Es Ek El Ed] Hcl' Hb' Hto Htab.
  assert (∀ id ph, wait_ok p id ph → wait_ok p' id ph) as Hwait.
  { intros id [| |d]; try done. unfold wait_ok. by rewrite Ed. }
  assert (JoinedCount p' = JoinedCount p) as Ejc by (unfold JoinedCount; by rewrite Ej).
  assert (auto p' = auto p) as Ea by (unfold auto; by rewrite Ec).
  assert (scaler_idle p' = scaler_idle p) as Ei by (unfold scaler_idle; by rewrite Es).
  assert (snapshotted p' = snapshotted p) as Esn by (unfold snapshotted; by rewrite Ek).
  split.
  - by rewrite Ec.
  - by rewrite Ec.
  - by rewrite Ec.
  - by rewrite Ec, El.
  - intros id. rewrite Ej, El. apply Hj.
  - unfold scaler_ok in *. rewrite Es, Ea, Ec, Ej, Ejc, El. destruct (scaling p); try done.
    destruct Hs as (? & ? & ? & ?). auto.
  - unfold closing_ok in *. rewrite Ek, Ei, Ej. destruct (closing p) as [| | | | | |ids ph|]; try done.
    destruct Hc as (? & ? & ? & ?). split_and!; try done. destruct ids; auto.
  - intros Hns. unfold count_ok. rewrite Ec, Ejc. apply Hn. by rewrite Esn in Hns.
  - intros Hnt. by apply Htab, Ht, Hto.
Qed.

Lemma managed_same p p' : same_control p p' → managed p' = managed p.
Proof.
  intros [_ Ej Es Ek _ _]. unfold managed, leaving, joining, departed. by rewrite Ej, Es, Ek.
Qed.

Lemma starting_same p p' : same_control p p' → starting p' = starting p.
Proof. intros [_ _ Es _ _ _]. unfold starting. by rewrite Es. Qed.

(** Nothing changes but what the invariant does not read. *)
Lemma pool_ok_same p p' :
  pool_ok p → same_control p p' → availableWorkers p' = availableWorkers p →
  (length (backlog p') ≤ length (backlog p))%nat → events p' = events p →
  workers p' = workers p → loops p' = loops p → doneClosed p' = doneClosed p → fresh p' = fresh p →
  pool_ok p'.
Proof.
  intros Hok Hsame Ha Hb He Hw Hl Hd Hf. apply (pool_ok_step p); try done.
  - rewrite Ha. exact (ok_claims _ Hok).
  - pose proof (ok_backlog _ Hok). lia.
  - unfold no_timeout. by rewrite He.
  - unfold tables_ok. by rewrite Hw, Hl, Hd, Hf, (managed_same _ _ Hsame), (starting_same _ _ Hsame).
Qed.

Ltac same_ctl := split; intros; reflexivity.
Ltac same_ok Hok := apply (pool_ok_same _ _ Hok); [same_ctl|reflexivity|cbn; lia|reflexivity..].

Lemma no_timeout_emit e p : no_timeout (emit e p) → no_timeout p.
Proof. unfold no_timeout, emit. cbn. by intros [? _]%Forall_app. Qed.

(** An event other than a leave's timeout. *)
Lemma pool_ok_emit e p : pool_ok p → pool_ok (emit e p).
Proof.
  intros Hok. apply (pool_ok_step p); try done.
  - exact (ok_claims _ Hok).
  - exact (ok_backlog _ Hok).
  - apply no_timeout_emit.
Qed.

(** A worker changed, its context and channels kept. *)
Lemma set_worker_control id w w' p :
  workers p !! id = Some w → done w' = done w → same_control p (set_worker id w' p).
Proof.
  intros Hid Hd. split; cbn; try done; [by rewrite length_insert|].
  intros k. destruct (decide (k = id)) as [->|].
  - rewrite list_lookup_insert_eq, Hid by (by eapply lookup_lt_Some). cbn. by rewrite Hd.
  - by rewrite list_lookup_insert_ne.
Qed.

Lemma pool_ok_worker id w w' p :
  workers p !! id = Some w → ctxFn w' = ctxFn w → done w' = done w →
  pool_ok p → pool_ok (set_worker id w' p).
Proof.
  intros Hid Hc Hd Hok. apply (pool_ok_step p); try done.
  - by eapply set_worker_control.
  - exact (ok_claims _ Hok).
  - exact (ok_backlog _ Hok).
  - unfold tables_ok. rewrite (managed_same p (set_worker id w' p)) by (by eapply set_worker_control).
    by apply (table_worker _ _ _ _ _ _ _ w).
Qed.

(** New claims within their bounds. *)
Lemma pool_ok_claims c p :
  claims_bounded (Size (Claims_cfg (cfg p))) c → pool_ok p → pool_ok (set_availableWorkers c p).
Proof.
  intros Hc Hok. apply (pool_ok_step p); try done; exact (ok_backlog _ Hok).
Qed.

(** A live loop goes on. *)
Lemma pool_ok_phase i l ph p :
  loops p !! i = Some l → phase l ≠ Returned → phase l ≠ Starting →
  pool_ok p → pool_ok (set_phase i ph p).
Proof.
  intros Hi Hr Hs Hok. apply (pool_ok_step p); try done.
  - exact (ok_claims _ Hok).
  - exact (ok_backlog _ Hok).
  - unfold tables_ok. rewrite (managed_same p (set_phase i ph p)) by same_ctl. cbn. intros Ht.
    rewrite (list_alter_const _ _ _ _ Hi).
    apply (table_loop _ _ _ _ _ _ _ l); try done. by left.
Qed.

Lemma pool_ok_return i l p p' :
  loops p !! i = Some l → phase l ≠ Returned → phase l ≠ Starting → loop_return i l p = Ret p' →
  pool_ok p → pool_ok p'.
Proof.
  intros Hi Hr Hs Hret Hok.
  pose proof (table_return (workers p) (loops p) (doneClosed p) (fresh p) (managed p) (starting p) i l Hi Hr Hs) as H.
  unfold loop_return in Hret. repeat case_match; simplify_eq;
    (apply (pool_ok_step _ _ Hok); [same_ctl|exact (ok_claims _ Hok)|exact (ok_backlog _ Hok)|done|exact H]).
Qed.

(** ** Every step preserves the invariant *)

(** A live loop's phase changes. *)
Ltac goes_on Hi := eapply pool_ok_phase; [exact Hi|congruence|congruence|].

Lemma runLoop_ok i ch p p' : runLoop_step i ch p = Some (Ret p') → pool_ok p → pool_ok p'.
Proof.
  intros Hstep Hok. unfold runLoop_step in Hstep.
  destruct (loops p !! i) as [l|] eqn:Hi; [|done].
  destruct (workers p !! loop_worker l) as [w|] eqn:Hw; [|done].
  destruct (phase l) as [| |c k| | |c k|j|j| | | |] eqn:Hph, ch as [| | | |r|t]; try done.
  - injection Hstep as <-. apply (pool_ok_step p); try done;
      [exact (ok_claims _ Hok)|exact (ok_backlog _ Hok)|].
    unfold tables_ok. cbn. intros Ht.
    apply (table_loop _ _ _ _ _ _ _ l); try done; [congruence|]. right. by exists w.
  - destruct (ctxFn w); [|done]. injection Hstep as <-. by goes_on Hi.
  - injection Hstep as <-. by goes_on Hi.
  - case_match; [|done]. injection Hstep as <-. goes_on Hi. by apply (pool_ok_worker _ w).
  - destruct (advertise _ _) as [cs|] eqn:Ha; [|done]. injection Hstep as <-.
    goes_on Hi. apply pool_ok_claims; [|done].
    eapply advertise_bounded; [|exact Ha]. exact (ok_claims _ Hok).
  - injection Hstep as <-. destruct (startedNotified w); (goes_on Hi);
      [by apply (pool_ok_worker _ w)|]. apply pool_ok_emit. by apply (pool_ok_worker _ w).
  - destruct (ctxFn w); [|done]. injection Hstep as <-. by goes_on Hi.
  - case_match; [|done]. injection Hstep as <-. goes_on Hi. by apply (pool_ok_worker _ w).
  - injection Hstep as <-. goes_on Hi. by apply (pool_ok_worker _ w).
  - injection Hstep as <-. goes_on Hi. by apply pool_ok_emit.
  - injection Hstep as <-. goes_on Hi. by apply (pool_ok_worker _ w).
  - injection Hstep as <-. goes_on Hi. by apply (pool_ok_worker _ w).
  - injection Hstep as Hret. by eapply pool_ok_return; [exact Hi|congruence|congruence|exact Hret|].
Qed.

Lemma submit_step_ok j d ph ch p r p' :
  submit_step j d ph ch p = Some (r, p') → pool_ok p → pool_ok p'.
Proof.
  intros Hstep Hok. unfold submit_step in Hstep. destruct ph as [| |k|k], ch as [t|side| | |i]; try done.
  - by repeat case_match; simplify_eq.
  - by case_match; simplify_eq.
  - by injection Hstep as <- <-.
  - destruct (next_claim _) as [[k cs]|] eqn:Hn; [|done]. injection Hstep as <- <-.
    apply pool_ok_claims; [|done]. eapply next_claim_bounded; [|exact Hn]. exact (ok_claims _ Hok).
  - by repeat case_match; simplify_eq.
  - by injection Hstep as <- <-.
  - unfold receives in Hstep. destruct (loops p !! i) as [l|] eqn:Hi; [|done].
    destruct (phase l) eqn:Hph; try done. case_match; [|done]. injection Hstep as <- <-.
    by goes_on Hi.
Qed.

Lemma dispatcher_ok ch p p' : dispatcher_step ch p = Some p' → pool_ok p → pool_ok p'.
Proof.
  intros Hstep Hok. unfold dispatcher_step in Hstep.
  destruct (dispatching p) as [|j d ph|], ch as [| |t|ch]; try done.
  - case_match; simplify_eq. same_ok Hok.
  - repeat case_match; simplify_eq; [same_ok Hok|done].
  - destruct (backlog p) as [|j rest] eqn:Hb; [done|]. injection Hstep as <-.
    apply (pool_ok_same _ _ Hok); try reflexivity; [same_ctl|]. cbn. rewrite Hb. cbn. lia.
  - destruct (submit_step j d ph ch p) as [[r p1]|] eqn:Hs; [|done].
    apply submit_step_ok in Hs; [|done].
    destruct r as [ph'|[e|]]; injection Hstep as <-.
    + same_ok Hs.
    + apply pool_ok_emit with (e := DispatchError e j) in Hs. same_ok Hs.
    + same_ok Hs.
Qed.

Lemma Submit_ok i ch p p' : Submit_step i ch p = Some p' → pool_ok p → pool_ok p'.
Proof.
  intros Hstep Hok. unfold Submit_step in Hstep. destruct (submits p !! i) as [c|]; [|done].
  destruct (call_at c) as [| | |res], ch as [|[le|]| | | |]; try done.
  - repeat case_match; simplify_eq; same_ok Hok.
  - simplify_eq. same_ok Hok.
  - simplify_eq. same_ok Hok.
  - case_match; simplify_eq. same_ok Hok.
  - case_match; simplify_eq. same_ok Hok.
  - destruct (call_ctx c) as [cc|]; [|done]. case_match; [|done]. boolify. simplify_eq.
    apply (pool_ok_step p); try done; [exact (ok_claims _ Hok)|].
    cbn. rewrite length_app. cbn. lia.
  - simplify_eq. same_ok Hok.
Qed.

(** ** Joining and leaving *)

Lemma leave_step_control id ph timeout p r p' :
  leave_step id ph timeout p = Some (Ret (r, p')) → same_control p p'.
Proof.
  unfold leave_step. destruct (workers p !! id) as [w|] eqn:Hw; [|done]. destruct ph as [| |d].
  - by intros [= <- <-].
  - destruct (ctxFn w); [|done]. by intros [= <- <-].
  - destruct timeout; [by intros [= <- <-]|]. case_decide; [|done]. intros [= <- <-].
    destruct (set_worker_control id w (clear_ctxFn w) p Hw eq_refl). by split.
Qed.

(** A leave keeps the invariant as long as it goes on, and when it times out. *)
Lemma leave_step_going id ph timeout p r p' :
  leave_step id ph timeout p = Some (Ret (r, p')) → r ≠ inr None → pool_ok p → pool_ok p'.
Proof.
  unfold leave_step. destruct (workers p !! id) as [w|] eqn:Hw; [|done]. intros Hstep Hr Hok.
  destruct ph as [| |d].
  - injection Hstep as <- <-. apply pool_ok_emit, pool_ok_claims; [|done].
    exact (Unsubscribe_bounded _ (Some id) _ (ok_claims _ Hok)).
  - destruct (ctxFn w); [|done]. injection Hstep as <- <-. same_ok Hok.
  - destruct timeout; [injection Hstep as <- <-; by apply pool_ok_emit, pool_ok_emit|].
    case_decide; [|done]. by injection Hstep as <- <-.
Qed.

(** A leave that ends without a timeout frees its worker. *)
Lemma leave_step_ends id ph timeout p p' :
  leave_step id ph timeout p = Some (Ret (inr None, p')) → wait_ok p id ph → starting p = None →
  no_timeout p' → no_timeout p ∧
  (tables_ok p → table_ok (workers p') (loops p') (doneClosed p') (fresh p') (managed p ∖ {[id]}) None).
Proof.
  unfold leave_step, wait_ok. destruct (workers p !! id) as [w|] eqn:Hw; [|done].
  intros Hstep Hdone Hst Hnt.
  destruct ph as [| |d]; [done|destruct (ctxFn w); discriminate|]. destruct timeout; [done|].
  case_decide as Hd; [|done]. injection Hstep as <-. split; [apply no_timeout_emit in Hnt; exact Hnt|].
  unfold tables_ok. rewrite Hst. intros Ht. cbn in Hdone. injection Hdone as <-. by apply table_leave.
Qed.

(** The next phase of a leave waits for the worker's own channel. *)
Lemma leave_step_wait id ph timeout p ph' p' :
  leave_step id ph timeout p = Some (Ret (inl ph', p')) → wait_ok p' id ph'.
Proof.
  unfold leave_step, wait_ok. destruct (workers p !! id) as [w|] eqn:Hw; [|done].
  destruct ph as [| |d].
  - by intros [= <- <-].
  - destruct (ctxFn w); [|done]. intros [= <- <-]. cbn. by rewrite Hw.
  - destruct timeout; [done|]. by case_decide.
Qed.

(** ** The scaler *)

Lemma active p ph :
  scaling p = ph → match ph with NoScaler | ScalerDone => False | _ => True end → ¬ scaler_idle p.
Proof. unfold scaler_idle. intros ->. destruct ph; naive_solver. Qed.

(** An idle scaler holds no worker. *)
Lemma managed_idle p :
  scaler_idle p → managed p = joinedIDs p ∪ list_to_set (leaving p) ∧ starting p = None.
Proof.
  unfold scaler_idle, managed, joining, departed, starting. destruct (scaling p); try done;
    intros _; (split; [set_solver|done]).
Qed.

(** While the scaler is active, [close] has not reached its snapshot. *)
Lemma active_not_leaving p : pool_ok p → ¬ scaler_idle p → leaving p = [] ∧ ¬ snapshotted p ∧ closing p ≠ CloseSnapshot.
Proof.
  intros Hok Hact. pose proof (ok_closing _ Hok) as Hc. unfold closing_ok, leaving, snapshotted in *.
  destruct (closing p); naive_solver.
Qed.

(** A step of the scaler. *)
Lemma pool_ok_active p p' :
  pool_ok p → ¬ scaler_idle p → cfg p' = cfg p → closing p' = closing p →
  length (workers p') = length (workers p) → backlog p' = backlog p →
  claims_bounded (Size (Claims_cfg (cfg p))) (availableWorkers p') →
  (∀ id, id ∈ joinedIDs p' → (id < length (workers p))%nat) →
  scaler_ok p' → count_ok p' → (no_timeout p' → tables_ok p') → pool_ok p'.
Proof.
  intros Hok Hact Ec Ek El Eb Hcl Hj Hs Hn Ht.
  destruct (active_not_leaving p Hok Hact) as (_ & Hsn & Hcs).
  destruct Hok as [Hu _ Hb Hw _ _ _ _ _]. split; rewrite ?Ec, ?El, ?Eb; try done.
  unfold closing_ok, snapshotted in *. rewrite Ek. by destruct (closing p).
Qed.

Lemma active_count p : pool_ok p → ¬ scaler_idle p → count_ok p.
Proof. intros Hok Hact. apply (ok_count _ Hok). by apply (active_not_leaving p Hok Hact). Qed.

(** Only the scaler's phase changes, and no worker is handed over. *)
Lemma pool_ok_scaling ph p :
  pool_ok p → ¬ scaler_idle p → scaler_ok (set_scaling ph p) →
  managed (set_scaling ph p) = managed p → starting (set_scaling ph p) = starting p →
  pool_ok (set_scaling ph p).
Proof.
  intros Hok Hact Hs Hm Hst. apply (pool_ok_active p); try done.
  - exact (ok_claims _ Hok).
  - exact (ok_joined _ Hok).
  - exact (active_count p Hok Hact).
  - intros Hnt. unfold tables_ok. rewrite Hm, Hst. by apply (ok_tables _ Hok).
Qed.

Lemma first_spare_Some p id :
  first_spare p = Some id → (id < length (workers p))%nat ∧ id ∉ joinedIDs p.
Proof.
  unfold first_spare. intros H.
  assert (id ∈ filter (λ id, id ∉ joinedIDs p) (seq 0 (length (workers p)))) as Hin.
  { destruct (filter _ _); cbn in H; [done|]. injection H as ->. left. }
  apply list_elem_of_filter in Hin as [? Hin%elem_of_seq]. split; [lia|done].
Qed.

Lemma elem_of_joined_workers p id :
  pool_ok p → id ∈ joined_workers p ↔ id ∈ joinedIDs p.
Proof.
  intros Hok. unfold joined_workers. rewrite list_elem_of_filter, elem_of_seq.
  pose proof (ok_joined _ Hok id). split; [by intros [? _]|]. intros Hid. specialize (H Hid).
  split; [done|lia].
Qed.

Lemma NoDup_joined_workers p : NoDup (joined_workers p).
Proof. apply NoDup_filter, NoDup_seq. Qed.

(** The claims and the backlog during a leave. *)
Lemma leave_step_bounds id ph timeout p r p' :
  leave_step id ph timeout p = Some (Ret (r, p')) → pool_ok p →
  claims_bounded (Size (Claims_cfg (cfg p))) (availableWorkers p') ∧ backlog p' = backlog p.
Proof.
  intros Hstep Hok. unfold leave_step in Hstep.
  destruct (workers p !! id) as [w|] eqn:Hw; [|done]. destruct ph as [| |d].
  - injection Hstep as <- <-. split; [|done].
    exact (Unsubscribe_bounded _ (Some id) _ (ok_claims _ Hok)).
  - destruct (ctxFn w); [|done]. injection Hstep as <- <-. split; [exact (ok_claims _ Hok)|done].
  - destruct timeout; [|case_decide; [|done]]; injection Hstep as <- <-;
      (split; [exact (ok_claims _ Hok)|done]).
Qed.

(** A leave that timed out says so. *)
Lemma leave_step_timeout id ph timeout p e p' :
  leave_step id ph timeout p = Some (Ret (inr (Some e), p')) → ¬ no_timeout p'.
Proof.
  unfold leave_step. destruct (workers p !! id) as [w|] eqn:Hw; [|done]. destruct ph as [| |d]; [done|..].
  - by destruct (ctxFn w).
  - destruct timeout; [|by case_decide]. intros [= <- <-]. unfold no_timeout. cbn.
    rewrite !Forall_app, !Forall_singleton. cbn. tauto.
Qed.

(** The tables after a leave that returned. *)
Lemma leave_step_tables id ph timeout p e p' :
  leave_step id ph timeout p = Some (Ret (inr e, p')) → wait_ok p id ph → starting p = None →
  pool_ok p → no_timeout p' →
  table_ok (workers p') (loops p') (doneClosed p') (fresh p') (managed p ∖ {[id]}) None.
Proof.
  intros Hstep Hwait Hst Hok Hnt. destruct e as [e|].
  - by apply leave_step_timeout in Hstep.
  - destruct (leave_step_ends _ _ _ _ _ Hstep Hwait Hst Hnt) as [Hnt' Ht].
    by apply Ht, (ok_tables _ Hok).
Qed.

(** The managed workers while the scaler is active. *)
Lemma managed_active p :
  pool_ok p → ¬ scaler_idle p → managed p = (joinedIDs p ∖ departed p) ∪ joining p.
Proof.
  intros Hok Hact. destruct (active_not_leaving p Hok Hact) as (Hlv & _ & _).
  unfold managed. rewrite Hlv. cbn. by rewrite (right_id_L ∅ (∪)).
Qed.

Lemma scaler_leave_done id t ph u tm p e p1 :
  pool_ok p → scaling p = ScalerLeave id t ph u →
  leave_step id ph tm p = Some (Ret (inr e, p1)) → pool_ok (set_scaling (ScalerLeft id t u) p1).
Proof.
  intros Hok Hsc Hl. assert (¬ scaler_idle p) as Hact by (by eapply active).
  pose proof (ok_scaler _ Hok) as Hs. unfold scaler_ok in Hs. rewrite Hsc in Hs.
  destruct Hs as (Ha & Hin & Hmin & Hwait).
  assert (starting p = None) as Hst by (unfold starting; by rewrite Hsc).
  destruct (leave_step_bounds _ _ _ _ _ _ Hl Hok) as [Hcl Hb].
  destruct (leave_step_control _ _ _ _ _ _ Hl) as [Ec Ej Es Ek El Ed].
  pose proof (active_count p Hok Hact) as Hn.
  apply (pool_ok_active p); try done.
  - intros k. cbn. rewrite Ej. apply (ok_joined _ Hok).
  - unfold scaler_ok, auto, JoinedCount in *. cbn. by rewrite Ec, Ej.
  - unfold count_ok, JoinedCount in *. cbn. by rewrite Ec, Ej.
  - intros Hnt. pose proof (leave_step_tables _ _ _ _ _ _ Hl Hwait Hst Hok Hnt) as Ht.
    unfold tables_ok. cbn. replace (managed _) with (managed p ∖ {[id]}); [done|].
    rewrite (managed_active p Hok Hact). destruct (active_not_leaving p Hok Hact) as (Hlv & _ & _).
    unfold managed, leaving, joining, departed in *. cbn. rewrite Ek, Hlv, Ej, Hsc. set_solver.
Qed.

(** The worker that left is removed from the joined ones. *)
Lemma scaler_delete_ok id t u p :
  pool_ok p → scaling p = ScalerLeft id t u →
  pool_ok (set_scaling (ScalerSelect u t) (leaveOne_delete id p)).
Proof.
  intros Hok Hsc. assert (¬ scaler_idle p) as Hact by (by eapply active).
  pose proof (ok_scaler _ Hok) as Hs. unfold scaler_ok in Hs. rewrite Hsc in Hs.
  destruct Hs as (Ha & Hin & Hmin). pose proof (active_count p Hok Hact) as Hn.
  apply (pool_ok_active p); try done.
  - exact (ok_claims _ Hok).
  - intros k [Hk _]%elem_of_difference. by apply (ok_joined _ Hok).
  - unfold count_ok, JoinedCount in *. cbn. unfold auto in Ha. rewrite decide_True in * by done.
    rewrite size_difference by set_solver. rewrite size_singleton. lia.
  - intros Hnt. pose proof (ok_tables _ Hok Hnt) as Ht. revert Ht. unfold tables_ok, starting. rewrite Hsc. cbn.
    replace (managed (set_scaling _ _)) with (managed p); [done|].
    unfold managed, leaving, joining, departed. cbn. rewrite Hsc. set_solver.
Qed.

(** The worker that joined is recorded. *)
Lemma scaler_add_ok id t n k u d p :
  pool_ok p → scaling p = ScalerAdd id t n k u d →
  pool_ok (set_scaling (ScalerUp t n (S k) u d) (joinOneIdle_add id p)).
Proof.
  intros Hok Hsc. assert (¬ scaler_idle p) as Hact by (by eapply active).
  pose proof (ok_scaler _ Hok) as Hs. unfold scaler_ok in Hs. rewrite Hsc in Hs.
  destruct Hs as (Ha & Hlt & Hnin). pose proof (active_count p Hok Hact) as Hn.
  apply (pool_ok_active p); try done.
  - exact (ok_claims _ Hok).
  - intros j [->%elem_of_singleton|Hj]%elem_of_union; [done|by apply (ok_joined _ Hok)].
  - unfold count_ok, JoinedCount in *. cbn. unfold auto in Ha. rewrite decide_True in * by done.
    rewrite size_union by set_solver. rewrite size_singleton. lia.
  - intros Hnt. pose proof (ok_tables _ Hok Hnt) as Ht. revert Ht. unfold tables_ok, starting. rewrite Hsc. cbn.
    replace (managed (set_scaling _ _)) with (managed p); [done|].
    unfold managed, leaving, joining, departed. cbn. rewrite Hsc. set_solver.
Qed.

(** What a join changes besides the tables. *)
Lemma join_step_frame_ok id ph t p r p1 :
  join_step id ph t p = (r, p1) → pool_ok p →
  cfg p1 = cfg p ∧ joinedIDs p1 = joinedIDs p ∧ scaling p1 = scaling p ∧ closing p1 = closing p ∧
  length (workers p1) = length (workers p) ∧ backlog p1 = backlog p ∧
  claims_bounded (Size (Claims_cfg (cfg p))) (availableWorkers p1).
Proof.
  unfold join_step. intros Hj Hok. pose proof (ok_claims _ Hok) as Hcl.
  pose proof (Subscribe_bounded (Claims_cfg (cfg p)) (Some id) _ Hcl) as Hc.
  destruct (workers p !! id) as [w|] eqn:Hw; [|by simplify_eq].
  destruct ph; [destruct (poolCtx p)|destruct (running w)|
    destruct (Subscribe _ _ _) as [[e|] cs]; cbn [snd] in Hc| | |]; simplify_eq/=; rewrite ?length_insert;
    by split_and!.
Qed.

(** A join's effect on the tables, and the worker to start next. *)
Lemma join_step_tables id ph t p r p1 m :
  join_step id ph t p = (r, p1) → no_timeout p1 → id ∉ m →
  no_timeout p ∧
  (table_ok (workers p) (loops p) (doneClosed p) (fresh p) m
     (match ph with JoinStart => Some id | _ => None end) →
   match r with
   | inl ph' => table_ok (workers p1) (loops p1) (doneClosed p1) (fresh p1) m
       (match ph' with JoinStart => Some id | _ => None end)
   | inr None => table_ok (workers p1) (loops p1) (doneClosed p1) (fresh p1) ({[id]} ∪ m) None
   | inr (Some _) => table_ok (workers p1) (loops p1) (doneClosed p1) (fresh p1) m None
   end).
Proof.
  unfold join_step. intros Hj Hnt Hm.
  destruct (workers p !! id) as [w|] eqn:Hw.
  - destruct ph; [destruct (poolCtx p)|destruct (running w)|destruct (Subscribe _ _ _) as [[e|] cs]| | |];
      simplify_eq/=; (split; [done || exact (no_timeout_emit _ _ Hnt)|try done]).
    + by apply table_worker with w.
    + by apply table_install.
    + intros Ht. apply table_start. by apply table_worker with w.
  - simplify_eq. split; [done|]. intros Ht. destruct ph; try done.
    destruct (table_starting _ _ _ _ _ _ Ht id eq_refl) as (_ & w & ? & _). congruence.
Qed.

(** The phase of the scaler after a step of a join. *)
Definition after_join (id : nat) (r : join_phase + option error) (t : Z) (n k : nat) (u d : Z) : scaler_phase :=
  match r with
  | inl ph => ScalerJoin id ph t n k u d
  | inr None => ScalerAdd id t n k u d
  | inr (Some _) => ScalerUp t 0 k u d
  end.

Lemma scaler_join_ok id ph t n k u d now p r p1 :
  pool_ok p → scaling p = ScalerJoin id ph t n k u d → join_step id ph now p = (r, p1) →
  pool_ok (set_scaling (after_join id r t n k u d) p1).
Proof.
  intros Hok Hsc Hj. assert (¬ scaler_idle p) as Hact by (by eapply active).
  pose proof (ok_scaler _ Hok) as Hs. unfold scaler_ok in Hs. rewrite Hsc in Hs.
  destruct Hs as (Ha & Hlt & Hnin). pose proof (active_count p Hok Hact) as Hn.
  destruct (join_step_frame_ok _ _ _ _ _ _ Hj Hok) as (Ec & Ej & Es & Ek & El & Eb & Hcl).
  apply (pool_ok_active p); try done.
  - cbn. rewrite Ej. exact (ok_joined _ Hok).
  - unfold scaler_ok, auto, after_join in *. cbn. rewrite Ec, Ej, El.
    destruct r as [ph'|[e|]]; cbn; by rewrite ?El, ?Ej.
  - unfold count_ok, JoinedCount in *. cbn. by rewrite Ec, Ej.
  - intros Hnt. destruct (join_step_tables _ _ _ _ _ _ (managed p) Hj Hnt) as [Hnt' Ht].
    { rewrite (managed_active p Hok Hact). unfold joining. rewrite Hsc. set_solver. }
    pose proof (ok_tables _ Hok Hnt') as Htp. unfold tables_ok, starting in Htp. rewrite Hsc in Htp.
    specialize (Ht Htp). revert Ht. rewrite (managed_active p Hok Hact).
    destruct (active_not_leaving p Hok Hact) as (Hlv & _ & _).
    unfold tables_ok, managed, leaving, joining, departed, starting in *. cbn.
    rewrite Ek, Hlv, Ej, Hsc. intros Ht. destruct r as [ph'|[e|]]; cbn in *;
      eapply table_same; [exact Ht|set_solver|exact Ht|set_solver|exact Ht|set_solver].
Qed.

(** [pickVictim] looks at its candidates only, and its best is one of them. *)
Lemma pick_step_best read t period ids i best ph i' best' ph' :
  pick_step read t period ids i best ph = (i', best', ph') → (i < length ids)%nat →
  (best = -1 ∨ ∃ k, best = Z.of_nat k ∧ (k < length ids)%nat) →
  best' = -1 ∨ ∃ k, best' = Z.of_nat k ∧ (k < length ids)%nat.
Proof. unfold pick_step. intros Hp Hi Hb. repeat case_match; simplify_eq; eauto. Qed.

(** The phases between which the scaler hands no worker over. *)
Ltac same_tables Hsc :=
  unfold managed, leaving, joining, departed, starting; cbn; rewrite ?Hsc; reflexivity.
Ltac scales Hsc := apply pool_ok_scaling; [done|done| |same_tables Hsc|same_tables Hsc].

Lemma scaler_step_ok ch p p' : scaler_step ch p = Some (Ret p') → pool_ok p → pool_ok p'.
Proof.
  intros Hstep Hok. unfold scaler_step in Hstep.
  pose proof (ok_scaler _ Hok) as Hs. unfold scaler_ok in Hs.
  destruct (scaling p) as [|u d|u d|n u d|n i u d|t n k u d|id ph t n k u d|id t n k u d|t u d
    |ids i best ph t u d|id t ph u|id t u|] eqn:Hsc, ch as [| |t'|tm]; try done;
    assert (¬ scaler_idle p) as Hact by (by eapply active).
  - case_match; simplify_eq. by scales Hsc.
  - simplify_eq. by scales Hsc.
  - simplify_eq. by scales Hsc.
  - simplify_eq. destruct Hs as [? ->]. by scales Hsc.
  - destruct Hs as [Ha ->]. destruct (decide_ _ _) as [[] step] eqn:Hd; simplify_eq; scales Hsc; [done..|].
    apply decide_down in Hd. by split.
  - destruct n as [|n]; [simplify_eq; by scales Hsc|]. unfold joinOneIdle in Hstep.
    destruct (first_spare p) as [id|] eqn:Hsp; simplify_eq; scales Hsc; [|done].
    by apply first_spare_Some in Hsp.
  - destruct (join_step id ph t' p) as [r p1] eqn:Hj.
    pose proof (scaler_join_ok _ _ _ _ _ _ _ _ _ _ _ Hok Hsc Hj) as H.
    destruct r as [ph'|[e|]]; simplify_eq; exact H.
  - simplify_eq. by apply scaler_add_ok.
  - simplify_eq. destruct Hs. scales Hsc. split_and!; [done|done| |by left].
    intros id. by rewrite elem_of_joined_workers.
  - destruct Hs as (Ha & Hmin & Hin & Hb). destruct (Nat.ltb_spec i (length ids)).
    + destruct (pick_step _ _ _ _ _ _ _) as [[i' best'] ph'] eqn:Hp. simplify_eq. scales Hsc.
      split_and!; [done|done|done|by eapply pick_step_best].
    + destruct (best =? -1); [simplify_eq; by scales Hsc|].
      destruct (ids !! Z.to_nat best) as [id|] eqn:Hid; simplify_eq. scales Hsc.
      split_and!; [done|by eapply Hin, list_elem_of_lookup_2|done|done].
  - destruct (leave_step id ph tm p) as [[[[ph'|e] p1]|]|] eqn:Hl; simplify_eq.
    + pose proof (leave_step_control _ _ _ _ _ _ Hl) as [Ec Ej Es Ek El Ed].
      pose proof (leave_step_wait _ _ _ _ _ _ Hl) as Hwait.
      apply leave_step_going in Hl; [|done|done].
      assert (¬ scaler_idle p1) as Hact1 by exact (active _ _ (eq_trans Es Hsc) I).
      rewrite <- Es in Hsc. apply pool_ok_scaling; [done|done| |same_tables Hsc|same_tables Hsc].
      unfold scaler_ok, auto, JoinedCount in *. cbn. rewrite Ec, Ej. by destruct Hs as (? & ? & ? & _).
    + by eapply scaler_leave_done.
  - simplify_eq. by apply scaler_delete_ok.
Qed.
