(* ===== verification/PoolTheorems.v ===== *)
(** * What the worker pool guarantees

    [close] and [New] establish and keep the invariant of [PoolInvariant]; the
    theorems follow: conservation of jobs, bounds, hand-off of a graceful shutdown; and
    [pickVictim] as the scaler runs it. *)
From S2P Require Import Prelude Golang PoolConfig Claims Scaler Pool PoolTable PoolSafety PoolInvariant.
Local Open Scope Z_scope.

(** ** close *)

Lemma pool_ok_closing c p :
  pool_ok p → leaving p = [] → leaving (set_closing c p) = [] →
  closing_ok (set_closing c p) → (¬ snapshotted (set_closing c p) → ¬ snapshotted p) →
  pool_ok (set_closing c p).
Proof.
  intros Hok Hl Hl' Hc Hsn. destruct Hok as [? ? ? ? ? ? ? Hn Ht]. split; try done.
  - intros Hns. by apply Hn, Hsn.
  - intros Hnt. specialize (Ht Hnt). unfold tables_ok, managed in *. rewrite Hl in Ht. by rewrite Hl'.
Qed.

Lemma pool_ok_cancel p : pool_ok p → pool_ok (cancel_pool p).
Proof. intros Hok. unfold cancel_pool. destruct (poolCtx p); [done|]. same_ok Hok. Qed.

(** The snapshot hands the joined workers over to [close]. *)
Lemma snapshot_ok p :
  pool_ok p → closing p = CloseSnapshot →
  pool_ok (set_closing (CloseLeave (joined_workers p) LeaveUnsubscribe) (set_joinedIDs ∅ p)).
Proof.
  intros Hok Hcl. pose proof (ok_closing _ Hok) as Hidle. unfold closing_ok in Hidle. rewrite Hcl in Hidle. cbn in Hidle.
  pose proof (elem_of_joined_workers p) as Hjw.
  pose proof Hok as [? ? ? ? ? Hs ? ? Ht]. split; try done; cbn.
  - unfold scaler_ok, scaler_idle in *. cbn. by destruct (scaling p).
  - unfold closing_ok. cbn. split_and!; [done|done|apply NoDup_joined_workers|by destruct (joined_workers p)].
  - intros Hnt. specialize (Ht Hnt). destruct (managed_idle p Hidle) as [Hm Hst].
    set (p' := set_closing _ _). assert (scaler_idle p') as Hidle' by done.
    destruct (managed_idle p' Hidle') as [Hm' Hst'].
    unfold tables_ok in *. rewrite Hm, Hst in Ht. rewrite Hm', Hst'.
    eapply table_same; [exact Ht|]. unfold leaving. cbn. rewrite Hcl. apply set_eq. intros id.
    specialize (Hjw id Hok). rewrite elem_of_union, elem_of_union, !elem_of_list_to_set, Hjw.
    set_solver.
Qed.

(** One worker left by [close]. *)
Lemma close_leave_done id rest ph tm p e p1 :
  pool_ok p → closing p = CloseLeave (id :: rest) ph →
  leave_step id ph tm p = Some (Ret (inr e, p1)) →
  pool_ok (set_closing (CloseLeave rest LeaveUnsubscribe) p1).
Proof.
  intros Hok Hcl Hl. pose proof (ok_closing _ Hok) as Hc. unfold closing_ok in Hc. rewrite Hcl in Hc.
  destruct Hc as (Hidle & Hj0 & [Hnin Hnd]%NoDup_cons & Hwait).
  destruct (leave_step_bounds _ _ _ _ _ _ Hl Hok) as [Hclaims Hb].
  destruct (leave_step_control _ _ _ _ _ _ Hl) as [Ec Ej Es Ek El Ed].
  destruct (managed_idle p Hidle) as [Hm Hst].
  pose proof (leave_step_tables _ _ _ _ _ _ Hl Hwait Hst Hok) as Htab.
  destruct Hok as [Hu _ Hbl Hwk Hj Hs _ _ _].
  split; cbn; rewrite ?Ec, ?El, ?Hb; try done.
  - intros k. rewrite Ej. apply Hj.
  - unfold scaler_ok, scaler_idle, auto in *. cbn. rewrite Es, Ec. by destruct (scaling p).
  - unfold closing_ok, scaler_idle. cbn. rewrite Es, Ej. split_and!; try done. by destruct rest.
  - intros Hnt. set (p' := set_closing _ _).
    assert (scaler_idle p') as Hidle' by (unfold scaler_idle in *; cbn; by rewrite Es).
    destruct (managed_idle p' Hidle') as [Hm' Hst']. specialize (Htab Hnt).
    unfold tables_ok. rewrite Hm in Htab. rewrite Hm', Hst'. eapply table_same; [exact Htab|].
    unfold leaving. cbn. rewrite Ej, Hj0, Hcl. apply set_eq. intros k.
    rewrite elem_of_difference, !elem_of_union, !elem_of_list_to_set, elem_of_cons.
    set_solver.
Qed.

Lemma close_step_ok tm p p' : close_step tm p = Some (Ret p') → pool_ok p → pool_ok p'.
Proof.
  intros Hstep Hok. unfold close_step in Hstep.
  pose proof (ok_closing _ Hok) as Hc. unfold closing_ok in Hc.
  pose proof (ok_scaler _ Hok) as Hs. unfold scaler_ok, auto in Hs.
  assert (¬ snapshotted p → leaving p = []) as Hlv.
  { unfold snapshotted, leaving. by destruct (closing p). }
  destruct (closing p) as [|dr| | | | |[|id rest] ph|] eqn:Hcl; try done.
  - simplify_eq. assert (pool_ok (set_shutdown true p)) as Hok1 by same_ok Hok.
    apply pool_ok_closing; try done; unfold leaving, snapshotted; cbn; rewrite ?Hcl; destruct dr; naive_solver.
  - simplify_eq. apply pool_ok_cancel in Hok as Hok1.
    assert (closing (cancel_pool p) = CloseCancel) as Hk by (unfold cancel_pool; by destruct (poolCtx p)).
    apply pool_ok_closing; try done; unfold leaving, snapshotted; cbn; rewrite ?Hk; naive_solver.
  - destruct (dispatching p); simplify_eq. destruct (cfg_Mode (cfg p) =? ModeAutoScale) eqn:Hm;
      (apply pool_ok_closing; [done|by unfold leaving; rewrite Hcl|done| |]);
      try (unfold snapshotted; rewrite Hcl; tauto); [done|].
    unfold closing_ok, scaler_idle. cbn. boolify. destruct (scaling p); tauto.
  - destruct (scaling p) eqn:Hsc; simplify_eq.
    apply pool_ok_closing; try done; unfold leaving, snapshotted; cbn; rewrite ?Hcl; try naive_solver.
    unfold closing_ok, scaler_idle. cbn. by rewrite Hsc.
  - simplify_eq. by apply snapshot_ok.
  - simplify_eq. apply pool_ok_cancel in Hok as Hok1. destruct Hc as (Hi & Hj & _ & _).
    assert (closing (cancel_pool p) = CloseLeave [] ph ∧ scaling (cancel_pool p) = scaling p ∧
      joinedIDs (cancel_pool p) = joinedIDs p) as (Hk & Hk2 & Hk3)
      by (unfold cancel_pool; by destruct (poolCtx p)).
    apply pool_ok_closing; try done; unfold leaving, snapshotted; cbn; rewrite ?Hk; try naive_solver.
    unfold closing_ok, scaler_idle in *. cbn. by rewrite Hk2, Hk3.
  - destruct (leave_step id ph tm p) as [[[[ph'|e] p1]|]|] eqn:Hl; simplify_eq.
    + pose proof (leave_step_control _ _ _ _ _ _ Hl) as [Ec Ej Es Ek El Ed].
      pose proof (leave_step_wait _ _ _ _ _ _ Hl) as Hwait.
      apply leave_step_going in Hl; [|done|done].
      destruct Hl as [? ? ? ? ? ? ? Hn Ht]. split; try done.
      * unfold closing_ok, scaler_idle in *. cbn. rewrite Es, Ej. naive_solver.
      * intros Hnt. specialize (Ht Hnt). unfold tables_ok, managed, leaving in *. cbn in *.
        by rewrite Ek, Hcl in Ht.
    + by eapply close_leave_done.
Qed.

Lemma pool_next_ok p p' : pool_next p p' → pool_ok p → pool_ok p'.
Proof.
  intros [mv Hmv] Hok. destruct mv as [j c|dr|e|c e|i ch|ch|i ch|ch|tm]; cbn in Hmv.
  - simplify_eq. same_ok Hok.
  - unfold close in Hmv. destruct (closing p) eqn:Hcl; try done. simplify_eq/=.
    assert (pool_ok (set_reject true p)) as Hok1 by same_ok Hok.
    apply pool_ok_closing; try done; unfold leaving, snapshotted; cbn; rewrite ?Hcl; naive_solver.
  - simplify_eq. destruct (poolCtx p); [done|same_ok Hok].
  - simplify_eq. destruct (callers p !! c); [done|same_ok Hok].
  - by eapply runLoop_ok.
  - destruct (dispatcher_step ch p) eqn:Hs; simplify_eq/=. by eapply dispatcher_ok.
  - destruct (Submit_step i ch p) eqn:Hs; simplify_eq/=. by eapply Submit_ok.
  - by eapply scaler_step_ok.
  - by eapply close_step_ok.
Qed.

Lemma reachable_ok p p' : pool_ok p → rtc pool_next p p' → pool_ok p'.
Proof.
  intros Hok Hrtc. eapply (rtc_preserves pool_next pool_ok); [|exact Hrtc|exact Hok].
  intros s s' Hs Hstep. by eapply pool_next_ok.
Qed.

(** ** New *)

(** A pool being built: its first [k] workers joined, nothing submitted. *)
Record building (p : pool) (k : nat) : Prop := {
  bd_claims : claims_bounded (Size (Claims_cfg (cfg p))) (availableWorkers p);
  bd_subscribers : subscribers (availableWorkers p) = joinedIDs p;
  bd_joined : joinedIDs p = set_seq 0 k;
  bd_workers : Z.of_nat (length (workers p)) = Size (Claims_cfg (cfg p));
  bd_scaling : scaling p = NoScaler;
  bd_closing : closing p = NotClosed;
  bd_ctx : poolCtx p = None;
  bd_fresh : accepted p = [] ∧ backlog p = [] ∧ dispatching p = Dispatch ∧ submits p = [] ∧
    shutdown p = false ∧ reject p = false;
  bd_jobs : ∀ x, count (with_workers p) x = 0%nat ∧ count (completed p) x = 0%nat;
  bd_running : ∀ id w, workers p !! id = Some w → running w = false;
  bd_tables : tables_ok p;
}.

Lemma size_set_seq (a k : nat) : size (set_seq a k : gset nat) = k.
Proof.
  revert a. induction k as [|k IH]; intros a; cbn; [apply size_empty|].
  rewrite size_union, size_singleton, IH; [lia|].
  rewrite disjoint_singleton_l, elem_of_set_seq. lia.
Qed.

(** The whole of [join] for an idle worker of a live pool with room. *)
Lemma join_alone p k t w :
  poolCtx p = None → workers p !! k = Some w → running w = false →
  Z.of_nat (size (subscribers (availableWorkers p))) < Size (Claims_cfg (cfg p)) →
  let c := (Subscribe (Claims_cfg (cfg p)) (Some k) (availableWorkers p)).2 in
  let w' := set_startedNotified false (set_channels (fresh p) (set_lastActiveAt t w)) in
  join k t p = (inr None,
    set_loops (loops p ++ [MkLoop k None Starting]) (set_fresh (S (fresh p))
      (set_worker k w' (emit (Subscribed k) (set_availableWorkers c p))))).
Proof.
  intros Hc Hw Hr Hsub. cbn zeta. pose proof (lookup_lt_Some _ _ _ Hw) as Hk.
  unfold join. cbn [join_steps]. unfold join_step at 1. rewrite Hw, Hc.
  unfold join_step at 1. rewrite Hw, Hr. unfold join_step at 1. rewrite Hw.
  unfold Subscribe. rewrite (proj2 (Z.leb_gt _ _)) by lia.
  unfold join_step at 1. cbn [workers emit set_events set_availableWorkers]. rewrite Hw.
  unfold join_step at 1. cbn. rewrite list_lookup_insert_eq by done.
  unfold join_step. cbn. rewrite list_lookup_insert_eq by (by rewrite length_insert). cbn.
  unfold set_worker. cbn. by rewrite !list_insert_insert_eq.
Qed.

Lemma join_builds p k t :
  building p k → (k < length (workers p))%nat →
  ∃ p', join k t p = (inr None, p') ∧ building (set_joinedIDs ({[k]} ∪ joinedIDs p') p') (S k) ∧
    cfg p' = cfg p ∧ length (workers p') = length (workers p).
Proof.
  intros Hb Hk. apply lookup_lt_is_Some in Hk as Hw. destruct Hw as [w Hw].
  pose proof (Subscribe_bounded (Claims_cfg (cfg p)) (Some k) _ (bd_claims _ _ Hb)) as Hcb.
  assert (Z.of_nat (size (subscribers (availableWorkers p))) < Size (Claims_cfg (cfg p))) as Hroom.
  { rewrite (bd_subscribers _ _ Hb), (bd_joined _ _ Hb), size_set_seq, <- (bd_workers _ _ Hb). lia. }
  rewrite (join_alone p k t w (bd_ctx _ _ Hb) Hw (bd_running _ _ Hb _ _ Hw) Hroom).
  unfold Subscribe in *. rewrite (proj2 (Z.leb_gt _ _)) in * by lia.
  eexists. split; [reflexivity|]. cbn. rewrite !length_insert. split; [|done].
  assert (({[k]} ∪ joinedIDs p : gset nat) = set_seq 0 (S k)) as Hset.
  { rewrite (bd_joined _ _ Hb). apply set_eq. intros x.
    rewrite elem_of_union, elem_of_singleton, !elem_of_set_seq. lia. }
  destruct Hb as [_ Hsub Hj Hlen Hsc Hcl Hctx Hf Hjobs Hrun Ht].
  split; cbn; try done.
  - by rewrite Hsub.
  - by rewrite !length_insert.
  - intros x. destruct (Hjobs x) as [H1 H2]. unfold with_workers, completed. cbn.
    rewrite !bind_app, !count_occ_app. cbn. unfold with_workers, completed in *. lia.
  - intros id v [(<- & <- & _)|[_ Hv]]%list_lookup_insert_Some;
      [exact (Hrun k w Hw)|by eapply Hrun].
  - unfold tables_ok, managed, joining, departed, starting in *. cbn. rewrite Hsc in *.
    set (w' := set_startedNotified _ _).
    replace (<[k:=w']> (workers p)) with (<[k:=w']> (<[k:=set_channels (fresh p) w]> (workers p)))
      by apply list_insert_insert_eq.
    apply (table_same _ _ _ _ ({[k]} ∪ (joinedIDs p ∖ ∅ ∪ ∅ ∪ list_to_set (leaving p))));
      [|unfold leaving; cbn; set_solver].
    apply table_start.
    eapply table_worker; [by rewrite list_lookup_insert_eq|done|done|].
    apply table_install; [done| |exact Ht].
    unfold leaving. rewrite Hj, Hcl. cbn. rewrite !elem_of_union, elem_of_difference, elem_of_set_seq.
    set_solver by lia.
Qed.

Lemma joinInitial_builds t m : ∀ p k,
  building p k → (k + m ≤ length (workers p))%nat →
  ∃ p', joinInitial (seq k m) t p = (None, p') ∧ building p' (k + m) ∧ cfg p' = cfg p.
Proof.
  induction m as [|m IH]; intros p k Hb Hle; cbn [seq joinInitial].
  - exists p. by rewrite Nat.add_0_r.
  - destruct (join_builds p k t Hb) as (p1 & -> & Hb1 & Hcfg & Hlen); [lia|].
    destruct (IH _ (S k) Hb1) as (p2 & Hp2 & Hb2 & Hcfg2); [cbn; lia|].
    exists p2. rewrite Nat.add_succ_r. split_and!; try done. by rewrite Hcfg2.
Qed.

Lemma bare_pool_building c cs t :
  usable c → claims_bounded (Size (Claims_cfg c)) cs → subscribers cs = ∅ → building (bare_pool c cs t) 0.
Proof.
  intros Hu Hcb Hs. split; cbn; try done.
  - unfold createWorkers. rewrite length_replicate. pose proof (usable_Size _ Hu). lia.
  - intros id w. unfold createWorkers. by intros [-> _]%lookup_replicate.
  - unfold tables_ok. cbn. replace (managed _) with (∅ : gset nat); [apply table_initial|].
    unfold managed, leaving. cbn. set_solver.
Qed.

(** The workers [New] joins. *)
Definition initial_join (c : Config) : Z :=
  if cfg_Mode c =? ModeAutoScale then MinSize (AutoScale c) else Size (Claims_cfg c).

(** A pool just built. *)
Record started (c : Config) (p : pool) : Prop := {
  st_ok : pool_ok p;
  st_tables : tables_ok p;
  st_cfg : cfg p = c;
  st_joined : JoinedCount p = initial_join c;
  st_subscribers : subscribers (availableWorkers p) = joinedIDs p;
  st_live : poolCtx p = None ∧ shutdown p = false ∧ reject p = false ∧ closing p = NotClosed;
  st_empty : accepted p = [] ∧ backlog p = [] ∧ dispatching p = Dispatch ∧ submits p = [];
  st_jobs : ∀ x, count (with_workers p) x = 0%nat ∧ count (completed p) x = 0%nat;
  st_scaling : if cfg_Mode c =? ModeAutoScale then scaling p = ScalerSelect 0 0 else scaling p = NoScaler;
}.

Lemma newClaims_usable NumCPU c :
  usable c → ∃ cs, newClaims NumCPU (Some (Claims_cfg c)) = Ret (inr cs) ∧
    claims_bounded (Size (Claims_cfg c)) cs ∧ subscribers cs = ∅.
Proof.
  intros Hu. pose proof (usable_Size _ Hu) as Hs.
  assert (Size (ClaimsConfig_applyDefaults NumCPU (Claims_cfg c)) = Size (Claims_cfg c)) as Hsize
    by (cbn; by apply default_keeps).
  assert (∃ cs, newClaims NumCPU (Some (Claims_cfg c)) = Ret (inr cs)) as [cs Hcs].
  { unfold newClaims, make_chan. rewrite Hsize, (proj2 (Z.ltb_ge _ _)) by lia. by eexists. }
  exists cs. split; [done|]. rewrite <- Hsize. by apply newClaims_bounded.
Qed.

(** A pool whose initial workers joined, with or without a scaler. *)
Lemma built_ok p k ph :
  building p k → usable (cfg p) → count_ok p →
  (cfg_Mode (cfg p) = ModeAutoScale ∧ ph = ScalerSelect 0 0 ∨
   cfg_Mode (cfg p) ≠ ModeAutoScale ∧ ph = NoScaler) →
  (k ≤ length (workers p))%nat → pool_ok (set_scaling ph p) ∧ tables_ok (set_scaling ph p).
Proof.
  intros [Hbc _ Hbj Hbw Hbsc Hbcl _ (_ & Hbk & _) _ _ Ht] Hu Hn Hmode Hk.
  pose proof (usable_Backlog _ Hu).
  assert (tables_ok (set_scaling ph p)) as Ht'.
  { revert Ht. unfold tables_ok, managed, joining, departed, starting. rewrite Hbsc.
    by destruct Hmode as [[_ ->]|[_ ->]]. }
  split; [|done]. split; try done.
  - cbn. rewrite Hbk. cbn. lia.
  - intros id. cbn. rewrite Hbj, elem_of_set_seq. lia.
  - unfold scaler_ok, auto. cbn. by destruct Hmode as [[? ->]|[? ->]].
  - unfold closing_ok. cbn. by rewrite Hbcl.
Qed.

Lemma New_starts NumCPU config c t :
  0 < NumCPU → effective_config NumCPU config = inr c →
  ∃ p, New NumCPU (Some None) true (Some config) t = Ret (inr p) ∧ started c p.
Proof.
  intros Hcpu Hc. pose proof (effective_config_usable _ _ _ Hcpu Hc) as Hu.
  destruct (newClaims_usable NumCPU c Hu) as (cs & Hcs & Hcb & Hsub).
  pose proof (bare_pool_building c cs t Hu Hcb Hsub) as Hbare.
  cbn [New negb]. rewrite Hc, Hcs. cbn [obind].
  pose proof (bd_workers _ _ Hbare) as Hlen. cbn [bare_pool cfg] in Hlen.
  assert (0 < initial_join c ≤ Size (Claims_cfg c)) as Hinit.
  { unfold initial_join. pose proof (usable_Size _ Hu). case_match; [|lia]. boolify.
    pose proof (usable_auto _ Hu H0) as (? & ? & _). lia. }
  change (if cfg_Mode c =? ModeAutoScale then MinSize (AutoScale c) else Size (Claims_cfg c))
    with (initial_join c).
  rewrite Hlen, Z.min_l by lia.
  destruct (joinInitial_builds t (Z.to_nat (initial_join c)) (bare_pool c cs t) 0 Hbare) as (p & Hp & Hb & Hcfg).
  { lia. }
  rewrite Hp. cbn [bare_pool cfg] in Hcfg. cbn [Nat.add] in Hb.
  eexists. split; [reflexivity|].
  assert (JoinedCount p = initial_join c) as Hjc.
  { unfold JoinedCount. rewrite (bd_joined _ _ Hb), size_set_seq. lia. }
  set (p' := if cfg_Mode c =? ModeAutoScale then set_scaling (ScalerSelect 0 0) p else p).
  assert (pool_ok p' ∧ tables_ok p') as [Hok Htab].
  { assert (set_scaling NoScaler p = p) as Hsame by (destruct p, Hb; cbn in *; by subst).
    assert (count_ok p) as Hn.
    { unfold count_ok. rewrite Hcfg, Hjc. unfold initial_join.
      case_decide as Hm; [by rewrite (proj2 (Z.eqb_eq _ _) Hm)|by rewrite (proj2 (Z.eqb_neq _ _) Hm)]. }
    assert (Z.to_nat (initial_join c) ≤ length (workers p))%nat as Hk
      by (pose proof (bd_workers _ _ Hb) as Hw; rewrite Hcfg in Hw; lia).
    unfold p'. case_match eqn:Hm; boolify; [|rewrite <- Hsame];
      (eapply built_ok; [exact Hb|by rewrite Hcfg|done| |done]); rewrite Hcfg; [by left|by right]. }
  destruct Hb as [Hbc Hbs Hbj Hbw Hbsc Hbcl Hbctx (Ha & Hbk & Hd & Hsb & Hsh & Hrj) Hjobs _ Ht].
  unfold p' in *. destruct (cfg_Mode c =? ModeAutoScale) eqn:Hm; split; try done; by rewrite Hm.
Qed.

(** The pool [New] returns, when it returns one. *)
Lemma New_started NumCPU c h config t p :
  0 < NumCPU → New NumCPU c h config t = Ret (inr p) → ∃ cf, started cf p.
Proof.
  intros Hcpu Hnew. destruct c as [[e|]|]; try done. destruct h; [|done].
  destruct config as [config|]; [|done].
  destruct (effective_config NumCPU config) as [e|cf] eqn:Hcf; [cbn in Hnew; by rewrite Hcf in Hnew|].
  destruct (New_starts NumCPU config cf t Hcpu Hcf) as (p' & Hp' & Hst).
  pose proof (eq_trans (eq_sym Hnew) Hp') as Heq. injection Heq as ->. by exists cf.
Qed.

Lemma New_reachable_ok NumCPU c h config t p0 p :
  0 < NumCPU → New NumCPU c h config t = Ret (inr p0) → rtc pool_next p0 p → pool_ok p.
Proof.
  intros Hcpu Hnew. destruct (New_started _ _ _ _ _ _ Hcpu Hnew) as [cf Hst].
  apply reachable_ok. by apply (st_ok _ _ Hst).
Qed.

Lemma reachable_balanced p p' : rtc pool_next p p' → balanced p p'.
Proof. apply rtc_related; [apply _|apply pool_next_balanced]. Qed.

(** [New]. Its errors are, in this order, those of a nil context, a done one, a
    nil handler, a nil configuration and an unusable configuration; otherwise it
    returns a live pool, without a panic, whose joined workers are the ones of the
    mode ([Size], or [MinSize] when scaling), exactly the subscribed ones, with no
    job anywhere and the scaler running exactly in auto mode. *)
Theorem new_pool_starts NumCPU c h config t :
  0 < NumCPU →
  match c, h, config with
  | None, _, _ => New NumCPU c h config t = Ret (inl (Joined [ErrInvalidPool; Text "nil context"]))
  | Some (Some e), _, _ => New NumCPU c h config t = Ret (inl e)
  | _, false, _ => New NumCPU c h config t = Ret (inl (Joined [ErrInvalidPool; Text "nil handler"]))
  | _, _, None => New NumCPU c h config t = Ret (inl (Joined [ErrInvalidPool; Text "nil config"]))
  | _, _, Some config' =>
      match effective_config NumCPU config' with
      | inl e => New NumCPU c h config t = Ret (inl e)
      | inr cf => ∃ p, New NumCPU c h config t = Ret (inr p) ∧
          cfg p = cf ∧ poolCtx p = None ∧ reject p = false ∧
          JoinedCount p = (if cfg_Mode cf =? ModeAutoScale then MinSize (AutoScale cf)
                           else Size (Claims_cfg cf)) ∧
          subscribers (availableWorkers p) = joinedIDs p ∧
          accepted p = [] ∧ places p = [] ∧
          (scaling p = NoScaler ↔ cfg_Mode cf ≠ ModeAutoScale)
      end
  end.
Proof.
  intros Hcpu. destruct c as [[e|]|], h, config as [config|]; try done.
  destruct (effective_config NumCPU config) as [e|cf] eqn:Hcf; [cbn; by rewrite Hcf|].
  destruct (New_starts NumCPU config cf t Hcpu Hcf) as (p & Hp & [_ _ ? ? ? (? & _ & ? & _) (Ha & Hb & Hd & _) Hj Hsc]).
  exists p. split_and!; try done.
  - apply Permutation_nil_r, (Permutation_count_occ Job_eq_dec). intros x. rewrite count_places.
    destruct (Hj x) as [-> ->]. by rewrite Hb, Hd.
  - destruct (cfg_Mode cf =? ModeAutoScale) eqn:Hm; boolify; rewrite Hsc; [|tauto].
    split; [done|]. by intros [].
Qed.

(** Four jobs at a time, everything else by default. *)
Definition fixed_four : Config :=
  MkConfig (MkClaimsConfig "" NaN 4 0 0 0) ModeFixedSize NaN 0 (MkAutoScale 0 0 0 0 0 0 0 0).

Lemma new_pool_starts_witness :
  ∃ p, New 8 (Some None) true (Some fixed_four) 0 = Ret (inr p) ∧ JoinedCount p = 4.
Proof.
  pose proof (new_pool_starts 8 (Some None) true (Some fixed_four) 0 ltac:(reflexivity)) as H.
  destruct (effective_config 8 fixed_four) as [e|cf] eqn:Hcf; [discriminate Hcf|].
  destruct H as (p & Hp & _ & _ & _ & Hj & _). exists p. split; [exact Hp|].
  injection Hcf as <-. exact Hj.
Defined.

(** C1: conservation of jobs. In every state the pool can reach from [New], under any
    interleaving of submissions, workers, dispatcher, scaler, cancellations and
    either shutdown, each accepted job is in exactly one place: the backlog, the
    dispatcher's hands, a worker's, or reported once (the handler's outcome or the
    dispatch error). So no job runs twice, and none is lost or reported twice. *)
Theorem pool_conserves_jobs NumCPU c h config t p0 p :
  0 < NumCPU → New NumCPU c h config t = Ret (inr p0) → rtc pool_next p0 p →
  accepted p ≡ₚ backlog p ++ dispatcher_jobs (dispatching p) ++ with_workers p ++ completed p.
Proof.
  intros Hcpu Hnew Hreach. destruct (New_started _ _ _ _ _ _ Hcpu Hnew) as [cf Hst].
  destruct (st_empty _ _ Hst) as (Ha & Hb & Hd & _).
  apply (Permutation_count_occ Job_eq_dec). intros x.
  pose proof (reachable_balanced _ _ Hreach x) as Hbal.
  assert (count (places p0) x = 0%nat) as Hp0.
  { rewrite count_places, Hb, Hd. destruct (st_jobs _ _ Hst x) as [-> ->]. done. }
  rewrite Ha, Hp0 in Hbal. unfold places in *. cbn in Hbal. lia.
Qed.

(** C18: bounds. In every state the pool can reach from [New]: the backlog holds at
    most [Backlog] jobs, at most [Size] workers are subscribed and at most [Size]
    claims pending; the joined workers are [Size] with a fixed size, and between
    [MinSize] and [MaxSize] when scaling, until [close] takes them over. *)
Theorem pool_respects_bounds NumCPU c h config t p0 p :
  0 < NumCPU → New NumCPU c h config t = Ret (inr p0) → rtc pool_next p0 p →
  Z.of_nat (length (backlog p)) ≤ Backlog (cfg p) ∧
  Z.of_nat (size (subscribers (availableWorkers p))) ≤ Size (Claims_cfg (cfg p)) ∧
  0 ≤ PendingClaims (availableWorkers p) ≤ Size (Claims_cfg (cfg p)) ∧
  JoinedCount p ≤ Size (Claims_cfg (cfg p)) ∧
  (¬ snapshotted p →
     if decide (cfg_Mode (cfg p) = ModeAutoScale)
     then MinSize (AutoScale (cfg p)) ≤ JoinedCount p ≤ MaxSize (AutoScale (cfg p))
     else JoinedCount p = Size (Claims_cfg (cfg p))).
Proof.
  intros Hcpu Hnew Hreach. pose proof (New_reachable_ok _ _ _ _ _ _ _ Hcpu Hnew Hreach) as Hok.
  assert (JoinedCount p ≤ Size (Claims_cfg (cfg p))) as Hle.
  { rewrite <- (ok_workers _ Hok). unfold JoinedCount. rewrite <- (size_set_seq 0 (length (workers p))).
    apply inj_le, subseteq_size. intros id Hid. apply elem_of_set_seq.
    pose proof (ok_joined _ Hok id Hid). lia. }
  split_and!.
  - exact (ok_backlog _ Hok).
  - exact (bounded_subscribers _ _ (ok_claims _ Hok)).
  - exact (proj1 (PendingClaims_bounded _ _ (ok_claims _ Hok))).
  - exact (proj2 (PendingClaims_bounded _ _ (ok_claims _ Hok))).
  - exact Hle.
  - intros Hns. pose proof (ok_count _ Hok Hns) as Hn. unfold count_ok in Hn. case_decide as Hm; [|done].
    split; [done|]. destruct (usable_auto _ (ok_usable _ Hok) Hm) as (_ & -> & _). done.
Qed.

(** ** Graceful shutdown *)

Lemma runLoop_keeps i ch p p' :
  runLoop_step i ch p = Some (Ret p') →
  accepted p' = accepted p ∧ backlog p' = backlog p ∧ dispatching p' = dispatching p.
Proof.
  unfold runLoop_step, loop_return. intros H. repeat case_match; simplify_eq/=; done.
Qed.

Lemma Submit_keeps i ch p p' :
  Submit_step i ch p = Some p' → dispatching p' = dispatching p ∧
  (accepted p' = accepted p ∧ backlog p' = backlog p ∨
   ∃ j, accepted p' = j :: accepted p ∧ backlog p' = backlog p ++ [j]).
Proof.
  unfold Submit_step. intros H. repeat case_match; simplify_eq/=; split; eauto.
Qed.

(** Once the dispatcher has returned, jobs only enter the backlog. *)
Lemma next_drained p p' :
  pool_next p p' → dispatching p = Drained → dispatching p' = Drained ∧
  (accepted p' = accepted p ∧ backlog p' = backlog p ∨
   ∃ j, accepted p' = j :: accepted p ∧ backlog p' = backlog p ++ [j]).
Proof.
  intros [mv Hmv] Hd. destruct mv as [j c|dr|e|c e|i ch|ch|i ch|ch|tm]; cbn in Hmv.
  - simplify_eq. by auto.
  - unfold close in Hmv. destruct (closing p); simplify_eq/=; by auto.
  - simplify_eq. destruct (poolCtx p); by auto.
  - simplify_eq. destruct (callers p !! c); by auto.
  - apply runLoop_keeps in Hmv as (? & ? & ->). by auto.
  - unfold dispatcher_step in Hmv. rewrite Hd in Hmv. by destruct ch.
  - destruct (Submit_step i ch p) eqn:Hs; simplify_eq/=. apply Submit_keeps in Hs as [-> ?]. by auto.
  - apply scaler_frame in Hmv as (? & ? & -> & _). by auto.
  - apply close_frame in Hmv as (? & ? & -> & _). by auto.
Qed.

(** The dispatcher returns with the pool live only on an empty backlog. *)
Lemma drains_empty p p' :
  pool_next p p' → dispatching p ≠ Drained → dispatching p' = Drained → poolCtx p = None →
  backlog p' = [] ∧ shutdown p = true.
Proof.
  intros [mv Hmv] Hd Hd' Hc. destruct mv as [j c|dr|e|c e|i ch|ch|i ch|ch|tm]; cbn in Hmv.
  - by simplify_eq.
  - unfold close in Hmv. by destruct (closing p); simplify_eq/=.
  - simplify_eq. by destruct (poolCtx p).
  - simplify_eq. by destruct (callers p !! c).
  - apply runLoop_keeps in Hmv as (_ & _ & ?). congruence.
  - destruct (dispatcher_step ch p) as [p1|] eqn:Hs; simplify_eq/=. unfold dispatcher_step in Hs.
    destruct (dispatching p) as [|j d ph|] eqn:Hdp, ch as [| |t|ch]; try done.
    + by rewrite Hc in Hs.
    + destruct (shutdown p); [|done]. case_match eqn:Hl; simplify_eq/=; [|congruence].
      boolify. by apply nil_length_inv in Hl.
    + destruct (backlog p); simplify_eq/=.
    + destruct (submit_step j d ph ch p) as [[[ph'|[e|]] p2]|]; simplify_eq/=.
  - destruct (Submit_step i ch p) eqn:Hs; simplify_eq/=. apply Submit_keeps in Hs as [? _]. congruence.
  - apply scaler_frame in Hmv as (_ & _ & ? & _). congruence.
  - apply close_frame in Hmv as (_ & _ & ? & _). congruence.
Qed.

(** C19: [GracefulShutdown] hands off the backlog. When the dispatcher returns while
    the pool's context is live, every job accepted until then has been handed to a
    worker or reported, in that state and in every later one; and a job accepted
    afterwards (by a [Submit] that passed its checks before the shutdown) stays in
    the backlog for ever. *)
Theorem graceful_shutdown_drains NumCPU c h config t p0 p p' q :
  0 < NumCPU → New NumCPU c h config t = Ret (inr p0) → rtc pool_next p0 p →
  pool_next p p' → dispatching p ≠ Drained → dispatching p' = Drained → poolCtx p = None →
  rtc pool_next p' q →
  shutdown p = true ∧
  ∃ late, accepted q = late ++ accepted p' ∧ backlog q = reverse late ∧
    accepted p' ≡ₚ with_workers q ++ completed q.
Proof.
  intros Hcpu Hnew Hreach Hstep Hd Hd' Hc Hq.
  destruct (drains_empty _ _ Hstep Hd Hd' Hc) as [Hb' Hsh]. split; [done|].
  assert (dispatching q = Drained ∧ ∃ late, accepted q = late ++ accepted p' ∧ backlog q = reverse late)
    as (Hdq & late & Haq & Hbq).
  { eapply (rtc_preserves pool_next (λ q, dispatching q = Drained ∧
      ∃ late, accepted q = late ++ accepted p' ∧ backlog q = reverse late)); [|exact Hq|].
    - intros s s' (Hs & late & Ha & Hb) Hss. destruct (next_drained _ _ Hss Hs) as [? [[-> ->]|(j & -> & ->)]].
      + split; [done|]. by exists late.
      + split; [done|]. exists (j :: late). by rewrite Ha, Hb, reverse_cons.
    - split; [done|]. by exists []. }
  exists late. split_and!; [done|done|].
  destruct (New_started _ _ _ _ _ _ Hcpu Hnew) as [cf Hst]. destruct (st_empty _ _ Hst) as (Ha & Hb & Hdd & _).
  assert (balanced p0 q) as Hbal.
  { apply reachable_balanced. etrans; [exact Hreach|]. eapply rtc_l; [exact Hstep|exact Hq]. }
  apply (Permutation_count_occ Job_eq_dec). intros x. specialize (Hbal x).
  rewrite !count_places, Ha, Hb, Hdd, Haq, Hbq, Hdq in Hbal. destruct (st_jobs _ _ Hst x) as [Hw Hcc].
  rewrite Hw, Hcc, count_occ_app, (proj1 (Permutation_count_occ Job_eq_dec _ _) (reverse_Permutation late)) in Hbal.
  rewrite count_occ_app. cbn in Hbal. lia.
Qed.

(** ** [pickVictim] as the scaler runs it

    A run of the steps of [pickVictim] in which no worker changes computes the pure
    [pickVictim] of [Scaler]; four steps a candidate are enough. *)
Fixpoint pick_steps (n : nat) (read : nat → idleCandidate) (t period : Z) (ids : list nat)
    (x : nat * Z * pick_phase) : nat * Z * pick_phase :=
  match n with
  | O => x
  | S n =>
      let '(i, best, ph) := x in
      pick_steps n read t period ids
        (if (i <? length ids)%nat then pick_step read t period ids i best ph else x)
  end.

Lemma pick_steps_over n read t period ids best :
  pick_steps n read t period ids (length ids, best, PickRunning) = (length ids, best, PickRunning).
Proof. induction n as [|n IH]; cbn [pick_steps]; [done|]. by rewrite Nat.ltb_irrefl. Qed.

Lemma pick_steps_S n read t period ids i best ph :
  (i < length ids)%nat →
  pick_steps (S n) read t period ids (i, best, ph) =
  pick_steps n read t period ids (pick_step read t period ids i best ph).
Proof. intros Hi. cbn [pick_steps]. by rewrite (proj2 (Nat.ltb_lt _ _) Hi). Qed.

Lemma pick_steps_loop read t period ids rest : ∀ n i best,
  drop i ids = rest → (i ≤ length ids)%nat → (4 * length rest ≤ n)%nat →
  best = -1 ∨ (∃ k, best = Z.of_nat k ∧ (k < length ids)%nat) →
  pick_steps n read t period ids (i, best, PickRunning) =
  (length ids, pick_loop t period (read <$> ids) (read <$> rest) (Z.of_nat i) best, PickRunning).
Proof.
  induction rest as [|id rest IH]; intros n i best Hdrop Hi Hn Hb.
  - assert (i = length ids) as ->.
    { apply (f_equal length) in Hdrop. rewrite length_drop in Hdrop. cbn in Hdrop. lia. }
    by rewrite pick_steps_over.
  - assert (ids !! i = Some id) as Hid by (rewrite <- (Nat.add_0_r i), <- lookup_drop, Hdrop; done).
    assert (drop (S i) ids = rest) as Hdrop'.
    { pose proof (drop_S _ _ _ Hid) as Hd. rewrite Hd in Hdrop. congruence. }
    pose proof (lookup_lt_Some _ _ _ Hid) as Hlt.
    pose proof (λ n' best', IH n' (S i) best' Hdrop' Hlt) as IH'. clear IH.
    cbn [length] in Hn. destruct n as [|n]; [lia|]. rewrite pick_steps_S by done.
    cbn [fmap list_fmap pick_loop]. replace (Z.of_nat i + 1) with (Z.of_nat (S i)) by lia.
    unfold pick_step. rewrite Hid. destruct (IsRunning (read id)); [apply IH'; [lia|done]|].
    destruct n as [|n]; [lia|]. rewrite pick_steps_S by done. unfold pick_step. rewrite Hid.
    destruct (wrap64 (t - LastActiveAt (read id)) <? period); [apply IH'; [lia|done]|].
    destruct (Z.eqb_spec best (-1)) as [->|Hbest]; [apply IH'; [lia|eauto]|].
    destruct Hb as [?|(k & -> & Hk)]; [done|].
    apply lookup_lt_is_Some in Hk as Hb. destruct Hb as [b Hb].
    destruct n as [|[|n]]; [lia..|]. rewrite pick_steps_S by done. unfold pick_step. rewrite Hid.
    rewrite pick_steps_S by done. unfold pick_step.
    rewrite list_lookup_fmap, Nat2Z.id, Hb. cbn [fmap option_fmap option_map orb].
    destruct (LastActiveAt (read id) <? LastActiveAt (read b)); (apply IH'; [lia|right; eexists; split; [reflexivity|done]]).
Qed.

(** With four steps a candidate. *)
Theorem pick_alone read t period ids n :
  (4 * length ids ≤ n)%nat →
  pick_steps n read t period ids (0%nat, -1, PickRunning) =
  (length ids, (pickVictim (read <$> ids) t period).1, PickRunning).
Proof. intros Hn. apply (pick_steps_loop read t period ids ids n 0 (-1)); auto with lia. Qed.
