(* ===== verification/PoolProgress.v ===== *)
(** * Progress of the worker pool

    The scaler, the dispatcher, [close] and [Submit] never panic, whatever timed out, and
    neither do the run loops as long as no leave has timed out; and a [close] that has
    started can finish without any worker, whatever the handlers do. *)
From S2P Require Import Prelude Golang PoolConfig Claims Scaler Pool PoolTable PoolSafety PoolInvariant PoolTheorems.
Local Open Scope Z_scope.

(** ** Workers in use have a context

    Unlike the tables of [PoolTable] this holds after timeouts as well. *)
Definition with_ctx (ws : list worker) (id : nat) : Prop := ∃ w, ws !! id = Some w ∧ ctxFn w ≠ None.

Abbreviation has_ctx p := (with_ctx (workers p)).

Definition in_use (p : pool) : Prop :=
  (∀ id, id ∈ managed p → has_ctx p id) ∧ (∀ id, starting p = Some id → has_ctx p id).

Lemma with_ctx_insert id w w' k ws :
  ws !! id = Some w → (ctxFn w ≠ None → ctxFn w' ≠ None) → with_ctx ws k → with_ctx (<[id := w']> ws) k.
Proof.
  intros Hid Hw (v & Hk & Hv). destruct (decide (k = id)) as [->|Hne].
  - exists w'. rewrite list_lookup_insert_eq by (by eapply lookup_lt_Some).
    assert (v = w) as -> by congruence. auto.
  - exists v. by rewrite list_lookup_insert_ne.
Qed.

Lemma with_ctx_other id w' k ws : k ≠ id → with_ctx ws k → with_ctx (<[id := w']> ws) k.
Proof. intros Hne (v & Hk & Hv). exists v. by rewrite list_lookup_insert_ne. Qed.

Lemma with_ctx_new id w w' ws : ws !! id = Some w → ctxFn w' ≠ None → with_ctx (<[id := w']> ws) id.
Proof. intros Hw Hc. exists w'. by rewrite list_lookup_insert_eq by (by eapply lookup_lt_Some). Qed.

(** Steps that keep the contexts and hand no worker over. *)
Lemma in_use_keeps p p' :
  in_use p → (∀ id, has_ctx p id → has_ctx p' id) →
  (∀ id, id ∈ managed p' → id ∈ managed p) → (∀ id, starting p' = Some id → starting p = Some id) →
  in_use p'.
Proof. intros [Hm Hs] Hc Hm' Hs'. split; intros id Hid; apply Hc; auto. Qed.

Lemma in_use_same p p' :
  in_use p → joinedIDs p' = joinedIDs p → scaling p' = scaling p → closing p' = closing p →
  (∀ id, has_ctx p id → has_ctx p' id) → in_use p'.
Proof.
  intros H Hj Hs Hc Hctx. apply (in_use_keeps p); try done;
    intros id; unfold managed, leaving, joining, departed, starting; by rewrite ?Hj, ?Hs, ?Hc.
Qed.

Lemma runLoop_in_use i ch p p' : runLoop_step i ch p = Some (Ret p') → in_use p → in_use p'.
Proof.
  intros Hstep Hi. unfold runLoop_step, loop_return in Hstep.
  destruct (loops p !! i) as [l|]; [|done]. destruct (workers p !! loop_worker l) as [w|] eqn:Hw; [|done].
  apply (in_use_same p); [done|by repeat case_match; simplify_eq..|].
  intros id Hid. repeat case_match; simplify_eq; cbn; try exact Hid;
    by apply with_ctx_insert with w.
Qed.

Lemma submit_step_control j d ph ch p r p' :
  submit_step j d ph ch p = Some (r, p') →
  joinedIDs p' = joinedIDs p ∧ scaling p' = scaling p ∧ closing p' = closing p ∧ workers p' = workers p ∧
  backlog p' = backlog p ∧ shutdown p' = shutdown p ∧ cfg p' = cfg p ∧ poolCtx p' = poolCtx p.
Proof. unfold submit_step. intros H. by repeat case_match; simplify_eq. Qed.

Lemma dispatcher_control ch p p' :
  dispatcher_step ch p = Some p' →
  joinedIDs p' = joinedIDs p ∧ scaling p' = scaling p ∧ closing p' = closing p ∧ workers p' = workers p ∧
  shutdown p' = shutdown p ∧ cfg p' = cfg p ∧ poolCtx p' = poolCtx p.
Proof.
  unfold dispatcher_step. intros H. destruct (dispatching p), ch; try done;
    try (by repeat case_match; simplify_eq).
  destruct (submit_step _ _ _ _ _) as [[r p1]|] eqn:Hs; [|done].
  apply submit_step_control in Hs. destruct r as [|[|]]; simplify_eq; tauto.
Qed.

Lemma in_use_scaling ph p :
  in_use p → managed (set_scaling ph p) = managed p → starting (set_scaling ph p) = starting p →
  in_use (set_scaling ph p).
Proof. intros [Hm Hs] Em Es. split; cbn; [by rewrite Em|by rewrite Es]. Qed.

Lemma join_step_ctx id ph t p r p1 :
  join_step id ph t p = (r, p1) →
  (∀ k, has_ctx p k → has_ctx p1 k) ∧
  match r with inl JoinStart => has_ctx p1 id | inr None => ph = JoinStart | _ => True end.
Proof.
  unfold join_step. destruct (workers p !! id) as [w|] eqn:Hw; [|by intros; simplify_eq].
  destruct ph; [destruct (poolCtx p)|destruct (running w)|destruct (Subscribe _ _ _) as [[e|] cs]| | |];
    intros; simplify_eq; cbn; (split; [|try done]); try done; intros;
    first [by apply with_ctx_insert with w | by apply with_ctx_new with w].
Qed.

Lemma leave_step_ctx id ph timeout p r p1 k :
  leave_step id ph timeout p = Some (Ret (r, p1)) → k ≠ id ∨ (∃ ph', r = inl ph') →
  has_ctx p k → has_ctx p1 k.
Proof.
  unfold leave_step. destruct (workers p !! id) as [w|] eqn:Hw; [|done]. intros Hl Hk Hc.
  destruct ph as [| |d]; [by simplify_eq|by destruct (ctxFn w); simplify_eq|].
  destruct timeout; [by simplify_eq|]. case_decide; simplify_eq. cbn.
  apply with_ctx_other; [|done]. by destruct Hk as [|[? ?]].
Qed.

Lemma scaler_join_in_use id ph t n k u d now p r p1 :
  pool_ok p → in_use p → scaling p = ScalerJoin id ph t n k u d → join_step id ph now p = (r, p1) →
  in_use (set_scaling (after_join id r t n k u d) p1).
Proof.
  intros Hok [Hm Hs] Hsc Hj. destruct (join_step_ctx _ _ _ _ _ _ Hj) as [Hctx Hr].
  destruct (join_step_frame_ok _ _ _ _ _ _ Hj Hok) as (_ & Ej & _ & Ek & _).
  unfold managed, leaving, joining, departed, starting in *. rewrite Hsc in Hm, Hs.
  split; unfold managed, leaving, joining, departed, starting; cbn.
  - rewrite Ej, Ek. intros x Hx. destruct (decide (x = id)) as [->|Hne].
    + destruct r as [ph'|[e|]]; cbn in *; [apply Hctx, Hm; set_solver..|]. apply Hctx, Hs. by subst ph.
    + apply Hctx, Hm. destruct r as [ph'|[e|]]; set_solver.
  - intros x Hx. destruct r as [[]|[e|]]; cbn in Hx; try done. by injection Hx as <-.
Qed.

Lemma scaler_leave_in_use id t ph u tm p r p1 :
  pool_ok p → in_use p → scaling p = ScalerLeave id t ph u →
  leave_step id ph tm p = Some (Ret (r, p1)) →
  in_use (set_scaling (match r with inl ph' => ScalerLeave id t ph' u | inr _ => ScalerLeft id t u end) p1).
Proof.
  intros Hok [Hm Hs] Hsc Hl. pose proof (leave_step_control _ _ _ _ _ _ Hl) as [_ Ej _ Ek _ _].
  destruct (active_not_leaving p Hok) as (Hlv & _ & _); [by eapply active|].
  unfold managed, leaving, joining, departed, starting in *. rewrite Hsc, Hlv in Hm.
  split; unfold managed, leaving, joining, departed, starting; cbn; [|by destruct r].
  rewrite Ej, Ek, Hlv. intros x Hx.
  eapply leave_step_ctx; [exact Hl| |apply Hm; destruct r; set_solver].
  destruct r as [ph'|e]; [right; by eexists|left]. set_solver.
Qed.

Lemma scaler_in_use ch p p' : scaler_step ch p = Some (Ret p') → pool_ok p → in_use p → in_use p'.
Proof.
  intros Hstep Hok Hi. unfold scaler_step in Hstep.
  destruct (scaling p) as [|u d|u d|n u d|n i u d|t n k u d|id ph t n k u d|id t n k u d|t u d
    |ids i best ph t u d|id t ph u|id t u|] eqn:Hsc, ch as [| |t'|tm]; try done;
    try (simplify_eq; apply in_use_scaling; [done|same_tables Hsc|same_tables Hsc]).
  - case_match; simplify_eq. apply in_use_scaling; [done|same_tables Hsc|same_tables Hsc].
  - destruct (decide_ _ _) as [[] step]; simplify_eq;
      (apply in_use_scaling; [done|same_tables Hsc|same_tables Hsc]).
  - destruct n as [|n]; [|destruct (joinOneIdle p)]; simplify_eq;
      (apply in_use_scaling; [done|same_tables Hsc|same_tables Hsc]).
  - destruct (join_step id ph t' p) as [r p1] eqn:Hj.
    pose proof (scaler_join_in_use _ _ _ _ _ _ _ _ _ _ _ Hok Hi Hsc Hj) as H.
    destruct r as [ph'|[e|]]; simplify_eq; exact H.
  - simplify_eq. destruct Hi as [Hm Hs]. unfold managed, joining, departed, starting in *. rewrite Hsc in *.
    split; [|done]. unfold managed, joining, departed. cbn. intros x Hx. apply Hm.
    unfold leaving in *. cbn in *. set_solver.
  - destruct (i <? length ids)%nat; [|destruct (best =? -1); [|case_match; [|done]]].
    + destruct (pick_step _ _ _ _ _ _ _) as [[i' best'] ph']. simplify_eq.
      apply in_use_scaling; [done|same_tables Hsc|same_tables Hsc].
    + simplify_eq. apply in_use_scaling; [done|same_tables Hsc|same_tables Hsc].
    + simplify_eq. apply in_use_scaling; [done|same_tables Hsc|same_tables Hsc].
  - destruct (leave_step id ph tm p) as [[[r p1]|]|] eqn:Hl; [|done|done].
    pose proof (scaler_leave_in_use _ _ _ _ _ _ _ _ Hok Hi Hsc Hl) as H.
    destruct r; simplify_eq; exact H.
  - simplify_eq. destruct Hi as [Hm Hs]. unfold managed, joining, departed, starting in *. rewrite Hsc in *.
    split; [|done]. unfold managed, joining, departed. cbn. intros x Hx. apply Hm.
    unfold leaving in *. cbn in *. set_solver.
Qed.

Lemma in_use_cancel p : in_use p → in_use (cancel_pool p).
Proof. intros Hi. unfold cancel_pool. by destruct (poolCtx p). Qed.

Lemma in_use_closing c p :
  in_use p → leaving p = [] → leaving (set_closing c p) = [] → in_use (set_closing c p).
Proof.
  intros [Hm Hs] Hl Hl'. split; [|done]. unfold managed in *. rewrite Hl in Hm. rewrite Hl'. exact Hm.
Qed.

Lemma close_in_use tm p p' : close_step tm p = Some (Ret p') → pool_ok p → in_use p → in_use p'.
Proof.
  intros Hstep Hok Hi. unfold close_step in Hstep.
  pose proof (ok_closing _ Hok) as Hc. unfold closing_ok in Hc.
  assert (∀ c, closing (cancel_pool p) = c ↔ closing p = c) as Hcan
    by (intros c; unfold cancel_pool; by destruct (poolCtx p)).
  destruct (closing p) as [|dr| | | | |[|id rest] ph|] eqn:Hcl; try done.
  - simplify_eq. assert (in_use (set_shutdown true p)) as Hi' by done.
    apply in_use_closing; [done|unfold leaving; cbn; by rewrite Hcl|by destruct dr].
  - simplify_eq. apply in_use_closing; [by apply in_use_cancel| |done].
    unfold leaving. by rewrite (proj2 (Hcan CloseCancel) eq_refl).
  - destruct (dispatching p); simplify_eq.
    apply in_use_closing; [done|unfold leaving; by rewrite Hcl|by destruct (_ =? _)].
  - destruct (scaling p); simplify_eq. apply in_use_closing; [done|unfold leaving; by rewrite Hcl|done].
  - simplify_eq. destruct Hi as [Hm Hs]. destruct (managed_idle p Hc) as [Em Es].
    set (q := set_closing _ _). assert (scaler_idle q) as Hq by done.
    destruct (managed_idle q Hq) as [Em' Es']. split; [|by rewrite Es'].
    rewrite Em'. intros x Hx. apply Hm. rewrite Em. unfold leaving in *. cbn in Hx.
    rewrite elem_of_union, elem_of_list_to_set, elem_of_joined_workers in Hx by done. set_solver.
  - simplify_eq. apply in_use_closing; [by apply in_use_cancel| |done].
    unfold leaving. by rewrite (proj2 (Hcan (CloseLeave [] ph)) eq_refl).
  - destruct (leave_step id ph tm p) as [[[r p1]|]|] eqn:Hl; [|done|done].
    pose proof (leave_step_control _ _ _ _ _ _ Hl) as [_ Ej Esc Ek _ _].
    destruct Hc as (Hidle & Hj0 & [Hnin Hnd]%NoDup_cons & _). destruct Hi as [Hm Hs].
    destruct (managed_idle p Hidle) as [Em Es]. rewrite Em, Hj0 in Hm. unfold leaving in Hm. rewrite Hcl in Hm.
    assert (∃ ids ph', p' = set_closing (CloseLeave ids ph') p1 ∧
      (∀ x, x ∈ ids → x ∈ id :: rest ∧ (x ≠ id ∨ ∃ ph', r = inl ph'))) as (ids & ph1 & -> & Hids).
    { destruct r as [ph1|e]; simplify_eq; do 2 eexists; (split; [done|]); intros x Hx.
      - split; [done|]. right. by eexists.
      - split; [by right|]. left. by intros ->. }
    set (q := set_closing _ _). assert (scaler_idle q) as Hq by (unfold scaler_idle, q in *; cbn; by rewrite Esc).
    destruct (managed_idle q Hq) as [Em' Es']. split; [|by rewrite Es'].
    rewrite Em'. unfold leaving. cbn. rewrite Ej, Hj0. intros x [?%not_elem_of_empty|Hx]%elem_of_union; [done|].
    apply elem_of_list_to_set, Hids in Hx as [Hx Hor].
    eapply leave_step_ctx; [exact Hl|exact Hor|]. apply Hm. apply elem_of_union_r, elem_of_list_to_set. exact Hx.
Qed.

Lemma next_in_use p p' : pool_next p p' → pool_ok p → in_use p → in_use p'.
Proof.
  intros [mv Hmv] Hok Hi. destruct mv as [j c|dr|e|c e|i ch|ch|i ch|ch|tm]; cbn in Hmv.
  - by simplify_eq.
  - unfold close in Hmv. destruct (closing p) eqn:Hcl; try done. simplify_eq/=.
    assert (in_use (set_reject true p)) as Hi' by done.
    apply in_use_closing; [done|unfold leaving; cbn; by rewrite Hcl|done].
  - simplify_eq. by destruct (poolCtx p).
  - simplify_eq. by destruct (callers p !! c).
  - by eapply runLoop_in_use.
  - destruct (dispatcher_step ch p) eqn:Hs; simplify_eq/=.
    apply dispatcher_control in Hs as (? & ? & ? & Hw & _).
    apply (in_use_same p); [done..|]. intros id. by rewrite Hw.
  - destruct (Submit_step i ch p) eqn:Hs; simplify_eq/=. unfold Submit_step in Hs.
    by repeat case_match; simplify_eq.
  - by eapply scaler_in_use.
  - by eapply close_in_use.
Qed.

Lemma New_in_use NumCPU c h config t p0 p :
  0 < NumCPU → New NumCPU c h config t = Ret (inr p0) → rtc pool_next p0 p → pool_ok p ∧ in_use p.
Proof.
  intros Hcpu Hnew Hrtc. destruct (New_started _ _ _ _ _ _ Hcpu Hnew) as [cf Hst].
  eapply (rtc_preserves pool_next (λ p, pool_ok p ∧ in_use p)); [|exact Hrtc|].
  - intros s s' [Hok Hi] Hs. split; [by eapply pool_next_ok|by eapply next_in_use].
  - pose proof (st_tables _ _ Hst) as Ht. split; [by apply (st_ok _ _ Hst)|]. split; intros id Hid.
    + by apply (table_managed _ _ _ _ _ _ Ht).
    + destruct (table_starting _ _ _ _ _ _ Ht id Hid) as (_ & w & ? & ? & _). by exists w.
Qed.

(** ** No crash *)

Lemma leave_no_panic id ph tm p : has_ctx p id → leave_step id ph tm p ≠ Some Panic.
Proof.
  intros (w & Hw & Hc). unfold leave_step. rewrite Hw. destruct ph; [done|by destruct (ctxFn w)|].
  destruct tm; [done|]. by case_decide.
Qed.

Lemma scaler_no_panic ch p : pool_ok p → in_use p → scaler_step ch p ≠ Some Panic.
Proof.
  intros Hok [Hm _] Hpanic. unfold scaler_step in Hpanic.
  pose proof (ok_scaler _ Hok) as Hs. unfold scaler_ok in Hs.
  destruct (scaling p) as [|u d|u d|n u d|n i u d|t n k u d|id ph t n k u d|id t n k u d|t u d
    |ids i best ph t u d|id t ph u|id t u|] eqn:Hsc, ch as [| |t'|tm]; try done.
  - by case_match.
  - by destruct (decide_ _ _) as [[] step].
  - destruct n as [|n]; [done|]. by destruct (joinOneIdle p).
  - by destruct (join_step id ph t' p) as [[?|[?|]] ?].
  - destruct Hs as (_ & _ & _ & Hb). destruct (i <? length ids)%nat.
    + by destruct (pick_step _ _ _ _ _ _ _) as [[i' best'] ph'].
    + destruct (Z.eqb_spec best (-1)); [done|]. destruct Hb as [?|(k & -> & Hk)]; [done|].
      rewrite Nat2Z.id in Hpanic. apply lookup_lt_is_Some in Hk as [id Hid]. by rewrite Hid in Hpanic.
  - destruct Hs as (_ & Hin & _).
    destruct (leave_step id ph tm p) as [[[[ph'|e] p1]|]|] eqn:Hl; try done.
    eapply leave_no_panic; [|exact Hl]. apply Hm. unfold managed, departed. rewrite Hsc. set_solver.
Qed.

(** The worker [close] leaves next has its context. *)
Lemma closing_has_ctx id rest ph p : in_use p → closing p = CloseLeave (id :: rest) ph → has_ctx p id.
Proof.
  intros [Hm _] Hcl. apply Hm. unfold managed, leaving. rewrite Hcl.
  apply elem_of_union_r, elem_of_list_to_set. left.
Qed.

Lemma close_no_panic tm p : in_use p → close_step tm p ≠ Some Panic.
Proof.
  intros Hi Hpanic. unfold close_step in Hpanic.
  destruct (closing p) as [|dr| | | | |[|id rest] ph|] eqn:Hcl; try done.
  - by destruct (dispatching p).
  - by destruct (scaling p).
  - destruct (leave_step id ph tm p) as [[[[ph'|e] p1]|]|] eqn:Hl; try done.
    eapply leave_no_panic; [|exact Hl]. by eapply closing_has_ctx.
Qed.

Lemma loop_no_panic i ch p : tables_ok p → runLoop_step i ch p ≠ Some Panic.
Proof.
  intros Ht Hpanic. unfold runLoop_step in Hpanic. destruct (loops p !! i) as [l|] eqn:Hi; [|done].
  destruct (workers p !! loop_worker l) as [w|] eqn:Hw; [|done].
  assert (phase l ≠ Returned → ctxFn w ≠ None ∧ done w ∉ doneClosed p ∧
    (loop_done l = Some (done w) ∨ phase l = Starting)) as Hctx.
  { intros Hph. destruct (table_live _ _ _ _ _ _ Ht i l Hi Hph) as (_ & w' & Hw' & Hc).
    by assert (w' = w) as -> by congruence. }
  destruct (phase l) eqn:Hph, ch; try done.
  - destruct (ctxFn w); [done|]. by destruct Hctx.
  - by case_match.
  - by destruct (advertise _ _).
  - destruct (ctxFn w); [done|]. by destruct Hctx.
  - by case_match.
  - destruct Hctx as (_ & Hd & [Hl|?]); [done| |done]. unfold loop_return in Hpanic.
    rewrite Hl in Hpanic. by case_decide.
Qed.

Lemma others_no_panic mv p :
  pool_ok p → in_use p → (∀ i ch, mv ≠ MoveLoop i ch) → pool_advance mv p ≠ Some Panic.
Proof.
  intros Hok Hi Hmv Hpanic.
  destruct mv as [j cc|dr|e|cc e|i ch|ch|i ch|ch|tm]; cbn in Hpanic; try done.
  - by destruct (close dr p).
  - by eapply Hmv.
  - by destruct (dispatcher_step ch p).
  - by destruct (Submit_step i ch p).
  - by eapply scaler_no_panic.
  - by eapply close_no_panic.
Qed.

Lemma advance_no_panic p mv :
  pool_ok p → in_use p → no_timeout p → pool_advance mv p ≠ Some Panic.
Proof.
  intros Hok Hi Hnt. destruct mv; try (apply others_no_panic; done). apply loop_no_panic. by apply (ok_tables _ Hok).
Qed.

(** C8: the pool does not crash. In every state the pool can reach from [New], no step
    of the dispatcher, the scaler, [close] or a [Submit] panics (a leave always finds
    its cancel function, the scaler its victim); and as long as no leave has timed out
    no step of a run loop does (it always finds its worker's context, and closes its
    channel once). *)
Theorem pool_never_panics NumCPU c h config t p0 p :
  0 < NumCPU → New NumCPU c h config t = Ret (inr p0) → rtc pool_next p0 p →
  (∀ mv, (∀ i ch, mv ≠ MoveLoop i ch) → pool_advance mv p ≠ Some Panic) ∧
  (no_timeout p → ∀ mv, pool_advance mv p ≠ Some Panic).
Proof.
  intros Hcpu Hnew Hreach. destruct (New_in_use _ _ _ _ _ _ _ Hcpu Hnew Hreach) as [Hok Hi].
  split; [intros mv; by apply others_no_panic|]. intros Hnt mv. by apply advance_no_panic.
Qed.

(** ** [close] can finish

    From any state after [close] has started, the goroutine that closes, the dispatcher
    and the scaler get to the end of it by themselves: [measure] bounds their steps. *)
Definition solo (p p' : pool) : Prop :=
  ∃ mv, pool_advance mv p = Some (Ret p') ∧
    match mv with MoveClosing _ | MoveDispatch _ | MoveScaler _ => True | _ => False end.

Lemma solo_next p p' : solo p p' → pool_next p p'.
Proof. intros (mv & ? & _). by exists mv. Qed.

(** What [close] has done so far. *)
Definition close_ok (p : pool) : Prop :=
  match closing p with
  | NotClosed | CloseShutdown _ => True
  | CloseScaler => shutdown p = true ∧ auto p ∧ dispatching p = Drained
  | Closed => shutdown p = true ∧ dispatching p = Drained ∧ ctx_done (poolCtx p) = true
  | CloseCancel | CloseDrained => shutdown p = true
  | _ => shutdown p = true ∧ dispatching p = Drained
  end.

(** *** The measure *)
Definition submit_weight (ph : submit_phase) : nat :=
  match ph with SubmitHead => 2 | _ => 3 end.
Definition dispatcher_weight (p : pool) : nat :=
  5 * length (backlog p) +
  match dispatching p with Dispatch => 1 | Submitting _ _ ph => submit_weight ph | Drained => 0 end.

Definition join_weight (ph : join_phase) : nat :=
  match ph with
  | JoinCtx => 7 | JoinRunning => 6 | JoinSubscribe => 5 | JoinStamp => 4 | JoinInstall => 3 | JoinStart => 2
  end.
Definition pick_weight (ph : pick_phase) : nat :=
  match ph with PickRunning => 3 | PickIdle => 2 | PickCompare => 1 | PickBest _ => 0 end.
Definition leave_weight (ph : leave_phase) : nat :=
  match ph with LeaveUnsubscribe => 2 | LeaveCancel => 1 | LeaveWait _ => 0 end.

(** The most a decision of the scaler can lead to. *)
Definition decision_weight (p : pool) : nat :=
  20 + 4 * length (workers p) + 10 * Z.to_nat (ScaleUpStep (AutoScale (cfg p))).

Definition scaler_weight (p : pool) : nat :=
  match scaling p with
  | NoScaler | ScalerDone => 0
  | ScalerSelect _ _ => 1
  | ScalerLoad _ _ => decision_weight p + 2
  | ScalerLoadIdle _ _ _ => decision_weight p + 1
  | ScalerLoadBacklog _ _ _ _ => decision_weight p
  | ScalerUp _ step _ _ _ => 2 + 10 * step
  | ScalerJoin _ ph _ step _ _ _ => 2 + 10 * step + join_weight ph
  | ScalerAdd _ _ step _ _ _ => 3 + 10 * step
  | ScalerCandidates _ _ _ => 15 + 4 * length (workers p)
  | ScalerPick ids i _ ph _ _ _ => 10 + 4 * (length ids - i) + pick_weight ph
  | ScalerLeave _ _ ph _ => 3 + leave_weight ph
  | ScalerLeft _ _ _ => 2
  end.

Definition phase_weight (n : nat) (c : close_phase) : nat :=
  match c with
  | Closed => 0
  | CloseLeave ids ph => 1 + 3 * length ids + leave_weight ph
  | CloseSnapshot => 4 + 3 * n
  | CloseScaler => 5 + 3 * n
  | CloseDrained => 6 + 3 * n
  | CloseCancel => 7 + 3 * n
  | CloseShutdown _ => 8 + 3 * n
  | NotClosed => 9 + 3 * n
  end.
Definition close_weight (p : pool) : nat := phase_weight (length (workers p)) (closing p).

Definition measure (p : pool) : nat := close_weight p + dispatcher_weight p + scaler_weight p.

Lemma length_joined_workers p : (length (joined_workers p) ≤ length (workers p))%nat.
Proof.
  unfold joined_workers. etrans; [apply length_filter|]. by rewrite length_seq.
Qed.

(** *** Each goroutine moves on *)

(** The dispatcher, told to shut down, lets its submissions time out. *)
Lemma dispatcher_progress p :
  shutdown p = true → dispatching p ≠ Drained →
  ∃ ch p', dispatcher_step ch p = Some p' ∧ (dispatcher_weight p' < dispatcher_weight p)%nat.
Proof.
  intros Hsh Hd. unfold dispatcher_step, dispatcher_weight.
  destruct (dispatching p) as [|j deadline ph|] eqn:Hph; [|clear Hd|done].
  - destruct (backlog p) as [|j rest] eqn:Hb.
    + exists DispatchShutdown. eexists. rewrite Hsh. split; [done|]. cbn. rewrite Hb. cbn. lia.
    + exists (DispatchRecv 0). eexists. split; [done|]. cbn. lia.
  - assert (∃ ch r p1, submit_step j deadline ph ch p = Some (r, p1) ∧ p1 = p ∧
      match r with inl ph' => (submit_weight ph' < submit_weight ph)%nat | inr e => e ≠ None end)
      as (ch & r & p1 & Hs & -> & Hr).
    { destruct ph as [| |k|k].
      - exists (SubmitNow deadline). cbn. rewrite Z.sub_diag. cbn. case_decide; eauto 10.
      - exists SubmitTimer. cbn. eauto 10.
      - exists (SubmitNow deadline). cbn. rewrite Z.sub_diag.
        destruct (decide _); [|eauto 10].
        destruct (Z.ltb_spec 0 (SubmitBackoff (Claims_cfg (cfg p)))).
        + cbn. eauto 10.
        + rewrite (proj2 (Z.leb_le _ _)) by lia. eauto 10.
      - exists SubmitTimer. cbn. eauto 10. }
    exists (DispatchSubmit ch). rewrite Hs. destruct r as [ph'|[e|]]; [| |done]; eexists; (split; [done|]); cbn.
    + lia.
    + destruct ph; cbn; lia.
Qed.

(** A leave, whose wait may time out. *)
Lemma leave_progress id ph p :
  has_ctx p id → ∃ r p1, leave_step id ph true p = Some (Ret (r, p1)) ∧
    match r with inl ph' => (leave_weight ph' < leave_weight ph)%nat | inr _ => True end.
Proof.
  intros (w & Hw & Hc). unfold leave_step. rewrite Hw. destruct ph as [| |d].
  - do 2 eexists. split; [done|]. cbn. lia.
  - destruct (ctxFn w); [|done]. do 2 eexists. split; [done|]. cbn. lia.
  - by do 2 eexists.
Qed.

Lemma join_progress id ph t p r p1 :
  join_step id ph t p = (r, p1) →
  match r with inl ph' => (join_weight ph' < join_weight ph)%nat | inr _ => True end.
Proof.
  unfold join_step. intros H. by repeat case_match; simplify_eq; cbn; try lia.
Qed.

Lemma pick_progress read t period ids i best ph i' best' ph' :
  pick_step read t period ids i best ph = (i', best', ph') → (i < length ids)%nat →
  (4 * (length ids - i') + pick_weight ph' < 4 * (length ids - i) + pick_weight ph)%nat.
Proof. unfold pick_step. intros H Hi. repeat case_match; simplify_eq; cbn; lia. Qed.

Lemma decide_step s a n : decide_ s a = (up, n) → (Z.to_nat n ≤ Z.to_nat (ScaleUpStep a))%nat.
Proof.
  unfold decide_, scaleUpStep. repeat case_match; intros; simplify_eq; boolify; lia.
Qed.

(** What no goroutine but [close] changes. *)
Definition control (p : pool) : close_phase * bool * ctx * Config * nat :=
  (closing p, shutdown p, poolCtx p, cfg p, length (workers p)).

Lemma join_step_keeps id ph t p : control (join_step id ph t p).2 = control p.
Proof.
  unfold join_step. destruct (workers p !! id) as [w|] eqn:Hw; [|done].
  destruct ph; [by destruct (poolCtx p)|by destruct (running w)| |unfold control; cbn; by rewrite length_insert..].
  by destruct (Subscribe _ _ _) as [[e|] cs].
Qed.

Lemma leave_step_keeps id ph tm p r p1 : leave_step id ph tm p = Some (Ret (r, p1)) → control p1 = control p.
Proof.
  unfold leave_step, control. intros H. repeat case_match; simplify_eq; cbn; by rewrite ?length_insert.
Qed.

Lemma scaler_keeps ch p p' : scaler_step ch p = Some (Ret p') → control p' = control p.
Proof.
  unfold scaler_step. intros Hs.
  destruct (scaling p) as [| | | | | |id ph t n k u d| | |ids i best ph t u d|id t ph u| |], ch as [| |t'|tm];
    try done; try (injection Hs as <-; reflexivity).
  - case_match; [|done]. by injection Hs as <-.
  - destruct (decide_ _ _) as [[] step]; by injection Hs as <-.
  - destruct step as [|step]; [|destruct (joinOneIdle p)]; by injection Hs as <-.
  - pose proof (join_step_keeps id ph t' p) as Hf.
    destruct (join_step id ph t' p) as [[ph'|[e|]] p1]; injection Hs as <-; exact Hf.
  - destruct (i <? length ids)%nat; [|destruct (best =? -1); [|case_match; [|done]]].
    + destruct (pick_step _ _ _ _ _ _ _) as [[i' best'] ph']. by injection Hs as <-.
    + by injection Hs as <-.
    + by injection Hs as <-.
  - destruct (leave_step id ph tm p) as [[[[ph'|e] p1]|]|] eqn:Hl; try done;
      apply leave_step_keeps in Hl; injection Hs as <-; exact Hl.
Qed.

Lemma runLoop_control i ch p p' : runLoop_step i ch p = Some (Ret p') → control p' = control p.
Proof.
  unfold runLoop_step, loop_return, control. intros H.
  repeat case_match; simplify_eq; cbn; by rewrite ?length_insert.
Qed.

Lemma scaler_progress p :
  pool_ok p → in_use p → shutdown p = true → ¬ scaler_idle p →
  ∃ ch p', scaler_step ch p = Some (Ret p') ∧ (scaler_weight p' < scaler_weight p)%nat.
Proof.
  intros Hok Hi Hsh Hact.
  assert (∀ tm, scaler_step (ScalerLeaveChoice tm) p ≠ Some Panic) as Hnp by (intros; by apply scaler_no_panic).
  assert (∀ t, scaler_step (ScalerGo t) p ≠ Some Panic) as Hng by (intros; by apply scaler_no_panic).
  unfold scaler_idle in Hact. unfold scaler_step, scaler_weight in *.
  destruct (scaling p) as [|u d|u d|n u d|n i u d|t n k u d|id ph t n k u d|id t n k u d|t u d
    |ids i best ph t u d|id t ph u|id t u|] eqn:Hsc; try (by destruct Hact).
  - exists ScalerStop. rewrite Hsh, orb_true_r. eexists. split; [done|]. cbn. lia.
  - exists (ScalerGo 0). eexists. split; [done|]. unfold decision_weight. cbn. lia.
  - exists (ScalerGo 0). eexists. split; [done|]. unfold decision_weight. cbn. lia.
  - exists (ScalerGo 0). destruct (decide_ _ _) as [[] step] eqn:Hd; (eexists; split; [done|]);
      unfold decision_weight; cbn; [lia|apply decide_step in Hd; cbn in Hd; lia|lia].
  - exists (ScalerGo 0). destruct n as [|n]; [|destruct (joinOneIdle p)]; (eexists; split; [done|]); cbn; lia.
  - exists (ScalerGo 0). destruct (join_step id ph 0 p) as [r p1] eqn:Hj. apply join_progress in Hj.
    destruct r as [ph'|[e|]]; (eexists; split; [done|]); cbn; destruct ph; cbn in *; lia.
  - exists (ScalerGo 0). eexists. split; [done|]. cbn. lia.
  - exists (ScalerGo 0). eexists. split; [done|]. cbn. pose proof (length_joined_workers p). lia.
  - exists (ScalerGo 0). specialize (Hng 0). destruct (Nat.ltb_spec i (length ids)).
    + destruct (pick_step _ _ _ _ _ _ _) as [[i' best'] ph'] eqn:Hp. eexists. split; [done|].
      apply pick_progress in Hp; [|done]. cbn. lia.
    + destruct (best =? -1); [eexists; split; [done|]; cbn; lia|].
      destruct (ids !! Z.to_nat best); [|done]. eexists. split; [done|]. cbn. lia.
  - exists (ScalerLeaveChoice true). specialize (Hnp true).
    destruct (leave_progress id ph p) as (r & p1 & Hl & Hw).
    { destruct Hi as [Hm _]. apply Hm. pose proof (ok_scaler _ Hok) as Hs. unfold scaler_ok in Hs.
      rewrite Hsc in Hs. unfold managed, departed. rewrite Hsc. destruct Hs as (_ & ? & _). set_solver. }
    rewrite Hl. destruct r; (eexists; split; [done|]); cbn; [lia|]. destruct ph; cbn; lia.
  - exists (ScalerGo 0). eexists. split; [done|]. cbn. lia.
Qed.

(** *** The three together *)
Lemma control_closing p p' : control p' = control p → close_weight p' = close_weight p.
Proof. unfold control, close_weight. intros [= -> _ _ _ ->]. done. Qed.

Lemma measure_closing c p :
  measure (set_closing c p) = (phase_weight (length (workers p)) c + dispatcher_weight p + scaler_weight p)%nat.
Proof. done. Qed.

Lemma control_scaler p p' : control p' = control p → scaling p' = scaling p → scaler_weight p' = scaler_weight p.
Proof. unfold control, scaler_weight, decision_weight. intros [= _ _ _ -> ->] ->. done. Qed.

Lemma frame_dispatcher p p' : frame p p' → dispatcher_weight p' = dispatcher_weight p.
Proof. unfold dispatcher_weight. intros (_ & -> & -> & _). done. Qed.

Lemma dispatcher_keeps ch p p' :
  dispatcher_step ch p = Some p' → control p' = control p ∧ scaling p' = scaling p.
Proof.
  intros (_ & ? & Hc & Hw & Hs & Hf & Hx)%dispatcher_control. unfold control. by rewrite Hc, Hw, Hs, Hf, Hx.
Qed.

Lemma leave_keeps id ph tm p r p1 :
  leave_step id ph tm p = Some (Ret (r, p1)) →
  dispatcher_weight p1 = dispatcher_weight p ∧ scaler_weight p1 = scaler_weight p.
Proof.
  intros Hl. pose proof (leave_step_keeps _ _ _ _ _ _ Hl) as Hc.
  destruct (leave_step_control _ _ _ _ _ _ Hl) as [_ _ Es _ _ _].
  split; [by eapply frame_dispatcher, leave_step_frame|by apply control_scaler].
Qed.

Lemma cancel_pool_weights p :
  dispatcher_weight (cancel_pool p) = dispatcher_weight p ∧ scaler_weight (cancel_pool p) = scaler_weight p ∧
  length (workers (cancel_pool p)) = length (workers p).
Proof. unfold cancel_pool. by destruct (poolCtx p). Qed.

(** One step of [close], the dispatcher and the scaler done when they have to be. *)
Lemma close_step_progress p :
  in_use p → closing p ≠ NotClosed → closing p ≠ Closed →
  (closing p = CloseDrained → dispatching p = Drained) → (closing p = CloseScaler → scaling p = ScalerDone) →
  ∃ p', close_step true p = Some (Ret p') ∧ (measure p' < measure p)%nat.
Proof.
  intros Hi Hn Hc Hd Hs. destruct (cancel_pool_weights p) as (Ed & Es & Ew).
  assert (∀ q c, dispatcher_weight q = dispatcher_weight p → scaler_weight q = scaler_weight p →
    (phase_weight (length (workers q)) c < phase_weight (length (workers p)) (closing p))%nat →
    (measure (set_closing c q) < measure p)%nat) as Hlt.
  { intros q c Hdq Hsq Hlt. rewrite measure_closing, Hdq, Hsq. unfold measure, close_weight. lia. }
  unfold close_step. destruct (closing p) as [|dr| | | | |[|id rest] ph|] eqn:Hcl; try done.
  - eexists. split; [done|]. apply Hlt; [done..|]. destruct dr; cbn; lia.
  - eexists. split; [done|]. apply Hlt; [done..|]. rewrite Ew. cbn. lia.
  - rewrite Hd by done. eexists. split; [done|]. apply Hlt; [done..|]. destruct (_ =? _); cbn; lia.
  - rewrite Hs by done. eexists. split; [done|]. apply Hlt; [done..|]. cbn. lia.
  - eexists. split; [done|]. apply Hlt; [done..|]. pose proof (length_joined_workers p). cbn. lia.
  - eexists. split; [done|]. apply Hlt; [done..|]. rewrite Ew. cbn. lia.
  - destruct (leave_progress id ph p) as (r & p1 & Hl & Hw); [by eapply closing_has_ctx|].
    destruct (leave_keeps _ _ _ _ _ _ Hl) as [Ed1 Es1]. rewrite Hl.
    destruct r; (eexists; split; [done|]); (apply Hlt; [done..|]); cbn; lia.
Qed.

Lemma solo_progress p :
  pool_ok p → in_use p → close_ok p → closing p ≠ NotClosed → closing p ≠ Closed →
  ∃ p', solo p p' ∧ (measure p' < measure p)%nat.
Proof.
  intros Hok Hi Hc Hn Hcl.
  assert (closing p = CloseDrained ∧ dispatching p ≠ Drained ∨
    (closing p = CloseDrained → dispatching p = Drained)) as [[Hd Hdr]|Hd]
    by (destruct (closing p), (dispatching p); naive_solver).
  { unfold close_ok in Hc. rewrite Hd in Hc.
    destruct (dispatcher_progress p Hc Hdr) as (ch & p' & Hs & Hlt).
    exists p'. split; [exists (MoveDispatch ch); cbn; by rewrite Hs|].
    apply dispatcher_keeps in Hs as [Hctl Hsc]. unfold measure.
    rewrite (control_closing p p'), (control_scaler p p') by done. lia. }
  assert (closing p = CloseScaler ∧ scaling p ≠ ScalerDone ∨
    (closing p = CloseScaler → scaling p = ScalerDone)) as [[Hs Hsd]|Hs]
    by (destruct (closing p), (scaling p); naive_solver).
  { unfold close_ok in Hc. rewrite Hs in Hc. destruct Hc as (Hsh & Ha & _).
    destruct (scaler_progress p Hok Hi Hsh) as (ch & p' & Hstep & Hlt).
    { pose proof (ok_scaler _ Hok) as Hsok. unfold scaler_ok, scaler_idle in *. destruct (scaling p); naive_solver. }
    exists p'. split; [by exists (MoveScaler ch)|].
    unfold measure. rewrite (control_closing p p') by by eapply scaler_keeps.
    rewrite (frame_dispatcher p p') by by eapply scaler_frame. lia. }
  destruct (close_step_progress p Hi Hn Hcl Hd Hs) as (p' & Hstep & Hlt).
  exists p'. split; [by exists (MoveClosing true)|done].
Qed.

(** *** [close_ok] is kept *)
Lemma control_close_ok p p' :
  control p' = control p → (dispatching p = Drained → dispatching p' = Drained) → close_ok p → close_ok p'.
Proof.
  unfold control, close_ok, auto. intros [= -> -> -> -> _] Hd. destruct (closing p); tauto.
Qed.

Lemma cancel_pool_done p : ctx_done (poolCtx (cancel_pool p)) = true.
Proof. unfold cancel_pool. by destruct (poolCtx p) eqn:E; cbn; rewrite ?E. Qed.

Lemma close_step_close_ok tm p p' : close_step tm p = Some (Ret p') → close_ok p → close_ok p'.
Proof.
  unfold close_step, close_ok. intros Hs Hc.
  assert (shutdown (cancel_pool p) = shutdown p ∧ dispatching (cancel_pool p) = dispatching p) as [Ec Ed]
    by (unfold cancel_pool; by destruct (poolCtx p)).
  destruct (closing p) as [|dr| | | | |[|id rest] ph|]; try done.
  - simplify_eq. by destruct dr.
  - simplify_eq. cbn. by rewrite Ec.
  - destruct (dispatching p) eqn:Hd; simplify_eq. cbn. unfold auto. by destruct (Z.eqb_spec (cfg_Mode (cfg p)) ModeAutoScale).
  - destruct (scaling p); simplify_eq. cbn. tauto.
  - simplify_eq. done.
  - simplify_eq. cbn. rewrite Ec, Ed. pose proof (cancel_pool_done p). tauto.
  - destruct (leave_step id ph tm p) as [[[r p1]|]|] eqn:Hl; [|done|done].
    pose proof (leave_step_keeps _ _ _ _ _ _ Hl) as [= _ Es _ _ _].
    destruct (leave_step_frame _ _ _ _ _ _ Hl) as (_ & _ & Ed1 & _).
    destruct r; simplify_eq; cbn; by rewrite Es, Ed1.
Qed.

Lemma next_close_ok p p' : pool_next p p' → close_ok p → close_ok p'.
Proof.
  intros Hnext Hc. assert (dispatching p = Drained → dispatching p' = Drained) as Hd by by intros; eapply next_drained.
  destruct Hnext as [mv Hmv]. destruct mv as [j c|dr|e|c e|i ch|ch|i ch|ch|tm]; cbn in Hmv.
  - by simplify_eq.
  - unfold close in Hmv. by destruct (closing p); simplify_eq/=.
  - simplify_eq. unfold close_ok in *. destruct (poolCtx p) eqn:E; [by rewrite E|]. cbn. destruct (closing p); tauto.
  - simplify_eq. by destruct (callers p !! c).
  - apply runLoop_control in Hmv. by eapply control_close_ok.
  - destruct (dispatcher_step ch p) eqn:Hs; simplify_eq/=. apply dispatcher_keeps in Hs as [Hs _].
    by eapply control_close_ok.
  - destruct (Submit_step i ch p) eqn:Hs; simplify_eq/=. apply (control_close_ok p); [|done..].
    unfold Submit_step in Hs. by repeat case_match; simplify_eq.
  - apply scaler_keeps in Hmv. by eapply control_close_ok.
  - by eapply close_step_close_ok.
Qed.

Lemma control_live p p' : control p' = control p → closing p ≠ NotClosed → closing p' ≠ NotClosed.
Proof. unfold control. by intros [= -> _ _ _ _]. Qed.

Lemma solo_closing p p' : solo p p' → closing p ≠ NotClosed → closing p' ≠ NotClosed.
Proof.
  intros (mv & Hmv & Hsolo). destruct mv as [ | | | | |ch| |ch|tm]; try done; cbn in Hmv.
  - destruct (dispatcher_step ch p) eqn:Hs; simplify_eq/=. apply dispatcher_keeps in Hs as [Hs _].
    by apply control_live.
  - apply scaler_keeps in Hmv. by apply control_live.
  - unfold close_step in Hmv. repeat case_match; simplify_eq; try done; cbn; by case_match.
Qed.

(** C11: a [close] that has started can always finish, on its own. From every state
    reachable from [New] in which [close] has started (whatever the handlers do, whoever
    submits, however many of the leaves time out) some steps of the goroutine that closes,
    of the dispatcher and of the scaler, and of no other, end it; and then the dispatcher
    and the scaler have returned, the pool's context is done and no worker is joined. *)
Theorem close_can_finish NumCPU c h config t p0 p :
  0 < NumCPU → New NumCPU c h config t = Ret (inr p0) → rtc pool_next p0 p → closing p ≠ NotClosed →
  ∃ q, rtc solo p q ∧ closing q = Closed ∧ shutdown q = true ∧ dispatching q = Drained ∧
    (scaling q = NoScaler ∨ scaling q = ScalerDone) ∧ ctx_done (poolCtx q) = true ∧ joinedIDs q = ∅.
Proof.
  intros Hcpu Hnew Hreach Hn. destruct (New_in_use _ _ _ _ _ _ _ Hcpu Hnew Hreach) as [Hok Hi].
  assert (close_ok p) as Hc.
  { eapply (rtc_preserves pool_next close_ok); [by intros; eapply next_close_ok|exact Hreach|].
    destruct (New_started _ _ _ _ _ _ Hcpu Hnew) as [cf Hst]. unfold close_ok.
    by destruct (st_live _ _ Hst) as (_ & _ & _ & ->). }
  destruct (rtc_down solo (λ p, pool_ok p ∧ in_use p ∧ close_ok p ∧ closing p ≠ NotClosed)
    (λ p, closing p = Closed) measure) with (s := p) as (q & Hq & (Hokq & _ & Hcq & _) & Hcl).
  - intros s (Hos & His & Hcs & Hns).
    assert (closing s = Closed ∨ closing s ≠ Closed) as [|Hcl] by (destruct (closing s); auto); [by left|right].
    destruct (solo_progress s Hos His Hcs Hns Hcl) as (s' & Hs & Hlt). exists s'.
    pose proof (solo_next _ _ Hs). split_and!; [done|by eapply pool_next_ok|by eapply next_in_use
      |by eapply next_close_ok|by eapply solo_closing|done].
  - done.
  - exists q. unfold close_ok in Hcq. pose proof (ok_closing _ Hokq) as Hc1. unfold closing_ok, scaler_idle in Hc1.
    rewrite Hcl in Hcq, Hc1. destruct Hc1 as [Hsc ?]. split_and!; try tauto.
    destruct (scaling q); tauto.
Qed.
