(* ===== verification/PoolDelivery.v ===== *)
(** * One free worker delivers every job

    From any state in which some worker is subscribed and its run loop free, or its claim
    still waiting to be taken, the dispatcher and that run loop alone can have every job
    of the backlog handled, in order. Complements [PoolRaces.unused_claim_starves_pool],
    whose pool has no such worker. *)
From S2P Require Import Prelude Golang PoolConfig Claims Scaler Pool PoolTable PoolSafety PoolInvariant PoolTheorems PoolProgress.
Local Open Scope Z_scope.

(** The jobs whose handlers returned nil. *)
Definition ok_job (e : pool_event) : option Job := match e with JobOk j => Some j | _ => None end.
Definition oks (es : list pool_event) : list Job := omap ok_job es.

(** A step of the dispatcher or of run loop [i]. *)
Definition serves (i : nat) (p p' : pool) : Prop :=
  ∃ mv, pool_advance mv p = Some (Ret p') ∧
    match mv with MoveDispatch _ => True | MoveLoop k _ => k = i | _ => False end.

(** Run loop [i] is that of worker [id] and at [ph]; the worker has a context and an input. *)
Definition at_loop (p : pool) (i id c k : nat) (ph : loop_phase) : Prop :=
  (∃ d, loops p !! i = Some (MkLoop id d ph)) ∧
  ∃ w, workers p !! id = Some w ∧ ctxFn w = Some c ∧ input w = k.

(** Steps that report the jobs [js]. *)
Record runs (i : nat) (p p' : pool) (js : list Job) : Prop := {
  runs_rtc : rtc (serves i) p p';
  runs_cfg : cfg p' = cfg p;
  runs_events : ∃ es, events p' = events p ++ es ∧ oks es = js;
}.

Lemma runs_trans i p q r js js' : runs i p q js → runs i q r js' → runs i p r (js ++ js').
Proof.
  intros [H1 C1 (es & E1 & O1)] [H2 C2 (es' & E2 & O2)]. split; [by etrans|congruence|].
  exists (es ++ es'). rewrite E2, E1, app_assoc. split; [done|].
  unfold oks in *. by rewrite omap_app, O1, O2.
Qed.

Lemma runs_refl i p : runs i p p [].
Proof. split; [done|done|]. exists []. by rewrite app_nil_r. Qed.

Lemma runs_dispatch i ch p p' :
  dispatcher_step ch p = Some p' → cfg p' = cfg p → events p' = events p → runs i p p' [].
Proof.
  intros Hs Hc He. split; [|done|exists []; by rewrite He, app_nil_r].
  apply rtc_once. exists (MoveDispatch ch). cbn. by rewrite Hs.
Qed.

(** ** The run loop *)
Definition turn (c k : nat) (ph : loop_phase) (ch : loop_choice) : option (loop_phase * list Job) :=
  match ph, ch with
  | Starting, LoopGo => Some (LoopHead, [])
  | LoopHead, LoopGo => Some (Advertising c k, [])
  | Advertising _ _, LoopTimeout => Some (LoopHead, [])
  | Claimed, LoopGo => Some (Notified, [])
  | Notified, LoopGo => Some (Awaiting c k, [])
  | GotJob j, LoopGo => Some (Processing j, [])
  | Processing j, LoopHandler (Ret None) => Some (Reported, [j])
  | Reported, LoopGo => Some (Resting, [])
  | Resting, LoopNow _ => Some (LoopHead, [])
  | _, _ => None
  end.

(** Nothing the dispatcher looks at changes. *)
Definition aside (p p' : pool) : Prop :=
  backlog p' = backlog p ∧ dispatching p' = dispatching p ∧ availableWorkers p' = availableWorkers p.

Lemma at_loop_set_phase p i id c k ph ph' : at_loop p i id c k ph → at_loop (set_phase i ph' p) i id c k ph'.
Proof.
  intros [[d Hl] Hw]. split; [|exact Hw]. exists d. cbn. by rewrite list_lookup_alter_eq, Hl.
Qed.

Lemma at_loop_set_worker p i id c k ph w w' :
  workers p !! id = Some w → ctxFn w' = ctxFn w → input w' = input w →
  at_loop p i id c k ph → at_loop (set_worker id w' p) i id c k ph.
Proof.
  intros Hw Hc Hi [Hl (w0 & Hw0 & ? & ?)]. split; [exact Hl|]. assert (w0 = w) as -> by congruence.
  exists w'. cbn. rewrite list_lookup_insert_eq by (by eapply lookup_lt_Some). split; [done|].
  by rewrite Hc, Hi.
Qed.

Lemma loop_turn p i id c k ph ch ph' js :
  at_loop p i id c k ph → turn c k ph ch = Some (ph', js) →
  ∃ p', runs i p p' js ∧ at_loop p' i id c k ph' ∧ aside p p'.
Proof.
  intros Hat Ht. pose proof Hat as [[d Hl] (w & Hw & Hc & Hk)].
  assert (∀ p' es, runLoop_step i ch p = Some (Ret p') → cfg p' = cfg p → events p' = events p ++ es → oks es = js →
    runs i p p' js) as Hruns.
  { intros p' es Hs ? ? ?. split; [|done|by exists es]. apply rtc_once. exists (MoveLoop i ch). by split. }
  assert (∀ o, match ph, ch with
    | Starting, LoopGo => Some (Ret (set_loops (alter (λ l, MkLoop id (Some (done w)) LoopHead) i (loops p)) p))
    | LoopHead, LoopGo => Some (Ret (set_phase i (Advertising c k) p))
    | Advertising _ _, LoopTimeout => Some (Ret (set_phase i LoopHead p))
    | Claimed, LoopGo => Some (Ret (set_phase i Notified
        (let p' := set_worker id (set_startedNotified true w) p in
         if startedNotified w then p' else emit (WorkerStarted id) p')))
    | Notified, LoopGo => Some (Ret (set_phase i (Awaiting c k) p))
    | GotJob j, LoopGo => Some (Ret (set_phase i (Processing j) (set_worker id (set_running true w) p)))
    | Processing j, LoopHandler (Ret None) => Some (Ret (set_phase i Reported (emit (JobOk j) p)))
    | Reported, LoopGo => Some (Ret (set_phase i Resting (set_worker id (set_running false w) p)))
    | Resting, LoopNow t => Some (Ret (set_phase i LoopHead (set_worker id (set_lastActiveAt t w) p)))
    | _, _ => None
    end = Some o → runLoop_step i ch p = Some o) as Hstep.
  { intros o. unfold runLoop_step. rewrite Hl. cbn. rewrite Hw. subst k. rewrite Hc.
    destruct ph, ch as [| | | |[[]|]|]; done. }
  destruct ph, ch as [| | | |[[]|]|]; try done; cbn in Ht; injection Ht as <- <-.
  4: { destruct (startedNotified w);
    (eexists; split_and!; [eapply (Hruns _); [by apply Hstep|done|first [by rewrite app_nil_r|done]|done]
      |eapply at_loop_set_phase; by eapply at_loop_set_worker|done]). }
  all: eexists; split_and!; [eapply Hruns; [by apply Hstep|done|first [symmetry; apply app_nil_r|done]|done]| |done].
  1: { split; [exists (Some (done w)); cbn; by rewrite list_lookup_alter_eq, Hl|by exists w]. }
  all: eapply at_loop_set_phase; first [exact Hat | by eapply at_loop_set_worker].
Qed.

(** [n] turns in a row. *)
Fixpoint turns (c k : nat) (ph : loop_phase) (chs : list loop_choice) : option (loop_phase * list Job) :=
  match chs with
  | [] => Some (ph, [])
  | ch :: chs =>
      r ← turn c k ph ch; r' ← turns c k r.1 chs; Some (r'.1, r.2 ++ r'.2)
  end.

Lemma aside_trans p q r : aside p q → aside q r → aside p r.
Proof. intros (? & ? & ?) (? & ? & ?). split_and!; congruence. Qed.

Lemma loop_turns chs : ∀ p i id c k ph ph' js,
  at_loop p i id c k ph → turns c k ph chs = Some (ph', js) →
  ∃ p', runs i p p' js ∧ at_loop p' i id c k ph' ∧ aside p p'.
Proof.
  induction chs as [|ch chs IH]; cbn; intros p i id c k ph ph' js Hat Ht.
  - injection Ht as <- <-. exists p. by split_and!; [apply runs_refl|..].
  - apply bind_Some in Ht as ([ph1 js1] & Ht1 & Ht). apply bind_Some in Ht as ([ph2 js2] & Ht2 & [= <- <-]).
    destruct (loop_turn _ _ _ _ _ _ _ _ _ Hat Ht1) as (p1 & Hr1 & Hat1 & Ha1).
    destruct (IH _ _ _ _ _ _ _ _ Hat1 Ht2) as (p2 & Hr2 & Hat2 & Ha2).
    exists p2. split_and!; [by eapply runs_trans|done|by eapply aside_trans].
Qed.

(** The way of a free loop to its next claim; a handler that runs returns nil. *)
Definition to_offer (ph : loop_phase) : list loop_choice :=
  match ph with
  | Starting => [LoopGo; LoopGo]
  | LoopHead => [LoopGo]
  | Advertising _ _ => [LoopTimeout; LoopGo]
  | GotJob _ => [LoopGo; LoopHandler (Ret None); LoopGo; LoopNow 0; LoopGo]
  | Processing _ => [LoopHandler (Ret None); LoopGo; LoopNow 0; LoopGo]
  | Reported => [LoopGo; LoopNow 0; LoopGo]
  | Resting => [LoopNow 0; LoopGo]
  | _ => []
  end.

Definition free_phase (ph : loop_phase) : bool :=
  match ph with
  | Starting | LoopHead | Advertising _ _ | GotJob _ | Processing _ | Reported | Resting => true
  | _ => false
  end.

Lemma free_turns c k ph d id :
  free_phase ph = true → turns c k ph (to_offer ph) = Some (Advertising c k, loop_jobs (MkLoop id d ph)).
Proof. by destruct ph. Qed.

(** ** The dispatcher *)

(** The claims: [S] subscribed, [n] the capacity, [buf] waiting. *)
Definition has_claims (p : pool) (S : gset nat) (n : nat) (buf : list claim) : Prop :=
  availableWorkers p = MkClaims S (Chan n buf false).

Lemma aside_claims p p' S n buf : aside p p' → has_claims p S n buf → has_claims p' S n buf.
Proof. unfold has_claims. by intros (_ & _ & ->). Qed.

(** A claim in hand given up: its worker has gone, or does not receive in time. *)
Lemma check_given_up i p j d k :
  dispatching p = Submitting j d (SubmitCheck k) →
  runs i p (set_dispatching (Submitting j d SubmitHead) p) [].
Proof.
  intros Hd. set (q := set_dispatching (Submitting j d SubmitHead) p).
  set (p1 := set_dispatching (Submitting j d (SubmitSend (claim_input k))) p).
  assert (dispatcher_step (DispatchSubmit (SubmitNow (d - 1))) p = Some q ∨
    dispatcher_step (DispatchSubmit (SubmitNow (d - 1))) p = Some p1) as [Hs|Hs].
  { unfold dispatcher_step. rewrite Hd. cbn. case_decide; [destruct (_ <=? 0)|]; auto. }
  - by eapply runs_dispatch.
  - eapply (runs_trans _ _ p1 _ [] []); [by eapply runs_dispatch|].
    by apply (runs_dispatch i (DispatchSubmit SubmitTimer)).
Qed.

Section Dispatcher.
Context (i id c k : nat) (S : gset nat) (n : nat) (j : Job) (d t : Z).
Hypothesis in_time : 0 < d - t.
Hypothesis subscribed : id ∈ S.
Hypothesis room : (0 < n)%nat.

Definition is_submitting (ph : submit_phase) (p : pool) : Prop := dispatching p = Submitting j d ph.

(** The first claim is taken. *)
Lemma claim_taken p k0 buf :
  is_submitting SubmitHead p → has_claims p S n (k0 :: buf) →
  ∃ p', runs i p p' [] ∧ is_submitting (SubmitCheck k0) p' ∧ has_claims p' S n buf ∧
    backlog p' = backlog p ∧ (∀ ph, at_loop p i id c k ph → at_loop p' i id c k ph).
Proof.
  intros Hd Hc. unfold is_submitting, has_claims in *.
  set (p1 := set_dispatching (Submitting j d SubmitWait) p).
  assert (runs i p p1 []) as H1.
  { apply (runs_dispatch i (DispatchSubmit (SubmitNow t))); try done. unfold dispatcher_step. rewrite Hd. cbn.
    by destruct (Z.leb_spec (d - t) 0); [lia|]. }
  exists (set_dispatching (Submitting j d (SubmitCheck k0)) (set_availableWorkers (MkClaims S (Chan n buf false)) p1)).
  split_and!; [|done..|by intros ph [? ?]].
  eapply (runs_trans _ _ p1 _ [] []); [done|].
  apply (runs_dispatch i (DispatchSubmit SubmitRecv)); try done. unfold dispatcher_step. cbn. by rewrite Hc.
Qed.

(** The first claim is not used. *)
Lemma claim_skipped p k0 buf :
  is_submitting SubmitHead p → has_claims p S n (k0 :: buf) →
  ∃ p', runs i p p' [] ∧ is_submitting SubmitHead p' ∧ has_claims p' S n buf ∧
    backlog p' = backlog p ∧ (∀ ph, at_loop p i id c k ph → at_loop p' i id c k ph).
Proof.
  intros Hd Hc. destruct (claim_taken p k0 buf Hd Hc) as (p1 & H1 & Hd1 & Hc1 & Hb1 & Hat1).
  unfold is_submitting, has_claims in *.
  exists (set_dispatching (Submitting j d SubmitHead) p1).
  split_and!; [|done|done|done|intros ph Hat; exact (Hat1 ph Hat)].
  exact (runs_trans _ _ _ _ [] [] H1 (check_given_up i p1 j d k0 Hd1)).
Qed.

(** The claim of the worker, which waits for a job. *)
Lemma claim_used p c' buf :
  0 < SubmitBackoff (Claims_cfg (cfg p)) →
  is_submitting SubmitHead p → has_claims p S n (MkClaim id k :: buf) → at_loop p i id c k (Awaiting c' k) →
  ∃ p', runs i p p' [] ∧ dispatching p' = Dispatch ∧ has_claims p' S n buf ∧
    backlog p' = backlog p ∧ at_loop p' i id c k (GotJob j).
Proof.
  intros Hbo Hd Hc Hat. destruct (claim_taken p _ buf Hd Hc) as (p1 & H1 & Hd1 & Hc1 & Hb1 & Hat1).
  unfold is_submitting, has_claims in *. apply Hat1 in Hat. rewrite <- (runs_cfg _ _ _ _ H1) in Hbo.
  set (p2 := set_dispatching (Submitting j d (SubmitSend k)) p1).
  exists (set_dispatching Dispatch (set_phase i (GotJob j) p2)).
  split_and!; [|done|done|done|exact (at_loop_set_phase p1 _ _ _ _ _ _ Hat)].
  apply (runs_trans _ _ _ _ [] [] H1). eapply (runs_trans _ _ p2 _ [] []).
  - apply (runs_dispatch i (DispatchSubmit (SubmitNow t))); try done.
    unfold dispatcher_step. rewrite Hd1. cbn. rewrite Hc1. cbn. rewrite decide_True by done.
    destruct (Z.ltb_spec (d - t) (SubmitBackoff (Claims_cfg (cfg p1))));
      by rewrite (proj2 (Z.leb_gt _ _)) by lia.
  - apply (runs_dispatch i (DispatchSubmit (SubmitHandoff i))); try done.
    unfold dispatcher_step. cbn. unfold receives. cbn. destruct Hat as [[x ->] _]. cbn. by rewrite Nat.eqb_refl.
Qed.

(** The worker offers itself when no claim is left. *)
Lemma claim_offered p :
  has_claims p S n [] → at_loop p i id c k (Advertising c k) →
  ∃ p', runs i p p' [] ∧ dispatching p' = dispatching p ∧ has_claims p' S n [MkClaim id k] ∧
    backlog p' = backlog p ∧ at_loop p' i id c k (Awaiting c k).
Proof.
  intros Hc Hat.
  set (p1 := set_phase i Claimed (set_availableWorkers (MkClaims S (Chan n [MkClaim id k] false)) p)).
  assert (at_loop p1 i id c k Claimed) as Hat1 by exact (at_loop_set_phase p _ _ _ _ _ _ Hat).
  destruct (loop_turns [LoopGo; LoopGo] p1 i id c k Claimed (Awaiting c k) [] Hat1 eq_refl)
    as (p2 & H2 & Hat2 & Ha). exists p2.
  destruct Ha as (Eb & Ed & Ea). split_and!; [|done| |done|done].
  - eapply (runs_trans _ _ p1 _ [] []); [|done]. split; [|done|exists []; by rewrite app_nil_r].
    apply rtc_once. exists (MoveLoop i LoopClaim). split; [|done]. cbn. unfold runLoop_step.
    destruct Hat as [[x ->] (w & Hw & _)]. cbn. rewrite Hw. unfold advertise, has_claims in *. rewrite Hc. unfold chan_send. cbn.
    destruct n; [lia|]. done.
  - unfold has_claims. by rewrite Ea.
Qed.

(** The job gets to the worker. *)
Lemma delivered buf : ∀ p,
  0 < SubmitBackoff (Claims_cfg (cfg p)) → is_submitting SubmitHead p → has_claims p S n buf →
  at_loop p i id c k (Advertising c k) ∨
    (∃ c', at_loop p i id c k (Awaiting c' k)) ∧ MkClaim id k ∈ buf →
  ∃ p' buf', runs i p p' [] ∧ dispatching p' = Dispatch ∧ has_claims p' S n buf' ∧
    backlog p' = backlog p ∧ at_loop p' i id c k (GotJob j).
Proof.
  induction buf as [|k0 buf IH]; intros p Hbo Hd Hc Hat.
  - destruct Hat as [Hat|[_ []%elem_of_nil]].
    destruct (claim_offered p Hc Hat) as (p1 & H1 & Hd1 & Hc1 & Hb1 & Hat1).
    destruct (claim_used p1 c []) as (p2 & H2 & ? & ? & Hb2 & ?); [by rewrite (runs_cfg _ _ _ _ H1)|
      by unfold is_submitting in *; rewrite Hd1|done|done|].
    exists p2, []. split_and!; [exact (runs_trans _ _ _ _ _ _ H1 H2)|done|done|by rewrite Hb2|done].
  - assert ((∃ c', at_loop p i id c k (Awaiting c' k)) ∧ k0 = MkClaim id k ∨
      (at_loop p i id c k (Advertising c k) ∨ (∃ c', at_loop p i id c k (Awaiting c' k)) ∧ MkClaim id k ∈ buf))
      as [[[c' Hat'] ->]|Hat'].
    { destruct Hat as [?|[? [->|?]%elem_of_cons]]; auto. }
    + destruct (claim_used p c' buf) as (p2 & H2 & ? & ? & Hb2 & ?); [done..|]. by exists p2, buf.
    + destruct (claim_skipped p k0 buf Hd Hc) as (p1 & H1 & Hd1 & Hc1 & Hb1 & Hat1).
      destruct (IH p1) as (p2 & buf' & H2 & ? & ? & Hb2 & ?); [by rewrite (runs_cfg _ _ _ _ H1)|done|done| |].
      { destruct Hat' as [?|[[c' ?] ?]]; [left; auto|right; split; [exists c'; auto|done]]. }
      exists p2, buf'. split_and!; [exact (runs_trans _ _ _ _ _ _ H1 H2)|done|done|by rewrite Hb2|done].
Qed.
End Dispatcher.

(** ** The whole backlog *)

(** The loop of worker [id] can serve: it is to offer itself, or its claim waits. *)
Definition offers (p : pool) (i id c k : nat) (buf : list claim) : Prop :=
  at_loop p i id c k (Advertising c k) ∨ (∃ c', at_loop p i id c k (Awaiting c' k)) ∧ MkClaim id k ∈ buf.

Lemma job_served p i id c k S n buf j d :
  0 < SubmitBackoff (Claims_cfg (cfg p)) → id ∈ S → (0 < n)%nat →
  dispatching p = Submitting j d SubmitHead → has_claims p S n buf → offers p i id c k buf →
  ∃ p' buf', runs i p p' [j] ∧ dispatching p' = Dispatch ∧ backlog p' = backlog p ∧
    has_claims p' S n buf' ∧ offers p' i id c k buf'.
Proof.
  intros Hbo HS Hn Hd Hc Ho.
  destruct (delivered i id c k S n j d (d - 1) ltac:(lia) HS Hn buf p Hbo Hd Hc Ho)
    as (p1 & buf' & H1 & Hd1 & Hc1 & Hb1 & Hat1).
  destruct (loop_turns _ _ _ _ _ _ _ _ _ Hat1 (free_turns c k (GotJob j) None id eq_refl))
    as (p2 & H2 & Hat2 & Ha). exists p2, buf'. pose proof Ha as (Eb & Ed & _).
  split_and!; [exact (runs_trans _ _ _ _ _ _ H1 H2)|congruence|congruence|by eapply aside_claims|by left].
Qed.

Lemma backlog_served i id c k S n rest : ∀ p buf,
  0 < SubmitTimeout (Claims_cfg (cfg p)) → 0 < SubmitBackoff (Claims_cfg (cfg p)) → id ∈ S → (0 < n)%nat →
  dispatching p = Dispatch → backlog p = rest → has_claims p S n buf → offers p i id c k buf →
  ∃ p', runs i p p' rest ∧ dispatching p' = Dispatch ∧ backlog p' = [].
Proof.
  induction rest as [|j rest IH]; intros p buf Hto Hbo HS Hn Hd Hb Hc Ho.
  - exists p. by split_and!; [apply runs_refl|..].
  - set (d := 0 + SubmitTimeout (Claims_cfg (cfg p))).
    set (p1 := set_dispatching (Submitting j d SubmitHead) (set_backlog rest p)).
    assert (runs i p p1 []) as H1.
    { apply (runs_dispatch i (DispatchRecv 0)); try done. unfold dispatcher_step. by rewrite Hd, Hb. }
    destruct (job_served p1 i id c k S n buf j d) as (p2 & buf' & H2 & Hd2 & Hb2 & Hc2 & Ho2); [done..|].
    pose proof (runs_trans _ _ _ _ _ _ H1 H2) as H12. pose proof (runs_cfg _ _ _ _ H12) as Ecfg.
    destruct (IH p2 buf') as (p3 & H3 & ? & ?); [by rewrite Ecfg|by rewrite Ecfg|done..|].
    exists p3. split_and!; [exact (runs_trans _ _ _ _ _ _ H12 H3)|done|done].
Qed.

(** The job in the dispatcher's hand starts anew, its claim or its wait given up. *)
Lemma hand_restarts i p j d ph :
  dispatching p = Submitting j d ph → runs i p (set_dispatching (Submitting j d SubmitHead) p) [].
Proof.
  intros Hd. destruct ph as [| |k|k].
  - replace (set_dispatching _ p) with p by (destruct p; cbn in *; by subst). apply runs_refl.
  - apply (runs_dispatch i (DispatchSubmit SubmitTimer)); try done. unfold dispatcher_step. by rewrite Hd.
  - by apply (check_given_up i p j d k).
  - apply (runs_dispatch i (DispatchSubmit SubmitTimer)); try done. unfold dispatcher_step. by rewrite Hd.
Qed.

(** Run loop [l] can take a job: its worker is subscribed, with its context, and it is on
    its way to advertise, or parked with its claim still in the channel. *)
Definition waiting_phase (k : nat) (ph : loop_phase) : bool :=
  match ph with Claimed | Notified => true | Awaiting _ k' => (k' =? k)%nat | _ => false end.

Definition responsive (p : pool) (l : loop) : Prop :=
  let id := loop_worker l in
  ∃ w, workers p !! id = Some w ∧ ctxFn w ≠ None ∧ id ∈ subscribers (availableWorkers p) ∧
    (free_phase (phase l) = true ∨
     waiting_phase (input w) (phase l) = true ∧
     MkClaim id (input w) ∈ chan_buf (claimsCh (availableWorkers p))).

Lemma responsive_offers p i l S n buf :
  loops p !! i = Some l → responsive p l → has_claims p S n buf →
  ∃ p' c k, runs i p p' (loop_jobs l) ∧ offers p' i (loop_worker l) c k buf ∧ loop_worker l ∈ S ∧ aside p p'.
Proof.
  intros Hl (w & Hw & Hctx & HS & Hph) Hc. unfold has_claims in Hc. rewrite Hc in HS, Hph. cbn in HS, Hph.
  destruct (ctxFn w) as [c|] eqn:Hcw; [|done]. destruct l as [id dn ph]. cbn in *.
  assert (at_loop p i id c (input w) ph) as Hat by (split; [by exists dn|by exists w]).
  assert (∃ chs ph', turns c (input w) ph chs = Some (ph', loop_jobs (MkLoop id dn ph)) ∧
    (ph' = Advertising c (input w) ∨ (∃ c', ph' = Awaiting c' (input w)) ∧ MkClaim id (input w) ∈ buf))
    as (chs & ph' & Ht & Hph').
  { destruct Hph as [Hfree|[Hwait Hin]].
    - exists (to_offer ph), (Advertising c (input w)). split; [by apply free_turns|by left].
    - destruct ph as [| | | | |c' k'| | | | | |]; try done.
      + exists [LoopGo; LoopGo], (Awaiting c (input w)). split; [done|right]. eauto.
      + exists [LoopGo], (Awaiting c (input w)). split; [done|right]. eauto.
      + exists [], (Awaiting c' k'). split; [done|right]. apply Nat.eqb_eq in Hwait as ->. eauto. }
  destruct (loop_turns _ _ _ _ _ _ _ _ _ Hat Ht) as (p' & Hr & Hat' & Ha).
  exists p', c, (input w). split_and!; [done| |done|done].
  destruct Hph' as [->|[[c' ->] Hin]]; [by left|right; by split; [exists c'|]].
Qed.

(** C14: one responsive worker is enough. In every state reachable from [New] in which the
    dispatcher has not returned and some run loop is responsive (its worker subscribed, and
    either on its way to its next claim or its claim still to be taken), steps of the
    dispatcher and of this one loop alone, handlers returning nil, bring the pool to a
    state in which the backlog is empty and every job of it, after the one the dispatcher
    had in hand and the one the loop was running, has been reported done, in order;
    whatever claims of other workers are in the channel. The timeouts of the submission
    must be positive, which the normalization of the configuration does not ensure. *)
Theorem responsive_worker_drains_backlog NumCPU c h config t p0 p i l :
  0 < NumCPU → New NumCPU c h config t = Ret (inr p0) → rtc pool_next p0 p →
  0 < SubmitTimeout (Claims_cfg (cfg p)) → 0 < SubmitBackoff (Claims_cfg (cfg p)) →
  dispatching p ≠ Drained → loops p !! i = Some l → responsive p l →
  ∃ q es, rtc (serves i) p q ∧ dispatching q = Dispatch ∧ backlog q = [] ∧ events q = events p ++ es ∧
    omap ok_job es = loop_jobs l ++ dispatcher_jobs (dispatching p) ++ backlog p.
Proof.
  intros Hcpu Hnew Hreach Hto Hbo Hd Hl Hresp.
  destruct (New_in_use _ _ _ _ _ _ _ Hcpu Hnew Hreach) as [Hok _].
  destruct (ok_claims _ Hok) as [_ _ Hcap Hopen]. pose proof (usable_Size _ (ok_usable _ Hok)) as Hsize.
  destruct (availableWorkers p) as [S [n buf cl]] eqn:Hav. cbn in Hcap, Hopen. subst cl.
  assert (0 < n)%nat as Hn by lia. assert (has_claims p S n buf) as Hc by exact Hav.
  destruct (responsive_offers p i l S n buf Hl Hresp Hc) as (p1 & c1 & k1 & H1 & Ho1 & HS & Ha1).
  pose proof Ha1 as (Eb1 & Ed1 & _). apply (aside_claims _ _ _ _ _ Ha1) in Hc.
  assert (∃ p2 buf2, runs i p1 p2 (dispatcher_jobs (dispatching p)) ∧ dispatching p2 = Dispatch ∧
    backlog p2 = backlog p ∧ has_claims p2 S n buf2 ∧ offers p2 i (loop_worker l) c1 k1 buf2)
    as (p2 & buf2 & H2 & Hd2 & Hb2 & Hc2 & Ho2).
  { rewrite <- Ed1 in *. destruct (dispatching p1) as [|j d ph|] eqn:Hdp; [|clear Hd|done].
    - exists p1, buf. by split_and!; [apply runs_refl|..].
    - pose proof (hand_restarts i p1 j d ph Hdp) as Hh. set (p1' := set_dispatching _ p1) in Hh.
      destruct (job_served p1' i (loop_worker l) c1 k1 S n buf j d) as (p2 & buf2 & H2 & ? & ? & ? & ?);
        [by rewrite (runs_cfg _ _ _ _ Hh), (runs_cfg _ _ _ _ H1)|done..|].
      exists p2, buf2. split_and!; [exact (runs_trans _ _ _ _ _ _ Hh H2)|done|by rewrite <- Eb1|done|done]. }
  pose proof (runs_trans _ _ _ _ _ _ H1 H2) as H12. pose proof (runs_cfg _ _ _ _ H12) as Ecfg.
  destruct (backlog_served i (loop_worker l) c1 k1 S n (backlog p) p2 buf2) as (q & H3 & Hdq & Hbq);
    [by rewrite Ecfg|by rewrite Ecfg|done..|].
  destruct (runs_trans _ _ _ _ _ _ H12 H3) as [Hrtc _ (es & He & Hoks)].
  exists q, es. split_and!; [done|done|done|done|]. unfold oks in Hoks. by rewrite Hoks, <- app_assoc.
Qed.
