(* ===== verification/PoolOptions.v ===== *)
(** * Options of the pool and construction of its workers
    ([src/pkg/workerpool]: pool.go, worker.go, scaler.go)

    What the functional options of [New] set, the workers [createWorkers] builds with
    them and what [startScaler] wires, around the [New] of [Pool]. *)
From S2P Require Import Prelude Golang PoolConfig Claims Pool PoolTable PoolSafety PoolInvariant PoolTheorems.
Local Open Scope Z_scope.
Local Open Scope go_scope.

Definition defaultIdleTimeout : Z := 100 * Millisecond.

Section Options.
(** The handler, the observer, and the injected clock of the tests are values the
    pool passes on. *)
Context {HandlerFunc PoolEvents tickSource nowFn : Type}.
Context (NoopEvents : PoolEvents).

(** The fields of [WorkerPool] that options set; [None] is nil. *)
Record WorkerPool := MkWorkerPool {
  pool_cfg : option Config;
  pool_handler : option HandlerFunc;
  pool_events : option PoolEvents;
  pool_tickSource : option tickSource;
  pool_nowFn : option nowFn;
}.

Definition PoolOptionFunc : Type := WorkerPool → WorkerPool.

Definition WithConfig (c : option Config) : PoolOptionFunc := λ p,
  MkWorkerPool c (pool_handler p) (pool_events p) (pool_tickSource p) (pool_nowFn p).
Definition WithHandler (h : option HandlerFunc) : PoolOptionFunc := λ p,
  MkWorkerPool (pool_cfg p) h (pool_events p) (pool_tickSource p) (pool_nowFn p).
Definition WithEvents (e : option PoolEvents) : PoolOptionFunc := λ p,
  MkWorkerPool (pool_cfg p) (pool_handler p) e (pool_tickSource p) (pool_nowFn p).
Definition withScalerClock (tick : option tickSource) (now : option nowFn) : PoolOptionFunc := λ p,
  MkWorkerPool (pool_cfg p) (pool_handler p) (pool_events p) tick now.

(** The loop over the options; a nil option panics when it is called. *)
Fixpoint apply_options (opts : list (option PoolOptionFunc)) (p : WorkerPool) : outcome WorkerPool :=
  match opts with
  | [] => Ret p
  | Some opt :: opts => apply_options opts (opt p)
  | None :: _ => Panic
  end.

(** ** worker.go: newWorker *)

Record workerConfig := MkWorkerConfig {
  cfg_ID : Z;
  cfg_IdleTimeout : Z;
  cfg_Events : option PoolEvents;
  cfg_HandlerFunc : option HandlerFunc;
}.

(** A worker: the fields that never change and those the run loops share. *)
Record new_worker := MkNewWorker {
  w_id : Z;
  w_handlerFn : HandlerFunc;
  w_events : PoolEvents;
  w_idleTimeout : Z;
  w_shared : worker;
}.

(** [newWorker] at time [t]. *)
Definition newWorker (cfg : option workerConfig) (t : Z) : error + new_worker :=
  match cfg with
  | None => inl (Joined [ErrInvalidWorker; Text "nil worker config"])
  | Some cfg =>
      match cfg_HandlerFunc cfg with
      | None => inl (Joined [ErrInvalidWorker; Text "nil handler"])
      | Some h =>
          inr (MkNewWorker (cfg_ID cfg) h (default NoopEvents (cfg_Events cfg))
            (if cfg_IdleTimeout cfg =? 0 then defaultIdleTimeout else cfg_IdleTimeout cfg)
            (MkWorker false false t None 0 0))
      end
  end.

(** The loop of [createWorkers] from index [i] on. *)
Fixpoint create_loop (p : WorkerPool) (t : Z) (n i : nat) : error + list new_worker :=
  match n with
  | O => inr []
  | S n =>
      match newWorker (Some (MkWorkerConfig (Z.of_nat i + 1) 0 (pool_events p) (pool_handler p))) t with
      | inl e => inl e
      | inr w => match create_loop p t n (S i) with inl e => inl e | inr ws => inr (w :: ws) end
      end
  end.

Definition createWorkers (p : WorkerPool) (n t : Z) : error + list new_worker :=
  create_loop p t (Z.to_nat n) 0.

(** ** pool.go: startScaler *)

Inductive tick_channel := Injected (tick : tickSource) | NewTicker (interval : Z).
Inductive clock := InjectedNow (now : nowFn) | TimeNow.

(** What [runScaler] is started with, and whether a ticker is stopped after it. *)
Definition startScaler (p : WorkerPool) (c : Config) : tick_channel * clock * bool :=
  let now := match pool_nowFn p with Some f => InjectedNow f | None => TimeNow end in
  match pool_tickSource p with
  | Some tick => (Injected tick, now, false)
  | None => (NewTicker (Interval (AutoScale c)), now, true)
  end.

(** ** pool.go: New with its options *)

(** What [New] leaves running: the shared state of [Pool], the observer, the workers
    as they were created and what the scaler was started with. *)
Record new_pool := MkNewPool {
  np_pool : pool;
  np_events : PoolEvents;
  np_workers : list new_worker;
  np_scaler : option (tick_channel * clock * bool);
}.

(** The context, the options and the observer come first; then [Pool.New] does the
    checks and the joins. The workers it joins are the ones [createWorkers] builds,
    which the theorem below shows not to fail. *)
Definition New (NumCPU : Z) (c : option ctx) (opts : list (option PoolOptionFunc)) (t : Z) :
    outcome (error + new_pool) :=
  match c with
  | None => Ret (inl (Joined [ErrInvalidPool; Text "nil context"]))
  | Some (Some e) => Ret (inl e)
  | Some None =>
      o <-- apply_options opts (MkWorkerPool None None None None None) ;;;
      let events := default NoopEvents (pool_events o) in
      let o := WithEvents (Some events) o in
      r <-- Pool.New NumCPU c (bool_decide (is_Some (pool_handler o))) (pool_cfg o) t ;;;
      match r with
      | inl e => Ret (inl e)
      | inr p =>
          match createWorkers o (Size (Claims_cfg (cfg p))) t with
          | inl e => Ret (inl e)
          | inr ws =>
              Ret (inr (MkNewPool p events ws
                (if cfg_Mode (cfg p) =? ModeAutoScale then Some (startScaler o (cfg p)) else None)))
          end
      end
  end.

(** ** What the options do *)

(** The options the package exports, and its tests' one. *)
Inductive option_kind :=
| OptConfig (c : option Config)
| OptHandler (h : option HandlerFunc)
| OptEvents (e : option PoolEvents)
| OptClock (tick : option tickSource) (now : option nowFn).

Definition build (k : option_kind) : PoolOptionFunc :=
  match k with
  | OptConfig c => WithConfig c
  | OptHandler h => WithHandler h
  | OptEvents e => WithEvents e
  | OptClock tick now => withScalerClock tick now
  end.

(** The last value an option of the list gives, else the one before. *)
Definition last_of {A} (f : option_kind → option (option A)) (ks : list option_kind) (x : option A) : option A :=
  default x (last (omap f ks)).

Lemma last_of_cons {A} f k ks (x : option A) :
  last_of f (k :: ks) x = last_of f ks (default x (f k)).
Proof.
  unfold last_of. cbn. destruct (f k) as [y|]; [|done]. rewrite last_cons. by destruct (last _).
Qed.

(** Each field is what the last option for it says, whatever the others do. *)
Theorem last_option_wins ks p :
  apply_options (Some ∘ build <$> ks) p = Ret (MkWorkerPool
    (last_of (λ k, match k with OptConfig c => Some c | _ => None end) ks (pool_cfg p))
    (last_of (λ k, match k with OptHandler h => Some h | _ => None end) ks (pool_handler p))
    (last_of (λ k, match k with OptEvents e => Some e | _ => None end) ks (pool_events p))
    (last_of (λ k, match k with OptClock tick _ => Some tick | _ => None end) ks (pool_tickSource p))
    (last_of (λ k, match k with OptClock _ now => Some now | _ => None end) ks (pool_nowFn p))).
Proof.
  revert p. induction ks as [|k ks IH]; intros p; [by destruct p|].
  cbn [fmap list_fmap apply_options compose]. rewrite IH, !last_of_cons. by destruct k.
Qed.

Lemma apply_options_spec opts p :
  if decide (Forall is_Some opts) then ∃ o, apply_options opts p = Ret o else apply_options opts p = Panic.
Proof.
  revert p. induction opts as [|[opt|] opts IH]; intros p; cbn [apply_options].
  - by exists p.
  - specialize (IH (opt p)). rewrite (decide_ext _ (Forall is_Some opts)); [done|]. rewrite Forall_cons. naive_solver.
  - rewrite decide_False; [done|]. rewrite Forall_cons. by intros [[? ?] _].
Qed.

Lemma createWorkers_spec p n t h ev :
  pool_handler p = Some h → pool_events p = Some ev → 0 ≤ n →
  ∃ ws, createWorkers p n t = inr ws ∧ w_shared <$> ws = Pool.createWorkers n t ∧
    ∀ i w, ws !! i = Some w →
      w_id w = Z.of_nat i + 1 ∧ w_handlerFn w = h ∧ w_events w = ev ∧ w_idleTimeout w = defaultIdleTimeout.
Proof.
  intros Hh He Hn. unfold createWorkers, Pool.createWorkers. generalize (Z.to_nat n) as k. clear n Hn. intros k.
  enough (∀ j, ∃ ws, create_loop p t k j = inr ws ∧ w_shared <$> ws = replicate k (MkWorker false false t None 0 0) ∧
    ∀ i w, ws !! i = Some w → w_id w = Z.of_nat (j + i) + 1 ∧ w_handlerFn w = h ∧ w_events w = ev ∧
      w_idleTimeout w = defaultIdleTimeout) as H by apply (H 0%nat).
  induction k as [|k IH]; intros j; cbn [create_loop]; [by exists []|].
  unfold newWorker. cbn [cfg_HandlerFunc]. rewrite Hh, He. destruct (IH (S j)) as (ws & -> & Hsh & Hws).
  eexists. split; [done|]. cbn. split; [by f_equal|]. intros [|i] w Hi; cbn in Hi.
  - simplify_eq. cbn. split_and!; try done. lia.
  - destruct (Hws i w Hi) as (-> & ?). split; [lia|done].
Qed.

(** C31: [New] with its options. The errors of the context come before any option
    runs; a nil option panics; then what the options left decides: a nil handler, a
    nil configuration and an unusable one are the errors, in this order. Otherwise
    [New] returns a live pool with the mode's workers joined, [Size] workers with the
    identities 1 to [Size], the handler and the observer given (the one that does
    nothing when there is none) and the default idle timeout, and the scaler started,
    exactly in auto mode, on the injected ticks and clock, or on a ticker of the
    configured interval, which is then stopped. *)
Theorem pool_options_start NumCPU c opts t :
  0 < NumCPU →
  match c with
  | None => New NumCPU c opts t = Ret (inl (Joined [ErrInvalidPool; Text "nil context"]))
  | Some (Some e) => New NumCPU c opts t = Ret (inl e)
  | Some None =>
      if decide (Forall is_Some opts) then ∃ o, apply_options opts (MkWorkerPool None None None None None) = Ret o ∧
        match pool_handler o, pool_cfg o with
        | None, _ => New NumCPU c opts t = Ret (inl (Joined [ErrInvalidPool; Text "nil handler"]))
        | _, None => New NumCPU c opts t = Ret (inl (Joined [ErrInvalidPool; Text "nil config"]))
        | Some h, Some config =>
            match effective_config NumCPU config with
            | inl e => New NumCPU c opts t = Ret (inl e)
            | inr cf => ∃ s, New NumCPU c opts t = Ret (inr s) ∧
                cfg (np_pool s) = cf ∧ poolCtx (np_pool s) = None ∧ reject (np_pool s) = false ∧
                JoinedCount (np_pool s) =
                  (if cfg_Mode cf =? ModeAutoScale then MinSize (AutoScale cf) else Size (Claims_cfg cf)) ∧
                places (np_pool s) = [] ∧
                Z.of_nat (length (np_workers s)) = Size (Claims_cfg cf) ∧
                (∀ i w, np_workers s !! i = Some w →
                   w_id w = Z.of_nat i + 1 ∧ w_handlerFn w = h ∧
                   w_events w = default NoopEvents (pool_events o) ∧ w_idleTimeout w = defaultIdleTimeout) ∧
                np_scaler s =
                  (if cfg_Mode cf =? ModeAutoScale then
                     Some (from_option Injected (NewTicker (Interval (AutoScale cf))) (pool_tickSource o),
                           from_option InjectedNow TimeNow (pool_nowFn o),
                           bool_decide (pool_tickSource o = None))
                   else None)
            end
        end
      else New NumCPU c opts t = Panic
  end.
Proof.
  intros Hcpu. destruct c as [[e|]|]; [done| |done].
  pose proof (apply_options_spec opts (MkWorkerPool None None None None None)) as Ho. unfold New.
  case_decide; [|by rewrite Ho]. destruct Ho as (o & Ho). exists o. split; [done|]. rewrite Ho. cbn [obind].
  destruct (pool_handler o) as [h|] eqn:Hh; [|cbn; by rewrite Hh].
  destruct (pool_cfg o) as [config|] eqn:Hc; [|cbn; by rewrite Hh, Hc].
  cbn [WithEvents pool_handler pool_cfg]. rewrite Hh, Hc.
  pose proof (new_pool_starts NumCPU (Some None) true (Some config) t Hcpu) as Hnew. cbn iota in Hnew.
  rewrite bool_decide_true by done.
  destruct (effective_config NumCPU config) as [e|cf] eqn:Hcf; [by rewrite Hnew|].
  destruct Hnew as (p & -> & <- & Hctx & Hrej & Hj & _ & _ & Hpl & _).
  pose proof (usable_Size _ (effective_config_usable _ _ _ Hcpu Hcf)) as Hsz.
  destruct (createWorkers_spec (WithEvents (Some (default NoopEvents (pool_events o))) o) (Size (Claims_cfg (cfg p))) t
    h (default NoopEvents (pool_events o))) as (ws & Hws & Hsh & Hall); [done..|lia|].
  unfold WithEvents in *. rewrite Hc, Hh in *. cbn [obind]. rewrite Hws. eexists. split; [done|]. cbn.
  split_and!; try done.
  - apply (f_equal length) in Hsh. rewrite length_fmap in Hsh. rewrite Hsh. unfold Pool.createWorkers.
    rewrite length_replicate. lia.
  - unfold startScaler. case_match; [|done]. cbn. by destruct (pool_tickSource o), (pool_nowFn o).
Qed.
End Options.

(** A pool whose handler is given twice: the second one is what the workers get. *)
Definition four_workers : list (option (PoolOptionFunc (HandlerFunc := bool) (PoolEvents := nat)
    (tickSource := unit) (nowFn := unit))) :=
  [Some (WithHandler (Some false)); Some (WithConfig (Some fixed_four)); Some (WithHandler (Some true))].

Lemma pool_options_start_witness :
  ∃ s, New 0%nat 8 (Some None) four_workers 5 = Ret (inr s) ∧ JoinedCount (np_pool s) = 4 ∧
    Z.of_nat (length (np_workers s)) = 4 ∧ np_scaler s = None ∧
    ∀ i w, np_workers s !! i = Some w → w_id w = Z.of_nat i + 1 ∧ w_handlerFn w = true ∧ w_events w = 0%nat.
Proof.
  pose proof (pool_options_start 0%nat 8 (Some None) four_workers 5 ltac:(reflexivity)) as H. cbn iota in H.
  rewrite decide_True in H by (repeat constructor; by eexists).
  destruct H as (o & Ho & H). injection Ho as <-. cbn [pool_handler pool_cfg WithHandler WithConfig] in H.
  destruct (effective_config 8 fixed_four) as [e|cf] eqn:Hcf; [discriminate Hcf|].
  destruct H as (s & Hs & _ & _ & _ & Hj & _ & Hl & Hw & Hsc). injection Hcf as <-.
  exists s. split_and!; [exact Hs|exact Hj|exact Hl|exact Hsc|]. intros i w Hi.
  destruct (Hw i w Hi) as (? & ? & ? & _). split_and!; assumption.
Defined.
