(* ===== verification/PoolRaces.v ===== *)
(** * Runs of the worker pool

    Concrete executions from [New]: instances of the theorems of [PoolTheorems], and
    interleavings that show what the pool does not guarantee. *)
From S2P Require Import Prelude Golang PoolConfig Claims Scaler Pool PoolTable PoolSafety PoolInvariant PoolTheorems PoolProgress PoolDelivery.
Local Open Scope Z_scope.

(** One worker, the rest by default: 50ms to hand a job over, 1s to dispatch it. *)
Definition one_worker : Config :=
  MkConfig (MkClaimsConfig "" NaN 1 0 0 0) ModeFixedSize NaN 0 (MkAutoScale 0 0 0 0 0 0 0 0).

(** One or two workers, scaled one at a time. *)
Definition one_or_two : Config :=
  MkConfig (MkClaimsConfig "" NaN 0 0 0 0) ModeAutoScale NaN 0 (MkAutoScale 1 2 1 0 1 0 1 1).

Definition new_pool (cfg : Config) : outcome (error + pool) := New 8 (Some None) true (Some cfg) 0.

(** A schedule from [New] that ends in a state passing a test. *)
Lemma run_reaches cfg mvs (P : pool → bool) :
  match new_pool cfg with
  | Ret (inr p0) => match pool_run mvs p0 with Some (Ret p) => P p | _ => false end
  | _ => false
  end = true →
  ∃ p0 p, new_pool cfg = Ret (inr p0) ∧ rtc pool_next p0 p ∧ P p = true.
Proof.
  destruct (new_pool cfg) as [[e|p0]|]; try done.
  destruct (pool_run mvs p0) as [[p|]|] eqn:Hrun; try done. intros HP.
  exists p0, p. split_and!; [done|by eapply pool_run_reachable|done].
Qed.

(** The steps of a loop to its first claim, of an accepted [Submit], of the dispatch
    of a job at time [t] to loop [i]. *)
Definition to_claim (i : nat) : list pool_move := MoveLoop i <$> [LoopGo; LoopClaim; LoopGo; LoopGo].
Definition submits_job (i : nat) (j : Z) : list pool_move :=
  [MoveSubmit j (Some 0%nat); MoveCall i CallGo; MoveCall i (CallLimited None); MoveCall i CallSend].
Definition dispatches (t : Z) (i : nat) : list pool_move :=
  MoveDispatch <$> [DispatchRecv t; DispatchSubmit (SubmitNow t); DispatchSubmit SubmitRecv;
    DispatchSubmit (SubmitNow t); DispatchSubmit (SubmitHandoff i)].
Definition handles (i : nat) (r : outcome (option error)) (t : Z) : list pool_move :=
  MoveLoop i <$> [LoopGo; LoopHandler r; LoopGo; LoopNow t].

(** ** A served job *)

Definition served : list pool_move :=
  [MoveLoop 0 LoopGo] ++ to_claim 0 ++ submits_job 0 7 ++ dispatches 5 0 ++ handles 0 Panic 9.

(** The handler's panic is reported, the worker goes on. *)
Lemma served_run :
  ∃ p0 p, new_pool one_worker = Ret (inr p0) ∧ rtc pool_next p0 p ∧
    accepted p = [MkJob 7 0] ∧ completed p = [MkJob 7 0] ∧ Forall (λ e, ¬ is_timeout e) (events p).
Proof.
  destruct (run_reaches one_worker served (λ p, bool_decide (accepted p = [MkJob 7 0] ∧
    completed p = [MkJob 7 0]) && forallb (λ e, match e with LeaveTimeout _ _ => false | _ => true end) (events p)))
    as (p0 & p & Hp0 & Hp & Htest); [vm_compute; reflexivity|].
  apply andb_true_iff in Htest as [Hd Ht]. apply bool_decide_eq_true in Hd as [? ?].
  exists p0, p. split_and!; try done.
  apply Forall_forall. intros e He. rewrite forallb_forall in Ht.
  apply list_elem_of_In, Ht in He. intros Hto. by destruct e.
Qed.

Lemma pool_conserves_jobs_witness :
  ∃ p0 p, new_pool one_worker = Ret (inr p0) ∧ rtc pool_next p0 p ∧
    accepted p ≡ₚ backlog p ++ dispatcher_jobs (dispatching p) ++ with_workers p ++ completed p.
Proof.
  destruct served_run as (p0 & p & Hp0 & Hp & _). exists p0, p.
  split_and!; [exact Hp0|exact Hp|].
  exact (pool_conserves_jobs 8 (Some None) true (Some one_worker) 0 p0 p ltac:(reflexivity) Hp0 Hp).
Defined.

Lemma pool_respects_bounds_witness :
  ∃ p0 p, new_pool one_worker = Ret (inr p0) ∧ rtc pool_next p0 p ∧
    Z.of_nat (length (backlog p)) ≤ Backlog (cfg p).
Proof.
  destruct served_run as (p0 & p & Hp0 & Hp & _). exists p0, p.
  split_and!; [exact Hp0|exact Hp|].
  exact (proj1 (pool_respects_bounds 8 (Some None) true (Some one_worker) 0 p0 p ltac:(reflexivity) Hp0 Hp)).
Defined.

Lemma pool_never_panics_witness :
  ∃ p0 p, new_pool one_worker = Ret (inr p0) ∧ rtc pool_next p0 p ∧
    ∀ mv, pool_advance mv p ≠ Some Panic.
Proof.
  destruct served_run as (p0 & p & Hp0 & Hp & _ & _ & Hnt). exists p0, p.
  split_and!; [exact Hp0|exact Hp|]. intros mv.
  apply (pool_never_panics 8 (Some None) true (Some one_worker) 0 p0 p ltac:(reflexivity) Hp0 Hp). exact Hnt.
Defined.

(** A graceful shutdown of that pool, just started, comes to its end. *)
Lemma close_can_finish_witness :
  ∃ p0 p q, new_pool one_worker = Ret (inr p0) ∧ rtc pool_next p0 p ∧ rtc solo p q ∧
    closing q = Closed ∧ joinedIDs q = ∅.
Proof.
  destruct (run_reaches one_worker [MoveClose true]
    (λ p, match closing p with CloseShutdown _ => true | _ => false end))
    as (p0 & p & Hp0 & Hp & Htest); [vm_compute; reflexivity|].
  assert (closing p ≠ NotClosed) as Hc by (destruct (closing p); discriminate).
  destruct (close_can_finish 8 (Some None) true (Some one_worker) 0 p0 p ltac:(reflexivity) Hp0 Hp Hc)
    as (q & Hq & Hcl & _ & _ & _ & _ & Hj).
  exists p0, p, q. split_and!; [exact Hp0|exact Hp|exact Hq|exact Hcl|exact Hj].
Defined.

(** Of that pool, just started and with a job in the backlog, the one worker does the job. *)
Definition can_serve (i : nat) (p : pool) : bool :=
  bool_decide (0 < SubmitTimeout (Claims_cfg (cfg p)) ∧ 0 < SubmitBackoff (Claims_cfg (cfg p))) &&
  match dispatching p, loops p !! i with
  | Dispatch, Some l =>
      bool_decide (loop_worker l ∈ subscribers (availableWorkers p)) &&
      match phase l, workers p !! loop_worker l with
      | Starting, Some w => match ctxFn w with Some _ => true | None => false end
      | _, _ => false
      end
  | _, _ => false
  end.

Lemma can_serve_responsive i p :
  can_serve i p = true →
  0 < SubmitTimeout (Claims_cfg (cfg p)) ∧ 0 < SubmitBackoff (Claims_cfg (cfg p)) ∧
  dispatching p = Dispatch ∧ ∃ l, loops p !! i = Some l ∧ responsive p l ∧ loop_jobs l = [].
Proof.
  unfold can_serve. intros Ht. apply andb_true_iff in Ht as [[??]%bool_decide_eq_true Hs].
  destruct (dispatching p) eqn:Hd; try done. destruct (loops p !! i) as [l|] eqn:Hl; [|done].
  apply andb_true_iff in Hs as [HS%bool_decide_eq_true Hs]. unfold loop_jobs, responsive.
  destruct (phase l) eqn:Hph; try done. destruct (workers p !! loop_worker l) as [w|] eqn:Hw; [|done].
  split_and!; try done. exists l. split_and!; [done| |by rewrite Hph].
  exists w. rewrite Hph. split_and!; [done|by destruct (ctxFn w)|done|by left].
Qed.

Lemma responsive_worker_drains_backlog_witness :
  ∃ p0 p q es, new_pool one_worker = Ret (inr p0) ∧ rtc pool_next p0 p ∧ backlog p = [MkJob 7 0] ∧
    rtc (serves 0) p q ∧ backlog q = [] ∧ events q = events p ++ es ∧ omap ok_job es = [MkJob 7 0].
Proof.
  destruct (run_reaches one_worker (submits_job 0 7)
    (λ p, can_serve 0 p && bool_decide (backlog p = [MkJob 7 0])))
    as (p0 & p & Hp0 & Hp & Htest); [vm_compute; reflexivity|].
  apply andb_true_iff in Htest as [Hs Hb%bool_decide_eq_true].
  destruct (can_serve_responsive _ _ Hs) as (Hto & Hbo & Hd & l & Hl & Hr & Hj).
  destruct (responsive_worker_drains_backlog 8 (Some None) true (Some one_worker) 0 p0 p 0 l
    ltac:(reflexivity) Hp0 Hp Hto Hbo ltac:(rewrite Hd; discriminate) Hl Hr) as (q & es & Hq & _ & Hbq & He & Hes).
  rewrite Hj, Hd, Hb in Hes. exists p0, p, q, es.
  split_and!; [exact Hp0|exact Hp|exact Hb|exact Hq|exact Hbq|exact He|exact Hes].
Defined.

(** ** A graceful shutdown and a late submission *)

(** The second submission passed the check before the shutdown; its send happens
    after the dispatcher returned, and returns nil. *)
Definition late : list pool_move :=
  [MoveLoop 0 LoopGo] ++ to_claim 0 ++ submits_job 0 7 ++ dispatches 5 0 ++ handles 0 (Ret None) 9 ++
  [MoveSubmit 8 (Some 0%nat); MoveCall 1 CallGo; MoveCall 1 (CallLimited None);
   MoveClose true; MoveClosing false; MoveDispatch DispatchShutdown; MoveClosing false;
   MoveCall 1 CallSend; MoveClosing false; MoveClosing false; MoveClosing false;
   MoveLoop 0 LoopGo; MoveLoop 0 LoopCtxDone; MoveLoop 0 LoopGo; MoveClosing false; MoveClosing false].

(** C38: a submission can be accepted and dropped by a graceful shutdown. A run of a
    one-worker pool ends with [GracefulShutdown] returned, a [Submit] that overlapped
    it returned nil, and that job still in the backlog, with no one left to take it. *)
Theorem late_submit_is_dropped :
  ∃ p0 p, new_pool one_worker = Ret (inr p0) ∧ rtc pool_next p0 p ∧
    closing p = Closed ∧ dispatching p = Drained ∧
    submits p !! 1%nat = Some (MkCall 8 (Some 0%nat) (CallReturned None)) ∧
    backlog p = [MkJob 8 0] ∧ completed p = [MkJob 7 0].
Proof.
  destruct (run_reaches one_worker late (λ p,
    match closing p, dispatching p, submits p !! 1%nat with
    | Closed, Drained, Some (MkCall 8 (Some 0%nat) (CallReturned None)) => true
    | _, _, _ => false
    end && bool_decide (backlog p = [MkJob 8 0] ∧ completed p = [MkJob 7 0])))
    as (p0 & p & Hp0 & Hp & Htest); [vm_compute; reflexivity|].
  apply andb_true_iff in Htest as [Hm Hd]. apply bool_decide_eq_true in Hd as [? ?].
  exists p0, p. repeat case_match; simplify_eq. by split_and!.
Qed.

(** The dispatcher returns in a graceful shutdown of an idle pool. *)
Lemma graceful_shutdown_drains_witness :
  ∃ p0 p p', new_pool one_worker = Ret (inr p0) ∧ rtc pool_next p0 p ∧ pool_next p p' ∧
    shutdown p = true ∧ accepted p' ≡ₚ with_workers p' ++ completed p'.
Proof.
  destruct (run_reaches one_worker [MoveClose true; MoveClosing false]
    (λ p, match dispatching p, poolCtx p, backlog p with
          | Dispatch, None, [] => shutdown p | _, _, _ => false end))
    as (p0 & p & Hp0 & Hp & Htest); [vm_compute; reflexivity|].
  destruct (dispatching p) eqn:Hd; try discriminate.
  destruct (poolCtx p) eqn:Hc; try discriminate.
  destruct (backlog p) eqn:Hb; try discriminate.
  assert (pool_next p (set_dispatching Drained p)) as Hstep.
  { exists (MoveDispatch DispatchShutdown). cbn. unfold dispatcher_step. rewrite Hd, Htest, Hb. reflexivity. }
  exists p0, p, (set_dispatching Drained p).
  destruct (graceful_shutdown_drains 8 (Some None) true (Some one_worker) 0 p0 p (set_dispatching Drained p)
    (set_dispatching Drained p) ltac:(reflexivity) Hp0 Hp Hstep ltac:(rewrite Hd; discriminate)
    eq_refl Hc (rtc_refl _ _)) as (Hs & late' & _ & _ & Hperm).
  split_and!; [exact Hp0|exact Hp|exact Hstep|exact Hs|exact Hperm].
Defined.

(** ** A worker lost to a claim that was not followed by a job *)

(** Every live loop waits for a job on an input nobody will write to: no claim is
    pending and the dispatcher holds none. *)
Record starved (p : pool) : Prop := {
  starved_scaling : scaling p = NoScaler;
  starved_claims : chan_buf (claimsCh (availableWorkers p)) = [];
  starved_loops : ∀ i l, loops p !! i = Some l →
    phase l = Returned ∨ phase l = Exiting ∨ ∃ c k, phase l = Awaiting c k;
  starved_dispatcher : match dispatching p with
    | Submitting _ _ (SubmitCheck _ | SubmitSend _) => False | _ => True end;
}.

(** The event list grows by no handler's outcome. *)
Definition quiet (p p' : pool) : Prop := ∀ e, e ∈ events p' →
  e ∈ events p ∨ match e with JobOk _ | JobFailed _ _ => False | _ => True end.

#[export] Instance quiet_preorder : PreOrder quiet.
Proof.
  split; [by left|]. intros p1 p2 p3 H12 H23 e He.
  destruct (H23 e He) as [He2|]; [|by right]. exact (H12 e He2).
Qed.

Lemma quiet_same p p' : events p' = events p → quiet p p'.
Proof. intros He e. rewrite He. by left. Qed.

Lemma quiet_emit e p : match e with JobOk _ | JobFailed _ _ => False | _ => True end → quiet p (emit e p).
Proof.
  intros He e'. cbn. intros [Hin|Hin%list_elem_of_singleton]%elem_of_app;
    [by left|right; by subst e'].
Qed.

(** Steps that keep what starvation reads. *)
Lemma starved_same p p' :
  starved p → scaling p' = scaling p → claimsCh (availableWorkers p') = claimsCh (availableWorkers p) →
  loops p' = loops p → dispatching p' = dispatching p → starved p'.
Proof. intros [] Hs Hc Hl Hd. split; [by rewrite Hs|by rewrite Hc|by rewrite Hl|by rewrite Hd]. Qed.

Lemma starved_phase i ph p p' :
  starved p → ph = Returned ∨ ph = Exiting → events p' = events p → scaling p' = scaling p →
  availableWorkers p' = availableWorkers p → dispatching p' = dispatching p →
  loops p' = loops (set_phase i ph p) → starved p' ∧ quiet p p'.
Proof.
  intros [Hs' Hc' Hl' Hd'] Hph He Hs Ha Hd Hl. split; [|by apply quiet_same].
  split; rewrite ?Hs, ?Ha, ?Hd, ?Hl; try done.
  intros j l' Hj. cbn in Hj. rewrite list_lookup_alter in Hj. case_decide; [|by eapply Hl'].
  subst j. destruct (loops p !! i); [|done]. injection Hj as <-. cbn. tauto.
Qed.

Lemma starved_loop i ch p p' :
  starved p → runLoop_step i ch p = Some (Ret p') → starved p' ∧ quiet p p'.
Proof.
  intros Hst Hstep. unfold runLoop_step in Hstep. destruct (loops p !! i) as [l|] eqn:Hi; [|done].
  destruct (workers p !! loop_worker l) as [w|]; [|done].
  destruct (starved_loops _ Hst i l Hi) as [Hph|[Hph|(c & k & Hph)]]; rewrite Hph in Hstep;
    destruct ch; try done.
  - injection Hstep as Hret. unfold loop_return in Hret.
    repeat case_match; simplify_eq; by apply (starved_phase i Returned); auto.
  - case_match; [|done]. injection Hstep as <-. by apply (starved_phase i Exiting); auto.
Qed.

Lemma starved_submit j d ph ch p r p' :
  starved p → match ph with SubmitCheck _ | SubmitSend _ => False | _ => True end →
  submit_step j d ph ch p = Some (r, p') →
  p' = p ∧ match r with inl (SubmitCheck _ | SubmitSend _) | inr None => False | _ => True end.
Proof.
  intros Hst Hph Hstep. unfold submit_step in Hstep. destruct ph, ch; try done.
  - by repeat case_match; simplify_eq.
  - by case_match; simplify_eq.
  - by simplify_eq.
  - unfold next_claim, chan_recv in Hstep. rewrite (starved_claims _ Hst) in Hstep.
    by repeat case_match; simplify_eq.
Qed.

Lemma starved_dispatch ch p p' :
  starved p → dispatcher_step ch p = Some p' → starved p' ∧ quiet p p'.
Proof.
  intros Hst Hstep. pose proof (starved_dispatcher _ Hst) as Hph. unfold dispatcher_step in Hstep.
  destruct (dispatching p) as [|j d ph|] eqn:Hd, ch as [| |t|ch]; try done.
  - case_match; simplify_eq. split; [by destruct Hst; split|by apply quiet_same].
  - repeat case_match; simplify_eq; [|done]. split; [by destruct Hst; split|by apply quiet_same].
  - destruct (backlog p); simplify_eq. split; [by destruct Hst; split|by apply quiet_same].
  - destruct (submit_step j d ph ch p) as [[r p1]|] eqn:Hs; [|done].
    apply starved_submit in Hs as [-> Hr]; [|done|by destruct ph].
    destruct r as [ph'|[e|]]; simplify_eq.
    + split; [destruct Hst; split; cbn; try done; by destruct ph'|by apply quiet_same].
    + split; [by destruct Hst; split|]. by apply (quiet_emit (DispatchError e j)).
    + done.
Qed.

Lemma starved_leave id ph tm p r p' :
  starved p → leave_step id ph tm p = Some (Ret (r, p')) → starved p' ∧ quiet p p'.
Proof.
  intros Hst Hstep. unfold leave_step in Hstep. destruct (workers p !! id) as [w|]; [|done].
  destruct ph as [| |d].
  - injection Hstep as <- <-. split.
    + apply (starved_same p); try done. cbn. by case_decide.
    + etrans; [|by apply quiet_emit]. by apply quiet_same.
  - destruct (ctxFn w); simplify_eq. split; [by apply (starved_same p)|by apply quiet_same].
  - destruct tm; [simplify_eq|case_decide; simplify_eq].
    + split; [by apply (starved_same p)|]. etrans; by apply quiet_emit.
    + split; [by apply (starved_same p)|]. etrans; [|by apply quiet_emit]. by apply quiet_same.
Qed.

Lemma starved_next p p' : starved p → pool_next p p' → starved p' ∧ quiet p p'.
Proof.
  intros Hst [mv Hmv]. destruct mv as [j c|dr|e|c e|i ch|ch|i ch|ch|tm]; cbn in Hmv.
  - simplify_eq. split; [by apply (starved_same p)|by apply quiet_same].
  - unfold close in Hmv. destruct (closing p); simplify_eq/=.
    split; [by apply (starved_same p)|by apply quiet_same].
  - simplify_eq. destruct (poolCtx p); split; try done; [by apply (starved_same p)|by apply quiet_same].
  - simplify_eq. destruct (callers p !! c); split; try done; [by apply (starved_same p)|by apply quiet_same].
  - by eapply starved_loop.
  - destruct (dispatcher_step ch p) eqn:Hs; simplify_eq/=. by eapply starved_dispatch.
  - destruct (Submit_step i ch p) as [p1|] eqn:Hs; simplify_eq/=. unfold Submit_step in Hs.
    repeat case_match; simplify_eq; (split; [by apply (starved_same p)|by apply quiet_same]).
  - unfold scaler_step in Hmv. rewrite (starved_scaling _ Hst) in Hmv. by destruct ch.
  - assert (starved (cancel_pool p) ∧ quiet p (cancel_pool p)) as [Hc Hq].
    { unfold cancel_pool. destruct (poolCtx p); [done|].
      split; [by apply (starved_same p)|by apply quiet_same]. }
    unfold close_step in Hmv. destruct (closing p) as [|dr| | | | |[|id rest] ph|]; try done.
    + simplify_eq. split; [by apply (starved_same p)|by apply quiet_same].
    + simplify_eq. split; [by apply (starved_same (cancel_pool p))|exact Hq].
    + destruct (dispatching p) eqn:Hd; simplify_eq. split; [by apply (starved_same p)|by apply quiet_same].
    + destruct (scaling p) eqn:Hsc; simplify_eq. split; [by apply (starved_same p)|by apply quiet_same].
    + simplify_eq. split; [by apply (starved_same p)|by apply quiet_same].
    + simplify_eq. split; [by apply (starved_same (cancel_pool p))|exact Hq].
    + destruct (leave_step id ph tm p) as [[[[ph'|e] p1]|]|] eqn:Hl; simplify_eq;
        apply starved_leave in Hl as [? ?]; try done; (split; [by apply (starved_same p1)|done]).
Qed.

(** The worker sends its claim and is held up before its second select (in the
    WorkerStarted hook, say) for longer than SubmitBackoff; the dispatcher gives up
    on the claim it consumed and times out. *)
Definition lost_worker : list pool_move :=
  [MoveLoop 0 LoopGo; MoveLoop 0 LoopGo; MoveLoop 0 LoopClaim] ++ submits_job 0 7 ++
  (MoveDispatch <$> [DispatchRecv 0; DispatchSubmit (SubmitNow 0); DispatchSubmit SubmitRecv;
     DispatchSubmit (SubmitNow 0); DispatchSubmit SubmitTimer; DispatchSubmit (SubmitNow (Second / 2));
     DispatchSubmit SubmitTimer; DispatchSubmit (SubmitNow Second)]) ++
  [MoveLoop 0 LoopGo; MoveLoop 0 LoopGo].

(** C35: a worker does not advertise again after an unused claim. From a one-worker
    pool, a run in which the worker is slow once ends with a live pool, its worker
    subscribed and idle, that never runs a job again: whatever happens afterwards,
    no handler outcome is ever reported. *)
Theorem unused_claim_starves_pool :
  ∃ p0 p, new_pool one_worker = Ret (inr p0) ∧ rtc pool_next p0 p ∧
    poolCtx p = None ∧ shutdown p = false ∧ subscribers (availableWorkers p) = {[0%nat]} ∧
    dispatching p = Dispatch ∧
    ∀ q j, rtc pool_next p q → JobOk j ∉ events q ∧ ∀ e, JobFailed e j ∉ events q.
Proof.
  destruct (run_reaches one_worker lost_worker (λ p,
    match poolCtx p, dispatching p, scaling p, loops p with
    | None, Dispatch, NoScaler, [l] =>
        match phase l with Awaiting _ _ => negb (shutdown p) | _ => false end
    | _, _, _, _ => false
    end && forallb (λ e, match e with JobOk _ | JobFailed _ _ => false | _ => true end) (events p)
    && bool_decide (subscribers (availableWorkers p) = {[0%nat]} ∧
                        length (chan_buf (claimsCh (availableWorkers p))) = 0%nat)))
    as (p0 & p & Hp0 & Hp & Htest); [vm_compute; reflexivity|].
  apply andb_true_iff in Htest as [[Hm He]%andb_true_iff Hd].
  apply bool_decide_eq_true in Hd as [Hsub Hch%nil_length_inv]. rewrite forallb_forall in He.
  destruct (poolCtx p) eqn:Hc; [done|]. destruct (dispatching p) eqn:Hdp; try done.
  destruct (scaling p) eqn:Hsc; try done. destruct (loops p) as [|l [|]] eqn:Hl; try done.
  destruct (phase l) as [| | | | |c k| | | | | |] eqn:Hph; try done. apply negb_true_iff in Hm.
  exists p0, p. split_and!; try done.
  assert (starved p) as Hst.
  { split; [done|done| |by rewrite Hdp]. intros [|i] l' Hi; rewrite Hl in Hi; [|done].
    injection Hi as <-. right. right. by exists c, k. }
  intros q j' Hq. assert (quiet p q) as Hquiet.
  { cut (starved q ∧ quiet p q); [by intros [_ ?]|].
    eapply (rtc_preserves pool_next (λ q, starved q ∧ quiet p q)); [|exact Hq|done].
    intros s s' [Hs Hps] Hss. destruct (starved_next _ _ Hs Hss). split; [done|by etrans]. }
  split; [intros Hin|intros e' Hin]; destruct (Hquiet _ Hin) as [Hin'|[]];
    by apply list_elem_of_In, He in Hin'.
Qed.

(** ** A worker that joined again before its old loop had returned *)

(** Worker 1 is joined (loop 1), chosen for removal while idle, given a job at that
    moment, left with a timeout, and joined again as soon as its handler returned
    (loop 2) and before loop 1 looked at its canceled context. Loop 1 goes on under
    the new context and takes another job; [Shutdown] waits for loop 2 only, clears
    the worker's context, and loop 1 comes back to its head. *)
Definition scales_up (t : Z) : list pool_move :=
  MoveScaler <$> ScalerTick :: replicate 12 (ScalerGo t).
Definition rejoined : list pool_move :=
  submits_job 0 7 ++ scales_up 10 ++
  [MoveLoop 0 LoopGo] ++ to_claim 0 ++ dispatches 20 0 ++ handles 0 (Ret None) 50 ++
  [MoveLoop 1 LoopGo] ++ to_claim 1 ++ to_claim 0 ++
  (MoveScaler <$> ScalerTick :: replicate 11 (ScalerGo 100)) ++
  submits_job 1 8 ++ dispatches 110 1 ++ [MoveLoop 1 LoopGo] ++
  (MoveScaler <$> [ScalerLeaveChoice false; ScalerLeaveChoice false; ScalerLeaveChoice true; ScalerGo 0]) ++
  (MoveLoop 1 <$> [LoopHandler (Ret None); LoopGo; LoopNow 200]) ++
  submits_job 2 9 ++ scales_up 300 ++
  to_claim 1 ++ dispatches 310 0 ++ submits_job 3 10 ++ dispatches 320 1 ++ [MoveLoop 1 LoopGo] ++
  [MoveLoop 2 LoopGo; MoveLoop 2 LoopGo] ++
  [MoveClose false; MoveClosing false; MoveClosing false; MoveDispatch DispatchCtxDone;
   MoveClosing false; MoveScaler ScalerStop; MoveClosing false; MoveClosing false;
   MoveClosing false; MoveClosing false; MoveClosing true;
   MoveClosing false; MoveClosing false; MoveLoop 2 LoopCtxDone; MoveLoop 2 LoopGo; MoveClosing false] ++
  (MoveLoop 1 <$> [LoopHandler (Ret None); LoopGo; LoopNow 400]).

(** Loop [i] is about to read the context of a worker that has none, after a leave of
    that worker that timed out. *)
Definition calls_nil_ctx (i : nat) (p : pool) : bool :=
  match loops p !! i with
  | Some l =>
      match phase l, workers p !! loop_worker l with
      | LoopHead, Some w =>
          match ctxFn w with None => true | Some _ => false end &&
          existsb (λ e, match e with LeaveTimeout id _ => (id =? loop_worker l)%nat | _ => false end) (events p)
      | _, _ => false
      end
  | None => false
  end.

(** C36: after a leave has timed out, a run loop can call a nil context function. From
    an auto-scaling pool of one or two workers, a run reaches a state in which a run loop
    is at the head of its loop, its worker, whose leave timed out before, has no context
    function, and the loop's next step, whatever it selects, is the call of that nil
    function: a panic outside the handler, which stops the process. *)
Theorem rejoin_after_timeout_panics :
  ∃ p0 p i l w t, new_pool one_or_two = Ret (inr p0) ∧ rtc pool_next p0 p ∧
    loops p !! i = Some l ∧ phase l = LoopHead ∧
    LeaveTimeout (loop_worker l) t ∈ events p ∧
    workers p !! loop_worker l = Some w ∧ ctxFn w = None ∧
    (∀ ch, pool_advance (MoveLoop i ch) p ≠ None → pool_advance (MoveLoop i ch) p = Some Panic) ∧
    pool_advance (MoveLoop i LoopGo) p = Some Panic.
Proof.
  destruct (run_reaches one_or_two rejoined (calls_nil_ctx 1)) as (p0 & p & Hp0 & Hp & Htest);
    [vm_compute; reflexivity|].
  unfold calls_nil_ctx in Htest. destruct (loops p !! 1%nat) as [l|] eqn:Hl; [|done].
  destruct (phase l) eqn:Hph; try done. destruct (workers p !! loop_worker l) as [w|] eqn:Hw; [|done].
  destruct (ctxFn w) eqn:Hctx; [done|]. apply existsb_exists in Htest as (e & He & Hid).
  destruct e; try done. apply Nat.eqb_eq in Hid as ->.
  exists p0, p, 1%nat, l, w, timeout. split_and!; try done; [by apply list_elem_of_In|intros ch|];
    cbn [pool_advance]; unfold runLoop_step; rewrite Hl, Hw, Hph; [|by rewrite Hctx].
  destruct ch; try done. by rewrite Hctx.
Qed.
