(* ===== verification/Task.v ===== *)
(** * Tasks ([src/pkg/task])

    A task with its callers ([Go], [GoRetry]), the goroutine of each run, the
    goroutine that calls the task's function for it, and the contexts they share.
    A phase is a position in the source; a step runs to the next access to shared
    state (the atomic state and attempts, the mutex, a context, a channel). Any
    number of callers may use the task at the same time. *)
From stdpp Require Import pretty.
From S2P Require Import Prelude Golang Retry.
Local Open Scope Z_scope.
Local Open Scope go_scope.

(** ** Errors and states *)
Definition ErrCancelledTask : error := Sentinel "task.ErrCancelledTask".
Definition ErrTaskTimeout : error := Sentinel "task.ErrTaskTimeout".
Definition ErrNilCtx : error := Sentinel "task.ErrNilCtx".
Definition ErrTaskInProgress : error := Sentinel "task.ErrTaskInProgress".
Definition ErrTaskFnNotSet : error := Sentinel "task.ErrTaskFnNotSet".
Definition ErrMaxRetriesNotSet : error := Sentinel "task.ErrMaxRetriesNotSet".
Definition ErrIDNotSet : error := Sentinel "task.ErrIDNotSet".
Definition ErrMaxRetriesExceeded : error := Sentinel "task.ErrMaxRetriesExceeded".

Definition CREATED : Z := 0.
Definition PENDING : Z := 1.
Definition STARTED : Z := 2.
Definition DONE : Z := 3.
Definition FAILED : Z := 4.
Definition CANCELED : Z := 5.

(** ** Hooks (state.go)

    A hook returns or panics (a nil function panics when called). *)
Record StateHooks := MkHooks {
  onCreated : Z → outcome unit;
  onStarted : Z → outcome unit;
  onDone : Z → outcome unit;
  onFailed : Z → error → outcome unit;
  onPending : Z → Z → outcome unit;
  onCanceled : Z → outcome unit;
}.

Definition StateHookOpt : Type := StateHooks → StateHooks.

Definition newNoopHooks : StateHooks :=
  MkHooks (λ _, Ret tt) (λ _, Ret tt) (λ _, Ret tt) (λ _ _, Ret tt) (λ _ _, Ret tt) (λ _, Ret tt).

Definition NewStateHooks (opts : list StateHookOpt) : StateHooks :=
  fold_left (λ hooks h, h hooks) opts newNoopHooks.

(** The deferred [catchPanic] of a call. *)
Definition catchPanic (call : outcome unit) : outcome unit :=
  match call with Ret _ | Panic => Ret tt end.

Definition WhenCreated (f : Z → outcome unit) : StateHookOpt := λ sh,
  MkHooks (λ id, catchPanic (f id)) (onStarted sh) (onDone sh) (onFailed sh) (onPending sh) (onCanceled sh).
Definition WhenStarted (f : Z → outcome unit) : StateHookOpt := λ sh,
  MkHooks (onCreated sh) (λ id, catchPanic (f id)) (onDone sh) (onFailed sh) (onPending sh) (onCanceled sh).
Definition WhenDone (f : Z → outcome unit) : StateHookOpt := λ sh,
  MkHooks (onCreated sh) (onStarted sh) (λ id, catchPanic (f id)) (onFailed sh) (onPending sh) (onCanceled sh).
Definition WhenFailed (f : Z → error → outcome unit) : StateHookOpt := λ sh,
  MkHooks (onCreated sh) (onStarted sh) (onDone sh) (λ id e, catchPanic (f id e)) (onPending sh) (onCanceled sh).
Definition WhenPending (f : Z → Z → outcome unit) : StateHookOpt := λ sh,
  MkHooks (onCreated sh) (onStarted sh) (onDone sh) (onFailed sh) (λ id n, catchPanic (f id n)) (onCanceled sh).
Definition WhenCanceled (f : Z → outcome unit) : StateHookOpt := λ sh,
  MkHooks (onCreated sh) (onStarted sh) (onDone sh) (onFailed sh) (onPending sh) (λ id, catchPanic (f id)).

(** ** Definitions and the builder (builder.go) *)

(** What a call of a task's function can end with: it returns, panics (with the
    text of the value), or leaves its goroutine ([runtime.Goexit]). *)
Inductive fn_outcome :=
| FnReturns (e : option error)
| FnPanics (msg : string)
| FnExits.

(** A function is known by the outcomes its calls may have. *)
Definition RunFunc : Type := fn_outcome → bool.

Definition errRunFunc : RunFunc := λ o,
  match o with
  | FnReturns (Some (Sentinel n)) => String.eqb n "task.ErrTaskFnNotSet"
  | _ => false
  end.

Record TaskDefinition := MkDefinition {
  ID : Z;
  Name : string;
  TaskFn : option RunFunc;
  Hooks : option StateHooks;
  Delay : Z;
  MaxDuration : Z;
  RetryDelay : Z;
  MaxRetries : Z;
  RetryStrategy : option Strategy;
}.

Definition zeroDefinition : TaskDefinition := MkDefinition 0 "" None None 0 0 0 0 None.

Definition OptionFunc : Type := TaskDefinition → TaskDefinition.

Definition WithID (x : Z) : OptionFunc := λ d,
  MkDefinition x (Name d) (TaskFn d) (Hooks d) (Delay d) (MaxDuration d) (RetryDelay d) (MaxRetries d) (RetryStrategy d).
Definition WithName (x : string) : OptionFunc := λ d,
  MkDefinition (ID d) x (TaskFn d) (Hooks d) (Delay d) (MaxDuration d) (RetryDelay d) (MaxRetries d) (RetryStrategy d).
Definition WithTaskFn (x : option RunFunc) : OptionFunc := λ d,
  MkDefinition (ID d) (Name d) x (Hooks d) (Delay d) (MaxDuration d) (RetryDelay d) (MaxRetries d) (RetryStrategy d).
Definition WithHooks (x : option StateHooks) : OptionFunc := λ d,
  MkDefinition (ID d) (Name d) (TaskFn d) x (Delay d) (MaxDuration d) (RetryDelay d) (MaxRetries d) (RetryStrategy d).
Definition WithDelay (x : Z) : OptionFunc := λ d,
  MkDefinition (ID d) (Name d) (TaskFn d) (Hooks d) x (MaxDuration d) (RetryDelay d) (MaxRetries d) (RetryStrategy d).
Definition WithMaxDuration (x : Z) : OptionFunc := λ d,
  MkDefinition (ID d) (Name d) (TaskFn d) (Hooks d) (Delay d) x (RetryDelay d) (MaxRetries d) (RetryStrategy d).
Definition WithTimeout (x : Z) : OptionFunc := λ d,
  MkDefinition (ID d) (Name d) (TaskFn d) (Hooks d) (Delay d) x (RetryDelay d) (MaxRetries d) (RetryStrategy d).
Definition WithRetryDelay (x : Z) : OptionFunc := λ d,
  MkDefinition (ID d) (Name d) (TaskFn d) (Hooks d) (Delay d) (MaxDuration d) x (MaxRetries d) (RetryStrategy d).
Definition WithMaxRetries (x : Z) : OptionFunc := λ d,
  MkDefinition (ID d) (Name d) (TaskFn d) (Hooks d) (Delay d) (MaxDuration d) (RetryDelay d) x (RetryStrategy d).
Definition WithRetryStrategy (x : option Strategy) : OptionFunc := λ d,
  MkDefinition (ID d) (Name d) (TaskFn d) (Hooks d) (Delay d) (MaxDuration d) (RetryDelay d) (MaxRetries d) x.

(** The options a builder keeps: nil ones are dropped. *)
Definition NewBuilder (opts : list (option OptionFunc)) : list OptionFunc := omap id opts.

Definition Build (b : list OptionFunc) : error + TaskDefinition :=
  let d := fold_left (λ d opt, opt d) b zeroDefinition in
  if ID d =? 0 then inl ErrIDNotSet
  else if (match TaskFn d with None => true | Some _ => false end : bool) then inl ErrTaskFnNotSet
  else if MaxRetries d <=? 0 then inl ErrMaxRetriesNotSet
  else inr (if String.eqb (Name d) "" then WithName ("task-" +:+ pretty (ID d)) d else d).

(** ** The task and the goroutines around it *)

(** [cancel] names the context a call of [t.cancel] cancels; none at first. *)
Record Task := MkTask {
  id : Z;
  fn : RunFunc;
  hooks : StateHooks;
  retryStrategy : option Strategy;
  timeout : Z;
  delay : Z;
  retryDelay : Z;
  maxRetries : Z;
  state : Z;
  attempts : Z;
  cancel : option nat;
  err : option error;
}.

Definition defaultTimeout : Z := 30 * Second.

(** A context made by [Go], with the caller whose context it is derived from. *)
Record comp_ctx := MkComp { parent : nat; comp : ctx }.

(** The positions of a call of [Go], [GoRetry] or [Await]; [GoSpawn] holds the context just
    made, [RetryAdd] the number of attempts just read. In [AwaitCall] the call of
    [t.wg.Wait] is next, in [AwaitBlocked] it waits, in [AwaitWoken] the counter has
    reached zero and the call is about to return. *)
Inductive caller_phase :=
| GoEnter
| GoPending
| GoSelect
| GoSpawn (c : nat)
| GoStarted
| RetryEnter
| RetryCheck
| AwaitCall
| AwaitBlocked
| AwaitWoken
| RetryJudge
| RetryRoot
| RetryCount
| RetryAdd (a : Z)
| RetrySleep
| Returned (e : option error).

(** [caller_ctx] is [None] for a nil context. *)
Record caller := MkCaller {
  retrying : bool;
  caller_ctx : option ctx;
  rootCauseErr : option error;
  at_ : caller_phase;
}.

(** The positions of the goroutine of a run: before its select, in it, reading
    [t.err] after a timeout, [run] returned, the error stored, the goroutine gone. *)
Inductive run_phase :=
| RunEnter
| RunSelect
| RunTimedOut
| RunReturn (e : option error)
| RunExit
| RunOver.

(** The goroutine of [delegateFn]: not there yet, before its select, in the task's
    function with [run.Cancel], blocked on the unbuffered channel, channel closed. *)
Inductive delegate_phase :=
| NoDelegate
| DelegateStart
| DelegateCall (cancel : option nat)
| DelegateSend (r : option error)
| DelegateClosed.

(** [result], [called] and [fn_result] are history: what [run] returned, whether the
    task's function was called for the run, and how that call ended. *)
Record run_state := MkRun {
  run_ctx : nat;
  run_at : run_phase;
  delegate : delegate_phase;
  result : option (option error);
  called : bool;
  fn_result : option fn_outcome;
}.

Inductive hook_call :=
| OnCreated | OnStarted | OnDone | OnFailed (e : error) | OnPending (attempt : Z) | OnCanceled.

Record sys := MkSys {
  task : Task;
  ctxs : list comp_ctx;
  callers : list caller;
  runs : list run_state;
  hook_log : list hook_call;
}.

Definition upd_task (f : Task → Task) (s : sys) : sys :=
  MkSys (f (task s)) (ctxs s) (callers s) (runs s) (hook_log s).
Definition set_state (x : Z) (t : Task) : Task :=
  MkTask (id t) (fn t) (hooks t) (retryStrategy t) (timeout t) (delay t) (retryDelay t)
    (maxRetries t) x (attempts t) (cancel t) (err t).
Definition set_attempts (x : Z) (t : Task) : Task :=
  MkTask (id t) (fn t) (hooks t) (retryStrategy t) (timeout t) (delay t) (retryDelay t)
    (maxRetries t) (state t) x (cancel t) (err t).
Definition set_cancel (x : option nat) (t : Task) : Task :=
  MkTask (id t) (fn t) (hooks t) (retryStrategy t) (timeout t) (delay t) (retryDelay t)
    (maxRetries t) (state t) (attempts t) x (err t).
Definition set_err (x : option error) (t : Task) : Task :=
  MkTask (id t) (fn t) (hooks t) (retryStrategy t) (timeout t) (delay t) (retryDelay t)
    (maxRetries t) (state t) (attempts t) (cancel t) x.

Definition set_ctxs (x : list comp_ctx) (s : sys) : sys :=
  MkSys (task s) x (callers s) (runs s) (hook_log s).
Definition set_callers (x : list caller) (s : sys) : sys :=
  MkSys (task s) (ctxs s) x (runs s) (hook_log s).
Definition set_runs (x : list run_state) (s : sys) : sys :=
  MkSys (task s) (ctxs s) (callers s) x (hook_log s).
Definition log (h : hook_call) (s : sys) : sys :=
  MkSys (task s) (ctxs s) (callers s) (runs s) (hook_log s ++ [h]).

(** Caller [j] and run [k], updated. *)
Definition upd_caller (j : nat) (f : caller → caller) (s : sys) : sys :=
  set_callers (alter f j (callers s)) s.
Definition upd_run (k : nat) (f : run_state → run_state) (s : sys) : sys :=
  set_runs (alter f k (runs s)) s.

Definition at_phase (ph : caller_phase) (c : caller) : caller :=
  MkCaller (retrying c) (caller_ctx c) (rootCauseErr c) ph.
Definition set_root (e : option error) (c : caller) : caller :=
  MkCaller (retrying c) (caller_ctx c) e (at_ c).
Definition run_phase_to (ph : run_phase) (r : run_state) : run_state :=
  MkRun (run_ctx r) ph (delegate r) (result r) (called r) (fn_result r).
Definition delegate_to (d : delegate_phase) (r : run_state) : run_state :=
  MkRun (run_ctx r) (run_at r) d (result r) (called r) (fn_result r).
Definition call_fn (cancel : option nat) (r : run_state) : run_state :=
  MkRun (run_ctx r) (run_at r) (DelegateCall cancel) (result r) true (fn_result r).
Definition fn_ends (o : fn_outcome) (d : delegate_phase) (r : run_state) : run_state :=
  MkRun (run_ctx r) (run_at r) d (result r) (called r) (Some o).
Definition run_returns (e : option error) (r : run_state) : run_state :=
  MkRun (run_ctx r) (RunReturn e) (delegate r) (Some e) (called r) (fn_result r).

(** ** State transitions: the store, then the hook

    The two are one step, and a hook returns or panics: one that blocks, and what others
    could see between the two, are outside the model. *)
Definition transition (x : Z) (h : hook_call) (hook : outcome unit) (s : sys) : outcome sys :=
  _ <-- hook ;;; Ret (log h (upd_task (set_state x) s)).

Definition pending (s : sys) : outcome sys :=
  transition PENDING (OnPending (attempts (task s)))
    (onPending (hooks (task s)) (id (task s)) (attempts (task s))) s.
Definition canceled (s : sys) : outcome sys :=
  transition CANCELED OnCanceled (onCanceled (hooks (task s)) (id (task s))) s.
Definition started (s : sys) : outcome sys :=
  transition STARTED OnStarted (onStarted (hooks (task s)) (id (task s))) s.
Definition failed (e : error) (s : sys) : outcome sys :=
  transition FAILED (OnFailed e) (onFailed (hooks (task s)) (id (task s)) e) s.
Definition done (s : sys) : outcome sys :=
  transition DONE OnDone (onDone (hooks (task s)) (id (task s))) s.

(** [New]: the state is set to [CREATED] and its hook called; no caller yet. *)
Definition New (d : TaskDefinition) : outcome sys :=
  let t :=
    MkTask (ID d)
      (match TaskFn d with Some f => f | None => errRunFunc end)
      (match Hooks d with Some h => h | None => NewStateHooks [] end)
      (RetryStrategy d)
      (if 0 <? MaxDuration d then MaxDuration d else defaultTimeout)
      (Delay d) (RetryDelay d) (MaxRetries d) CREATED 0 None None in
  transition CREATED OnCreated (onCreated (hooks t) (id t)) (MkSys t [] [] [] []).

Definition State (t : Task) : Z := state t.
Definition IsCreated (t : Task) : bool := state t =? CREATED.
Definition IsPending (t : Task) : bool := state t =? PENDING.
Definition IsStarted (t : Task) : bool := state t =? STARTED.
Definition IsDone (t : Task) : bool := state t =? DONE.
Definition IsCanceled (t : Task) : bool := state t =? CANCELED.
Definition Err (t : Task) : option error := err t.
Definition IsFailed (t : Task) : bool := state t =? FAILED.
Definition IsEnd (t : Task) : bool :=
  (state t =? DONE) || (state t =? FAILED) || (state t =? CANCELED).
Definition IsInProgress (t : Task) : bool := (state t =? STARTED) || (state t =? PENDING).

(** [t.wg] counts the goroutines of runs: [Await] tells whether the counter is zero. *)
Definition run_over (r : run_state) : bool :=
  match run_at r with RunOver => true | _ => false end.
Definition Await (s : sys) : bool := forallb run_over (runs s).

(** The end of a run, [t.wg.Done]: at zero it wakes the waiters. *)
Definition wake_caller (c : caller) : caller :=
  match at_ c with AwaitBlocked => at_phase AwaitWoken c | _ => c end.
Definition wg_Done (s : sys) : sys :=
  set_callers (if Await s then map wake_caller (callers s) else callers s) s.

(** ** Contexts *)

Definition ctx_of (s : sys) (c : nat) : ctx :=
  match ctxs s !! c with Some x => comp x | None => live end.

Definition cancel_ctx (e : error) (x : comp_ctx) : comp_ctx :=
  match comp x with Some _ => x | None => MkComp (parent x) (Some e) end.

(** A call of the cancel function [c]; the initial one does nothing. *)
Definition call_cancel (c : option nat) (s : sys) : sys :=
  match c with
  | Some k => set_ctxs (alter (cancel_ctx Canceled) k (ctxs s)) s
  | None => s
  end.

Definition Cancel (s : sys) : sys := call_cancel (cancel (task s)) s.

(** ** Go and GoRetry *)

(** [Go] returns to its caller, or to the loop of [GoRetry] that called it. *)
Definition go_returns (j : nat) (e : option error) (c : caller) (s : sys) : sys :=
  upd_caller j (at_phase (match retrying c, e with
                          | true, None => AwaitCall
                          | _, _ => Returned e
                          end)) s.

(** [errors.Join(ErrCancelledTask, ctx.Err())]. *)
Definition cancelled_err (e : ctx) : option error := join2 (Some ErrCancelledTask) e.

(** One step of [Go] in caller [j]; [timer]: the select takes the timer's case. *)
Definition Go_step (j : nat) (timer : bool) (c : caller) (s : sys) : option (outcome sys) :=
  match at_ c, caller_ctx c with
  | GoEnter, None => Some (Ret (go_returns j (Some ErrNilCtx) c s))
  | GoEnter, Some _ =>
      if IsInProgress (task s) then Some (Ret (go_returns j (Some ErrTaskInProgress) c s))
      else Some (Ret (upd_caller j (at_phase GoPending) s))
  | GoPending, _ => Some (s <-- pending s ;;; Ret (upd_caller j (at_phase GoSelect) s))
  | GoSelect, Some x =>
      if timer then
        let k := length (ctxs s) in
        Some (Ret (upd_caller j (at_phase (GoSpawn k))
          (upd_task (set_cancel (Some k)) (set_ctxs (ctxs s ++ [MkComp j x]) s))))
      else if ctx_done x then
        Some (s <-- canceled s ;;; Ret (go_returns j (cancelled_err x) c s))
      else None
  | GoSpawn k, _ =>
      Some (Ret (upd_caller j (at_phase GoStarted)
        (set_runs (runs s ++ [MkRun k RunEnter NoDelegate None false None]) s)))
  | GoStarted, _ => Some (s <-- started s ;;; Ret (go_returns j None c s))
  | _, _ => None
  end.

(** One step of [Await], [t.wg.Wait], in caller [j]. A waiter that is woken and finds the
    counter above zero again panics: the WaitGroup was reused before its call returned. *)
Definition Await_step (j : nat) (c : caller) (s : sys) : option (outcome sys) :=
  let returns := upd_caller j (at_phase (if retrying c then RetryJudge else Returned None)) s in
  match at_ c with
  | AwaitCall =>
      if Await s then Some (Ret returns) else Some (Ret (upd_caller j (at_phase AwaitBlocked) s))
  | AwaitWoken => if Await s then Some (Ret returns) else Some Panic
  | _ => None
  end.

(** The delay before the next attempt. *)
Definition retry_delay (t : Task) (attempt : Z) : outcome Z :=
  match retryStrategy t with Some f => f attempt | None => Ret (retryDelay t) end.

(** One step of the loop of [GoRetry] in caller [j], outside its calls of [Go] and [Await]. *)
Definition GoRetry_step (j : nat) (timer : bool) (c : caller) (s : sys) : option (outcome sys) :=
  match at_ c with
  | RetryEnter =>
      if maxRetries (task s) <=? 0 then
        Some (Ret (upd_caller j (at_phase (Returned (Some ErrMaxRetriesNotSet)))
          (upd_task (set_state FAILED) s)))
      else Some (Ret (upd_caller j (at_phase RetryCheck) s))
  | RetryCheck =>
      if maxRetries (task s) <=? attempts (task s) then
        Some (Ret (upd_caller j
          (at_phase (Returned (join2 (Some ErrMaxRetriesExceeded) (rootCauseErr c)))) s))
      else Some (Ret (upd_caller j (at_phase GoEnter) s))
  | RetryJudge =>
      Some (Ret (upd_caller j
        (at_phase (if IsFailed (task s) then RetryRoot else Returned None)) s))
  | RetryRoot =>
      Some (Ret (upd_caller j (λ c, at_phase RetryCount (set_root (err (task s)) c)) s))
  | RetryCount => Some (Ret (upd_caller j (at_phase (RetryAdd (attempts (task s)))) s))
  | RetryAdd a =>
      let s := upd_task (set_attempts (wrap32u (attempts (task s) + 1))) s in
      Some (d <-- retry_delay (task s) a ;;;
            Ret (upd_caller j (at_phase (if 0 <? d then RetrySleep else RetryCheck)) s))
  | RetrySleep =>
      if timer then Some (Ret (upd_caller j (at_phase RetryCheck) s))
      else match caller_ctx c with
           | Some (Some e) =>
               Some (s <-- canceled s ;;;
                     Ret (upd_caller j (at_phase (Returned (cancelled_err (Some e)))) s))
           | _ => None
           end
  | _ => None
  end.

Definition in_go (ph : caller_phase) : bool :=
  match ph with GoEnter | GoPending | GoSelect | GoSpawn _ | GoStarted => true | _ => false end.

Definition in_await (ph : caller_phase) : bool :=
  match ph with AwaitCall | AwaitBlocked | AwaitWoken => true | _ => false end.

Definition caller_step (j : nat) (timer : bool) (s : sys) : option (outcome sys) :=
  c ← callers s !! j;
  if in_go (at_ c) then Go_step j timer c s
  else if in_await (at_ c) then Await_step j c s
  else GoRetry_step j timer c s.

(** ** Runs *)

(** The cases of the select of [run]. *)
Inductive run_choice := OnCtxDone | OnTimeout | OnResult.

(** What a receive on the channel of [delegateFn] gives: the value of the blocked
    sender, or nil from the closed channel. *)
Definition receive (d : delegate_phase) : option (option error) :=
  match d with
  | DelegateSend r => Some r
  | DelegateClosed => Some None
  | _ => None
  end.

(** The switch on the function's result. *)
Definition run_result (k : nat) (r : option error) (s : sys) : outcome sys :=
  if Is r (Some Canceled) then
    s <-- canceled s ;;; Ret (upd_run k (run_returns (join2 (Some ErrCancelledTask) r)) s)
  else
    match r with
    | None => s <-- done s ;;; Ret (upd_run k (run_returns None) s)
    | Some e => s <-- failed e s ;;; Ret (upd_run k (run_returns (Some e)) s)
    end.

(** One step of the goroutine of run [k]: [run], the store of its error, its end. *)
Definition run_step (k : nat) (ch : run_choice) (s : sys) : option (outcome sys) :=
  r ← runs s !! k;
  let x := ctx_of s (run_ctx r) in
  match run_at r with
  | RunEnter => Some (Ret (upd_run k (λ r, run_phase_to RunSelect (delegate_to DelegateStart r)) s))
  | RunSelect =>
      match ch with
      | OnCtxDone =>
          if ctx_done x then
            Some (s <-- canceled s ;;; Ret (upd_run k (run_returns (cancelled_err x)) s))
          else None
      | OnTimeout =>
          if ctx_done x then
            Some (s <-- canceled s ;;; Ret (upd_run k (run_returns (cancelled_err x)) s))
          else
            Some (s <-- failed ErrTaskTimeout s ;;; Ret (upd_run k (run_phase_to RunTimedOut) s))
      | OnResult =>
          v ← receive (delegate r);
          Some (run_result k v (upd_run k (delegate_to DelegateClosed) s))
      end
  | RunTimedOut =>
      Some (Ret (upd_run k (run_returns (join2 (Some ErrTaskTimeout) (err (task s)))) s))
  | RunReturn None => Some (Ret (upd_run k (run_phase_to RunExit) s))
  | RunReturn (Some e) =>
      Some (Ret (upd_run k (run_phase_to RunExit) (upd_task (set_err (Some e)) s)))
  | RunExit => Some (Ret (wg_Done (upd_run k (run_phase_to RunOver) s)))
  | RunOver => None
  end.

(** One step of the goroutine of [delegateFn]; [o]: how the function ends. *)
Definition delegate_step (k : nat) (o : fn_outcome) (s : sys) : option (outcome sys) :=
  r ← runs s !! k;
  match delegate r with
  | DelegateStart =>
      Some (Ret (upd_run k
        (match ctx_of s (run_ctx r) with
         | Some e => delegate_to (DelegateSend (Some e))
         | None => call_fn (cancel (task s))
         end) s))
  | DelegateCall _ =>
      if fn (task s) o then
        Some (Ret (upd_run k
          (fn_ends o match o with
                     | FnReturns e => DelegateSend e
                     | FnPanics msg => DelegateSend (Some (Text ("task panicked: " +:+ msg)))
                     | FnExits => DelegateClosed
                     end) s))
      else None
  | _ => None
  end.

(** ** The whole system *)

Inductive move :=
| MoveCaller (j : nat) (timer : bool)
| MoveRun (k : nat) (ch : run_choice)
| MoveDelegate (k : nat) (o : fn_outcome)
| MoveCancel
| MoveRunCancel (k : nat)
| MoveCallerDone (j : nat) (deadline : bool)
| MovePropagate (c : nat).

Definition caller_done (deadline : bool) (c : caller) : caller :=
  MkCaller (retrying c)
    (match caller_ctx c with
     | Some None => Some (Some (if deadline then DeadlineExceeded else Canceled))
     | x => x
     end) (rootCauseErr c) (at_ c).

(** The context of a caller, done, cancels a context derived from it. *)
Definition propagate (s : sys) (k : nat) : option sys :=
  x ← ctxs s !! k;
  c ← callers s !! parent x;
  e ← mjoin (caller_ctx c);
  Some (set_ctxs (alter (cancel_ctx e) k (ctxs s)) s).

(** The effect of a move: none when it is not enabled, [Panic] when it panics. *)
Definition act (m : move) (s : sys) : option (outcome sys) :=
  match m with
  | MoveCaller j timer => caller_step j timer s
  | MoveRun k ch => run_step k ch s
  | MoveDelegate k o => delegate_step k o s
  | MoveCancel => Some (Ret (Cancel s))
  | MoveRunCancel k =>
      r ← runs s !! k;
      match delegate r with DelegateCall c => Some (Ret (call_cancel c s)) | _ => None end
  | MoveCallerDone j deadline => Some (Ret (upd_caller j (caller_done deadline) s))
  | MovePropagate c => s ← propagate s c; Some (Ret s)
  end.

Definition step (s s' : sys) : Prop := ∃ m, act m s = Some (Ret s').

(** A list of moves, executed; [None] when one is not enabled or panics. *)
Fixpoint exec (ms : list move) (s : sys) : option sys :=
  match ms with
  | [] => Some s
  | m :: ms =>
      match act m s with Some (Ret s) => exec ms s | _ => None end
  end.

(** A call of [Go], [GoRetry] or [Await] about to start. *)
Definition call_Go (x : option ctx) : caller := MkCaller false x None GoEnter.
Definition call_GoRetry (x : option ctx) : caller := MkCaller true x None RetryEnter.
Definition call_Await : caller := MkCaller false None None AwaitCall.

(** The task of definition [d], and the calls made on it. *)
Definition initial (d : TaskDefinition) (cs : list caller) (s : sys) : Prop :=
  ∃ s0, New d = Ret s0 ∧ s = set_callers cs s0 ∧
        Forall (λ c, c = call_Await ∨ ∃ x, c = call_Go x ∨ c = call_GoRetry x) cs.

(** ** What a built definition satisfies *)

(** [Build] refuses exactly the missing fields, in its order, and names the task. *)
Lemma Build_spec b :
  let d := fold_left (λ d opt, opt d) b zeroDefinition in
  match Build b with
  | inl e =>
      (e = ErrIDNotSet ∧ ID d = 0) ∨ (e = ErrTaskFnNotSet ∧ ID d ≠ 0 ∧ TaskFn d = None) ∨
      (e = ErrMaxRetriesNotSet ∧ ID d ≠ 0 ∧ TaskFn d ≠ None ∧ MaxRetries d ≤ 0)
  | inr d' =>
      ID d' = ID d ∧ ID d' ≠ 0 ∧ TaskFn d' = TaskFn d ∧ TaskFn d' ≠ None ∧
      MaxRetries d' = MaxRetries d ∧ 0 < MaxRetries d' ∧ Name d' ≠ ""
  end.
Proof.
  cbn zeta. unfold Build. generalize (fold_left (λ d opt, opt d) b zeroDefinition). intros d.
  destruct (Z.eqb_spec (ID d) 0) as [|Hid]; [by left|].
  destruct (TaskFn d) as [f|] eqn:Hf; [|right; by left].
  destruct (Z.leb_spec (MaxRetries d) 0); [by right; right|].
  destruct (String.eqb_spec (Name d) ""); cbn; rewrite Hf; by split_and!.
Qed.
