(* ===== verification/TaskRuns.v ===== *)
(** * How a run of a task ends

    For any number of callers and any interleaving: what [run] returns is justified
    by its context, its timer or the one call of the task's function. *)
From S2P Require Import Prelude Golang Retry Task.
Local Open Scope go_scope.

(** ** Decomposition of steps *)

Lemma transition_Ret x h hook s s' :
  transition x h hook s = Ret s' → s' = log h (upd_task (set_state x) s) ∧ hook = Ret tt.
Proof. unfold transition. destruct hook as [[]|]; cbn; [|done]. by intros [= <-]. Qed.

(** One case per way a step can go, with the new state computed. *)
Ltac step_inv :=
  repeat match goal with
  | H : Some _ = Some _ |- _ => apply (inj Some) in H
  | H : Ret _ = Ret _ |- _ => injection H as H
  | H : ?x = ?y |- _ => is_var y; is_var x; subst y
  | H : _ = ?y |- _ => is_var y; subst y
  | H : None = Some _ |- _ => discriminate H
  | H : Panic = Ret _ |- _ => discriminate H
  | H : obind _ _ = Ret _ |- _ => apply obind_Ret in H as (? & ? & H)
  | H : transition _ _ _ _ = Ret _ |- _ => apply transition_Ret in H as [-> _]
  | H : mbind _ _ = Some _ |- _ => apply bind_Some in H as (? & ? & H)
  | H : (match ?x with _ => _ end) = Some _ |- _ => destruct x eqn:?
  | H : (match ?x with _ => _ end) = Ret _ |- _ => destruct x eqn:?
  end.

Ltac unfold_step H :=
  unfold act, caller_step, Go_step, Await_step, GoRetry_step, run_step, delegate_step, propagate,
    run_result, pending, canceled, started, failed, done in H.

(** ** Contexts only become done *)

Definition ctxs_le (s s' : sys) : Prop :=
  ∀ c e, ctx_of s c = Some e → ctx_of s' c = Some e.

Lemma ctx_of_alter e k c s :
  ctx_of (set_ctxs (alter (cancel_ctx e) k (ctxs s)) s) c =
  if bool_decide (k = c) then
    match ctxs s !! c with Some x => comp (cancel_ctx e x) | None => live end
  else ctx_of s c.
Proof.
  unfold ctx_of. cbn. case_bool_decide as Hkc.
  - subst. rewrite list_lookup_alter_eq. by destruct (ctxs s !! c).
  - by rewrite list_lookup_alter_ne by done.
Qed.

Lemma ctxs_le_cancel e k s : ctxs_le s (set_ctxs (alter (cancel_ctx e) k (ctxs s)) s).
Proof.
  intros c e' Hc. rewrite ctx_of_alter. case_bool_decide; [subst|done].
  unfold ctx_of in Hc. destruct (ctxs s !! c) as [x|]; [|done]. unfold cancel_ctx. by rewrite Hc.
Qed.

Lemma ctxs_le_call_cancel c s : ctxs_le s (call_cancel c s).
Proof. destruct c; [apply ctxs_le_cancel|by intros ??]. Qed.

Lemma ctxs_le_app x s : ctxs_le s (set_ctxs (ctxs s ++ [x]) s).
Proof.
  intros c e. unfold ctx_of. cbn. destruct (ctxs s !! c) as [y|] eqn:Hc; [|done].
  by rewrite (lookup_app_l_Some _ _ _ _ Hc).
Qed.

Lemma ctxs_le_same s s' : ctxs s' = ctxs s → ctxs_le s s'.
Proof. intros H c e. unfold ctx_of. by rewrite H. Qed.

(** ** The justification of a result *)

(** What [run] can return, for a run with context [x] whose call of the function, if
    any, ended with [f]. *)
Inductive run_ends (x : ctx) (called : bool) (f : option fn_outcome) : option error → Prop :=
| Ends_ok : f = Some (FnReturns None) → run_ends x called f None
| Ends_exit : f = Some FnExits → run_ends x called f None
| Ends_error e :
    f = Some (FnReturns (Some e)) → Is (Some e) (Some Canceled) = false →
    run_ends x called f (Some e)
| Ends_canceled e :
    f = Some (FnReturns (Some e)) → Is (Some e) (Some Canceled) = true →
    run_ends x called f (Some (Joined [ErrCancelledTask; e]))
| Ends_panic msg :
    f = Some (FnPanics msg) → run_ends x called f (Some (Text ("task panicked: " +:+ msg)))
| Ends_ctx e : x = Some e → run_ends x called f (Some (Joined [ErrCancelledTask; e]))
| Ends_ctx_failed e :
    x = Some e → called = false → Is (Some e) (Some Canceled) = false →
    run_ends x called f (Some e)
| Ends_timeout prev : run_ends x called f (join2 (Some ErrTaskTimeout) prev).

(** What a run that did not wait for the function returns. *)
Definition interrupted (x : ctx) (e : option error) : Prop :=
  (∃ y, x = Some y ∧ e = Some (Joined [ErrCancelledTask; y])) ∨
  (∃ prev, e = join2 (Some ErrTaskTimeout) prev).

Lemma interrupted_ends x b f e : interrupted x e → run_ends x b f e.
Proof. intros [(y & ? & ->)|(prev & ->)]; eauto using run_ends. Qed.

(** What a value blocked on the channel of [delegateFn] comes from. *)
Definition sends (x : ctx) (called : bool) (f : option fn_outcome) (v : option error) : Prop :=
  (f = Some (FnReturns v)) ∨
  (∃ msg, f = Some (FnPanics msg) ∧ v = Some (Text ("task panicked: " +:+ msg))) ∨
  (∃ e, x = Some e ∧ v = Some e ∧ called = false).

Definition selecting (r : run_state) : bool :=
  match run_at r with RunEnter | RunSelect | RunTimedOut => true | _ => false end.

(** The invariant of a run with context [x], for the function [g]. *)
Record run_inv (x : ctx) (g : RunFunc) (r : run_state) : Prop := {
  ri_called : ∀ o, fn_result r = Some o → called r = true ∧ g o = true;
  ri_call : ∀ c, delegate r = DelegateCall c → called r = true ∧ fn_result r = None;
  ri_start : delegate r = NoDelegate ∨ delegate r = DelegateStart → called r = false ∧ fn_result r = None;
  ri_enter : run_at r = RunEnter → delegate r = NoDelegate;
  ri_send : ∀ v, delegate r = DelegateSend v → sends x (called r) (fn_result r) v;
  ri_closed : delegate r = DelegateClosed → selecting r = true → fn_result r = Some FnExits ∨ run_at r = RunTimedOut;
  ri_selecting : selecting r = true → result r = None;
  ri_return : ∀ e, run_at r = RunReturn e → result r = Some e;
  ri_result : ∀ e, result r = Some e →
    interrupted x e ∨ (delegate r = DelegateClosed ∧ run_ends x (called r) (fn_result r) e);
}.

Lemma run_ends_mono x x' b f e :
  (∀ y, x = Some y → x' = Some y) → run_ends x b f e → run_ends x' b f e.
Proof. intros Hx H. destruct H; eauto using run_ends. Qed.

Lemma run_inv_mono x x' g r :
  (∀ y, x = Some y → x' = Some y) → run_inv x g r → run_inv x' g r.
Proof.
  intros Hx [? ? ? ? Hs ? ? ? Hr]. split; try done.
  - intros v Hv. destruct (Hs v Hv) as [?|[?|(e & ? & ? & ?)]]; [by left|by right; left|].
    right; right. eauto.
  - intros e He. destruct (Hr e He) as [[(y & ? & ->)|?]|[? ?]].
    + left; left. eauto.
    + left; by right.
    + right. split; [done|]. by eapply run_ends_mono.
Qed.

(** All the runs of a state satisfy their invariant. *)
Definition runs_inv (s : sys) : Prop :=
  ∀ k r, runs s !! k = Some r → run_inv (ctx_of s (run_ctx r)) (fn (task s)) r.

(** A step that leaves the runs alone. *)
Lemma runs_inv_frame s s' :
  runs s' = runs s → fn (task s') = fn (task s) → ctxs_le s s' → runs_inv s → runs_inv s'.
Proof.
  intros Hr Hf Hle Hinv k r Hk. rewrite Hr in Hk. rewrite Hf.
  eapply run_inv_mono; [|by eapply Hinv]. apply Hle.
Qed.

(** A step that changes run [k] by [g]. *)
Lemma runs_inv_alter s s' k r g :
  runs s' = alter g k (runs s) → fn (task s') = fn (task s) → ctxs s' = ctxs s →
  runs s !! k = Some r → run_ctx (g r) = run_ctx r →
  (run_inv (ctx_of s (run_ctx r)) (fn (task s)) r → run_inv (ctx_of s (run_ctx r)) (fn (task s)) (g r)) →
  runs_inv s → runs_inv s'.
Proof.
  intros Hr Hf Hc Hk Hctx Hg Hinv j r' Hj. rewrite Hr, list_lookup_alter in Hj.
  assert (∀ c, ctx_of s' c = ctx_of s c) as Heq by (intros; unfold ctx_of; by rewrite Hc).
  rewrite Heq, Hf. case_decide as Hkj; [|by eapply Hinv].
  subst j. rewrite Hk in Hj. injection Hj as <-. rewrite Hctx. eauto.
Qed.

Lemma runs_inv_spawn s c ph j :
  runs_inv s →
  runs_inv (upd_caller j ph (set_runs (runs s ++ [MkRun c RunEnter NoDelegate None false None]) s)).
Proof.
  intros Hinv k r Hk. cbn in Hk. apply lookup_app_Some in Hk as [Hk|[_ Hk]]; [by apply (Hinv k)|].
  apply list_lookup_singleton_Some in Hk as [_ <-]. by split; naive_solver.
Qed.

(** ** Preservation *)

(** The fields of the invariant after a step of the run [x]. *)
Ltac run_inv_tac x :=
  let H := fresh in
  intros H; destruct H as [Hca Hcl Hst Hen Hse Hco Hsl Hre Hrs];
  destruct x as [c at_x d_x res_x called_x f_x];
  split; unfold selecting, sends in *; cbn in *; subst; cbn in *;
  intros; simplify_eq;
  try solve [congruence | eauto 4 | intuition (congruence || eauto)
    | destruct (Hrs _ eq_refl) as [?|[? ?]]; [by left|discriminate]].

Lemma caller_step_runs_inv j timer s s' :
  caller_step j timer s = Some (Ret s') → runs_inv s → runs_inv s'.
Proof.
  intros Hs Hinv. unfold_step Hs. step_inv;
    try (by apply (runs_inv_frame s); [..|apply ctxs_le_same|]);
    try (apply (runs_inv_frame s); try done; apply ctxs_le_app).
  by apply runs_inv_spawn.
Qed.

Lemma delegate_step_runs_inv k o s s' :
  delegate_step k o s = Some (Ret s') → runs_inv s → runs_inv s'.
Proof.
  intros Hs. unfold_step Hs. step_inv;
    (eapply runs_inv_alter; [done..|eassumption|by repeat case_match|]).
  - destruct (ctx_of s (run_ctx x)) as [e|] eqn:Hx; run_inv_tac x.
  - destruct o; run_inv_tac x; split; (done || by eapply Hcl).
Qed.

(** The switch on the value the select received. *)
Lemma received_ends x b f d v canc :
  (∀ v, d = DelegateSend v → sends x b f v) →
  (d = DelegateClosed → true = true → f = Some FnExits ∨ RunSelect = RunTimedOut) →
  receive d = Some v → Is v (Some Canceled) = canc →
  run_ends x b f (if canc then join2 (Some ErrCancelledTask) v else v).
Proof.
  intros Hs Hc Hv <-. destruct d as [| | |w|]; try done; cbn in Hv; simplify_eq.
  - destruct (Hs v eq_refl) as [Hf|[(msg & Hf & ->)|(e & Hx & -> & Hb)]].
    + destruct v as [e|]; [|by apply Ends_ok]. case_match; eauto using run_ends.
    + by apply Ends_panic.
    + case_match; eauto using run_ends.
  - destruct (Hc eq_refl eq_refl); [by apply Ends_exit|done].
Qed.

Lemma run_step_runs_inv k ch s s' :
  run_step k ch s = Some (Ret s') → runs_inv s → runs_inv s'.
Proof.
  intros Hs. unfold_step Hs. step_inv;
    match goal with
    | |- _ → runs_inv (upd_run _ ?f (log _ (upd_task _ (upd_run _ ?g _)))) =>
        eapply (runs_inv_alter _ _ _ _ (λ r, f (g r)));
          [apply (list_alter_alter_eq f g)|done..|eassumption|done|]
    | _ => eapply runs_inv_alter; [done..|eassumption|done|]
    end; run_inv_tac x.
  - left; left. destruct (ctx_of s c); [by eauto|done].
  - left; left. destruct (ctx_of s c); [by eauto|done].
  - right. split; [done|]. by apply (received_ends _ _ _ _ _ true Hse Hco H0).
  - right. split; [done|]. by apply (received_ends _ _ _ _ _ false Hse Hco H0).
  - right. split; [done|]. by apply (received_ends _ _ _ _ _ false Hse Hco H0).
  - left; right. by eexists.
Qed.

Lemma call_cancel_runs_inv c s : runs_inv s → runs_inv (call_cancel c s).
Proof. apply runs_inv_frame; [by destruct c..|apply ctxs_le_call_cancel]. Qed.

Lemma step_runs_inv s s' : runs_inv s → step s s' → runs_inv s'.
Proof.
  intros Hinv [m Hs]. destruct m; cbn [act] in Hs.
  - by eapply caller_step_runs_inv.
  - by eapply run_step_runs_inv.
  - by eapply delegate_step_runs_inv.
  - simplify_eq. by apply call_cancel_runs_inv.
  - step_inv. by apply call_cancel_runs_inv.
  - simplify_eq. by apply (runs_inv_frame s); [..|apply ctxs_le_same|].
  - unfold propagate in Hs. step_inv. by apply (runs_inv_frame s); [..|apply ctxs_le_cancel|].
Qed.

Lemma reachable_runs_inv d cs s s' : initial d cs s → rtc step s s' → runs_inv s'.
Proof.
  intros (s0 & Hs0 & -> & _) Hrtc. eapply (rtc_preserves step); [apply step_runs_inv|done|].
  unfold New in Hs0. step_inv. by intros k r.
Qed.

(** C21: for any callers and any interleaving, what a run returned is justified: nil
    only if the one call of the function for this run returned nil (or left its
    goroutine); otherwise the function's own error, its panic, the error of the
    run's context, or the timeout. A function is called for a run at most once, and
    only ends the way it can. *)
Theorem run_outcome_justified d cs s s' k r e :
  initial d cs s → rtc step s s' →
  runs s' !! k = Some r → result r = Some e →
  run_ends (ctx_of s' (run_ctx r)) (called r) (fn_result r) e ∧
  (∀ o, fn_result r = Some o → called r = true ∧ fn (task s') o = true).
Proof.
  intros Hinit Hrtc Hk He. destruct (reachable_runs_inv _ _ _ _ Hinit Hrtc k r Hk) as [Hca ? ? ? ? ? ? ? Hr].
  split; [|done]. destruct (Hr e He) as [?|[_ ?]]; [by apply interrupted_ends|done].
Qed.

(** ** The predicates on the state *)

(** The states a task can be in. *)
Definition known_state (x : Z) : Prop := x ∈ [CREATED; PENDING; STARTED; DONE; FAILED; CANCELED].

Lemma step_state s s' : step s s' → state (task s') = state (task s) ∨ known_state (state (task s')).
Proof.
  intros [mv Hs]. destruct mv; unfold_step Hs; step_inv; try (by left); try (right; cbn; unfold known_state; set_solver).
  all: unfold Cancel, call_cancel in *; repeat case_match; by left.
Qed.

(** At any time exactly one of the six predicates holds of a task; [IsEnd] and
    [IsInProgress] are the disjunctions they stand for. *)
Theorem one_state_at_a_time d cs s0 s :
  initial d cs s0 → rtc step s0 s →
  let t := task s in
  Permutation (filter (λ b, b = true) [IsCreated t; IsPending t; IsStarted t; IsDone t; IsFailed t; IsCanceled t]) [true] ∧
  IsEnd t = IsDone t || IsFailed t || IsCanceled t ∧ IsInProgress t = IsStarted t || IsPending t.
Proof.
  intros Hi Hrtc. split; [|done].
  assert (known_state (state (task s))) as Hk.
  { refine (rtc_preserves step (λ s, known_state (state (task s))) _ _ _ Hrtc _).
    - intros s1 s2 H1 H2. destruct (step_state _ _ H2) as [->|]; done.
    - destruct Hi as (s1 & Hs1 & -> & _). unfold New in Hs1. step_inv. cbn. unfold known_state. set_solver. }
  unfold IsCreated, IsPending, IsStarted, IsDone, IsFailed, IsCanceled. unfold known_state in Hk.
  repeat (apply elem_of_cons in Hk as [->|Hk]; [done|]). by apply elem_of_nil in Hk.
Qed.
