(* ===== verification/TaskTermination.v ===== *)
(** * Calls on a task terminate

    Any number of callers of [Go], [GoRetry] and [Await]: a measure bounds the steps of every
    execution, and a call can always go on to its return by steps of callers, timers
    and run goroutines alone, whatever the task's function does. *)
From S2P Require Import Prelude Golang Retry Task TaskRuns.
Local Open Scope nat_scope.

(** ** The measure *)

(** Attempts [GoRetry] may still make. *)
Definition fuel (t : Task) : nat := Z.to_nat (maxRetries t - attempts t).

Definition ctx_weight (x : ctx) : nat := if ctx_done x then 0 else 1.

Definition phase_weight (n : nat) (ph : caller_phase) : nat :=
  match ph with
  | RetryEnter => 40 * n + 5
  | RetrySleep => 40 * n + 4
  | RetryCheck => 40 * n + 3
  | GoEnter => 40 * (n - 1) + 30
  | GoPending => 40 * (n - 1) + 29
  | GoSelect => 40 * (n - 1) + 28
  | GoSpawn _ => 40 * (n - 1) + 24
  | GoStarted => 40 * (n - 1) + 13
  | AwaitCall => 40 * (n - 1) + 12
  | AwaitBlocked => 40 * (n - 1) + 11
  | AwaitWoken => 40 * (n - 1) + 10
  | RetryJudge => 40 * (n - 1) + 9
  | RetryRoot => 40 * (n - 1) + 8
  | RetryCount => 40 * (n - 1) + 7
  | RetryAdd _ => 40 * (n - 1) + 6
  | Returned _ => 0
  end.

Definition caller_weight (n : nat) (c : caller) : nat :=
  phase_weight n (at_ c) + match caller_ctx c with Some x => ctx_weight x | None => 0 end.

Definition run_weight (r : run_state) : nat :=
  match run_at r with
  | RunEnter => 10 | RunSelect => 5 | RunTimedOut => 4
  | RunReturn _ => 3 | RunExit => 2 | RunOver => 0
  end +
  match delegate r with
  | DelegateStart => 3 | DelegateCall _ => 2 | DelegateSend _ => 1 | _ => 0
  end.

Definition measure (s : sys) : nat :=
  sum_list_with (caller_weight (fuel (task s))) (callers s) +
  sum_list_with run_weight (runs s) + sum_list_with (λ x, ctx_weight (comp x)) (ctxs s).

Lemma phase_weight_mono n m ph : n ≤ m → phase_weight n ph ≤ phase_weight m ph.
Proof. destruct ph; cbn; lia. Qed.

(** ** Attempts stay below the width of their counter *)

Definition pends (c : caller) : nat :=
  match at_ c with
  | RetryEnter | RetryCheck | RetrySleep | Returned _ => 0
  | _ => 1
  end.

Definition attempts_inv (m n : nat) (s : sys) : Prop :=
  (0 ≤ attempts (task s))%Z ∧ length (callers s) = n ∧
  Z.to_nat (maxRetries (task s)) = m ∧
  (attempts (task s) + Z.of_nat (sum_list_with pends (callers s)) ≤ Z.of_nat (m + n))%Z.

Lemma pends_all cs : sum_list_with pends cs ≤ length cs.
Proof.
  rewrite <- (Nat.mul_1_r (length cs)). apply sum_list_with_bound.
  intros x _. unfold pends. case_match; lia.
Qed.

(** What [caller j] moving to phase [ph] does to the sums. *)
Lemma sum_upd_caller w j c f s :
  callers s !! j = Some c →
  sum_list_with w (callers (upd_caller j f s)) + w c = sum_list_with w (callers s) + w (f c).
Proof. apply sum_list_with_alter. Qed.

Lemma attempts_inv_frame m n s s' :
  attempts (task s') = attempts (task s) → maxRetries (task s') = maxRetries (task s) →
  callers s' = callers s → attempts_inv m n s → attempts_inv m n s'.
Proof. unfold attempts_inv. by intros -> -> ->. Qed.

(** What the end of a run does to the sums: the waiters are woken. *)
Lemma sum_wake_le (w : caller → nat) s :
  (∀ c, w (wake_caller c) ≤ w c) → sum_list_with w (callers (wg_Done s)) ≤ sum_list_with w (callers s).
Proof.
  intros Hw. cbn. destruct (Await s); [|done].
  induction (callers s) as [|c cs IH]; cbn; [done|]. specialize (Hw c). lia.
Qed.

Lemma pends_wake c : pends (wake_caller c) = pends c.
Proof. unfold wake_caller. case_match eqn:Hc; try done. unfold pends. cbn. by rewrite Hc. Qed.

Lemma length_wake s : length (callers (wg_Done s)) = length (callers s).
Proof. cbn. destruct (Await s); [apply length_map|done]. Qed.

Lemma attempts_inv_wake m n s : attempts_inv m n s → attempts_inv m n (wg_Done s).
Proof.
  intros (Ha & Hl & Hm & Hs). pose proof (sum_wake_le pends s (λ c, eq_ind_r (λ x, x ≤ _) (le_n _) (pends_wake c))).
  unfold attempts_inv. rewrite length_wake. split_and!; try done. cbn [task wg_Done set_callers] in *. lia.
Qed.

(** A caller moves; [attempts] does not. *)
Lemma attempts_inv_move m n s s' j c f :
  callers s !! j = Some c →
  attempts (task s') = attempts (task s) → maxRetries (task s') = maxRetries (task s) →
  callers s' = alter f j (callers s) →
  pends (f c) ≤ pends c ∨ (attempts (task s) < maxRetries (task s))%Z →
  attempts_inv m n s → attempts_inv m n s'.
Proof.
  unfold attempts_inv. intros Hj -> -> -> Hp (Ha & Hl & Hm & Hs).
  pose proof (sum_list_with_alter pends f _ _ _ Hj).
  pose proof (pends_all (alter f j (callers s))) as Hall. rewrite length_alter in *.
  split_and!; try done. lia.
Qed.

Lemma attempts_inv_add m n s s' j c ph :
  (Z.of_nat (m + n) < 2 ^ 32)%Z →
  callers s !! j = Some c → pends c = 1 → pends (at_phase ph c) = 0 →
  attempts (task s') = wrap32u (attempts (task s) + 1) → maxRetries (task s') = maxRetries (task s) →
  callers s' = alter (at_phase ph) j (callers s) →
  attempts_inv m n s → attempts_inv m n s'.
Proof.
  unfold attempts_inv. intros Hw Hj Hc Hc' -> -> -> (Ha & Hl & Hm & Hs).
  pose proof (sum_list_with_alter pends (at_phase ph) _ _ _ Hj).
  assert (sum_list_with pends (callers s) ≥ 1) by lia.
  rewrite wrap32u_id by lia. rewrite length_alter. split_and!; try done; lia.
Qed.

Lemma caller_step_attempts m n j timer s s' :
  (Z.of_nat (m + n) < 2 ^ 32)%Z → caller_step j timer s = Some (Ret s') →
  attempts_inv m n s → attempts_inv m n s'.
Proof.
  intros Hw Hs. unfold_step Hs. step_inv;
  try (eapply attempts_inv_move; [eassumption|done..|]; cbn; unfold pends; cbn;
       repeat match goal with H : at_ _ = _ |- _ => rewrite H end; repeat case_match; boolify; lia).
  eapply attempts_inv_add; [done|eassumption|..|done|done|done];
    unfold pends; cbn; [by rewrite Heqc|by destruct (0 <? _)%Z].
Qed.

(** ** Every step that changes the state decreases the measure *)

Lemma caller_weight_mono n m c : n ≤ m → caller_weight n c ≤ caller_weight m c.
Proof. intros H. unfold caller_weight. pose proof (phase_weight_mono n m (at_ c) H). lia. Qed.

Lemma measure_caller j c f s :
  callers s !! j = Some c →
  measure (upd_caller j f s) + caller_weight (fuel (task s)) c =
  measure s + caller_weight (fuel (task s)) (f c).
Proof.
  intros Hj. unfold measure.
  pose proof (sum_list_with_alter (caller_weight (fuel (task s))) f _ _ _ Hj). cbn. lia.
Qed.

Lemma measure_run k r f s :
  runs s !! k = Some r → measure (upd_run k f s) + run_weight r = measure s + run_weight (f r).
Proof.
  intros Hk. unfold measure. pose proof (sum_list_with_alter run_weight f _ _ _ Hk). cbn. lia.
Qed.

(** A change of the task's fields that leaves the fuel alone. *)
Lemma measure_task f s : fuel (f (task s)) = fuel (task s) → measure (upd_task f s) = measure s.
Proof. unfold measure. cbn. by intros ->. Qed.

Lemma measure_log h s : measure (log h s) = measure s.
Proof. done. Qed.

Lemma wake_weight n c : caller_weight n (wake_caller c) ≤ caller_weight n c.
Proof. unfold wake_caller. case_match eqn:Hc; try done. unfold caller_weight. cbn. rewrite Hc. cbn. lia. Qed.

Lemma measure_wake s : measure (wg_Done s) ≤ measure s.
Proof.
  pose proof (sum_wake_le (caller_weight (fuel (task s))) s (wake_weight _)).
  unfold measure. cbn [task ctxs runs wg_Done set_callers] in *. lia.
Qed.

Lemma measure_spawn c s :
  measure (set_runs (runs s ++ [MkRun c RunEnter NoDelegate None false None]) s) = measure s + 10.
Proof. unfold measure. cbn. rewrite sum_list_with_app. cbn. lia. Qed.

Lemma measure_new_ctx x s :
  measure (set_ctxs (ctxs s ++ [x]) s) ≤ measure s + 1.
Proof. unfold measure. cbn. rewrite sum_list_with_app. cbn. unfold ctx_weight. case_match; lia. Qed.

(** A caller past its attempt: one attempt less for all the callers. *)
Lemma measure_add j c a ph m n s :
  (Z.of_nat (m + n) < 2 ^ 32)%Z → attempts_inv m n s →
  callers s !! j = Some c → at_ c = RetryAdd a → ph = RetrySleep ∨ ph = RetryCheck →
  measure (upd_caller j (at_phase ph)
    (upd_task (set_attempts (wrap32u (attempts (task s) + 1))) s)) < measure s.
Proof.
  intros Hw (Ha & Hl & Hm & Hs) Hj Hat Hph. unfold measure. cbn [task upd_task upd_caller set_callers callers runs ctxs].
  set (t' := set_attempts (wrap32u (attempts (task s) + 1)) (task s)).
  pose proof (sum_list_with_alter pends (at_phase ph) _ _ _ Hj) as Hp.
  assert (pends c = 1) as Hc by (unfold pends; by rewrite Hat).
  assert (pends (at_phase ph c) = 0) as Hc' by (destruct Hph as [-> | ->]; done).
  assert (fuel t' = fuel (task s) - 1) as Hf.
  { unfold t', fuel. cbn. rewrite wrap32u_id by lia. lia. }
  assert (fuel t' ≤ fuel (task s)) as Hle by lia.
  pose proof (sum_list_with_alter_le (caller_weight (fuel t')) (caller_weight (fuel (task s)))
    (at_phase ph) _ _ _ (λ y, caller_weight_mono _ _ y Hle) Hj) as Hsum.
  assert (caller_weight (fuel t') (at_phase ph c) < caller_weight (fuel (task s)) c); [|lia].
  unfold caller_weight. rewrite Hf, Hat. destruct Hph as [-> | ->]; cbn; lia.
Qed.

(** A caller moves, after a change that costs at most [k]. *)
Lemma measure_caller_lt k j c f s s1 :
  callers s !! j = Some c → callers s1 = callers s → fuel (task s1) = fuel (task s) →
  measure s1 ≤ measure s + k →
  caller_weight (fuel (task s)) (f c) + k < caller_weight (fuel (task s)) c →
  measure (upd_caller j f s1) < measure s.
Proof.
  intros Hj Hc Hf Hm Hw. rewrite <- Hc in Hj. pose proof (measure_caller j c f s1 Hj) as H.
  rewrite Hf in H. lia.
Qed.

Lemma caller_step_measure m n j timer s s' :
  (Z.of_nat (m + n) < 2 ^ 32)%Z → attempts_inv m n s →
  caller_step j timer s = Some (Ret s') → measure s' < measure s.
Proof.
  intros Hw Hinv Hs. unfold_step Hs. step_inv.
  19: { eapply measure_add; try done. case_match; auto. }
  7: eapply (measure_caller_lt 10); [eassumption|done|done|by rewrite measure_spawn|].
  5: eapply (measure_caller_lt 1); [eassumption|done|done|rewrite measure_task by done; apply measure_new_ctx|].
  all: try (eapply (measure_caller_lt 0); [eassumption|done|done|by rewrite Nat.add_0_r|]).
  all: unfold caller_weight, IsFailed; cbn;
    repeat match goal with H : at_ _ = _ |- _ => rewrite H end; cbn; boolify;
    unfold fuel; repeat case_match; cbn; lia.
Qed.

(** A run changes, and nothing else that is measured. *)
Lemma measure_run_lt g k r s s' :
  runs s !! k = Some r → callers s' = callers s → ctxs s' = ctxs s →
  fuel (task s') = fuel (task s) → runs s' = alter g k (runs s) →
  run_weight (g r) < run_weight r → measure s' < measure s.
Proof.
  unfold measure. intros Hk -> -> -> -> Hw.
  pose proof (sum_list_with_alter run_weight g _ _ _ Hk). lia.
Qed.

Lemma run_step_measure k ch s s' :
  run_step k ch s = Some (Ret s') → measure s' < measure s.
Proof.
  intros Hs. unfold_step Hs. step_inv.
  5-7: match goal with |- measure (upd_run _ ?f _) < _ =>
         eapply (measure_run_lt (λ r, f (delegate_to DelegateClosed r)));
           [eassumption|done..|apply (list_alter_alter_eq f)|] end.
  all: try (eapply Nat.le_lt_trans; [apply measure_wake|]).
  all: try (eapply measure_run_lt; [eassumption|done..|]).
  all: unfold run_weight; cbn;
    repeat match goal with H : run_at _ = _ |- _ => rewrite H end; repeat case_match; try done; lia.
Qed.

Lemma delegate_step_measure k o s s' :
  delegate_step k o s = Some (Ret s') → measure s' < measure s.
Proof.
  intros Hs. unfold_step Hs. step_inv; (eapply measure_run_lt; [eassumption|done..|]);
    unfold run_weight; repeat case_match; cbn in *; try congruence; lia.
Qed.

(** Canceling a context, or a caller's, has an effect only when it was live. *)
Lemma measure_cancel e k s :
  set_ctxs (alter (cancel_ctx e) k (ctxs s)) s ≠ s →
  measure (set_ctxs (alter (cancel_ctx e) k (ctxs s)) s) < measure s.
Proof.
  intros Hne. destruct (ctxs s !! k) as [[p [|]]|] eqn:Hk.
  2: { pose proof (sum_list_with_alter (λ x, ctx_weight (comp x)) (cancel_ctx e) _ _ _ Hk) as Hs.
       unfold measure. cbn in *. lia. }
  all: destruct Hne; destruct s; unfold set_ctxs; cbn in *; f_equal; apply list_alter_same;
    intros x Hx; rewrite Hx in Hk; by simplify_eq.
Qed.

Lemma measure_call_cancel c s : call_cancel c s ≠ s → measure (call_cancel c s) < measure s.
Proof. destruct c; [apply measure_cancel|done]. Qed.

Lemma measure_caller_done j b s :
  upd_caller j (caller_done b) s ≠ s → measure (upd_caller j (caller_done b) s) < measure s.
Proof.
  intros Hne. destruct (callers s !! j) as [[r [[|]|] e ph]|] eqn:Hj.
  2: { pose proof (measure_caller j _ (caller_done b) s Hj) as Hm. unfold caller_weight in Hm.
       cbn in *. lia. }
  all: destruct Hne; destruct s; unfold upd_caller, set_callers; cbn in *; f_equal;
    apply list_alter_same; intros x Hx; rewrite Hx in Hj; by simplify_eq.
Qed.

(** ** Bounds on executions *)

Definition effective (s s' : sys) : Prop := step s s' ∧ s' ≠ s.

Lemma effective_measure m n s s' :
  (Z.of_nat (m + n) < 2 ^ 32)%Z → attempts_inv m n s → effective s s' → measure s' < measure s.
Proof.
  intros Hw Hinv [[mv Hs] Hne]. destruct mv; cbn [act] in Hs.
  - by eapply caller_step_measure.
  - by eapply run_step_measure.
  - by eapply delegate_step_measure.
  - simplify_eq. by apply measure_call_cancel.
  - step_inv. by apply measure_call_cancel.
  - simplify_eq. by apply measure_caller_done.
  - unfold propagate in Hs. step_inv. by apply measure_cancel.
Qed.

Lemma step_attempts m n s s' :
  (Z.of_nat (m + n) < 2 ^ 32)%Z → attempts_inv m n s → step s s' → attempts_inv m n s'.
Proof.
  intros Hw Hinv [mv Hs]. destruct mv; cbn [act] in Hs.
  - by eapply caller_step_attempts.
  - unfold_step Hs. step_inv; try apply attempts_inv_wake; by apply (attempts_inv_frame m n s).
  - unfold_step Hs. step_inv; by apply (attempts_inv_frame m n s).
  - simplify_eq. unfold Cancel. destruct (cancel (task s)); by apply (attempts_inv_frame m n s).
  - step_inv. destruct cancel; by apply (attempts_inv_frame m n s).
  - simplify_eq. destruct (callers s !! j) as [c|] eqn:Hj.
    + eapply (attempts_inv_move m n s _ j c); try done. left. by destruct c.
    + apply (attempts_inv_frame m n s); try done. apply list_alter_same. cbn. by rewrite Hj.
  - unfold propagate in Hs. step_inv; by apply (attempts_inv_frame m n s).
Qed.

Lemma initial_attempts d cs s :
  initial d cs s → attempts_inv (Z.to_nat (MaxRetries d)) (length cs) s.
Proof.
  intros (s0 & Hs0 & -> & _). unfold New in Hs0. step_inv.
  pose proof (pends_all cs). split_and!; cbn; try done; lia.
Qed.

(** ** A call can always return *)

(** No hook of the task panics, and its retry strategy returns. *)
Definition safe_hooks (h : StateHooks) : Prop :=
  (∀ i, onCreated h i = Ret tt) ∧ (∀ i, onStarted h i = Ret tt) ∧ (∀ i, onDone h i = Ret tt) ∧
  (∀ i e, onFailed h i e = Ret tt) ∧ (∀ i n, onPending h i n = Ret tt) ∧
  (∀ i, onCanceled h i = Ret tt).

Definition safe_strategy (f : option Strategy) : Prop :=
  ∀ g, f = Some g → ∀ a, ∃ d, g a = Ret d.

Definition safe (d : TaskDefinition) : Prop :=
  (∀ h, Hooks d = Some h → safe_hooks h) ∧ safe_strategy (RetryStrategy d).

Definition safe_task (t : Task) : Prop := safe_hooks (hooks t) ∧ safe_strategy (retryStrategy t).

(** The options of [NewStateHooks]. *)
Inductive when_opt : StateHookOpt → Prop :=
| when_created f : when_opt (WhenCreated f)
| when_started f : when_opt (WhenStarted f)
| when_done f : when_opt (WhenDone f)
| when_failed f : when_opt (WhenFailed f)
| when_pending f : when_opt (WhenPending f)
| when_canceled f : when_opt (WhenCanceled f).

(** Hooks made of these options do not panic, whatever the functions given do. *)
Lemma NewStateHooks_safe opts : Forall when_opt opts → safe_hooks (NewStateHooks opts).
Proof.
  intros H. unfold NewStateHooks.
  assert (safe_hooks newNoopHooks) as Hsafe by done. revert Hsafe. generalize newNoopHooks.
  induction H as [|o opts Ho _ IH]; cbn; [done|]. intros h (? & ? & ? & ? & ? & ?). apply IH.
  destruct Ho; split_and!; try done; intros; cbn; unfold catchPanic; by case_match.
Qed.

(** A call past its check has a context. *)
Definition has_ctx (c : caller) : Prop :=
  match at_ c with GoPending | GoSelect => caller_ctx c ≠ None | _ => True end.

Definition live_inv (s : sys) : Prop :=
  safe_task (task s) ∧ ∀ j c, callers s !! j = Some c → has_ctx c.

Lemma live_inv_frame s s' :
  callers s' = callers s → hooks (task s') = hooks (task s) →
  retryStrategy (task s') = retryStrategy (task s) → live_inv s → live_inv s'.
Proof. unfold live_inv, safe_task. by intros -> -> ->. Qed.

Lemma live_inv_move s s' j c f :
  callers s !! j = Some c → callers s' = alter f j (callers s) →
  hooks (task s') = hooks (task s) → retryStrategy (task s') = retryStrategy (task s) →
  (has_ctx c → has_ctx (f c)) → live_inv s → live_inv s'.
Proof.
  unfold live_inv, safe_task. intros Hj -> -> -> Hf [Hs Hc]. split; [done|].
  intros i c' Hi. rewrite list_lookup_alter in Hi. case_decide; [|by eapply Hc].
  subst. rewrite Hj in Hi. cbn in Hi. simplify_eq. eauto.
Qed.

Lemma wake_lookup s j c :
  callers (wg_Done s) !! j = Some c →
  ∃ c0, callers s !! j = Some c0 ∧ (c = c0 ∨ at_ c0 = AwaitBlocked ∧ c = at_phase AwaitWoken c0).
Proof.
  cbn. destruct (Await s); [|by eauto]. rewrite list_lookup_fmap. destruct (callers s !! j) as [c0|]; [|done].
  intros [= <-]. exists c0. split; [done|]. unfold wake_caller. case_match; auto.
Qed.

Lemma live_inv_wake s : live_inv s → live_inv (wg_Done s).
Proof.
  intros [Hs Hc]. split; [done|]. intros j c Hj. apply wake_lookup in Hj as (c0 & Hj & [->|[_ ->]]); [eauto|done].
Qed.

Lemma step_live_inv s s' : live_inv s → step s s' → live_inv s'.
Proof.
  intros Hinv [mv Hs]. destruct mv; cbn [act] in Hs.
  - unfold_step Hs. step_inv; (eapply live_inv_move; [eassumption|done..| |done]);
      unfold has_ctx; cbn; repeat match goal with H : at_ _ = _ |- _ => rewrite H end;
      repeat case_match; (done || congruence).
  - unfold_step Hs. step_inv; try apply live_inv_wake; by apply (live_inv_frame s).
  - unfold_step Hs. step_inv; by apply (live_inv_frame s).
  - simplify_eq. unfold Cancel. destruct (cancel (task s)); by apply (live_inv_frame s).
  - step_inv. destruct cancel; by apply (live_inv_frame s).
  - simplify_eq. destruct (callers s !! j) as [c|] eqn:Hj.
    + eapply (live_inv_move s _ j c); try done.
      unfold has_ctx. cbn. repeat case_match; (done || congruence).
    + apply (live_inv_frame s); try done. apply list_alter_same. cbn. by rewrite Hj.
  - unfold propagate in Hs. step_inv; by apply (live_inv_frame s).
Qed.

(** ** Nobody waits on a counter at zero *)

Definition wg_inv (s : sys) : Prop :=
  Await s = true → ∀ j c, callers s !! j = Some c → at_ c ≠ AwaitBlocked.

(** A step that leaves the callers alone and adds to no finished run. *)
Lemma wg_inv_frame s s' :
  callers s' = callers s → (Await s' = true → Await s = true) → wg_inv s → wg_inv s'.
Proof. unfold wg_inv. intros -> Ha Hinv H. by apply Hinv, Ha. Qed.

Lemma wg_inv_move s s' j f :
  callers s' = alter f j (callers s) → (Await s' = true → Await s = true) →
  (∀ c, callers s !! j = Some c → at_ c ≠ AwaitBlocked → Await s' = true → at_ (f c) ≠ AwaitBlocked) →
  wg_inv s → wg_inv s'.
Proof.
  unfold wg_inv. intros -> Ha Hf Hinv Haw i c Hi. rewrite list_lookup_alter in Hi.
  case_decide; [|by eapply Hinv; eauto]. subst. destruct (callers s !! i) as [c0|] eqn:Hc; [|done].
  cbn in Hi. simplify_eq. eapply Hf; [done| |done]. by eapply Hinv; eauto.
Qed.

Lemma Await_alter_false k r f s s' :
  runs s' = alter f k (runs s) → runs s !! k = Some r → run_over (f r) = false → Await s' = false.
Proof.
  intros Hr Hk Hf. unfold Await. apply not_true_is_false. intros H.
  rewrite (forallb_lookup _ _ k (f r) H) in Hf; [done|]. by rewrite Hr, list_lookup_alter_eq, Hk.
Qed.

Lemma Await_spawn c s :
  Await (set_runs (runs s ++ [MkRun c RunEnter NoDelegate None false None]) s) = false.
Proof. unfold Await. cbn. rewrite forallb_app. cbn. by rewrite andb_false_r. Qed.

Lemma wg_inv_wake s : wg_inv (wg_Done s).
Proof.
  intros Haw j c Hj. change (Await (wg_Done s)) with (Await s) in Haw. cbn in Hj. rewrite Haw, list_lookup_fmap in Hj.
  destruct (callers s !! j) as [c0|]; [|done]. cbn in Hj. simplify_eq. unfold wake_caller.
  case_match eqn:Hc; cbn; congruence.
Qed.

Lemma step_wg_inv s s' : wg_inv s → step s s' → wg_inv s'.
Proof.
  intros Hinv [mv Hs]. destruct mv; cbn [act] in Hs.
  - unfold_step Hs. step_inv;
      try (eapply wg_inv_move; [reflexivity|done| |exact Hinv];
           intros c0 Hc0 Hne Haw; cbn; repeat case_match; congruence).
    + intros Haw. by rewrite (Await_spawn c s : Await (upd_caller _ _ _) = false) in Haw.
    + intros Haw. change (Await s = true) in Haw. congruence.
  - unfold_step Hs. step_inv; try apply wg_inv_wake; intros Haw.
    5-7: match type of Haw with Await (upd_run _ ?f _) = _ =>
           erewrite (Await_alter_false k _ (λ r, f (delegate_to DelegateClosed r)) s) in Haw;
             [done|apply (list_alter_alter_eq f)|eassumption|done] end.
    all: by erewrite (Await_alter_false k _ _ s) in Haw; [|reflexivity|eassumption|].
  - unfold_step Hs. step_inv; (apply (wg_inv_frame s); [reflexivity| |exact Hinv]);
      unfold Await; cbn; rewrite forallb_alter; try done; intros; by repeat case_match.
  - simplify_eq. unfold Cancel. by destruct (cancel (task s)).
  - step_inv. by destruct cancel.
  - simplify_eq. by eapply wg_inv_move.
  - unfold propagate in Hs. by step_inv.
Qed.

(** Moves that need neither the task's function nor anybody else. *)
Definition internal (m : move) : Prop :=
  match m with
  | MoveCaller _ _ | MoveRun _ OnTimeout => True
  | _ => False
  end.

Lemma transition_safe x h s : transition x h (Ret tt) s = Ret (log h (upd_task (set_state x) s)).
Proof. done. Qed.

(** A run that is not over goes on. *)
Lemma run_progress k r s :
  live_inv s → runs s !! k = Some r → run_at r ≠ RunOver →
  ∃ s', act (MoveRun k OnTimeout) s = Some (Ret s').
Proof.
  intros [[(? & ? & ? & Hf & ? & Hc) _] _] Hk Hat. cbn. unfold run_step. rewrite Hk. cbn.
  destruct (run_at r) as [| | |[e|]| |]; try (eexists; reflexivity); [|done].
  case_match; unfold canceled, failed; rewrite ?Hc, ?Hf; eexists; reflexivity.
Qed.

(** Which steps panic: a woken call of [Await] that finds the counter above zero. *)
Lemma act_panics mv s :
  live_inv s → act mv s = Some Panic →
  ∃ j b c, mv = MoveCaller j b ∧ callers s !! j = Some c ∧ at_ c = AwaitWoken ∧ Await s = false.
Proof.
  intros [[(_ & Hs & Hd & Hf & Hp & Hc) Hst] _] H. destruct mv; cbn [act] in H; try done.
  - unfold caller_step in H. apply bind_Some in H as (c & Hj & H).
    unfold Go_step, Await_step, GoRetry_step, pending, canceled, started, retry_delay in H.
    destruct (at_ c) eqn:Hat; cbn in H; rewrite ?Hp, ?Hs, ?Hc in H;
      try (repeat (case_match; cbn in H); discriminate).
    + destruct (Await s) eqn:Haw; [done|]. by exists j, timer, c.
    + destruct (retryStrategy (task s)) as [g|] eqn:Hg; [|done]. destruct (Hst g eq_refl a) as [d Hgd]. by rewrite Hgd in H.
  - unfold run_step, run_result, canceled, failed, done in H. apply bind_Some in H as (r & _ & H).
    rewrite ?Hd, ?Hf, ?Hc in H. cbn in H. exfalso. repeat (case_match; cbn in H; try discriminate); simplify_eq.
    all: apply bind_Some in H as (v & _ & H); rewrite ?Hd, ?Hf, ?Hc in H; cbn in H;
      repeat (case_match; rewrite ?Hd, ?Hf, ?Hc in H; cbn in H; try discriminate).
  - unfold delegate_step in H. apply bind_Some in H as (r & _ & H). repeat case_match; discriminate.
  - apply bind_Some in H as (r & _ & H). by case_match.
  - by apply bind_Some in H as (r & _ & H).
Qed.

Lemma Await_false s : Await s = false → ∃ k r, runs s !! k = Some r ∧ run_over r = false.
Proof. intros H. by apply forallb_false_lookup. Qed.

(** A call that has not returned goes on, or waits for a run that does. *)
Lemma caller_progress j c s :
  live_inv s → wg_inv s → callers s !! j = Some c → (∀ e, at_ c ≠ Returned e) →
  ∃ m s', internal m ∧ act m s = Some (Ret s').
Proof.
  intros Hinv Hwg Hj Hat. destruct (Await s) eqn:Haw.
  - exists (MoveCaller j true). cbn. unfold caller_step. rewrite Hj. cbn.
    destruct Hinv as [[(? & Hs & ? & Hf & Hp & Hc) Hst] Hctx]. specialize (Hctx _ _ Hj). unfold has_ctx in Hctx.
    specialize (Hwg Haw _ _ Hj). unfold Go_step, Await_step, GoRetry_step, pending, started, retry_delay.
    destruct (at_ c) eqn:Hph; cbn; rewrite ?Hs, ?Hp, ?Haw;
      repeat (case_match; cbn); try by eauto.
    + destruct (Hst _ eq_refl a) as [d ->]. by eauto.
    + by destruct (Hat e).
  - destruct (Await_false s Haw) as (k & r & Hk & Hr).
    destruct (run_progress k r s Hinv Hk) as [s' Hs']; [by intros Heq; unfold run_over in Hr; rewrite Heq in Hr|].
    by exists (MoveRun k OnTimeout), s'.
Qed.

Definition returned (c : caller) : bool := match at_ c with Returned _ => true | _ => false end.

Lemma internal_measure m n mv s s' :
  (Z.of_nat (m + n) < 2 ^ 32)%Z → attempts_inv m n s → internal mv →
  act mv s = Some (Ret s') → measure s' < measure s.
Proof.
  intros Hw Hinv Hi Hs. destruct mv; try done; cbn [act] in Hs.
  - by eapply caller_step_measure.
  - by eapply run_step_measure.
Qed.

(** From a state with the invariants, all the calls return. *)
Lemma calls_return m n s :
  (Z.of_nat (m + n) < 2 ^ 32)%Z → attempts_inv m n s → live_inv s → wg_inv s →
  ∃ ms s', Forall internal ms ∧ exec ms s = Some s' ∧ forallb returned (callers s') = true.
Proof.
  intros Hw. remember (measure s) as w eqn:Hm. revert s Hm.
  induction (lt_wf w) as [w _ IH]. intros s -> Hatt Hlive Hwg.
  destruct (forallb returned (callers s)) eqn:Hret; [by exists [], s|].
  apply forallb_false_lookup in Hret as (j & c & Hj & Hc).
  destruct (caller_progress j c s Hlive Hwg Hj) as (mv & s1 & Hi & Hs1).
  { intros e He. unfold returned in Hc. by rewrite He in Hc. }
  pose proof (internal_measure _ _ _ _ _ Hw Hatt Hi Hs1) as Hlt.
  assert (step s s1) as Hstep by (by exists mv).
  destruct (IH _ Hlt s1 eq_refl) as (ms & s' & Hms & Hex & Hall);
    [by eapply step_attempts|by eapply step_live_inv|by eapply step_wg_inv|].
  exists (mv :: ms), s'. split_and!; [by constructor|cbn; by rewrite Hs1|done].
Qed.

Lemma initial_measure d cs s :
  initial d cs s → measure s ≤ length cs * (40 * Z.to_nat (MaxRetries d) + 31).
Proof.
  intros (s0 & Hs0 & -> & Hcs). unfold New in Hs0. step_inv. unfold measure. cbn.
  rewrite !Nat.add_0_r. apply sum_list_with_bound. intros c Hc.
  rewrite Forall_forall in Hcs. destruct (Hcs c Hc) as [->|(x & [-> | ->])];
    unfold caller_weight, fuel, ctx_weight; cbn; repeat case_match; lia.
Qed.

Lemma initial_live d cs s : safe d → initial d cs s → live_inv s.
Proof.
  intros [Hh Hst] (s0 & Hs0 & -> & Hcs). unfold New in Hs0. step_inv. split.
  - split; cbn; [|done]. destruct (Hooks d); [by apply Hh|by apply (NewStateHooks_safe [])].
  - intros j c Hj. rewrite Forall_forall in Hcs.
    destruct (Hcs c) as [->|(x & [-> | ->])]; [by eapply list_elem_of_lookup_2|done..].
Qed.

Lemma initial_wg d cs s : initial d cs s → wg_inv s.
Proof.
  intros (s0 & _ & -> & Hcs) _ j c Hj Hat. apply list_elem_of_lookup_2 in Hj.
  rewrite Forall_forall in Hcs. by destruct (Hcs c Hj) as [->|(x & [-> | ->])].
Qed.

Lemma effective_bound m n s s' k :
  (Z.of_nat (m + n) < 2 ^ 32)%Z → attempts_inv m n s → nsteps effective k s s' →
  k + measure s' ≤ measure s.
Proof.
  intros Hw Hinv Hk. induction Hk as [|k s s1 s' H1 _ IH]; [lia|].
  pose proof (effective_measure _ _ _ _ Hw Hinv H1). destruct H1 as [Hs1 _].
  specialize (IH (step_attempts _ _ _ _ Hw Hinv Hs1)). lia.
Qed.

(** C20: calls of [Go], [GoRetry] and [Await] on a task terminate, for any number of
    callers and any interleaving: an execution has at most so many steps that change the
    state, and from every reachable state all the calls return by steps of callers
    and timers alone (the task's function need not return), as long as no hook and
    no strategy panics and the attempts fit their counter. (They can return: a waiter
    that is overtaken by a new run panics, in the schedules in which it is.) *)
Theorem calls_terminate d cs s s' :
  initial d cs s → safe d →
  (Z.of_nat (Z.to_nat (MaxRetries d) + length cs) < 2 ^ 32)%Z →
  let bound := length cs * (40 * Z.to_nat (MaxRetries d) + 31) in
  (∀ k, nsteps effective k s s' → k ≤ bound) ∧
  (rtc step s s' → ∃ ms s2, Forall internal ms ∧ exec ms s' = Some s2 ∧ forallb returned (callers s2) = true).
Proof.
  intros Hinit Hsafe Hw bound. pose proof (initial_attempts _ _ _ Hinit) as Hatt.
  pose proof (initial_measure _ _ _ Hinit). split.
  - intros k Hk. pose proof (effective_bound _ _ _ _ _ Hw Hatt Hk). unfold bound. lia.
  - intros Hrtc. apply (calls_return _ _ _ Hw).
    + eapply (rtc_preserves step); [by intros; eapply step_attempts|done|done].
    + eapply (rtc_preserves step); [by apply step_live_inv|done|by eapply initial_live].
    + eapply (rtc_preserves step); [by apply step_wg_inv|done|by eapply initial_wg].
Qed.
