(* ===== verification/TaskRetry.v ===== *)
(** * What one call of [GoRetry] does

    A task with a single caller, in [GoRetry]; the function, the timers, [Cancel] and
    the contexts are arbitrary. Attempts are sequential and bounded, each but the
    last failed, and the returned error says how the call ended. *)
From S2P Require Import Prelude Golang Retry Task TaskRuns TaskTermination.
Local Open Scope Z_scope.

(** What the loop depends on of a run: its position and its result. *)
Definition view (r : run_state) : run_phase * option (option error) := (run_at r, result r).
Definition views (s : sys) : list (run_phase * option (option error)) := view <$> runs s.

(** An attempt that is over and failed. *)
Definition failed_view (v : run_phase * option (option error)) : Prop :=
  v.1 = RunOver ∧ ∃ e, v.2 = Some (Some e).

(** What [GoRetry] returns, for a call with context [x], at most [m] attempts, the
    runs [vs] and the final state [st] of the task. *)
Inductive retry_result (x : option ctx) (m st : Z) (vs : list (run_phase * option (option error))) :
    option error → Prop :=
| Result_not_set : m ≤ 0 → vs = [] → retry_result x m st vs (Some ErrMaxRetriesNotSet)
| Result_nil_ctx : x = None → vs = [] → retry_result x m st vs (Some ErrNilCtx)
| Result_canceled e :
    x = Some (Some e) → Forall failed_view vs → st = CANCELED →
    retry_result x m st vs (Some (Joined [ErrCancelledTask; e]))
| Result_exceeded e :
    Z.of_nat (length vs) = m → Forall failed_view vs → last vs = Some (RunOver, Some (Some e)) →
    retry_result x m st vs (Some (Joined [ErrMaxRetriesExceeded; e]))
| Result_ok rs e :
    vs = rs ++ [(RunOver, Some e)] → Forall failed_view rs →
    st = DONE ∧ e = None ∨ st = CANCELED ∧ e ≠ None ∨ st = STARTED →
    retry_result x m st vs None.

(** The run in progress, with the state and the error of the task. *)
Definition tail_inv (v : run_phase * option (option error)) (st : Z) (er : option error) : Prop :=
  match v.1 with
  | RunEnter | RunSelect => st = PENDING ∨ st = STARTED
  | RunTimedOut => st = FAILED ∨ st = STARTED
  | RunReturn e =>
      v.2 = Some e ∧
      (st = DONE ∧ e = None ∨ st = CANCELED ∧ e ≠ None ∨ st = FAILED ∧ e ≠ None ∨ st = STARTED)
  | RunExit | RunOver =>
      ∃ e, v.2 = Some e ∧ (e ≠ None → er = e) ∧
      (st = DONE ∧ e = None ∨ st = CANCELED ∧ e ≠ None ∨ st = FAILED ∧ e ≠ None ∨ st = STARTED)
  end.

(** Between two attempts: nothing ran yet, or the last attempt failed with the root
    cause kept so far. *)
Definition between (c : caller) (st : Z) (vs : list (run_phase * option (option error))) : Prop :=
  vs = [] ∧ st = CREATED ∨
  st = FAILED ∧ caller_ctx c ≠ None ∧
  ∃ e, last vs = Some (RunOver, Some (Some e)) ∧ rootCauseErr c = Some e.

Definition phase_inv (m : Z) (c : caller) (t : Task) (vs : list (run_phase * option (option error))) : Prop :=
  let n := Z.of_nat (length vs) in
  let quiet := Forall failed_view vs ∧ attempts t = n in
  let running (P : run_phase * option (option error) → Prop) :=
    ∃ rs v, vs = rs ++ [v] ∧ Forall failed_view rs ∧ attempts t + 1 = n ∧ n ≤ m ∧
            caller_ctx c ≠ None ∧ tail_inv v (state t) (err t) ∧ P v in
  match at_ c with
  | RetryEnter => vs = [] ∧ attempts t = 0 ∧ state t = CREATED
  | RetryCheck | RetrySleep => quiet ∧ 0 < m ∧ n ≤ m ∧ between c (state t) vs
  | GoEnter => quiet ∧ n < m ∧ between c (state t) vs
  | GoPending => quiet ∧ n < m ∧ caller_ctx c ≠ None
  | GoSelect | GoSpawn _ => quiet ∧ n < m ∧ state t = PENDING ∧ caller_ctx c ≠ None
  | GoStarted | AwaitCall | AwaitBlocked => running (λ _, True)
  | AwaitWoken | RetryJudge => running (λ v, v.1 = RunOver)
  | RetryRoot => running (λ v, v.1 = RunOver ∧ state t = FAILED)
  | RetryCount | RetryAdd _ =>
      running (λ v, v.1 = RunOver ∧ state t = FAILED ∧
                    ∃ e, v.2 = Some (Some e) ∧ rootCauseErr c = Some e)
  | Returned e => n ≤ Z.max 0 m ∧ retry_result (caller_ctx c) m (state t) vs e
  end.

Definition retry_inv (m : Z) (s : sys) : Prop :=
  m < 2 ^ 32 ∧ maxRetries (task s) = m ∧
  ∃ c, callers s = [c] ∧ retrying c = true ∧ phase_inv m c (task s) (views s).

(** ** Preservation *)

Lemma failed_over vs : Forall failed_view vs → ∀ k r, vs !! k = Some r → r.1 = RunOver.
Proof. intros H k r Hk. by destruct (Forall_lookup_1 _ _ _ _ H Hk). Qed.

Lemma Await_over s rs v : Await s = true → views s = rs ++ [v] → v.1 = RunOver.
Proof.
  intros H Hv. assert (views s !! length rs = Some v) as Hk.
  { rewrite Hv. by rewrite lookup_app_r, Nat.sub_diag by done. }
  apply list_lookup_fmap_Some in Hk as (r & -> & Hr). apply list_elem_of_lookup_2 in Hr.
  unfold Await in H. rewrite forallb_forall in H. apply list_elem_of_In, H in Hr. unfold run_over in Hr. cbn. by case_match.
Qed.

(** The caller moves; the runs and their views stay, the task's fields may change. *)
Lemma retry_inv_move m s s' c f :
  callers s = [c] → callers s' = alter f 0%nat (callers s) → retrying (f c) = retrying c →
  maxRetries (task s') = maxRetries (task s) → runs s' = runs s →
  (m < 2 ^ 32 → phase_inv m c (task s) (views s) → phase_inv m (f c) (task s') (views s)) →
  retry_inv m s → retry_inv m s'.
Proof.
  intros Hc Hc' Hr Hm Hruns Hph (Hw & Hmax & c' & Hcs & Hret & Hinv).
  rewrite Hc in Hcs. simplify_eq. split; [done|]. split; [congruence|].
  exists (f c'). rewrite Hc', Hc. split_and!; [done|congruence|]. unfold views in *. rewrite Hruns. eauto.
Qed.

Ltac retry_phase :=
  unfold phase_inv; cbn;
  repeat match goal with H : at_ _ = _ |- _ => rewrite H end; cbn.

Lemma tail_started v st er : tail_inv v st er → tail_inv v STARTED er.
Proof. unfold tail_inv. case_match; naive_solver. Qed.

(** The attempt judged failed carries an error, the one the task holds. *)
Lemma tail_failed v er :
  tail_inv v FAILED er → v.1 = RunOver → ∃ e, v = (RunOver, Some (Some e)) ∧ er = Some e.
Proof.
  destruct v as [ph r]. unfold tail_inv. cbn. intros H ->.
  destruct H as ([e|] & -> & Her & Hst); [|naive_solver]. exists e. by rewrite Her.
Qed.

Lemma failed_snoc vs rs v e :
  vs = rs ++ [v] → Forall failed_view rs → v.1 = RunOver → v.2 = Some (Some e) →
  Forall failed_view vs ∧ 0 < Z.of_nat (length vs) ∧ last vs = Some (RunOver, Some (Some e)).
Proof.
  destruct v as [ph r]. cbn. intros -> Hrs -> ->. split_and!; [|rewrite length_app; cbn; lia|by rewrite last_snoc].
  apply Forall_app. split; [done|]. constructor; [by split; eauto|done].
Qed.

Lemma tail_not_failed v st er :
  tail_inv v st er → v.1 = RunOver → st ≠ FAILED →
  ∃ e, v = (RunOver, Some e) ∧ (st = DONE ∧ e = None ∨ st = CANCELED ∧ e ≠ None ∨ st = STARTED).
Proof.
  destruct v as [ph r]. unfold tail_inv. cbn. intros H ->. destruct H as (e & -> & _ & Hst).
  exists e. split; [done|]. naive_solver.
Qed.

Lemma spawn_retry m c k s :
  m < 2 ^ 32 → maxRetries (task s) = m → callers s = [c] → retrying c = true →
  (Forall failed_view (views s) ∧ attempts (task s) = Z.of_nat (length (views s))) →
  Z.of_nat (length (views s)) < m → state (task s) = PENDING → caller_ctx c ≠ None →
  retry_inv m (upd_caller 0 (at_phase GoStarted)
    (set_runs (runs s ++ [MkRun k RunEnter NoDelegate None false None]) s)).
Proof.
  intros Hw Hmax Hc Hret [Hf Ha] Hn Hst Hx. split; [done|]. split; [done|].
  exists (at_phase GoStarted c). cbn. rewrite Hc. split_and!; [done..|].
  unfold phase_inv, views. cbn. rewrite fmap_app, length_app. cbn.
  exists (view <$> runs s), (RunEnter, None). unfold views in *. split_and!; try done; [lia..|by left].
Qed.

Lemma caller_step_retry m j timer s s' :
  caller_step j timer s = Some (Ret s') → retry_inv m s → retry_inv m s'.
Proof.
  intros Hs Hinv. pose proof Hinv as (Hw & Hmax & c & Hc & Hret & Hph).
  assert (∀ x, callers s !! j = Some x → j = 0%nat ∧ x = c) as Hj.
  { rewrite Hc. intros x Hx. by apply list_lookup_singleton_Some in Hx as [-> ->]. }
  unfold_step Hs. step_inv;
    match goal with H : callers s !! j = Some ?x |- _ => destruct (Hj x H) as [-> ->]; clear H Hj end;
    repeat match goal with H : at_ _ = _ |- _ => unfold phase_inv in Hph; rewrite H in Hph end;
    try (eapply retry_inv_move; [done|done|done|done|done| |done]; intros _ _;
         unfold phase_inv; cbn; rewrite ?Hret; cbn); boolify.
  - destruct Hph as (_ & _ & [[_ Hst]|[Hst _]]); unfold IsInProgress in *; by rewrite Hst in *.
  - destruct Hph as (? & ? & _). split_and!; naive_solver.
  - destruct Hph as ([Hf Ha] & Hn & Hb). split; [lia|]. apply Result_nil_ctx; [done|].
    by destruct Hb as [[? _]|(_ & ? & _)].
  - naive_solver.
  - naive_solver.
  - destruct Hph as ([Hf Ha] & Hn & _). destruct c0 as [e|]; [|done]. cbn.
    split; [lia|]. by apply Result_canceled.
  - destruct Hph as (? & ? & ? & ?). by eapply spawn_retry.
  - destruct Hph as (rs & v & ? & ? & ? & ? & ? & Ht & _). apply tail_started in Ht. eauto 10.
  - destruct Hph as (rs & v & Hv & ? & ? & ? & ? & Ht & _).
    match goal with H : Await s = true |- _ => pose proof (Await_over _ _ _ H Hv) end. eauto 10.
  - done.
  - done.
  - destruct Hph as (-> & _ & _). split; [cbn; lia|]. by apply Result_not_set.
  - destruct Hph as (-> & -> & ->). cbn. split_and!; try done; [lia..|by left].
  - destruct Hph as ([Hf Ha] & ? & ? & [[Hv _]|(_ & _ & e & Hl & ->)]).
    + rewrite Hv in *. cbn in *. lia.
    + split; [lia|]. by apply Result_exceeded; [lia|..].
  - destruct Hph as ([Hf Ha] & ? & ? & Hb). split_and!; try done. lia.
  - destruct Hph as (rs & v & Hv & Hf & Ha & Hn & Hx & Ht & Ho). unfold IsFailed.
    destruct (state (task s) =? FAILED) eqn:Hst; boolify; cbn.
    + exists rs, v. by split_and!.
    + split; [lia|]. destruct (tail_not_failed _ _ _ Ht Ho) as (e & -> & ?); [done|].
      by eapply Result_ok.
  - destruct Hph as (rs & v & Hv & Hf & Ha & Hn & Hx & Ht & Ho & Hst). rewrite Hst in *.
    destruct (tail_failed _ _ Ht Ho) as (e & -> & ?). exists rs, (RunOver, Some (Some e)). split_and!; eauto.
  - done.
  - destruct Hph as (rs & v & Hv & Hf & Ha & Hn & Hx & Ht & Ho & Hst & e & He & Hroot).
    destruct (failed_snoc _ _ _ _ Hv Hf Ho He) as (? & ? & ?).
    rewrite wrap32u_id by lia. destruct (0 <? x0); unfold between; cbn; (split_and!; [done|lia..|right; eauto 10]).
  - done.
  - destruct Hph as ([Hf Ha] & ? & ? & ?). split; [lia|]. by apply Result_canceled.
Qed.

(** ** The other goroutines *)

(** The caller, the task's fields and the views stay. *)
Lemma retry_inv_frame m s s' :
  callers s' = callers s → task s' = task s → views s' = views s → retry_inv m s → retry_inv m s'.
Proof. unfold retry_inv. by intros -> -> ->. Qed.

(** The waiter is woken when its run is over. *)
Lemma retry_inv_wake m s : retry_inv m s → retry_inv m (wg_Done s).
Proof.
  intros (Hw & Hmax & c & Hc & Hret & Hph). split; [done|]. split; [done|]. cbn.
  destruct (Await s) eqn:Haw; [|by exists c]. exists (wake_caller c). rewrite Hc. split; [done|].
  unfold wake_caller, phase_inv in *. destruct (at_ c) eqn:Hat; rewrite ?Hat; try by split.
  split; [done|]. cbn. destruct Hph as (rs & v & Hv & ? & ? & ? & ? & Ht & _).
  pose proof (Await_over _ _ _ Haw Hv). eauto 10.
Qed.

(** In which phases a run may be under way. *)
Definition spawned (ph : caller_phase) : bool :=
  match ph with GoStarted | AwaitCall | AwaitBlocked => true | _ => false end.

Lemma snoc_over rs v :
  Forall failed_view rs → v.1 = RunOver → ∀ w, w ∈ rs ++ [v] → w.1 = RunOver.
Proof.
  intros Hf Hv w [Hw|Hw%list_elem_of_singleton]%elem_of_app; [|by subst].
  rewrite Forall_forall in Hf. by destruct (Hf w Hw).
Qed.

Lemma failed_all_over vs : Forall failed_view vs → ∀ w, w ∈ vs → w.1 = RunOver.
Proof. intros Hf w Hw. rewrite Forall_forall in Hf. by destruct (Hf w Hw). Qed.

(** In the other phases all the runs are over. *)
Lemma quiet_over m c t vs :
  phase_inv m c t vs → spawned (at_ c) = false → ∀ w, w ∈ vs → w.1 = RunOver.
Proof.
  unfold phase_inv. intros Hph Hsp. destruct (at_ c); try done.
  - apply failed_all_over. tauto.
  - apply failed_all_over. tauto.
  - apply failed_all_over. tauto.
  - apply failed_all_over. tauto.
  - destruct Hph as [-> _]. by intros w ?%not_elem_of_nil.
  - apply failed_all_over. tauto.
  - destruct Hph as (rs & v & -> & ? & _ & _ & _ & _ & ?). by apply snoc_over.
  - destruct Hph as (rs & v & -> & ? & _ & _ & _ & _ & ?). by apply snoc_over.
  - destruct Hph as (rs & v & -> & ? & _ & _ & _ & _ & ? & _). by apply snoc_over.
  - destruct Hph as (rs & v & -> & ? & _ & _ & _ & _ & ? & _). by apply snoc_over.
  - destruct Hph as (rs & v & -> & ? & _ & _ & _ & _ & ? & _). by apply snoc_over.
  - apply failed_all_over. tauto.
  - destruct Hph as [_ Hr].
    destruct Hr as [? ->|? ->| | |rs e0 -> Hf _]; try by apply failed_all_over.
    by apply snoc_over.
Qed.

(** A step of run [k], which is not over. *)
Lemma retry_inv_run m s s' k r g :
  runs s !! k = Some r → run_at r ≠ RunOver → runs s' = alter g k (runs s) →
  callers s' = callers s → maxRetries (task s') = maxRetries (task s) →
  attempts (task s') = attempts (task s) →
  (tail_inv (view r) (state (task s)) (err (task s)) →
   tail_inv (view (g r)) (state (task s')) (err (task s'))) →
  retry_inv m s → retry_inv m s'.
Proof.
  intros Hk Hne Hr Hc Hm Ha Ht (Hw & Hmax & c & Hcs & Hret & Hph).
  split; [done|]. split; [congruence|]. exists c. split_and!; [congruence|done|].
  assert (views s !! k = Some (view r)) as Hv by (unfold views; by rewrite list_lookup_fmap, Hk).
  assert (spawned (at_ c) = true) as Hsp.
  { destruct (spawned (at_ c)) eqn:Hsp; [done|]. destruct Hne.
    by apply (quiet_over _ _ _ _ Hph Hsp (view r)), (list_elem_of_lookup_2 _ k). }
  assert (phase_inv m c (task s') (views s') = phase_inv m c (task s') (alter (λ _, view (g r)) k (views s))) as ->.
  { f_equal. unfold views. rewrite Hr, (list_alter_const g _ _ _ Hk). by apply list_fmap_alter, Forall_true. }
  unfold phase_inv in *. destruct (at_ c); try done;
    (destruct Hph as (rs & v & Hvs & Hf & Hn & Hle & Hx & Hti & _); rewrite Hvs in *;
     apply lookup_app_Some in Hv as [Hv|[Hlen Hv]];
       [by destruct Hne, (failed_over _ Hf _ _ Hv)|];
     apply list_lookup_singleton_Some in Hv as [Hlast ->];
     exists rs, (view (g r));
     rewrite length_alter, Ha, alter_app_r_alt by lia; rewrite Hlast;
     split_and!; eauto).
Qed.

Lemma run_step_retry m k ch s s' :
  run_step k ch s = Some (Ret s') → retry_inv m s → retry_inv m s'.
Proof.
  intros Hs. unfold_step Hs. step_inv;
    match goal with H : runs s !! k = Some ?x, Hat : run_at ?x = _ |- _ =>
      assert (run_at x ≠ RunOver) by (by rewrite Hat) end.
  11: intros Hinv; apply retry_inv_wake; revert Hinv.
  5-7: match goal with |- _ → retry_inv _ (upd_run _ ?f _) =>
         eapply (retry_inv_run _ _ _ _ _ (λ r, f (delegate_to DelegateClosed r)));
           [eassumption|done|apply (list_alter_alter_eq f)|done|done|done|] end.
  all: try (eapply retry_inv_run; [eassumption|done|done|done|done|done|]).
  all: unfold tail_inv, view; cbn;
    repeat match goal with H : run_at _ = _ |- _ => rewrite H; clear H end.
  11: done.
  10: intros [? ?]; exists None; tauto.
  9: intros [? ?]; eexists; split; [eassumption|tauto].
  all: intros H'; repeat case_match; (tauto || (split; [done|]; intuition congruence)).
Qed.

Lemma delegate_step_retry m k o s s' :
  delegate_step k o s = Some (Ret s') → retry_inv m s → retry_inv m s'.
Proof.
  intros Hs. unfold_step Hs. step_inv; apply retry_inv_frame; try done;
    unfold views; cbn; rewrite (list_fmap_alter _ _ Datatypes.id); 
    try (apply list_alter_id; done); apply Forall_true; intros; by repeat case_match.
Qed.

(** The context of the caller becoming done leaves the invariant. *)
Lemma phase_inv_done m c b t vs : phase_inv m c t vs → phase_inv m (caller_done b c) t vs.
Proof.
  destruct c as [rt x root ph]. unfold caller_done. cbn. destruct x as [[|]|]; try done.
  unfold phase_inv, between. cbn. destruct ph; try done.
  1-14: naive_solver.
  intros [Hn Hr]. split; [done|]. inversion Hr; by econstructor.
Qed.

Lemma caller_done_retry m j b s :
  retry_inv m s → retry_inv m (upd_caller j (caller_done b) s).
Proof.
  intros (Hw & Hmax & c & Hc & Hret & Hph). split; [done|]. split; [done|].
  destruct j as [|j]; cbn; rewrite Hc; [|by exists c].
  exists (caller_done b c). split_and!; [done..|]. by apply phase_inv_done.
Qed.

(** At most [m] runs, all but the last of them failed. *)
Lemma phase_runs m c t vs :
  phase_inv m c t vs →
  Z.of_nat (length vs) ≤ Z.max 0 m ∧
  ∀ k v, vs !! k = Some v → (S k < length vs)%nat → failed_view v.
Proof.
  assert (∀ rs v, Forall failed_view rs →
    ∀ k w, (rs ++ [v]) !! k = Some w → (S k < length (rs ++ [v]))%nat → failed_view w) as Hsnoc.
  { intros rs v Hf k w Hk Hlt. rewrite length_app in Hlt. cbn in Hlt.
    rewrite lookup_app_l in Hk by lia. by eapply Forall_lookup_1. }
  assert (Forall failed_view vs → ∀ k v, vs !! k = Some v → (S k < length vs)%nat → failed_view v) as Hall.
  { intros Hf k v Hk _. by eapply Forall_lookup_1. }
  unfold phase_inv. destruct (at_ c); intros Hph.
  all: try (destruct Hph as (rs & v & -> & ? & ? & ? & _); split; [lia|by apply Hsnoc]).
  all: try (destruct Hph as ([? ?] & ?); split; [lia|by apply Hall]).
  - destruct Hph as (-> & _). by split; [cbn; lia|intros ? ? ?].
  - destruct Hph as [Hn Hr]. split; [done|].
    destruct Hr as [? ->|? ->| | |rs e0 -> ? _]; [done|done|by apply Hall..|by apply Hsnoc].
Qed.

Lemma step_retry m s s' : retry_inv m s → step s s' → retry_inv m s'.
Proof.
  intros Hinv [mv Hs]. destruct mv; cbn [act] in Hs.
  - by eapply caller_step_retry.
  - by eapply run_step_retry.
  - by eapply delegate_step_retry.
  - simplify_eq. unfold Cancel. destruct (cancel (task s)); by apply (retry_inv_frame m s).
  - step_inv. destruct cancel; by apply (retry_inv_frame m s).
  - simplify_eq. by apply caller_done_retry.
  - unfold propagate in Hs. step_inv; by apply (retry_inv_frame m s).
Qed.

Lemma initial_retry d x s :
  MaxRetries d < 2 ^ 32 → initial d [call_GoRetry x] s → retry_inv (MaxRetries d) s.
Proof.
  intros Hw (s0 & Hs0 & -> & _). unfold New in Hs0. step_inv. split; [done|]. split; [done|].
  by exists (call_GoRetry x).
Qed.

(** C9: one call of [GoRetry] on a fresh task, whatever the function, the timers,
    [Cancel] and the contexts do: the runs are sequential (each but the last is over),
    each but the last failed, and there are at most [MaxRetries]. When it has returned,
    every run is over and the error is: [ErrMaxRetriesNotSet] or [ErrNilCtx] and
    nothing ran; the context's error; [ErrMaxRetriesExceeded] with the error of the
    last of exactly [MaxRetries] failed attempts; or nil, when the last attempt left
    the task done, canceled, or in state [STARTED]. *)
Theorem retry_attempts d x s s' :
  MaxRetries d < 2 ^ 32 → initial d [call_GoRetry x] s → rtc step s s' →
  ∃ c, callers s' = [c] ∧
  Z.of_nat (length (runs s')) ≤ Z.max 0 (MaxRetries d) ∧
  (∀ k r, runs s' !! k = Some r → (S k < length (runs s'))%nat → failed_view (view r)) ∧
  (∀ e, at_ c = Returned e →
     retry_result (caller_ctx c) (MaxRetries d) (state (task s')) (views s') e ∧
     ∀ k r, runs s' !! k = Some r → run_at r = RunOver).
Proof.
  intros Hw Hinit Hrtc. apply initial_retry in Hinit; [|done].
  apply (rtc_preserves step (retry_inv (MaxRetries d)) (step_retry _) _ _ Hrtc) in Hinit as (_ & _ & c & Hc & _ & Hph).
  exists c. split; [done|]. pose proof (phase_runs _ _ _ _ Hph) as [Hn Hf].
  unfold views in Hn, Hf. rewrite length_fmap in Hn, Hf. split; [done|]. split.
  - intros k r Hk Hlt. apply (Hf k); [|done]. by rewrite list_lookup_fmap, Hk.
  - intros e He. split; [unfold phase_inv in Hph; rewrite He in Hph; tauto|].
    intros k r Hk. change (run_at r) with (view r).1. apply (quiet_over _ _ _ _ Hph); [by rewrite He|].
    apply (list_elem_of_lookup_2 _ k). unfold views. by rewrite list_lookup_fmap, Hk.
Qed.

(** ** Runs at concrete tasks *)

(** A function that always returns the error [boom]. *)
Definition boom : error := Sentinel "boom".
Definition failing : RunFunc := λ o,
  match o with FnReturns (Some (Sentinel n)) => String.eqb n "boom" | _ => false end.

Definition job : TaskDefinition := MkDefinition 7 "job" (Some failing) None 0 0 0 2 None.
Definition job_task : Task :=
  MkTask 7 failing (NewStateHooks []) None defaultTimeout 0 0 2 CREATED 0 None None.
Definition job_start : sys :=
  MkSys job_task [] [call_GoRetry (Some live)] [] [OnCreated].

Lemma job_initial : initial job [call_GoRetry (Some live)] job_start.
Proof. eexists. split; [reflexivity|]. split; [reflexivity|]. constructor; [right; eauto|constructor]. Qed.

Lemma exec_rtc ms s s' : exec ms s = Some s' → rtc step s s'.
Proof.
  revert s. induction ms as [|m ms IH]; cbn; intros s H; [by simplify_eq|].
  destruct (act m s) as [[s1|]|] eqn:Hm; try done. eapply rtc_l; [by exists m|by apply IH].
Qed.

(** [k] moves of the caller. *)
Definition caller_moves (k : nat) : list move := replicate k (MoveCaller 0 true).

(** The whole of run [k], its function failing. *)
Definition run_moves (k : nat) : list move :=
  [MoveRun k OnTimeout; MoveDelegate k (FnReturns (Some boom)); MoveDelegate k (FnReturns (Some boom));
   MoveRun k OnResult; MoveRun k OnTimeout; MoveRun k OnTimeout].

(** Two failed attempts, each run starting after the state became [STARTED]. *)
Definition exhausted_moves : list move :=
  caller_moves 7 ++ run_moves 0 ++ caller_moves 5 ++
  caller_moves 6 ++ run_moves 1 ++ caller_moves 6.

Example exhausted :
  match exec exhausted_moves job_start with
  | Some s => (at_ <$> callers s) = [Returned (Some (Joined [ErrMaxRetriesExceeded; boom]))] ∧
              state (task s) = FAILED ∧ attempts (task s) = 2
  | None => False
  end.
Proof. vm_compute. done. Qed.

(** A run that ends before its caller stores [STARTED]. *)
Definition overtaken_moves : list move := caller_moves 6 ++ run_moves 0 ++ caller_moves 3.

(** ** The task after its calls *)

(** All the calls have returned and all the runs are over. *)
Definition settled (s : sys) : Prop := forallb returned (callers s) = true ∧ Await s = true.

(** Nothing changes the state of the task any more. *)
Lemma settled_step s s' : settled s → step s s' → settled s' ∧ task s' = task s.
Proof.
  intros [Hc Hr] [mv Hs]. destruct mv; cbn [act] in Hs.
  - unfold caller_step in Hs. apply bind_Some in Hs as (c & Hj & Hs).
    pose proof (forallb_lookup _ _ _ _ Hc Hj) as Hret. unfold returned in Hret.
    destruct (at_ c) eqn:Hat; try done. unfold GoRetry_step in Hs. cbn in Hs. by rewrite Hat in Hs.
  - unfold run_step in Hs. apply bind_Some in Hs as (r & Hk & Hs).
    pose proof (forallb_lookup _ _ _ _ Hr Hk) as Hover. unfold run_over in Hover.
    by destruct (run_at r).
  - unfold_step Hs. step_inv; (split; [split; [done|]|done]); unfold Await; cbn;
      rewrite forallb_alter; try done; intros; by repeat case_match.
  - simplify_eq. unfold Cancel. by destruct (cancel (task s)).
  - step_inv. by destruct cancel.
  - simplify_eq. split; [split; [|done]|done]. cbn. by rewrite forallb_alter.
  - unfold propagate in Hs. by step_inv.
Qed.

Lemma settled_stays s s' : settled s → rtc step s s' → task s' = task s.
Proof.
  intros Hs Hrtc.
  assert (settled s' ∧ task s' = task s) as [_ ?]; [|done].
  apply (rtc_preserves step (λ s1, settled s1 ∧ task s1 = task s)) with s; [|done|done].
  intros s1 s2 [H1 <-] H12. by apply settled_step.
Qed.

(** C34: a run may end before its caller stores [STARTED]. Then [GoRetry] returns nil
    after one attempt of two although the function failed, the task stays in state
    [STARTED] for ever, and every later [Go] is refused with [ErrTaskInProgress]. *)
Theorem overtaken_failure_is_hidden :
  ∃ s r, exec overtaken_moves job_start = Some s ∧ rtc step job_start s ∧
    (at_ <$> callers s) = [Returned None] ∧
    runs s = [r] ∧ fn_result r = Some (FnReturns (Some boom)) ∧ result r = Some (Some boom) ∧
    ∀ s' j timer x, rtc step s s' →
      state (task s') = STARTED ∧ err (task s') = Some boom ∧
      Go_step j timer (call_Go (Some x)) s' =
      Some (Ret (go_returns j (Some ErrTaskInProgress) (call_Go (Some x)) s')).
Proof.
  destruct (exec overtaken_moves job_start) as [s|] eqn:Hex; [|by vm_compute in Hex].
  pose proof (exec_rtc _ _ _ Hex) as Hrtc.
  vm_compute in Hex. apply (inj Some) in Hex. subst s.
  eexists _, _. split; [reflexivity|]. split; [exact Hrtc|]. split_and!; try reflexivity.
  intros s' j timer x Hs'. apply settled_stays in Hs'; [|done].
  unfold Go_step. cbn. rewrite Hs'. done.
Qed.

Definition exhausted_state : sys := Eval cbv in
  match exec exhausted_moves job_start with Some s => s | None => job_start end.

Lemma exhausted_rtc : rtc step job_start exhausted_state.
Proof. apply (exec_rtc exhausted_moves). vm_compute. reflexivity. Qed.

Lemma retry_attempts_witness :
  ∃ c, callers exhausted_state = [c] ∧ at_ c = Returned (Some (Joined [ErrMaxRetriesExceeded; boom])) ∧
  (∀ e, at_ c = Returned e →
     retry_result (caller_ctx c) 2 (state (task exhausted_state)) (views exhausted_state) e) ∧
  Z.of_nat (length (runs exhausted_state)) = 2.
Proof.
  destruct (retry_attempts job (Some live) job_start exhausted_state) as (c & Hc & Hn & Hf & He);
    [done|apply job_initial|apply exhausted_rtc|].
  exists c. split; [done|]. split; [by vm_compute in Hc; simplify_eq|]. split; [|done].
  intros e Hat. by destruct (He e Hat).
Defined.

Lemma run_outcome_justified_witness :
  ∃ r, runs exhausted_state !! 1%nat = Some r ∧ result r = Some (Some boom) ∧
  run_ends (ctx_of exhausted_state (run_ctx r)) (called r) (fn_result r) (Some boom).
Proof.
  destruct (runs exhausted_state !! 1%nat) as [r|] eqn:Hr; [|by vm_compute in Hr].
  assert (result r = Some (Some boom)) as Hres by (vm_compute in Hr; by simplify_eq).
  exists r. split; [done|]. split; [done|].
  by destruct (run_outcome_justified job [call_GoRetry (Some live)] job_start exhausted_state 1 r _
    job_initial exhausted_rtc Hr Hres).
Defined.

Lemma calls_terminate_witness :
  ∃ ms s, Forall internal ms ∧ exec ms job_start = Some s ∧ forallb returned (callers s) = true.
Proof.
  destruct (calls_terminate job [call_GoRetry (Some live)] job_start job_start) as [_ H];
    [apply job_initial|split; [done|by intros ?]|done|].
  by apply H.
Defined.

(** Two calls of [Go] pass the check of [IsInProgress] before either stores [PENDING]:
    both run the function, at the same time. *)
Example two_callers_run_twice :
  ∃ ms s,
    exec ms (set_callers [call_Go (Some live); call_Go (Some live)] job_start) = Some s ∧
    (at_ <$> callers s) = [Returned None; Returned None] ∧
    (delegate <$> runs s) = [DelegateCall (Some 1%nat); DelegateCall (Some 1%nat)].
Proof.
  exists ([MoveCaller 0 true; MoveCaller 1 true] ++
    replicate 4 (MoveCaller 0 true) ++ replicate 4 (MoveCaller 1 true) ++
    [MoveRun 0 OnTimeout; MoveDelegate 0 FnExits; MoveRun 1 OnTimeout; MoveDelegate 1 FnExits]).
  eexists. split; [vm_compute; reflexivity|]. by split.
Qed.

(** [GoRetry] and another goroutine wait for the first attempt; both are woken, [GoRetry]
    starts the second attempt first, and the other call of [Await] panics. *)
Example await_reuse_panics :
  ∃ s, exec (caller_moves 8 ++ [MoveCaller 1 true] ++ run_moves 0 ++ caller_moves 10)
      (set_callers [call_GoRetry (Some live); call_Await] job_start) = Some s ∧
    (at_ <$> callers s) = [GoStarted; AwaitWoken] ∧ act (MoveCaller 1 true) s = Some Panic.
Proof. eexists. split; [vm_compute; reflexivity|]. by split_and!. Qed.
