(* ===== verification/TaskGroup.v ===== *)
(** * Task groups ([src/pkg/taskgroup/taskgroup.go])

    Any number of calls of [Submit], [Stop] and [Wait], each a sequence of steps, over
    the group's semaphore, its list of tasks and the tasks themselves: task [k] is the
    system of [Task] with the one call of [Go] that [Submit] makes. *)
From S2P Require Import Prelude Golang Retry Semaphore Task.
Local Open Scope Z_scope.
Local Open Scope go_scope.

Definition ErrTaskGroupStopped : error := Sentinel "taskgroup.ErrTaskGroupStopped".
Definition ErrTaskGroupMaxWorkers : error := Sentinel "taskgroup.ErrTaskGroupMaxWorkers".

(** The positions of [Submit]: before each shared access, and returned. In
    [SubmitGo] the call of [t.Go] is a caller of the task's system. *)
Inductive submit_phase :=
| SubmitCheck
| SubmitAcquire
| SubmitNew
| SubmitGo
| SubmitSpawn
| SubmitReturned (e : option error).

(** The goroutine that gives the slot back: in [t.Await], before [sem.Release], before
    [releaseWg.Done] (the end of [releaseWg.Go]), and gone. *)
Inductive release_phase := NoReleaser | ReleaseAwait | ReleaseSlot | ReleaseWg | ReleaseDone.

(** A call of [Submit], with the task it makes. *)
Record submission := MkSubmission {
  def : TaskDefinition;
  sub_ctx : ctx;
  sub_at : submit_phase;
  sub_task : option sys;
  releaser : release_phase;
}.

(** The goroutine of [Wait] in [releaseWg.Wait]: before the call, waiting, woken by the
    counter at zero, and gone. *)
Inductive rel_wait := RelCall | RelBlocked | RelWoken | RelOver.

(** A call of [Stop] or [Wait] and its copy of the tasks; [Wait] has a goroutine for
    each task copied, [awaited] being those still there, and one for [releaseWg]. *)
Inductive stop_phase :=
| StopCopy
| StopEach (ts : list nat)
| StopCancel (k : nat) (ts : list nat)
| StopReturned.
Inductive wait_phase :=
| WaitCopy
| WaitAll (tasksCopy awaited : list nat) (releases : rel_wait)
| WaitReturned (tasksCopy : list nat).

(** What of a [Wait] goes on: the goroutine of an awaited task, that of [releaseWg],
    or [wg.Wait] when both kinds are over. *)
Inductive wait_part := WaitTask (n : nat) | WaitReleases | WaitGroup.

(** [tasks] holds the indices, in [subs], of the tasks appended so far. *)
Record group := MkGroup {
  sem : Semaphore;
  tasks : list nat;
  stopped : bool;
  subs : list submission;
  stops : list stop_phase;
  waits : list wait_phase;
}.

Definition New (maxWorkers : Z) : outcome (error + group) :=
  if maxWorkers <=? 0 then Ret (inl ErrTaskGroupMaxWorkers)
  else s <-- NewSemaphore maxWorkers ;;; Ret (inr (MkGroup s [] false [] [] [])).

Definition set_sem (x : Semaphore) (g : group) : group :=
  MkGroup x (tasks g) (stopped g) (subs g) (stops g) (waits g).
Definition set_tasks (x : list nat) (g : group) : group :=
  MkGroup (sem g) x (stopped g) (subs g) (stops g) (waits g).
Definition set_stopped (x : bool) (g : group) : group :=
  MkGroup (sem g) (tasks g) x (subs g) (stops g) (waits g).
Definition set_subs (x : list submission) (g : group) : group :=
  MkGroup (sem g) (tasks g) (stopped g) x (stops g) (waits g).
Definition set_stops (x : list stop_phase) (g : group) : group :=
  MkGroup (sem g) (tasks g) (stopped g) (subs g) x (waits g).
Definition set_waits (x : list wait_phase) (g : group) : group :=
  MkGroup (sem g) (tasks g) (stopped g) (subs g) (stops g) x.

Definition upd_sub (k : nat) (f : submission → submission) (g : group) : group :=
  set_subs (alter f k (subs g)) g.
Definition sub_to (ph : submit_phase) (x : submission) : submission :=
  MkSubmission (def x) (sub_ctx x) ph (sub_task x) (releaser x).
Definition set_task (s : sys) (x : submission) : submission :=
  MkSubmission (def x) (sub_ctx x) (sub_at x) (Some s) (releaser x).
Definition releaser_to (ph : release_phase) (x : submission) : submission :=
  MkSubmission (def x) (sub_ctx x) (sub_at x) (sub_task x) ph.
Definition sub_ctx_done (e : error) (x : submission) : submission :=
  MkSubmission (def x) (match sub_ctx x with Some e' => Some e' | None => Some e end)
    (sub_at x) (sub_task x) (releaser x).

(** The call of [t.Go], where it is. *)
Definition go_phase (s : sys) : caller_phase :=
  match callers s with c :: _ => at_ c | [] => GoEnter end.

(** One step of [Submit] number [k]; [i] picks the case of a select. *)
Definition Submit_step (k i : nat) (g : group) : option (outcome group) :=
  x ← subs g !! k;
  match sub_at x with
  | SubmitCheck =>
      Some (Ret (upd_sub k (sub_to (if stopped g then SubmitReturned (Some ErrTaskGroupStopped)
                                    else SubmitAcquire)) g))
  | SubmitAcquire =>
      r ← AcquireWithContext (sub_ctx x) (sem g) !! i;
      let g := set_sem r.2 g in
      Some (Ret (upd_sub k (sub_to (match r.1 with
                                    | Some e => SubmitReturned (Some e)
                                    | None => SubmitNew
                                    end)) g))
  | SubmitNew =>
      Some (s <-- Task.New (def x) ;;;
            Ret (upd_sub k (λ y, sub_to SubmitGo
              (set_task (set_callers [call_Go (Some (sub_ctx x))] s) y)) g))
  | SubmitGo =>
      s ← sub_task x;
      match go_phase s with
      | Returned (Some e) =>
          r ← head (Release (sem g));
          Some (Ret (upd_sub k (sub_to (SubmitReturned (Some e))) (set_sem r.2 g)))
      | Returned None =>
          Some (Ret (upd_sub k (sub_to SubmitSpawn) (set_tasks (tasks g ++ [k]) g)))
      | _ =>
          o ← caller_step 0 (i =? 0)%nat s;
          Some (s' <-- o ;;; Ret (upd_sub k (set_task s') g))
      end
  | SubmitSpawn =>
      Some (Ret (upd_sub k (λ y, sub_to (SubmitReturned None) (releaser_to ReleaseAwait y)) g))
  | SubmitReturned _ => None
  end.

(** The counter of [releaseWg] is that of the goroutines not [released]; its end,
    [releaseWg.Done], wakes the waiters when none is left. *)
Definition released (x : submission) : bool :=
  match releaser x with NoReleaser | ReleaseDone => true | _ => false end.
Definition wake_wait (ph : wait_phase) : wait_phase :=
  match ph with WaitAll ts awaited RelBlocked => WaitAll ts awaited RelWoken | _ => ph end.
Definition releaseWg_Done (k : nat) (g : group) : group :=
  let g := upd_sub k (releaser_to ReleaseDone) g in
  set_waits (if forallb released (subs g) then map wake_wait (waits g) else waits g) g.

(** One step of the goroutine of [releaseWg] of submission [k]. *)
Definition release_step (k : nat) (g : group) : option (outcome group) :=
  x ← subs g !! k;
  match releaser x with
  | ReleaseAwait =>
      s ← sub_task x;
      if Await s then Some (Ret (upd_sub k (releaser_to ReleaseSlot) g)) else None
  | ReleaseSlot =>
      r ← head (Release (sem g));
      Some (Ret (upd_sub k (releaser_to ReleaseWg) (set_sem r.2 g)))
  | ReleaseWg => Some (Ret (releaseWg_Done k g))
  | _ => None
  end.

(** One step of [Stop] number [i]. *)
Definition Stop_step (i : nat) (g : group) : option (outcome group) :=
  ph ← stops g !! i;
  let to (ph : stop_phase) (g : group) := set_stops (<[i := ph]> (stops g)) g in
  match ph with
  | StopCopy => Some (Ret (to (StopEach (tasks g)) g))
  | StopEach [] => Some (Ret (to StopReturned (set_stopped true g)))
  | StopEach (k :: ts) =>
      s ← subs g !! k ≫= sub_task;
      Some (Ret (to (if IsInProgress (task s) then StopCancel k ts else StopEach ts) g))
  | StopCancel k ts =>
      s ← subs g !! k ≫= sub_task;
      Some (Ret (to (StopEach ts) (upd_sub k (set_task (Cancel s)) g)))
  | StopReturned => None
  end.

Definition sub_over (x : submission) : bool :=
  match sub_task x with Some s => Await s | None => true end.

(** One step of [Wait] number [i]. A waiter of [releaseWg] that is woken and finds the
    counter above zero again panics: the WaitGroup was reused before its call returned. *)
Definition Wait_step (i : nat) (p : wait_part) (g : group) : option (outcome group) :=
  ph ← waits g !! i;
  let to (ph : wait_phase) := set_waits (<[i := ph]> (waits g)) g in
  match ph with
  | WaitCopy => Some (Ret (to (WaitAll (tasks g) (tasks g) RelCall)))
  | WaitAll ts awaited rel =>
      match p with
      | WaitTask n =>
          k ← awaited !! n;
          x ← subs g !! k;
          if sub_over x then Some (Ret (to (WaitAll ts (delete n awaited) rel))) else None
      | WaitReleases =>
          let zero := forallb released (subs g) in
          match rel with
          | RelCall => Some (Ret (to (WaitAll ts awaited (if zero then RelOver else RelBlocked))))
          | RelWoken => if zero then Some (Ret (to (WaitAll ts awaited RelOver))) else Some Panic
          | _ => None
          end
      | WaitGroup =>
          match awaited, rel with
          | [], RelOver => Some (Ret (to (WaitReturned ts)))
          | _, _ => None
          end
      end
  | WaitReturned _ => None
  end.

(** What happens inside the task of submission [k], other than its call of [Go]. *)
Definition task_step (k : nat) (m : move) (g : group) : option (outcome group) :=
  match m with
  | MoveCaller _ _ => None
  | _ =>
      s ← subs g !! k ≫= sub_task;
      o ← act m s;
      Some (s' <-- o ;;; Ret (upd_sub k (set_task s') g))
  end.

(** A call of [Submit]. *)
Definition new_submission (d : TaskDefinition) (x : ctx) (g : group) : group :=
  set_subs (subs g ++ [MkSubmission d x SubmitCheck None NoReleaser]) g.

Inductive gmove :=
| CallSubmit (d : TaskDefinition) (x : ctx)
| MoveSubmit (k i : nat)
| MoveRelease (k : nat)
| MoveTask (k : nat) (m : move)
| MoveCtxDone (k : nat) (deadline : bool)
| CallStop
| MoveStop (i : nat)
| CallWait
| MoveWait (i : nat) (p : wait_part).

Definition gact (m : gmove) (g : group) : option (outcome group) :=
  match m with
  | CallSubmit d x => Some (Ret (new_submission d x g))
  | MoveSubmit k i => Submit_step k i g
  | MoveRelease k => release_step k g
  | MoveTask k m => task_step k m g
  | MoveCtxDone k deadline =>
      Some (Ret (upd_sub k (sub_ctx_done (if deadline then DeadlineExceeded else Canceled)) g))
  | CallStop => Some (Ret (set_stops (stops g ++ [StopCopy]) g))
  | MoveStop i => Stop_step i g
  | CallWait => Some (Ret (set_waits (waits g ++ [WaitCopy]) g))
  | MoveWait i p => Wait_step i p g
  end.

Definition gstep (g g' : group) : Prop := ∃ m, gact m g = Some (Ret g').

Fixpoint gexec (ms : list gmove) (g : group) : option group :=
  match ms with
  | [] => Some g
  | m :: ms => match gact m g with Some (Ret g) => gexec ms g | _ => None end
  end.

(** ** Statistics *)

Definition MaxWorkers (g : group) : Z := Limit (sem g).
Definition ActiveWorkers (g : group) : Z := Acquired (sem g).
Definition AvailableWorkers (g : group) : Z := Available (sem g).

Record Stats := MkStats {
  Total : Z; Created : Z; Pending : Z; Started : Z; Done : Z; Failed : Z; Canceled_ : Z;
  Stats_MaxWorkers : Z; Stats_ActiveWorkers : Z; Stopped : bool;
}.

(** The switch of [Stats] on the state of one task. *)
Definition count_state (s : Stats) (st : Z) : Stats :=
  match s with
  | MkStats t cr p sta d f ca mw aw b =>
      if st =? CREATED then MkStats t (cr + 1) p sta d f ca mw aw b
      else if st =? PENDING then MkStats t cr (p + 1) sta d f ca mw aw b
      else if st =? STARTED then MkStats t cr p (sta + 1) d f ca mw aw b
      else if st =? DONE then MkStats t cr p sta (d + 1) f ca mw aw b
      else if st =? FAILED then MkStats t cr p sta d (f + 1) ca mw aw b
      else if st =? CANCELED then MkStats t cr p sta d f (ca + 1) mw aw b
      else s
  end.

(** The states of the group's tasks, in order. *)
Definition states (g : group) : list Z :=
  omap (λ k, x ← subs g !! k; s ← sub_task x; Some (state (task s))) (tasks g).

Definition stats (g : group) : Stats :=
  fold_left count_state (states g)
    (MkStats (Z.of_nat (length (tasks g))) 0 0 0 0 0 0 (MaxWorkers g) (ActiveWorkers g) (stopped g)).
