(* ===== verification/TaskGroupInvariant.v ===== *)
(** * The invariant of a task group

    Over every interleaving: each submission and its task, the slots held, what becomes
    of submissions and tasks over time, and the steps that can panic. *)
From S2P Require Import Prelude Golang Retry Semaphore Task TaskRuns TaskTermination TaskRetry TaskGroup.
Local Open Scope Z_scope.

(** ** One task of the group *)

(** A task with the one call of [Go]: the runs its phase allows. *)
Definition go_inv (s : sys) : Prop :=
  CREATED ≤ state (task s) ≤ CANCELED ∧
  ∃ c, callers s = [c] ∧ retrying c = false ∧
  match at_ c with
  | GoEnter | GoPending | GoSelect | GoSpawn _ | Returned (Some _) => runs s = []
  | GoStarted | Returned None => length (runs s) = 1%nat
  | _ => False
  end.

(** What a step of another goroutine keeps. *)
Lemma go_inv_frame s s' :
  callers s' = callers s → length (runs s') = length (runs s) →
  CREATED ≤ state (task s') ≤ CANCELED → go_inv s → go_inv s'.
Proof.
  intros Hc Hr Hst (_ & c & Hcs & Hret & Hph). split; [done|]. exists c. rewrite Hc. split_and!; try done.
  destruct (at_ c) as [| | | | | | | | | | | | | | |[|]]; try done; try congruence;
    rewrite Hph in Hr; by apply nil_length_inv in Hr.
Qed.

Lemma go_inv_move s s' f c :
  callers s = [c] → callers s' = alter f 0%nat (callers s) → retrying (f c) = false →
  CREATED ≤ state (task s') ≤ CANCELED →
  match at_ (f c) with
  | GoEnter | GoPending | GoSelect | GoSpawn _ | Returned (Some _) => runs s' = []
  | GoStarted | Returned None => length (runs s') = 1%nat
  | _ => False
  end → go_inv s'.
Proof.
  intros Hc Hc' Hr Hst Hph. split; [done|]. exists (f c). by rewrite Hc', Hc.
Qed.

Lemma go_inv_caller j b s s' : caller_step j b s = Some (Ret s') → go_inv s → go_inv s'.
Proof.
  intros Hs (Hst & c & Hc & Hret & Hph).
  assert (∀ x, callers s !! j = Some x → j = 0%nat ∧ x = c) as Hj.
  { rewrite Hc. intros x Hx. by apply list_lookup_singleton_Some in Hx as [-> ->]. }
  unfold_step Hs. unfold go_returns in Hs. step_inv;
    match goal with H : callers s !! j = Some ?x |- _ => destruct (Hj x H) as [-> ->]; clear H Hj end;
    repeat match goal with H : at_ _ = _ |- _ => rewrite H in Hph end; try done;
    (eapply go_inv_move; [done|done|done|cbn; try done|cbn; rewrite ?Hret; cbn; rewrite ?Hph; try done]).
  by destruct c0.
Qed.

(** No caller of the task waits: the end of its run wakes nobody. *)
Lemma go_wake s : go_inv s → wg_Done s = s.
Proof.
  intros (_ & c & Hc & _ & Hph). unfold wg_Done.
  replace (if Await s then map wake_caller (callers s) else callers s) with (callers s); [by destruct s|].
  destruct (Await s); [|done]. rewrite Hc. cbn. unfold wake_caller. by destruct (at_ c).
Qed.

Lemma go_inv_wake s : go_inv s → go_inv (wg_Done s).
Proof. intros H. by rewrite go_wake. Qed.

Lemma go_inv_run k ch s s' : run_step k ch s = Some (Ret s') → go_inv s → go_inv s'.
Proof.
  intros Hs Hinv. pose proof Hinv as [Hst _]. unfold_step Hs. step_inv; try apply go_inv_wake;
    (apply (go_inv_frame s); [done|cbn; by rewrite ?length_alter|cbn; unfold CREATED, CANCELED, FAILED, DONE in *; lia|done]).
Qed.

Lemma go_inv_step s s' : go_inv s → step s s' → go_inv s'.
Proof.
  intros Hinv [mv Hs]. pose proof Hinv as [Hst _]. destruct mv; cbn [act] in Hs.
  - by eapply go_inv_caller.
  - by eapply go_inv_run.
  - unfold_step Hs. step_inv; (apply (go_inv_frame s); [done|cbn; by rewrite ?length_alter|done|done]).
  - simplify_eq. unfold Cancel. destruct (cancel (task s)); by apply (go_inv_frame s).
  - step_inv. destruct cancel; by apply (go_inv_frame s).
  - simplify_eq. destruct Hinv as (_ & c & Hc & Hret & Hph). destruct j as [|j].
    + by apply (go_inv_move s _ (caller_done deadline) c).
    + split; [done|]. exists c. cbn. by rewrite Hc.
  - unfold propagate in Hs. step_inv. by apply (go_inv_frame s).
Qed.

Lemma go_phase_stable e s s' : go_inv s → go_phase s = Returned e → step s s' → go_phase s' = Returned e.
Proof.
  intros Hgo Hp [mv Hs]. pose proof Hgo as (_ & c & Hc & _). unfold go_phase in *. rewrite Hc in Hp.
  destruct mv; cbn [act] in Hs.
  - unfold caller_step in Hs. rewrite Hc in Hs. destruct j as [|j]; [|done]. cbn in Hs.
    unfold Await_step, GoRetry_step in Hs. by rewrite Hp in Hs.
  - unfold_step Hs. step_inv; cbn; rewrite Hc; try done. destruct (forallb _ _); [|done].
    cbn. unfold wake_caller. by rewrite Hp.
  - unfold_step Hs. step_inv; cbn; by rewrite Hc.
  - simplify_eq. unfold Cancel. destruct (cancel (task s)); cbn; by rewrite Hc.
  - step_inv. destruct cancel; cbn; by rewrite Hc.
  - simplify_eq. cbn. rewrite Hc. by destruct j.
  - unfold propagate in Hs. step_inv; cbn; by rewrite Hc.
Qed.

Lemma go_returned_settled s e : go_inv s → go_phase s = Returned e → Await s = true → settled s.
Proof.
  intros (_ & c & Hc & _) Hp Ha. split; [|done]. unfold go_phase in Hp. rewrite Hc in *. cbn. unfold returned.
  by rewrite Hp.
Qed.

Lemma go_failed_settled s e : go_inv s → go_phase s = Returned (Some e) → settled s.
Proof.
  intros Hinv Hp. apply (go_returned_settled _ (Some e)); try done.
  destruct Hinv as (_ & c & Hc & _ & Hph). unfold go_phase in Hp. rewrite Hc in Hp. rewrite Hp in Hph.
  unfold Await. by rewrite Hph.
Qed.

(** ** One submission *)

Definition holds (x : submission) : nat :=
  match sub_at x with
  | SubmitNew | SubmitGo | SubmitSpawn => 1
  | _ => match releaser x with ReleaseAwait | ReleaseSlot => 1 | _ => 0 end
  end.

Definition sub_inv (x : submission) : Prop :=
  match sub_at x with
  | SubmitCheck | SubmitAcquire | SubmitNew => sub_task x = None ∧ releaser x = NoReleaser
  | SubmitGo => releaser x = NoReleaser ∧ ∃ s, sub_task x = Some s ∧ go_inv s
  | SubmitSpawn =>
      releaser x = NoReleaser ∧ ∃ s, sub_task x = Some s ∧ go_inv s ∧ go_phase s = Returned None
  | SubmitReturned (Some _) =>
      releaser x = NoReleaser ∧ (sub_task x = None ∨ ∃ s, sub_task x = Some s ∧ go_inv s ∧ settled s)
  | SubmitReturned None =>
      releaser x ≠ NoReleaser ∧
      ∃ s, sub_task x = Some s ∧ go_inv s ∧ go_phase s = Returned None ∧
           (releaser x = ReleaseAwait ∨ settled s)
  end.

(** A step inside its task keeps a submission's invariant. *)
Lemma sub_inv_task x s s' : sub_inv x → sub_task x = Some s → step s s' → sub_inv (set_task s' x).
Proof.
  unfold sub_inv. intros Hx Hs Hstep. rewrite Hs in Hx. cbn.
  destruct (sub_at x) as [| | | | |[e|]]; try (by destruct Hx).
  - destruct Hx as (? & ? & [= <-] & ?). eauto using go_inv_step.
  - destruct Hx as (? & ? & [= <-] & ? & ?). eauto 10 using go_inv_step, go_phase_stable.
  - destruct Hx as (? & [?|(? & [= <-] & ? & ?)]); [done|].
    split; [done|]. right. exists s'. split_and!; eauto using go_inv_step. by eapply settled_step.
  - destruct Hx as (? & ? & [= <-] & ? & ? & Hor). split; [done|]. exists s'.
    split_and!; eauto using go_inv_step, go_phase_stable.
    destruct Hor; [by left|right; by eapply settled_step].
Qed.

Lemma holds_task s x : holds (set_task s x) = holds x.
Proof. done. Qed.

(** A task that is not over holds a slot. *)
Lemma unfinished_holds x : sub_inv x → ((if sub_over x then 0 else 1) ≤ holds x)%nat.
Proof.
  unfold sub_inv, sub_over, holds. intros Hx.
  destruct (sub_at x) as [| | | | |[e|]]; try (case_match; repeat case_match; lia).
  - destruct Hx as [-> _]. lia.
  - destruct Hx as [-> _]. lia.
  - destruct Hx as (-> & [-> |(s & -> & _ & _ & ->)]); lia.
  - destruct Hx as (Hr & s & -> & _ & _ & [->|[_ ->]]); [by case_match; lia|lia].
Qed.

(** ** The group *)

Lemma acquire_counts c s n limit i r :
  counts s n limit → AcquireWithContext c s !! i = Some r →
  (r.1 = None ∧ counts r.2 (n + 1) limit) ∨ (∃ e, r.1 = Some e ∧ r.2 = s).
Proof.
  intros Hs Hr. unfold AcquireWithContext in Hr.
  assert (∀ i r, (if ctx_done c then [(c, s)] else []) !! i = Some r → ∃ e, r.1 = Some e ∧ r.2 = s) as Hdone.
  { intros i' r' H. destruct c as [e|]; [|done]. apply list_lookup_singleton_Some in H as [_ <-]. eauto. }
  destruct (decide (n < limit)) as [Hlt|Hge].
  - destruct (send_case_free s n limit (None : option error) Hs Hlt) as (s' & Heq & Hc). rewrite Heq in Hr.
    destruct i as [|i]; cbn in Hr; [simplify_eq; by left|right; eauto].
  - rewrite (send_case_full s n limit) in Hr; [right; eauto|done|destruct Hs; lia].
Qed.

Lemma release_counts s n limit r :
  counts s n limit → head (Release s) = Some r → counts r.2 (n - 1) limit.
Proof.
  intros Hs Hr. destruct (Release_counts s n limit Hs) as [[_ H]|(_ & s' & H & ?)]; rewrite H in Hr;
    cbn in Hr; by simplify_eq.
Qed.

Definition appended (x : submission) : bool :=
  match sub_at x with SubmitSpawn | SubmitReturned None => true | _ => false end.

Lemma appended_returned x :
  sub_inv x → appended x = true → ∃ s, sub_task x = Some s ∧ go_inv s ∧ go_phase s = Returned None.
Proof.
  unfold sub_inv, appended. intros Hx Ha. destruct (sub_at x) as [| | | | |[e|]]; try done; naive_solver.
Qed.

Definition held (g : group) : Z := Z.of_nat (sum_list_with holds (subs g)).

Record group_inv (m : Z) (g : group) : Prop := {
  gi_sem : counts (sem g) (held g) m;
  gi_subs : ∀ k x, subs g !! k = Some x → sub_inv x;
  gi_nodup : NoDup (tasks g);
  gi_tasks : ∀ k, k ∈ tasks g ↔ ∃ x, subs g !! k = Some x ∧ appended x = true;
}.

(** A step that only concerns submission [k]. *)
Lemma group_inv_upd m g k x f s' :
  subs g !! k = Some x → sub_inv (f x) → appended (f x) = appended x →
  counts s' (held g + Z.of_nat (holds (f x)) - Z.of_nat (holds x)) m →
  group_inv m g → group_inv m (upd_sub k f (set_sem s' g)).
Proof.
  intros Hk Hf Ha Hc [_ Hs Hn Ht]. split; cbn; [| |done|].
  - unfold held in *. cbn. pose proof (sum_list_with_alter holds f _ _ _ Hk).
    replace (Z.of_nat _) with (Z.of_nat (sum_list_with holds (subs g)) + Z.of_nat (holds (f x)) - Z.of_nat (holds x)) by lia.
    done.
  - intros j y Hj. rewrite list_lookup_alter in Hj. case_decide; [|by eapply Hs].
    subst. rewrite Hk in Hj. cbn in Hj. by simplify_eq.
  - intros j. rewrite Ht. rewrite list_lookup_alter. case_decide as Hkj; [|done]. subst.
    rewrite Hk. cbn. split; intros (y & [= <-] & Hy); eexists; (split; [done|congruence]).
Qed.

Lemma group_inv_same m g k x f :
  subs g !! k = Some x → sub_inv (f x) → appended (f x) = appended x → holds (f x) = holds x →
  group_inv m g → group_inv m (upd_sub k f g).
Proof.
  intros Hk Hf Ha Hh Hinv. apply (group_inv_upd m g k x f (sem g)) in Hinv as [? ? ? ?]; try done.
  rewrite Hh. destruct Hinv as [Hs _ _ _].
  by replace (held g + Z.of_nat (holds x) - Z.of_nat (holds x)) with (held g) by lia.
Qed.

(** The step that appends task [k]. *)
Lemma group_inv_append m g k x :
  subs g !! k = Some x → sub_at x = SubmitGo → sub_inv (sub_to SubmitSpawn x) →
  group_inv m g → group_inv m (upd_sub k (sub_to SubmitSpawn) (set_tasks (tasks g ++ [k]) g)).
Proof.
  intros Hk Hat Hx [Hc Hs Hn Ht].
  assert (holds (sub_to SubmitSpawn x) = holds x) as Hh by (unfold holds; by rewrite Hat).
  assert (appended x = false) as Ha by (unfold appended; by rewrite Hat).
  split; cbn.
  - unfold held in *. cbn. pose proof (sum_list_with_alter holds (sub_to SubmitSpawn) _ _ _ Hk).
    by replace (sum_list_with holds (alter _ _ _)) with (sum_list_with holds (subs g)) by lia.
  - intros j y Hj. rewrite list_lookup_alter in Hj. case_decide; [|by eapply Hs].
    subst. rewrite Hk in Hj. cbn in Hj. by simplify_eq.
  - apply NoDup_app. split_and!; [done| |apply NoDup_singleton].
    intros j Hj ->%list_elem_of_singleton. apply Ht in Hj as (y & Hy & Hay). congruence.
  - intros j. rewrite elem_of_app, list_elem_of_singleton, Ht, list_lookup_alter.
    case_decide as Hkj; [|naive_solver]. subst. rewrite Hk. cbn. naive_solver.
Qed.

Lemma group_inv_frame m g g' :
  sem g' = sem g → subs g' = subs g → tasks g' = tasks g → group_inv m g → group_inv m g'.
Proof. intros Hs Hsu Ht [? ? ? ?]. split; unfold held; rewrite ?Hs, ?Hsu, ?Ht; done. Qed.

Lemma group_inv_submit m g d x :
  group_inv m g → group_inv m (set_subs (subs g ++ [MkSubmission d x SubmitCheck None NoReleaser]) g).
Proof.
  intros [Hc Hs Hn Ht]. split; cbn; [| |done|].
  - unfold held in *. cbn. rewrite sum_list_with_app. cbn. by rewrite Nat.add_0_r.
  - intros k y [Hk|[_ Hk]]%lookup_app_Some; [by eapply Hs|].
    apply list_lookup_singleton_Some in Hk as [_ <-]. by split.
  - intros k. rewrite Ht. split; intros (y & Hk & Ha).
    + exists y. split; [by apply lookup_app_l_Some|done].
    + apply lookup_app_Some in Hk as [Hk|[_ Hk]]; [by exists y|].
      by apply list_lookup_singleton_Some in Hk as [_ <-].
Qed.

(** A step inside the task of submission [k]. *)
Lemma group_inv_task m g k x s s' :
  subs g !! k = Some x → sub_task x = Some s → step s s' →
  group_inv m g → group_inv m (upd_sub k (set_task s') g).
Proof.
  intros Hk Hs Hstep Hinv. apply (group_inv_same m g k x); try done.
  eapply sub_inv_task; [by eapply gi_subs|done|done].
Qed.

Lemma Submit_step_inv m g k i g' :
  Submit_step k i g = Some (Ret g') → group_inv m g → group_inv m g'.
Proof.
  intros Hs Hinv. unfold Submit_step in Hs. apply bind_Some in Hs as (x & Hk & Hs).
  pose proof (gi_subs _ _ Hinv _ _ Hk) as Hx. unfold sub_inv in Hx.
  destruct (sub_at x) eqn:Hat.
  - simplify_eq. destruct Hx as [Hx Hrel].
    apply (group_inv_same m g k x); try done; unfold sub_inv, appended, holds; cbn;
      rewrite ?Hat, ?Hx, ?Hrel; by destruct (stopped g); auto.
  - apply bind_Some in Hs as (r & Hr & Hs). simplify_eq. destruct Hx as [Hx Hrel].
    destruct (acquire_counts _ _ _ _ _ _ (gi_sem _ _ Hinv) Hr) as [[Hr1 Hc]|(e & Hr1 & Hc)]; rewrite Hr1;
      apply (group_inv_upd m g k x); try done; unfold sub_inv, appended, holds; cbn;
      rewrite ?Hat, ?Hrel; try done; auto.
    + by replace (held g + Z.of_nat 1 - Z.of_nat 0) with (held g + 1) by lia.
    + rewrite Hc. by replace (held g + Z.of_nat 0 - Z.of_nat 0) with (held g) by lia; destruct Hinv.
  - apply (inj Some), obind_Ret in Hs as (s & Hnew & [= <-]). destruct Hx as [Hx Hrel].
    apply (group_inv_same m g k x); try done; unfold sub_inv, appended, holds; cbn; rewrite ?Hat; try done.
    split; [done|]. eexists. split; [done|]. unfold Task.New in Hnew. step_inv. split; [done|].
    by exists (call_Go (Some (sub_ctx x))).
  - destruct Hx as (Hrel & s & Hsx & Hgo). rewrite Hsx in Hs. cbn in Hs.
    destruct (go_phase s) as [| | | | | | | | | | | | | | |[e|]] eqn:Hp.
    16: { apply bind_Some in Hs as (r & Hr & Hs). simplify_eq.
      apply (release_counts _ _ _ _ (gi_sem _ _ Hinv)) in Hr.
      apply (group_inv_upd m g k x); try done; unfold sub_inv, appended, holds; cbn; rewrite ?Hat, ?Hrel; try done.
      - split; [done|]. right. eauto using go_failed_settled.
      - by rewrite Z.add_0_r. }
    16: { simplify_eq. apply (group_inv_append m g k x); try done. unfold sub_inv. cbn. eauto. }
    all: apply bind_Some in Hs as (o & Ho & Hs); apply (inj Some), obind_Ret in Hs as (s' & -> & [= <-]);
      eapply group_inv_task; [eassumption|eassumption|by exists (MoveCaller 0 (i =? 0)%nat)|done].
  - simplify_eq. destruct Hx as (Hrel & s & Hsx & Hgo & Hp).
    apply (group_inv_same m g k x); try done; unfold sub_inv, appended, holds; cbn; rewrite ?Hat; try done.
    split; [done|]. eauto 10.
  - done.
Qed.

Lemma release_step_inv m g k g' :
  release_step k g = Some (Ret g') → group_inv m g → group_inv m g'.
Proof.
  intros Hs Hinv. unfold release_step in Hs. apply bind_Some in Hs as (x & Hk & Hs).
  pose proof (gi_subs _ _ Hinv _ _ Hk) as Hx. unfold sub_inv in Hx.
  assert (releaser x ≠ NoReleaser → sub_at x = SubmitReturned None ∧
    ∃ s, sub_task x = Some s ∧ go_inv s ∧ go_phase s = Returned None ∧ (releaser x = ReleaseAwait ∨ settled s)) as Hret.
  { intros Hne. by destruct (sub_at x) as [| | | | |[e|]]; destruct Hx. }
  clear Hx. destruct (releaser x) eqn:Hrel; try done;
    destruct (Hret ltac:(done)) as (Hat & s & Hsx & Hgo & Hp & Hor).
  - rewrite Hsx in Hs. cbn in Hs. destruct (Await s) eqn:Haw; [|done]. simplify_eq.
    apply (group_inv_same m g k x); try done; unfold sub_inv, appended, holds; cbn; rewrite ?Hat, ?Hrel; try done.
    split; [done|]. exists s. split_and!; try done. right. by eapply go_returned_settled.
  - apply bind_Some in Hs as (r & Hr & Hs). simplify_eq.
    apply (release_counts _ _ _ _ (gi_sem _ _ Hinv)) in Hr.
    apply (group_inv_upd m g k x); try done; unfold sub_inv, appended, holds; cbn; rewrite ?Hat, ?Hrel; try done.
    + split; [done|]. exists s. split_and!; try done. destruct Hor; [done|by right].
    + by rewrite Z.add_0_r.
  - simplify_eq. apply (group_inv_frame m (upd_sub k (releaser_to ReleaseDone) g)); try done.
    apply (group_inv_same m g k x); try done; unfold sub_inv, appended, holds; cbn; rewrite ?Hat, ?Hrel; try done.
    split; [done|]. exists s. split_and!; try done. destruct Hor; [done|by right].
Qed.

Lemma task_step_step k mv g g' :
  task_step k mv g = Some (Ret g') →
  ∃ x s s', subs g !! k = Some x ∧ sub_task x = Some s ∧ step s s' ∧ g' = upd_sub k (set_task s') g.
Proof.
  intros Hs.
  assert (∃ s, (subs g !! k ≫= sub_task) = Some s ∧ ∃ o, act mv s = Some o ∧
    (s' <-- o ;;; Ret (upd_sub k (set_task s') g))%go = Ret g') as (s & (x & Hx & Hsx)%bind_Some & o & Ho & Hg).
  { destruct mv; try done; cbn [task_step] in Hs; apply bind_Some in Hs as (s & Hsx & Hs);
      apply bind_Some in Hs as (o' & Ho & [= Hs]); eauto. }
  apply obind_Ret in Hg as (s' & -> & [= <-]). exists x, s, s'. split_and!; try done. by exists mv.
Qed.

Lemma gstep_inv m g g' : group_inv m g → gstep g g' → group_inv m g'.
Proof.
  intros Hinv [mv Hs]. destruct mv; cbn [gact] in Hs.
  - simplify_eq. by apply group_inv_submit.
  - by eapply Submit_step_inv.
  - by eapply release_step_inv.
  - destruct (task_step_step _ _ _ _ Hs) as (x & s & s' & ? & ? & ? & ->). by eapply group_inv_task.
  - simplify_eq. destruct (subs g !! k) as [x|] eqn:Hk.
    + apply (group_inv_same m g k x); try done. pose proof (gi_subs _ _ Hinv _ _ Hk) as Hx. exact Hx.
    + apply (group_inv_frame m g); try done. apply list_alter_same. by rewrite Hk.
  - simplify_eq. by apply (group_inv_frame m g).
  - unfold Stop_step in Hs. apply bind_Some in Hs as (ph & _ & Hs).
    destruct ph as [|[|k ts]|k ts|]; try done.
    + simplify_eq. by apply (group_inv_frame m g).
    + simplify_eq. by apply (group_inv_frame m g).
    + step_inv; by apply (group_inv_frame m g).
    + apply bind_Some in Hs as (s & (x & Hk & Hsx)%bind_Some & Hs). simplify_eq.
      apply (group_inv_frame m (upd_sub k (set_task (Cancel s)) g)); try done.
      eapply group_inv_task; [done|done|by exists MoveCancel|done].
  - simplify_eq. by apply (group_inv_frame m g).
  - unfold Wait_step in Hs. step_inv; by apply (group_inv_frame m g).
Qed.

(** ** Waiting *)

(** An appended task that is over stays so. *)
Definition ended (g : group) (k : nat) : Prop :=
  ∃ x, subs g !! k = Some x ∧ appended x = true ∧ sub_over x = true.

Lemma ended_same g g' k : subs g' = subs g → ended g k → ended g' k.
Proof. unfold ended. by intros ->. Qed.

Lemma ended_upd g g' j f k :
  subs g' = alter f j (subs g) →
  (∀ x, subs g !! j = Some x → appended x = true → sub_over x = true →
     appended (f x) = true ∧ sub_over (f x) = true) →
  ended g k → ended g' k.
Proof.
  intros Hs Hf (x & Hk & Ha & Ho). unfold ended. rewrite Hs, list_lookup_alter. case_decide; [|eauto].
  subst. rewrite Hk. destruct (Hf x Hk Ha Ho). eauto.
Qed.

Lemma ended_task m g k x s s' j :
  group_inv m g → subs g !! k = Some x → sub_task x = Some s → step s s' →
  ended g j → ended (upd_sub k (set_task s') g) j.
Proof.
  intros Hinv Hk Hs Hstep. apply (ended_upd _ _ k (set_task s')); [done|]. intros y Hy Ha Ho.
  rewrite Hk in Hy. simplify_eq. split; [done|]. pose proof (gi_subs _ _ Hinv _ _ Hk) as Hx.
  destruct (appended_returned _ Hx Ha) as (s1 & Hs1 & Hgo & Hp). unfold sub_over in *. rewrite Hs in *.
  simplify_eq. by destruct (settled_step _ _ (go_returned_settled _ _ Hgo Hp Ho) Hstep) as [[_ ?] _].
Qed.

Lemma gstep_ended m g g' k : group_inv m g → gstep g g' → ended g k → ended g' k.
Proof.
  intros Hinv [mv Hs]. destruct mv; cbn [gact] in Hs.
  - simplify_eq. intros (y & Hy & ?). exists y. split; [by apply lookup_app_l_Some|done].
  - unfold Submit_step in Hs. apply bind_Some in Hs as (x & Hk & Hs).
    assert (∀ f g1, subs g1 = alter f k0 (subs g) →
      match sub_at x with SubmitSpawn => appended (f x) = true ∧ sub_over (f x) = sub_over x
                        | SubmitReturned _ => False | _ => True end →
      ended g k → ended g1 k) as Hf.
    { intros f g1 Hsu Hfx. eapply ended_upd; [exact Hsu|]. intros y Hy Ha Ho. rewrite Hk in Hy. simplify_eq.
      unfold appended in Ha. destruct (sub_at y) as [| | | | |[|]]; try done. destruct Hfx as [? ->]. done. }
    destruct (sub_at x) eqn:Hat; try done.
    + simplify_eq. by eapply Hf.
    + apply bind_Some in Hs as (r & _ & Hs). simplify_eq. by eapply Hf.
    + apply (inj Some), obind_Ret in Hs as (s & _ & [= <-]). by eapply Hf.
    + apply bind_Some in Hs as (s & _ & Hs).
      destruct (go_phase s) as [| | | | | | | | | | | | | | |[e|]];
        try (apply bind_Some in Hs as (o & _ & Hs));
        try (apply (inj Some), obind_Ret in Hs as (s' & _ & [= <-])); simplify_eq; by eapply Hf.
    + simplify_eq. by eapply Hf.
  - unfold release_step in Hs. step_inv; by eapply ended_upd.
  - destruct (task_step_step _ _ _ _ Hs) as (x & s & s' & ? & ? & ? & ->). by eapply ended_task.
  - simplify_eq. by eapply ended_upd.
  - by simplify_eq.
  - unfold Stop_step in Hs. apply bind_Some in Hs as (ph & _ & Hs).
    destruct ph as [|[|j ts]|j ts|]; try done.
    + by simplify_eq.
    + by simplify_eq.
    + by step_inv.
    + apply bind_Some in Hs as (s & (x & Hk & Hsx)%bind_Some & Hs). simplify_eq.
      eapply ended_task; [done|done|done|by exists MoveCancel].
  - by simplify_eq.
  - unfold Wait_step in Hs. by step_inv.
Qed.

(** What a [Wait] has seen: the tasks it copied are over or still awaited. *)
Definition wait_inv (g : group) (ph : wait_phase) : Prop :=
  match ph with
  | WaitCopy => True
  | WaitAll ts awaited _ => awaited ⊆ tasks g ∧ ∀ k, k ∈ ts → k ∈ awaited ∨ ended g k
  | WaitReturned ts => ∀ k, k ∈ ts → ended g k
  end.

Lemma Wait_step_inv m g i p g' :
  group_inv m g → Forall (wait_inv g) (waits g) → Wait_step i p g = Some (Ret g') → Forall (wait_inv g') (waits g').
Proof.
  intros Hinv Hw Hs. unfold Wait_step in Hs. apply bind_Some in Hs as (ph & Hi & Hs).
  pose proof (Forall_lookup_1 _ _ _ _ Hw Hi) as Hph.
  assert (∀ ph', wait_inv g ph' → Forall (wait_inv g) (<[i := ph']> (waits g))) as Hto
    by (intros; by apply Forall_insert).
  destruct ph as [|ts aw rel|]; [simplify_eq; apply Hto; split; [done|]; by left| |done].
  destruct Hph as [Hsub Hts]. destruct p as [n| |].
  - apply bind_Some in Hs as (k & Hn & Hs). apply bind_Some in Hs as (x & Hk & Hs).
    destruct (sub_over x) eqn:Ho; [|done]. simplify_eq. apply Hto. split.
    { intros j Hj. apply Hsub. by eapply list_elem_of_delete_inv. }
    intros j Hj. destruct (Hts j Hj) as [Haw|?]; [|by right]. destruct (decide (j = k)) as [->|Hne].
    + right. assert (k ∈ tasks g) as Hkt by (apply Hsub; by eapply list_elem_of_lookup_2).
      apply (gi_tasks _ _ Hinv) in Hkt as (y & Hy & Ha). exists y. split_and!; congruence.
    + left.
      rewrite (delete_Permutation _ _ _ Hn) in Haw. by apply elem_of_cons in Haw as [|].
  - destruct rel; try done; [simplify_eq; by apply Hto|]. destruct (forallb released _); simplify_eq. by apply Hto.
  - destruct aw, rel; try done. simplify_eq. apply Hto. intros j Hj. destruct (Hts j Hj) as [?%not_elem_of_nil|?]; done.
Qed.

(** Where the list of tasks and the calls of [Wait] change. *)
Lemma gstep_waits g g' :
  gstep g g' → tasks g ⊆ tasks g' ∧
  (waits g' = waits g ∨ waits g' = waits g ++ [WaitCopy] ∨ waits g' = map wake_wait (waits g) ∨
   ∃ i p, Wait_step i p g = Some (Ret g')).
Proof.
  intros [mv Hs]. destruct mv; cbn [gact] in Hs; [..|by simplify_eq; eauto 6|].
  - by simplify_eq; auto.
  - unfold Submit_step in Hs. apply bind_Some in Hs as (x & _ & Hs).
    destruct (sub_at x); try done.
    + by simplify_eq; auto.
    + apply bind_Some in Hs as (r & _ & Hs). by simplify_eq; auto.
    + apply (inj Some), obind_Ret in Hs as (s & _ & [= <-]). by auto.
    + apply bind_Some in Hs as (s & _ & Hs).
      destruct (go_phase s) as [| | | | | | | | | | | | | | |[e|]];
        try (apply bind_Some in Hs as (o & _ & Hs));
        try (apply (inj Some), obind_Ret in Hs as (s' & _ & [= <-])); simplify_eq; auto.
      split; [|by left]. cbn. set_solver.
    + by simplify_eq; auto.
  - unfold release_step in Hs. step_inv; auto. cbn. split; [done|]. destruct (forallb _ _); auto.
  - destruct (task_step_step _ _ _ _ Hs) as (x & s & s' & ? & ? & ? & ->). by auto.
  - by simplify_eq; auto.
  - by simplify_eq; auto.
  - unfold Stop_step in Hs. apply bind_Some in Hs as (ph & _ & Hs).
    destruct ph as [|[|j ts]|j ts|]; try done; try (by simplify_eq; auto).
    + step_inv; auto.
    + apply bind_Some in Hs as (s & _ & Hs). by simplify_eq; auto.
  - split; [|by eauto 6]. unfold Wait_step in Hs. by step_inv.
Qed.

Lemma wait_inv_step m g g' :
  group_inv m g → gstep g g' → Forall (wait_inv g) (waits g) → Forall (wait_inv g') (waits g').
Proof.
  intros Hinv Hs Hw. destruct (gstep_waits _ _ Hs) as [Hsub Hc].
  assert (Forall (wait_inv g') (waits g)) as Hw'.
  { eapply Forall_impl; [exact Hw|]. intros [|ts aw rel|ts]; [done|intros [? Hts]; split|intros Hts k ?].
    - by etrans.
    - intros k Hk. destruct (Hts k Hk); [by left|right; by eapply gstep_ended].
    - eapply gstep_ended; eauto. }
  destruct Hc as [->|[->|[->|(i & p & Hi)]]]; [done|apply Forall_app; split; [done|by constructor]|..].
  - apply Forall_fmap. eapply Forall_impl; [exact Hw'|]. intros ph. by destruct ph as [|ts aw []|].
  - by eapply Wait_step_inv.
Qed.

Lemma New_inv m g : New m = Ret (inr g) → group_inv m g.
Proof.
  unfold New. destruct (Z.leb_spec m 0); [done|]. intros (s & Hs & [= <-])%obind_Ret.
  apply NewSemaphore_counts in Hs. split; try done; cbn.
  - by constructor.
  - intros k. split; [by intros ?%not_elem_of_nil|by intros (x & ? & _)].
Qed.

(** ** Submissions over time *)

(** The state and the error of the task. *)
Definition outcome_of (x : submission) : option (Z * option error) :=
  s ← sub_task x; Some (state (task s), err (task s)).

(** What stays of a submission: its definition, what [Submit] returned, and how its
    task ended. *)
Definition sub_le (x x' : submission) : Prop :=
  def x' = def x ∧
  (∀ e, sub_at x = SubmitReturned e → sub_at x' = SubmitReturned e) ∧
  (sub_at x = SubmitReturned None → sub_over x = true → sub_over x' = true ∧ outcome_of x' = outcome_of x).

#[export] Instance sub_le_preorder : PreOrder sub_le.
Proof.
  split; [by intros x|]. intros x1 x2 x3 (H1 & H2 & H3) (H4 & H5 & H6). split_and!; [congruence|auto|].
  intros Ha Ho. destruct (H3 Ha Ho) as [Ho' <-]. apply H6; auto.
Qed.

Definition subs_le (g g' : group) : Prop :=
  ∀ k x, subs g !! k = Some x → ∃ x', subs g' !! k = Some x' ∧ sub_le x x'.

#[export] Instance subs_le_preorder : PreOrder subs_le.
Proof.
  split; [intros g k x Hk; by exists x|]. intros g1 g2 g3 H1 H2 k x Hk.
  destruct (H1 k x Hk) as (x2 & Hk2 & ?). destruct (H2 k x2 Hk2) as (x3 & ? & ?).
  exists x3. split; [done|]. by etrans.
Qed.

Lemma subs_le_same g g' : subs g' = subs g → subs_le g g'.
Proof. intros Hs k x Hk. exists x. by rewrite Hs. Qed.

Lemma subs_le_upd g g' k f :
  subs g' = alter f k (subs g) → (∀ x, subs g !! k = Some x → sub_le x (f x)) → subs_le g g'.
Proof.
  intros Hs Hf j x Hj. rewrite Hs, list_lookup_alter. case_decide; [|by exists x].
  subst. rewrite Hj. exists (f x). split; [done|]. by apply Hf.
Qed.

Lemma subs_le_new d x g : subs_le g (new_submission d x g).
Proof. intros k y Hk. exists y. split; [|done]. cbn. by apply lookup_app_l_Some. Qed.

(** A submission that has not returned may do anything. *)
Lemma sub_le_running x f :
  (∀ e, sub_at x ≠ SubmitReturned e) → def (f x) = def x → sub_le x (f x).
Proof. intros Hne Hd. split_and!; [done|intros e He|intros He _]; by destruct (Hne _ He). Qed.

(** A step inside the task. *)
Lemma sub_le_task x s s' : sub_inv x → sub_task x = Some s → step s s' → sub_le x (set_task s' x).
Proof.
  intros Hx Hs Hstep. split_and!; [done|done|]. intros Hat Ho. unfold sub_inv in Hx. rewrite Hat, Hs in Hx.
  destruct Hx as (_ & s1 & [= <-] & Hgo & Hp & _). unfold sub_over in *. rewrite Hs in Ho.
  pose proof (go_returned_settled _ _ Hgo Hp Ho) as Hset.
  destruct (settled_step _ _ Hset Hstep) as [[_ ?] Ht]. unfold outcome_of. cbn. by rewrite Hs, Ht.
Qed.

Lemma Submit_step_subs_le k i g g' : Submit_step k i g = Some (Ret g') → subs_le g g'.
Proof.
  intros Hs. unfold Submit_step in Hs. apply bind_Some in Hs as (x & Hk & Hs).
  assert (∀ f g1, subs g1 = alter f k (subs g) → def (f x) = def x → (∀ e, sub_at x ≠ SubmitReturned e) →
    subs_le g g1) as Hrun.
  { intros f g1 Hf Hd Hne. eapply subs_le_upd; [exact Hf|]. intros y Hy. rewrite Hk in Hy. simplify_eq.
    by apply sub_le_running. }
  destruct (sub_at x) eqn:Hat; try done.
  - simplify_eq. by eapply Hrun.
  - apply bind_Some in Hs as (r & Hr & Hs). simplify_eq. by eapply Hrun.
  - apply (inj Some), obind_Ret in Hs as (s & _ & [= <-]). by eapply Hrun.
  - apply bind_Some in Hs as (s & Hsx & Hs). destruct (go_phase s) as [| | | | | | | | | | | | | | |[e|]];
      try (apply bind_Some in Hs as (o & _ & Hs); apply (inj Some), obind_Ret in Hs as (s' & _ & [= <-]); by eapply Hrun).
    + apply bind_Some in Hs as (r & _ & Hs). simplify_eq. by eapply Hrun.
    + simplify_eq. by eapply Hrun.
  - simplify_eq. by eapply Hrun.
Qed.

Lemma gstep_subs_le m g g' : group_inv m g → gstep g g' → subs_le g g'.
Proof.
  intros Hinv [mv Hs]. destruct mv; cbn [gact] in Hs.
  - simplify_eq. apply subs_le_new.
  - by eapply Submit_step_subs_le.
  - unfold release_step in Hs. step_inv; by eapply subs_le_upd.
  - destruct (task_step_step _ _ _ _ Hs) as (x & s & s' & Hk & ? & ? & ->).
    eapply subs_le_upd; [done|]. intros y Hy. rewrite Hk in Hy. simplify_eq.
    eapply sub_le_task; [by eapply gi_subs|done|done].
  - simplify_eq. by eapply subs_le_upd.
  - simplify_eq. by apply subs_le_same.
  - unfold Stop_step in Hs. apply bind_Some in Hs as (ph & _ & Hs).
    destruct ph as [|[|k ts]|k ts|]; try done.
    + simplify_eq. by apply subs_le_same.
    + simplify_eq. by apply subs_le_same.
    + step_inv; by apply subs_le_same.
    + apply bind_Some in Hs as (s & (x & Hk & Hsx)%bind_Some & Hs). simplify_eq.
      eapply subs_le_upd; [done|]. intros y Hy. rewrite Hk in Hy. simplify_eq.
      eapply sub_le_task; [by eapply gi_subs|done|by exists MoveCancel].
  - simplify_eq. by apply subs_le_same.
  - unfold Wait_step in Hs. step_inv; by apply subs_le_same.
Qed.

(** Where the task of a submission comes from. *)
Definition task_from (g : group) (k : nat) (s' : sys) : Prop :=
  (∃ x s, subs g !! k = Some x ∧ sub_task x = Some s ∧ (s = s' ∨ step s s')) ∨
  ∃ x s0 c, subs g !! k = Some x ∧ Task.New (def x) = Ret s0 ∧ s' = set_callers [call_Go (Some c)] s0.

Lemma task_from_upd g g' k f j x' s' :
  subs g' = alter f k (subs g) →
  (∀ x, subs g !! k = Some x → sub_task (f x) = Some s' → task_from g k s') →
  subs g' !! j = Some x' → sub_task x' = Some s' → task_from g j s'.
Proof.
  intros Hs Hf Hj Hx. rewrite Hs, list_lookup_alter in Hj. case_decide.
  - subst j. destruct (subs g !! k) as [x|] eqn:Hk; [|done]. cbn in Hj. simplify_eq. by apply (Hf x).
  - left. exists x', s'. split_and!; [done..|by left].
Qed.

Lemma task_from_same g g' j x' s' :
  subs g' = subs g → subs g' !! j = Some x' → sub_task x' = Some s' → task_from g j s'.
Proof. intros Hs Hj Hx. rewrite Hs in Hj. left. exists x', s'. split_and!; [done..|by left]. Qed.

Lemma gstep_tasks g g' j x' s' :
  gstep g g' → subs g' !! j = Some x' → sub_task x' = Some s' → task_from g j s'.
Proof.
  intros [mv Hs] Hj Hx.
  assert (∀ k f, subs g' = alter f k (subs g) → (∀ x, sub_task (f x) = sub_task x) → task_from g j s') as Hkeep.
  { intros k f Hf Ht. eapply task_from_upd; [exact Hf| |exact Hj|exact Hx]. intros x Hk Hxs. rewrite Ht in Hxs.
    left. exists x, s'. split_and!; [done..|by left]. }
  assert (∀ k x s1 s2 f, subs g !! k = Some x → sub_task x = Some s1 → step s1 s2 →
    subs g' = alter f k (subs g) → (∀ x, sub_task (f x) = Some s2) → task_from g j s') as Hstep.
  { intros k x s1 s2 f Hk Hsx Hst Hf Ht. eapply task_from_upd; [exact Hf| |exact Hj|exact Hx].
    intros y Hy Hxs. rewrite Ht in Hxs. rewrite Hk in Hy. simplify_eq. left. exists y, s1. split_and!; [done..|by right]. }
  destruct mv; cbn [gact] in Hs.
  - simplify_eq. apply lookup_app_Some in Hj as [Hj|[_ Hj]].
    + left. exists x', s'. split_and!; [done..|by left].
    + by apply list_lookup_singleton_Some in Hj as [_ <-].
  - unfold Submit_step in Hs. apply bind_Some in Hs as (x & Hk & Hs). destruct (sub_at x); try done.
    + simplify_eq. by eapply Hkeep.
    + apply bind_Some in Hs as (r & Hr & Hs). simplify_eq. by eapply Hkeep.
    + apply (inj Some), obind_Ret in Hs as (s & Hnew & [= <-]).
      eapply task_from_upd; [| |exact Hj|exact Hx]; [reflexivity|]. intros y Hy [= <-]. rewrite Hk in Hy. simplify_eq. right. eauto 6.
    + apply bind_Some in Hs as (s & Hsx & Hs). destruct (go_phase s) as [| | | | | | | | | | | | | | |[e|]].
      16: apply bind_Some in Hs as (r & _ & Hs); simplify_eq; by eapply Hkeep.
      16: simplify_eq; by eapply Hkeep.
      all: apply bind_Some in Hs as (o & Ho & Hs); apply (inj Some), obind_Ret in Hs as (s2 & -> & [= <-]);
        (eapply Hstep; [exact Hk|exact Hsx|by exists (MoveCaller 0 (i =? 0)%nat)|reflexivity|done]).
    + simplify_eq. by eapply Hkeep.
  - unfold release_step in Hs. step_inv; by eapply Hkeep.
  - destruct (task_step_step _ _ _ _ Hs) as (x & s & s2 & Hk & ? & ? & ->).
    eapply Hstep; [exact Hk|eassumption|eassumption|reflexivity|done].
  - simplify_eq. by eapply Hkeep.
  - simplify_eq. by eapply task_from_same.
  - unfold Stop_step in Hs. apply bind_Some in Hs as (ph & _ & Hs).
    destruct ph as [|[|k ts]|k ts|]; try done.
    + simplify_eq. by eapply task_from_same.
    + simplify_eq. by eapply task_from_same.
    + step_inv; by eapply task_from_same.
    + apply bind_Some in Hs as (s & (x & Hk & Hsx)%bind_Some & Hs). simplify_eq.
      eapply Hstep; [exact Hk|exact Hsx|by exists MoveCancel|reflexivity|done].
  - simplify_eq. by eapply task_from_same.
  - unfold Wait_step in Hs. step_inv; by eapply task_from_same.
Qed.


(** ** Which steps panic *)

(** The tasks of safe definitions keep hooks and strategies that return. *)
Definition tasks_live (g : group) : Prop :=
  ∀ k x s, subs g !! k = Some x → sub_task x = Some s → safe (def x) → live_inv s.

Lemma New_live d s0 c : safe d → Task.New d = Ret s0 → live_inv (set_callers [call_Go (Some c)] s0).
Proof.
  intros Hsafe Hn. eapply (initial_live d [call_Go (Some c)]); [done|]. exists s0. split_and!; try done.
  constructor; [right; eauto|constructor].
Qed.

Lemma tasks_live_step m g g' : group_inv m g → gstep g g' → tasks_live g → tasks_live g'.
Proof.
  intros Hinv Hs Hl k x' s' Hk Hx Hsafe.
  assert (∀ x, subs g !! k = Some x → def x' = def x) as Hdef.
  { intros x Hkx. destruct (gstep_subs_le _ _ _ Hinv Hs k x Hkx) as (y & Hy & Hd & _). congruence. }
  destruct (gstep_tasks _ _ _ _ _ Hs Hk Hx) as [(x & s & Hkx & Hsx & Hor)|(x & s0 & c & Hkx & Hn & ->)];
    rewrite (Hdef _ Hkx) in Hsafe.
  - pose proof (Hl _ _ _ Hkx Hsx Hsafe). destruct Hor as [<-|Hst]; [done|by eapply step_live_inv].
  - by eapply New_live.
Qed.

Lemma sub_task_go m g k x s : group_inv m g → subs g !! k = Some x → sub_task x = Some s → go_inv s.
Proof.
  intros Hinv Hk Hs. pose proof (gi_subs _ _ Hinv _ _ Hk) as Hx. unfold sub_inv in Hx. rewrite Hs in Hx.
  destruct (sub_at x) as [| | | | |[e|]]; destruct Hx as [? Hx]; try done;
    try (destruct Hx as (? & [= <-] & ?); tauto).
  destruct Hx as [?|(? & [= <-] & ? & _)]; done.
Qed.

(** No step of a task of the group panics. *)
Lemma go_act_no_panic mv s : go_inv s → live_inv s → act mv s ≠ Some Panic.
Proof.
  intros (_ & c & Hc & _ & Hph) Hl H. destruct (act_panics _ _ Hl H) as (j & b & c' & _ & Hj & Hat & _).
  rewrite Hc in Hj. apply list_lookup_singleton_Some in Hj as [_ ->]. by rewrite Hat in Hph.
Qed.

Lemma New_no_panic d : safe d → Task.New d ≠ Panic.
Proof.
  intros [Hh _]. unfold Task.New, transition. cbn. destruct (Hooks d) as [h|]; [|done].
  destruct (Hh h eq_refl) as (-> & _). done.
Qed.

(** Only a call of [Wait] can panic: woken, with the counter of [releaseWg] above zero. *)
Lemma gact_panics m g mv :
  group_inv m g → tasks_live g → (∀ k x, subs g !! k = Some x → safe (def x)) → gact mv g = Some Panic →
  ∃ i ts aw, mv = MoveWait i WaitReleases ∧ waits g !! i = Some (WaitAll ts aw RelWoken) ∧
    forallb released (subs g) = false.
Proof.
  intros Hinv Hl Hsafe H.
  assert (∀ k x s mv, subs g !! k = Some x → sub_task x = Some s → act mv s ≠ Some Panic) as Hact
    by (intros; apply go_act_no_panic; [by eapply sub_task_go|by eapply Hl; eauto]).
  destruct mv; cbn [gact] in H; try done.
  - exfalso. unfold Submit_step in H. apply bind_Some in H as (x & Hk & H). destruct (sub_at x); try done.
    + by apply bind_Some in H as (r & _ & H).
    + destruct (Task.New (def x)) eqn:Hn; [done|]. by apply (New_no_panic (def x)); eauto.
    + apply bind_Some in H as (s & Hs & H). destruct (go_phase s) as [| | | | | | | | | | | | | | |[e|]];
        try (by apply bind_Some in H as (r & _ & H)); try done;
        apply bind_Some in H as ([o|] & Ho & H); try done; by apply (Hact k x s (MoveCaller 0 (i =? 0)%nat)) in Ho.
  - exfalso. unfold release_step in H. apply bind_Some in H as (x & _ & H). destruct (releaser x); try done.
    + apply bind_Some in H as (s & _ & H). by destruct (Await s).
    + by apply bind_Some in H as (r & _ & H).
  - exfalso. assert (∃ s, (subs g !! k ≫= sub_task) = Some s ∧ act m0 s = Some Panic) as (s & (x & Hk & Hs)%bind_Some & Hp).
    { destruct m0; try done; cbn [task_step] in H; apply bind_Some in H as (s & Hsx & H);
        apply bind_Some in H as ([s'|] & Ho & H); try done; eauto. }
    by apply (Hact k x s m0) in Hp.
  - exfalso. unfold Stop_step in H. apply bind_Some in H as (ph & _ & H). destruct ph as [|[|k ts]|k ts|]; try done;
      by apply bind_Some in H as (s & _ & H).
  - unfold Wait_step in H. apply bind_Some in H as (ph & Hi & H). destruct ph as [|ts aw rel|]; try done. destruct p as [n| |].
    + apply bind_Some in H as (k & _ & H). apply bind_Some in H as (x & _ & H). by destruct (sub_over x).
    + destruct rel; try done. destruct (forallb released (subs g)) eqn:Hr; [done|]. by exists i, ts, aw.
    + destruct aw, rel; done.
Qed.
