(* ===== verification/TaskGroupSafety.v ===== *)
(** * What a task group guarantees

    Over every interleaving of its calls and of the goroutines of its tasks: the slots
    held are exactly those of submissions in progress and unfinished tasks. *)
From S2P Require Import Prelude Golang Retry Semaphore Task TaskRuns TaskTermination TaskRetry TaskGroup TaskGroupInvariant.
Local Open Scope Z_scope.

Lemma count_states sts s :
  Forall (λ st, CREATED ≤ st ≤ CANCELED) sts →
  let s' := fold_left count_state sts s in
  Total s' = Total s ∧
  Created s' + Pending s' + Started s' + Done s' + Failed s' + Canceled_ s' =
  Created s + Pending s + Started s + Done s + Failed s + Canceled_ s + Z.of_nat (length sts).
Proof.
  intros H. revert s. induction H as [|st sts Hst _ IH]; intros s; cbn [fold_left length]; [cbn; lia|].
  cbn zeta in *. destruct (IH (count_state s st)) as [-> ->].
  unfold CREATED, CANCELED in Hst. destruct s. unfold count_state.
  repeat case_match; cbn; boolify; unfold CREATED, PENDING, STARTED, DONE, FAILED, CANCELED in *; lia.
Qed.

Lemma appended_task x : sub_inv x → appended x = true → ∃ s, sub_task x = Some s ∧ go_inv s ∧ length (runs s) = 1%nat.
Proof.
  intros Hx Ha. destruct (appended_returned _ Hx Ha) as (s & Hs & Hgo & Hp). exists s. split_and!; try done. destruct Hgo as (_ & c & Hc & _ & Hph).
  unfold go_phase in Hp. rewrite Hc in Hp. by rewrite Hp in Hph.
Qed.

Lemma states_spec m g :
  group_inv m g → length (states g) = length (tasks g) ∧ Forall (λ st, CREATED ≤ st ≤ CANCELED) (states g).
Proof.
  intros Hinv. unfold states.
  assert (∀ k, k ∈ tasks g → ∃ x s, subs g !! k = Some x ∧ sub_task x = Some s ∧ go_inv s) as Hall.
  { intros k Hk. apply (gi_tasks _ _ Hinv) in Hk as (x & Hx & Ha).
    destruct (appended_task x) as (s & ? & ? & _); eauto using gi_subs. }
  clear Hinv. induction (tasks g) as [|k ts IH]; cbn; [by split|].
  destruct (Hall k) as (x & s & Hx & Hs & Hst & _); [by left|].
  destruct IH as [Hl Hf]; [intros; apply Hall; by right|]. rewrite Hx. cbn. rewrite Hs. cbn.
  split; [by f_equal|by constructor].
Qed.

Lemma held_released g :
  (∀ k x, subs g !! k = Some x → released x = true ∧ ∃ e, sub_at x = SubmitReturned e) → held g = 0.
Proof.
  intros H. unfold held. enough (sum_list_with holds (subs g) ≤ length (subs g) * 0)%nat by lia.
  apply sum_list_with_bound. intros x [k Hk]%list_elem_of_lookup. destruct (H k x Hk) as [Hr [e He]].
  unfold holds. rewrite He. unfold released in Hr. by destruct (releaser x).
Qed.

Lemma unfinished_held m g :
  group_inv m g → Z.of_nat (sum_list_with (λ x, if sub_over x then 0%nat else 1%nat) (subs g)) ≤ held g.
Proof.
  intros Hinv. unfold held. pose proof (gi_subs _ _ Hinv) as Hs. clear Hinv.
  assert (∀ x, x ∈ subs g → sub_inv x) as Hs' by (intros x [k ?]%list_elem_of_lookup; eauto). clear Hs.
  induction (subs g) as [|x l IH]; cbn; [lia|].
  pose proof (unfinished_holds x (Hs' x ltac:(by left))). specialize (IH ltac:(intros; apply Hs'; by right)). lia.
Qed.

(** C15: for any interleaving of submissions, stops, waits and tasks, the active
    workers are the slots held, never more than [maxWorkers]; a task that is not over
    holds a slot, so at most [maxWorkers] run; when all submissions have returned and
    given back their slots no worker is active. The list of tasks is exactly the
    submissions whose [Go] succeeded, each started once; the tasks that a [Wait] which
    returned had found in it are over; and the counters of [Stats] add up to [Total].
    When no hook and no strategy of the submitted definitions panics, the only step that
    can panic is that of a [Wait] whose [releaseWg.Wait] was woken by the counter at zero
    and finds it above zero again: a submission reused the WaitGroup meanwhile. *)
Theorem group_respects_limit m g0 g :
  New m = Ret (inr g0) → rtc gstep g0 g →
  MaxWorkers g = m ∧ 0 ≤ ActiveWorkers g ≤ m ∧ AvailableWorkers g = m - ActiveWorkers g ∧
  ActiveWorkers g = Z.of_nat (sum_list_with holds (subs g)) ∧
  Z.of_nat (sum_list_with (λ x, if sub_over x then 0%nat else 1%nat) (subs g)) ≤ ActiveWorkers g ∧
  ((∀ k x, subs g !! k = Some x → released x = true ∧ ∃ e, sub_at x = SubmitReturned e) →
   ActiveWorkers g = 0) ∧
  NoDup (tasks g) ∧
  (∀ k, k ∈ tasks g ↔ ∃ x, subs g !! k = Some x ∧ appended x = true) ∧
  (∀ k x, subs g !! k = Some x → appended x = true → ∃ s, sub_task x = Some s ∧ length (runs s) = 1%nat) ∧
  (∀ ts k, WaitReturned ts ∈ waits g → k ∈ ts →
     ∃ x, subs g !! k = Some x ∧ appended x = true ∧ sub_over x = true) ∧
  (let st := stats g in
   Created st + Pending st + Started st + Done st + Failed st + Canceled_ st = Total st) ∧
  ((∀ k x, subs g !! k = Some x → safe (def x)) → ∀ mv, gact mv g = Some Panic →
   ∃ i ts aw, mv = MoveWait i WaitReleases ∧ waits g !! i = Some (WaitAll ts aw RelWoken) ∧
     forallb released (subs g) = false).
Proof.
  intros Hnew Hrtc.
  assert (group_inv m g ∧ Forall (wait_inv g) (waits g) ∧ tasks_live g) as (Hinv & Hw & Hl0).
  { apply (rtc_preserves gstep (λ g, group_inv m g ∧ Forall (wait_inv g) (waits g) ∧ tasks_live g)) with g0; [|done|].
    - intros g1 g2 (? & ? & ?) ?. split_and!; [by eapply gstep_inv|by eapply wait_inv_step|by eapply tasks_live_step].
    - split; [by apply New_inv|]. unfold New in Hnew. destruct (m <=? 0); [done|].
      apply obind_Ret in Hnew as (? & _ & [= <-]). split; [constructor|by intros k y s]. }
  pose proof (gi_sem _ _ Hinv) as Hc. pose proof (counts_available _ _ _ Hc) as Hav.
  destruct Hc as (Hn & _ & Hlim & Hacq). pose proof (states_spec _ _ Hinv) as [Hl Hst].
  unfold MaxWorkers, ActiveWorkers, AvailableWorkers. rewrite Hlim, Hacq.
  split_and!; try done; try apply Hinv; try lia.
  - by apply (unfinished_held m).
  - apply held_released.
  - intros k x Hk Ha. destruct (appended_task x) as (s & ? & _ & ?); eauto using gi_subs.
  - intros ts k Hts Hk. rewrite Forall_forall in Hw. by apply (Hw _ Hts).
  - cbn zeta. unfold stats. destruct (count_states (states g) (MkStats (Z.of_nat (length (tasks g))) 0 0 0 0 0 0
      (MaxWorkers g) (ActiveWorkers g) (stopped g)) Hst) as [-> ->]. cbn. lia.
  - intros Hsafe mv. by eapply gact_panics.
Qed.

(** ** A group of one worker *)

Lemma gexec_rtc ms g g' : gexec ms g = Some g' → rtc gstep g g'.
Proof.
  revert g. induction ms as [|m ms IH]; cbn; intros g H; [by simplify_eq|].
  destruct (gact m g) as [[g1|]|] eqn:Hm; try done. eapply rtc_l; [by exists m|by apply IH].
Qed.

Definition one_worker : group :=
  MkGroup (MkSemaphore (Chan 1 [] false)) [] false [] [] [].

(** Two calls of [Submit]: the first starts its task, the second waits for the slot. *)
Definition two_submits : list gmove :=
  [CallSubmit job live; CallSubmit job live] ++ replicate 10 (MoveSubmit 0 0) ++ [MoveSubmit 1 0].

(** [Stop] from its copy to its return: the first task is canceled. *)
Definition stop_moves : list gmove := CallStop :: replicate 4 (MoveStop 0).

(** The first task ends and gives its slot back; the second call goes on. *)
Definition after_stop : list gmove :=
  [MoveTask 0 (MoveRun 0 OnTimeout); MoveTask 0 (MoveRun 0 OnCtxDone);
   MoveTask 0 (MoveRun 0 OnTimeout); MoveTask 0 (MoveRun 0 OnTimeout);
   MoveRelease 0; MoveRelease 0; MoveRelease 0] ++ replicate 9 (MoveSubmit 1 0).

Definition busy : group := Eval cbv in
  match gexec two_submits one_worker with Some g => g | None => one_worker end.

Lemma busy_reachable : rtc gstep one_worker busy.
Proof. apply (gexec_rtc two_submits). vm_compute. reflexivity. Qed.

Lemma group_respects_limit_witness :
  ActiveWorkers busy = 1 ∧ AvailableWorkers busy = 0 ∧ tasks busy = [0%nat] ∧
  Z.of_nat (sum_list_with (λ x, if sub_over x then 0%nat else 1%nat) (subs busy)) ≤ 1.
Proof.
  destruct (group_respects_limit 1 one_worker busy eq_refl busy_reachable)
    as (_ & _ & Hav & Ha & Hu & _).
  assert (ActiveWorkers busy = 1) as H1 by (rewrite Ha; reflexivity).
  rewrite H1 in *. split_and!; [done|done|reflexivity|done].
Defined.

(** A [Submit] that waits for a slot while [Stop] runs is neither refused nor
    canceled: its task starts after [Stop] has returned. *)
Example submit_survives_stop :
  ∃ g, gexec (two_submits ++ stop_moves ++ after_stop) one_worker = Some g ∧
    stopped g = true ∧ stops g = [StopReturned] ∧ tasks g = [0; 1]%nat ∧
    states g = [CANCELED; STARTED].
Proof. eexists. split; [vm_compute; reflexivity|]. by split_and!. Qed.

(** [Wait] returns once the one task it copied is over and its slot given back. *)
Example wait_returns :
  ∃ g, gexec (CallSubmit job live :: replicate 10 (MoveSubmit 0 0) ++ [CallWait; MoveWait 0 WaitGroup] ++
      (MoveTask 0 <$> run_moves 0) ++ replicate 3 (MoveRelease 0) ++
      [MoveWait 0 (WaitTask 0); MoveWait 0 WaitReleases; MoveWait 0 WaitGroup]) one_worker = Some g ∧
    waits g = [WaitReturned [0%nat]] ∧ ActiveWorkers g = 0.
Proof. eexists. split; [vm_compute; reflexivity|]. by split_and!. Qed.

(** [Wait] blocks on [releaseWg], the first task ends and wakes it, and a second
    submission starts its own before [Wait] has gone on: [Wait] panics. *)
Example wait_reuse_panics :
  ∃ g, gexec (CallSubmit job live :: replicate 10 (MoveSubmit 0 0) ++
      [CallWait; MoveWait 0 WaitGroup; MoveWait 0 WaitReleases] ++
      (MoveTask 0 <$> run_moves 0) ++ replicate 3 (MoveRelease 0) ++
      CallSubmit job live :: replicate 10 (MoveSubmit 1 0)) one_worker = Some g ∧
    waits g = [WaitAll [0%nat] [0%nat] RelWoken] ∧ gact (MoveWait 0 WaitReleases) g = Some Panic.
Proof. eexists. split; [vm_compute; reflexivity|]. by split_and!. Qed.
