(* ===== verification/TaskGroupBatch.v ===== *)
(** * Submitting many tasks ([SubmitBatch] and [SubmitWithErrGroup] of taskgroup.go)

    Both are callers of [Submit] over the group: a batch makes its calls one after the
    other, an error group one per goroutine. golang.org/x/sync/errgroup is a parameter,
    as what its [Wait] returns for the results of the functions in the order they
    returned. *)
From S2P Require Import Prelude Golang Retry Semaphore Task TaskGroup.

(** What [Wait] of an error group returns. *)
Class ErrGroup := eg_Wait : list (option error) → option error.

(** Its documentation: the first non-nil error (if any) of the functions. *)
Definition ErrGroupLaw (w : ErrGroup) : Prop :=
  ∀ rs, w rs = foldr (λ r e, match r with Some x => Some x | None => e end) None rs.

(** The positions of [SubmitBatch]: before the next definition, in the call of [Submit]
    that is submission [k] of the group, and returned. *)
Inductive batch_phase := BatchNext | BatchIn (k : nat) | BatchReturned (e : option error).

(** [b_defs] are the definitions left, [b_tasks] the tasks so far; [b_all], the argument,
    is history. *)
Record batch := MkBatch {
  b_all : list TaskDefinition;
  b_defs : list TaskDefinition;
  b_ctx : ctx;
  b_tasks : list nat;
  b_at : batch_phase;
}.

(** The positions of a function of [SubmitWithErrGroup]: before [Submit], in it, in
    [Await], before [IsFailed], before [Err], and returned. *)
Inductive fn_phase :=
| FnStart
| FnIn (k : nat)
| FnAwait (k : nat)
| FnCheck (k : nat)
| FnErr (k : nat)
| FnReturned (e : option error).

Record errfn := MkErrFn { fn_def : TaskDefinition; fn_at : fn_phase }.

(** A call of [SubmitWithErrGroup]: the definitions without a goroutine yet, the
    context of the group, its functions, their results as they returned, and what
    the call returned; [e_all], the argument, is history. *)
Record egroup := MkEGroup {
  e_all : list TaskDefinition;
  e_defs : list TaskDefinition;
  e_ctx : ctx;
  e_fns : list errfn;
  e_results : list (option error);
  e_returned : option (option error);
}.

(** The group with its callers. *)
Record world := MkWorld { grp : group; batches : list batch; egroups : list egroup }.

(** What the call of [Submit] number [k] returned, once it did. *)
Definition submit_result (k : nat) (g : group) : option (option error) :=
  x ← subs g !! k; match sub_at x with SubmitReturned e => Some e | _ => None end.

Definition SubmitBatch_step (i : nat) (w : world) : option world :=
  b ← batches w !! i;
  let to (b : batch) (g : group) := Some (MkWorld g (<[i := b]> (batches w)) (egroups w)) in
  match b_at b with
  | BatchNext =>
      match b_defs b with
      | [] => to (MkBatch (b_all b) [] (b_ctx b) (b_tasks b) (BatchReturned None)) (grp w)
      | d :: ds =>
          to (MkBatch (b_all b) ds (b_ctx b) (b_tasks b) (BatchIn (length (subs (grp w)))))
             (new_submission d (b_ctx b) (grp w))
      end
  | BatchIn k =>
      e ← submit_result k (grp w);
      match e with
      | Some e => to (MkBatch (b_all b) (b_defs b) (b_ctx b) (b_tasks b) (BatchReturned (Some e))) (grp w)
      | None => to (MkBatch (b_all b) (b_defs b) (b_ctx b) (b_tasks b ++ [k]) BatchNext) (grp w)
      end
  | BatchReturned _ => None
  end.

(** A step of one function of an error group. *)
Definition errfn_step (x : ctx) (f : errfn) (g : group) : option (errfn * group) :=
  let to (ph : fn_phase) (g : group) := Some (MkErrFn (fn_def f) ph, g) in
  match fn_at f with
  | FnStart => to (FnIn (length (subs g))) (new_submission (fn_def f) x g)
  | FnIn k =>
      e ← submit_result k g;
      to (match e with Some e => FnReturned (Some e) | None => FnAwait k end) g
  | FnAwait k => s ← subs g !! k ≫= sub_task; if Await s then to (FnCheck k) g else None
  | FnCheck k =>
      s ← subs g !! k ≫= sub_task;
      to (if IsFailed (task s) then FnErr k else FnReturned None) g
  | FnErr k => s ← subs g !! k ≫= sub_task; to (FnReturned (Task.err (task s))) g
  | FnReturned _ => None
  end.

Definition errfn_result (f : errfn) : option (option error) :=
  match fn_at f with FnReturned e => Some e | _ => None end.
Definition fn_over (f : errfn) : bool := match fn_at f with FnReturned _ => true | _ => false end.

(** What a step of an error group does: start the function of the next definition,
    move function [j], or return from [Wait]. *)
Inductive eg_move := EgGo | EgFn (j : nat) | EgWait.

Definition SubmitWithErrGroup_step `{ErrGroup} (i : nat) (m : eg_move) (w : world) : option world :=
  e ← egroups w !! i;
  let to (e : egroup) (g : group) := Some (MkWorld g (batches w) (<[i := e]> (egroups w))) in
  match m with
  | EgGo =>
      match e_defs e with
      | [] => None
      | d :: ds => to (MkEGroup (e_all e) ds (e_ctx e) (e_fns e ++ [MkErrFn d FnStart]) (e_results e) (e_returned e)) (grp w)
      end
  | EgFn j =>
      f ← e_fns e !! j;
      r ← errfn_step (e_ctx e) f (grp w);
      to (MkEGroup (e_all e) (e_defs e) (e_ctx e) (<[j := r.1]> (e_fns e))
            (match errfn_result r.1 with Some x => e_results e ++ [x] | None => e_results e end)
            (e_returned e)) r.2
  | EgWait =>
      match e_defs e, e_returned e with
      | [], None =>
          if forallb fn_over (e_fns e)
          then to (MkEGroup (e_all e) [] (e_ctx e) (e_fns e) (e_results e) (Some (eg_Wait (e_results e)))) (grp w)
          else None
      | _, _ => None
      end
  end.

Inductive wmove :=
| GroupMove (m : gmove)
| CallBatch (x : ctx) (ds : list TaskDefinition)
| MoveBatch (i : nat)
| CallErrGroup (x : ctx) (ds : list TaskDefinition)
| MoveErrGroup (i : nat) (m : eg_move).

Definition wact `{ErrGroup} (m : wmove) (w : world) : option world :=
  match m with
  | GroupMove m =>
      match gact m (grp w) with
      | Some (Ret g) => Some (MkWorld g (batches w) (egroups w))
      | _ => None
      end
  | CallBatch x ds => Some (MkWorld (grp w) (batches w ++ [MkBatch ds ds x [] BatchNext]) (egroups w))
  | MoveBatch i => SubmitBatch_step i w
  | CallErrGroup x ds => Some (MkWorld (grp w) (batches w) (egroups w ++ [MkEGroup ds ds x [] [] None]))
  | MoveErrGroup i m => SubmitWithErrGroup_step i m w
  end.

Definition wstep `{ErrGroup} (w w' : world) : Prop := ∃ m, wact m w = Some w'.

Fixpoint wexec `{ErrGroup} (ms : list wmove) (w : world) : option world :=
  match ms with
  | [] => Some w
  | m :: ms => match wact m w with Some w => wexec ms w | None => None end
  end.
