(* ===== verification/TaskGroupBatchSafety.v ===== *)
(** * What the callers of [Submit] get

    A batch submits its definitions in order until one is refused; an error group
    returns nil only when all its tasks were started, are over and none is failed. *)
From S2P Require Import Prelude Golang Retry Semaphore Task TaskRuns TaskTermination TaskRetry TaskGroup TaskGroupInvariant TaskGroupSafety TaskGroupBatch.

(** ** A failed task has an error *)

(** A failed state comes with the error, or with a run about to store it. *)
Definition failure_recorded (s : sys) : Prop :=
  state (task s) = FAILED →
  err (task s) ≠ None ∨
  ∃ k r, runs s !! k = Some r ∧ match run_at r with RunTimedOut | RunReturn (Some _) => True | _ => False end.

Lemma failure_recorded_frame s s' :
  (state (task s') = FAILED → state (task s) = FAILED) → (err (task s) ≠ None → err (task s') ≠ None) →
  (∀ k r, runs s !! k = Some r → match run_at r with RunTimedOut | RunReturn (Some _) => True | _ => False end →
     err (task s') ≠ None ∨
     ∃ k r, runs s' !! k = Some r ∧ match run_at r with RunTimedOut | RunReturn (Some _) => True | _ => False end) →
  failure_recorded s → failure_recorded s'.
Proof. unfold failure_recorded. intros H1 H2 H3 Hf Hst. destruct (Hf (H1 Hst)) as [?|(k & r & ? & ?)]; eauto. Qed.

(** A step that keeps the runs and the error. *)
Lemma failure_recorded_same s s' :
  (state (task s') = FAILED → state (task s) = FAILED) → err (task s') = err (task s) →
  (∃ l, runs s' = runs s ++ l) → failure_recorded s → failure_recorded s'.
Proof.
  intros H1 H2 [l H3]. apply failure_recorded_frame; [done|by rewrite H2|].
  intros k r Hk Hr. right. exists k, r. rewrite H3. split; [by apply lookup_app_l_Some|done].
Qed.

Lemma failure_recorded_alter s s' j r f :
  runs s' = alter f j (runs s) → runs s !! j = Some r → err (task s') = err (task s) ∨ err (task s') ≠ None →
  (state (task s') = FAILED → state (task s) = FAILED ∨ match run_at (f r) with RunTimedOut | RunReturn (Some _) => True | _ => False end) →
  (match run_at r with RunTimedOut | RunReturn (Some _) => True | _ => False end →
     err (task s') ≠ None ∨ match run_at (f r) with RunTimedOut | RunReturn (Some _) => True | _ => False end) →
  failure_recorded s → failure_recorded s'.
Proof.
  intros Hr Hj He Hst Hph Hf Hst'.
  assert (runs s' !! j = Some (f r)) as Hj' by (by rewrite Hr, list_lookup_alter_eq, Hj).
  destruct (Hst Hst') as [Hfail|?]; [|by right; eauto].
  destruct (Hf Hfail) as [Herr|(k & r' & Hk & Hkr)]; [left; by destruct He as [->|?]|].
  destruct (decide (k = j)) as [->|Hne].
  - rewrite Hj in Hk. simplify_eq. destruct (Hph Hkr); [by left|by right; eauto].
  - right. exists k, r'. rewrite Hr, list_lookup_alter_ne by done. done.
Qed.

Lemma failure_recorded_step s s' : go_inv s → failure_recorded s → step s s' → failure_recorded s'.
Proof.
  intros Hgo Hinv [mv Hs]. destruct mv; cbn [act] in Hs.
  - destruct Hgo as (_ & c & Hc & Hret & Hph).
    assert (∀ x, callers s !! j = Some x → x = c) as Hj.
    { rewrite Hc. intros x Hx. by apply list_lookup_singleton_Some in Hx as [_ ->]. }
    unfold_step Hs. unfold go_returns in Hs. step_inv;
      match goal with H : callers s !! j = Some ?x |- _ => rewrite (Hj x H) in * end;
      (apply (failure_recorded_same s);
         [try done|try done|first [by eexists|exists []; by rewrite app_nil_r]|exact Hinv]).
    by rewrite Heqc0 in Hph.
  - unfold_step Hs. step_inv;
    match goal with
    | |- failure_recorded (upd_run _ ?f (log _ (upd_task _ (upd_run _ ?g _)))) =>
        eapply (failure_recorded_alter s _ _ _ (λ r, f (g r))); [apply (list_alter_alter_eq f g)|eassumption|..|exact Hinv]
    | _ => eapply (failure_recorded_alter s); [reflexivity|eassumption|..|exact Hinv]
    end; cbn; auto.
    all: repeat match goal with H : run_at _ = _ |- _ => rewrite ?H; clear H end; try done.
    all: try (intros; by right); try (intros; right; by repeat case_match).
  - unfold_step Hs. step_inv;
      (eapply (failure_recorded_alter s); [reflexivity|eassumption|..|exact Hinv]); cbn; auto;
      intros; right; by destruct (ctx_of _ _).
  - simplify_eq. unfold Cancel. destruct (cancel (task s)); [|done].
    apply (failure_recorded_same s); try done. exists []. by rewrite app_nil_r.
  - step_inv. destruct cancel; [|done]. apply (failure_recorded_same s); try done. exists []. by rewrite app_nil_r.
  - simplify_eq. apply (failure_recorded_same s); try done. exists []. by rewrite app_nil_r.
  - unfold propagate in Hs. step_inv. apply (failure_recorded_same s); try done. exists []. by rewrite app_nil_r.
Qed.

(** The group's invariant, and that failures are recorded. *)
Definition good (m : Z) (g : group) : Prop :=
  group_inv m g ∧ ∀ k x s, subs g !! k = Some x → sub_task x = Some s → failure_recorded s.

Lemma good_step m g g' : good m g → gstep g g' → good m g'.
Proof.
  intros [Hinv Hf] Hs. split; [by eapply gstep_inv|]. intros k x s Hk Hx.
  destruct (gstep_tasks _ _ _ _ _ Hs Hk Hx) as [(y & s1 & Hy & Hsy & [<-|Hst])|(y & s0 & c & _ & Hn & ->)].
  - by eapply Hf.
  - eapply failure_recorded_step; [by eapply sub_task_go|by eapply Hf|done].
  - unfold Task.New in Hn. apply transition_Ret in Hn as [-> _]. intros Hst. done.
Qed.

(** A failed task that is over has its error. *)
Lemma failed_has_error m g k x s :
  good m g → subs g !! k = Some x → sub_task x = Some s → Await s = true → IsFailed (task s) = true →
  err (task s) ≠ None.
Proof.
  intros [_ Hf] Hk Hx Ha Hfail. unfold IsFailed in Hfail. boolify.
  destruct (Hf _ _ _ Hk Hx Hfail) as [?|(j & r & Hj & Hr)]; [done|].
  pose proof (forallb_lookup _ _ _ _ Ha Hj) as Hover. unfold run_over in Hover. by destruct (run_at r).
Qed.

(** ** Batches *)

(** Submission [k] is of [d], and [Submit] returned [e]. *)
Definition answered (g : group) (e : option error) (k : nat) (d : TaskDefinition) : Prop :=
  ∃ x, subs g !! k = Some x ∧ def x = d ∧ sub_at x = SubmitReturned e.

(** Its task is over, with this state and error. *)
Definition ended_as (g : group) (st : Z) (e : option error) (k : nat) (d : TaskDefinition) : Prop :=
  ∃ x s, subs g !! k = Some x ∧ def x = d ∧ sub_at x = SubmitReturned None ∧ sub_task x = Some s ∧
    Await s = true ∧ state (task s) = st ∧ err (task s) = e.

Lemma answered_le g g' e k d : subs_le g g' → answered g e k d → answered g' e k d.
Proof.
  intros Hle (x & Hk & <- & Hat). destruct (Hle k x Hk) as (x' & ? & Hd & Ha & _). exists x'. auto.
Qed.

Lemma ended_as_le g g' st e k d : subs_le g g' → ended_as g st e k d → ended_as g' st e k d.
Proof.
  intros Hle (x & s & Hk & <- & Hat & Hs & Ha & <- & <-).
  destruct (Hle k x Hk) as (x' & ? & Hd & Hat' & Ho).
  destruct (Ho Hat) as [Ho' He]; [unfold sub_over; by rewrite Hs|]. unfold outcome_of in He. rewrite Hs in He.
  unfold sub_over in Ho'. destruct (sub_task x') as [s'|] eqn:Hs'; [|done]. cbn in He. simplify_eq.
  exists x', s'. split_and!; auto.
Qed.

(** The definitions answered so far, the one in [Submit], and those left. *)
Definition batch_inv (g : group) (b : batch) : Prop :=
  ∃ ds, Forall2 (answered g None) (b_tasks b) ds ∧
  match b_at b with
  | BatchNext => b_all b = ds ++ b_defs b
  | BatchIn k => ∃ d x, b_all b = ds ++ d :: b_defs b ∧ subs g !! k = Some x ∧ def x = d
  | BatchReturned None => b_all b = ds
  | BatchReturned (Some e) => ∃ k d, b_all b = ds ++ d :: b_defs b ∧ answered g (Some e) k d
  end.

Lemma Forall2_answered_le g g' ks ds :
  subs_le g g' → Forall2 (answered g None) ks ds → Forall2 (answered g' None) ks ds.
Proof. intros Hle Hf. eapply Forall2_impl; [exact Hf|]. intros. by eapply answered_le. Qed.

Lemma batch_inv_le g g' b : subs_le g g' → batch_inv g b → batch_inv g' b.
Proof.
  intros Hle (ds & Hds & Hat). exists ds. split; [by eapply Forall2_answered_le|].
  destruct (b_at b) as [|k|[e|]]; try done.
  - destruct Hat as (d & x & ? & Hk & <-). destruct (Hle k x Hk) as (x' & ? & ? & _). eauto.
  - destruct Hat as (k & d & ? & ?). exists k, d. split; [done|]. by eapply answered_le.
Qed.

Lemma submit_result_answered g k e x :
  submit_result k g = Some e → subs g !! k = Some x → answered g e k (def x).
Proof.
  unfold submit_result. intros H Hk. rewrite Hk in H. cbn in H. exists x. split_and!; try done.
  by destruct (sub_at x); simplify_eq.
Qed.

Lemma new_submission_lookup d x g :
  ∃ y, subs (new_submission d x g) !! length (subs g) = Some y ∧ def y = d.
Proof. eexists. cbn. rewrite list_lookup_middle by done. by split. Qed.

(** A step of the batch; the group only gets submissions. *)
Lemma SubmitBatch_step_inv i w w' :
  (∀ i b, batches w !! i = Some b → batch_inv (grp w) b) → SubmitBatch_step i w = Some w' →
  (grp w' = grp w ∨ ∃ d x, grp w' = new_submission d x (grp w)) ∧ egroups w' = egroups w ∧
  ∀ i b, batches w' !! i = Some b → batch_inv (grp w') b.
Proof.
  intros Hinv Hs. unfold SubmitBatch_step in Hs. apply bind_Some in Hs as (b & Hb & Hs).
  destruct (Hinv _ _ Hb) as (ds & Hds & Hat).
  assert (∀ b' g, subs_le (grp w) g → batch_inv g b' →
    ∀ j c, <[i := b']> (batches w) !! j = Some c → batch_inv g c) as Hupd.
  { intros b' g Hle Hb' j c Hj. destruct (decide (j = i)) as [->|Hne].
    - rewrite list_lookup_insert_eq in Hj by (by eapply lookup_lt_Some). by simplify_eq.
    - rewrite list_lookup_insert_ne in Hj by done. eapply batch_inv_le; [exact Hle|by eapply Hinv]. }
  destruct (b_at b) as [|k|e] eqn:Hph; [destruct (b_defs b) as [|d rest] eqn:Hd| |done]; cbn in Hs.
  - simplify_eq. cbn. split_and!; [by left|done|]. apply Hupd; [done|]. exists ds. split; [done|]. cbn.
    by rewrite app_nil_r in Hat.
  - simplify_eq. cbn. split_and!; [right; eauto|done|]. pose proof (subs_le_new d (b_ctx b) (grp w)) as Hle.
    apply Hupd; [done|]. exists ds. split; [by eapply Forall2_answered_le|]. cbn.
    destruct (new_submission_lookup d (b_ctx b) (grp w)) as (y & ? & ?). eauto.
  - apply bind_Some in Hs as (e & He & Hs). destruct Hat as (d & x & Hall & Hk & <-).
    pose proof (submit_result_answered _ _ _ _ He Hk) as Ha.
    destruct e as [e|]; simplify_eq; cbn; (split_and!; [by left|done|]); (apply Hupd; [done|]).
    + exists ds. split; [done|]. cbn. eauto.
    + exists (ds ++ [def x]). split; [by apply Forall2_app; [|constructor]|]. cbn. by rewrite <- app_assoc.
Qed.

(** ** Error groups *)

Definition errfn_inv (g : group) (f : errfn) : Prop :=
  match fn_at f with
  | FnStart => True
  | FnIn k => ∃ x, subs g !! k = Some x ∧ def x = fn_def f
  | FnAwait k => answered g None k (fn_def f)
  | FnCheck k => ∃ st e, ended_as g st e k (fn_def f)
  | FnErr k => ∃ e, ended_as g FAILED (Some e) k (fn_def f)
  | FnReturned None => ∃ k st e, ended_as g st e k (fn_def f) ∧ st ≠ FAILED
  | FnReturned (Some e) =>
      ∃ k, answered g (Some e) k (fn_def f) ∨ ended_as g FAILED (Some e) k (fn_def f)
  end.

Lemma errfn_inv_le g g' f : subs_le g g' → errfn_inv g f → errfn_inv g' f.
Proof.
  intros Hle. unfold errfn_inv. destruct (fn_at f) as [|k|k|k|k|[e|]]; try done.
  - intros (x & Hk & Hd). destruct (Hle k x Hk) as (x' & ? & Hd' & _). exists x'. split; [done|congruence].
  - by apply answered_le.
  - intros (st & e & ?). exists st, e. by eapply ended_as_le.
  - intros (e & ?). exists e. by eapply ended_as_le.
  - intros (k & [?|?]); exists k; [left; by eapply answered_le|right; by eapply ended_as_le].
  - intros (k & st & e & ? & ?). exists k, st, e. split; [by eapply ended_as_le|done].
Qed.

Lemma errfn_step_inv m x f g f' g' :
  good m g → errfn_inv g f → errfn_step x f g = Some (f', g') →
  (g' = g ∨ ∃ d x, g' = new_submission d x g) ∧ errfn_inv g' f' ∧ fn_def f' = fn_def f ∧ errfn_result f = None.
Proof.
  intros Hg Hf Hs. unfold errfn_step in Hs. unfold errfn_inv in Hf. unfold errfn_result.
  destruct (fn_at f) as [|k|k|k|k|e] eqn:Hat; try done; cbn in Hs.
  - simplify_eq. split_and!; [right; eauto| |done..]. unfold errfn_inv. cbn. apply new_submission_lookup.
  - destruct Hf as (y & Hk & Hd). apply bind_Some in Hs as (e & He & Hs). simplify_eq.
    pose proof (submit_result_answered _ _ _ _ He Hk) as Ha. rewrite Hd in Ha.
    split_and!; [by left| |done..]. unfold errfn_inv. destruct e as [e|]; cbn; [by exists k; left|done].
  - destruct Hf as (y & Hk & Hd & Hy). apply bind_Some in Hs as (s & Hs1 & Hs). rewrite Hk in Hs1. cbn in Hs1.
    destruct (Await s) eqn:Ha; simplify_eq. split_and!; [by left| |done..].
    unfold errfn_inv. cbn. exists (state (task s)), (err (task s)), y, s. by split_and!.
  - destruct Hf as (st & e & y & s & Hk & Hd & Hy & Hs1 & Ha & <- & <-). rewrite Hk in Hs. cbn in Hs.
    rewrite Hs1 in Hs. cbn in Hs. simplify_eq. split_and!; [by left| |done..]. unfold errfn_inv. cbn.
    destruct (IsFailed (task s)) eqn:Hfail.
    + pose proof (failed_has_error _ _ _ _ _ Hg Hk Hs1 Ha Hfail) as Hne.
      destruct (err (task s)) as [e|] eqn:He; [|done]. exists e, y, s. unfold IsFailed in Hfail. boolify. by split_and!.
    + exists k, (state (task s)), (err (task s)). unfold IsFailed in Hfail. boolify.
      split; [|done]. exists y, s. by split_and!.
  - destruct Hf as (e & y & s & Hk & Hd & Hy & Hs1 & Ha & Hst & He). rewrite Hk in Hs. cbn in Hs.
    rewrite Hs1 in Hs. cbn in Hs. simplify_eq. split_and!; [by left| |done..]. unfold errfn_inv. cbn.
    rewrite He. exists k. right. exists y, s. by split_and!.
Qed.

Record egroup_inv `{ErrGroup} (g : group) (e : egroup) : Prop := {
  ei_all : e_all e = map fn_def (e_fns e) ++ e_defs e;
  ei_results : e_results e ≡ₚ omap errfn_result (e_fns e);
  ei_fns : Forall (errfn_inv g) (e_fns e);
  ei_returned : ∀ r, e_returned e = Some r →
    e_defs e = [] ∧ forallb fn_over (e_fns e) = true ∧ r = eg_Wait (e_results e);
}.

Lemma egroup_inv_le `{ErrGroup} g g' e : subs_le g g' → egroup_inv g e → egroup_inv g' e.
Proof.
  intros Hle [? ? Hf ?]. split; try done. eapply Forall_impl; [exact Hf|]. intros. by eapply errfn_inv_le.
Qed.

Lemma omap_insert_Permutation {A B} (f : A → option B) (l : list A) i x y :
  l !! i = Some x → f x = None →
  omap f (<[i := y]> l) ≡ₚ omap f l ++ match f y with Some b => [b] | None => [] end.
Proof.
  intros Hi Hx. revert i Hi. induction l as [|z l IH]; intros [|i] Hi; simpl in *; simplify_eq.
  - rewrite Hx. destruct (f y) as [b|]; [by rewrite Permutation_app_comm|by rewrite app_nil_r].
  - destruct (f z); [by rewrite (IH _ Hi)|by apply IH].
Qed.

Lemma map_insert_same {A B} (f : A → B) (l : list A) i x y :
  l !! i = Some x → f y = f x → map f (<[i := y]> l) = map f l.
Proof.
  revert i. induction l as [|z l IH]; intros [|i] Hi Hf; simpl in *; simplify_eq; [by rewrite Hf|].
  by rewrite (IH i).
Qed.

Section ErrGroups.
Context `{ErrGroup}.
Variable m : Z.

Lemma SubmitWithErrGroup_step_inv i mv w w' :
  good m (grp w) → (∀ i e, egroups w !! i = Some e → egroup_inv (grp w) e) →
  SubmitWithErrGroup_step i mv w = Some w' →
  (grp w' = grp w ∨ ∃ d x, grp w' = new_submission d x (grp w)) ∧ batches w' = batches w ∧
  ∀ i e, egroups w' !! i = Some e → egroup_inv (grp w') e.
Proof.
  intros Hg Hinv Hs. unfold SubmitWithErrGroup_step in Hs. apply bind_Some in Hs as (e & He & Hs).
  pose proof (Hinv _ _ He) as [Hall Hres Hfns Hret].
  assert (∀ e' g, subs_le (grp w) g → egroup_inv g e' →
    ∀ j c, <[i := e']> (egroups w) !! j = Some c → egroup_inv g c) as Hupd.
  { intros e' g Hle He' j c Hj. destruct (decide (j = i)) as [->|Hne].
    - rewrite list_lookup_insert_eq in Hj by (by eapply lookup_lt_Some). by simplify_eq.
    - rewrite list_lookup_insert_ne in Hj by done. eapply egroup_inv_le; [exact Hle|by eapply Hinv]. }
  destruct mv as [|j|].
  - destruct (e_defs e) as [|d ds] eqn:Hd; [done|]. simplify_eq. cbn. split_and!; [by left|done|].
    apply Hupd; [done|]. split; cbn.
    + by rewrite map_app, <- app_assoc.
    + rewrite omap_app. cbn. by rewrite app_nil_r.
    + apply Forall_app. split; [done|]. by constructor.
    + intros r Hr. by destruct (Hret r Hr).
  - apply bind_Some in Hs as (f & Hf & Hs). apply bind_Some in Hs as ([f' g'] & Hs1 & Hs). simplify_eq. cbn.
    pose proof (Forall_lookup_1 _ _ _ _ Hfns Hf) as Hfi.
    destruct (errfn_step_inv _ _ _ _ _ _ Hg Hfi Hs1) as (Hgr & Hf' & Hdef & Hnone).
    assert (subs_le (grp w) g') as Hle by (destruct Hgr as [->|(d & x & ->)]; [done|apply subs_le_new]).
    split_and!; [done..|]. apply Hupd; [done|]. split; cbn.
    + by rewrite (map_insert_same _ _ _ _ _ Hf Hdef).
    + rewrite (omap_insert_Permutation _ _ _ _ f' Hf Hnone), <- Hres. by destruct (errfn_result f'); rewrite ?app_nil_r.
    + apply Forall_insert; [|done]. eapply Forall_impl; [exact Hfns|]. intros. by eapply errfn_inv_le.
    + intros r Hr. destruct (Hret r Hr) as (_ & Hover & _).
      pose proof (forallb_lookup _ _ _ _ Hover Hf) as Ho. unfold fn_over, errfn_result in *. by destruct (fn_at f).
  - destruct (e_defs e) eqn:Hd, (e_returned e) eqn:Hr; try done.
    destruct (forallb fn_over (e_fns e)) eqn:Hover; simplify_eq. cbn. split_and!; [by left|done|].
    apply Hupd; [done|]. split; cbn; try done. by intros r [= <-].
Qed.

Record world_inv (g0 : group) (w : world) : Prop := {
  wi_reach : rtc gstep g0 (grp w);
  wi_good : good m (grp w);
  wi_batches : ∀ i b, batches w !! i = Some b → batch_inv (grp w) b;
  wi_egroups : ∀ i e, egroups w !! i = Some e → egroup_inv (grp w) e;
}.

(** The group makes a step of its own, or stays. *)
Lemma world_inv_group g0 w w' :
  world_inv g0 w → grp w' = grp w ∨ gstep (grp w) (grp w') →
  (∀ i b, batches w' !! i = Some b → batch_inv (grp w') b) →
  (∀ i e, egroups w' !! i = Some e → egroup_inv (grp w') e) → world_inv g0 w'.
Proof.
  intros [Hr Hg _ _] Hs Hb He. destruct Hs as [Heq|Hs].
  - split; try done; rewrite Heq; done.
  - split; try done; [by eapply rtc_r|by eapply good_step].
Qed.

Lemma gstep_new_submission d x g : gstep g (new_submission d x g).
Proof. by exists (CallSubmit d x). Qed.

Lemma wstep_inv g0 w w' : world_inv g0 w → wstep w w' → world_inv g0 w'.
Proof.
  intros Hw [mv Hs]. pose proof Hw as [Hr Hg Hb He]. destruct mv; cbn [wact] in Hs.
  - destruct (gact m0 (grp w)) as [[g|]|] eqn:Hm; try done. simplify_eq.
    assert (gstep (grp w) g) as Hstep by (by exists m0).
    pose proof (gstep_subs_le _ _ _ (proj1 Hg) Hstep) as Hle.
    apply (world_inv_group g0 w); try done; [by right|..].
    + intros i b Hi. eapply batch_inv_le; [exact Hle|by eapply Hb].
    + intros i e Hi. eapply egroup_inv_le; [exact Hle|by eapply He].
  - simplify_eq. apply (world_inv_group g0 w); try done; [by left|]. cbn.
    intros i b [Hi|[_ Hi]]%lookup_app_Some; [by eapply Hb|].
    apply list_lookup_singleton_Some in Hi as [_ <-]. exists []. by split; [constructor|].
  - destruct (SubmitBatch_step_inv _ _ _ Hb Hs) as (Hgr & Heg & Hb').
    assert (grp w' = grp w ∨ gstep (grp w) (grp w')) as Hgr'
      by (destruct Hgr as [?|(d & x & ->)]; [by left|right; apply gstep_new_submission]).
    apply (world_inv_group g0 w); try done. rewrite Heg. intros j e Hj.
    eapply egroup_inv_le; [|by eapply He]. destruct Hgr as [->|(d & x & ->)]; [done|apply subs_le_new].
  - simplify_eq. apply (world_inv_group g0 w); try done; [by left|]. cbn.
    intros i e [Hi|[_ Hi]]%lookup_app_Some; [by eapply He|].
    apply list_lookup_singleton_Some in Hi as [_ <-]. by split.
  - destruct (SubmitWithErrGroup_step_inv _ _ _ _ Hg He Hs) as (Hgr & Hbs & He').
    assert (grp w' = grp w ∨ gstep (grp w) (grp w')) as Hgr'
      by (destruct Hgr as [?|(d & x & ->)]; [by left|right; apply gstep_new_submission]).
    apply (world_inv_group g0 w); try done. rewrite Hbs. intros j b Hj.
    eapply batch_inv_le; [|by eapply Hb]. destruct Hgr as [->|(d & x & ->)]; [done|apply subs_le_new].
Qed.

(** What the documented [Wait] returns. *)
Lemma eg_Wait_first (Hlaw : ErrGroupLaw eg_Wait) rs :
  match eg_Wait rs with None => Forall (λ r, r = None) rs | Some e => Some e ∈ rs end.
Proof.
  rewrite Hlaw. induction rs as [|[e|] rs IH]; cbn; [constructor|by left|].
  destruct (foldr _ None rs); [by right|by constructor].
Qed.

(** C22: any number of [SubmitBatch] and [SubmitWithErrGroup] calls over a group, with
    anything else going on in it: the group only ever makes steps of its own, so that
    its guarantees hold. A batch that returned has submitted its definitions in order,
    all of them, or up to the one whose error it returns, and the tasks it returns are
    those started. An error group that returned nil has, for every definition, a task
    that was started, is over and is not failed; one that returned an error got it from
    [Submit] or from a task that failed with it. *)
Theorem batches_and_error_groups g0 w :
  TaskGroup.New m = Ret (inr g0) → rtc wstep (MkWorld g0 [] []) w → ErrGroupLaw eg_Wait →
  rtc gstep g0 (grp w) ∧
  (∀ i b r, batches w !! i = Some b → b_at b = BatchReturned r →
     ∃ ds rest, b_all b = ds ++ rest ∧ Forall2 (answered (grp w) None) (b_tasks b) ds ∧
     match r with
     | None => rest = []
     | Some e => ∃ k d, head rest = Some d ∧ answered (grp w) (Some e) k d
     end) ∧
  (∀ i e r, egroups w !! i = Some e → e_returned e = Some r →
     match r with
     | None => Forall (λ d, ∃ k st x, ended_as (grp w) st x k d ∧ st ≠ FAILED) (e_all e)
     | Some x => ∃ d k, d ∈ e_all e ∧
         (answered (grp w) (Some x) k d ∨ ended_as (grp w) FAILED (Some x) k d)
     end).
Proof.
  intros Hnew Hrtc Hlaw.
  assert (world_inv g0 w) as [Hr Hg Hb He].
  { apply (rtc_preserves wstep (world_inv g0) (wstep_inv g0)) in Hrtc; [done|].
    pose proof (New_inv _ _ Hnew) as Hg0. split; try done. split; [done|]. intros k x s Hk. cbn in Hk.
    unfold TaskGroup.New in Hnew. destruct (m <=? 0)%Z; [done|].
    by apply obind_Ret in Hnew as (? & _ & [= <-]). }
  split_and!; [done|..].
  - intros i b r Hi Hat. destruct (Hb i b Hi) as (ds & Hds & Hph). rewrite Hat in Hph. destruct r as [e|].
    + destruct Hph as (k & d & ? & ?). exists ds, (d :: b_defs b). split_and!; eauto.
    + exists ds, []. rewrite app_nil_r. by split_and!.
  - intros i e r Hi Hret. destruct (He i e Hi) as [Hall Hres Hfns Hr']. destruct (Hr' r Hret) as (Hd & Hover & ->).
    pose proof (eg_Wait_first Hlaw (e_results e)) as Hw. rewrite Hall, Hd, app_nil_r.
    rewrite Forall_forall in Hfns.
    assert (∀ f, f ∈ e_fns e → ∃ x, fn_at f = FnReturned x) as Hov.
    { intros f (j & Hj)%list_elem_of_lookup. pose proof (forallb_lookup _ _ _ _ Hover Hj) as Ho.
      unfold fn_over in Ho. destruct (fn_at f); eauto; done. }
    destruct (eg_Wait (e_results e)) as [x|].
    + rewrite Hres in Hw. apply list_elem_of_omap in Hw as (f & Hf & Hfr). unfold errfn_result in Hfr.
      specialize (Hfns f Hf). unfold errfn_inv in Hfns. destruct (fn_at f); simplify_eq.
      destruct Hfns as (k & ?). exists (fn_def f), k. split; [|done]. apply list_elem_of_In, in_map, list_elem_of_In, Hf.
    + apply Forall_forall. intros d (f & <- & Hf%list_elem_of_In)%list_elem_of_In%in_map_iff.
      destruct (Hov f Hf) as (x & Hx). specialize (Hfns f Hf). unfold errfn_inv in Hfns. rewrite Hx in Hfns.
      rewrite Forall_forall in Hw. assert (x = None) as ->.
      { apply Hw. rewrite Hres. apply list_elem_of_omap. exists f. split; [done|]. unfold errfn_result. by rewrite Hx. }
      destruct Hfns as (k & st & y & ? & ?). eauto.
Qed.
End ErrGroups.

(** ** Runs *)

#[local] Instance first_error : ErrGroup := foldr (λ r e, match r with Some x => Some x | None => e end) None.

Lemma first_error_law : ErrGroupLaw eg_Wait.
Proof. done. Qed.

Lemma wexec_rtc ms w w' : wexec ms w = Some w' → rtc wstep w w'.
Proof.
  revert w. induction ms as [|mv ms IH]; cbn; intros w Hw; [by simplify_eq|].
  destruct (wact mv w) as [w1|] eqn:Hm; [|done]. eapply rtc_l; [by exists mv|by apply IH].
Qed.

Definition start : world := MkWorld one_worker [] [].
Definition submits_ (n k : nat) : list wmove := replicate n (GroupMove (MoveSubmit k 0)).
Definition fails (k : nat) : list wmove := GroupMove ∘ MoveTask k <$> run_moves 0.
Definition releases (k : nat) : list wmove := replicate 3 (GroupMove (MoveRelease k)).

(** A batch of one task, then an error group of one; the function fails. *)
Definition batch_run : list wmove :=
  CallBatch live [job] :: MoveBatch 0 :: submits_ 10 0 ++ fails 0 ++ releases 0 ++ replicate 2 (MoveBatch 0).
Definition errgroup_run : list wmove :=
  CallErrGroup live [job] :: MoveErrGroup 0 EgGo :: MoveErrGroup 0 (EgFn 0) :: submits_ 10 1 ++ fails 1 ++
  replicate 4 (MoveErrGroup 0 (EgFn 0)) ++ [MoveErrGroup 0 EgWait].

Definition over : world := Eval vm_compute in
  match wexec (batch_run ++ errgroup_run) start with Some w => w | None => start end.

Lemma batches_and_error_groups_witness :
  (∃ b, batches over = [b] ∧ b_at b = BatchReturned None ∧ ∃ ds rest, b_all b = ds ++ rest ∧
     Forall2 (answered (grp over) None) (b_tasks b) ds ∧ rest = []) ∧
  ∃ e, egroups over = [e] ∧ e_returned e = Some (Some boom) ∧ ∃ d k, d ∈ e_all e ∧
    (answered (grp over) (Some boom) k d ∨ ended_as (grp over) FAILED (Some boom) k d).
Proof.
  assert (rtc wstep start over) as Hr
    by (apply (wexec_rtc (batch_run ++ errgroup_run)); vm_compute; reflexivity).
  destruct (batches_and_error_groups 1 one_worker over eq_refl Hr first_error_law) as (_ & Hb & He).
  split.
  - eexists. split; [reflexivity|]. split; [reflexivity|]. exact (Hb 0 _ None eq_refl eq_refl).
  - eexists. split; [reflexivity|]. split; [reflexivity|]. exact (He 0 _ (Some boom) eq_refl eq_refl).
Defined.

(** The run ends before [Go] stores [STARTED]: the error group returns nil although the
    function of its only task failed. *)
Example errgroup_hides_failure :
  ∃ w e s r, wexec ([CallErrGroup live [job]; MoveErrGroup 0 EgGo; MoveErrGroup 0 (EgFn 0)] ++
      submits_ 7 0 ++ fails 0 ++ submits_ 3 0 ++ replicate 3 (MoveErrGroup 0 (EgFn 0)) ++
      [MoveErrGroup 0 EgWait]) start = Some w ∧
    egroups w = [e] ∧ e_returned e = Some None ∧
    (subs (grp w) !! 0 ≫= sub_task) = Some s ∧ runs s = [r] ∧ fn_result r = Some (FnReturns (Some boom)) ∧
    err (task s) = Some boom.
Proof. do 4 eexists. split; [vm_compute; reflexivity|]. split_and!; reflexivity. Qed.
