(* ===== verification/Yielder.v ===== *)
(** * Yielders ([src/pkg/yielder])

    A generator goroutine that sends values into a bounded channel until its function
    is exhausted, its context is done or it is stopped. The input channel of
    [WithInputChannel] is shared with others, so it is an argument of the steps. *)
From S2P Require Import Prelude Golang.
Local Open Scope Z_scope.
Local Open Scope go_scope.

Definition ErrNil : error := Sentinel "yielder.ErrNil".
Definition ErrStopped : error := Sentinel "yielder.ErrStopped".
Definition ErrInputClosed : error := Sentinel "yielder.ErrInputClosed".

Definition defaultTimeout : Z := Second.
Definition defaultBuf : Z := 1.

(** How a call of a generator function can end. *)
Inductive gen_outcome (A : Type) :=
| GenReturns (vs : list A) (e : option error)
| GenPanics (msg : string)
| GenExits.
Arguments GenReturns {A} vs e.
Arguments GenPanics {A} msg.
Arguments GenExits {A}.

(** A generator: a function, known by the outcomes its call may have, or the loop
    of [WithInputChannel]. *)
Inductive generator (A : Type) :=
| GenFunc (f : gen_outcome A → bool)
| GenInput.
Arguments GenFunc {A} f.
Arguments GenInput {A}.

(** The positions of [generate]: before the call of the function, in the two selects
    of the input loop, the function returned, in the loop over its values, then the
    deferred calls one by one. *)
Inductive gen_phase (A : Type) :=
| GenCall
| InputSelect
| InputSend (v : A)
| GenReturned (vs : list A) (e : option error)
| GenEmit (vs : list A)
| GenRecover (panicked : option string)
| GenCancel
| GenClose
| GenDone
| GenOver.
Arguments GenCall {A}.
Arguments InputSelect {A}.
Arguments InputSend {A} v.
Arguments GenReturned {A} vs e.
Arguments GenEmit {A} vs.
Arguments GenRecover {A} panicked.
Arguments GenCancel {A}.
Arguments GenClose {A}.
Arguments GenDone {A}.
Arguments GenOver {A}.

(** A call of [Stop] or [StopErr]: before [setErr], before its deferred cancel. *)
Inductive stop_phase := StopSet (e : error) | StopCancel | StopDone.

Section Yielder.
(** The value type is comparable. *)
Context {A : Type} `{EqDecision A}.

(** ** Options *)
Record options := MkOptions { opt_fn : option (generator A); opt_timeout : Z; opt_buf : Z }.
Definition Option : Type := options → options.

Definition WithTimeout (t : Z) : Option := λ o, MkOptions (opt_fn o) t (opt_buf o).
Definition WithBuffer (buf : Z) : Option := λ o, MkOptions (opt_fn o) (opt_timeout o) buf.
Definition WithGeneratorFunc (f : option (gen_outcome A → bool)) : Option := λ o,
  MkOptions (match f with Some f => Some (GenFunc f) | None => None end) (opt_timeout o) (opt_buf o).
Definition WithValues (values : list A) : Option := λ o,
  MkOptions (Some (GenFunc (λ r, match r with
                                 | GenReturns vs None => bool_decide (vs = values)
                                 | _ => false
                                 end))) (opt_timeout o) (opt_buf o).
Definition WithInputChannel : Option := λ o, MkOptions (Some GenInput) (opt_timeout o) (opt_buf o).

(** ** State

    [emitted], [received], [taken] and [dropped] are history: the values sent into the
    channel, received from it, taken from the input and lost; [outcome_] is how the
    generator function ended. *)
Record yielder := MkYielder {
  gen : generator A;
  genChan : chan A;
  doneCh : bool;
  yctx : ctx;
  err : option error;
  onceStop : bool;
  gen_at : gen_phase A;
  stops : list stop_phase;
  emitted : list A;
  received : list A;
  taken : list A;
  dropped : list A;
  ended : option (gen_outcome A);
}.

(** The checks and defaults; [timeout] only says when the context's deadline is. *)
Definition newYielder (c : ctx) (opts : list Option) : error + yielder :=
  match c with
  | Some e => inl e
  | None =>
      let o := fold_left (λ o opt, opt o) opts (MkOptions None 0 0) in
      match opt_fn o with
      | None => inl (Wrapped "invalid generator func: err nil" [ErrNil])
      | Some g =>
          let buf := if opt_buf o <=? 0 then defaultBuf else opt_buf o in
          inr (MkYielder g (Chan (Z.to_nat buf) [] false) false live None false GenCall [] [] [] [] [] None)
      end
  end.

Definition timeout_of (opts : list Option) : Z :=
  let o := fold_left (λ o opt, opt o) opts (MkOptions None 0 0) in
  if opt_timeout o =? 0 then defaultTimeout else opt_timeout o.

(** [New]: the context gets its deadline (at once when it is not in the future) and
    the goroutine of [generate] starts. *)
Definition New (c : ctx) (opts : list Option) : error + yielder :=
  match newYielder c opts with
  | inl e => inl e
  | inr y =>
      inr (if 0 <? timeout_of opts then y
           else MkYielder (gen y) (genChan y) (doneCh y) (Some DeadlineExceeded) (err y) (onceStop y)
                  (gen_at y) (stops y) (emitted y) (received y) (taken y) (dropped y) (ended y))
  end.

Definition to_phase (ph : gen_phase A) (y : yielder) : yielder :=
  MkYielder (gen y) (genChan y) (doneCh y) (yctx y) (err y) (onceStop y) ph (stops y)
    (emitted y) (received y) (taken y) (dropped y) (ended y).
Definition set_ended (o : gen_outcome A) (y : yielder) : yielder :=
  MkYielder (gen y) (genChan y) (doneCh y) (yctx y) (err y) (onceStop y) (gen_at y) (stops y)
    (emitted y) (received y) (taken y) (dropped y) (Some o).
Definition set_stops (x : list stop_phase) (y : yielder) : yielder :=
  MkYielder (gen y) (genChan y) (doneCh y) (yctx y) (err y) (onceStop y) (gen_at y) x
    (emitted y) (received y) (taken y) (dropped y) (ended y).

(** [setErr]: only the first call has an effect. *)
Definition setErr (e : error) (y : yielder) : yielder :=
  if onceStop y then y
  else MkYielder (gen y) (genChan y) (doneCh y) (yctx y) (Some e) true (gen_at y) (stops y)
         (emitted y) (received y) (taken y) (dropped y) (ended y).

(** The context ends: by [cancel], by its deadline or with its parent. *)
Definition end_ctx (e : error) (y : yielder) : yielder :=
  match yctx y with
  | Some _ => y
  | None => MkYielder (gen y) (genChan y) (doneCh y) (Some e) (err y) (onceStop y) (gen_at y) (stops y)
              (emitted y) (received y) (taken y) (dropped y) (ended y)
  end.

Definition emit (v : A) (c : chan A) (y : yielder) : yielder :=
  MkYielder (gen y) c (doneCh y) (yctx y) (err y) (onceStop y) (gen_at y) (stops y)
    (emitted y ++ [v]) (received y) (taken y) (dropped y) (ended y).
Definition take (v : A) (y : yielder) : yielder :=
  MkYielder (gen y) (genChan y) (doneCh y) (yctx y) (err y) (onceStop y) (gen_at y) (stops y)
    (emitted y) (received y) (taken y ++ [v]) (dropped y) (ended y).
Definition drop (v : A) (y : yielder) : yielder :=
  MkYielder (gen y) (genChan y) (doneCh y) (yctx y) (err y) (onceStop y) (gen_at y) (stops y)
    (emitted y) (received y) (taken y) (dropped y ++ [v]) (ended y).
Definition set_genChan (c : chan A) (y : yielder) : yielder :=
  MkYielder (gen y) c (doneCh y) (yctx y) (err y) (onceStop y) (gen_at y) (stops y)
    (emitted y) (received y) (taken y) (dropped y) (ended y).
Definition close_done (y : yielder) : yielder :=
  MkYielder (gen y) (genChan y) true (yctx y) (err y) (onceStop y) (gen_at y) (stops y)
    (emitted y) (received y) (taken y) (dropped y) (ended y).

(** ** The generator goroutine *)

(** What is left open at a step: how the function ends, the case of a select. *)
Inductive gen_choice := FnEnds (o : gen_outcome A) | OnDone | OnChan.

(** A send on the closed channel would panic inside the recovered function. *)
Definition send_value (v : A) (next : gen_phase A) (y : yielder) : option yielder :=
  match chan_send (genChan y) v with
  | Sent c => Some (to_phase next (emit v c y))
  | SendBlocks => None
  | SendPanics => Some (to_phase (GenRecover (Some "send on closed channel")) y)
  end.

(** The loop of [WithInputChannel]. *)
Definition input_step (ch : gen_choice) (input : chan A) (y : yielder) :
    option (outcome (chan A * yielder)) :=
  let stay (y : yielder) := Some (Ret (input, y)) in
  match gen_at y with
  | InputSelect =>
      match ch with
      | OnDone => if ctx_done (yctx y) then stay (to_phase (GenReturned [] (Some ErrStopped)) y) else None
      | OnChan =>
          match chan_recv input with
          | Received v c => Some (Ret (c, to_phase (InputSend v) (take v y)))
          | RecvClosed => stay (to_phase (GenReturned [] (Some ErrInputClosed)) y)
          | RecvBlocks => None
          end
      | _ => None
      end
  | InputSend v =>
      match ch with
      | OnDone =>
          if ctx_done (yctx y) then stay (to_phase (GenReturned [] (Some ErrStopped)) (drop v y)) else None
      | OnChan => y' ← send_value v InputSelect y; stay y'
      | _ => None
      end
  | _ => None
  end.

(** The goroutine of [generate]. *)
Definition gen_step (ch : gen_choice) (input : chan A) (y : yielder) :
    option (outcome (chan A * yielder)) :=
  let stay (y : yielder) := Some (Ret (input, y)) in
  match gen_at y with
  | GenCall =>
      match gen y, ch with
      | GenInput, _ => stay (to_phase InputSelect y)
      | GenFunc f, FnEnds o =>
          if f o then
            stay (to_phase (match o with
                            | GenReturns vs e => GenReturned vs e
                            | GenPanics msg => GenRecover (Some msg)
                            | GenExits => GenRecover None
                            end) (set_ended o y))
          else None
      | _, _ => None
      end
  | InputSelect | InputSend _ => input_step ch input y
  | GenReturned _ (Some e) =>
      stay (to_phase (GenRecover None) (setErr (Wrapped "err func generator" [e]) y))
  | GenReturned vs None => stay (to_phase (GenEmit vs) y)
  | GenEmit [] => stay (to_phase (GenRecover None) y)
  | GenEmit (v :: vs) =>
      match ch with
      | OnDone => if ctx_done (yctx y) then stay (to_phase (GenRecover None) (setErr ErrStopped y)) else None
      | OnChan => y' ← send_value v (GenEmit vs) y; stay y'
      | _ => None
      end
  | GenRecover (Some msg) =>
      stay (to_phase GenCancel (setErr (Text ("panic in generator func: " +:+ msg)) y))
  | GenRecover None => stay (to_phase GenCancel y)
  | GenCancel => stay (to_phase GenClose (end_ctx Canceled y))
  | GenClose => Some (c <-- close_chan (genChan y) ;;; Ret (input, to_phase GenDone (set_genChan c y)))
  | GenDone => if doneCh y then Some Panic else stay (to_phase GenOver (close_done y))
  | GenOver => None
  end.

(** ** The methods *)

(** The error [Stop] and [StopErr] record; [StopErr(nil)] does nothing. *)
Definition stop_error (e : option error) : error :=
  match e with None => ErrStopped | Some e => Wrapped "stopped - " [ErrStopped; e] end.

Definition stop_step (i : nat) (y : yielder) : option yielder :=
  ph ← stops y !! i;
  match ph with
  | StopSet e => Some (set_stops (<[i := StopCancel]> (stops y)) (setErr e y))
  | StopCancel => Some (set_stops (<[i := StopDone]> (stops y)) (end_ctx Canceled y))
  | StopDone => None
  end.

(** A receive from [Results()]; [None] when it blocks or the channel is drained. *)
Definition recv_step (y : yielder) : option (A * yielder) :=
  match chan_recv (genChan y) with
  | Received v c =>
      Some (v, MkYielder (gen y) c (doneCh y) (yctx y) (err y) (onceStop y) (gen_at y) (stops y)
                 (emitted y) (received y ++ [v]) (taken y) (dropped y) (ended y))
  | _ => None
  end.

(** ** The steps around a yielder *)
Inductive ymove :=
| MoveGen (ch : gen_choice)
| MoveRecv
| CallStop (e : option error)
| MoveStop (i : nat)
| CtxEnds (e : error).

Definition yact (m : ymove) (input : chan A) (y : yielder) : option (outcome (chan A * yielder)) :=
  match m with
  | MoveGen ch => gen_step ch input y
  | MoveRecv => r ← recv_step y; Some (Ret (input, r.2))
  | CallStop e => Some (Ret (input, set_stops (stops y ++ [StopSet (stop_error e)]) y))
  | MoveStop i => y' ← stop_step i y; Some (Ret (input, y'))
  | CtxEnds e => Some (Ret (input, end_ctx e y))
  end.
End Yielder.
Arguments options : clear implicits.
Arguments yielder : clear implicits.
Arguments gen_choice : clear implicits.
Arguments ymove : clear implicits.
