(* ===== verification/YielderSafety.v ===== *)
(** * What a yielder guarantees

    For any generator, consumer, input, stops and end of the context: nothing is lost
    or reordered on the way to the consumer, the channels close once and in order, and
    an error-free end means that every value was sent. *)
From S2P Require Import Prelude Golang Yielder.

Section Safety.
Context {A : Type} `{EqDecision A}.
Implicit Type y : yielder A.

(** The function returned or panicked, or there is none; what was emitted of its
    values, and that a failure is recorded. *)
Definition finished (p : option string) y : Prop :=
  match gen y with
  | GenFunc f =>
      taken y = [] ∧ dropped y = [] ∧ ∃ o, ended y = Some o ∧ f o = true ∧
      match o with
      | GenReturns vs None => emitted y `prefix_of` vs ∧ (emitted y = vs ∨ err y ≠ None)
      | GenReturns _ (Some _) => emitted y = [] ∧ err y ≠ None
      | GenPanics _ => emitted y = [] ∧ (p ≠ None ∨ err y ≠ None)
      | GenExits => emitted y = []
      end
  | GenInput =>
      taken y = emitted y ++ dropped y ∧ length (dropped y) ≤ 1 ∧
      (dropped y ≠ [] → ctx_done (yctx y) = true) ∧ err y ≠ None ∧ p = None
  end.

(** Where the values are, by the position of the generator. *)
Definition source y : Prop :=
  match gen_at y with
  | GenCall => emitted y = [] ∧ taken y = [] ∧ dropped y = []
  | InputSelect => gen y = GenInput ∧ taken y = emitted y ∧ dropped y = []
  | InputSend v => gen y = GenInput ∧ taken y = emitted y ++ [v] ∧ dropped y = []
  | GenReturned vs e =>
      match gen y with
      | GenFunc f =>
          emitted y = [] ∧ taken y = [] ∧ dropped y = [] ∧ ended y = Some (GenReturns vs e) ∧
          f (GenReturns vs e) = true
      | GenInput =>
          vs = [] ∧ e ≠ None ∧ taken y = emitted y ++ dropped y ∧ length (dropped y) ≤ 1 ∧
          (dropped y ≠ [] → ctx_done (yctx y) = true)
      end
  | GenEmit rest =>
      ∃ f, gen y = GenFunc f ∧ taken y = [] ∧ dropped y = [] ∧
           ended y = Some (GenReturns (emitted y ++ rest) None) ∧ f (GenReturns (emitted y ++ rest) None) = true
  | GenRecover p => finished p y
  | GenCancel | GenClose | GenDone | GenOver => finished None y
  end.

Record yielder_inv y : Prop := {
  yi_closed : chan_closed (genChan y) = match gen_at y with GenDone | GenOver => true | _ => false end;
  yi_done : doneCh y = match gen_at y with GenOver => true | _ => false end;
  yi_fifo : emitted y = received y ++ chan_buf (genChan y);
  yi_wf : chan_wf (genChan y);
  yi_once : onceStop y = true ↔ err y ≠ None;
  yi_ctx : match gen_at y with GenClose | GenDone | GenOver => ctx_done (yctx y) = true | _ => True end;
  yi_source : source y;
}.

(** ** Operations that leave the generator where it is *)

(** The same values, channels and positions; the error and the context may only
    become set. *)
Lemma finished_mono p p' y y' :
  gen y' = gen y → emitted y' = emitted y → taken y' = taken y →
  dropped y' = dropped y → ended y' = ended y →
  (err y ≠ None → err y' ≠ None) → (ctx_done (yctx y) = true → ctx_done (yctx y') = true) →
  (p ≠ None → p' ≠ None ∨ err y' ≠ None) → (p = None → p' = None) →
  finished p y → finished p' y'.
Proof.
  unfold finished. intros -> -> -> -> -> He Hc Hp Hp'. destruct (gen y) as [f|].
  - intros (? & ? & o & ? & ? & Ho). split_and!; try done. exists o. split_and!; try done.
    destruct o as [vs [e|]|msg|]; try done.
    + split; [tauto|]. apply He. tauto.
    + destruct Ho as [? [?|?]]; auto.
    + destruct Ho as [? [?|?]]; auto.
  - intros (? & ? & ? & ? & ?). split_and!; auto.
Qed.

Lemma source_mono y y' :
  gen y' = gen y → gen_at y' = gen_at y → emitted y' = emitted y → taken y' = taken y →
  dropped y' = dropped y → ended y' = ended y →
  (err y ≠ None → err y' ≠ None) → (ctx_done (yctx y) = true → ctx_done (yctx y') = true) →
  source y → source y'.
Proof.
  unfold source. intros Hg Hat He Ht Hd Hen Herr Hc. rewrite Hat.
  destruct (gen_at y); try (apply finished_mono; auto; fail); rewrite ?Hg, ?He, ?Ht, ?Hd, ?Hen; try done.
  destruct (gen y); [done|]. intros (? & ? & ? & ? & ?). split_and!; auto.
Qed.

Lemma setErr_err e y : err (setErr e y) ≠ None ∨ onceStop y = true.
Proof. unfold setErr. destruct (onceStop y); [by right|by left]. Qed.

Lemma setErr_mono e y : err y ≠ None → err (setErr e y) ≠ None.
Proof. unfold setErr. by destruct (onceStop y). Qed.

(** Recording an error or ending the context. *)
Lemma setErr_inv e y : yielder_inv y → yielder_inv (setErr e y) ∧ err (setErr e y) ≠ None.
Proof.
  intros Hy. destruct (onceStop y) eqn:Ho; unfold setErr; rewrite Ho.
  - split; [done|]. by apply (yi_once _ Hy).
  - split; [|done]. destruct Hy. split; try done. by apply (source_mono y).
Qed.

Lemma end_ctx_inv e y : yielder_inv y → yielder_inv (end_ctx e y) ∧ ctx_done (yctx (end_ctx e y)) = true.
Proof.
  intros Hy. unfold end_ctx. destruct (yctx y) eqn:Hc; [by rewrite Hc|]. split; [|done].
  destruct Hy as [? ? ? ? ? Hx ?]. rewrite Hc in Hx. split; try done; cbn.
  - by destruct (gen_at y).
  - by apply (source_mono y).
Qed.

Lemma set_stops_inv x y : yielder_inv y → yielder_inv (set_stops x y).
Proof. by intros [? ? ? ? ? ? ?]. Qed.

Lemma recv_step_inv y r : yielder_inv y → recv_step y = Some r → yielder_inv r.2.
Proof.
  intros [Hcl ? Hf Hwf ? ? ?] Hr. unfold recv_step, chan_recv in Hr.
  destruct (chan_buf (genChan y)) as [|v rest] eqn:Hb; [by destruct (chan_closed _)|].
  simplify_eq. split; try done; cbn.
  - by rewrite <- app_assoc.
  - unfold chan_wf in *. rewrite Hb in Hwf. cbn in *. lia.
Qed.

(** ** The generator *)

(** What holds while the channels are open, wherever the values are. *)
Definition core y : Prop :=
  chan_closed (genChan y) = false ∧ doneCh y = false ∧
  emitted y = received y ++ chan_buf (genChan y) ∧ chan_wf (genChan y) ∧
  (onceStop y = true ↔ err y ≠ None).

Definition open_phase (ph : gen_phase A) : bool :=
  match ph with GenDone | GenOver => false | _ => true end.

Lemma inv_core y : yielder_inv y → open_phase (gen_at y) = true → core y.
Proof.
  intros [Hc Hd ? ? ? _ _] Ho. split_and!; try done; rewrite ?Hc, ?Hd; by destruct (gen_at y).
Qed.

(** The generator moves to [ph], with the values where [ph] has them. *)
Lemma core_to ph y :
  core y → open_phase ph = true → (ph = GenClose → ctx_done (yctx y) = true) →
  source (to_phase ph y) → yielder_inv (to_phase ph y).
Proof.
  intros (Hc & Hd & ? & ? & ?) Ho Hx Hs. split; try done; cbn; rewrite ?Hc, ?Hd; try by destruct ph.
  destruct ph; try done. by apply Hx.
Qed.

Lemma core_setErr e y : core y → core (setErr e y).
Proof.
  intros Hy. unfold setErr. destruct (onceStop y); [done|]. destruct Hy as (? & ? & ? & ? & _). by split_and!.
Qed.

Lemma core_end_ctx e y : core y → core (end_ctx e y).
Proof. intros Hy. unfold end_ctx. by destruct (yctx y). Qed.

Lemma core_setErr_err e y : core y → err (setErr e y) ≠ None.
Proof.
  intros (_ & _ & _ & _ & Ho). unfold setErr. destruct (onceStop y) eqn:Hy; [by apply Ho|done].
Qed.

(** What [setErr] leaves alone. *)
Lemma setErr_same e y :
  gen (setErr e y) = gen y ∧ emitted (setErr e y) = emitted y ∧ taken (setErr e y) = taken y ∧
  dropped (setErr e y) = dropped y ∧ ended (setErr e y) = ended y ∧ yctx (setErr e y) = yctx y.
Proof. unfold setErr. by destruct (onceStop y). Qed.

Lemma finished_phase p ph y : finished p (to_phase ph y) ↔ finished p y.
Proof. done. Qed.

Lemma send_value_inv v next y y' :
  core y → send_value v next y = Some y' → open_phase next = true → next ≠ GenClose →
  (∀ c, source (to_phase next (emit v c y))) → yielder_inv y'.
Proof.
  intros (Hc & Hd & Hf & Hwf & Ho) Hs Hopen Hne Hsrc. unfold send_value in Hs.
  destruct (chan_send (genChan y) v) as [c| |] eqn:Hsend; simplify_eq.
  - pose proof (chan_send_wf _ _ _ Hwf Hsend). unfold chan_send in Hsend. rewrite Hc in Hsend.
    destruct (_ <? _); simplify_eq. apply core_to; try done. split_and!; try done. cbn. by rewrite Hf, app_assoc.
  - unfold chan_send in Hsend. rewrite Hc in Hsend. by destruct (_ <? _).
Qed.

Lemma finished_end_ctx e p y : finished p y → finished p (end_ctx e y).
Proof.
  unfold end_ctx. destruct (yctx y) eqn:Hc; [done|]. apply finished_mono; try done; auto.
Qed.

(** The function's outcome. *)
Lemma ends_inv f o y :
  yielder_inv y → gen_at y = GenCall → gen y = GenFunc f → f o = true →
  yielder_inv (to_phase (match o with
                         | GenReturns vs e => GenReturned vs e
                         | GenPanics msg => GenRecover (Some msg)
                         | GenExits => GenRecover None
                         end) (set_ended o y)).
Proof.
  intros Hy Hat Hg Hf. pose proof (yi_source _ Hy) as Hsrc. unfold source in Hsrc. rewrite Hat in Hsrc.
  destruct Hsrc as (He & Ht & Hd). apply inv_core in Hy; [|by rewrite Hat].
  apply core_to; [done|by destruct o|by destruct o|].
  unfold source, finished. destruct o as [vs e|msg|]; cbn; rewrite Hg; split_and!; try done.
  - exists (GenPanics msg). split_and!; try done. by left.
  - by exists GenExits.
Qed.

(** In each group of positions: the step of a generator there. *)
Lemma call_step_inv ch input y r :
  yielder_inv y → gen_at y = GenCall → gen_step ch input y = Some (Ret r) → yielder_inv r.2.
Proof.
  intros Hy Hat Hs. pose proof (inv_core _ Hy) as Hco. pose proof (yi_source _ Hy) as Hsrc.
  unfold gen_step, input_step in Hs. unfold source in Hsrc. rewrite Hat in *. specialize (Hco eq_refl).
  destruct (gen y) eqn:Hg.
  - destruct ch; try done. destruct (f o) eqn:Hf; [|done]. simplify_eq. by eapply ends_inv.
  - simplify_eq. apply core_to; try done. unfold source. cbn. destruct Hsrc as (He & Ht & Hd). split_and!; congruence.
Qed.

Lemma input_step_inv ch input y r :
  yielder_inv y → match gen_at y with InputSelect | InputSend _ => True | _ => False end →
  gen_step ch input y = Some (Ret r) → yielder_inv r.2.
Proof.
  intros Hy Hat Hs. pose proof (inv_core _ Hy) as Hco. pose proof (yi_source _ Hy) as Hsrc.
  unfold gen_step, input_step in Hs. unfold source in Hsrc.
  destruct (gen_at y) as [| |v| | | | | | |]; try done; specialize (Hco eq_refl);
    destruct Hsrc as (Hg & Ht & Hd); destruct ch; try done.
  - destruct (ctx_done (yctx y)); simplify_eq. apply core_to; try done.
    unfold source. cbn. rewrite Hg, Hd, app_nil_r. split_and!; try done; cbn; lia.
  - destruct (chan_recv input); simplify_eq; (apply core_to; try done); unfold source; cbn; rewrite ?Hg, ?Hd, ?app_nil_r.
    + split_and!; try done. by rewrite Ht.
    + split_and!; try done; cbn; lia.
  - destruct (ctx_done (yctx y)) eqn:Hc; simplify_eq. apply core_to; try done.
    unfold source. cbn. rewrite Hg, Hd. split_and!; try done; cbn; lia.
  - apply bind_Some in Hs as (y1 & Hs & [= <-]). by eapply send_value_inv.
Qed.

Lemma values_step_inv ch input y r :
  yielder_inv y → match gen_at y with GenReturned _ _ | GenEmit _ => True | _ => False end →
  gen_step ch input y = Some (Ret r) → yielder_inv r.2.
Proof.
  intros Hy Hat Hs. pose proof (inv_core _ Hy) as Hco. pose proof (yi_source _ Hy) as Hsrc.
  unfold gen_step, input_step in Hs. unfold source in Hsrc.
  destruct (gen_at y) as [| | |vs [e|]|[|v rest]| | | | |]; try done; specialize (Hco eq_refl).
  - simplify_eq. apply core_to; try done; [by apply core_setErr|].
    unfold source. cbn. pose proof (core_setErr_err (Wrapped "err func generator" [e]) _ Hco) as He.
    rewrite finished_phase. unfold finished.
    destruct (setErr_same (Wrapped "err func generator" [e]) y) as (-> & -> & -> & -> & -> & ->).
    destruct (gen y); [|by destruct Hsrc as (_ & _ & ? & ? & ?); split_and!].
    destruct Hsrc as (? & ? & ? & ? & ?). split_and!; try done. exists (GenReturns vs (Some e)). by split_and!.
  - simplify_eq. apply core_to; try done. unfold source. cbn.
    destruct (gen y) eqn:Hg; [|by destruct Hsrc as (_ & ? & _)].
    destruct Hsrc as (He & ? & ? & ? & ?). exists f. rewrite He. by split_and!.
  - simplify_eq. apply core_to; try done. unfold source, finished. cbn.
    destruct Hsrc as (f & Hg & ? & ? & Hen & ?). rewrite Hg. rewrite app_nil_r in *. split_and!; try done.
    exists (GenReturns (emitted y) None). split_and!; try done. by left.
  - destruct Hsrc as (f & Hg & Ht & Hd & Hen & Hf). destruct ch; try done.
    + destruct (ctx_done (yctx y)); simplify_eq. apply core_to; try done; [by apply core_setErr|].
      unfold source. cbn. rewrite finished_phase. unfold finished.
      pose proof (core_setErr_err ErrStopped _ Hco).
      destruct (setErr_same ErrStopped y) as (-> & -> & -> & -> & -> & _). rewrite Hg. split_and!; try done.
      exists (GenReturns (emitted y ++ v :: rest) None). split_and!; try done; [by eexists|by right].
    + apply bind_Some in Hs as (y1 & Hs & [= <-]). eapply send_value_inv; try done.
      intros c. unfold source. cbn. exists f. rewrite <- app_assoc. by split_and!.
Qed.

Lemma defer_step_inv ch input y r :
  yielder_inv y →
  match gen_at y with GenRecover _ | GenCancel | GenClose | GenDone => True | _ => False end →
  gen_step ch input y = Some (Ret r) → yielder_inv r.2.
Proof.
  intros Hy Hat' Hs. pose proof (inv_core _ Hy) as Hco. pose proof (yi_source _ Hy) as Hsrc.
  unfold gen_step, input_step in Hs. unfold source in Hsrc.
  destruct (gen_at y) as [| | | | |[msg|]| | | |] eqn:Hat; try done; try specialize (Hco eq_refl).
  - simplify_eq. apply core_to; try done; [by apply core_setErr|].
    pose proof (core_setErr_err (Text ("panic in generator func: " +:+ msg)) _ Hco).
    unfold source. cbn. rewrite finished_phase. revert Hsrc. unfold finished.
    destruct (setErr_same (Text ("panic in generator func: " +:+ msg)) y) as (-> & -> & -> & -> & -> & _).
    destruct (gen y); [|by intros (_ & _ & _ & _ & ?)].
    intros (? & ? & o & ? & ? & Ho). split_and!; try done. exists o. split_and!; try done.
    destruct o as [vs [e|]|msg'|]; try done; destruct Ho; split_and!; try done; by right.
  - simplify_eq. by apply core_to.
  - simplify_eq. apply core_to; try done; [by apply core_end_ctx|..].
    + intros _. by apply end_ctx_inv.
    + unfold source. cbn. rewrite finished_phase. by apply finished_end_ctx.
  - apply (inj Some), obind_Ret in Hs as (c & Hcl & [= <-]).
    unfold close_chan in Hcl. destruct Hco as (Hc & Hd & ? & ? & ?). rewrite Hc in Hcl. simplify_eq.
    pose proof (yi_ctx _ Hy) as Hx. rewrite Hat in Hx. by split.
  - destruct (doneCh y) eqn:Hd; [done|]. simplify_eq.
    destruct Hy as [Hc ? ? ? ? Hx ?]. rewrite Hat in *. by split.
Qed.

Lemma gen_step_inv ch input y r :
  yielder_inv y → gen_step ch input y = Some (Ret r) → yielder_inv r.2.
Proof.
  intros Hy Hs. destruct (gen_at y) eqn:Hat.
  - by eapply call_step_inv.
  - eapply input_step_inv; [done|by rewrite Hat|done].
  - eapply input_step_inv; [done|by rewrite Hat|done].
  - eapply values_step_inv; [done|by rewrite Hat|done].
  - eapply values_step_inv; [done|by rewrite Hat|done].
  - eapply defer_step_inv; [done|by rewrite Hat|done].
  - eapply defer_step_inv; [done|by rewrite Hat|done].
  - eapply defer_step_inv; [done|by rewrite Hat|done].
  - eapply defer_step_inv; [done|by rewrite Hat|done].
  - unfold gen_step, input_step in Hs. by rewrite Hat in Hs.
Qed.

(** ** All the steps *)

Lemma stop_step_inv i y y' : yielder_inv y → stop_step i y = Some y' → yielder_inv y'.
Proof.
  intros Hy Hs. unfold stop_step in Hs. apply bind_Some in Hs as (ph & _ & Hs).
  destruct ph; simplify_eq; apply set_stops_inv; [by apply setErr_inv|by apply end_ctx_inv].
Qed.

Lemma yact_inv m input y r : yielder_inv y → yact m input y = Some (Ret r) → yielder_inv r.2.
Proof.
  intros Hy Hs. destruct m; cbn [yact] in Hs.
  - by eapply gen_step_inv.
  - apply bind_Some in Hs as ([v y'] & Hr & [= <-]). by apply (recv_step_inv _ _ Hy) in Hr.
  - simplify_eq. by apply set_stops_inv.
  - apply bind_Some in Hs as (y' & Hr & [= <-]). by eapply stop_step_inv.
  - simplify_eq. by apply end_ctx_inv.
Qed.

(** No goroutine of the yielder panics: its channels are closed once. *)
Lemma yact_no_panic m input y : yielder_inv y → yact m input y ≠ Some Panic.
Proof.
  intros [Hc Hd _ _ _ _ _] Hs. destruct m; cbn [yact] in Hs; try done;
    try (apply bind_Some in Hs as (? & _ & Hs); done).
  unfold gen_step, input_step in Hs.
  destruct (gen_at y) as [| |v|vs [e|]|[|v vs]|[msg|]| | | |], ch; try done; rewrite ?Hd in Hs; try done;
    try (unfold close_chan in Hs; rewrite Hc in Hs; done);
    repeat match type of Hs with
    | mbind _ _ = Some _ => apply bind_Some in Hs as (? & _ & Hs); done
    | match ?x with _ => _ end = Some _ => destruct x
    end; done.
Qed.

Lemma yielder_New_inv c opts y : New c opts = inr y → yielder_inv y.
Proof.
  unfold New, newYielder. destruct c; [done|]. destruct (opt_fn _) as [g|] eqn:Hg; [|done].
  set (cap := Z.to_nat _). intros [= <-]. case_match; split; try done; cbn; unfold chan_wf; cbn; lia.
Qed.

(** ** The first error stays, and a done context stays done *)

Definition settles y y' : Prop :=
  (onceStop y = true → onceStop y' = true ∧ err y' = err y) ∧ (∀ e, yctx y = Some e → yctx y' = Some e).

#[local] Instance settles_preorder : PreOrder settles.
Proof.
  split; [by intros y; split|]. intros y1 y2 y3 [H1 H2] [H3 H4]. split; [|by auto].
  intros Ho. destruct (H1 Ho) as [Ho' He]. destruct (H3 Ho') as [? ?]. split; [done|congruence].
Qed.

Lemma settles_setErr e y : settles y (setErr e y).
Proof. unfold setErr. destruct (onceStop y) eqn:Ho; [done|]. split; [by rewrite Ho|done]. Qed.

Lemma settles_end_ctx e y : settles y (end_ctx e y).
Proof. unfold end_ctx. destruct (yctx y) eqn:Hc; [done|]. split; [done|]. by rewrite Hc. Qed.

Lemma settles_send v next y y' : send_value v next y = Some y' → settles y y'.
Proof. unfold send_value. by case_match; intros; simplify_eq. Qed.

Lemma settles_phase ph y y' : settles y y' → settles y (to_phase ph y').
Proof. done. Qed.

Lemma yact_settles m input y r : yact m input y = Some (Ret r) → settles y r.2.
Proof.
  intros Hs. destruct m; cbn [yact] in Hs.
  - unfold gen_step, input_step in Hs.
    destruct (gen_at y) as [| |v|vs [e|]|[|v vs]|[msg|]| | | |], ch; try done;
    repeat match type of Hs with
    | mbind _ _ = Some _ => apply bind_Some in Hs as (? & ?%settles_send & Hs)
    | Some (obind _ _) = _ => apply (inj Some), obind_Ret in Hs as (? & _ & Hs)
    | match ?x with _ => _ end = Some _ => destruct x
    end; simplify_eq; try done; apply settles_phase; auto using settles_setErr, settles_end_ctx.
  - apply bind_Some in Hs as ([v y'] & Hr & [= <-]). unfold recv_step in Hr. by case_match; simplify_eq.
  - by simplify_eq.
  - apply bind_Some in Hs as (y' & Hr & [= <-]). unfold stop_step in Hr. apply bind_Some in Hr as (ph & _ & Hr).
    destruct ph; simplify_eq; [apply (settles_setErr e)|apply (settles_end_ctx Canceled)].
  - simplify_eq. apply settles_end_ctx.
Qed.

(** ** A yielder whose context is done ends by itself *)

(** [n] steps of the generator alone, every select taking [ctx.Done()]. *)
Fixpoint drain (n : nat) (input : chan A) (y : yielder A) : option (yielder A) :=
  match n with
  | O => Some y
  | S n =>
      match gen_at y with
      | GenOver => Some y
      | _ => match gen_step OnDone input y with Some (Ret r) => drain n r.1 r.2 | _ => None end
      end
  end.

Definition rank (ph : gen_phase A) : nat :=
  match ph with
  | GenCall => 8 | InputSelect | InputSend _ => 7 | GenReturned _ _ => 6 | GenEmit _ => 5
  | GenRecover _ => 4 | GenCancel => 3 | GenClose => 2 | GenDone => 1 | GenOver => 0
  end.

(** The function, if any, has been called. *)
Definition past_call y : Prop := gen_at y = GenCall → gen y = GenInput.

Lemma past_call_step input y r : gen_step OnDone input y = Some (Ret r) → past_call r.2.
Proof.
  intros Hs Hat. unfold gen_step, input_step in Hs.
  destruct (gen_at y) as [| |v|vs [e|]|[|v vs]|[msg|]| | | |]; try done;
    repeat match type of Hs with
    | Some (obind _ _) = _ => apply (inj Some), obind_Ret in Hs as (? & _ & Hs)
    | match ?x with _ => _ end = Some _ => destruct x
    end; by simplify_eq.
Qed.

Lemma drain_step input y :
  yielder_inv y → ctx_done (yctx y) = true → past_call y → gen_at y ≠ GenOver →
  ∃ r, gen_step OnDone input y = Some (Ret r) ∧ rank (gen_at r.2) < rank (gen_at y).
Proof.
  intros Hy Hx Hp Hne. pose proof (yi_closed _ Hy) as Hc. pose proof (yi_done _ Hy) as Hd.
  unfold gen_step, input_step, close_chan. rewrite Hx, Hc, Hd.
  destruct (gen_at y) as [| |v|vs [e|]|[|v vs]|[msg|]| | | |] eqn:Hat; try done;
    try (rewrite (Hp Hat)); eexists; (split; [reflexivity|cbn; lia]).
Qed.

Lemma drain_over n input y :
  yielder_inv y → ctx_done (yctx y) = true → past_call y → rank (gen_at y) ≤ n →
  ∃ y', drain n input y = Some y' ∧ gen_at y' = GenOver ∧ yielder_inv y'.
Proof.
  revert input y. induction n as [|n IH]; intros input y Hy Hx Hp Hr.
  - exists y. split; [done|]. split; [|done]. destruct (gen_at y); cbn in Hr; try lia; done.
  - cbn [drain]. destruct (decide (rank (gen_at y) = 0)) as [H0|H0].
    + exists y. assert (gen_at y = GenOver) as Hat by (destruct (gen_at y); cbn in H0; try lia; done). by rewrite Hat.
    + destruct (drain_step input y Hy Hx Hp) as ([input' y'] & Hs & Hlt); [by intros Hat; rewrite Hat in H0|].
      rewrite Hs. pose proof (gen_step_inv _ _ _ _ Hy Hs). pose proof (yact_settles (MoveGen OnDone) _ _ _ Hs) as [_ Hc].
      destruct (IH input' y') as (y2 & ? & ?); try done.
      * destruct (yctx y) as [e|] eqn:He; [|done]. cbn in *. by rewrite (Hc e).
      * by apply (past_call_step _ _ _ Hs).
      * cbn in Hlt. lia.
      * exists y2. by destruct (gen_at y).
Qed.

(** ** The input *)

Lemma New_fresh c opts y : New c opts = inr y → taken y = [].
Proof.
  unfold New, newYielder. destruct c; [done|]. destruct (opt_fn _); [|done]. intros [= <-]. by case_match.
Qed.

Lemma setErr_frame e y : gen (setErr e y) = gen y ∧ taken (setErr e y) = taken y.
Proof. unfold setErr. by destruct (onceStop y). Qed.
Lemma end_ctx_frame e y : gen (end_ctx e y) = gen y ∧ taken (end_ctx e y) = taken y.
Proof. unfold end_ctx. by destruct (yctx y). Qed.
Lemma send_value_frame (v : A) ph y y' : send_value v ph y = Some y' → gen y' = gen y ∧ taken y' = taken y.
Proof. unfold send_value. by case_match; intros; simplify_eq. Qed.

(** What a move does to the input: nothing, or the receive of one value. *)
Lemma yact_input m input y r :
  yact m input y = Some (Ret r) →
  gen r.2 = gen y ∧
  (r.1 = input ∧ taken r.2 = taken y ∨
   ∃ v, gen_at y = InputSelect ∧ chan_recv input = Received v r.1 ∧ taken r.2 = taken y ++ [v]).
Proof.
  intros Hs. destruct m; cbn [yact] in Hs.
  - unfold gen_step, input_step in Hs.
    destruct (gen_at y) as [| |v|vs [e|]|[|v vs]|[msg|]| | | |] eqn:Hat, ch; try done;
    repeat match type of Hs with
    | mbind _ _ = Some _ => apply bind_Some in Hs as (? & ?%send_value_frame & Hs)
    | Some (obind _ _) = _ => apply (inj Some), obind_Ret in Hs as (? & _ & Hs)
    | match ?x with _ => _ end = Some _ => destruct x eqn:?
    end; simplify_eq; cbn; rewrite ?(proj1 (setErr_frame _ _)), ?(proj2 (setErr_frame _ _)),
      ?(proj1 (end_ctx_frame _ _)), ?(proj2 (end_ctx_frame _ _));
      try (split; [done|by left]); try (split; [tauto|left; tauto]).
    split; [done|right]. by eexists.
  - apply bind_Some in Hs as ([v y'] & Hr & [= <-]). unfold recv_step in Hr.
    case_match; simplify_eq. split; [done|by left].
  - simplify_eq. split; [done|by left].
  - apply bind_Some in Hs as (y' & Hr & [= <-]). unfold stop_step in Hr. apply bind_Some in Hr as (ph & _ & Hr).
    destruct ph; simplify_eq; cbn; rewrite ?(proj1 (setErr_frame _ _)), ?(proj2 (setErr_frame _ _)),
      ?(proj1 (end_ctx_frame _ _)), ?(proj2 (end_ctx_frame _ _)); (split; [done|by left]).
  - simplify_eq. cbn. rewrite (proj1 (end_ctx_frame _ _)), (proj2 (end_ctx_frame _ _)). split; [done|by left].
Qed.

(** ** The contract *)

(** A yielder and its input: a move of the yielder, or others at the input. *)
Definition ystep (s s' : chan A * yielder A) : Prop :=
  (∃ m, yact m s.1 s.2 = Some (Ret s')) ∨ s'.2 = s.2.

Lemma ystep_inv s s' : yielder_inv s.2 → ystep s s' → yielder_inv s'.2.
Proof. intros Hy [[m Hs]| ->]; [by eapply yact_inv|done]. Qed.

(** The source of the values, of a state with the invariant. *)
Lemma source_input y : yielder_inv y → gen y = GenInput →
  ∃ hand, taken y = emitted y ++ dropped y ++ hand ∧ length (dropped y ++ hand) ≤ 1 ∧
          (dropped y ≠ [] → ctx_done (yctx y) = true).
Proof.
  intros Hy Hg. pose proof (yi_source _ Hy) as Hs. unfold source, finished in Hs. rewrite Hg in Hs.
  destruct (gen_at y); try (exists []; rewrite !app_nil_r; tauto).
  - exists []. destruct Hs as (-> & -> & ->). by split_and!; [|cbn; lia|].
  - exists []. destruct Hs as (_ & -> & ->). rewrite !app_nil_r. by split_and!; [|cbn; lia|].
  - exists [v]. destruct Hs as (_ & -> & ->). by split_and!; [|cbn; lia|].
  - by destruct Hs as (f & ? & _); congruence.
Qed.

Lemma source_func y f : yielder_inv y → gen y = GenFunc f →
  taken y = [] ∧ dropped y = [] ∧
  match ended y with
  | Some (GenReturns vs None) => emitted y `prefix_of` vs
  | _ => emitted y = []
  end.
Proof.
  intros Hy Hg. pose proof (yi_source _ Hy) as Hs. unfold source in Hs.
  assert (emitted y = [] → match ended y with
    Some (GenReturns vs None) => emitted y `prefix_of` vs | _ => emitted y = [] end) as Hnil.
  { intros He. destruct (ended y) as [[vs [e|]| |]|]; try done. rewrite He. apply prefix_nil. }
  assert (∀ p, finished p y → taken y = [] ∧ dropped y = [] ∧ match ended y with
    Some (GenReturns vs None) => emitted y `prefix_of` vs | _ => emitted y = [] end) as Hfin.
  { intros p. unfold finished. rewrite Hg. intros (? & ? & o & -> & _ & Ho). split_and!; try done.
    destruct o as [vs [e|]|msg|]; tauto. }
  destruct (gen_at y); try (by eapply Hfin); rewrite ?Hg in Hs.
  - destruct Hs as (? & ? & ?). split_and!; try done. by apply Hnil.
  - by destruct Hs as [? _].
  - by destruct Hs as [? _].
  - destruct Hs as (? & ? & ? & _). split_and!; try done. by apply Hnil.
  - destruct Hs as (f' & _ & ? & ? & -> & _). split_and!; try done. by eexists.
Qed.

(** An end without error: every value was sent, unless the function left its goroutine. *)
Lemma source_complete y : yielder_inv y → gen_at y = GenOver → err y = None →
  ended y = Some (GenReturns (emitted y) None) ∨ ended y = Some GenExits.
Proof.
  intros Hy Hat He. pose proof (yi_source _ Hy) as Hs. unfold source, finished in Hs. rewrite Hat in Hs.
  destruct (gen y); [|by destruct Hs as (_ & _ & _ & ? & _)].
  destruct Hs as (_ & _ & o & -> & _ & Ho). destruct o as [vs [e|]|msg|].
  - by destruct Ho.
  - left. by destruct Ho as [_ [-> |?]].
  - by destruct Ho as [_ [?|?]].
  - by right.
Qed.

(** C17: for any yielder built by [New], in every state: no step panics; what was sent
    is what was received followed by what is buffered, within the buffer; the values
    sent are a prefix of the function's, or the values taken from the input but at
    most one, lost only to a done context. [Done()] closes after the results, with the
    context canceled, and if [Err()] is nil then every value was sent (or the function
    left its goroutine); a recorded error never changes. Once the context is done, and
    the function has returned, the generator ends by its own steps. *)
Theorem yielder_contract c opts y0 input0 input y :
  New c opts = inr y0 → rtc ystep (input0, y0) (input, y) →
  (∀ m, yact m input y ≠ Some Panic) ∧
  emitted y = received y ++ chan_buf (genChan y) ∧ chan_wf (genChan y) ∧
  (∀ f, gen y = GenFunc f →
     match ended y with
     | Some (GenReturns vs None) => emitted y `prefix_of` vs
     | _ => emitted y = []
     end) ∧
  (gen y = GenInput → ∃ hand, taken y = emitted y ++ dropped y ++ hand ∧
     length (dropped y ++ hand) ≤ 1 ∧ (dropped y ≠ [] → ctx_done (yctx y) = true)) ∧
  (doneCh y = true → chan_closed (genChan y) = true ∧ ctx_done (yctx y) = true ∧
     (err y = None → ended y = Some (GenReturns (emitted y) None) ∨ ended y = Some GenExits)) ∧
  (∀ input' y' e, rtc ystep (input, y) (input', y') → err y = Some e → err y' = Some e) ∧
  (ctx_done (yctx y) = true → past_call y →
     ∃ y', drain 8 input y = Some y' ∧ doneCh y' = true).
Proof.
  intros Hnew Hrtc. apply yielder_New_inv in Hnew.
  assert (yielder_inv y) as Hy by exact (rtc_preserves ystep (λ s, yielder_inv s.2) ystep_inv _ _ Hrtc Hnew).
  split_and!; try apply Hy.
  - intros m. by apply yact_no_panic.
  - intros f Hg. by eapply source_func.
  - by apply source_input.
  - intros Hd. rewrite (yi_done _ Hy) in Hd. pose proof (yi_ctx _ Hy) as Hx. rewrite (yi_closed _ Hy).
    destruct (gen_at y) eqn:Hat; try done. split_and!; try done. by apply source_complete.
  - intros input' y' e Hr He.
    assert (settles y y') as [Hs _].
    { refine (rtc_preserves ystep (λ s, settles y s.2) _ _ _ Hr _); [|done].
      intros s s' Hys [[m Hm]| ->]; [|done]. etrans; [exact Hys|by eapply yact_settles]. }
    destruct Hs as [_ ->]; [|done]. apply (yi_once _ Hy). by rewrite He.
  - intros Hx Hp. destruct (drain_over 8 input y) as (y' & Hdr & Hat & Hy'); try done.
    + by destruct (gen_at y); cbn; lia.
    + exists y'. split; [done|]. by rewrite (yi_done _ Hy'), Hat.
Qed.

(** ** A consumer that keeps receiving *)

(** A step of the generator or of the consumer, nobody stopping the yielder. *)
Definition ustep (s s' : chan A * yielder A) : Prop :=
  ∃ m, yact m s.1 s.2 = Some (Ret s') ∧ match m with MoveGen _ | MoveRecv => True | _ => False end.

(** The function returns [vs], and so far did as much as the position says. *)
Definition delivering (vs : list A) y : Prop :=
  yielder_inv y ∧ gen y = GenFunc (λ r, match r with GenReturns vs' None => bool_decide (vs' = vs) | _ => false end) ∧
  0 < chan_cap (genChan y) ∧ err y = None ∧
  (open_phase (gen_at y) = true → gen_at y ≠ GenClose → yctx y = None) ∧
  match gen_at y with
  | GenCall => True
  | GenReturned vs' e => vs' = vs ∧ e = None
  | GenEmit rest => vs = emitted y ++ rest
  | GenRecover p => p = None ∧ emitted y = vs
  | GenCancel | GenClose | GenDone | GenOver => emitted y = vs
  | _ => False
  end.

(** The steps left: two for every value, and those of the goroutine. *)
Definition work (n : nat) y : nat :=
  length (chan_buf (genChan y)) +
  match gen_at y with
  | GenCall => 2 * n + 7 | GenReturned _ _ => 2 * n + 6 | GenEmit rest => 2 * length rest + 5
  | GenRecover _ => 4 | GenCancel => 3 | GenClose => 2 | GenDone => 1 | _ => 0
  end.

Lemma chan_send_cap (c c' : chan A) v : chan_send c v = Sent c' → chan_cap c' = chan_cap c ∧ chan_buf c' = chan_buf c ++ [v].
Proof. unfold chan_send. destruct (chan_closed c); [done|]. destruct (_ <? _); [|done]. by intros [= <-]. Qed.

Lemma delivering_gen vs ch input y r :
  delivering vs y → gen_step ch input y = Some (Ret r) →
  delivering vs r.2 ∧ work (length vs) r.2 < work (length vs) y.
Proof.
  intros (Hy & Hg & Hcap & He & Hx & Hat) Hs. pose proof (gen_step_inv _ _ _ _ Hy Hs) as Hy'.
  unfold delivering, work. revert Hs. unfold gen_step, input_step.
  assert (onceStop y = false) as Ho.
  { destruct (onceStop y) eqn:Ho; [|done]. by apply (yi_once _ Hy) in Ho. }
  destruct (gen_at y) as [| |v|vs' e|rest|p| | | |] eqn:Hph; try done.
  - rewrite Hg. destruct ch as [o| |]; try done. destruct o as [vs' [e|]| |]; try done.
    case_bool_decide; [|done]. intros [= <-]. subst vs'. cbn in *. split; [|lia]. by split_and!; auto.
  - destruct Hat as [-> ->]. intros [= <-]. cbn in *.
    pose proof (yi_source _ Hy) as Hsrc. unfold source in Hsrc. rewrite Hph, Hg in Hsrc.
    destruct Hsrc as (-> & _). split; [|lia]. by split_and!; auto.
  - assert (yctx y = None) as Hc by auto. destruct rest as [|v rest].
    + rewrite app_nil_r in Hat. intros [= <-]. cbn in *. split; [|lia]. by split_and!; auto.
    + rewrite Hc. destruct ch; try done.
      unfold send_value. destruct (chan_send (genChan y) v) as [c| |] eqn:Hsend; [|done|].
      * apply chan_send_cap in Hsend as [Hcc Hcb]. cbn. intros [= <-]. cbn in *.
        rewrite Hcb, Hcc, length_app. cbn. split; [|lia]. split_and!; auto. by rewrite <- app_assoc.
      * unfold chan_send in Hsend. pose proof (yi_closed _ Hy) as Hcl. rewrite Hph in Hcl. rewrite Hcl in Hsend.
        by destruct (_ <? _).
  - destruct Hat as [-> Hem]. intros [= <-]. cbn in *. split; [|lia]. by split_and!; auto.
  - unfold end_ctx. rewrite (Hx eq_refl) by done. intros [= <-]. cbn in *. split; [|lia]. by split_and!.
  - unfold close_chan. pose proof (yi_closed _ Hy) as Hcl. rewrite Hph in Hcl. rewrite Hcl. cbn.
    intros [= <-]. cbn in *. split; [|lia]. by split_and!.
  - destruct (doneCh y); [done|]. intros [= <-]. cbn in *. split; [|lia]. by split_and!.
Qed.

Lemma delivering_recv vs y r :
  delivering vs y → recv_step y = Some r → delivering vs r.2 ∧ work (length vs) r.2 < work (length vs) y.
Proof.
  intros (Hy & Hg & Hcap & He & Hx & Hat) Hs. pose proof (recv_step_inv _ _ Hy Hs) as Hy'.
  unfold recv_step, chan_recv in Hs. unfold delivering, work.
  destruct (chan_buf (genChan y)) as [|v rest] eqn:Hb; [by destruct (chan_closed _)|].
  simplify_eq. cbn in *. split; [by split_and!|lia].
Qed.

Lemma ustep_delivering vs s s' :
  delivering vs s.2 → ustep s s' → delivering vs s'.2 ∧ work (length vs) s'.2 < work (length vs) s.2.
Proof.
  intros Hd (m & Hm & Hk). destruct m; try done; cbn [yact] in Hm.
  - by eapply delivering_gen.
  - apply bind_Some in Hm as (r & Hr & [= <-]). by eapply delivering_recv.
Qed.

(** Until everything is received there is a step. *)
Lemma delivering_progress vs input y :
  delivering vs y → (∃ s', ustep (input, y) s') ∨ gen_at y = GenOver ∧ received y = vs.
Proof.
  intros (Hy & Hg & Hcap & He & Hx & Hat).
  destruct (chan_buf (genChan y)) as [|v rest] eqn:Hb.
  2:{ left. eexists. exists MoveRecv. cbn. unfold recv_step, chan_recv. rewrite Hb. by split. }
  pose proof (yi_fifo _ Hy) as Hf. rewrite Hb, app_nil_r in Hf.
  pose proof (yi_closed _ Hy) as Hcl. pose proof (yi_done _ Hy) as Hdn.
  assert (∀ ch r, gen_step ch input y = Some (Ret r) → ∃ s', ustep (input, y) s') as Hstep.
  { intros ch r Hr. exists r, (MoveGen ch). by split. }
  destruct (gen_at y) as [| |v|vs' e|rest|p| | | |] eqn:Hph; try done.
  - left. eapply (Hstep (FnEnds (GenReturns vs None))). unfold gen_step, input_step. rewrite Hph, Hg.
    by rewrite bool_decide_eq_true_2.
  - left. destruct Hat as [-> ->]. eapply (Hstep OnChan). unfold gen_step, input_step. by rewrite Hph.
  - left. destruct rest as [|v rest]; eapply (Hstep OnChan); unfold gen_step, input_step; rewrite Hph; [done|].
    unfold send_value, chan_send. rewrite Hcl, Hb. destruct (Nat.ltb_spec (length (@nil A)) (chan_cap (genChan y))); [done|].
    cbn in *. lia.
  - left. destruct Hat as [-> _]. eapply (Hstep OnChan). unfold gen_step, input_step. by rewrite Hph.
  - left. eapply (Hstep OnChan). unfold gen_step, input_step. by rewrite Hph.
  - left. eapply (Hstep OnChan). unfold gen_step, input_step, close_chan. by rewrite Hph, Hcl.
  - left. eapply (Hstep OnChan). unfold gen_step, input_step. by rewrite Hph, Hdn.
  - right. by rewrite <- Hf.
Qed.

Lemma delivering_prefix vs y : delivering vs y → received y `prefix_of` vs.
Proof.
  intros (Hy & Hg & _ & _ & _ & Hat). trans (emitted y); [rewrite (yi_fifo _ Hy); by eexists|].
  pose proof (yi_source _ Hy) as Hs. unfold source in Hs.
  destruct (gen_at y); try done; rewrite ?Hg in Hs.
  - destruct Hs as [-> _]. apply prefix_nil.
  - destruct Hs as [-> _]. apply prefix_nil.
  - by eexists.
  - by destruct Hat as [_ ->].
  - by rewrite Hat.
  - by rewrite Hat.
  - by rewrite Hat.
  - by rewrite Hat.
Qed.

Lemma New_delivering vs opts y0 :
  New live (opts ++ [WithValues vs]) = inr y0 → (0 < timeout_of (opts ++ [WithValues vs]))%Z →
  delivering vs y0 ∧ work (length vs) y0 = 2 * length vs + 7.
Proof.
  intros Hn Ht. pose proof (yielder_New_inv _ _ _ Hn) as Hy. revert Hn. unfold New, newYielder.
  rewrite fold_left_app. cbn. destruct (Z.ltb_spec 0 (timeout_of (opts ++ [WithValues vs]))); [|lia].
  intros [= <-]. split; [|cbn; lia]. split_and!; try done. cbn.
  unfold defaultBuf. case_match; boolify; lia.
Qed.

(** C23: what [WithValues] puts in comes out: from a yielder over [vs] with a future
    deadline that nobody stops, the generator and a receiving consumer take at most
    [2 * length vs + 7] steps in any order, and where no step is left, [Done()] is
    closed, [Err()] is nil and exactly [vs] was received, in order. *)
Theorem values_roundtrip vs opts y0 input0 n s :
  New live (opts ++ [WithValues vs]) = inr y0 → (0 < timeout_of (opts ++ [WithValues vs]))%Z →
  nsteps ustep n (input0, y0) s →
  n ≤ 2 * length vs + 7 ∧
  received s.2 `prefix_of` vs ∧
  ((∃ s', ustep s s') ∨ doneCh s.2 = true ∧ err s.2 = None ∧ received s.2 = vs).
Proof.
  intros Hn Ht Hst. destruct (New_delivering _ _ _ Hn Ht) as [Hd Hw].
  assert (delivering vs s.2 ∧ n + work (length vs) s.2 ≤ work (length vs) y0) as [Hd' Hle].
  { clear Hw Hn. change y0 with ((input0, y0).2) in Hd |- *. induction Hst as [s|n s1 s2 s3 Hs Hst IH]; [split; [done|lia]|].
    destruct (ustep_delivering _ _ _ Hd Hs) as [Hd2 Hlt]. destruct (IH Hd2). split; [done|lia]. }
  destruct s as [input y]. cbn in *. split; [lia|].
  pose proof (delivering_progress _ input _ Hd') as Hp. split.
  - by apply (delivering_prefix _ y).
  - destruct Hd' as (Hy & _ & _ & He & _). destruct Hp as [?|[Hover Hr]]; [by left|right]. by rewrite (yi_done _ Hy), Hover.
Qed.
End Safety.

(** ** A run over two values *)

Fixpoint yexec (ms : list (ymove nat)) (s : chan nat * yielder nat) : option (chan nat * yielder nat) :=
  match ms with
  | [] => Some s
  | m :: ms => match yact m s.1 s.2 with Some (Ret s) => yexec ms s | _ => None end
  end.

Lemma yexec_rtc ms s s' : yexec ms s = Some s' → rtc ystep s s'.
Proof.
  revert s. induction ms as [|m ms IH]; cbn; intros s H; [by simplify_eq|].
  destruct (yact m s.1 s.2) as [[s1|]|] eqn:Hm; try done. eapply rtc_l; [left; by exists m|by apply IH].
Qed.

Definition undisturbed (m : ymove nat) : bool :=
  match m with MoveGen _ | MoveRecv => true | _ => false end.

Lemma yexec_nsteps ms s s' :
  forallb undisturbed ms = true → yexec ms s = Some s' → nsteps ustep (length ms) s s'.
Proof.
  revert s. induction ms as [|m ms IH]; cbn; intros s Hu H; [simplify_eq; constructor|]. boolify.
  destruct (yact m s.1 s.2) as [[s1|]|] eqn:Hm; try done. econstructor; [|by apply IH].
  exists m. split; [done|by destruct m].
Qed.

Definition no_input : chan nat := Chan 0 [] false.
Definition two_values : list nat := [7; 8].
Definition fresh : yielder nat := Eval cbv in
  match New live ([WithBuffer 1] ++ [WithValues two_values]) with inr y => y | inl _ =>
    MkYielder GenInput no_input false live None false GenCall [] [] [] [] [] None end.

(** The generator runs with a consumer behind it. *)
Definition run_values : list (ymove nat) :=
  [MoveGen (FnEnds (GenReturns two_values None)); MoveGen OnChan; MoveGen OnChan; MoveRecv] ++
  replicate 6 (MoveGen OnChan) ++ [MoveRecv].

Definition finished_values : chan nat * yielder nat := Eval vm_compute in
  match yexec run_values (no_input, fresh) with Some s => s | None => (no_input, fresh) end.

Lemma fresh_New : New live ([WithBuffer 1] ++ [WithValues two_values]) = inr fresh.
Proof. reflexivity. Qed.

Lemma values_roundtrip_witness :
  length run_values ≤ 2 * length two_values + 7 ∧ received finished_values.2 = two_values.
Proof.
  assert (nsteps ustep (length run_values) (no_input, fresh) finished_values) as Hst
    by (apply yexec_nsteps; vm_compute; reflexivity).
  destruct (values_roundtrip two_values [WithBuffer 1] fresh no_input _ _ fresh_New eq_refl Hst) as (Hn & _).
  split; [exact Hn|reflexivity].
Defined.

(** The second value is stopped in the buffer's way, and [Err()] says so. *)
Definition run_stopped : list (ymove nat) :=
  [MoveGen (FnEnds (GenReturns two_values None)); MoveGen OnChan; MoveGen OnChan; CallStop None; MoveStop 0;
   MoveStop 0].

Definition stopped_values : chan nat * yielder nat := Eval vm_compute in
  match yexec run_stopped (no_input, fresh) with Some s => s | None => (no_input, fresh) end.

Lemma yielder_contract_witness :
  emitted stopped_values.2 = [7] ∧ err stopped_values.2 = Some ErrStopped ∧
  (∀ input' y' e, rtc ystep (stopped_values.1, stopped_values.2) (input', y') →
     err stopped_values.2 = Some e → err y' = Some e) ∧
  ∃ y', drain 8 stopped_values.1 stopped_values.2 = Some y' ∧ doneCh y' = true.
Proof.
  assert (rtc ystep (no_input, fresh) (stopped_values.1, stopped_values.2)) as Hr
    by (apply (yexec_rtc run_stopped); vm_compute; reflexivity).
  destruct (yielder_contract live _ fresh _ _ _ fresh_New Hr) as (_ & _ & _ & _ & _ & _ & He & Hd).
  split_and!; [reflexivity|reflexivity|exact He|]. apply Hd; [reflexivity|discriminate].
Defined.
