(* ===== verification/QueueStream.v ===== *)
(** * Streams of claims ([Stream] of queue.go)

    A call of [Stream], its feeder goroutine (which dequeues and sends into the feed
    channel) and the yielder over the feed, among the other threads of the queue. *)
From S2P Require Import Prelude Golang QueueTypes Yielder Queue QueueSystem.
Local Open Scope Z_scope.
Local Open Scope go_scope.

#[export] Instance Lease_eq_dec : EqDecision Lease.
Proof. solve_decision. Defined.
#[export] Instance Claim_eq_dec : EqDecision Claim.
Proof. solve_decision. Defined.

(** The positions of [Stream]. *)
Inductive stream_phase := StreamCheck | StreamMake | StreamNew | StreamReturned (e : option error).

(** The positions of the feeder: the head of its loop, in [Dequeue], in its select, in
    [Nack], before its deferred [close], over. *)
Inductive feed_phase :=
| NoFeeder
| FeedLoop
| FeedDequeue (p : prog (Claim + option error))
| FeedSelect (cl : Claim)
| FeedNack (p : prog (option error))
| FeedClose
| FeedOver.

(** [got], [fed] and [nacked] are history: the claims [Dequeue] returned, those sent
    into the feed, and the one nacked. *)
Record stream := MkStream {
  str_ctx : nat;
  str_timeout : Z;
  str_buffer : Z;
  str_at : stream_phase;
  feed : chan Claim;
  feeder : feed_phase;
  str_yielder : option (yielder Claim);
  got : list Claim;
  fed : list Claim;
  nacked : list Claim;
}.

Definition call_Stream (c : nat) (timeout buffer : Z) : stream :=
  MkStream c timeout buffer StreamCheck (Chan 0 [] false) NoFeeder None [] [] [].

Definition str_to (ph : stream_phase) (st : stream) : stream :=
  MkStream (str_ctx st) (str_timeout st) (str_buffer st) ph (feed st) (feeder st)
    (str_yielder st) (got st) (fed st) (nacked st).
Definition set_feed (x : chan Claim) (st : stream) : stream :=
  MkStream (str_ctx st) (str_timeout st) (str_buffer st) (str_at st) x (feeder st)
    (str_yielder st) (got st) (fed st) (nacked st).
Definition feeder_to (ph : feed_phase) (st : stream) : stream :=
  MkStream (str_ctx st) (str_timeout st) (str_buffer st) (str_at st) (feed st) ph
    (str_yielder st) (got st) (fed st) (nacked st).
Definition set_yielder (y : yielder Claim) (st : stream) : stream :=
  MkStream (str_ctx st) (str_timeout st) (str_buffer st) (str_at st) (feed st) (feeder st)
    (Some y) (got st) (fed st) (nacked st).
Definition add_got (cl : Claim) (st : stream) : stream :=
  MkStream (str_ctx st) (str_timeout st) (str_buffer st) (str_at st) (feed st) (feeder st)
    (str_yielder st) (got st ++ [cl]) (fed st) (nacked st).
Definition add_fed (cl : Claim) (st : stream) : stream :=
  MkStream (str_ctx st) (str_timeout st) (str_buffer st) (str_at st) (feed st) (feeder st)
    (str_yielder st) (got st) (fed st ++ [cl]) (nacked st).
Definition add_nacked (cl : Claim) (st : stream) : stream :=
  MkStream (str_ctx st) (str_timeout st) (str_buffer st) (str_at st) (feed st) (feeder st)
    (str_yielder st) (got st) (fed st) (nacked st ++ [cl]).

Section Stream.
Context {B D : Type} `{!Backend B, !DeadLetter D} (q : Queue).

Abbreviation world := (Queue.world B D).

(** The next action of a program, when it does not block. *)
Definition prog_step {A} (p : prog A) (o : oracle) (w : world) : option (outcome (prog A * world)) :=
  match p with
  | Return _ => None
  | Do a k =>
      if decide (uuid (draw o) ∈ dom (issued w)) then None else
      if negb (enabled a w) then None
      else Some (r <-- act o a w ;;; Ret (k r.1, r.2))
  end.

(** The yielder over the feed, as [Stream] makes it. *)
Definition feed_yielder (x : ctx) (buffer timeout : Z) : error + yielder Claim :=
  Yielder.New x [WithBuffer buffer; Yielder.WithTimeout timeout; WithInputChannel].

(** One step of [Stream]: the check, the feed and its goroutine, the yielder. *)
Definition Stream_step (w : world) (st : stream) : option (outcome stream) :=
  match str_at st with
  | StreamCheck =>
      Some (Ret (str_to (if closed w then StreamReturned (Some ErrQueueClosed) else StreamMake) st))
  | StreamMake =>
      Some (ch <-- make_chan (str_buffer st) ;;;
            Ret (str_to StreamNew (feeder_to FeedLoop (set_feed ch st))))
  | StreamNew =>
      Some (Ret (match feed_yielder (ctx_of w (str_ctx st)) (str_buffer st) (str_timeout st) with
                 | inl e => str_to (StreamReturned (Some e)) st
                 | inr y => str_to (StreamReturned None) (set_yielder y st)
                 end))
  | StreamReturned _ => None
  end.

(** One step of the feeder; [fuel] bounds the polls of a [Dequeue] (one that runs out of
    it is still polling), [onDone] picks the case of its select. *)
Definition feeder_step (fuel : nat) (o : oracle) (onDone : bool) (w : world) (st : stream) :
    option (outcome (world * stream)) :=
  let c := str_ctx st in
  let to (ph : feed_phase) (st : stream) := Some (Ret (w, feeder_to ph st)) in
  match feeder st with
  | NoFeeder | FeedOver => None
  | FeedLoop => to (FeedDequeue (Dequeue q fuel c (str_timeout st))) st
  | FeedDequeue (Return (inl cl)) => to (FeedSelect cl) (add_got cl st)
  | FeedDequeue (Return (inr (Some _))) => to FeedClose st
  | FeedDequeue (Return (inr None)) => None
  | FeedDequeue p =>
      r ← prog_step p o w;
      Some (r <-- r ;;; Ret (r.2, feeder_to (FeedDequeue r.1) st))
  | FeedSelect cl =>
      if onDone then
        e ← ctx_of w c;
        to (FeedNack (Claim_Nack q c cl (Some e))) (add_nacked cl st)
      else
        match chan_send (feed st) cl with
        | Sent ch => to FeedLoop (add_fed cl (set_feed ch st))
        | SendBlocks => None
        | SendPanics => Some Panic
        end
  | FeedNack (Return _) => to FeedClose st
  | FeedNack p =>
      r ← prog_step p o w;
      Some (r <-- r ;;; Ret (r.2, feeder_to (FeedNack r.1) st))
  | FeedClose =>
      Some (ch <-- close_chan (feed st) ;;; Ret (w, feeder_to FeedOver (set_feed ch st)))
  end.

(** A move of the yielder or of its consumer. *)
Definition stream_yielder_step (m : ymove Claim) (st : stream) : option (outcome stream) :=
  y ← str_yielder st;
  o ← yact m (feed st) y;
  Some (r <-- o ;;; Ret (set_yielder r.2 (set_feed r.1 st))).

(** On an unbuffered feed the send and the receive are one step. *)
Definition handover_step (st : stream) : option (outcome stream) :=
  y ← str_yielder st;
  match feeder st with
  | FeedSelect cl =>
      if (chan_cap (feed st) =? 0)%nat && negb (chan_closed (feed st)) then
        match gen_at y with
        | InputSelect =>
            Some (Ret (feeder_to FeedLoop (add_fed cl
              (set_yielder (to_phase (InputSend cl) (take cl y)) st))))
        | _ => None
        end
      else None
  | _ => None
  end.

(** ** The stream among the threads of the queue *)
Inductive smove :=
| Env (mv : move)
| MoveStream
| MoveFeeder (fuel : nat) (o : oracle) (onDone : bool)
| MoveStreamYielder (m : ymove Claim)
| Handover.

Definition sact (mv : smove) (x : world * threads * stream) :
    option (outcome (world * threads * stream)) :=
  let '(w, ps, st) := x in
  match mv with
  | Env mv => x ← advance q mv (w, ps); Some (Ret (x, st))
  | MoveStream => o ← Stream_step w st; Some (st <-- o ;;; Ret (w, ps, st))
  | MoveFeeder fuel o onDone =>
      r ← feeder_step fuel o onDone w st; Some (r <-- r ;;; Ret (r.1, ps, r.2))
  | MoveStreamYielder m => o ← stream_yielder_step m st; Some (st <-- o ;;; Ret (w, ps, st))
  | Handover => o ← handover_step st; Some (st <-- o ;;; Ret (w, ps, st))
  end.

(** The other threads may make the calls [QueueSystem] lets them make. *)
Definition smove_may (offered : Task → Prop) (redrive : bool) (mv : smove) : Prop :=
  match mv with Env mv => move_may offered redrive mv | _ => True end.

Definition sstep (offered : Task → Prop) (redrive : bool) (x x' : world * threads * stream) : Prop :=
  ∃ mv, smove_may offered redrive mv ∧ sact mv x = Some (Ret x').

Fixpoint sexec (mvs : list smove) (x : world * threads * stream) : option (world * threads * stream) :=
  match mvs with
  | [] => Some x
  | mv :: mvs => match sact mv x with Some (Ret x) => sexec mvs x | _ => None end
  end.
End Stream.
