(* ===== verification/QueueStreamSafety.v ===== *)
(** * What a stream of claims guarantees

    The queue's guarantees survive its streams, and every claim a stream dequeues is in
    one place on the way to the consumer. *)
From S2P Require Import Prelude Golang QueueTypes MemoryBackend DeadLetter Yielder YielderSafety Queue QueueSystem QueueSafety QueueRaces QueueStream.

Section Safety.
Context {B D : Type} `{!Backend B, !DeadLetter D} (q : Queue).
Context (before : Task → Task → bool) (brep : B → store → Prop) (drep : D → gmap Z DeadTask → Prop).
Context `{!BackendLaws before brep, !DeadLetterLaws drep}.
Context (offered : Task → Prop) (redrive : bool).
Hypothesis ID_unique : ∀ t t', offered t → offered t' → ID t = ID t' → t = t'.
Hypothesis attempts_positive : (0 < maxAttempts q)%Z.

Abbreviation world := (Queue.world B D).
Abbreviation rely := (QueueSafety.rely drep offered redrive).
Abbreviation inv := (QueueSafety.inv q brep drep offered redrive).
Abbreviation safe := (QueueSystem.safe inv rely (@QueueSafety.guar B D q drep offered redrive)).
Abbreviation sys_inv := (QueueSystem.sys_inv inv rely (@QueueSafety.guar B D q drep offered redrive)).
Implicit Types (w : world) (st : stream).

(** ** The feeder's calls of the queue *)

(** What the feeder runs is safe and no part of the reaper; its claims are on leases that
    were issued. *)
Definition feeder_safe w st : Prop :=
  match feeder st with
  | FeedDequeue p => safe p QueueSafety.claimed w ∧ performs client p
  | FeedSelect cl => knows w (lease cl)
  | FeedNack p => safe p any w ∧ performs client p
  | _ => True
  end.

Definition got_known w st : Prop := ∀ cl, cl ∈ got st → knows w (lease cl).

Lemma feeder_safe_rely w w' st : rely w w' → feeder_safe w st → feeder_safe w' st.
Proof.
  intros Hr. unfold feeder_safe. destruct (feeder st); try done;
    [|by eapply knows_rely|];
    intros [Hs ?]; (split; [|done]); exact (safe_rely inv rely _ _ _ _ _ Hr Hs).
Qed.

Lemma prog_step_safe {A} (p : prog A) (Q : A → world → Prop) o w r :
  inv w → safe p Q w → performs client p → prog_step p o w = Some r →
  ∃ p' w', r = Ret (p', w') ∧ safe p' Q w' ∧ performs client p' ∧ inv w' ∧ rely w w'.
Proof.
  intros Hinv Hs Hc Hp. destruct p as [a|R a k]; cbn in Hp; [done|]. case_decide; [done|].
  destruct (enabled a w) eqn:Hen; [|done]. cbn in Hp. simplify_eq. destruct Hc as [Ha Hc].
  destruct (Hs w (reflexivity w) Hinv) as [Hg Hk].
  destruct (act_safe q before brep drep offered redrive ID_unique attempts_positive o a w)
    as (r & w' & Hact & ? & ? & _); [done..| |].
  { intros Hcl. by rewrite (client_not_closing _ _ Ha) in Hcl. }
  exists (k r), w'. rewrite Hact. split_and!; try done. by eapply Hk.
Qed.

(** ** The claims of the stream *)

Definition holding_claim st : list Claim := match feeder st with FeedSelect cl => [cl] | _ => [] end.
Definition taken_claims st : list Claim := match str_yielder st with Some y => taken y | None => [] end.

Record stream_data st : Prop := {
  sd_stage : match str_at st with
    | StreamCheck | StreamMake => feeder st = NoFeeder ∧ str_yielder st = None ∧ fed st = []
    | StreamNew => str_yielder st = None
    | _ => True
    end;
  sd_closed : chan_closed (feed st) = match feeder st with FeedOver => true | _ => false end;
  sd_got : got st = fed st ++ nacked st ++ holding_claim st;
  sd_nacked : match feeder st with FeedNack _ | FeedClose | FeedOver => length (nacked st) ≤ 1 | _ => nacked st = [] end;
  sd_fed : fed st = taken_claims st ++ chan_buf (feed st);
  sd_wf : chan_wf (feed st);
  sd_yielder : ∀ y, str_yielder st = Some y → yielder_inv y ∧ gen y = GenInput;
}.

Lemma call_Stream_data c timeout buffer : stream_data (call_Stream c timeout buffer).
Proof. split; try done. unfold chan_wf. cbn. lia. Qed.

Lemma feed_yielder_spec x b t y : feed_yielder x b t = inr y → yielder_inv y ∧ gen y = GenInput ∧ taken y = [].
Proof.
  intros Hy. pose proof (New_fresh _ _ _ Hy) as Ht. pose proof Hy as Hn. apply yielder_New_inv in Hn.
  split_and!; try done. unfold feed_yielder, Yielder.New, newYielder in Hy. destruct x; [done|]. cbn in Hy.
  by case_match; simplify_eq.
Qed.

Definition consistent w st : Prop := stream_data st ∧ feeder_safe w st ∧ got_known w st.

Lemma Stream_step_data w st st' :
  consistent w st → Stream_step w st = Some (Ret st') → consistent w st'.
Proof.
  intros ([Hst Hcl Hg Hn Hf Hwf Hy] & Hsafe & Hk) Hs. unfold Stream_step in Hs.
  destruct (str_at st) eqn:Hat; try done.
  - simplify_eq. split; [|done]. split; try done. cbn. by destruct (Queue.closed w).
  - apply (inj Some), obind_Ret in Hs as (ch & Hch & [= <-]). destruct Hst as (Hfe & Hye & Hfd).
    apply make_chan_wf in Hch as Hm. destruct Hm as (Hw & Hb & _).
    assert (chan_closed ch = false) as Hc by (unfold make_chan in Hch; by case_match; simplify_eq).
    split; [|done]. unfold holding_claim, taken_claims in *. rewrite Hfe, Hye in *.
    split; unfold holding_claim, taken_claims; cbn; try done.
    + by rewrite Hye, Hb, Hfd.
    + by rewrite Hye.
  - injection Hs as Hs. unfold taken_claims in Hf. rewrite Hst in Hf.
    destruct (feed_yielder _ _ _) as [e|y] eqn:Hnew; subst st'; (split; [|done]).
    + split; try done. unfold taken_claims. cbn. by rewrite Hst.
    + apply feed_yielder_spec in Hnew as (? & ? & Ht). split; try done.
      * unfold taken_claims. cbn. by rewrite Ht.
      * cbn. by intros y' [= <-].
Qed.

(** A step of the feeder that leaves the feed alone. *)
Lemma feeder_to_data st st1 ph :
  stream_data st → feeder st ≠ NoFeeder → feeder st ≠ FeedOver → ph ≠ FeedOver →
  feed st1 = feed st → str_at st1 = str_at st → str_yielder st1 = str_yielder st → fed st1 = fed st →
  got st1 = fed st ++ nacked st1 ++ (match ph with FeedSelect cl => [cl] | _ => [] end) →
  match ph with FeedNack _ | FeedClose | FeedOver => length (nacked st1) ≤ 1 | _ => nacked st1 = [] end →
  stream_data (feeder_to ph st1).
Proof.
  intros [Hst Hcl Hg Hn Hf Hwf Hy] H1 H2 H3 Hfe Hat Hye Hfd Hgo Hna.
  split; cbn; unfold holding_claim, taken_claims in *; cbn; rewrite ?Hfe, ?Hat, ?Hye, ?Hfd; try done.
  - destruct (str_at st); tauto.
  - rewrite Hcl. by destruct (feeder st), ph.
Qed.

(** The feeder performs the next action of the call it is in. *)
Lemma feeder_call_data {A} (p : prog A) (Q : A → world → Prop) (ph : prog A → feed_phase) o w st r w' st' :
  inv w → consistent w st → safe p Q w → performs client p → prog_step p o w = Some r →
  (r <-- r ;;; Ret (r.2, feeder_to (ph r.1) st))%go = Ret (w', st') →
  (∀ p' w1, safe p' Q w1 → performs client p' → feeder_safe w1 (feeder_to (ph p') st)) →
  (∀ p', stream_data (feeder_to (ph p') st)) →
  consistent w' st' ∧ inv w' ∧ rely w w'.
Proof.
  intros Hinv (Hd & _ & Hk) Hsafe Hcl Hr Hs Hph Hdata.
  destruct (prog_step_safe _ _ _ _ _ Hinv Hsafe Hcl Hr) as (p' & w1 & -> & ? & ? & ? & ?).
  cbn in Hs. simplify_eq. split; [|done]. split; [done|]. split; [by apply Hph|].
  intros c Hc. eapply knows_rely; [done|by apply Hk].
Qed.

Lemma feeder_send_data w st cl ch :
  consistent w st → feeder st = FeedSelect cl → chan_send (feed st) cl = Sent ch →
  consistent w (feeder_to FeedLoop (add_fed cl (set_feed ch st))).
Proof.
  intros ([Hst Hcl Hg Hn Hf Hwf Hy] & _ & Hk) Hph Hsend. rewrite Hph in *.
  pose proof (chan_send_wf _ _ _ Hwf Hsend). apply chan_send_cap in Hsend as Hcap. destruct Hcap as [_ Hb].
  assert (chan_closed ch = false) as Hc.
  { unfold chan_send in Hsend. destruct (chan_closed (feed st)); [done|]. destruct (_ <? _); [|done].
    by injection Hsend as <-. }
  split; [|by split]. split; unfold holding_claim, taken_claims in *; cbn; try done.
  - destruct (str_at st); naive_solver.
  - by rewrite Hg, Hph, Hn, !app_nil_r.
  - by rewrite Hb, Hf, app_assoc.
Qed.

Lemma feeder_step_data fuel o onDone w st w' st' :
  inv w → consistent w st →
  feeder_step q fuel o onDone w st = Some (Ret (w', st')) →
  consistent w' st' ∧ inv w' ∧ rely w w'.
Proof.
  intros Hinv Hcon Hs. pose proof Hcon as (Hd & Hsafe & Hk). pose proof Hd as [Hst Hcl Hg Hn Hf Hwf Hy].
  unfold feeder_step in Hs. unfold feeder_safe in Hsafe. unfold holding_claim in Hg.
  pose proof (λ st1 ph, feeder_to_data st st1 ph Hd) as Hkeep.
  destruct (feeder st) as [| |p|cl|p| |] eqn:Hph; try done.
  - simplify_eq. split; [|done]. split; [by apply Hkeep|]. split; [|done]. split.
    + by apply (dequeue_safe q before brep drep).
    + eapply performs_sub; [|apply dequeue_methods]. by intros R a [? _].
  - destruct Hsafe as [Hsafe Hcli]. destruct p as [[cl|[e|]]|R a k]; try done.
    + simplify_eq. split; [|done]. pose proof (Hsafe w' (reflexivity w') Hinv) as Hcl'. cbn in Hcl'.
      split; [apply Hkeep; try done; cbn|split; [done|]].
      * by rewrite Hg, Hn, !app_nil_r.
      * intros c [Hc|Hc%list_elem_of_singleton]%elem_of_app; [by apply Hk|by subst].
    + simplify_eq. split; [|done]. split; [apply Hkeep; try done; rewrite Hn; cbn; lia|by split].
    + apply bind_Some in Hs as (r & Hr & [= Hs]).
      eapply feeder_call_data; [done|done|exact Hsafe|done|exact Hr|exact Hs|by split|].
      intros p'. by apply Hkeep.
  - destruct onDone.
    + apply bind_Some in Hs as (e & He & Hs). simplify_eq. split; [|done].
      split; [apply Hkeep; try done; cbn|split; [|done]].
      * by rewrite Hg, Hn, app_nil_r.
      * rewrite Hn. cbn. lia.
      * split; [by apply (settle_safe q before brep drep offered redrive ID_unique attempts_positive)|].
        eapply performs_sub; [|apply nack_methods]. by intros R a [? _].
    + destruct (chan_send (feed st) cl) as [ch| |] eqn:Hsend; simplify_eq. split; [|done].
      by apply feeder_send_data.
  - destruct Hsafe as [Hsafe Hcli]. destruct p as [e|R a k].
    + simplify_eq. split; [|done]. split; [by apply Hkeep|by split].
    + apply bind_Some in Hs as (r & Hr & [= Hs]).
      eapply feeder_call_data; [done|done|exact Hsafe|done|exact Hr|exact Hs|by split|].
      intros p'. by apply Hkeep.
  - apply (inj Some), obind_Ret in Hs as (ch & Hch & [= <- <-]). split; [|done].
    unfold close_chan in Hch. rewrite Hcl in Hch. simplify_eq. split; [|by split].
    split; unfold holding_claim, taken_claims in *; cbn; try done. destruct (str_at st); naive_solver.
Qed.

Lemma stream_yielder_step_data m w st st' :
  consistent w st → stream_yielder_step m st = Some (Ret st') → consistent w st'.
Proof.
  intros ([Hst Hcl Hg Hn Hf Hwf Hy] & Hsafe & Hk) Hs. unfold stream_yielder_step in Hs.
  apply bind_Some in Hs as (y & Hye & Hs). apply bind_Some in Hs as (o & Ho & [= Hs]).
  apply obind_Ret in Hs as ([ch y'] & -> & [= <-]). destruct (Hy y Hye) as [Hyi Hgen].
  pose proof (yact_inv _ _ _ _ Hyi Ho) as Hyi'. apply yact_input in Ho as [Hgen' Hin]. cbn [fst snd] in *.
  assert (match str_at st with StreamReturned _ => True | _ => False end) as Hat
    by (destruct (str_at st); try done; try (destruct Hst as (_ & ? & _)); congruence).
  split; [|done]. unfold taken_claims in Hf. rewrite Hye in Hf.
  destruct Hin as [[-> Ht]|(v & _ & Hr & Ht)].
  - split; unfold taken_claims; cbn; try done.
    + by destruct (str_at st).
    + by rewrite Ht.
    + intros ? [= <-]. by rewrite Hgen'.
  - pose proof (chan_recv_wf _ _ _ Hwf Hr). destruct (chan_recv_frame _ _ _ Hr) as [_ Hc].
    split; unfold taken_claims; cbn; try done.
    + by destruct (str_at st).
    + by rewrite Hc.
    + rewrite Hf, Ht. unfold chan_recv in Hr. destruct (chan_buf (feed st)); [by destruct (chan_closed (feed st))|].
      simplify_eq. by rewrite <- app_assoc.
    + intros ? [= <-]. by rewrite Hgen'.
Qed.

Lemma handover_step_data w st st' : consistent w st → handover_step st = Some (Ret st') → consistent w st'.
Proof.
  intros ([Hst Hcl Hg Hn Hf Hwf Hy] & Hsafe & Hk) Hs. unfold handover_step in Hs.
  apply bind_Some in Hs as (y & Hye & Hs).
  destruct (feeder st) as [| | |cl| | |] eqn:Hph; try done.
  destruct ((chan_cap (feed st) =? 0) && negb (chan_closed (feed st))) eqn:Hc; [|done]. boolify.
  destruct (gen_at y) eqn:Hat; try done. simplify_eq. destruct (Hy y Hye) as [Hyi Hgen].
  assert (chan_buf (feed st) = []) as Hb.
  { unfold chan_wf in Hwf. destruct (chan_buf (feed st)); [done|]. cbn in Hwf. lia. }
  assert (yact (MoveGen OnChan) (Chan 1 [cl] false) y =
    Some (Ret (Chan 1 [] false, to_phase (InputSend cl) (take cl y)))) as Ho
    by (cbn [yact]; unfold gen_step, input_step; by rewrite Hat).
  apply (yact_inv _ _ _ _ Hyi) in Ho. cbn [snd] in Ho.
  unfold taken_claims in Hf. rewrite Hye in Hf. unfold holding_claim in Hg. rewrite Hph in Hg.
  split; [|done]. split; unfold holding_claim, taken_claims; cbn; try done.
  - destruct (str_at st); try done; try (destruct Hst as (_ & ? & _)); congruence.
  - by rewrite Hg, Hn, !app_nil_r.
  - by rewrite Hf, Hb, !app_nil_r.
  - by intros ? [= <-].
Qed.

(** ** The composed system *)

Definition full_inv (x : world * threads * stream) : Prop := sys_inv x.1 ∧ consistent x.1.1 x.2.

Lemma consistent_rely w w' st : rely w w' → consistent w st → consistent w' st.
Proof.
  intros Hr (Hd & Hs & Hk). split_and!; [done|by eapply feeder_safe_rely|].
  intros cl Hc. eapply knows_rely; [exact Hr|by apply Hk].
Qed.

Lemma sstep_inv x x' : full_inv x → sstep q offered redrive x x' → full_inv x'.
Proof.
  destruct x as [[w ps] st]. intros [[Hinv Hps] Hst] (mv & Hmay & Hs). cbn in Hinv, Hps, Hst.
  destruct mv as [mv| |fuel o onDone|m|]; cbn [sact] in Hs.
  - apply bind_Some in Hs as ([w' ps'] & Ha & [= <-]). apply (advance_step q offered redrive) in Ha; [|done].
    destruct (step_sys_rely q before brep drep offered redrive ID_unique attempts_positive (w, ps) (w', ps'))
      as [Hsys Hr]; [by split|done|].
    split; [done|]. by apply (consistent_rely w).
  - apply bind_Some in Hs as (o & Ho & [= Hs]). apply obind_Ret in Hs as (st1 & -> & [= <-]).
    split; [by split|]. by eapply Stream_step_data.
  - apply bind_Some in Hs as (r & Ho & [= Hs]). apply obind_Ret in Hs as ([w1 st1] & -> & [= <-]).
    destruct (feeder_step_data _ _ _ _ _ _ _ Hinv Hst Ho) as (? & ? & Hr). split; [|done]. split; [done|]. cbn.
    by apply (safe_threads_rely inv rely _ ps w w1).
  - apply bind_Some in Hs as (o & Ho & [= Hs]). apply obind_Ret in Hs as (st1 & -> & [= <-]).
    split; [by split|]. by eapply stream_yielder_step_data.
  - apply bind_Some in Hs as (o & Ho & [= Hs]). apply obind_Ret in Hs as (st1 & -> & [= <-]).
    split; [by split|]. by eapply handover_step_data.
Qed.

Lemma sact_no_panic mv x : full_inv x → (0 ≤ str_buffer x.2)%Z → sact q mv x ≠ Some Panic.
Proof.
  destruct x as [[w ps] st]. intros [[Hinv Hps] (Hd & Hsafe & Hk)] Hb Hs. cbn in *.
  destruct mv as [mv| |fuel o onDone|m|]; cbn [sact] in Hs.
  - by apply bind_Some in Hs as ([w' ps'] & Ha & Hs).
  - apply bind_Some in Hs as (o & Ho & [= Hs]). destruct o as [st1|]; [done|]. unfold Stream_step in Ho.
    destruct (str_at st); try done. injection Ho as Ho. unfold make_chan in Ho.
    destruct (Z.ltb_spec (str_buffer st) 0); [lia|done].
  - apply bind_Some in Hs as (r & Ho & [= Hs]). destruct r as [r|]; [done|]. unfold feeder_step in Ho.
    unfold feeder_safe in Hsafe. pose proof (sd_closed _ Hd) as Hcl.
    assert (∀ A (p : prog A) Q r, safe p Q w ∧ performs client p → prog_step p o w = Some r → r ≠ Panic) as Hact.
    { intros A p Q r [Hp Hc] Hr ->. by destruct (prog_step_safe _ _ _ _ _ Hinv Hp Hc Hr) as (? & ? & ? & _). }
    destruct (feeder st) as [| |p|cl|p| |] eqn:Hph; try done.
    + destruct p as [[cl|[e|]]|R a k]; try done. apply bind_Some in Ho as (r & Hr & [= Ho]).
      destruct r as [r|]; [done|]. by apply (Hact _ _ _ _ Hsafe Hr).
    + destruct onDone; [by apply bind_Some in Ho as (e & He & Ho)|].
      unfold chan_send in Ho. rewrite Hcl in Ho. by destruct (_ <? _).
    + destruct p as [e|R a k]; try done. apply bind_Some in Ho as (r & Hr & [= Ho]).
      destruct r as [r|]; [done|]. by apply (Hact _ _ _ _ Hsafe Hr).
    + injection Ho as Ho. unfold close_chan in Ho. by rewrite Hcl in Ho.
  - apply bind_Some in Hs as (o & Ho & [= Hs]). destruct o as [st1|]; [done|]. unfold stream_yielder_step in Ho.
    apply bind_Some in Ho as (y & Hye & Ho). apply bind_Some in Ho as (o & Ho & [= Ho']).
    destruct o as [r|]; [done|]. apply (yact_no_panic _ _ _ (proj1 (sd_yielder _ Hd y Hye)) Ho).
  - apply bind_Some in Hs as (o & Ho & [= Hs]). destruct o as [st1|]; [done|]. unfold handover_step in Ho.
    apply bind_Some in Ho as (y & Hye & Ho). destruct (feeder st); try done. destruct (_ && _); [|done].
    by destruct (gen_at y).
Qed.

Lemma sstep_buffer x x' : sstep q offered redrive x x' → str_buffer x'.2 = str_buffer x.2.
Proof.
  destruct x as [[w ps] st]. intros (mv & _ & Hs). destruct mv as [mv| |fuel o onDone|m|]; cbn [sact] in Hs.
  - by apply bind_Some in Hs as ([w' ps'] & Ha & [= <-]).
  - apply bind_Some in Hs as (o & Ho & [= Hs]). apply obind_Ret in Hs as (st1 & -> & [= <-]).
    unfold Stream_step in Ho. destruct (str_at st); simplify_eq; try done.
    + by apply obind_Ret in Ho as (ch & _ & [= <-]).
    + cbn. by destruct (feed_yielder _ _ _).
  - apply bind_Some in Hs as (r & Ho & [= Hs]). apply obind_Ret in Hs as ([w1 st1] & -> & [= <-]).
    unfold feeder_step in Ho. destruct (feeder st) as [| |p|cl|p| |]; try done.
    + by simplify_eq.
    + destruct p as [[cl|[e|]]|R a k]; simplify_eq; try done.
      apply bind_Some in Ho as (r & _ & [= Ho]). by apply obind_Ret in Ho as (? & _ & [= _ <-]).
    + destruct onDone; [apply bind_Some in Ho as (e & He & Ho); by simplify_eq|].
      destruct (chan_send _ _); by simplify_eq.
    + destruct p as [e|R a k]; simplify_eq; try done.
      apply bind_Some in Ho as (r & _ & [= Ho]). by apply obind_Ret in Ho as (? & _ & [= _ <-]).
    + injection Ho as Ho. by apply obind_Ret in Ho as (? & _ & [= _ <-]).
  - apply bind_Some in Hs as (o & Ho & [= Hs]). apply obind_Ret in Hs as (st1 & -> & [= <-]).
    unfold stream_yielder_step in Ho. apply bind_Some in Ho as (y & Hye & Ho).
    apply bind_Some in Ho as (o & _ & [= Ho]). by apply obind_Ret in Ho as (? & _ & [= <-]).
  - apply bind_Some in Hs as (o & Ho & [= Hs]). apply obind_Ret in Hs as (st1 & -> & [= <-]).
    unfold handover_step in Ho. apply bind_Some in Ho as (y & Hye & Ho).
    destruct (feeder st); try done. destruct (_ && _); [|done]. destruct (gen_at y); by simplify_eq.
Qed.
End Safety.

Section Reachable.
Context {B D : Type} `{!Backend B, !DeadLetter D} (q : Queue).
Context (before : Task → Task → bool) (brep : B → store → Prop) (drep : D → gmap Z DeadTask → Prop).
Context `{!BackendLaws before brep, !DeadLetterLaws drep}.

(** C7: a [Stream] call with a buffer that is not negative, its feeder and its yielder,
    interleaved with any other calls of the queue but [Redrive]: nothing panics and no
    accepted task is lost. The claims dequeued, each on a lease that was issued, are in
    order those sent into the feed, then the one nacked or still held by the feeder;
    those sent are, in order, the ones the yielder took and the ones in the feed; and
    those taken are received or in the results but at most one, in hand, or dropped
    only once the yielder's context is done. *)
Theorem stream_keeps_claims (offered : Task → Prop) ticks (b : B) (d : D) c timeout buffer w ps st :
  (∀ t t', offered t → offered t' → ID t = ID t' → t = t') → (0 < maxAttempts q)%Z →
  brep b (Store [] ∅) → drep d ∅ → (0 ≤ buffer)%Z →
  rtc (sstep q offered false) (start q ticks b d, call_Stream c timeout buffer) (w, ps, st) →
  (∀ mv, sact q mv (w, ps, st) ≠ Some Panic) ∧
  (∃ s m, brep (backend w) s ∧ drep (deadLetter w) m ∧ ∀ t, t ∈ stored w → kept w s m t) ∧
  got st = fed st ++ nacked st ++ holding_claim st ∧ length (nacked st ++ holding_claim st) ≤ 1 ∧
  (∀ cl, cl ∈ got st → issued w !! Token (lease cl) = Some (lease_Task (lease cl), Attempt (lease cl))) ∧
  fed st = taken_claims st ++ chan_buf (feed st) ∧
  (∀ y, str_yielder st = Some y → ∃ hand,
     taken y = (received y ++ chan_buf (genChan y)) ++ dropped y ++ hand ∧
     length (dropped y ++ hand) ≤ 1 ∧ (dropped y ≠ [] → ctx_done (yctx y) = true)).
Proof.
  intros HID Hmax Hb Hd Hbuf Hrtc.
  assert (full_inv q brep drep offered false (w, ps, st) ∧ str_buffer st = buffer) as [Hinv Hsb].
  { apply (rtc_preserves (sstep q offered false)
      (λ x, full_inv q brep drep offered false x ∧ str_buffer x.2 = buffer)) in Hrtc; [done| |].
    - intros x x' [Hx <-] Hs. split; [by apply (sstep_inv q before brep drep offered false HID Hmax x)|].
      by eapply sstep_buffer.
    - split; [|done]. split; [by apply (start_sys_inv q before brep drep offered false ticks b d)|].
      split; [apply call_Stream_data|]. split; [done|]. by intros cl ?%not_elem_of_nil. }
  pose proof Hinv as [[(s & m & Hat) _] (Hdata & _ & Hk)]. split_and!.
  - intros mv. apply (sact_no_panic q before brep drep offered false HID Hmax mv _ Hinv). cbn. lia.
  - exists s, m. split_and!; [by apply (inv_backend _ _ _ _ _ _ _ _ Hat)|by apply (inv_deadLetter _ _ _ _ _ _ _ _ Hat)|].
    by apply (inv_kept _ _ _ _ _ _ _ _ Hat).
  - apply (sd_got _ Hdata).
  - pose proof (sd_nacked _ Hdata) as Hn. cbn [fst snd] in Hn. revert Hn. unfold holding_claim.
    rewrite length_app. destruct (feeder st); cbn; intros Hn; (lia || (rewrite Hn; cbn; lia)).
  - exact Hk.
  - apply (sd_fed _ Hdata).
  - intros y Hy. destruct (sd_yielder _ Hdata y Hy) as [Hyi Hg]. rewrite <- (yi_fifo _ Hyi). by apply source_input.
Qed.
End Reachable.

(** ** Runs over the in-memory stores *)

Lemma sexec_rtc q offered mvs (x x' : mem_world * threads * stream) :
  Forall (smove_may offered false) mvs → sexec q mvs x = Some x' → rtc (sstep q offered false) x x'.
Proof.
  revert x. induction mvs as [|mv mvs IH]; cbn; intros x Hmay H; [by simplify_eq|].
  apply Forall_cons in Hmay as [Hm Hmay]. destruct (sact q mv x) as [[x1|]|] eqn:Ha; try done.
  eapply rtc_l; [by exists mv|by apply IH].
Qed.

Definition feeder_moves (n : nat) (tok : string) : list smove := replicate n (MoveFeeder 1 (at_time tok 0) false).

(** The task is enqueued and a stream starts; its feeder dequeues the task. *)
Definition feed_one : list smove :=
  (Env <$> ([Call (ReqEnqueue 1 (Some the_task))] ++ acts 4 1 "" 0)) ++ replicate 3 MoveStream ++
  feeder_moves 5 "a" ++ feeder_moves 3 "".

(** The yielder takes the claim and sends it on to the consumer. *)
Definition deliver : list smove :=
  feeder_moves 1 "" ++ replicate 3 (MoveStreamYielder (MoveGen OnChan)) ++ [MoveStreamYielder MoveRecv].

(** The yielder's deadline passes while the feeder waits for work. *)
Definition deadline : list smove :=
  MoveStreamYielder (CtxEnds DeadlineExceeded) :: replicate 7 (MoveStreamYielder (MoveGen OnDone)).

Definition stream_start : mem_world * threads * stream :=
  (mem_start 1 0, call_Stream 1 Second 1).

Lemma stream_keeps_claims_witness :
  match sexec (queue_of 1) (feed_one ++ deliver) stream_start with
  | Some (w, ps, st) =>
      (∃ y, str_yielder st = Some y ∧ received y = got st) ∧
      ∃ s m, backend_rep ModePriority (backend w) s ∧ dead_rep (deadLetter w) m ∧
        ∀ t, t ∈ stored w → kept w s m t
  | None => False
  end.
Proof.
  destruct (sexec (queue_of 1) (feed_one ++ deliver) stream_start) as [[[w ps] st]|] eqn:Hs;
    [|by vm_compute in Hs].
  assert (rtc (sstep (queue_of 1) just_one false) stream_start (w, ps, st)) as Hr
    by (apply (sexec_rtc _ _ (feed_one ++ deliver)); [repeat constructor|done]).
  destruct (stream_keeps_claims (queue_of 1) (task_less ModePriority) (backend_rep ModePriority) dead_rep
    just_one 0 (NewMemoryBackend ModePriority) NewMemoryDeadLetter 1 Second 1 w ps st just_one_ID
    ltac:(reflexivity) (NewMemoryBackend_rep _) eq_refl ltac:(done) Hr) as (_ & Hkept & _).
  split; [|exact Hkept].
  assert ((λ x : mem_world * threads * stream, match str_yielder x.2 with
    Some y => bool_decide (received y = got x.2) | None => false end) <$>
    sexec (queue_of 1) (feed_one ++ deliver) stream_start = Some true) as Hy by (vm_compute; reflexivity).
  rewrite Hs in Hy. cbn in Hy. destruct (str_yielder st) as [y|]; [|done]. exists y.
  split; [done|]. apply (inj Some) in Hy. by apply bool_decide_eq_true in Hy.
Defined.

(** The yielder's timeout ends the stream under a live context; its feeder goes on and
    takes a task that nobody will receive: it waits for its lease to expire. *)
Example stream_strands_claim :
  match sexec (queue_of 1) (replicate 3 MoveStream ++ deadline ++
    (Env <$> ([Call (ReqEnqueue 1 (Some the_task))] ++ acts 4 1 "" 0)) ++
    feeder_moves 5 "a" ++ feeder_moves 4 "") stream_start with
  | Some (w, ps, st) =>
      (doneCh <$> str_yielder st) = Some true ∧ (taken <$> str_yielder st) = Some [] ∧
      ctx_of w 1 = None ∧ length (chan_buf (feed st)) = 1 ∧ size (leases (backend w)) = 1 ∧
      items (ready (backend w)) = []
  | None => False
  end.
Proof. vm_compute. by split_and!. Qed.

(** The context ends between the feeder's [Dequeue] and the check of [yielder.New]:
    [Stream] fails while a claim is on its way into the feed of no consumer. *)
Example failed_stream_strands_claim :
  match sexec (queue_of 1) ((Env <$> ([Call (ReqEnqueue 1 (Some the_task))] ++ acts 4 1 "" 0)) ++
    replicate 2 MoveStream ++ feeder_moves 5 "a" ++ feeder_moves 2 "" ++ [Env (Cancel 1 Canceled); MoveStream] ++
    feeder_moves 2 "") stream_start with
  | Some (w, ps, st) =>
      str_at st = StreamReturned (Some Canceled) ∧ str_yielder st = None ∧
      length (chan_buf (feed st)) = 1 ∧ size (leases (backend w)) = 1
  | None => False
  end.
Proof. vm_compute. by split_and!. Qed.

(** A negative buffer is the default of the yielder, and a panic of [make]. *)
Example negative_buffer_panics w c timeout :
  Stream_step (B := MemoryBackend) (D := MemoryDeadLetter) w
    (str_to StreamMake (call_Stream c timeout (-1))) = Some Panic.
Proof. done. Qed.
