(* ===== verification/Lobby.v ===== *)
(** * The lobby ([src/pkg/taskqueue/lobby.go])

    A bounded channel of tasks in front of the queue. Submissions hold the read lock
    of [sendMu] while they send; [CloseContext] marks the lobby closed, closes
    [closing] to wake up blocked senders, takes the write lock, hands the channel to a
    yielder and closes it. Calls are sequences of steps over the shared lobby; the
    yielders are those of [Yielder]. *)
From S2P Require Import Prelude Golang QueueTypes Yielder.
Local Open Scope Z_scope.
Local Open Scope go_scope.

Definition defaultLobbyBufferSize : Z := 64.
Definition defaultLobbyCloseTimeout : Z := 5 * Second.

(** The writer's side of [sync.RWMutex]: a waiting writer blocks new readers. *)
Inductive writer_state := NoWriter | WriterWaits | WriterHolds.

(** The positions of [SubmitTask]; [SubUnlock] is its deferred [RUnlock]. *)
Inductive submit_phase :=
| SubRLock
| SubCheck
| SubSelect
| SubUnlock (e : option error)
| SubReturned (e : option error).

(** A call of [SubmitTask]; the task is [None] for a nil interface. *)
Record submit_call := MkSubmit {
  s_task : option Task;
  s_timeout : Z;
  s_ctx : ctx;
  s_at : submit_phase;
}.

(** The positions of [PushTasks]: in its select, before [Err], in the range over the
    results, in a call of [SubmitTask]. *)
Inductive push_phase :=
| PushWait
| PushErr
| PushRange
| PushSubmit (c : submit_call)
| PushReturned (e : option error).

Record push_call := MkPush { p_src : nat; p_timeout : Z; p_ctx : ctx; p_at : push_phase }.

(** The positions of [CloseContext]; from [CloseClosing] on inside the once. *)
Inductive close_phase :=
| CloseLoad
| CloseStore
| CloseOnce
| CloseClosing
| CloseLock
| CloseLocked
| CloseNew
| CloseHandoff (k : nat)
| CloseChan (e : option error)
| CloseUnlock (e : option error)
| CloseEnd (e : option error)
| CloseReturned (e : option error).

Record close_call := MkClose { x_ctx : ctx; x_at : close_phase }.

(** [ylds] are the yielders in use, with whether they read from [incoming].
    [accepted], [retrieved] and [outs] are history: the tasks sent into [incoming],
    those [RetrieveTask] returned, and all that were taken out, in order. *)
Record lobby := MkLobby {
  incoming : chan Task;
  closing : bool;
  closeTimeout : Z;
  onceClose : once_state;
  readers : nat;
  writer : writer_state;
  handoff : option nat;
  closed : bool;
  ylds : list (bool * yielder Task);
  submits : list submit_call;
  pushes : list push_call;
  closes : list close_call;
  accepted : list Task;
  retrieved : list Task;
  outs : list Task;
}.

Definition NewLobby (maxTasks timeout : Z) : lobby :=
  let maxTasks := if maxTasks <=? 0 then defaultLobbyBufferSize else maxTasks in
  let timeout := if timeout <=? 0 then defaultLobbyCloseTimeout else timeout in
  MkLobby (Chan (Z.to_nat maxTasks) [] false) false timeout OnceFree 0 NoWriter None false
    [] [] [] [] [] [] [].

(** ** Setters *)
Definition set_incoming (x : chan Task) (l : lobby) : lobby :=
  MkLobby x (closing l) (closeTimeout l) (onceClose l) (readers l) (writer l) (handoff l)
    (closed l) (ylds l) (submits l) (pushes l) (closes l) (accepted l) (retrieved l) (outs l).
Definition set_closing (x : bool) (l : lobby) : lobby :=
  MkLobby (incoming l) x (closeTimeout l) (onceClose l) (readers l) (writer l) (handoff l)
    (closed l) (ylds l) (submits l) (pushes l) (closes l) (accepted l) (retrieved l) (outs l).
Definition set_onceClose (x : once_state) (l : lobby) : lobby :=
  MkLobby (incoming l) (closing l) (closeTimeout l) x (readers l) (writer l) (handoff l)
    (closed l) (ylds l) (submits l) (pushes l) (closes l) (accepted l) (retrieved l) (outs l).
Definition set_readers (x : nat) (l : lobby) : lobby :=
  MkLobby (incoming l) (closing l) (closeTimeout l) (onceClose l) x (writer l) (handoff l)
    (closed l) (ylds l) (submits l) (pushes l) (closes l) (accepted l) (retrieved l) (outs l).
Definition set_writer (x : writer_state) (l : lobby) : lobby :=
  MkLobby (incoming l) (closing l) (closeTimeout l) (onceClose l) (readers l) x (handoff l)
    (closed l) (ylds l) (submits l) (pushes l) (closes l) (accepted l) (retrieved l) (outs l).
Definition set_handoff (x : option nat) (l : lobby) : lobby :=
  MkLobby (incoming l) (closing l) (closeTimeout l) (onceClose l) (readers l) (writer l) x
    (closed l) (ylds l) (submits l) (pushes l) (closes l) (accepted l) (retrieved l) (outs l).
Definition set_closed (x : bool) (l : lobby) : lobby :=
  MkLobby (incoming l) (closing l) (closeTimeout l) (onceClose l) (readers l) (writer l) (handoff l)
    x (ylds l) (submits l) (pushes l) (closes l) (accepted l) (retrieved l) (outs l).
Definition set_ylds (x : list (bool * yielder Task)) (l : lobby) : lobby :=
  MkLobby (incoming l) (closing l) (closeTimeout l) (onceClose l) (readers l) (writer l) (handoff l)
    (closed l) x (submits l) (pushes l) (closes l) (accepted l) (retrieved l) (outs l).
Definition set_submits (x : list submit_call) (l : lobby) : lobby :=
  MkLobby (incoming l) (closing l) (closeTimeout l) (onceClose l) (readers l) (writer l) (handoff l)
    (closed l) (ylds l) x (pushes l) (closes l) (accepted l) (retrieved l) (outs l).
Definition set_pushes (x : list push_call) (l : lobby) : lobby :=
  MkLobby (incoming l) (closing l) (closeTimeout l) (onceClose l) (readers l) (writer l) (handoff l)
    (closed l) (ylds l) (submits l) x (closes l) (accepted l) (retrieved l) (outs l).
Definition set_closes (x : list close_call) (l : lobby) : lobby :=
  MkLobby (incoming l) (closing l) (closeTimeout l) (onceClose l) (readers l) (writer l) (handoff l)
    (closed l) (ylds l) (submits l) (pushes l) x (accepted l) (retrieved l) (outs l).
Definition set_accepted (x : list Task) (l : lobby) : lobby :=
  MkLobby (incoming l) (closing l) (closeTimeout l) (onceClose l) (readers l) (writer l) (handoff l)
    (closed l) (ylds l) (submits l) (pushes l) (closes l) x (retrieved l) (outs l).
Definition set_retrieved (x : list Task) (l : lobby) : lobby :=
  MkLobby (incoming l) (closing l) (closeTimeout l) (onceClose l) (readers l) (writer l) (handoff l)
    (closed l) (ylds l) (submits l) (pushes l) (closes l) (accepted l) x (outs l).
Definition set_outs (x : list Task) (l : lobby) : lobby :=
  MkLobby (incoming l) (closing l) (closeTimeout l) (onceClose l) (readers l) (writer l) (handoff l)
    (closed l) (ylds l) (submits l) (pushes l) (closes l) (accepted l) (retrieved l) x.

(** ** SubmitTask *)

(** The cases of a select. *)
Inductive choice := OnCtx | OnClosing | OnTimer | OnChan_.

Definition sub_to (ph : submit_phase) (c : submit_call) : submit_call :=
  MkSubmit (s_task c) (s_timeout c) (s_ctx c) ph.

Definition call_SubmitTask (x : ctx) (t : option Task) (timeout : Z) : submit_call :=
  MkSubmit t timeout x SubRLock.

(** The case [lobby.incoming <- task]: [None] when it is not ready. *)
Definition send_task (t : Task) (l : lobby) : option (outcome lobby) :=
  match chan_send (incoming l) t with
  | Sent c => Some (Ret (set_accepted (accepted l ++ [t]) (set_incoming c l)))
  | SendBlocks => None
  | SendPanics => Some Panic
  end.

Definition SubmitTask_step (ch : choice) (c : submit_call) (l : lobby) :
    option (outcome (submit_call * lobby)) :=
  let to (ph : submit_phase) (l : lobby) := Some (Ret (sub_to ph c, l)) in
  match s_at c with
  | SubRLock =>
      match writer l with
      | NoWriter => to SubCheck (set_readers (S (readers l)) l)
      | _ => None
      end
  | SubCheck =>
      if closed l then to (SubUnlock (Some ErrLobbyClosed)) l
      else match s_task c with
           | None => to (SubUnlock (Some ErrTaskNil)) l
           | Some _ => to SubSelect l
           end
  | SubSelect =>
      t ← s_task c;
      if s_timeout c <=? 0 then
        match send_task t l with
        | Some o => Some (l <-- o ;;; Ret (sub_to (SubUnlock None) c, l))
        | None => to (SubUnlock (Some ErrLobbyFull)) l
        end
      else
        match ch with
        | OnCtx => match s_ctx c with Some e => to (SubUnlock (Some e)) l | None => None end
        | OnClosing => if closing l then to (SubUnlock (Some ErrLobbyClosed)) l else None
        | OnTimer => to (SubUnlock (Some ErrLobbyFull)) l
        | OnChan_ => o ← send_task t l; Some (l <-- o ;;; Ret (sub_to (SubUnlock None) c, l))
        end
  | SubUnlock e => to (SubReturned e) (set_readers (pred (readers l)) l)
  | SubReturned _ => None
  end.

(** ** PushTasks *)

Definition push_to (ph : push_phase) (p : push_call) : push_call :=
  MkPush (p_src p) (p_timeout p) (p_ctx p) ph.

(** One step of [PushTasks]; its yielder is number [p_src] of the table. *)
Definition PushTasks_step (ch : choice) (p : push_call) (l : lobby) :
    option (outcome (push_call * lobby)) :=
  let to (ph : push_phase) (l : lobby) := Some (Ret (push_to ph p, l)) in
  r ← ylds l !! p_src p;
  match p_at p with
  | PushWait =>
      match ch with
      | OnCtx => match p_ctx p with Some e => to (PushReturned (Some e)) l | None => None end
      | OnChan_ => if doneCh r.2 then to PushErr l else None
      | _ => None
      end
  | PushErr => to (match err r.2 with Some e => PushReturned (Some e) | None => PushRange end) l
  | PushRange =>
      match chan_recv (genChan r.2) with
      | RecvClosed => to (PushReturned None) l
      | RecvBlocks => None
      | Received _ _ =>
          v ← recv_step r.2;
          to (PushSubmit (call_SubmitTask (p_ctx p) (Some v.1) (p_timeout p)))
             (set_ylds (<[p_src p := (r.1, v.2)]> (ylds l)) l)
      end
  | PushSubmit c =>
      match s_at c with
      | SubReturned None => to PushRange l
      | SubReturned (Some e) => to (PushReturned (Some e)) l
      | _ =>
          o ← SubmitTask_step ch c l;
          Some (r <-- o ;;; Ret (push_to (PushSubmit r.1) p, r.2))
      end
  | PushReturned _ => None
  end.

(** ** RetrieveTask and FetchTasks *)

(** The receive from [incoming]: a task, or closed and drained; [None] when it blocks. *)
Definition recv_task (l : lobby) : option ((error + Task) * lobby) :=
  match chan_recv (incoming l) with
  | Received t c =>
      Some (inr t, set_outs (outs l ++ [t]) (set_retrieved (retrieved l ++ [t]) (set_incoming c l)))
  | RecvClosed => Some (inl ErrLobbyClosed, l)
  | RecvBlocks => None
  end.

(** [RetrieveTask] has one shared access, its select. *)
Definition RetrieveTask (ch : choice) (x : ctx) (timeout : Z) (l : lobby) :
    option ((error + Task) * lobby) :=
  if timeout <=? 0 then
    match recv_task l with Some r => Some r | None => Some (inl ErrLobbyEmpty, l) end
  else
    match ch with
    | OnCtx => match x with Some e => Some (inl e, l) | None => None end
    | OnTimer => Some (inl ErrLobbyEmpty, l)
    | OnChan_ => recv_task l
    | OnClosing => None
    end.

(** A yielder over [incoming], as [FetchTasks] and [CloseContext] make it. *)
Definition incoming_yielder (x : ctx) (buf timeout : Z) : error + yielder Task :=
  Yielder.New x [WithBuffer buf; WithTimeout timeout; WithInputChannel].

Definition FetchTasks (x : ctx) (timeout n : Z) (l : lobby) : (error + nat) * lobby :=
  match incoming_yielder x n timeout with
  | inl e => (inl e, l)
  | inr y => (inr (length (ylds l)), set_ylds (ylds l ++ [(true, y)]) l)
  end.

(** ** CloseContext and HandoffTasks *)

Definition close_to (ph : close_phase) (c : close_call) : close_call := MkClose (x_ctx c) ph.

Definition CloseContext_step (c : close_call) (l : lobby) : option (outcome (close_call * lobby)) :=
  let to (ph : close_phase) (l : lobby) := Some (Ret (close_to ph c, l)) in
  match x_at c with
  | CloseLoad => to (if closed l then CloseReturned (Some ErrLobbyClosed) else CloseStore) l
  | CloseStore => to CloseOnce (set_closed true l)
  | CloseOnce =>
      match onceClose l with
      | OnceFree => to CloseClosing (set_onceClose OnceRunning l)
      | OnceRunning => None
      | OnceDone => to (CloseReturned None) l
      end
  | CloseClosing => if closing l then Some Panic else to CloseLock (set_closing true l)
  | CloseLock =>
      match writer l with
      | NoWriter => to CloseLocked (set_writer WriterWaits l)
      | _ => None
      end
  | CloseLocked =>
      match readers l with
      | O => to CloseNew (set_writer WriterHolds l)
      | S _ => None
      end
  | CloseNew =>
      match incoming_yielder (x_ctx c) (chan_len (incoming l)) (closeTimeout l) with
      | inl e => to (CloseChan (Some e)) l
      | inr y => to (CloseHandoff (length (ylds l))) (set_ylds (ylds l ++ [(true, y)]) l)
      end
  | CloseHandoff k => to (CloseChan None) (set_handoff (Some k) l)
  | CloseChan e =>
      Some (ch <-- close_chan (incoming l) ;;;
            Ret (close_to (CloseUnlock e) c, set_incoming ch l))
  | CloseUnlock e => to (CloseEnd e) (set_writer NoWriter l)
  | CloseEnd e => to (CloseReturned e) (set_onceClose OnceDone l)
  | CloseReturned _ => None
  end.

(** [HandoffTasks]: the yielder, and whether the lobby is closed. *)
Definition HandoffTasks (l : lobby) : option nat * bool :=
  if closed l then (handoff l, true) else (None, false).

Definition Len (l : lobby) : Z := chan_len (incoming l).

(** ** The whole *)

(** A move of yielder [k]; [ext] is the input of one that does not read [incoming]. *)
Definition yielder_move (k : nat) (m : ymove Task) (ext : chan Task) (l : lobby) : option (outcome lobby) :=
  r ← ylds l !! k;
  o ← yact m (if r.1 : bool then incoming l else ext) r.2;
  Some (q <-- o ;;;
        let l := set_ylds (<[k := (r.1, q.2)]> (ylds l)) l in
        Ret (if r.1 : bool
             then set_outs (outs l ++ skipn (length (taken r.2)) (taken q.2)) (set_incoming q.1 l)
             else l)).

Definition end_push (e : error) (p : push_call) : push_call :=
  MkPush (p_src p) (p_timeout p) (match p_ctx p with Some e' => Some e' | None => Some e end)
    (match p_at p with
     | PushSubmit c =>
         PushSubmit (MkSubmit (s_task c) (s_timeout c)
           (match s_ctx c with Some e' => Some e' | None => Some e end) (s_at c))
     | ph => ph
     end).

Inductive lmove :=
| CallSubmit (x : ctx) (t : option Task) (timeout : Z)
| MoveSubmit (i : nat) (ch : choice)
| SubmitCtx (i : nat) (e : error)
| CallPush (x : ctx) (src : nat) (timeout : Z)
| MovePush (i : nat) (ch : choice)
| PushCtx (i : nat) (e : error)
| CallRetrieve (ch : choice) (x : ctx) (timeout : Z)
| CallFetch (x : ctx) (timeout n : Z)
| CallClose (x : ctx)
| MoveClose (i : nat)
| NewSource (c : ctx) (opts : list (Option (A := Task)))
| MoveYielder (k : nat) (m : ymove Task) (ext : chan Task).

Definition lact (m : lmove) (l : lobby) : option (outcome lobby) :=
  match m with
  | CallSubmit x t timeout => Some (Ret (set_submits (submits l ++ [call_SubmitTask x t timeout]) l))
  | MoveSubmit i ch =>
      c ← submits l !! i;
      o ← SubmitTask_step ch c l;
      Some (r <-- o ;;; Ret (set_submits (<[i := r.1]> (submits r.2)) r.2))
  | SubmitCtx i e =>
      Some (Ret (set_submits (alter (λ c, MkSubmit (s_task c) (s_timeout c)
        (match s_ctx c with Some e' => Some e' | None => Some e end) (s_at c)) i (submits l)) l))
  | CallPush x src timeout => Some (Ret (set_pushes (pushes l ++ [MkPush src timeout x PushWait]) l))
  | MovePush i ch =>
      p ← pushes l !! i;
      o ← PushTasks_step ch p l;
      Some (r <-- o ;;; Ret (set_pushes (<[i := r.1]> (pushes r.2)) r.2))
  | PushCtx i e => Some (Ret (set_pushes (alter (end_push e) i (pushes l)) l))
  | CallRetrieve ch x timeout => r ← RetrieveTask ch x timeout l; Some (Ret r.2)
  | CallFetch x timeout n => Some (Ret (FetchTasks x timeout n l).2)
  | CallClose x => Some (Ret (set_closes (closes l ++ [MkClose x CloseLoad]) l))
  | MoveClose i =>
      c ← closes l !! i;
      o ← CloseContext_step c l;
      Some (r <-- o ;;; Ret (set_closes (<[i := r.1]> (closes r.2)) r.2))
  | NewSource c opts =>
      match Yielder.New c opts with
      | inl _ => None
      | inr y => Some (Ret (set_ylds (ylds l ++ [(false, y)]) l))
      end
  | MoveYielder k m ext => yielder_move k m ext l
  end.

Definition lstep (l l' : lobby) : Prop := ∃ m, lact m l = Some (Ret l').

Fixpoint lexec (ms : list lmove) (l : lobby) : option lobby :=
  match ms with
  | [] => Some l
  | m :: ms => match lact m l with Some (Ret l) => lexec ms l | _ => None end
  end.
