(* ===== verification/LobbySafety.v ===== *)
(** * What the lobby guarantees

    Under every interleaving of its calls and yielders: no send on the closed channel
    and no second close; tasks come out in the order they went in, each to exactly one
    taker. *)
From S2P Require Import Prelude Golang QueueTypes Yielder YielderSafety Lobby.

(** ** The lock *)

(** A submission holds the read lock; it may send. *)
Definition holding (c : submit_call) : nat :=
  match s_at c with SubCheck | SubSelect | SubUnlock _ => 1 | _ => 0 end.
Definition selecting (c : submit_call) : nat :=
  match s_at c with SubSelect => 1 | _ => 0 end.
Definition inner (f : submit_call → nat) (p : push_call) : nat :=
  match p_at p with PushSubmit c => f c | _ => 0 end.

Definition in_lobby (f : submit_call → nat) (l : lobby) : nat :=
  sum_list_with f (submits l) + sum_list_with (inner f) (pushes l).

(** A close inside the once. *)
Definition running (c : close_call) : nat :=
  match x_at c with
  | CloseLoad | CloseStore | CloseOnce | CloseReturned _ => 0
  | _ => 1
  end.

Definition close_inv (l : lobby) (c : close_call) : Prop :=
  let open := chan_closed (incoming l) = false in
  match x_at c with
  | CloseLoad | CloseStore | CloseReturned _ => True
  | CloseOnce => closed l = true
  | CloseClosing => closing l = false ∧ open ∧ writer l = NoWriter
  | CloseLock => closing l = true ∧ open ∧ writer l = NoWriter
  | CloseLocked => closing l = true ∧ open ∧ writer l = WriterWaits
  | CloseNew | CloseHandoff _ | CloseChan _ =>
      closing l = true ∧ open ∧ writer l = WriterHolds ∧ readers l = 0
  | CloseUnlock _ =>
      closing l = true ∧ chan_closed (incoming l) = true ∧ writer l = WriterHolds ∧ readers l = 0
  | CloseEnd _ => closing l = true ∧ chan_closed (incoming l) = true ∧ writer l = NoWriter
  end.

Definition once_inv (l : lobby) : Prop :=
  match onceClose l with
  | OnceFree =>
      sum_list_with running (closes l) = 0 ∧ closing l = false ∧
      chan_closed (incoming l) = false ∧ writer l = NoWriter
  | OnceRunning => sum_list_with running (closes l) = 1 ∧ closed l = true
  | OnceDone =>
      sum_list_with running (closes l) = 0 ∧ closing l = true ∧ closed l = true ∧
      chan_closed (incoming l) = true ∧ writer l = NoWriter
  end.

Record lock_inv (l : lobby) : Prop := {
  li_readers : readers l = in_lobby holding l;
  li_select : chan_closed (incoming l) = true → in_lobby selecting l = 0;
  li_once : once_inv l;
  li_calls : ∀ i c, closes l !! i = Some c → close_inv l c;
}.

(** What a step of [SubmitTask] changes. *)
Record submit_effect (c c' : submit_call) (l l' : lobby) : Prop := {
  se_readers : readers l' + holding c = readers l + holding c';
  se_select : selecting c' ≤ selecting c ∨ closed l = false;
  se_lock : holding c < holding c' → writer l = NoWriter;
  se_chan : chan_closed (incoming l') = chan_closed (incoming l);
  se_data :
    accepted l' = accepted l ∧ incoming l' = incoming l ∨
    ∃ t, chan_send (incoming l) t = Sent (incoming l') ∧ accepted l' = accepted l ++ [t] ∧ selecting c = 1;
  se_frame :
    closing l' = closing l ∧ onceClose l' = onceClose l ∧ writer l' = writer l ∧ closed l' = closed l ∧
    ylds l' = ylds l ∧ closes l' = closes l ∧ submits l' = submits l ∧ pushes l' = pushes l ∧
    retrieved l' = retrieved l ∧ outs l' = outs l;
}.

Lemma send_task_spec t l o :
  send_task t l = Some o →
  (o = Panic ∧ chan_closed (incoming l) = true) ∨
  ∃ c, chan_send (incoming l) t = Sent c ∧ chan_closed c = chan_closed (incoming l) ∧
       o = Ret (set_accepted (accepted l ++ [t]) (set_incoming c l)).
Proof.
  unfold send_task, chan_send. destruct (chan_closed (incoming l)) eqn:Hc.
  - intros [= <-]. by left.
  - destruct (_ <? _); intros; simplify_eq. right. by eexists.
Qed.

Lemma SubmitTask_step_effect ch c l c' l' :
  holding c ≤ readers l → SubmitTask_step ch c l = Some (Ret (c', l')) → submit_effect c c' l l'.
Proof.
  intros Hr Hs. unfold SubmitTask_step in Hs.
  destruct (s_at c) eqn:Hat.
  - destruct (writer l) eqn:Hw; simplify_eq. split; unfold holding, selecting in *; cbn; rewrite ?Hat; try done; auto; lia.
  - destruct (closed l) eqn:Hcl; [|destruct (s_task c)]; simplify_eq;
      split; unfold holding, selecting in *; cbn; rewrite ?Hat; try done; auto; lia.
  - apply bind_Some in Hs as (t & _ & Hs).
    assert (∀ e, submit_effect c (sub_to (SubUnlock e) c) l l) as Hstay.
    { intros e. split; unfold holding, selecting in *; cbn; rewrite ?Hat; try done; auto; lia. }
    assert (∀ o, send_task t l = Some o → (l <-- o ;;; Ret (sub_to (SubUnlock None) c, l))%go = Ret (c', l') →
      submit_effect c c' l l') as Hsend.
    { intros o Ho Hr'. destruct (send_task_spec _ _ _ Ho) as [[-> _]|(c2 & Hc2 & Hcl & ->)]; [done|].
      cbn in Hr'. simplify_eq. split; unfold holding, selecting in *; cbn; rewrite ?Hat; try done; eauto; lia. }
    destruct (s_timeout c <=? 0)%Z.
    + destruct (send_task t l) as [o|] eqn:Ho; simplify_eq; [|done]. by eapply Hsend.
    + destruct ch; try done.
      * destruct (s_ctx c); simplify_eq; done.
      * destruct (closing l); simplify_eq; done.
      * simplify_eq. done.
      * apply bind_Some in Hs as (o & Ho & [= Hs]). by eapply Hsend.
  - simplify_eq. split; unfold holding, selecting in *; rewrite ?Hat in *; cbn; try done; auto; lia.
  - done.
Qed.

Lemma SubmitTask_step_panic ch c l :
  SubmitTask_step ch c l = Some Panic → selecting c = 1 ∧ chan_closed (incoming l) = true.
Proof.
  intros Hs. unfold SubmitTask_step in Hs. unfold selecting.
  destruct (s_at c) eqn:Hat; try done.
  - by destruct (writer l).
  - by destruct (closed l); [|destruct (s_task c)].
  - apply bind_Some in Hs as (t & _ & Hs).
    assert (∀ o, send_task t l = Some o → (l <-- o ;;; Ret (sub_to (SubUnlock None) c, l))%go = Panic →
      chan_closed (incoming l) = true) as Hsend.
    { intros o Ho Hr'. by destruct (send_task_spec _ _ _ Ho) as [[-> ?]|(c2 & Hc2 & Hcl & ->)]. }
    split; [done|]. destruct (s_timeout c <=? 0)%Z.
    + destruct (send_task t l) as [o|] eqn:Ho; simplify_eq. by eapply Hsend.
    + destruct ch; try done.
      * by destruct (s_ctx c).
      * by destruct (closing l).
      * apply bind_Some in Hs as (o & Ho & [= Hs]). by eapply Hsend.
Qed.

(** ** A submission moves *)

Lemma selecting_holding c : selecting c ≤ holding c.
Proof. unfold selecting, holding. by case_match; lia. Qed.

Lemma close_inv_submit l l' c c' x :
  submit_effect c c' l l' → holding c ≤ readers l → close_inv l x → close_inv l' x.
Proof.
  intros [Hr _ Hlock Hch _ (Hcg & _ & Hw & Hcl & _)] Hle. unfold close_inv. rewrite Hch, Hcg, Hw, Hcl.
  assert (writer l = WriterHolds → readers l = 0 → readers l' = 0) as H0.
  { intros Hwh H0. destruct (decide (holding c < holding c')) as [Hlt|]; [|lia].
    rewrite (Hlock Hlt) in Hwh. done. }
  destruct (x_at x); try done; intros (? & ? & ? & ?); split_and!; auto.
Qed.

(** The call is replaced among the calls of the lobby. *)
Lemma lock_inv_submit l l1 l2 c c' :
  lock_inv l → submit_effect c c' l l1 → holding c ≤ readers l →
  (∀ f, in_lobby f l2 + f c = in_lobby f l + f c') →
  readers l2 = readers l1 → incoming l2 = incoming l1 → closing l2 = closing l1 → onceClose l2 = onceClose l1 →
  writer l2 = writer l1 → closed l2 = closed l1 → closes l2 = closes l1 →
  lock_inv l2.
Proof.
  intros [Hr Hsel Hon Hca] He Hle Hsum Hr2 Hi2 Hcg2 Hon2 Hw2 Hcl2 Hcs2.
  pose proof He as [Her Hes _ Hec _ (Hcg & Ho & Hw & Hcl & _ & Hcs & _)].
  split.
  - specialize (Hsum holding). lia.
  - rewrite Hi2, Hec. intros Hclosed. specialize (Hsel Hclosed). specialize (Hsum selecting).
    destruct Hes as [?|Hopen]; [lia|]. unfold once_inv in Hon. destruct (onceClose l); try (destruct_and!; congruence).
  - unfold once_inv in *. rewrite Hon2, Ho, Hcs2, Hcs, Hcl2, Hcl, Hcg2, Hcg, Hw2, Hw, Hi2, Hec. done.
  - rewrite Hcs2, Hcs. intros i x Hx. specialize (Hca i x Hx).
    apply (close_inv_submit _ _ _ _ _ He Hle) in Hca.
    unfold close_inv in *. rewrite Hi2, Hcg2, Hw2, Hcl2, Hr2. done.
Qed.

Lemma holding_in_submits l i c : lock_inv l → submits l !! i = Some c → holding c ≤ readers l.
Proof.
  intros [-> _ _ _] Hi. unfold in_lobby. pose proof (sum_list_with_elem holding _ _ _ Hi). lia.
Qed.

Lemma holding_in_pushes l i p c :
  lock_inv l → pushes l !! i = Some p → p_at p = PushSubmit c → holding c ≤ readers l.
Proof.
  intros [-> _ _ _] Hi Hp. unfold in_lobby. pose proof (sum_list_with_elem (inner holding) _ _ _ Hi) as H.
  unfold inner in H at 1. rewrite Hp in H. lia.
Qed.

Lemma move_submit_lock l i ch c c' l' :
  lock_inv l → submits l !! i = Some c → SubmitTask_step ch c l = Some (Ret (c', l')) →
  lock_inv (set_submits (<[i := c']> (submits l')) l').
Proof.
  intros Hinv Hi Hs. pose proof (holding_in_submits _ _ _ Hinv Hi) as Hle.
  pose proof (SubmitTask_step_effect _ _ _ _ _ Hle Hs) as He.
  eapply (lock_inv_submit l l'); try done. intros f.
  destruct He as [_ _ _ _ _ (_ & _ & _ & _ & _ & _ & Hsu & Hpu & _)]. unfold in_lobby. cbn. rewrite Hsu, Hpu.
  pose proof (sum_list_with_insert f _ _ _ c' Hi). lia.
Qed.

(** A push that neither starts nor ends a hold on the lock. *)
Lemma lock_inv_frame l l' :
  readers l' = readers l → chan_closed (incoming l') = chan_closed (incoming l) → closing l' = closing l →
  onceClose l' = onceClose l → writer l' = writer l → closed l' = closed l → closes l' = closes l →
  in_lobby holding l' = in_lobby holding l → in_lobby selecting l' = in_lobby selecting l →
  lock_inv l → lock_inv l'.
Proof.
  intros Hr Hc Hcg Ho Hw Hcl Hcs Hh Hsl [? ? Hon Hca]. split.
  - congruence.
  - by rewrite Hc, Hsl.
  - unfold once_inv in *. by rewrite Ho, Hcs, Hcg, Hc, Hw, Hcl.
  - rewrite Hcs. intros i x Hx. specialize (Hca i x Hx). unfold close_inv in *. by rewrite Hc, Hcg, Hw, Hcl, Hr.
Qed.

Lemma push_insert_lock l l1 i p p' :
  lock_inv l → pushes l !! i = Some p → pushes l1 = pushes l → submits l1 = submits l →
  readers l1 = readers l → chan_closed (incoming l1) = chan_closed (incoming l) → closing l1 = closing l →
  onceClose l1 = onceClose l → writer l1 = writer l → closed l1 = closed l → closes l1 = closes l →
  inner holding p' = inner holding p → inner selecting p' = inner selecting p →
  lock_inv (set_pushes (<[i := p']> (pushes l1)) l1).
Proof.
  intros Hinv Hi Hp Hs Hr Hc Hcg Ho Hw Hcl Hcs Hh Hsl.
  apply (lock_inv_frame l); try done; unfold in_lobby; cbn; rewrite Hp, Hs;
    [pose proof (sum_list_with_insert (inner holding) _ _ _ p' Hi)|pose proof (sum_list_with_insert (inner selecting) _ _ _ p' Hi)]; lia.
Qed.

Lemma move_push_lock l i ch p p' l' :
  lock_inv l → pushes l !! i = Some p → PushTasks_step ch p l = Some (Ret (p', l')) →
  lock_inv (set_pushes (<[i := p']> (pushes l')) l').
Proof.
  intros Hinv Hi Hs. unfold PushTasks_step in Hs. apply bind_Some in Hs as (r & Hr & Hs).
  assert (∀ l1 ph, pushes l1 = pushes l → submits l1 = submits l →
    readers l1 = readers l → incoming l1 = incoming l → closing l1 = closing l →
    onceClose l1 = onceClose l → writer l1 = writer l → closed l1 = closed l → closes l1 = closes l →
    inner holding (push_to ph p) = 0 → inner selecting (push_to ph p) = 0 → inner holding p = 0 →
    lock_inv (set_pushes (<[i := push_to ph p]> (pushes l1)) l1)) as Hq.
  { intros l1 ph ? ? ? Hin ? ? ? ? ? H1 H2 H3. eapply push_insert_lock; try done; [by rewrite Hin|congruence|].
    rewrite H2. unfold inner in *. destruct (p_at p); try done. pose proof (selecting_holding c). lia. }
  destruct (p_at p) as [| | |c|e] eqn:Hat.
  - destruct ch; try done; [destruct (p_ctx p)|destruct (doneCh r.2)]; simplify_eq; by apply Hq; unfold inner; cbn; rewrite ?Hat.
  - simplify_eq. apply Hq; unfold inner; cbn; rewrite ?Hat; try done; by destruct (err r.2).
  - destruct (chan_recv (genChan r.2)); simplify_eq.
    + apply bind_Some in Hs as (w & _ & Hs). simplify_eq. apply Hq; unfold inner; cbn; rewrite ?Hat; done.
    + apply Hq; unfold inner; cbn; rewrite ?Hat; done.
  - assert ((∀ e, s_at c ≠ SubReturned e) → ∃ o, SubmitTask_step ch c l = Some o ∧
      (r <-- o ;;; Ret (push_to (PushSubmit r.1) p, r.2))%go = Ret (p', l')) as Hstep.
    { intros Hne. destruct (s_at c) as [| | | |[e|]] eqn:Hc; try (apply bind_Some in Hs as (o & ? & [= ?]); eauto);
        by destruct (Hne _ eq_refl). }
    destruct (s_at c) as [| | | |[e|]] eqn:Hc.
    5, 6: simplify_eq; apply Hq; unfold inner, holding, selecting; cbn; rewrite ?Hat, ?Hc; done.
    all: destruct Hstep as (o & Ho & Hg); [done|]; apply obind_Ret in Hg as ([c2 l2] & -> & [= <- <-]);
      cbn [fst snd].
    all: pose proof (holding_in_pushes _ _ _ _ Hinv Hi Hat) as Hle;
      pose proof (SubmitTask_step_effect _ _ _ _ _ Hle Ho) as He;
      (eapply (lock_inv_submit l l2); try done); intros f;
      destruct He as [_ _ _ _ _ (_ & _ & _ & _ & _ & _ & Hsu & Hpu & _)]; unfold in_lobby; cbn; rewrite Hsu, Hpu;
      pose proof (sum_list_with_insert (inner f) _ _ _ (push_to (PushSubmit c2) p) Hi) as H;
      unfold inner in H at 2 4; cbn in H; rewrite Hat in H; lia.
  - done.
Qed.

(** ** A close moves *)

(** A close call outside the once only relies on the flag. *)
Lemma close_inv_idle l l' x :
  running x = 0 → (closed l = true → closed l' = true) → close_inv l x → close_inv l' x.
Proof. unfold running, close_inv. destruct (x_at x); try done. Qed.

(** At most one close is inside the once. *)
Lemma others_idle l i j c x :
  once_inv l → closes l !! i = Some c → closes l !! j = Some x → j ≠ i →
  running c = 1 ∨ onceClose l ≠ OnceRunning → running x = 0.
Proof.
  intros Hon Hi Hj Hne Hc. unfold once_inv in Hon.
  pose proof (sum_list_with_two running _ _ _ _ _ Hj Hi Hne) as H2.
  destruct (onceClose l); destruct Hon as [H0 _]; try lia. destruct Hc as [?|?]; [lia|done].
Qed.

Lemma lock_inv_close l l1 i c c' :
  lock_inv l → closes l !! i = Some c → closes l1 = closes l → submits l1 = submits l → pushes l1 = pushes l →
  readers l1 = readers l →
  (chan_closed (incoming l1) = true → chan_closed (incoming l) = true ∨ readers l = 0) →
  (closed l = true → closed l1 = true) →
  (∀ j x, closes l !! j = Some x → j ≠ i → close_inv l x → close_inv l1 x) →
  close_inv l1 c' →
  once_inv (set_closes (<[i := c']> (closes l1)) l1) →
  lock_inv (set_closes (<[i := c']> (closes l1)) l1).
Proof.
  intros [Hr Hsel Hon Hca] Hi Hcs Hsu Hpu Hr1 Hch Hcl Hothers Hc' Hon'. split; [| |done|]; cbn.
  - unfold in_lobby in *. cbn. by rewrite Hr1, Hsu, Hpu.
  - unfold in_lobby in *. cbn. rewrite Hsu, Hpu. intros Hclosed. destruct (Hch Hclosed) as [?|H0]; [by apply Hsel|].
    rewrite Hr in H0. pose proof (sum_list_with_le selecting holding (submits l) selecting_holding).
    assert (∀ p, inner selecting p ≤ inner holding p) as Hle
      by (intros p; unfold inner; destruct (p_at p); auto using selecting_holding).
    pose proof (sum_list_with_le (inner selecting) (inner holding) (pushes l) Hle). lia.
  - rewrite Hcs. intros j x Hx. destruct (decide (j = i)) as [->|Hne].
    + rewrite list_lookup_insert_eq in Hx by (by eapply lookup_lt_Some). by simplify_eq.
    + rewrite list_lookup_insert_ne in Hx by done. by eapply Hothers, Hca.
Qed.

(** A step of the close inside the once. *)
Lemma lock_inv_running l l1 i c c' :
  lock_inv l → closes l !! i = Some c → running c = 1 → running c' = 1 →
  closes l1 = closes l → submits l1 = submits l → pushes l1 = pushes l → readers l1 = readers l →
  onceClose l1 = onceClose l → closed l1 = closed l →
  (chan_closed (incoming l1) = true → chan_closed (incoming l) = true ∨ readers l = 0) →
  close_inv l1 c' →
  lock_inv (set_closes (<[i := c']> (closes l1)) l1).
Proof.
  intros Hinv Hi Hc Hc' Hcs Hsu Hpu Hr Ho Hcl Hch Hci. pose proof Hinv as [_ _ Hon _].
  pose proof (sum_list_with_elem running _ _ _ Hi) as Hge.
  apply (lock_inv_close l l1 i c c'); try done; [by rewrite Hcl|..].
  - intros j x Hj Hne. apply close_inv_idle; [|by rewrite Hcl]. by eapply (others_idle l i j c x); [..|left].
  - unfold once_inv in *. cbn. rewrite Ho, Hcs. destruct (onceClose l); try lia.
    pose proof (sum_list_with_insert running _ _ _ c' Hi). rewrite Hcl. split; [lia|tauto].
Qed.

Lemma move_close_lock l i c c' l' :
  lock_inv l → closes l !! i = Some c → CloseContext_step c l = Some (Ret (c', l')) →
  lock_inv (set_closes (<[i := c']> (closes l')) l').
Proof.
  intros Hinv Hi Hs. pose proof Hinv as [_ _ Hon Hca]. specialize (Hca _ _ Hi) as Hci.
  pose proof (λ ph, sum_list_with_insert running _ _ _ (close_to ph c) Hi) as Hsum.
  unfold CloseContext_step in Hs. unfold close_inv in Hci.
  assert (running c = match x_at c with CloseLoad | CloseStore | CloseOnce | CloseReturned _ => 0 | _ => 1 end) as Hrc by done.
  destruct (x_at c) eqn:Hat; rewrite ?Hrc in Hsum.
  - simplify_eq. assert (running (close_to (if closed l' then CloseReturned (Some ErrLobbyClosed) else CloseStore) c) = running c)
      as Hrun by (rewrite Hrc; by destruct (closed l')).
    apply (lock_inv_close l' l' i c); try done; try tauto; try (unfold close_inv; cbn; tauto).
    + unfold close_inv. cbn. by destruct (closed l').
    + unfold once_inv in *. cbn. specialize (Hsum (if closed l' then CloseReturned (Some ErrLobbyClosed) else CloseStore)).
      by replace (sum_list_with running (<[i:=_]> (closes l'))) with (sum_list_with running (closes l')) by lia.
  - simplify_eq. apply (lock_inv_close l _ i c); try done; try tauto; try (unfold close_inv; cbn; tauto).
    + intros j x Hj Hne. unfold close_inv. cbn. by destruct (x_at x).
    + unfold once_inv in *. cbn. specialize (Hsum CloseOnce). change (running (close_to CloseOnce c)) with 0 in Hsum.
      destruct (onceClose l); destruct_and!; split_and!; try done; lia.
  - destruct (onceClose l) eqn:Ho; try done; simplify_eq.
    + unfold once_inv in Hon. rewrite Ho in Hon. destruct Hon as (H0 & ? & ? & ?).
      apply (lock_inv_close l _ i c); try done; try tauto; try (unfold close_inv; cbn; tauto).
      unfold once_inv. cbn. specialize (Hsum CloseClosing). change (running (close_to CloseClosing c)) with 1 in Hsum.
        split; [lia|done].
    + apply (lock_inv_close l' l' i c); try done; try tauto; try (unfold close_inv; cbn; tauto).
      unfold once_inv in *. cbn. specialize (Hsum (CloseReturned None)). change (running (close_to (CloseReturned None) c)) with 0 in Hsum.
      rewrite Ho in *. destruct_and!; split_and!; try done; lia.
  - destruct (closing l); simplify_eq. eapply (lock_inv_running _ _ i c); try done; unfold running; rewrite ?Hat; try done; try tauto; try (unfold close_inv; cbn; tauto).
  - destruct (writer l); simplify_eq. eapply (lock_inv_running _ _ i c); try done; unfold running; rewrite ?Hat; try done; try tauto; try (unfold close_inv; cbn; tauto).
  - destruct (readers l) eqn:Hr0; simplify_eq. eapply (lock_inv_running _ _ i c); try done; unfold running; rewrite ?Hat; try done; try tauto; try (unfold close_inv; cbn; tauto).
  - destruct (incoming_yielder _ _ _); simplify_eq; eapply (lock_inv_running _ _ i c); try done; unfold running; rewrite ?Hat; try done; try tauto; try (unfold close_inv; cbn; tauto).
  - simplify_eq. eapply (lock_inv_running _ _ i c); try done; unfold running; rewrite ?Hat; try done; try tauto; try (unfold close_inv; cbn; tauto).
  - apply (inj Some), obind_Ret in Hs as (ch & Hch & Hs). simplify_eq.
    unfold close_chan in Hch. destruct Hci as (? & Hop & ? & ?). rewrite Hop in Hch. simplify_eq.
    eapply (lock_inv_running _ _ i c); try done; unfold running; rewrite ?Hat; try done; try tauto; try (unfold close_inv; cbn; tauto).
  - simplify_eq. eapply (lock_inv_running _ _ i c); try done; unfold running; rewrite ?Hat; try done; try tauto; try (unfold close_inv; cbn; tauto).
  - simplify_eq. apply (lock_inv_close l _ i c); try done; try tauto; try (unfold close_inv; cbn; tauto).
    unfold once_inv in *. cbn. specialize (Hsum (CloseReturned e)). change (running (close_to (CloseReturned e) c)) with 0 in Hsum.
      destruct (onceClose l); destruct_and!; split_and!; try done; lia.
  - done.
Qed.

(** ** The data *)

(** What the yielders that read [incoming] took from it. *)
Definition fed_taken (r : bool * yielder Task) : list Task := if r.1 then taken r.2 else [].

Record data_inv (l : lobby) : Prop := {
  di_wf : chan_wf (incoming l);
  di_fifo : accepted l = outs l ++ chan_buf (incoming l);
  di_outs : outs l ≡ₚ retrieved l ++ (ylds l ≫= fed_taken);
  di_ylds : ∀ k r, ylds l !! k = Some r → yielder_inv r.2 ∧ (r.1 = true → gen r.2 = GenInput);
}.

Lemma data_inv_frame l l' :
  chan_buf (incoming l') = chan_buf (incoming l) → chan_cap (incoming l') = chan_cap (incoming l) →
  accepted l' = accepted l → outs l' = outs l →
  retrieved l' = retrieved l → ylds l' = ylds l → data_inv l → data_inv l'.
Proof.
  intros Hb Hc Ha Ho Hr Hy [Hwf ? ? ?]. split; unfold chan_wf in *; rewrite ?Hb, ?Hc, ?Ha, ?Ho, ?Hr, ?Hy; done.
Qed.

Lemma data_inv_submit l l' c c' : submit_effect c c' l l' → data_inv l → data_inv l'.
Proof.
  intros [_ _ _ _ Hd (_ & _ & _ & _ & Hy & _ & _ & _ & Hr & Ho)] Hinv.
  destruct Hd as [[Ha Hi]|(t & Hsend & Ha & _)].
  - apply (data_inv_frame l); try done; by rewrite Hi.
  - destruct Hinv as [Hwf Hf Hp Hys]. pose proof (chan_send_wf _ _ _ Hwf Hsend).
    split; rewrite ?Ho, ?Hr, ?Hy; try done. rewrite Ha, Hf. unfold chan_send in Hsend.
    destruct (chan_closed (incoming l)); [done|]. destruct (_ <? _); [|done].
    injection Hsend as <-. by rewrite <- app_assoc.
Qed.

(** A yielder of the table moves without taking anything. *)
Lemma data_inv_ylds l k r y' l' :
  ylds l !! k = Some r → yielder_inv y' → gen y' = gen r.2 → taken y' = taken r.2 →
  ylds l' = <[k := (r.1, y')]> (ylds l) → incoming l' = incoming l → accepted l' = accepted l →
  outs l' = outs l → retrieved l' = retrieved l → data_inv l → data_inv l'.
Proof.
  intros Hk Hy Hg Ht Hys Hi Ha Ho Hr [? ? Hp Hyi]. split; rewrite ?Hi, ?Ha, ?Ho, ?Hr, ?Hys; try done.
  - rewrite (bind_insert_Permutation fed_taken _ _ r _ []); [by rewrite app_nil_r|done|].
    unfold fed_taken. cbn. by rewrite Ht, app_nil_r.
  - intros j r' Hj. destruct (decide (j = k)) as [->|Hne].
    + rewrite list_lookup_insert_eq in Hj by (by eapply lookup_lt_Some). simplify_eq. split; [done|].
      cbn. rewrite Hg. by apply (Hyi k).
    + rewrite list_lookup_insert_ne in Hj by done. by apply (Hyi j).
Qed.

Lemma data_inv_new l b y :
  yielder_inv y → taken y = [] → (b = true → gen y = GenInput) →
  data_inv l → data_inv (set_ylds (ylds l ++ [(b, y)]) l).
Proof.
  intros Hy Ht Hg [? ? Hp Hyi]. split; try done; cbn.
  - rewrite bind_app. cbn. unfold fed_taken at 2. cbn. rewrite Ht. by destruct b; rewrite !app_nil_r.
  - intros k r [Hk|[_ Hk]]%lookup_app_Some; [by apply (Hyi k)|].
    by apply list_lookup_singleton_Some in Hk as [_ <-].
Qed.

(** ** The yielders of the table *)

Lemma incoming_yielder_spec x b t y :
  incoming_yielder x b t = inr y → yielder_inv y ∧ gen y = GenInput ∧ taken y = [].
Proof.
  intros Hy. pose proof Hy as Hn. apply yielder_New_inv in Hn. pose proof (New_fresh _ _ _ Hy).
  split_and!; try done. unfold incoming_yielder, New, newYielder in Hy. destruct x; [done|]. cbn in Hy.
  by case_match; simplify_eq.
Qed.

(** ** All the moves *)

Definition lobby_inv (l : lobby) : Prop := lock_inv l ∧ data_inv l.

Lemma PushTasks_step_data ch p l r :
  (∀ c, p_at p = PushSubmit c → holding c ≤ readers l) →
  data_inv l → PushTasks_step ch p l = Some (Ret r) → data_inv r.2.
Proof.
  intros Hle Hd Hs. unfold PushTasks_step in Hs. apply bind_Some in Hs as ([b y] & Hk & Hs).
  destruct (p_at p) as [| | |c|e] eqn:Hat.
  - destruct ch; try done; [destruct (p_ctx p)|destruct (doneCh _)]; by simplify_eq.
  - by simplify_eq.
  - destruct (chan_recv (genChan _)) eqn:Hc; simplify_eq; [|done].
    apply bind_Some in Hs as ([v2 y'] & Hr & Hs). simplify_eq.
    pose proof (di_ylds _ Hd _ _ Hk) as [Hy _]. pose proof (recv_step_inv _ _ Hy Hr) as Hy'.
    unfold recv_step in Hr. cbn in Hc, Hr. rewrite Hc in Hr. injection Hr as <- <-. by eapply data_inv_ylds.
  - destruct (s_at c) as [| | | |[e|]] eqn:Hc; [..|by simplify_eq|by simplify_eq].
    all: apply bind_Some in Hs as (o & Ho & [= Hg]); apply obind_Ret in Hg as ([c2 l2] & -> & [= <-]);
      eapply data_inv_submit; [by eapply SubmitTask_step_effect; [by apply Hle|]|done].
  - done.
Qed.

Lemma CloseContext_step_data c l r :
  data_inv l → CloseContext_step c l = Some (Ret r) → data_inv r.2.
Proof.
  intros Hd Hs. unfold CloseContext_step in Hs.
  destruct (x_at c) eqn:Hat; try done;
    repeat match type of Hs with
    | match incoming_yielder _ _ _ with _ => _ end = Some _ => destruct (incoming_yielder _ _ _) eqn:Hn
    | Some (obind _ _) = _ => apply (inj Some), obind_Ret in Hs as (ch & Hch & Hs)
    | match ?x with _ => _ end = Some _ => destruct x
    end; simplify_eq; try done; try by apply (data_inv_frame l).
  - apply incoming_yielder_spec in Hn as (? & ? & ?). by apply data_inv_new.
  - unfold close_chan in Hch. destruct (chan_closed _); simplify_eq. by apply (data_inv_frame l).
Qed.

(** A yielder takes at most the first task of the buffer. *)
Lemma yielder_move_data k m ext l l' :
  data_inv l → yielder_move k m ext l = Some (Ret l') →
  data_inv l' ∧ chan_closed (incoming l') = chan_closed (incoming l).
Proof.
  intros Hd Hs. unfold yielder_move in Hs. apply bind_Some in Hs as ([b y] & Hk & Hs).
  apply bind_Some in Hs as (o & Ho & [= Hg]). apply obind_Ret in Hg as ([ch y'] & -> & [= <-]).
  pose proof (di_ylds _ Hd _ _ Hk) as [Hy Hgen]. pose proof (yact_inv _ _ _ _ Hy Ho) as Hy'.
  apply yact_input in Ho as [Hg Hin]. cbn in *.
  destruct b; [|].
  - destruct Hin as [[-> Ht]|(v & _ & Hr & Ht)]; rewrite Ht.
    + split; [|done]. rewrite skipn_all. eapply (data_inv_ylds l); try done. cbn. by rewrite app_nil_r.
    + destruct Hd as [Hwf Hf Hp Hyi].
      rewrite drop_app_length. pose proof (chan_recv_wf _ _ _ Hwf Hr). unfold chan_recv in Hr.
      destruct (chan_buf (incoming l)) as [|v' rest] eqn:Hb; [by destruct (chan_closed _)|]. simplify_eq.
      split; [|done]. split; cbn; try done.
      * by rewrite Hf, <- app_assoc.
      * rewrite (bind_insert_Permutation fed_taken _ _ (true, y) _ [v]); [|done|by unfold fed_taken; cbn; rewrite Ht].
        by rewrite Hp, app_assoc.
      * intros j r' Hj. destruct (decide (j = k)) as [->|Hne].
        -- rewrite list_lookup_insert_eq in Hj by (by eapply lookup_lt_Some). simplify_eq. cbn. rewrite Hg. auto.
        -- rewrite list_lookup_insert_ne in Hj by done. by apply (Hyi j).
  - split; [|done]. destruct Hd as [Hwf Hf Hp Hyi]. split; cbn; try done.
    + rewrite (bind_insert_Permutation fed_taken _ _ (false, y) _ []); [by rewrite app_nil_r|done|done].
    + intros j r' Hj. destruct (decide (j = k)) as [->|Hne].
      * rewrite list_lookup_insert_eq in Hj by (by eapply lookup_lt_Some). by simplify_eq.
      * rewrite list_lookup_insert_ne in Hj by done. by apply (Hyi j).
Qed.

Lemma recv_task_data l r : data_inv l → recv_task l = Some r →
  data_inv r.2 ∧ chan_closed (incoming r.2) = chan_closed (incoming l).
Proof.
  intros [Hwf Hf Hp Hy] Hr. unfold recv_task in Hr.
  destruct (chan_recv (incoming l)) eqn:Hc; simplify_eq; [|done]. cbn.
  pose proof (chan_recv_wf _ _ _ Hwf Hc). unfold chan_recv in Hc.
  destruct (chan_buf (incoming l)) as [|v' rest] eqn:Hb; [by destruct (chan_closed _)|]. simplify_eq.
  split; [|done]. split; cbn; try done.
  - by rewrite Hf, <- app_assoc.
  - rewrite Hp, <- !app_assoc. apply Permutation_app_head, Permutation_app_comm.
Qed.

Lemma data_inv_set_submits x l : data_inv l → data_inv (set_submits x l).
Proof. by apply data_inv_frame. Qed.
Lemma data_inv_set_pushes x l : data_inv l → data_inv (set_pushes x l).
Proof. by apply data_inv_frame. Qed.
Lemma data_inv_set_closes x l : data_inv l → data_inv (set_closes x l).
Proof. by apply data_inv_frame. Qed.
Hint Resolve data_inv_set_submits data_inv_set_pushes data_inv_set_closes : golib.

(** A new call of the lobby is outside its lock. *)
Lemma lock_inv_call_submit c l :
  holding c = 0 → lock_inv l → lock_inv (set_submits (submits l ++ [c]) l).
Proof.
  intros Hc. apply lock_inv_frame; try done; unfold in_lobby; cbn;
    rewrite sum_list_with_app; cbn; pose proof (selecting_holding c); lia.
Qed.

Lemma lock_inv_call_push p l :
  inner holding p = 0 → inner selecting p = 0 → lock_inv l → lock_inv (set_pushes (pushes l ++ [p]) l).
Proof. intros H1 H2. apply lock_inv_frame; try done; unfold in_lobby; cbn; rewrite sum_list_with_app; cbn; lia. Qed.

Lemma lock_inv_call_close x l : lock_inv l → lock_inv (set_closes (closes l ++ [MkClose x CloseLoad]) l).
Proof.
  intros [? ? Hon Hca]. split; try done; cbn.
  - unfold once_inv in *. cbn. rewrite sum_list_with_app. cbn. by rewrite !Nat.add_0_r.
  - intros i c [Hi|[_ Hi]]%lookup_app_Some; [by apply (Hca i)|].
    by apply list_lookup_singleton_Some in Hi as [_ <-].
Qed.

Lemma lact_inv m l l' : lobby_inv l → lact m l = Some (Ret l') → lobby_inv l'.
Proof.
  intros [Hl Hd] Hs. destruct m; cbn [lact] in Hs.
  - simplify_eq. split; [by apply lock_inv_call_submit|auto with golib].
  - apply bind_Some in Hs as (c & Hi & Hs). apply bind_Some in Hs as (o & Ho & [= Hg]).
    apply obind_Ret in Hg as ([c' l1] & -> & [= <-]). cbn [fst snd].
    pose proof (holding_in_submits _ _ _ Hl Hi) as Hle. split; [by eapply move_submit_lock|].
    apply data_inv_set_submits. eapply data_inv_submit; [by eapply SubmitTask_step_effect|done].
  - simplify_eq. split; [|auto with golib].
    apply (lock_inv_frame l); try done; unfold in_lobby; cbn; by rewrite sum_list_with_alter_same.
  - simplify_eq. split; [by apply lock_inv_call_push|auto with golib].
  - apply bind_Some in Hs as (p & Hi & Hs). apply bind_Some in Hs as (o & Ho & [= Hg]).
    apply obind_Ret in Hg as ([p' l1] & -> & [= <-]). cbn [fst snd].
    split; [by eapply move_push_lock|]. apply data_inv_set_pushes.
    apply (PushTasks_step_data _ _ _ _ (λ c, holding_in_pushes _ _ _ c Hl Hi) Hd Ho).
  - simplify_eq. split; [|auto with golib].
    apply (lock_inv_frame l); try done; unfold in_lobby; cbn; rewrite !sum_list_with_alter_same; try done;
      intros p; unfold inner, end_push; cbn; by destruct (p_at p).
  - apply bind_Some in Hs as (r & Hr & [= <-]). unfold RetrieveTask in Hr.
    assert (r.2 = l ∨ recv_task l = Some r) as [->|Hrt]; [|done|].
    { destruct (timeout <=? 0)%Z; [destruct (recv_task l)|destruct ch, x]; simplify_eq; auto. }
    destruct (recv_task_data _ _ Hd Hrt) as [Hd' Hc]. split; [|done].
    unfold recv_task in Hrt. destruct (chan_recv (incoming l)); simplify_eq; [|done].
    by apply (lock_inv_frame l).
  - simplify_eq. unfold FetchTasks. destruct (incoming_yielder _ _ _) as [e|y] eqn:Hn; [done|]. cbn.
    apply incoming_yielder_spec in Hn as (? & ? & ?). split; [by apply (lock_inv_frame l)|by apply data_inv_new].
  - simplify_eq. split; [by apply lock_inv_call_close|auto with golib].
  - apply bind_Some in Hs as (c & Hi & Hs). apply bind_Some in Hs as (o & Ho & [= Hg]).
    apply obind_Ret in Hg as ([c' l1] & -> & [= <-]). cbn [fst snd].
    split; [by eapply move_close_lock|]. apply data_inv_set_closes.
    apply (CloseContext_step_data _ _ _ Hd Ho).
  - destruct (Yielder.New c opts) as [e|y] eqn:Hn; [done|]. simplify_eq.
    split; [by apply (lock_inv_frame l)|].
    apply data_inv_new; try done; [by apply yielder_New_inv in Hn|by apply New_fresh in Hn].
  - destruct (yielder_move_data _ _ _ _ _ Hd Hs) as [Hd' Hc]. split; [|done].
    unfold yielder_move in Hs. apply bind_Some in Hs as ([b y] & Hk & Hs).
    apply bind_Some in Hs as (o & Ho & [= Hg]). apply obind_Ret in Hg as ([c y'] & -> & [= <-]).
    by destruct b; apply (lock_inv_frame l).
Qed.

Lemma lact_no_panic m l : lobby_inv l → lact m l ≠ Some Panic.
Proof.
  intros [Hl Hd] Hs.
  assert (∀ c, selecting c = 1 → selecting c ≤ in_lobby selecting l → chan_closed (incoming l) = true → False) as Hsel.
  { intros c H1 Hle Hc. pose proof (li_select _ Hl Hc). lia. }
  destruct m; cbn [lact] in Hs; try done.
  - apply bind_Some in Hs as (c & Hi & Hs). apply bind_Some in Hs as (o & Ho & [= Hg]).
    destruct o as [[c' l1]|]; [done|]. apply SubmitTask_step_panic in Ho as [H1 Hc].
    apply (Hsel c H1); [|done]. unfold in_lobby. pose proof (sum_list_with_elem selecting _ _ _ Hi). lia.
  - apply bind_Some in Hs as (p & Hi & Hs). apply bind_Some in Hs as (o & Ho & [= Hg]).
    destruct o as [[c' l1]|]; [done|]. unfold PushTasks_step in Ho. apply bind_Some in Ho as (r & Hr & Ho).
    destruct (p_at p) as [| | |c|e] eqn:Hat; try done.
    + by destruct ch; [destruct (p_ctx p)|..|destruct (doneCh _)].
    + destruct (chan_recv _); try done. by apply bind_Some in Ho as (w & _ & Ho).
    + destruct (s_at c) as [| | | |[e|]] eqn:Hc; try done;
        apply bind_Some in Ho as (o & Ho & [= Hg']); (destruct o as [[c' l1]|]; [done|]);
        apply SubmitTask_step_panic in Ho as [H1 Hcl]; apply (Hsel c H1); try done;
        unfold in_lobby; pose proof (sum_list_with_elem (inner selecting) _ _ _ Hi) as Hle;
        unfold inner in Hle at 1; rewrite Hat in Hle; lia.
  - by apply bind_Some in Hs as (r & Hr & Hs).
  - apply bind_Some in Hs as (c & Hi & Hs). apply bind_Some in Hs as (o & Ho & [= Hg]).
    destruct o as [[c' l1]|]; [done|]. pose proof (li_calls _ Hl _ _ Hi) as Hci.
    unfold close_inv in Hci. unfold CloseContext_step in Ho. destruct (x_at c) eqn:Hat; try done;
      repeat case_match; try done.
    + by destruct Hci as [? _]; congruence.
    + apply (inj Some) in Ho. unfold close_chan in Ho. destruct Hci as (_ & Hop & _). by rewrite Hop in Ho.
  - by destruct (Yielder.New c opts).
  - unfold yielder_move in Hs. apply bind_Some in Hs as ([b y] & Hk & Hs).
    apply bind_Some in Hs as (o & Ho & [= Hg]). destruct o as [[c y']|]; [done|].
    by eapply yact_no_panic; [eapply (di_ylds _ Hd)|].
Qed.

(** ** What only grows *)

(** The capacity is fixed; the closed lobby stays closed and takes nothing more. *)
Definition advances (l l' : lobby) : Prop :=
  chan_cap (incoming l') = chan_cap (incoming l) ∧
  (chan_closed (incoming l) = true → chan_closed (incoming l') = true ∧ accepted l' = accepted l).

#[local] Instance advances_preorder : PreOrder advances.
Proof.
  split; [by intros l; split|]. intros l1 l2 l3 [C1 H1] [C2 H2]. split; [congruence|].
  intros H. destruct (H1 H) as [H' A1]. destruct (H2 H') as [? ?]. split; [done|congruence].
Qed.

Lemma advances_same l l' : incoming l' = incoming l → accepted l' = accepted l → advances l l'.
Proof. unfold advances. intros -> ->. by split. Qed.

Lemma advances_submit ch c l r :
  holding c ≤ readers l → (chan_closed (incoming l) = true → selecting c = 0) →
  SubmitTask_step ch c l = Some (Ret r) → advances l r.2.
Proof.
  intros Hle Hsel Hs. destruct r as [c' l1].
  destruct (SubmitTask_step_effect _ _ _ _ _ Hle Hs) as [_ _ _ Hc [[Ha Hi]|(t & Hsend & Ha & H1)] _].
  - by apply advances_same.
  - split; cbn in *; [|intros Hcl; specialize (Hsel Hcl); lia].
    unfold chan_send in Hsend. destruct (chan_closed _); [done|]. destruct (_ <? _); [|done].
    by injection Hsend as <-.
Qed.

Lemma advances_recv l l' v :
  chan_recv (incoming l) = Received v (incoming l') → accepted l' = accepted l → advances l l'.
Proof. intros [Hc Hcl]%chan_recv_frame Ha. unfold advances. by rewrite Hc, Hcl, Ha. Qed.

Lemma PushTasks_step_advances ch p l r :
  (∀ c, p_at p = PushSubmit c → holding c ≤ readers l ∧ (chan_closed (incoming l) = true → selecting c = 0)) →
  PushTasks_step ch p l = Some (Ret r) → advances l r.2.
Proof.
  intros Hc Ho. unfold PushTasks_step in Ho. apply bind_Some in Ho as ([b y] & Hk & Ho).
  destruct (p_at p) as [| | |c|e] eqn:Hat; try done; try (by simplify_eq).
  - destruct ch; try done; [destruct (p_ctx p)|destruct (doneCh _)]; by simplify_eq.
  - destruct (chan_recv (genChan _)); simplify_eq; try done.
    apply bind_Some in Ho as (w & _ & Ho). by simplify_eq.
  - destruct (Hc c eq_refl) as [Hle Hsel].
    destruct (s_at c) as [| | | |[e|]] eqn:Hcat; [..|by simplify_eq|by simplify_eq].
    all: apply bind_Some in Ho as (o & Ho & [= Hg']); apply obind_Ret in Hg' as ([c2 l2] & -> & [= <-]);
      exact (advances_submit _ _ _ _ Hle Hsel Ho).
Qed.

Lemma CloseContext_step_advances c l r : CloseContext_step c l = Some (Ret r) → advances l r.2.
Proof.
  intros Ho. unfold CloseContext_step in Ho. destruct (x_at c); try done;
    repeat match type of Ho with
    | Some (obind _ _) = _ => apply (inj Some), obind_Ret in Ho as (ch & Hch & Ho)
    | match ?x with _ => _ end = Some _ => destruct x
    end; simplify_eq; try done; try (by apply advances_same).
  unfold close_chan in Hch. destruct (chan_closed (incoming l)) eqn:Hop; simplify_eq.
  split; cbn; [done|]. by rewrite Hop.
Qed.

Lemma lact_advances m l l' : lobby_inv l → lact m l = Some (Ret l') → advances l l'.
Proof.
  intros [Hl Hd] Hs.
  destruct m; cbn [lact] in Hs; try (simplify_eq; by apply advances_same).
  - apply bind_Some in Hs as (c & Hi & Hs). apply bind_Some in Hs as (o & Ho & [= Hg]).
    apply obind_Ret in Hg as (r & -> & [= <-]).
    apply (advances_submit _ _ _ _ (holding_in_submits _ _ _ Hl Hi)) in Ho as [? ?]; [done|].
    intros Hc. pose proof (li_select _ Hl Hc) as H0. unfold in_lobby in H0.
    pose proof (sum_list_with_elem selecting _ _ _ Hi). lia.
  - apply bind_Some in Hs as (p & Hi & Hs). apply bind_Some in Hs as (o & Ho & [= Hg]).
    apply obind_Ret in Hg as (r & -> & [= <-]).
    apply PushTasks_step_advances in Ho as [? ?]; [done|]. intros c Hat.
    split; [by eapply holding_in_pushes|]. intros Hc. pose proof (li_select _ Hl Hc) as H0. unfold in_lobby in H0.
    pose proof (sum_list_with_elem (inner selecting) _ _ _ Hi) as Hle. unfold inner in Hle at 1.
    rewrite Hat in Hle. lia.
  - apply bind_Some in Hs as (r & Hr & [= <-]). unfold RetrieveTask in Hr.
    assert (r.2 = l ∨ recv_task l = Some r) as [->|Hrt]; [|done|].
    { destruct (timeout <=? 0)%Z; [destruct (recv_task l)|destruct ch, x]; simplify_eq; auto. }
    unfold recv_task in Hrt. destruct (chan_recv (incoming l)) eqn:Hc; simplify_eq; [|done].
    by eapply advances_recv.
  - simplify_eq. unfold FetchTasks. by destruct (incoming_yielder _ _ _).
  - apply bind_Some in Hs as (c & Hi & Hs). apply bind_Some in Hs as (o & Ho & [= Hg]).
    apply obind_Ret in Hg as (r & -> & [= <-]). by apply CloseContext_step_advances in Ho.
  - destruct (Yielder.New c opts) as [e|y] eqn:Hn; [done|]. by simplify_eq.
  - unfold yielder_move in Hs. apply bind_Some in Hs as ([b y] & Hk & Hs).
    apply bind_Some in Hs as (o & Ho & [= Hg]). apply obind_Ret in Hg as ([c y'] & -> & [= <-]).
    apply yact_input in Ho as [_ Hin]. cbn [fst snd] in Hin. destruct b; [|done].
    destruct Hin as [[-> _]|(v & _ & Hr & _)]; [by apply advances_same|].
    by eapply advances_recv.
Qed.

(** ** The contract *)

Lemma NewLobby_inv n timeout : lobby_inv (NewLobby n timeout).
Proof.
  split; split; try done.
  unfold chan_wf. cbn. lia.
Qed.

Lemma lstep_inv l l' : lobby_inv l → lstep l l' → lobby_inv l'.
Proof. intros Hinv [m Hm]. by eapply lact_inv. Qed.

Lemma rtc_advances l l' : lobby_inv l → rtc lstep l l' → lobby_inv l' ∧ advances l l'.
Proof.
  intros Hinv Hrtc. apply (rtc_preserves lstep (λ l', lobby_inv l' ∧ advances l l')) with l; try done.
  intros l1 l2 [Hi1 Ha] Hs. pose proof (lstep_inv _ _ Hi1 Hs). destruct Hs as [m Hm]. split; [done|].
  etrans; [exact Ha|by eapply lact_advances].
Qed.

(** C16: from [NewLobby], under every interleaving of [SubmitTask], [PushTasks],
    [RetrieveTask], [FetchTasks] and [CloseContext] calls and the yielders over the
    lobby: no send meets the closed channel and nothing is closed twice; the tasks
    accepted leave in the order they entered, never more than the capacity waiting;
    each that left went to exactly one taker: a [RetrieveTask] or one yielder. Such a
    yielder holds each of its tasks in its results but at most one in hand, or lost,
    only once its context is done. After [incoming] closed, nothing is accepted. *)
Theorem lobby_contract n timeout l :
  rtc lstep (NewLobby n timeout) l →
  (∀ m, lact m l ≠ Some Panic) ∧
  accepted l = outs l ++ chan_buf (incoming l) ∧
  (Z.of_nat (length (chan_buf (incoming l))) ≤ if n <=? 0 then defaultLobbyBufferSize else n)%Z ∧
  outs l ≡ₚ retrieved l ++ (ylds l ≫= fed_taken) ∧
  (∀ k y, ylds l !! k = Some (true, y) →
     ∃ hand, taken y = (received y ++ chan_buf (genChan y)) ++ dropped y ++ hand ∧
       length (dropped y ++ hand) ≤ 1 ∧ (dropped y ≠ [] → ctx_done (yctx y) = true)) ∧
  (onceClose l = OnceDone → ∀ l', rtc lstep l l' → accepted l' = accepted l).
Proof.
  intros Hrtc. apply rtc_advances in Hrtc as [Hinv [Hcap _]]; [|apply NewLobby_inv].
  pose proof Hinv as [Hl Hd]. split_and!; try apply Hd.
  - intros m. by apply lact_no_panic.
  - pose proof (di_wf _ Hd) as Hwf. unfold chan_wf in Hwf. rewrite Hcap in Hwf. cbn in Hwf.
    unfold defaultLobbyBufferSize in *. destruct (n <=? 0)%Z eqn:Hn; boolify; lia.
  - intros k y Hk. destruct (di_ylds _ Hd _ _ Hk) as [Hy Hg]. cbn in *.
    rewrite <- (yi_fifo _ Hy). apply source_input; auto.
  - intros Ho l' Hr. apply (rtc_advances l l' Hinv) in Hr as [_ [_ Hf]]. apply Hf.
    pose proof (li_once _ Hl) as Hon. unfold once_inv in Hon. rewrite Ho in Hon. tauto.
Qed.

(** ** Runs *)

Lemma lexec_rtc ms l l' : lexec ms l = Some l' → rtc lstep l l'.
Proof.
  revert l. induction ms as [|m ms IH]; cbn; intros l H; [by simplify_eq|].
  destruct (lact m l) as [[l1|]|] eqn:Hm; try done. eapply rtc_l; [by exists m|by apply IH].
Qed.

Definition t1 : Task := MkTask 1 1 1 PriorityNormal.
Definition t2 : Task := MkTask 2 2 2 PriorityHigh.
Definition small : lobby := NewLobby 2 Second.

(** Two submissions, each from its lock to its return. *)
Definition submit_both : list lmove :=
  [CallSubmit live (Some t1) 0; CallSubmit live (Some t2) 0] ++
  replicate 4 (MoveSubmit 0 OnChan_) ++ replicate 4 (MoveSubmit 1 OnChan_).

(** [CloseContext] with a live context, from its load to its return. *)
Definition close_all : list lmove := CallClose live :: replicate 11 (MoveClose 0).

(** The handoff yielder takes the first task. *)
Definition handoff_takes : list lmove :=
  replicate 2 (MoveYielder 0 (MoveGen OnChan) (incoming small)).

Definition handed : lobby := Eval cbv in
  match lexec (submit_both ++ close_all ++ handoff_takes) small with Some l => l | None => small end.

Lemma handed_reachable : rtc lstep small handed.
Proof. apply (lexec_rtc (submit_both ++ close_all ++ handoff_takes)). vm_compute. reflexivity. Qed.

(** Two tasks, one with the handoff yielder; the lobby is closed. *)
Lemma lobby_contract_witness :
  rtc lstep small handed ∧ outs handed = [t1] ∧ chan_buf (incoming handed) = [t2] ∧
  accepted handed = [t1; t2] ∧ HandoffTasks handed = (Some 0, true) ∧
  (∀ l', rtc lstep handed l' → accepted l' = [t1; t2]).
Proof.
  destruct (lobby_contract 2 Second handed handed_reachable) as (_ & Ha & _ & _ & _ & Hf).
  split_and!; [apply handed_reachable|reflexivity..|].
  intros l' Hr. exact (Hf eq_refl l' Hr).
Defined.

(** The close timeout ends while the handoff yielder has a task in hand: the task is
    nowhere, though the results have room for it. *)
Example handoff_drops_task :
  ∃ l, lexec (submit_both ++ close_all ++ handoff_takes ++
         [MoveYielder 0 (CtxEnds DeadlineExceeded) (incoming small)] ++
         replicate 6 (MoveYielder 0 (MoveGen OnDone) (incoming small))) small = Some l ∧
    retrieved l = [] ∧ chan_buf (incoming l) = [t2] ∧
    ∃ y, ylds l = [(true, y)] ∧ doneCh y = true ∧ dropped y = [t1] ∧
         received y = [] ∧ genChan y = Chan 2 [] true.
Proof. eexists. split; [vm_compute; reflexivity|]. split_and!; try done. eexists. by split_and!. Qed.

(** While [CloseContext] runs, [HandoffTasks] reports a closed lobby without a yielder. *)
Example handoff_nil_while_closing :
  ∃ l, lexec (submit_both ++ CallClose live :: replicate 2 (MoveClose 0)) small = Some l ∧
    HandoffTasks l = (None, true) ∧ chan_buf (incoming l) = [t1; t2].
Proof. eexists. split; [vm_compute; reflexivity|]. by split. Qed.

(** [PushTasks] waits for the end of a yielder before it reads: one whose buffer is
    smaller than its values only ends by its timeout, and nothing is pushed. *)
Example push_needs_buffer :
  ∃ l, lexec ([NewSource live [WithValues [t1; t2]]; CallPush live 0 Second] ++
         [MoveYielder 0 (MoveGen (FnEnds (GenReturns [t1; t2] None))) (incoming small)] ++
         replicate 2 (MoveYielder 0 (MoveGen OnChan) (incoming small)) ++
         [MoveYielder 0 (CtxEnds DeadlineExceeded) (incoming small)] ++
         replicate 5 (MoveYielder 0 (MoveGen OnDone) (incoming small)) ++
         replicate 2 (MovePush 0 OnChan_)) small = Some l ∧
    (p_at <$> pushes l) = [PushReturned (Some ErrStopped)] ∧ accepted l = [] ∧
    ∀ m, lexec ([NewSource live [WithValues [t1; t2]]; CallPush live 0 Second] ++
         [MoveYielder 0 (MoveGen (FnEnds (GenReturns [t1; t2] None))) (incoming small)] ++
         replicate 2 (MoveYielder 0 (MoveGen OnChan) (incoming small)) ++
         [MoveYielder 0 (MoveGen m) (incoming small)]) small = None.
Proof. eexists. split; [vm_compute; reflexivity|]. split_and!; try done. by intros []. Qed.
