(* ===== verification/LobbyProgress.v ===== *)
(** * [CloseContext] can return ([src/pkg/taskqueue/lobby.go])

    [CloseContext] waits for the write lock, and submissions blocked on a full lobby hold
    the read lock: they leave because [closing] was closed before. From any state a call
    of [CloseContext] gets to its end by steps of such calls and of the submissions under
    way, and of nothing else. *)
From S2P Require Import Prelude Golang QueueTypes Yielder YielderSafety Lobby LobbySafety.

(** The steps of calls of [CloseContext], and those of submissions that take the case
    of [closing] in their select. *)
Definition winds_up (m : lmove) : Prop :=
  match m with MoveClose _ | MoveSubmit _ OnClosing | MovePush _ OnClosing => True | _ => False end.

Definition solo (l l' : lobby) : Prop := ∃ m, winds_up m ∧ lact m l = Some (Ret l').

Lemma solo_lstep l l' : solo l l' → lstep l l'.
Proof. intros (m & _ & Hm). by exists m. Qed.

(** ** A push submits from a yielder that exists *)
Definition sources_ok (l : lobby) : Prop :=
  ∀ i p c, pushes l !! i = Some p → p_at p = PushSubmit c → is_Some (ylds l !! p_src p).

Lemma sources_ok_frame l l' :
  (length (ylds l) ≤ length (ylds l'))%nat → pushes l' = pushes l → sources_ok l → sources_ok l'.
Proof.
  intros Hy Hp Hok i p c. rewrite Hp. intros Hi Hc. apply (Hok i p c Hi) in Hc as Hs.
  apply lookup_lt_is_Some in Hs. apply lookup_lt_is_Some. lia.
Qed.

(** The branches of a step of [SubmitTask]. *)
Ltac submit_inv Hs :=
  repeat first
    [ progress simplify_eq/=
    | match type of Hs with
      | mbind _ _ = Some _ => apply bind_Some in Hs as (? & ? & Hs)
      | obind _ _ = Ret _ => apply obind_Ret in Hs as (? & ? & Hs)
      end
    | match goal with
      | H : match ?x with _ => _ end = _ |- _ => destruct x eqn:?
      end ].

(** A call of [SubmitTask] keeps the tables of the lobby. *)
Lemma SubmitTask_step_tables ch c l r :
  SubmitTask_step ch c l = Some (Ret r) →
  ylds r.2 = ylds l ∧ pushes r.2 = pushes l ∧ submits r.2 = submits l ∧ closes r.2 = closes l ∧
  closed r.2 = closed l.
Proof.
  unfold SubmitTask_step, send_task. intros Hs. submit_inv Hs; done.
Qed.

Lemma PushTasks_step_sources ch p l r :
  PushTasks_step ch p l = Some (Ret r) →
  p_src r.1 = p_src p ∧ is_Some (ylds l !! p_src p) ∧ length (ylds r.2) = length (ylds l) ∧
  pushes r.2 = pushes l ∧ closes r.2 = closes l ∧ submits r.2 = submits l ∧ closed r.2 = closed l.
Proof.
  unfold PushTasks_step. intros Hs. apply bind_Some in Hs as (y & Hy & Hs). rewrite Hy.
  destruct (p_at p) as [| | |c|e] eqn:Hat; try done.
  - destruct ch; try done; [destruct (p_ctx p)|destruct (doneCh y.2)]; by simplify_eq.
  - by simplify_eq.
  - destruct (chan_recv (genChan y.2)); simplify_eq; [|done].
    apply bind_Some in Hs as (w & _ & Hs). simplify_eq/=. by rewrite length_insert.
  - destruct (s_at c) as [| | | |[e|]]; [..|by simplify_eq|by simplify_eq].
    all: apply bind_Some in Hs as (o & Ho & [= Hg]); apply obind_Ret in Hg as (r2 & -> & [= <-]);
      apply SubmitTask_step_tables in Ho as (Hys & ? & ? & ? & ?); cbn; by rewrite Hys.
Qed.

(** The moves of other calls leave the pushes alone. *)
Lemma lact_sources m l l' : lact m l = Some (Ret l') → sources_ok l → sources_ok l'.
Proof.
  intros Hs Hok. destruct m; cbn [lact] in Hs; try (by simplify_eq).
  - apply bind_Some in Hs as (c & Hi & Hs). apply bind_Some in Hs as (o & Ho & [= Hg]).
    apply obind_Ret in Hg as (r & -> & [= <-]). apply SubmitTask_step_tables in Ho as (Hy & Hp & _).
    apply (sources_ok_frame l); [by cbn; rewrite Hy|done|done].
  - simplify_eq. intros j p c [Hj|[_ Hj]]%lookup_app_Some; [by apply (Hok j)|].
    by apply list_lookup_singleton_Some in Hj as [_ <-].
  - apply bind_Some in Hs as (p & Hi & Hs). apply bind_Some in Hs as (o & Ho & [= Hg]).
    apply obind_Ret in Hg as (r & -> & [= <-]). apply PushTasks_step_sources in Ho as (Hsrc & Hy & Hlen & Hp & _).
    intros j p' c. cbn. rewrite Hp. intros Hj Hc. apply lookup_lt_is_Some. rewrite Hlen.
    destruct (decide (j = i)) as [->|Hne].
    + rewrite list_lookup_insert_eq in Hj by (by eapply lookup_lt_Some). simplify_eq.
      rewrite Hsrc. by apply lookup_lt_is_Some.
    + rewrite list_lookup_insert_ne in Hj by done. by apply lookup_lt_is_Some, (Hok j p' c).
  - simplify_eq. intros j p c. cbn. destruct (decide (j = i)) as [->|Hne].
    + rewrite list_lookup_alter_eq. intros (x & Hx & ->)%fmap_Some Hc. cbn in *.
      destruct (p_at x) eqn:Hat; try done. by apply (Hok i x c0).
    + rewrite list_lookup_alter_ne by done. by apply Hok.
  - apply bind_Some in Hs as (r & Hr & [= <-]). unfold RetrieveTask, recv_task in Hr.
    by repeat case_match; simplify_eq.
  - simplify_eq. unfold FetchTasks. destruct (incoming_yielder _ _ _); [done|].
    apply (sources_ok_frame l); [cbn; rewrite length_app; cbn; lia|done|done].
  - apply bind_Some in Hs as (c & Hi & Hs). apply bind_Some in Hs as (o & Ho & [= Hg]).
    apply obind_Ret in Hg as (r & -> & [= <-]). unfold CloseContext_step in Ho.
    destruct (x_at c); try done;
      repeat match type of Ho with
      | Some (obind _ _) = _ => apply (inj Some), obind_Ret in Ho as (ch & Hch & Ho)
      | match ?x with _ => _ end = Some _ => destruct x
      end; simplify_eq; try done.
    apply (sources_ok_frame l); [cbn; rewrite length_app; cbn; lia|done|done].
  - destruct (Yielder.New c opts); simplify_eq.
    apply (sources_ok_frame l); [cbn; rewrite length_app; cbn; lia|done|done].
  - unfold yielder_move in Hs. apply bind_Some in Hs as (r & Hk & Hs).
    apply bind_Some in Hs as (o & Ho & [= Hg]). apply obind_Ret in Hg as (q & -> & [= <-]).
    apply (sources_ok_frame l); [|by destruct r as [[] ?]|done].
    destruct r as [[] ?]; cbn; by rewrite length_insert.
Qed.

(** ** No submission selects without a task *)
Definition stuck (c : submit_call) : nat :=
  match s_at c, s_task c with SubSelect, None => 1 | _, _ => 0 end.

Lemma SubmitTask_step_stuck ch c l r : SubmitTask_step ch c l = Some (Ret r) → stuck r.1 = 0.
Proof.
  unfold SubmitTask_step. intros Hs. submit_inv Hs; unfold stuck; cbn; try done; by case_match.
Qed.

Lemma PushTasks_step_stuck ch p l r :
  PushTasks_step ch p l = Some (Ret r) → inner stuck r.1 = 0.
Proof.
  unfold PushTasks_step. intros Hs. apply bind_Some in Hs as (y & Hy & Hs).
  destruct (p_at p) as [| | |c|e] eqn:Hat; try done.
  - destruct ch; try done; [destruct (p_ctx p)|destruct (doneCh y.2)]; by simplify_eq.
  - simplify_eq. unfold inner. cbn. by destruct (err y.2).
  - destruct (chan_recv (genChan y.2)); simplify_eq; [|done].
    apply bind_Some in Hs as (w & _ & Hs). by simplify_eq/=.
  - destruct (s_at c) as [| | | |[e|]]; [..|by simplify_eq|by simplify_eq].
    all: apply bind_Some in Hs as (o & Ho & [= Hg]); apply obind_Ret in Hg as (r2 & -> & [= <-]);
      by eapply SubmitTask_step_stuck.
Qed.

Lemma lact_stuck m l l' : lact m l = Some (Ret l') → in_lobby stuck l = 0 → in_lobby stuck l' = 0.
Proof.
  unfold in_lobby. intros Hs Hst. destruct m; cbn [lact] in Hs; try (by simplify_eq).
  - simplify_eq. cbn. rewrite sum_list_with_app. cbn. lia.
  - apply bind_Some in Hs as (c & Hi & Hs). apply bind_Some in Hs as (o & Ho & [= Hg]).
    apply obind_Ret in Hg as (r & -> & [= <-]). pose proof (SubmitTask_step_stuck _ _ _ _ Ho) as H0.
    apply SubmitTask_step_tables in Ho as (_ & Hp & Hsu & _). cbn. rewrite Hp, Hsu.
    pose proof (sum_list_with_insert stuck _ _ _ r.1 Hi). lia.
  - simplify_eq. cbn. by rewrite sum_list_with_alter_same.
  - simplify_eq. cbn. rewrite sum_list_with_app. cbn. lia.
  - apply bind_Some in Hs as (p & Hi & Hs). apply bind_Some in Hs as (o & Ho & [= Hg]).
    apply obind_Ret in Hg as (r & -> & [= <-]). pose proof (PushTasks_step_stuck _ _ _ _ Ho) as H0.
    apply PushTasks_step_sources in Ho as (_ & _ & _ & Hp & _ & Hsu & _). cbn. rewrite Hp, Hsu.
    pose proof (sum_list_with_insert (inner stuck) _ _ _ r.1 Hi). lia.
  - simplify_eq. cbn. rewrite sum_list_with_alter_same; [done|].
    intros p. unfold inner, end_push. cbn. by destruct (p_at p).
  - apply bind_Some in Hs as (r & Hr & [= <-]). unfold RetrieveTask, recv_task in Hr.
    by repeat case_match; simplify_eq.
  - simplify_eq. unfold FetchTasks. by destruct (incoming_yielder _ _ _).
  - apply bind_Some in Hs as (c & Hi & Hs). apply bind_Some in Hs as (o & Ho & [= Hg]).
    apply obind_Ret in Hg as (r & -> & [= <-]). unfold CloseContext_step in Ho.
    destruct (x_at c); try done;
      repeat match type of Ho with
      | Some (obind _ _) = _ => apply (inj Some), obind_Ret in Ho as (ch & Hch & Ho)
      | match ?x with _ => _ end = Some _ => destruct x
      end; by simplify_eq.
  - destruct (Yielder.New c opts); by simplify_eq.
  - unfold yielder_move in Hs. apply bind_Some in Hs as (r & Hk & Hs).
    apply bind_Some in Hs as (o & Ho & [= Hg]). apply obind_Ret in Hg as (q & -> & [= <-]).
    by destruct r as [[] ?].
Qed.

(** ** A call past its store has marked the lobby closed *)
Definition marks (c : close_call) : Prop :=
  match x_at c with CloseLoad | CloseStore => False | _ => True end.
Definition marked (l : lobby) : Prop := ∀ i c, closes l !! i = Some c → marks c → closed l = true.

Lemma marked_frame l l' : closes l' = closes l → closed l' = closed l → marked l → marked l'.
Proof. unfold marked. by intros -> ->. Qed.

Lemma CloseContext_step_marks c l r :
  CloseContext_step c l = Some (Ret r) → closes r.2 = closes l ∧
  (closed l = true → closed r.2 = true) ∧ (marks r.1 → marks c ∨ closed r.2 = true).
Proof.
  unfold CloseContext_step, marks. intros Ho. destruct (x_at c); try done;
    repeat match type of Ho with
    | Some (obind _ _) = _ => apply (inj Some), obind_Ret in Ho as (ch & Hch & Ho)
    | match ?x with _ => _ end = Some _ => destruct x
    end; simplify_eq; cbn; split_and!; auto.
  by destruct (closed l); auto.
Qed.

Lemma lact_marked m l l' : lact m l = Some (Ret l') → marked l → marked l'.
Proof.
  intros Hs Hm. destruct m; cbn [lact] in Hs; try (by simplify_eq).
  - apply bind_Some in Hs as (c & Hi & Hs). apply bind_Some in Hs as (o & Ho & [= Hg]).
    apply obind_Ret in Hg as (r & -> & [= <-]). apply SubmitTask_step_tables in Ho as (_ & _ & _ & ? & ?).
    by apply (marked_frame l).
  - apply bind_Some in Hs as (c & Hi & Hs). apply bind_Some in Hs as (o & Ho & [= Hg]).
    apply obind_Ret in Hg as (r & -> & [= <-]). apply PushTasks_step_sources in Ho as (_ & _ & _ & _ & ? & _ & ?).
    by apply (marked_frame l).
  - apply bind_Some in Hs as (r & Hr & [= <-]). unfold RetrieveTask, recv_task in Hr.
    by repeat case_match; simplify_eq.
  - simplify_eq. unfold FetchTasks. by destruct (incoming_yielder _ _ _).
  - simplify_eq. intros i c [Hi|[_ Hi]]%lookup_app_Some; [by apply (Hm i)|].
    by apply list_lookup_singleton_Some in Hi as [_ <-].
  - apply bind_Some in Hs as (c & Hi & Hs). apply bind_Some in Hs as (o & Ho & [= Hg]).
    apply obind_Ret in Hg as (r & -> & [= <-]). destruct (CloseContext_step_marks _ _ _ Ho) as (Hcs & Hcl & Hmk).
    intros j x. cbn. rewrite Hcs. destruct (decide (j = i)) as [->|Hne].
    + rewrite list_lookup_insert_eq by (by eapply lookup_lt_Some). intros [= <-] [?|?]%Hmk; [|done].
      by apply Hcl, (Hm i c).
    + rewrite list_lookup_insert_ne by done. intros Hj Hx. by apply Hcl, (Hm j x).
  - destruct (Yielder.New c opts); by simplify_eq.
  - unfold yielder_move in Hs. apply bind_Some in Hs as (r & Hk & Hs).
    apply bind_Some in Hs as (o & Ho & [= Hg]). apply obind_Ret in Hg as (q & -> & [= <-]).
    by destruct r as [[] ?].
Qed.

(** ** The submissions that hold the read lock leave *)
Definition hold_weight (c : submit_call) : nat :=
  match s_at c with SubCheck => 3 | SubSelect => 2 | SubUnlock _ => 1 | _ => 0 end.

Lemma holder_progress c l :
  closing l = true → (selecting c = 1 → chan_closed (incoming l) = false) → stuck c = 0 → holding c = 1 →
  ∃ r, SubmitTask_step OnClosing c l = Some (Ret r) ∧ (hold_weight r.1 < hold_weight c)%nat.
Proof.
  unfold SubmitTask_step, selecting, stuck, holding, hold_weight. intros Hcl Hopen Hst Hh.
  destruct (s_at c) eqn:Hat; try done.
  - destruct (closed l); [|destruct (s_task c)]; (eexists; split; [done|]); cbn; lia.
  - destruct (s_task c) as [t|]; [|done]. cbn. specialize (Hopen eq_refl).
    destruct (s_timeout c <=? 0)%Z; [|rewrite Hcl; eexists; split; [done|]; cbn; lia].
    destruct (send_task t l) as [o|] eqn:Hsend; [|eexists; split; [done|]; cbn; lia].
    destruct (send_task_spec _ _ _ Hsend) as [[-> ?]|(ch & _ & _ & ->)]; [congruence|].
    eexists. split; [done|]. cbn. lia.
  - eexists. split; [done|]. cbn. lia.
Qed.

Lemma holder_exists {A} (f : A → nat) l :
  sum_list_with f l ≠ 0 → ∃ i x, l !! i = Some x ∧ f x ≠ 0.
Proof.
  induction l as [|x l IH]; cbn; [done|]. intros H. destruct (decide (f x = 0)) as [E|E].
  - destruct IH as (i & y & ? & ?); [lia|]. by exists (S i), y.
  - by exists 0, x.
Qed.

Lemma reader_leaves l :
  lobby_inv l → sources_ok l → in_lobby stuck l = 0 → closing l = true → chan_closed (incoming l) = false →
  readers l ≠ 0 →
  ∃ l', solo l l' ∧ closes l' = closes l ∧ (in_lobby hold_weight l' < in_lobby hold_weight l)%nat.
Proof.
  intros [Hl _] Hsrc Hst Hcl Hopen Hr. rewrite (li_readers _ Hl) in Hr. unfold in_lobby in *.
  destruct (decide (sum_list_with holding (submits l) = 0)) as [E|E].
  - destruct (holder_exists (inner holding) (pushes l)) as (i & p & Hi & Hp); [lia|].
    unfold inner in Hp. destruct (p_at p) as [| | |c|] eqn:Hat; try done.
    pose proof (sum_list_with_elem (inner stuck) _ _ _ Hi) as Hs. unfold inner in Hs at 1. rewrite Hat in Hs.
    destruct (holder_progress c l) as (r & Hstep & Hlt); [done|done|lia|unfold holding in *; by destruct (s_at c)|].
    destruct (Hsrc i p c Hi Hat) as [y Hy].
    exists (set_pushes (<[i := push_to (PushSubmit r.1) p]> (pushes r.2)) r.2).
    destruct (SubmitTask_step_tables _ _ _ _ Hstep) as (_ & Hpu & Hsu & Hcs & _).
    split_and!; [|exact Hcs|].
    + exists (MovePush i OnClosing). split; [done|]. cbn [lact]. rewrite Hi. cbn. unfold PushTasks_step.
      rewrite Hy. cbn. rewrite Hat. unfold holding in Hp. destruct (s_at c); try done; by rewrite Hstep.
    + cbn. rewrite Hpu, Hsu.
      pose proof (sum_list_with_insert (inner hold_weight) _ _ _ (push_to (PushSubmit r.1) p) Hi) as H.
      unfold inner in H at 2 4. cbn in H. rewrite Hat in H. lia.
  - destruct (holder_exists holding (submits l) E) as (i & c & Hi & Hc).
    pose proof (sum_list_with_elem stuck _ _ _ Hi) as Hs.
    destruct (holder_progress c l) as (r & Hstep & Hlt); [done|done|lia|unfold holding in *; by destruct (s_at c)|].
    exists (set_submits (<[i := r.1]> (submits r.2)) r.2).
    destruct (SubmitTask_step_tables _ _ _ _ Hstep) as (_ & Hpu & Hsu & Hcs & _).
    split_and!; [|exact Hcs|].
    + exists (MoveSubmit i OnClosing). split; [done|]. cbn [lact]. rewrite Hi. cbn. by rewrite Hstep.
    + cbn. rewrite Hpu, Hsu. pose proof (sum_list_with_insert hold_weight _ _ _ r.1 Hi). lia.
Qed.

(** ** The call inside the once *)
Definition close_weight (ph : close_phase) : nat :=
  match ph with
  | CloseLoad => 11 | CloseStore => 10 | CloseOnce => 9 | CloseClosing => 8 | CloseLock => 7
  | CloseLocked => 6 | CloseNew => 5 | CloseHandoff _ => 4 | CloseChan _ => 3 | CloseUnlock _ => 2
  | CloseEnd _ => 1 | CloseReturned _ => 0
  end.

Definition returned (c : close_call) : Prop := ∃ e, x_at c = CloseReturned e.

Lemma runner_progress c l :
  running c = 1 → close_inv l c → (x_at c = CloseLocked → readers l = 0) →
  ∃ r, CloseContext_step c l = Some (Ret r) ∧ (close_weight (x_at r.1) < close_weight (x_at c))%nat ∧
    (running r.1 = 1 ∨ returned r.1) ∧
    closes r.2 = closes l ∧ submits r.2 = submits l ∧ pushes r.2 = pushes l.
Proof.
  unfold running at 1, close_inv, CloseContext_step, returned. intros Hr Hci Hrd.
  destruct (x_at c) eqn:Hat; try done.
  - destruct Hci as (-> & _). eexists. split; [done|]. cbn. split_and!; eauto.
  - destruct Hci as (_ & _ & ->). eexists. split; [done|]. cbn. split_and!; eauto.
  - rewrite Hrd by done. eexists. split; [done|]. cbn. split_and!; eauto.
  - destruct (incoming_yielder _ _ _); (eexists; split; [done|]); cbn; split_and!; eauto; lia.
  - eexists. split; [done|]. cbn. split_and!; eauto.
  - destruct Hci as (_ & Hop & _). unfold close_chan. rewrite Hop. eexists. split; [done|]. cbn. split_and!; eauto.
  - eexists. split; [done|]. cbn. split_and!; eauto.
  - eexists. split; [done|]. cbn. split_and!; eauto.
Qed.

Definition well (l : lobby) : Prop := lobby_inv l ∧ sources_ok l ∧ in_lobby stuck l = 0 ∧ marked l.

Lemma well_step l l' : lstep l l' → well l → well l'.
Proof.
  intros [m Hm] (Hi & Hs & Hst & Hmk).
  split_and!; [by eapply lact_inv|by eapply lact_sources|by eapply lact_stuck|by eapply lact_marked].
Qed.

Lemma reachable_well n timeout l : rtc lstep (NewLobby n timeout) l → well l.
Proof.
  intros Hrtc. refine (rtc_preserves lstep well _ _ _ Hrtc _); [intros; by eapply well_step|].
  by split_and!; [apply NewLobby_inv|intros [|i] p c Hi|done|intros [|i] c Hi].
Qed.

(** A step of one call of [CloseContext]. *)
Lemma close_moves l i c r :
  closes l !! i = Some c → CloseContext_step c l = Some (Ret r) →
  solo l (set_closes (<[i := r.1]> (closes r.2)) r.2).
Proof. intros Hi Hs. exists (MoveClose i). split; [done|]. cbn [lact]. rewrite Hi. cbn. by rewrite Hs. Qed.

Lemma close_runner_finishes l i c :
  well l → closes l !! i = Some c → running c = 1 →
  ∃ l' c', rtc solo l l' ∧ well l' ∧ closes l' !! i = Some c' ∧ returned c' ∧
    (∀ j, j ≠ i → closes l' !! j = closes l !! j) ∧ onceClose l' ≠ OnceRunning.
Proof.
  intros Hw Hi Hr.
  destruct (rtc_down solo
    (λ s, well s ∧ (∀ j, j ≠ i → closes s !! j = closes l !! j) ∧
      ∃ x, closes s !! i = Some x ∧ (running x = 1 ∨ returned x))
    (λ s, ∃ x, closes s !! i = Some x ∧ returned x)
    (λ s, in_lobby hold_weight s + match closes s !! i with Some x => close_weight (x_at x) | None => 0 end)%nat)
    with (s := l) as (l' & Hrtc & (Hw' & Hothers & _) & x & Hx & Hret).
  - intros s (Hws & Hothers & x & Hx & [Hrun|Hret]); [|left; by exists x]. right.
    pose proof Hws as ([Hl Hd] & Hsrc & Hst & _). pose proof (li_calls _ Hl _ _ Hx) as Hci.
    assert (x_at x = CloseLocked ∧ readers s ≠ 0 ∨ (x_at x = CloseLocked → readers s = 0)) as [[Hat Hrd]|Hrd]
      by (destruct (readers s); [by right|destruct (x_at x); naive_solver]).
    + unfold close_inv in Hci. rewrite Hat in Hci. destruct Hci as (Hcl & Hop & _).
      destruct (reader_leaves s (conj Hl Hd) Hsrc Hst Hcl Hop Hrd) as (s' & Hs & Hcs & Hlt).
      exists s'. rewrite Hcs. split_and!; [done|exact (well_step _ _ (solo_lstep _ _ Hs) Hws)|done|eauto|lia].
    + destruct (runner_progress x s Hrun Hci Hrd) as (r & Hstep & Hlt & Hor & Hcs & Hsu & Hpu).
      pose proof (close_moves _ _ _ _ Hx Hstep) as Hsolo. pose proof (lookup_lt_Some _ _ _ Hx) as Hlen.
      eexists. split; [exact Hsolo|]. split_and!; [exact (well_step _ _ (solo_lstep _ _ Hsolo) Hws)|..];
        cbn; rewrite Hcs.
      * intros j Hj. rewrite list_lookup_insert_ne by done. auto.
      * exists r.1. rewrite list_lookup_insert_eq by done. eauto.
      * rewrite list_lookup_insert_eq, Hx by done. unfold in_lobby. cbn. rewrite Hsu, Hpu. lia.
  - split_and!; [done|done|]. exists c. auto.
  - exists l', x. split_and!; try done. intros Ho. pose proof Hw as ([Hl _] & _). pose proof Hw' as ([Hl' _] & _).
    pose proof (li_once _ Hl') as Hon. unfold once_inv in Hon. rewrite Ho in Hon.
    destruct (holder_exists running (closes l')) as (k & y & Hk & Hy); [lia|].
    assert (k ≠ i) as Hne.
    { intros ->. assert (y = x) as -> by congruence. destruct Hret as [e He]. unfold running in Hy. by rewrite He in Hy. }
    rewrite Hothers in Hk by done. apply Hy. by apply (others_idle l i k c y (li_once _ Hl)); [..|left].
Qed.

(** ** Any call *)
Lemma at_once_finishes l i c :
  well l → closes l !! i = Some c → x_at c = CloseOnce →
  ∃ l' c', rtc solo l l' ∧ closes l' !! i = Some c' ∧ returned c' .
Proof.
  intros Hw Hi Hat.
  assert (∀ s, well s → closes s !! i = Some c → onceClose s ≠ OnceRunning →
    ∃ l' c', rtc solo s l' ∧ closes l' !! i = Some c' ∧ returned c') as Hfree.
  { intros s Hws Hs Ho. pose proof (lookup_lt_Some _ _ _ Hs) as Hlen.
    assert (∃ r, CloseContext_step c s = Some (Ret r) ∧ (running r.1 = 1 ∨ returned r.1) ∧ closes r.2 = closes s)
      as (r & Hstep & Hor & Hcs).
    { unfold CloseContext_step, returned. rewrite Hat. destruct (onceClose s); try done; eexists; (split; [done|]); cbn; eauto. }
    pose proof (close_moves _ _ _ _ Hs Hstep) as Hsolo. set (s1 := set_closes _ _) in Hsolo.
    assert (closes s1 !! i = Some r.1) as Hi1 by (cbn; rewrite Hcs; by apply list_lookup_insert_eq).
    destruct Hor as [Hrun|Hret]; [|exists s1, r.1; by split_and!; [apply rtc_once|..]].
    destruct (close_runner_finishes s1 i r.1) as (l' & c' & Hrtc & _ & Hc' & Hret & _); [|done|done|].
    - exact (well_step _ _ (solo_lstep _ _ Hsolo) Hws).
    - exists l', c'. split_and!; [by eapply rtc_l|done|done]. }
  assert (onceClose l = OnceRunning ∨ onceClose l ≠ OnceRunning) as [Ho|Ho] by (destruct (onceClose l); auto);
    [|by apply Hfree].
  pose proof Hw as ([Hl _] & _). pose proof (li_once _ Hl) as Hon. unfold once_inv in Hon. rewrite Ho in Hon.
  destruct (holder_exists running (closes l)) as (j & x & Hj & Hx); [lia|].
  assert (j ≠ i) as Hne by (intros ->; assert (x = c) as -> by congruence; unfold running in Hx; by rewrite Hat in Hx).
  destruct (close_runner_finishes l j x Hw Hj) as (l1 & x1 & Hrtc & Hw1 & Hx1 & Hret1 & Hothers & Ho1).
  { unfold running in *. by destruct (x_at x). }
  destruct (Hfree l1) as (l2 & c2 & Hrtc2 & ?); [done|by rewrite Hothers|done|].
  exists l2, c2. split; [by etrans|done].
Qed.

Lemma call_finishes l i c :
  well l → closes l !! i = Some c → ∃ l' c', rtc solo l l' ∧ closes l' !! i = Some c' ∧ returned c'.
Proof.
  intros Hw Hi.
  assert (∀ s x, well s → closes s !! i = Some x → marks x →
    ∃ l' c', rtc solo s l' ∧ closes l' !! i = Some c' ∧ returned c') as Hmarks.
  { intros s x Hs Hx Hm.
    assert (x_at x = CloseOnce ∨ returned x ∨ running x = 1) as [?|[?|?]]
      by (unfold marks, returned, running in *; destruct (x_at x); try done; eauto).
    - by eapply at_once_finishes.
    - by exists s, x.
    - destruct (close_runner_finishes s i x) as (l' & c' & ? & _ & ? & ? & _); [done..|]. by exists l', c'. }
  assert (∀ s x, well s → closes s !! i = Some x → x_at x = CloseStore →
    ∃ l' c', rtc solo s l' ∧ closes l' !! i = Some c' ∧ returned c') as Hstore.
  { intros s x Hs Hx Hat. assert (CloseContext_step x s = Some (Ret (close_to CloseOnce x, set_closed true s))) as Hstep
      by (unfold CloseContext_step; by rewrite Hat).
    pose proof (close_moves _ _ _ _ Hx Hstep) as Hsolo. pose proof (lookup_lt_Some _ _ _ Hx) as Hlen.
    destruct (Hmarks _ (close_to CloseOnce x) (well_step _ _ (solo_lstep _ _ Hsolo) Hs)) as (l' & c' & ? & ?);
      [by apply list_lookup_insert_eq|done|]. exists l', c'. split; [by eapply rtc_l|done]. }
  destruct (x_at c) eqn:Hat; try (apply (Hmarks l c); [done|done|unfold marks; by rewrite Hat]).
  - set (ph := if closed l then CloseReturned (Some ErrLobbyClosed) else CloseStore).
    assert (CloseContext_step c l = Some (Ret (close_to ph c, l))) as Hstep
      by (unfold CloseContext_step; by rewrite Hat).
    pose proof (close_moves _ _ _ _ Hi Hstep) as Hsolo. pose proof (lookup_lt_Some _ _ _ Hi) as Hlen.
    pose proof (well_step _ _ (solo_lstep _ _ Hsolo) Hw) as Hw1. set (s := set_closes _ _) in Hsolo, Hw1.
    assert (closes s !! i = Some (close_to ph c)) as Hs by by apply list_lookup_insert_eq.
    assert (∃ l' c', rtc solo s l' ∧ closes l' !! i = Some c' ∧ returned c') as (l' & c' & ? & ?).
    { unfold ph in *. destruct (closed l); [by eapply Hmarks|by eapply Hstore]. }
    exists l', c'. split; [by eapply rtc_l|done].
  - by eapply Hstore.
Qed.

(** C27: [CloseContext] cannot be kept from returning. In every state reachable from
    [NewLobby], whatever the submissions, pushes, consumers and yielders did before, a
    call of [CloseContext] can be brought to its return by steps of such calls and of the
    submissions under way, which take the case of [closing]: no timer has to fire, no
    context to end, no task to be retrieved and no yielder to run, even if the lobby is
    full and its submitters hold the lock. The lobby is marked closed then. *)
Theorem lobby_close_can_return n timeout l i c :
  rtc lstep (NewLobby n timeout) l → closes l !! i = Some c →
  ∃ l' c' e, rtc solo l l' ∧ closes l' !! i = Some c' ∧ x_at c' = CloseReturned e ∧ closed l' = true.
Proof.
  intros Hrtc Hi. pose proof (reachable_well _ _ _ Hrtc) as Hw.
  destruct (call_finishes l i c Hw Hi) as (l' & c' & Hsolo & Hc' & e & He). exists l', c', e.
  split_and!; try done.
  assert (well l') as (_ & _ & _ & Hm).
  { refine (rtc_preserves solo well _ _ _ Hsolo Hw). intros s s' Hs Hss. by eapply well_step; [apply solo_lstep|]. }
  apply (Hm i c' Hc'). unfold marks. by rewrite He.
Qed.

(** A full lobby, a submitter blocked in its select, and a call of [CloseContext] that
    waits for the lock. *)
Definition jammed : lobby := Eval cbv in
  match lexec (submit_both ++ CallSubmit live (Some t1) Second :: replicate 2 (MoveSubmit 2 OnTimer) ++
    CallClose live :: replicate 5 (MoveClose 0)) small with Some l => l | None => small end.

Lemma jammed_reachable : rtc lstep small jammed.
Proof.
  apply (lexec_rtc (submit_both ++ CallSubmit live (Some t1) Second :: replicate 2 (MoveSubmit 2 OnTimer) ++
    CallClose live :: replicate 5 (MoveClose 0))). vm_compute. reflexivity.
Qed.

Lemma lobby_close_can_return_witness :
  lact (MoveClose 0) jammed = None ∧ lact (MoveSubmit 2 OnChan_) jammed = None ∧
  ∃ l' c' e, rtc solo jammed l' ∧ closes l' !! 0 = Some c' ∧ x_at c' = CloseReturned e ∧ closed l' = true.
Proof.
  split_and!; [reflexivity|reflexivity|].
  exact (lobby_close_can_return 2 Second jammed 0 (MkClose live CloseLocked) jammed_reachable eq_refl).
Defined.
